(* ===== verification/_CoqProject ===== *)
-Q . S2P
Prelude.v
Types.v
BookSpec.v
DList.v
Memory.v
StoreRep.v
LevelMap.v
BookSpecFacts.v
BookTime.v
MatchingEngine.v
Trades.v
Levels.v
Soundness.v
MatchLoop.v
BookCore.v
OrderBookMap.v
MapRefine.v
MapTheorems.v
EngineMap.v
MapClaims.v
OrderBookVector.v
VecRefine.v
VecTheorems.v
BookEquiv.v
EngineVector.v
TokenManager.v
Queue.v
Fifo.v
Wire.v
Ouch.v
OuchFacts.v
OrderServer.v
ServerFacts.v
Gateway.v
Exchange.v
Itch.v
Publisher.v
Streamer.v
FeedFacts.v
MarketData.v
ShadowBook.v
FeedTruth.v
Messages.v
Lifecycle.v
System.v
SystemInv.v
SystemSafe.v
Fair.v
Progress.v
Liveness.v
Shutdown.v
Sockets.v
Subscriber.v
PackedItch.v
PackedOuch.v
Readable.v
Layout.v
Startup.v
Recovery.v
Follow.v
Stall.v
Placement.v
World.v
Reach.v
