(* ===== verification/Prelude.v ===== *)
(** * NanoExchange: a verification development

    NanoExchange ([src/README.md]) is an electronic exchange: clients enter
    orders as OUCH messages over TCP, a matching engine trades them with
    price-time priority, and the trades and book changes go out as a sequenced
    ITCH feed with snapshot and replay recovery.  One thread per stage, joined
    by single-producer single-consumer queues:
<<
      client bytes -> OrderServer -> requestQ -> MatchingEngine -> marketUpdateQ
                 <-  (gateway)   <- responseQ <-   (books)            |
                                                                     v
      subscribers <- datagrams <- MarketDataPublisher -> streamer queue
      recovery clients <- snapshot, replay <- SnapshotStreamer <------+
>>
    ** The modelled program, file by file

    - [Types]: the messages, orders and price levels of [src/types.h].
    - [Memory]: what both order books share: order objects on a heap with
      [next_]/[prev_] pointers, the index [orders_], the object pool (class
      [ObjectPool]: QuantLink code), the counters, and sending a message.
    - [OrderBookMap] (Module [MapOB]): [engine/order_book/order_book_map.cpp],
      one definition per member function.  A level that [remove] erased is kept
      as a destroyed object, because the code reads through it once more.
    - [OrderBookVector] (Module [VecOB]): [order_book_vector.cpp], the level
      vectors with their intrusive sorted list and [best_bid_], [best_ask_].
    - [MatchingEngine]: [engine/matching_engine.cpp] over the class
      [OrderBook], the API that [order_book.h] selects an implementation of.
    - [TokenManager], [Fifo], [Ouch], [OrderServer]: the gateway
      ([network/gateway/], [network/protocol/ouch_processor.h]).
    - [Itch], [Publisher], [Streamer]: market data
      ([network/protocol/itch_encoder.h], [network/market/]).
    - [Sockets]: the same recovery service down to [send], [recv] and [accept].
    - [Queue], [Wire]: the interfaces of QuantLink's queue and byte swaps.
    - [Lifecycle]: [start], [stop] and the destructors of the four components
      and the program of the main thread, as a list of actions.
    - [System]: the process.  Its state is the gateway, the engine, the feed, a
      program counter per thread, the flags and threads, the rest of [main] and
      the network; a step is an iteration of one loop of one thread, so a
      blocked push is a step that changes nothing.  A run is any sequence of
      labels: main, the signal, an arrival, or one of the four threads.
    - [Startup]: the command line, the sockets the constructors open, the signal
      handlers; [Placement]: the table of threads [main] prints; [Layout]: the
      sizes of the shared structs.
    - [Subscriber]: the protocol a client of the feed keeps to, as
      [src/README.md] describes it, and the class [FeedClient] of the programs
      that do; no such program is in the repository.
    - [PackedItch], [PackedOuch]: layouts of the ITCH and OUCH structs with the
      readers that recover the members from their bytes, instances of the
      classes [ItchWire], [ItchReader], [OuchWire] and [OuchReader].

    Definitions have the names of the source.  State is passed explicitly, in
    the books and the gateway by the state monad [M] below, whose faults (null
    or dangling pointers, an index out of range, an exhausted pool, a failed
    ASSERT, a loop out of fuel) make "has no undefined behaviour and returns"
    the statement that the outcome is [Ok].  Integers are [Z] with their
    wrap-around written out where the code does arithmetic.

    ** Specifications and refinement

    - [BookSpec] is the contract of an order book: per side one list of resting
      orders in priority order.  [DList], [StoreRep], [LevelMap], [Levels],
      [BookSpecFacts] and [BookTime] relate heaps, levels and lists;
      [MatchLoop] verifies the two matching loops and [BookCore] the three
      requests once, against a class [BookCore] that [MapRefine]/[MapTheorems]
      and [VecRefine]/[VecTheorems] discharge for the two books.
    - [MatchingEngine] lifts the contract to runs of the engine; its theorems
      are proved against [OrderBookLaws] and instantiated per book.
    - [OuchFacts] has the contract of decoding on a history of registrations,
      [Gateway] the abstract gateway, [FeedFacts] the invariant of the feed,
      [ShadowBook] the market the feed describes.

    ** What the theorems show

    - [EngineMap], [MapClaims]: the engine with the map book does on every
      admissible run exactly what the specification does, without faults; the
      memory of its books is consistent, the market uncrossed and first come
      first served; matching follows price-time priority and conserves
      quantities; each request refines its abstract one; match ids are
      consecutive; add and cancel are inverse.
    - [EngineVector]: the same for the vector book; both builds keep the same
      books and send the same messages up to listed differences ([BookEquiv]).
    - [Exchange]: every interleaving of gateway and engine is safe if clients
      name listed tickers and pools suffice.
    - [SystemInv], [SystemSafe]: from bytes on sockets to trades, responses and
      datagrams: every schedule of the five threads is safe and agrees with the
      specification of the engine on the requests it took.
    - [Messages], [Fair], [Progress], [Liveness]: while [main] waits, enough fair
      rounds of the threads bring everything that arrived to its end.  Each
      request is worth at most eight messages, and [work] counts what is left to
      do; in every state some thread can lower it.
    - [Shutdown]: consumers outlive producers (responses excepted); after the
      signal [main] returns if the response queue has room, and does not if the
      engine waits for room there; requests may be left in the queue.
    - [Readable]: what the engine says fits the narrower fields of the wire, and
      whoever knows the layout reads it back from the bytes sent.
    - [Sockets]: recovery clients are served in a bounded number of calls and
      bounded time.  [Stall]: how long one client may hold the streamer, and how
      far the feed gets without it.
    - [Recovery], [Follow]: however datagrams are lost, repeated or reordered,
      any client that keeps to the protocol has exactly the market of its
      sequence number, replays and snapshots bring it up to date, and at the end
      of the feed it has the orders resting in the engine's books.  [World]: the
      same beside the whole process, with answers to recovery requests that may
      be late or somebody else's.  [Reach]: once the exchange has come to rest,
      one snapshot gives any such client the whole market.  All of this is about
      runs that are [told_run]: no request cancels a part of an order or
      replaces one at a price that crosses the other side, which the feed does
      not tell truly, and with the vector book none replaces an order by a
      fill-and-kill order, whose removal the vector book does not announce.
    - [Startup], [Placement]: which sockets are opened and when construction
      fails, what signals do, and that the table of threads is right.
    - [Gateway], [OuchFacts], [TokenManager], [Fifo]: nothing is lost or
      duplicated, TCP chunking does not matter, ids are fresh, a client can name
      its own orders only and is answered on its own socket only, requests are
      published in time order for every conforming sort; among the messages of
      one read, which have the same time, any order may result.
    - [MarketData]: the feed has no gaps, a replay is byte for byte what was
      sent, a snapshot is current.
    - [FeedTruth]: when the shadow book is the book.
    - Theorems about errors: a use after free in the map book's inner loop,
      prices and tickers out of range, announcements in which the vector book
      differs, unstable sorting, two ways the feed misses changes, the shutdown
      that hangs, the client that stalls the feed, and the thread that ends the
      process by ending itself.

    ** Fuel

    The matching loops run with [S] (the number of resting orders) as fuel, the
    walk along the levels with [S] (the number of slots), the framing loop with
    [S] (the buffered bytes); each is proved to be enough, never assumed.
    [drainResponses] takes its fuel as an argument and returns whenever it
    exceeds the queued responses; [System] runs it one round at a time, without
    fuel.  [sendAll] and [recvExact] run with [S] (the bytes to transfer), the
    accept loop with [S] (the waiting connections).  A client reads a replay or a
    snapshot with the number of its bytes as fuel.  Liveness and termination
    are stated for as many fair rounds as there is work left ([work],
    [remaining]), a number computed from the state.

    ** Assumptions on code that is not in the repository

    QuantLink is a submodule that is not part of the sources: its object pool,
    queues, byte swaps and message structs are classes with laws, and so are the
    sort and the hash iteration of the standard library, whose results the
    standard leaves open; each class has an instance for the concrete runs.
    The kernel's stream sockets are the class [StreamSocket], its files the class
    [FileSystem].  [freed_node], what a destroyed map node reads as, is a
    parameter of the map book's theorems with the hypothesis that a null head
    stays null; under it the map book has the laws [OrderBookLaws] that the
    theorems about the whole exchange ask of an order book, and the vector book
    has them without it.  The clients of the feed are the class [FeedClient],
    whose laws say that they keep to the protocol of the README; the protocol
    itself and a client that also counts are the instances of the concrete runs.
    An ITCH message is a constructor of [itch_msg], which stands for its type
    byte; the outgoing OUCH structs have theirs as a member.

    ** Conditions on the load

    [run_ready] (of a list of requests) and [load_ok] (of the bytes that arrive)
    ask for listed tickers, prices the book can hold, 32-bit quantities, fresh
    order ids (which the gateway provides) and room in the pools.  Room is
    [new_load]: the total number of NEW requests of a ticker over the whole run
    is at most the size of its pool.  That is more than the code needs, since a
    slot is free again once its order has left the book, but it is a condition
    on the requests alone.  [load_ok] also keeps 64-bit counters from wrapping.
    Without listed tickers and prices in range the engine faults, as the
    theorems about errors show.

    ** Not modelled

    Epoll, the registration of subscribers (QuantLink), thread pinning, memory
    ordering inside the queues, logging and the instrumentation macros, and in
    [main.cpp] the usage text, the banner and the progress messages.  System
    calls take time only in [Sockets] and [Stall]; [System] counts steps.  A call
    of [publishPendingOrders] is one step of the gateway in [System], so the
    engine pops between two such calls and not inside one: fewer interleavings
    than the code has.  [System] lets a client of the streamer receive its whole answer;
    [Sockets] shows what a cut connection changes. *)

From stdpp Require Export base gmap list fin_maps numbers sorting.

#[global] Open Scope Z_scope.

(** ** Machine integers

    A [w]-bit unsigned integer is a [Z]; arithmetic that may leave the range
    is wrapped explicitly, as the C++ unsigned types do. *)

Definition u16 (z : Z) : Z := z mod 2 ^ 16.
Definition u32 (z : Z) : Z := z mod 2 ^ 32.
Definition u64 (z : Z) : Z := z mod 2 ^ 64.

(** The counters of the program are 64 bits wide: [x +₆₄ y] is [x + y] in
    [uint64_t]. *)
Declare Scope machine_scope.
Notation "x +₆₄ y" := (u64 (x + y)) (at level 50, left associativity) : machine_scope.
#[global] Open Scope machine_scope.

Lemma u16_small z : 0 ≤ z < 2 ^ 16 → u16 z = z.
Proof. apply Z.mod_small. Qed.

Lemma u32_small z : 0 ≤ z < 2 ^ 32 → u32 z = z.
Proof. apply Z.mod_small. Qed.

Lemma u64_small z : 0 ≤ z < 2 ^ 64 → u64 z = z.
Proof. apply Z.mod_small. Qed.

Lemma u32_range z : 0 ≤ u32 z < 2 ^ 32.
Proof. apply Z.mod_pos_bound. lia. Qed.

Lemma u64_range z : 0 ≤ u64 z < 2 ^ 64.
Proof. apply Z.mod_pos_bound. lia. Qed.

Lemma u64_add_l a b : u64 (u64 a + b) = u64 (a + b).
Proof. apply Zplus_mod_idemp_l. Qed.

(** Wrap-around that does not happen is rewritten away by [words]. *)
Create Rewrite HintDb words.
#[export] Hint Rewrite u16_small u32_small u64_small using lia : words.

(** The lemmas that establish and preserve the invariants of the components. *)
Create HintDb exchange.

(** ** Faults and the state monad of the imperative code

    Reads through a null or destroyed object, an out-of-range [operator[]],
    an exhausted object pool, a failed [ASSERT] and a loop whose fuel ran out are values of
    [fault], so "the code has no undefined behaviour and returns" is the
    statement that the outcome is [Ok]. *)

Inductive fault :=
  | NullDeref
  | DanglingDeref
  | OutOfRange
  | PoolExhausted
  | AssertionFailed
  | OutOfFuel.

Inductive outcome (A : Type) :=
  | Ok (a : A)
  | Fault (f : fault).
Arguments Ok {_} _.
Arguments Fault {_} _.

Definition M (S A : Type) : Type := S → outcome (A * S).

#[global] Instance M_ret S : MRet (M S) := λ A a s, Ok (a, s).
#[global] Instance M_bind S : MBind (M S) := λ A B k m s,
  match m s with
  | Ok (a, s') => k a s'
  | Fault f => Fault f
  end.

Definition get {S} : M S S := λ s, Ok (s, s).
Definition gets {S A} (f : S → A) : M S A := λ s, Ok (f s, s).
Definition modify {S} (f : S → S) : M S unit := λ s, Ok (tt, f s).
Definition raise {S A} (f : fault) : M S A := λ _, Fault f.

(** [if (c) m;] *)
Definition when {S} (c : bool) (m : M S unit) : M S unit :=
  if c then m else mret tt.

(** A loop: [body] returns [inl] to go round again with new loop variables and
    [inr] to leave the loop (its condition failed, or a [break]). *)
Fixpoint loop {S A B} (fuel : nat) (body : A → M S (A + B)) (a : A) : M S B :=
  match fuel with
  | O => raise OutOfFuel
  | S fuel' =>
      r ← body a;
      match r with
      | inl a' => loop fuel' body a'
      | inr b => mret b
      end
  end.

Section monad_lemmas.
Context {S : Type}.

Lemma bind_ok {A B} (m : M S A) (k : A → M S B) s a s' :
  m s = Ok (a, s') → (m ≫= k) s = k a s'.
Proof. intros H. unfold mbind, M_bind. by rewrite H. Qed.

Lemma bind_fault {A B} (m : M S A) (k : A → M S B) s f :
  m s = Fault f → (m ≫= k) s = Fault f.
Proof. intros H. unfold mbind, M_bind. by rewrite H. Qed.

Lemma bind_ok_inv {A B} (m : M S A) (k : A → M S B) s b s' :
  (m ≫= k) s = Ok (b, s') → ∃ a s1, m s = Ok (a, s1) ∧ k a s1 = Ok (b, s').
Proof. unfold mbind, M_bind. destruct (m s) as [[a s1]|]; [eauto|done]. Qed.

Lemma loop_unfold {A B} fuel (body : A → M S (A + B)) a s :
  loop (Datatypes.S fuel) body a s =
  (body a ≫= λ r, match r with inl a' => loop fuel body a' | inr b => mret b end) s.
Proof. done. Qed.

Lemma loop_continue {A B} fuel (body : A → M S (A + B)) a a' s s' :
  body a s = Ok (inl a', s') →
  loop (Datatypes.S fuel) body a s = loop fuel body a' s'.
Proof. intros H. rewrite loop_unfold. by rewrite (bind_ok _ _ _ _ _ H). Qed.

Lemma loop_exit {A B} fuel (body : A → M S (A + B)) a b s s' :
  body a s = Ok (inr b, s') →
  loop (Datatypes.S fuel) body a s = Ok (b, s').
Proof. intros H. rewrite loop_unfold. by rewrite (bind_ok _ _ _ _ _ H). Qed.
End monad_lemmas.

(** Running the head of a bind: [mrun H] and [mstep H] with the equation [H] of
    its outcome, [mgo v s] when it returns [v] and leaves [s] by computation. *)
Ltac mrun H := erewrite bind_ok; [|exact H || (eapply H; eauto)].
Tactic Notation "mstep" uconstr(H) := rewrite (bind_ok _ _ _ _ _ H).
Tactic Notation "mgo" uconstr(v) uconstr(s) := rewrite (bind_ok _ _ _ v s) by done.

(** ** Lists *)

Lemma NoDup_split_unique {A} (l1 l2 k1 k2 : list A) x :
  NoDup (l1 ++ x :: l2) → l1 ++ x :: l2 = k1 ++ x :: k2 → l1 = k1 ∧ l2 = k2.
Proof.
  revert k1. induction l1 as [|y l1 IH]; intros [|z k1] Hnd Heq; simpl in *;
    apply NoDup_cons in Hnd as [Hx Hnd].
  - by injection Heq.
  - injection Heq as -> ->. set_solver.
  - injection Heq as -> <-. set_solver.
  - injection Heq as -> Heq. destruct (IH k1 Hnd Heq) as [-> ->]. done.
Qed.

(** The sum of [f] over a list. *)
Definition zsum {A} (f : A → Z) (l : list A) : Z := foldr (λ x acc, f x + acc) 0 l.

Lemma zsum_app {A} (f : A → Z) l k : zsum f (l ++ k) = zsum f l + zsum f k.
Proof. induction l; simpl; [done|]. unfold zsum in *. simpl. lia. Qed.

Lemma zsum_nonneg {A} (f : A → Z) l : Forall (λ x, 0 ≤ f x) l → 0 ≤ zsum f l.
Proof. induction 1; simpl; unfold zsum in *; simpl; lia. Qed.

(** A list splits into a run that satisfies [f] and a run that does not in one
    way only. *)
Lemma split_by_unique {A} (f : A → bool) (l1 l2 k1 k2 : list A) :
  Forall (λ x, f x = true) l1 → Forall (λ x, f x = false) l2 →
  Forall (λ x, f x = true) k1 → Forall (λ x, f x = false) k2 →
  l1 ++ l2 = k1 ++ k2 → l1 = k1 ∧ l2 = k2.
Proof.
  intros H1 H2 G1 G2. revert l1 H1. induction G1 as [|y k1 Hy G1 IH]; intros l1 H1 Heq.
  - destruct H1 as [|x l1 Hx H1]; [done|]. simpl in Heq. subst k2.
    apply Forall_cons in G2 as [? _]. congruence.
  - destruct H1 as [|x l1 Hx H1]; simpl in Heq.
    + subst l2. apply Forall_cons in H2 as [? _]. congruence.
    + injection Heq as -> Heq. by destruct (IH l1 H1 Heq) as [-> ->].
Qed.
