(* ===== verification/Types.v ===== *)
(** * Types: the domain messages of [src/src/types.h]

    The scalar aliases, the enumerations, the three inter-thread messages
    ([MEClientRequest], [MEClientResponse], [MEMarketUpdate]), the resting
    order [MEOrder] and the price level [PriceLevel].  A field keeps its C++
    name behind a prefix that names its struct ([rq_], [rs_], [mu_], [o_],
    [pl_]), because Rocq projections share one name space.  A pointer to an
    order is an [option loc] ([None] is [nullptr]). *)

From S2P Require Import Prelude.

Definition OUCH_TOKEN_LEN : nat := 14.

Abbreviation OrderId := Z (only parsing).
Abbreviation Price := Z (only parsing).
Abbreviation Quantity := Z (only parsing).
Abbreviation ClientId := Z (only parsing).
Abbreviation TickerId := Z (only parsing).

(** [std::array<char, 14>]: the bytes of the OUCH token. *)
Abbreviation OrderToken := (list Z) (only parsing).

Definition Price_INVALID : Price := 2 ^ 64 - 1.
Definition OrderId_INVALID : OrderId := 2 ^ 64 - 1.

Inductive Side := BUY | SELL.
Inductive OrderType := GoodTillCancel | FillAndKill.
Inductive ClientRequestType := REQ_NEW | REQ_CANCEL | REQ_MODIFY.
Inductive ResponseType := ACCEPTED | EXECUTED | CANCELED | CANCEL_REJECTED | MODIFIED.
Inductive UpdateType :=
  | UPD_ADD | UPD_CANCEL | UPD_MODIFY | UPD_TRADE
  | UPD_SNAPSHOT_START | UPD_CLEAR | UPD_SNAPSHOT_END.

#[global] Instance Side_eq_dec : EqDecision Side.
Proof. solve_decision. Defined.
#[global] Instance OrderType_eq_dec : EqDecision OrderType.
Proof. solve_decision. Defined.
#[global] Instance ClientRequestType_eq_dec : EqDecision ClientRequestType.
Proof. solve_decision. Defined.
#[global] Instance ResponseType_eq_dec : EqDecision ResponseType.
Proof. solve_decision. Defined.
#[global] Instance UpdateType_eq_dec : EqDecision UpdateType.
Proof. solve_decision. Defined.

Record MEClientRequest := {
  rq_client_id_ : ClientId;
  rq_client_order_id_ : OrderId;
  rq_new_client_order_id_ : OrderId;
  rq_price_ : Price;
  rq_ticker_id_ : TickerId;
  rq_qty_ : Quantity;
  rq_action_ : ClientRequestType;
  rq_type_ : OrderType;
  rq_side_ : Side;
  rq_order_token_ : OrderToken
}.

Record MEClientResponse := {
  rs_client_id_ : ClientId;
  rs_client_order_id_ : OrderId;
  rs_market_order_id_ : OrderId;
  rs_price_ : Price;
  rs_execution_price_ : Price;
  rs_match_id_ : OrderId;
  rs_ticker_id_ : TickerId;
  rs_qty_ : Quantity;
  rs_executed_qty_ : Quantity;
  rs_leaves_qty_ : Quantity;
  rs_side_ : Side;
  rs_type_ : OrderType;
  rs_status_ : ResponseType;
  rs_order_token_ : OrderToken
}.

(** The parameterised constructor, arguments in the C++ order, followed by the
    token every call site assigns to [order_token_] right after. *)
Definition mkResponse (client_id : ClientId) (ticker_id : TickerId)
    (client_order_id market_order_id : OrderId) (side : Side) (price : Price)
    (qty : Quantity) (type : OrderType) (status : ResponseType)
    (executed_qty : Quantity) (execution_price : Price) (leaves_qty : Quantity)
    (match_id : OrderId) (token : OrderToken) : MEClientResponse := {|
  rs_client_id_ := client_id;
  rs_client_order_id_ := client_order_id;
  rs_market_order_id_ := market_order_id;
  rs_price_ := price;
  rs_execution_price_ := execution_price;
  rs_match_id_ := match_id;
  rs_ticker_id_ := ticker_id;
  rs_qty_ := qty;
  rs_executed_qty_ := executed_qty;
  rs_leaves_qty_ := leaves_qty;
  rs_side_ := side;
  rs_type_ := type;
  rs_status_ := status;
  rs_order_token_ := token
|}.

Record MEMarketUpdate := {
  mu_ticker_id_ : TickerId;
  mu_market_order_id_ : OrderId;
  mu_type_ : UpdateType;
  mu_side_ : Side;
  mu_price_ : Price;
  mu_qty_ : Quantity;
  mu_new_order_id_ : OrderId;
  mu_match_id_ : OrderId
}.

Definition mkUpdate (ticker_id : TickerId) (market_order_id : OrderId)
    (type : UpdateType) (side : Side) (price : Price) (qty : Quantity)
    (new_order_id match_id : OrderId) : MEMarketUpdate := {|
  mu_ticker_id_ := ticker_id;
  mu_market_order_id_ := market_order_id;
  mu_type_ := type;
  mu_side_ := side;
  mu_price_ := price;
  mu_qty_ := qty;
  mu_new_order_id_ := new_order_id;
  mu_match_id_ := match_id
|}.

#[global] Instance MEClientRequest_eq_dec : EqDecision MEClientRequest.
Proof. solve_decision. Defined.
#[global] Instance MEClientResponse_eq_dec : EqDecision MEClientResponse.
Proof. solve_decision. Defined.
#[global] Instance MEMarketUpdate_eq_dec : EqDecision MEMarketUpdate.
Proof. solve_decision. Defined.

(** Addresses of [MEOrder] objects in the object pool. *)
Abbreviation loc := positive (only parsing).

Record MEOrder := {
  o_clientId_ : ClientId;
  o_clientOrderId_ : OrderId;
  o_marketOrderId_ : OrderId;
  o_price_ : Price;
  o_next_ : option loc;
  o_prev_ : option loc;
  o_tickerId_ : TickerId;
  o_initialQuantity_ : Quantity;
  o_remainingQuantity_ : Quantity;
  o_orderType_ : OrderType;
  o_side_ : Side;
  o_order_token_ : OrderToken
}.

#[global] Instance MEOrder_eq_dec : EqDecision MEOrder.
Proof. solve_decision. Defined.

(** The constructor the object pool runs: both quantities are the initial one
    and the links are null. *)
Definition mkOrder (tickerId : TickerId) (clientId : ClientId)
    (clientOrderId marketOrderId : OrderId) (orderType : OrderType) (price : Price)
    (initialQuantity : Quantity) (side : Side) (orderToken : OrderToken) : MEOrder := {|
  o_clientId_ := clientId;
  o_clientOrderId_ := clientOrderId;
  o_marketOrderId_ := marketOrderId;
  o_price_ := price;
  o_next_ := None;
  o_prev_ := None;
  o_tickerId_ := tickerId;
  o_initialQuantity_ := initialQuantity;
  o_remainingQuantity_ := initialQuantity;
  o_orderType_ := orderType;
  o_side_ := side;
  o_order_token_ := orderToken
|}.

(** Field assignments [order->f = v]. *)
Definition o_links (nx pv : option loc) (rem : Quantity) (o : MEOrder) : MEOrder := {|
  o_clientId_ := o_clientId_ o;
  o_clientOrderId_ := o_clientOrderId_ o;
  o_marketOrderId_ := o_marketOrderId_ o;
  o_price_ := o_price_ o;
  o_next_ := nx;
  o_prev_ := pv;
  o_tickerId_ := o_tickerId_ o;
  o_initialQuantity_ := o_initialQuantity_ o;
  o_remainingQuantity_ := rem;
  o_orderType_ := o_orderType_ o;
  o_side_ := o_side_ o;
  o_order_token_ := o_order_token_ o
|}.

Definition set_next (p : option loc) (o : MEOrder) : MEOrder :=
  o_links p (o_prev_ o) (o_remainingQuantity_ o) o.
Definition set_prev (p : option loc) (o : MEOrder) : MEOrder :=
  o_links (o_next_ o) p (o_remainingQuantity_ o) o.
Definition set_remaining (q : Quantity) (o : MEOrder) : MEOrder :=
  o_links (o_next_ o) (o_prev_ o) q o.

(** An order without its list links: what the order is, as opposed to where it
    is linked. *)
Definition payload (o : MEOrder) : MEOrder :=
  o_links None None (o_remainingQuantity_ o) o.

Record PriceLevel := {
  pl_price_ : Price;
  pl_head : option loc;
  pl_tail : option loc;
  pl_next_ : option Z;
  pl_prev_ : option Z
}.

#[global] Instance PriceLevel_eq_dec : EqDecision PriceLevel.
Proof. solve_decision. Defined.

(** [PriceLevel()], as [std::map::operator[]] value-initialises it. *)
Definition PriceLevel_default : PriceLevel := {|
  pl_price_ := 0; pl_head := None; pl_tail := None; pl_next_ := None; pl_prev_ := None
|}.

Definition pl_set_price (p : Price) (l : PriceLevel) : PriceLevel := {|
  pl_price_ := p; pl_head := pl_head l; pl_tail := pl_tail l;
  pl_next_ := pl_next_ l; pl_prev_ := pl_prev_ l |}.
Definition pl_set_head (h : option loc) (l : PriceLevel) : PriceLevel := {|
  pl_price_ := pl_price_ l; pl_head := h; pl_tail := pl_tail l;
  pl_next_ := pl_next_ l; pl_prev_ := pl_prev_ l |}.
Definition pl_set_tail (t : option loc) (l : PriceLevel) : PriceLevel := {|
  pl_price_ := pl_price_ l; pl_head := pl_head l; pl_tail := t;
  pl_next_ := pl_next_ l; pl_prev_ := pl_prev_ l |}.
Definition pl_set_next (n : option Z) (l : PriceLevel) : PriceLevel := {|
  pl_price_ := pl_price_ l; pl_head := pl_head l; pl_tail := pl_tail l;
  pl_next_ := n; pl_prev_ := pl_prev_ l |}.
Definition pl_set_prev (p : option Z) (l : PriceLevel) : PriceLevel := {|
  pl_price_ := pl_price_ l; pl_head := pl_head l; pl_tail := pl_tail l;
  pl_next_ := pl_next_ l; pl_prev_ := p |}.

Lemma payload_set_next p o : payload (set_next p o) = payload o.
Proof. done. Qed.
Lemma payload_set_prev p o : payload (set_prev p o) = payload o.
Proof. done. Qed.
Lemma payload_set_remaining q o : payload (set_remaining q o) = set_remaining q (payload o).
Proof. done. Qed.
Lemma payload_payload o : payload (payload o) = payload o.
Proof. done. Qed.

(** ** What the engine sends

    [MatchingEngine::sendClientResponse] and [sendMarketUpdate] hand a message
    to a blocking push on the response queue or the market-update queue.  The
    engine side of both queues is the sequence of messages pushed, in call
    order; [responses] and [updates] are what each consumer sees. *)

Inductive event :=
  | Resp (r : MEClientResponse)
  | Upd (u : MEMarketUpdate).

#[global] Instance event_eq_dec : EqDecision event.
Proof. solve_decision. Defined.

Definition responses (evs : list event) : list MEClientResponse :=
  omap (λ e, match e with Resp r => Some r | Upd _ => None end) evs.
Definition updates (evs : list event) : list MEMarketUpdate :=
  omap (λ e, match e with Upd u => Some u | Resp _ => None end) evs.

Lemma responses_app l k : responses (l ++ k) = responses l ++ responses k.
Proof. apply omap_app. Qed.
Lemma updates_app l k : updates (l ++ k) = updates l ++ updates k.
Proof. apply omap_app. Qed.

Lemma elem_of_responses r evs : r ∈ responses evs ↔ Resp r ∈ evs.
Proof.
  unfold responses. rewrite list_elem_of_omap. split; [|by exists (Resp r)].
  by intros ([r'|u] & ? & ?); simplify_eq.
Qed.
Lemma elem_of_updates u evs : u ∈ updates evs ↔ Upd u ∈ evs.
Proof.
  unfold updates. rewrite list_elem_of_omap. split; [|by exists (Upd u)].
  by intros ([r|u'] & ? & ?); simplify_eq.
Qed.

(** The engine state the order books reach through [matchingEngine_]. *)
Record engine_io := {
  next_match_id_ : OrderId;
  sent : list event
}.

Definition emit (evs : list event) (io : engine_io) : engine_io := {|
  next_match_id_ := next_match_id_ io; sent := sent io ++ evs |}.
Definition bump_match_id (io : engine_io) : engine_io := {|
  next_match_id_ := next_match_id_ io +₆₄ 1; sent := sent io |}.

Lemma emit_nil io : emit [] io = io.
Proof. destruct io. unfold emit. simpl. by rewrite app_nil_r. Qed.
Lemma emit_emit a b io : emit b (emit a io) = emit (a ++ b) io.
Proof. unfold emit. simpl. by rewrite app_assoc. Qed.
