(* ===== verification/BookSpec.v ===== *)
(** * BookSpec: the abstract order book

    The contract of [MEOrderBook], independent of how an implementation stores
    its orders.  Each side is one list of resting orders in price-time
    priority: the best price first and, at one price, the earlier order first.
    Matching consumes a prefix of the opposite list; inserting puts an order
    behind every order of a better or equal price.

    The map book and the vector book announce some events differently; the
    [variant] argument says whose announcements the specification describes.
    The evolution of the book itself does not depend on it. *)

From S2P Require Import Prelude Types.

Inductive variant := MapBook | VectorBook.

(** The parameter list shared by [MEOrderBook::insert] and [match]. *)
Record order_args := {
  a_tickerId : TickerId;
  a_clientId : ClientId;
  a_clientOrderId : OrderId;
  a_marketOrderId : OrderId;
  a_orderType : OrderType;
  a_price : Price;
  a_initialQuantity : Quantity;
  a_side : Side;
  a_orderToken : OrderToken
}.

(** ** Sides and prices *)

Definition opposite (s : Side) : Side :=
  match s with BUY => SELL | SELL => BUY end.

(** [better s p q]: on side [s], price [p] comes strictly before price [q]. *)
Definition better (s : Side) (p q : Price) : bool :=
  match s with BUY => q <? p | SELL => p <? q end.

(** The test that stops the sweep: the taker's limit does not reach the level. *)
Definition no_cross (side : Side) (price levelPrice : Price) : bool :=
  (bool_decide (side = BUY) && (price <? levelPrice)) ||
  (bool_decide (side = SELL) && (price >? levelPrice)).

(** ** The messages an order book sends *)

Definition resting_response (a : order_args) (o : MEOrder) (fill : Quantity)
    (levelPrice : Price) (mid : OrderId) : MEClientResponse :=
  mkResponse (o_clientId_ o) (a_tickerId a) (o_clientOrderId_ o) (o_marketOrderId_ o)
    (o_side_ o) (o_price_ o) (o_initialQuantity_ o) (o_orderType_ o) EXECUTED
    fill levelPrice (o_remainingQuantity_ o) mid (o_order_token_ o).

Definition aggressive_response (a : order_args) (fill : Quantity) (levelPrice : Price)
    (rem : Quantity) (mid : OrderId) : MEClientResponse :=
  mkResponse (a_clientId a) (a_tickerId a) (a_clientOrderId a) (a_marketOrderId a)
    (a_side a) (a_price a) (a_initialQuantity a) (a_orderType a) EXECUTED
    fill levelPrice rem mid (a_orderToken a).

Definition trade_update (a : order_args) (o : MEOrder) (fill : Quantity)
    (mid : OrderId) : MEMarketUpdate :=
  mkUpdate (a_tickerId a) (o_marketOrderId_ o) UPD_TRADE (o_side_ o) (o_price_ o)
    fill OrderId_INVALID mid.

Definition accepted_response (a : order_args) : MEClientResponse :=
  mkResponse (a_clientId a) (a_tickerId a) (a_clientOrderId a) (a_marketOrderId a)
    (a_side a) (a_price a) (a_initialQuantity a) (a_orderType a) ACCEPTED
    0 (a_price a) (a_initialQuantity a) OrderId_INVALID (a_orderToken a).

Definition add_update (a : order_args) (rem : Quantity) : MEMarketUpdate :=
  mkUpdate (a_tickerId a) (a_marketOrderId a) UPD_ADD (a_side a) (a_price a) rem
    OrderId_INVALID OrderId_INVALID.

Definition killed_response (a : order_args) (rem : Quantity) : MEClientResponse :=
  mkResponse (a_clientId a) (a_tickerId a) (a_clientOrderId a) (a_marketOrderId a)
    (a_side a) (a_price a) (a_initialQuantity a) (a_orderType a) CANCELED
    0 (a_price a) rem OrderId_INVALID (a_orderToken a).

Definition unknown_order_response (tickerId : TickerId) (clientId : ClientId)
    (clientOrderId : OrderId) (token : OrderToken) : MEClientResponse :=
  mkResponse clientId tickerId clientOrderId OrderId_INVALID BUY Price_INVALID 0
    GoodTillCancel CANCEL_REJECTED 0 Price_INVALID 0 OrderId_INVALID token.

Definition excess_cancel_response (tickerId : TickerId) (clientId : ClientId)
    (clientOrderId : OrderId) (o : MEOrder) : MEClientResponse :=
  mkResponse clientId tickerId clientOrderId (o_marketOrderId_ o) (o_side_ o)
    (o_price_ o) (o_initialQuantity_ o) (o_orderType_ o) CANCEL_REJECTED
    0 Price_INVALID (o_remainingQuantity_ o) OrderId_INVALID (o_order_token_ o).

Definition cancel_update (tickerId : TickerId) (o : MEOrder) (canceled : Quantity)
    : MEMarketUpdate :=
  mkUpdate tickerId (o_marketOrderId_ o) UPD_CANCEL (o_side_ o) (o_price_ o) canceled
    OrderId_INVALID OrderId_INVALID.

Definition canceled_response (tickerId : TickerId) (clientId : ClientId)
    (clientOrderId : OrderId) (o : MEOrder) (leaves : Quantity) : MEClientResponse :=
  mkResponse clientId tickerId clientOrderId (o_marketOrderId_ o) (o_side_ o)
    (o_price_ o) (o_initialQuantity_ o) (o_orderType_ o) CANCELED
    0 (o_price_ o) leaves OrderId_INVALID (o_order_token_ o).

Definition replaced_response (a : order_args) : MEClientResponse :=
  mkResponse (a_clientId a) (a_tickerId a) (a_clientOrderId a) (a_marketOrderId a)
    (a_side a) (a_price a) (a_initialQuantity a) (a_orderType a) MODIFIED
    0 (a_price a) (a_initialQuantity a) OrderId_INVALID (a_orderToken a).

Definition modify_update (a : order_args) (old_market_order_id : OrderId) : MEMarketUpdate :=
  mkUpdate (a_tickerId a) old_market_order_id UPD_MODIFY (a_side a) (a_price a)
    (a_initialQuantity a) (a_marketOrderId a) OrderId_INVALID.

Definition killed_update (a : order_args) (rem : Quantity) : MEMarketUpdate :=
  mkUpdate (a_tickerId a) (a_marketOrderId a) UPD_CANCEL (a_side a) (a_price a) rem
    OrderId_INVALID OrderId_INVALID.

(** The order an insertion creates: its initial quantity is what was left of the
    request after matching. *)
Definition resting_order (a : order_args) (rem : Quantity) : MEOrder :=
  mkOrder (a_tickerId a) (a_clientId a) (a_clientOrderId a) (a_marketOrderId a)
    (a_orderType a) (a_price a) rem (a_side a) (a_orderToken a).

(** ** The abstract book *)

Record sbook := {
  s_bids : list MEOrder;
  s_asks : list MEOrder;
  s_next : OrderId
}.

Definition s_empty : sbook := {| s_bids := []; s_asks := []; s_next := 1 |}.

Definition s_side (s : Side) (b : sbook) : list MEOrder :=
  match s with BUY => s_bids b | SELL => s_asks b end.

Definition s_set (s : Side) (l : list MEOrder) (b : sbook) : sbook :=
  match s with
  | BUY => {| s_bids := l; s_asks := s_asks b; s_next := s_next b |}
  | SELL => {| s_bids := s_bids b; s_asks := l; s_next := s_next b |}
  end.

Definition s_bump (b : sbook) : sbook :=
  {| s_bids := s_bids b; s_asks := s_asks b; s_next := s_next b +₆₄ 1 |}.

Definition s_orders (b : sbook) : list MEOrder := s_bids b ++ s_asks b.

(** *** Matching *)

(** One execution: the resting order as it was before the fill, the quantity,
    the match id and what the taker has left after it. *)
Record fill := {
  f_order : MEOrder;
  f_qty : Quantity;
  f_mid : OrderId;
  f_left : Quantity
}.

Definition fill_of (rem : Quantity) (mid : OrderId) (o : MEOrder) : fill :=
  let q := Z.min rem (o_remainingQuantity_ o) in
  {| f_order := o; f_qty := q; f_mid := mid; f_left := rem - q |}.

(** The resting order after the fill. *)
Definition f_after (f : fill) : MEOrder :=
  set_remaining (o_remainingQuantity_ (f_order f) - f_qty f) (f_order f).

(** The sweep of one side in priority order: (what remains of the side, the
    taker's remaining quantity, the next match id, the executions). *)
Fixpoint s_sweep (side : Side) (price : Price) (rem : Quantity) (mid : OrderId)
    (book : list MEOrder) : list MEOrder * Quantity * OrderId * list fill :=
  match book with
  | [] => ([], rem, mid, [])
  | o :: rest =>
      if negb (rem >? 0) || no_cross side price (o_price_ o) then (book, rem, mid, [])
      else
        let f := fill_of rem mid o in
        if o_remainingQuantity_ (f_after f) =? 0 then
          let '(rest', rem', mid', fs) :=
            s_sweep side price (f_left f) (mid +₆₄ 1) rest in
          (rest', rem', mid', f :: fs)
        else (f_after f :: rest, f_left f, mid +₆₄ 1, [f])
  end.

Definition fill_events (v : variant) (a : order_args) (f : fill) : list event :=
  let p := o_price_ (f_order f) in
  [ Resp (resting_response a (f_after f) (f_qty f) p (f_mid f));
    Resp (aggressive_response a (f_qty f) p (f_left f) (f_mid f));
    Upd (trade_update a (f_order f) (f_qty f)
           (match v with MapBook => f_mid f | VectorBook => OrderId_INVALID end)) ].

Definition s_match (v : variant) (a : order_args) (b : sbook) (io : engine_io)
    : sbook * engine_io * Quantity :=
  let opp := opposite (a_side a) in
  let '(book', rem, mid, fs) :=
    s_sweep (a_side a) (a_price a) (a_initialQuantity a) (next_match_id_ io)
      (s_side opp b) in
  (s_set opp book' b,
   {| next_match_id_ := mid; sent := sent io ++ (fs ≫= fill_events v a) |},
   rem).

(** *** Inserting and finding *)

Fixpoint s_enqueue (o : MEOrder) (book : list MEOrder) : list MEOrder :=
  match book with
  | [] => [o]
  | x :: rest =>
      if better (o_side_ o) (o_price_ o) (o_price_ x) then o :: book
      else x :: s_enqueue o rest
  end.

Definition s_insert (a : order_args) (rem : Quantity) (b : sbook) : sbook :=
  s_set (a_side a) (s_enqueue (resting_order a rem) (s_side (a_side a) b)) b.

Definition key (o : MEOrder) : ClientId * OrderId := (o_clientId_ o, o_clientOrderId_ o).

Definition has_key (k : ClientId * OrderId) (o : MEOrder) : bool :=
  bool_decide (key o = k).

Definition s_find (k : ClientId * OrderId) (b : sbook) : option MEOrder :=
  List.find (has_key k) (s_orders b).

Definition s_delete (k : ClientId * OrderId) (b : sbook) : sbook := {|
  s_bids := List.filter (λ o, negb (has_key k o)) (s_bids b);
  s_asks := List.filter (λ o, negb (has_key k o)) (s_asks b);
  s_next := s_next b |}.

Definition s_update (k : ClientId * OrderId) (f : MEOrder → MEOrder) (b : sbook) : sbook := {|
  s_bids := map (λ o, if has_key k o then f o else o) (s_bids b);
  s_asks := map (λ o, if has_key k o then f o else o) (s_asks b);
  s_next := s_next b |}.

(** *** The three requests *)

Definition s_addOrder (v : variant) (tickerId : TickerId) (clientId : ClientId)
    (clientOrderId : OrderId) (orderType : OrderType) (price : Price)
    (initialQuantity : Quantity) (side : Side) (token : OrderToken)
    (b : sbook) (io : engine_io) : sbook * engine_io :=
  let a := {| a_tickerId := tickerId; a_clientId := clientId;
              a_clientOrderId := clientOrderId; a_marketOrderId := s_next b;
              a_orderType := orderType; a_price := price;
              a_initialQuantity := initialQuantity; a_side := side;
              a_orderToken := token |} in
  let '(b1, io1, rem) :=
    s_match v a (s_bump b) (emit [Resp (accepted_response a)] io) in
  if rem >? 0 then
    match orderType with
    | GoodTillCancel => (s_insert a rem b1, emit [Upd (add_update a rem)] io1)
    | FillAndKill => (b1, emit [Resp (killed_response a rem)] io1)
    end
  else (b1, io1).

Definition s_cancelOrder (v : variant) (tickerId : TickerId) (clientId : ClientId)
    (clientOrderId : OrderId) (qty : Quantity) (token : OrderToken)
    (b : sbook) (io : engine_io) : sbook * engine_io :=
  let k := (clientId, clientOrderId) in
  match s_find k b with
  | None => (b, emit [Resp (unknown_order_response tickerId clientId clientOrderId token)] io)
  | Some o =>
      let canceled := if qty =? 0 then o_remainingQuantity_ o else qty in
      if canceled >? o_remainingQuantity_ o then
        (b, emit [Resp (excess_cancel_response tickerId clientId clientOrderId o)] io)
      else
        let left := o_remainingQuantity_ o - canceled in
        let leaves := match v with MapBook => canceled | VectorBook => left end in
        let evs := [ Upd (cancel_update tickerId o canceled);
                     Resp (canceled_response tickerId clientId clientOrderId o leaves) ] in
        (if left =? 0 then s_delete k b else s_update k (set_remaining left) b,
         emit evs io)
  end.

Definition s_replaceOrder (v : variant) (tickerId : TickerId) (clientId : ClientId)
    (clientOrderId newClientOrderId : OrderId) (orderType : OrderType) (price : Price)
    (qty : Quantity) (token : OrderToken)
    (b : sbook) (io : engine_io) : sbook * engine_io :=
  let k := (clientId, clientOrderId) in
  match s_find k b with
  | None => (b, emit [Resp (unknown_order_response tickerId clientId clientOrderId token)] io)
  | Some old =>
      if (newClientOrderId =? 0) || (qty =? 0) then
        (b, emit [Resp (unknown_order_response tickerId clientId clientOrderId token)] io)
      else
        let a := {| a_tickerId := tickerId; a_clientId := clientId;
                    a_clientOrderId := newClientOrderId; a_marketOrderId := s_next b;
                    a_orderType := orderType; a_price := price;
                    a_initialQuantity := qty; a_side := o_side_ old;
                    a_orderToken := token |} in
        let '(b1, io1, rem) :=
          s_match v a (s_delete k (s_bump b))
            (emit [Resp (replaced_response a);
                   Upd (modify_update a (o_marketOrderId_ old))] io) in
        if rem =? 0 then (b1, io1)
        else
          match orderType with
          | GoodTillCancel => (s_insert a rem b1, io1)
          | FillAndKill =>
              match v with
              | MapBook => (b1, emit [Resp (killed_response a rem); Upd (killed_update a rem)] io1)
              | VectorBook => (b1, io1)
              end
          end
  end.
