(* ===== verification/DList.v ===== *)
(** * DList: intrusive doubly-linked lists in a heap

    Both order books thread intrusive doubly-linked lists through their
    objects: orders of one price level ([MEOrder::next_], [prev_]) and, in the
    vector book, the active price levels ([PriceLevel::next_], [prev_]).  The
    heap is a finite map from addresses to objects; [dlist h ls] says that the
    objects at the addresses [ls] are linked in exactly that order.  The class
    [Linked] is what a node type offers; the lemmas cover the four pointer
    manipulations of the code: append at the tail, insert in front, insert
    after a node, and unlink. *)

From S2P Require Import Prelude Types.

Class Linked (K V : Type) := {
  nxt : V → option K;
  prv : V → option K;
  set_nxt : option K → V → V;
  set_prv : option K → V → V;
  nxt_set_nxt p v : nxt (set_nxt p v) = p;
  prv_set_nxt p v : prv (set_nxt p v) = prv v;
  nxt_set_prv p v : nxt (set_prv p v) = nxt v;
  prv_set_prv p v : prv (set_prv p v) = p
}.

#[global] Instance MEOrder_linked : Linked positive MEOrder := {|
  nxt := o_next_; prv := o_prev_; set_nxt := set_next; set_prv := set_prev;
  nxt_set_nxt _ _ := eq_refl; prv_set_nxt _ _ := eq_refl;
  nxt_set_prv _ _ := eq_refl; prv_set_prv _ _ := eq_refl |}.

#[global] Instance PriceLevel_linked : Linked Z PriceLevel := {|
  nxt := pl_next_; prv := pl_prev_; set_nxt := pl_set_next; set_prv := pl_set_prev;
  nxt_set_nxt _ _ := eq_refl; prv_set_nxt _ _ := eq_refl;
  nxt_set_prv _ _ := eq_refl; prv_set_prv _ _ := eq_refl |}.

Section dlist.
Context {K V : Type} `{Countable K} `{!Linked K V}.
Implicit Types (h : gmap K V) (x : K) (l : list K) (v : V).

Definition dlist h (ls : list K) : Prop :=
  ∀ l1 (n : K) l2, ls = l1 ++ n :: l2 →
    ∃ v, h !! n = Some v ∧ prv v = last l1 ∧ nxt v = head l2.

Lemma dlist_nil h : dlist h [].
Proof. intros [|??] ?? ?; simplify_eq/=. Qed.

Lemma dlist_singleton h (l : K) v :
  h !! l = Some v → prv v = None → nxt v = None → dlist h [l].
Proof.
  intros Hl Hp Hn l1 l' l2 Heq.
  destruct l1 as [|? [|??]]; simplify_eq/=. eauto.
Qed.

(** The list is a property of the links of its own nodes only. *)
Lemma dlist_agree h h' ls :
  (∀ (l : K) v, l ∈ ls → h !! l = Some v →
     ∃ v', h' !! l = Some v' ∧ prv v' = prv v ∧ nxt v' = nxt v) →
  dlist h ls → dlist h' ls.
Proof.
  intros Hag Hd l1 l l2 ->.
  destruct (Hd l1 l l2 eq_refl) as (v & Hv & Hp & Hn).
  destruct (Hag l v) as (v' & ? & Hp' & Hn'); [set_solver|done|].
  exists v'. by rewrite Hp', Hn'.
Qed.

Lemma dlist_frame h h' ls :
  (∀ l : K, l ∈ ls → h' !! l = h !! l) → dlist h ls → dlist h' ls.
Proof.
  intros Heq. apply dlist_agree. intros l v Hin Hl. exists v. by rewrite Heq.
Qed.

Lemma dlist_alive h ls (l : K) : dlist h ls → l ∈ ls → is_Some (h !! l).
Proof.
  intros Hd (l1 & l2 & ->)%list_elem_of_split.
  destruct (Hd l1 l l2 eq_refl) as (v & ? & _). eauto.
Qed.

Lemma dlist_node h l1 (l : K) l2 v :
  dlist h (l1 ++ l :: l2) → h !! l = Some v → prv v = last l1 ∧ nxt v = head l2.
Proof.
  intros Hd Hl. destruct (Hd l1 l l2 eq_refl) as (v' & ? & ? & ?). by simplify_eq.
Qed.

(** Splitting [a ++ b] at a node: the node is in [a] or in [b]. *)
Lemma app_split_cons (a b l1 l2 : list K) (l : K) :
  a ++ b = l1 ++ l :: l2 →
  (∃ c, a = l1 ++ l :: c ∧ l2 = c ++ b) ∨ (∃ c, b = c ++ l :: l2 ∧ l1 = a ++ c).
Proof.
  revert l1. induction a as [|x a IH]; intros l1 Heq; simpl in *.
  - right. exists l1. done.
  - destruct l1 as [|y l1]; simplify_eq/=.
    + left. exists a. done.
    + destruct (IH l1) as [(c & -> & ->)|(c & -> & ->)]; [done|left|right]; eauto.
Qed.

Lemma last_in (ls : list K) (l : K) : last ls = Some l → l ∈ ls.
Proof. rewrite last_Some. intros [k ->]. set_solver. Qed.

Lemma head_in (ls : list K) (l : K) : head ls = Some l → l ∈ ls.
Proof. destruct ls; intros; simplify_eq/=. set_solver. Qed.

Lemma head_app_cons (l1 l2 : list K) (l : K) : head (l :: l1 ++ l2) = Some l.
Proof. done. Qed.

(** In a duplicate-free [a ++ b], the end of [a] is not in [b], and a node
    with a successor inside [a] is not the end of [a]. *)
Lemma NoDup_last_head (a b : list K) (l : K) :
  NoDup (a ++ b) → l ∈ a → head b ≠ Some l.
Proof. intros Hnd ? ?%head_in. apply NoDup_app in Hnd as (_ & Hd & _). naive_solver. Qed.

Lemma NoDup_last_not_in (a b : list K) (l : K) :
  NoDup (a ++ b) → l ∈ b → last a ≠ Some l.
Proof. intros Hnd ? ?%last_in. apply NoDup_app in Hnd as (_ & Hd & _). naive_solver. Qed.

Lemma NoDup_not_last (a c b : list K) (l y : K) :
  NoDup ((a ++ l :: y :: c) ++ b) → last (a ++ l :: y :: c) ≠ Some l.
Proof.
  intros Hnd. rewrite last_app_cons, last_cons_cons. intros ?%last_in.
  apply NoDup_app in Hnd as (Hnd & _ & _). apply NoDup_app in Hnd as (_ & _ & Hnd).
  by apply NoDup_cons in Hnd as [??].
Qed.

Lemma NoDup_not_head (a c b : list K) (l y : K) :
  NoDup (a ++ y :: c ++ l :: b) → y ≠ l.
Proof.
  intros Hnd. apply NoDup_app in Hnd as (_ & _ & Hnd).
  apply NoDup_cons in Hnd as [??]. set_solver.
Qed.

(** *** Insertion of a node between two adjacent positions

    The heap after [x] has been given its links and its neighbours, if any,
    point to it. *)
Definition link_between h (pre : option K) x (post : option K) : gmap K V :=
  let h1 := match pre with Some p => alter (set_nxt (Some x)) p h | None => h end in
  let h2 := match post with Some q => alter (set_prv (Some x)) q h1 | None => h1 end in
  alter (λ v, set_prv pre (set_nxt post v)) x h2.

Lemma lookup_link_self h pre x post :
  pre ≠ Some x → post ≠ Some x →
  link_between h pre x post !! x = (λ v, set_prv pre (set_nxt post v)) <$> h !! x.
Proof.
  intros. unfold link_between. rewrite lookup_alter_eq. f_equal.
  destruct pre, post; rewrite ?lookup_alter_ne by congruence; done.
Qed.

Lemma lookup_link_pre h x post (l : K) :
  l ≠ x → post ≠ Some l →
  link_between h (Some l) x post !! l = set_nxt (Some x) <$> h !! l.
Proof.
  intros. unfold link_between. rewrite lookup_alter_ne by done.
  destruct post; rewrite ?lookup_alter_ne by congruence; by rewrite lookup_alter_eq.
Qed.

Lemma lookup_link_post h pre x (l : K) :
  l ≠ x → pre ≠ Some l →
  link_between h pre x (Some l) !! l = set_prv (Some x) <$> h !! l.
Proof.
  intros. unfold link_between. rewrite lookup_alter_ne, lookup_alter_eq by done.
  destruct pre; rewrite ?lookup_alter_ne by congruence; done.
Qed.

Lemma lookup_link_other h pre x post (l : K) :
  l ≠ x → pre ≠ Some l → post ≠ Some l →
  link_between h pre x post !! l = h !! l.
Proof.
  intros. unfold link_between. rewrite lookup_alter_ne by done.
  destruct pre, post; rewrite ?lookup_alter_ne by congruence; done.
Qed.

Lemma dlist_insert h l1 x l2 :
  NoDup (l1 ++ l2) → x ∉ l1 ++ l2 → is_Some (h !! x) →
  dlist h (l1 ++ l2) →
  dlist (link_between h (last l1) x (head l2)) (l1 ++ x :: l2).
Proof.
  intros Hnd Hx [v Hv] Hd.
  intros k1 l k2 [(c & -> & ->)|(c & Heq & ->)]%app_split_cons.
  - (* the node is before [x] *)
    destruct (Hd k1 l (c ++ l2)) as (w & Hw & Hp & Hn); [by rewrite <-app_assoc|].
    assert (head l2 ≠ Some l) by (eapply NoDup_last_head; [done|set_solver]).
    destruct c as [|y c].
    + exists (set_nxt (Some x) w). rewrite prv_set_nxt, nxt_set_nxt, last_snoc.
      rewrite lookup_link_pre, Hw by set_solver. done.
    + exists w. rewrite lookup_link_other; [done|set_solver| |done].
      eapply NoDup_not_last, Hnd.
  - destruct c as [|y c]; simplify_eq/=.
    + (* the node is [x] *)
      rewrite app_nil_r. rewrite lookup_link_self, Hv.
      * eexists. split; [done|]. by rewrite prv_set_prv, nxt_set_prv, nxt_set_nxt.
      * intros ?%last_in. set_solver.
      * intros ?%head_in. set_solver.
    + (* the node is after [x] *)
      destruct (Hd (l1 ++ c) l k2) as (w & Hw & Hp & Hn); [by rewrite <-app_assoc|].
      assert (last l1 ≠ Some l) by (eapply NoDup_last_not_in; [done|set_solver]).
      destruct c as [|z c].
      * exists (set_prv (Some y) w). rewrite prv_set_prv, nxt_set_prv, last_snoc.
        rewrite lookup_link_post, Hw by set_solver. done.
      * exists w. rewrite last_app_cons in *. rewrite last_cons_cons.
        rewrite lookup_link_other; [done|set_solver|done|].
        intros [=]. by eapply NoDup_not_head in Hnd.
Qed.

(** *** Unlinking a node *)
Definition unlink h (pre post : option K) : gmap K V :=
  let h1 := match pre with Some p => alter (set_nxt post) p h | None => h end in
  match post with Some q => alter (set_prv pre) q h1 | None => h1 end.

Lemma lookup_unlink_pre h post (l : K) :
  post ≠ Some l → unlink h (Some l) post !! l = set_nxt post <$> h !! l.
Proof.
  intros. unfold unlink.
  destruct post; rewrite ?lookup_alter_ne by congruence; by rewrite lookup_alter_eq.
Qed.

Lemma lookup_unlink_post h pre (l : K) :
  pre ≠ Some l → unlink h pre (Some l) !! l = set_prv pre <$> h !! l.
Proof.
  intros. unfold unlink. rewrite lookup_alter_eq.
  destruct pre; rewrite ?lookup_alter_ne by congruence; done.
Qed.

Lemma lookup_unlink_other h pre post (l : K) :
  pre ≠ Some l → post ≠ Some l → unlink h pre post !! l = h !! l.
Proof.
  intros. unfold unlink.
  destruct pre, post; rewrite ?lookup_alter_ne by congruence; done.
Qed.

Lemma dlist_unlink h l1 x l2 :
  NoDup (l1 ++ x :: l2) → dlist h (l1 ++ x :: l2) →
  dlist (unlink h (last l1) (head l2)) (l1 ++ l2).
Proof.
  intros Hnd Hd.
  assert (Hnd' : NoDup (l1 ++ l2)).
  { rewrite NoDup_app, NoDup_cons in Hnd. rewrite NoDup_app. set_solver. }
  intros k1 l k2 [(c & -> & ->)|(c & -> & ->)]%app_split_cons.
  - destruct (Hd k1 l (c ++ x :: l2)) as (w & Hw & Hp & Hn); [by rewrite <-app_assoc|].
    assert (head l2 ≠ Some l) by (eapply NoDup_last_head; [done|set_solver]).
    destruct c as [|y c].
    + exists (set_nxt (head l2) w). rewrite prv_set_nxt, nxt_set_nxt, last_snoc.
      rewrite lookup_unlink_pre, Hw by done. done.
    + exists w. rewrite lookup_unlink_other; [done| |done].
      eapply NoDup_not_last, Hnd.
  - destruct (Hd (l1 ++ x :: c) l k2) as (w & Hw & Hp & Hn); [by rewrite <-app_assoc|].
    assert (last l1 ≠ Some l) by (eapply NoDup_last_not_in; [done|set_solver]).
    rewrite last_app_cons in Hp.
    destruct c as [|z c].
    + exists (set_prv (last l1) w). rewrite prv_set_prv, nxt_set_prv, app_nil_r.
      change (head ([] ++ l :: k2)) with (Some l). rewrite lookup_unlink_post, Hw by done. done.
    + exists w. rewrite last_app_cons. rewrite last_cons_cons in Hp.
      rewrite lookup_unlink_other; [done|done|].
      intros [=]. by eapply NoDup_not_head in Hnd'.
Qed.
End dlist.
