(* ===== verification/Memory.v ===== *)
(** * Memory: the object pool, the resting-order objects and the order index

    Both order books keep their resting orders in a [quantlink::ObjectPool] and
    find them through [orders_], a two-level hash map from client and client
    order id to the object.  The pool is third-party code: it is the class
    [ObjectPool], whose laws are the documented behaviour of a pool.  The rest
    is the state and the pointer operations the two books share. *)

From S2P Require Import Prelude Types BookSpec DList.

(** ** The object pool

    [allocate] hands out an address that is not live, or nothing when the pool
    is exhausted; [deallocate] takes a live address back. *)

Class ObjectPool (P : Type) := {
  pool_new : nat → P;
  pool_allocate : P → option (positive * P);
  pool_deallocate : positive → P → P;
  pool_live : P → gset positive;
  pool_capacity : P → nat
}.

Class ObjectPoolLaws (P : Type) `{ObjectPool P} : Prop := {
  pool_new_live n : pool_live (pool_new n) = ∅;
  pool_new_capacity n : pool_capacity (pool_new n) = n;
  pool_allocate_some p :
    (size (pool_live p) < pool_capacity p)%nat → is_Some (pool_allocate p);
  pool_allocate_fresh p l p' :
    pool_allocate p = Some (l, p') →
    (l ∉ pool_live p) ∧ pool_live p' = {[l]} ∪ pool_live p ∧
    pool_capacity p' = pool_capacity p;
  pool_deallocate_live l p :
    l ∈ pool_live p →
    pool_live (pool_deallocate l p) = pool_live p ∖ {[l]} ∧
    pool_capacity (pool_deallocate l p) = pool_capacity p
}.

(** A pool that satisfies the laws: the set of live addresses and a bound. *)
Module SetPool.
Record t := { cap : nat; live : gset positive }.

#[global] Instance ops : ObjectPool t := {|
  pool_new n := {| cap := n; live := ∅ |};
  pool_allocate p :=
    if decide (size (live p) < cap p)%nat then
      let l := fresh (live p) in
      Some (l, {| cap := cap p; live := {[l]} ∪ live p |})
    else None;
  pool_deallocate l p := {| cap := cap p; live := live p ∖ {[l]} |};
  pool_live := live;
  pool_capacity := cap
|}.

#[global] Instance laws : ObjectPoolLaws t.
Proof.
  split; simpl; try done.
  - intros p Hlt. rewrite decide_True by done. eauto.
  - intros p l p'. case_decide; [|done]. intros [= <- <-]. simpl.
    split; [apply is_fresh|done].
Qed.
End SetPool.

(** ** The order index [orders_] *)

Abbreviation order_index := (gmap Z (gmap Z positive)).

(** [orders_.find(c)] then [find(id)]. *)
Definition index_find (c : ClientId) (id : OrderId) (m : order_index) : option positive :=
  m !! c ≫= λ cm, cm !! id.

(** [orders_[c][id] = l] *)
Definition index_set (c : ClientId) (id : OrderId) (l : positive) (m : order_index)
    : order_index :=
  <[c := <[id := l]> (default ∅ (m !! c))]> m.

(** [auto& cm = orders_[c]; cm.erase(id); if (cm.empty()) orders_.erase(c);] *)
Definition index_erase (c : ClientId) (id : OrderId) (m : order_index) : order_index :=
  let cm := delete id (default ∅ (m !! c)) in
  if decide (cm = ∅) then delete c m else <[c := cm]> m.

Lemma index_find_set c id l m c' id' :
  index_find c' id' (index_set c id l m) =
  if decide ((c', id') = (c, id)) then Some l else index_find c' id' m.
Proof.
  unfold index_find, index_set. rewrite lookup_insert.
  destruct (decide (c = c')) as [<-|]; simpl.
  - rewrite lookup_insert. case_decide; case_decide; simplify_eq/=; [done|].
    destruct (m !! c); simpl; [done|apply lookup_empty].
  - case_decide; [congruence|done].
Qed.

Lemma index_find_erase c id m c' id' :
  index_find c' id' (index_erase c id m) =
  if decide ((c', id') = (c, id)) then None else index_find c' id' m.
Proof.
  unfold index_find, index_erase.
  destruct (decide (c = c')) as [<-|Hc].
  - assert (Hd : ∀ cm : gmap Z positive, delete id (default ∅ (m !! c)) = cm →
      cm !! id' = if decide ((c, id') = (c, id)) then None else m !! c ≫= λ cm, cm !! id').
    { intros cm <-. rewrite lookup_delete. case_decide; case_decide; simplify_eq/=; [done|].
      destruct (m !! c); simpl; [done|apply lookup_empty]. }
    destruct (decide (delete id (default ∅ (m !! c)) = ∅)) as [Hcm|Hcm].
    + rewrite lookup_delete_eq. simpl. rewrite <-(Hd ∅ Hcm). by rewrite lookup_empty.
    + rewrite lookup_insert_eq. simpl. by apply Hd.
  - destruct (decide ((c', id') = (c, id))); [congruence|].
    destruct (decide (delete id (default ∅ (m !! c)) = ∅));
      [rewrite lookup_delete_ne by done|rewrite lookup_insert_ne by done]; done.
Qed.

(** No client entry is left empty. *)
Definition index_tidy (m : order_index) : Prop := ∀ c, m !! c ≠ Some ∅.

Lemma index_set_tidy c id l m : index_tidy m → index_tidy (index_set c id l m).
Proof.
  intros Ht c'. unfold index_set. rewrite lookup_insert. case_decide; [|apply Ht].
  intros [= Hm]. by apply insert_non_empty in Hm.
Qed.

Lemma index_erase_tidy c id m : index_tidy m → index_tidy (index_erase c id m).
Proof.
  intros Ht c'. unfold index_erase. case_decide.
  - rewrite lookup_delete. case_decide; [done|apply Ht].
  - rewrite lookup_insert. case_decide; [congruence|apply Ht].
Qed.

(** ** The state of an order book

    [L] is the price-level structure, where the two implementations differ. *)

Record book (P L : Type) := Book {
  pool_ : P;
  objects : gmap positive MEOrder;
  orders_ : order_index;
  nextMarketOrderId : OrderId;
  levels : L
}.
Arguments Book {_ _} _ _ _ _ _.
Arguments pool_ {_ _} _.
Arguments objects {_ _} _.
Arguments orders_ {_ _} _.
Arguments nextMarketOrderId {_ _} _.
Arguments levels {_ _} _.

(** A book together with the engine state it reaches through [matchingEngine_]. *)
Record ctx (P L : Type) := Ctx { bk : book P L; io : engine_io }.
Arguments Ctx {_ _} _ _.
Arguments bk {_ _} _.
Arguments io {_ _} _.

Section ops.
Context {P L : Type} `{ObjectPool P}.

Abbreviation M := (M (ctx P L)).

Definition set_objects (f : gmap positive MEOrder → gmap positive MEOrder)
    (s : ctx P L) : ctx P L :=
  Ctx (Book (pool_ (bk s)) (f (objects (bk s))) (orders_ (bk s))
         (nextMarketOrderId (bk s)) (levels (bk s))) (io s).
Definition set_orders (f : order_index → order_index) (s : ctx P L) : ctx P L :=
  Ctx (Book (pool_ (bk s)) (objects (bk s)) (f (orders_ (bk s)))
         (nextMarketOrderId (bk s)) (levels (bk s))) (io s).
Definition set_levels (f : L → L) (s : ctx P L) : ctx P L :=
  Ctx (Book (pool_ (bk s)) (objects (bk s)) (orders_ (bk s))
         (nextMarketOrderId (bk s)) (f (levels (bk s)))) (io s).
Definition set_io (f : engine_io → engine_io) (s : ctx P L) : ctx P L :=
  Ctx (bk s) (f (io s)).

(** [pool_.allocate(args...)] *)
Definition allocate (o : MEOrder) : M positive := λ s,
  match pool_allocate (pool_ (bk s)) with
  | None => Fault PoolExhausted
  | Some (l, p') =>
      Ok (l, Ctx (Book p' (<[l := o]> (objects (bk s))) (orders_ (bk s))
                    (nextMarketOrderId (bk s)) (levels (bk s))) (io s))
  end.

(** [pool_.deallocate(order)] *)
Definition deallocate (l : positive) : M unit := λ s,
  Ok (tt, Ctx (Book (pool_deallocate l (pool_ (bk s))) (delete l (objects (bk s)))
                 (orders_ (bk s)) (nextMarketOrderId (bk s)) (levels (bk s))) (io s)).

(** [*p] for a non-null order pointer *)
Definition deref (l : positive) : M MEOrder := λ s,
  match objects (bk s) !! l with
  | Some o => Ok (o, s)
  | None => Fault DanglingDeref
  end.

(** [p->field], [p] possibly null *)
Definition rd {A} (f : MEOrder → A) (p : option positive) : M A :=
  match p with
  | Some l => o ← deref l; mret (f o)
  | None => raise NullDeref
  end.

(** [p->field = v], [p] possibly null *)
Definition wr (f : MEOrder → MEOrder) (p : option positive) : M unit :=
  match p with
  | Some l => deref l;; modify (set_objects (alter f l))
  | None => raise NullDeref
  end.

(** [nextMarketOrderId++] *)
Definition fresh_market_id : M OrderId := λ s,
  Ok (nextMarketOrderId (bk s),
      Ctx (Book (pool_ (bk s)) (objects (bk s)) (orders_ (bk s))
             (nextMarketOrderId (bk s) +₆₄ 1) (levels (bk s))) (io s)).

(** [MatchingEngine::nextMatchId] *)
Definition nextMatchId : M OrderId :=
  mid ← gets (λ s, next_match_id_ (io s)); modify (set_io bump_match_id);; mret mid.

(** [MatchingEngine::sendClientResponse], [sendMarketUpdate] *)
Definition sendClientResponse (r : MEClientResponse) : M unit :=
  modify (set_io (emit [Resp r])).
Definition sendMarketUpdate (u : MEMarketUpdate) : M unit :=
  modify (set_io (emit [Upd u])).
End ops.
