(* ===== verification/StoreRep.v ===== *)
(** * StoreRep: how the objects in memory represent the abstract book

    [store_rep b ls sb]: the addresses [ls s] of each side [s], in priority
    order, hold exactly the live objects; stripped of their links they are the
    orders of the abstract book; the pool's live set, the index [orders_] and
    the market-order counter agree with them.  The lemmas say how allocating,
    freeing and changing one object moves the abstract book; both order-book
    implementations use them. *)

From S2P Require Import Prelude Types BookSpec DList Memory.

(** ** Sides of the abstract book *)

Lemma s_side_set s s' l b :
  s_side s' (s_set s l b) = if decide (s' = s) then l else s_side s' b.
Proof. by destruct s, s'. Qed.

Lemma s_side_set_eq s l b : s_side s (s_set s l b) = l.
Proof. by destruct s. Qed.

Lemma s_side_set_opp s l b : s_side s (s_set (opposite s) l b) = s_side s b.
Proof. by destruct s. Qed.

Lemma s_next_set s l b : s_next (s_set s l b) = s_next b.
Proof. by destruct s. Qed.

Lemma s_set_set s l l' b : s_set s l (s_set s l' b) = s_set s l b.
Proof. by destruct s. Qed.

Lemma s_set_same s b : s_set s (s_side s b) b = b.
Proof. by destruct s, b. Qed.

Lemma s_bump_set s l b : s_bump (s_set s l b) = s_set s l (s_bump b).
Proof. by destruct s. Qed.

Lemma s_side_bump s b : s_side s (s_bump b) = s_side s b.
Proof. by destruct s. Qed.

Lemma elem_of_s_orders o b : o ∈ s_orders b ↔ ∃ s, o ∈ s_side s b.
Proof.
  unfold s_orders. rewrite elem_of_app. split.
  - intros [?|?]; [exists BUY|exists SELL]; done.
  - intros [[] ?]; simpl in *; auto.
Qed.

Lemma sbook_eq b b' :
  (∀ s, s_side s b = s_side s b') → s_next b = s_next b' → b = b'.
Proof.
  intros Hs Hn. pose proof (Hs BUY). pose proof (Hs SELL).
  destruct b, b'; simpl in *. by subst.
Qed.

Lemma opposite_ne s : opposite s ≠ s.
Proof. by destruct s. Qed.
Lemma opposite_inv s s' : s' ≠ opposite s → s' = s.
Proof. by destruct s, s'. Qed.

(** An order is enqueued behind the orders it does not beat. *)
Lemma s_enqueue_split o o1 o2 :
  Forall (λ x, better (o_side_ o) (o_price_ o) (o_price_ x) = false) o1 →
  Forall (λ x, better (o_side_ o) (o_price_ o) (o_price_ x) = true) o2 →
  s_enqueue o (o1 ++ o2) = o1 ++ o :: o2.
Proof.
  intros H1 H2. induction H1 as [|x o1 Hx _ IH]; simpl.
  - destruct H2 as [|y o2 Hy _]; simpl; [done|]. by rewrite Hy.
  - rewrite Hx. by f_equal.
Qed.

(** ** The sweep, level by level *)

Lemma s_sweep_app side price l1 l2 rem mid :
  s_sweep side price rem mid (l1 ++ l2) =
  let '(l1', rem1, mid1, fs1) := s_sweep side price rem mid l1 in
  match l1' with
  | [] => let '(l2', rem2, mid2, fs2) := s_sweep side price rem1 mid1 l2 in
          (l2', rem2, mid2, fs1 ++ fs2)
  | _ => (l1' ++ l2, rem1, mid1, fs1)
  end.
Proof.
  revert rem mid. induction l1 as [|o l1 IH]; intros rem mid; simpl.
  { by destruct (s_sweep _ _ _ _ l2) as [[[??]?]?]. }
  case_match; [done|]. case_match; [|done].
  rewrite IH. destruct (s_sweep _ _ _ _ l1) as [[[l1' rem1] mid1] fs1].
  destruct l1'; [|done]. by destruct (s_sweep _ _ _ _ l2) as [[[??]?]?].
Qed.

Lemma s_sweep_cons side price rem mid o rest :
  s_sweep side price rem mid (o :: rest) =
  if negb (rem >? 0) || no_cross side price (o_price_ o) then (o :: rest, rem, mid, [])
  else
    let f := fill_of rem mid o in
    if o_remainingQuantity_ (f_after f) =? 0 then
      let '(rest', rem', mid', fs) := s_sweep side price (f_left f) (u64 (mid + 1)) rest in
      (rest', rem', mid', f :: fs)
    else (f_after f :: rest, f_left f, u64 (mid + 1), [f]).
Proof. done. Qed.

Lemma s_sweep_zero side price l mid : s_sweep side price 0 mid l = (l, 0, mid, []).
Proof. by destruct l. Qed.

Definition qty_ok (o : MEOrder) : Prop := 0 < o_remainingQuantity_ o < 2 ^ 32.

(** ** Representation *)

Definition side_upd (ls : Side → list positive) (s : Side) (l : list positive)
    : Side → list positive :=
  λ s', if decide (s' = s) then l else ls s'.

Lemma side_upd_eq ls s l : side_upd ls s l s = l.
Proof. unfold side_upd. by rewrite decide_True. Qed.
Lemma side_upd_ne ls s l s' : s' ≠ s → side_upd ls s l s' = ls s'.
Proof. intros. unfold side_upd. by rewrite decide_False. Qed.

Definition resting (h : gmap positive MEOrder) (l : positive) (o : MEOrder) : Prop :=
  payload <$> h !! l = Some o.

(** Two heaps that hold the same orders, up to links. *)
Definition same_orders (h h' : gmap positive MEOrder) : Prop :=
  ∀ l, payload <$> h' !! l = payload <$> h !! l.

Lemma resting_key h l o v :
  resting h l o → h !! l = Some v → key v = key o ∧ o_side_ v = o_side_ o.
Proof. unfold resting. intros Hr Hv. rewrite Hv in Hr. by simplify_eq/=. Qed.

(** A property of prices transfers from the objects to the abstract orders. *)
Lemma resting_prices h l0 os (Q : Z → Prop) :
  Forall2 (resting h) l0 os →
  Forall (λ l, ∃ o, h !! l = Some o ∧ Q (o_price_ o)) l0 →
  Forall (λ o, Q (o_price_ o)) os.
Proof.
  induction 1 as [|l o l0 os Hl _ IH]; [done|].
  intros [(v & Hv & HQ) HF]%Forall_cons. constructor; [|by apply IH].
  unfold resting in Hl. rewrite Hv in Hl. by simplify_eq/=.
Qed.

Lemma resting_prices_inv h l0 os (Q : Z → Prop) :
  Forall2 (resting h) l0 os → Forall (λ o, Q (o_price_ o)) os →
  Forall (λ l, ∃ o, h !! l = Some o ∧ Q (o_price_ o)) l0.
Proof.
  induction 1 as [|l o l0 os Hl _ IH]; [done|].
  intros [HQ HF]%Forall_cons. constructor; [|by apply IH].
  unfold resting in Hl. apply fmap_Some in Hl as (v & Hv & ->). eauto.
Qed.

Section store_rep.
Context {P L : Type} `{ObjectPool P}.
Implicit Types (b : book P L) (ls : Side → list positive) (sb : sbook).

Record store_rep b ls sb : Prop := {
  sr_nodup s : NoDup (ls s);
  sr_mem l s : l ∈ ls s ↔ ∃ o, objects b !! l = Some o ∧ o_side_ o = s;
  sr_rest s : Forall2 (resting (objects b)) (ls s) (s_side s sb);
  sr_pool : pool_live (pool_ b) = dom (objects b);
  sr_index c id l :
    index_find c id (orders_ b) = Some l ↔
    ∃ o, objects b !! l = Some o ∧ key o = (c, id);
  sr_tidy : index_tidy (orders_ b);
  sr_next : nextMarketOrderId b = s_next sb
}.

Lemma sr_length b ls sb s : store_rep b ls sb → length (ls s) = length (s_side s sb).
Proof. intros Hr. eapply Forall2_length, sr_rest, Hr. Qed.

(** The number of orders of one side is at most the number of objects. *)
Lemma sr_size b ls sb s : store_rep b ls sb → (length (ls s) ≤ size (objects b))%nat.
Proof.
  intros Hr. rewrite <-size_dom. rewrite <-(size_list_to_set (C := gset positive));
    [|by eapply sr_nodup].
  apply subseteq_size. intros l Hl%elem_of_list_to_set.
  apply (sr_mem _ _ _ Hr) in Hl as (o & ? & _). by eapply elem_of_dom_2.
Qed.

(** Every order of the abstract book is an object and conversely. *)
Lemma sr_order b ls sb o :
  store_rep b ls sb →
  o ∈ s_orders sb ↔ ∃ l v, objects b !! l = Some v ∧ payload v = o.
Proof.
  intros Hr. rewrite elem_of_s_orders. split.
  - intros (s & [i Hi]%list_elem_of_lookup).
    destruct (Forall2_lookup_r _ _ _ _ _ (sr_rest _ _ _ Hr s) Hi) as (l & _ & Hl).
    unfold resting in Hl. apply fmap_Some in Hl as (v & ? & ->). eauto.
  - intros (l & v & Hv & <-). exists (o_side_ v).
    assert (l ∈ ls (o_side_ v)) as [i Hi]%list_elem_of_lookup
      by (apply (sr_mem _ _ _ Hr); eauto).
    destruct (Forall2_lookup_l _ _ _ _ _ (sr_rest _ _ _ Hr _) Hi) as (o & Ho & Hl).
    unfold resting in Hl. rewrite Hv in Hl. simplify_eq/=.
    eapply list_elem_of_lookup_2, Ho.
Qed.

Lemma sr_find b ls sb c id :
  store_rep b ls sb →
  s_find (c, id) sb =
    index_find c id (orders_ b) ≫= λ l, payload <$> objects b !! l.
Proof.
  intros Hr. unfold s_find.
  destruct (List.find _ _) as [o|] eqn:Hf.
  - apply List.find_some in Hf as [Hin Hk]. apply list_elem_of_In in Hin.
    apply bool_decide_eq_true in Hk.
    apply (sr_order _ _ _ _ Hr) in Hin as (l & v & Hv & <-).
    assert (index_find c id (orders_ b) = Some l) as ->
      by (apply (sr_index _ _ _ Hr); eauto).
    simpl. by rewrite Hv.
  - destruct (index_find c id (orders_ b)) as [l|] eqn:Hi; [|done]. simpl.
    apply (sr_index _ _ _ Hr) in Hi as (v & Hv & Hk). rewrite Hv. simpl.
    assert (payload v ∈ s_orders sb) as Hin by (apply (sr_order _ _ _ _ Hr); eauto).
    apply list_elem_of_In in Hin. apply (List.find_none _ _ Hf) in Hin.
    by apply bool_decide_eq_false in Hin.
Qed.

(** Orders at different addresses have different keys. *)
Lemma sr_key_inj b ls sb l l' v v' :
  store_rep b ls sb → objects b !! l = Some v → objects b !! l' = Some v' →
  key v = key v' → l = l'.
Proof.
  intros Hr Hv Hv' Hk.
  assert (index_find (o_clientId_ v) (o_clientOrderId_ v) (orders_ b) = Some l).
  { apply (sr_index _ _ _ Hr). eauto. }
  assert (index_find (o_clientId_ v) (o_clientOrderId_ v) (orders_ b) = Some l').
  { apply (sr_index _ _ _ Hr). eauto. }
  congruence.
Qed.

(** The node at an address, and the abstract order at the same position. *)
Lemma sr_split b ls sb s l1 l l2 :
  store_rep b ls sb → ls s = l1 ++ l :: l2 →
  ∃ o1 v o2, s_side s sb = o1 ++ payload v :: o2 ∧ length o1 = length l1 ∧
    objects b !! l = Some v ∧ o_side_ v = s ∧
    Forall2 (resting (objects b)) l1 o1 ∧ Forall2 (resting (objects b)) l2 o2.
Proof.
  intros Hr Hls. pose proof (sr_rest _ _ _ Hr s) as HF. rewrite Hls in HF.
  apply Forall2_app_inv_l in HF as (o1 & o2' & H1 & H2 & ->).
  apply Forall2_cons_inv_l in H2 as (o & o2 & Hl & H2 & ->).
  unfold resting in Hl. apply fmap_Some in Hl as (v & Hv & ->).
  exists o1, v, o2. split_and!; try done.
  - symmetry. by eapply Forall2_length.
  - assert (l ∈ ls s) as (v' & Hv' & <-)%(sr_mem _ _ _ Hr) by (rewrite Hls; set_solver).
    congruence.
Qed.

(** *** Keys select exactly one order *)

Lemma resting_other_key b ls sb l v l' o' :
  store_rep b ls sb → objects b !! l = Some v → l' ≠ l →
  resting (objects b) l' o' → has_key (key v) o' = false.
Proof.
  intros Hr Hv Hne Hl'. unfold resting in Hl'. apply fmap_Some in Hl' as (v' & Hv' & ->).
  apply bool_decide_eq_false. intros Hk. apply Hne. by eapply sr_key_inj.
Qed.

Lemma keys_other b ls sb l v l' os :
  store_rep b ls sb → objects b !! l = Some v → l ∉ l' →
  Forall2 (resting (objects b)) l' os → Forall (λ o, has_key (key v) o = false) os.
Proof.
  intros Hr Hv Hni HF. induction HF as [|x o xs os Hx HF IH]; constructor.
  - eapply resting_other_key; [done..| |done]. set_solver.
  - apply IH. set_solver.
Qed.

Lemma filter_other k os :
  Forall (λ o, has_key k o = false) os → List.filter (λ o, negb (has_key k o)) os = os.
Proof. induction 1 as [|o os Ho _ IH]; simpl; [done|]. by rewrite Ho; simpl; f_equal. Qed.

Lemma map_other k f os :
  Forall (λ o, has_key k o = false) os → map (λ o, if has_key k o then f o else o) os = os.
Proof. induction 1 as [|o os Ho _ IH]; simpl; [done|]. by rewrite Ho; f_equal. Qed.

Lemma has_key_self v : has_key (key v) (payload v) = true.
Proof. by apply bool_decide_eq_true. Qed.

(** The three facts that locate an address: its side list splits, and it is on
    no other position of either side. *)
Lemma sr_elsewhere b ls sb s l1 l l2 :
  store_rep b ls sb → ls s = l1 ++ l :: l2 →
  (l ∉ l1) ∧ (l ∉ l2) ∧ (∀ s', s' ≠ s → l ∉ ls s').
Proof.
  intros Hr Hls. pose proof (sr_nodup _ _ _ Hr s) as Hnd. rewrite Hls in Hnd.
  apply NoDup_app in Hnd as (_ & Hd & [??]%NoDup_cons).
  split_and!; [intros ?; apply (Hd l); set_solver|done|].
  intros s' Hne Hin. assert (l ∈ ls s) as Hin' by (rewrite Hls; set_solver).
  apply (sr_mem _ _ _ Hr) in Hin as (?&?&?), Hin' as (?&?&?). congruence.
Qed.

Lemma sr_delete b ls sb s l1 l l2 v o1 o2 :
  store_rep b ls sb → ls s = l1 ++ l :: l2 → objects b !! l = Some v →
  s_side s sb = o1 ++ payload v :: o2 → length o1 = length l1 →
  s_delete (key v) sb = s_set s (o1 ++ o2) sb.
Proof.
  intros Hr Hls Hv Hs Hlen.
  destruct (sr_elsewhere _ _ _ _ _ _ _ Hr Hls) as (Hn1 & Hn2 & Hn3).
  pose proof (sr_rest _ _ _ Hr s) as HF. rewrite Hls, Hs in HF.
  apply Forall2_app_inv in HF as [HF1 HF2]; [|done].
  apply Forall2_cons in HF2 as [_ HF2].
  assert (Hsd : ∀ s', s_side s' (s_delete (key v) sb) =
    List.filter (λ o, negb (has_key (key v) o)) (s_side s' sb)) by (by intros []).
  apply sbook_eq; [|by destruct s].
  intros s'. rewrite Hsd, s_side_set. case_decide as Hss.
  - subst s'. rewrite Hs, List.filter_app. simpl. rewrite has_key_self. simpl.
    f_equal; apply filter_other; [exact (keys_other _ _ _ _ _ _ _ Hr Hv Hn1 HF1)|
      exact (keys_other _ _ _ _ _ _ _ Hr Hv Hn2 HF2)].
  - apply filter_other. eapply keys_other; [done..|by apply Hn3|by eapply sr_rest].
Qed.

Lemma sr_update b ls sb s l1 l l2 v o1 o2 f :
  store_rep b ls sb → ls s = l1 ++ l :: l2 → objects b !! l = Some v →
  s_side s sb = o1 ++ payload v :: o2 → length o1 = length l1 →
  s_update (key v) f sb = s_set s (o1 ++ f (payload v) :: o2) sb.
Proof.
  intros Hr Hls Hv Hs Hlen.
  destruct (sr_elsewhere _ _ _ _ _ _ _ Hr Hls) as (Hn1 & Hn2 & Hn3).
  pose proof (sr_rest _ _ _ Hr s) as HF. rewrite Hls, Hs in HF.
  apply Forall2_app_inv in HF as [HF1 HF2]; [|done].
  apply Forall2_cons in HF2 as [_ HF2].
  assert (Hsd : ∀ s', s_side s' (s_update (key v) f sb) =
    map (λ o, if has_key (key v) o then f o else o) (s_side s' sb)) by (by intros []).
  apply sbook_eq; [|by destruct s].
  intros s'. rewrite Hsd, s_side_set. case_decide as Hss.
  - subst s'. rewrite Hs, map_app. simpl. rewrite has_key_self.
    f_equal; [|f_equal]; apply map_other;
      [exact (keys_other _ _ _ _ _ _ _ Hr Hv Hn1 HF1)|
       exact (keys_other _ _ _ _ _ _ _ Hr Hv Hn2 HF2)].
  - apply map_other. eapply keys_other; [done..|by apply Hn3|by eapply sr_rest].
Qed.

(** *** Changing the store

    Each lemma takes the heap after the change as a heap that agrees, up to
    links, with the old one everywhere else. *)

Lemma same_payload_ex (h h' : gmap positive MEOrder) l (Q : MEOrder → Prop) :
  (∀ v, Q v ↔ Q (payload v)) →
  payload <$> h' !! l = payload <$> h !! l →
  (∃ o, h' !! l = Some o ∧ Q o) ↔ (∃ o, h !! l = Some o ∧ Q o).
Proof.
  intros HQ Heq. destruct (h' !! l) as [v'|], (h !! l) as [v|]; try done.
  apply (inj Some) in Heq.
  assert (Hvv : Q v' ↔ Q v) by (by rewrite (HQ v'), (HQ v), Heq).
  split; intros (? & [= <-] & Hq); eexists; (split; [done|]); by apply Hvv.
Qed.

Lemma same_payload_alive (h h' : gmap positive MEOrder) l :
  payload <$> h' !! l = payload <$> h !! l → is_Some (h' !! l) ↔ is_Some (h !! l).
Proof. intros Heq. rewrite <-(fmap_is_Some payload), Heq. apply fmap_is_Some. Qed.

Lemma resting_agree (h h' : gmap positive MEOrder) l0 os :
  (∀ l, l ∈ l0 → payload <$> h' !! l = payload <$> h !! l) →
  Forall2 (resting h) l0 os → Forall2 (resting h') l0 os.
Proof.
  intros Hag. rewrite !Forall2_same_length_lookup. intros [Hl Hf]. split; [done|].
  intros i l o Hi Ho. unfold resting. rewrite Hag; [by eapply Hf|].
  by eapply list_elem_of_lookup_2.
Qed.

Lemma sr_relink b b' ls sb :
  store_rep b ls sb → same_orders (objects b) (objects b') →
  pool_ b' = pool_ b → orders_ b' = orders_ b →
  nextMarketOrderId b' = nextMarketOrderId b → store_rep b' ls sb.
Proof.
  intros Hr Hso Hp Ho Hn. split.
  - apply Hr.
  - intros l s. rewrite (sr_mem _ _ _ Hr). symmetry. by apply same_payload_ex.
  - intros s. eapply resting_agree; [|by eapply sr_rest]. intros. apply Hso.
  - rewrite Hp, (sr_pool _ _ _ Hr). apply set_eq. intros l. rewrite !elem_of_dom.
    symmetry. apply same_payload_alive, Hso.
  - intros c id l. rewrite Ho, (sr_index _ _ _ Hr). symmetry. by apply same_payload_ex.
  - rewrite Ho. apply Hr.
  - rewrite Hn. apply Hr.
Qed.

Lemma sr_change b b' ls sb s l1 l l2 v v' o1 o2 :
  store_rep b ls sb → ls s = l1 ++ l :: l2 → objects b !! l = Some v →
  s_side s sb = o1 ++ payload v :: o2 → length o1 = length l1 →
  objects b' !! l = Some v' → key v' = key v → o_side_ v' = o_side_ v →
  (∀ l', l' ≠ l → payload <$> objects b' !! l' = payload <$> objects b !! l') →
  pool_ b' = pool_ b → orders_ b' = orders_ b →
  nextMarketOrderId b' = nextMarketOrderId b →
  store_rep b' ls (s_set s (o1 ++ payload v' :: o2) sb).
Proof.
  intros Hr Hls Hv Hs Hlen Hv' Hk Hsd Hag Hp Ho Hn.
  destruct (sr_elsewhere _ _ _ _ _ _ _ Hr Hls) as (Hn1 & Hn2 & Hn3).
  assert (Hex : ∀ l' (Q : MEOrder → Prop), (∀ v, Q v ↔ Q (payload v)) → (Q v' ↔ Q v) →
    (∃ o, objects b' !! l' = Some o ∧ Q o) ↔ (∃ o, objects b !! l' = Some o ∧ Q o)).
  { intros l' Q HQ HQv. destruct (decide (l' = l)) as [->|].
    - rewrite Hv, Hv'. naive_solver.
    - apply same_payload_ex; auto. }
  split.
  - apply Hr.
  - intros l' s'. rewrite (sr_mem _ _ _ Hr). symmetry. apply Hex; [done|]. by rewrite Hsd.
  - intros s'. rewrite s_side_set. pose proof (sr_rest _ _ _ Hr s') as HF.
    case_decide as Hss; [subst s'|].
    + rewrite Hls, Hs in HF. rewrite Hls.
      apply Forall2_app_inv in HF as [HF1 HF2]; [|done].
      apply Forall2_cons in HF2 as [_ HF2].
      apply Forall2_app; [|constructor].
      * eapply resting_agree; [|done]. intros. apply Hag. set_solver.
      * unfold resting. by rewrite Hv'.
      * eapply resting_agree; [|done]. intros. apply Hag. set_solver.
    + eapply resting_agree; [|done]. intros. apply Hag.
      intros ->. by eapply Hn3.
  - rewrite Hp, (sr_pool _ _ _ Hr). apply set_eq. intros l'. rewrite !elem_of_dom.
    destruct (decide (l' = l)) as [->|]; [by rewrite Hv, Hv'|].
    symmetry. by apply same_payload_alive, Hag.
  - intros c id l'. rewrite Ho, (sr_index _ _ _ Hr). symmetry. apply Hex; [done|].
    by rewrite Hk.
  - rewrite Ho. apply Hr.
  - rewrite Hn, s_next_set. apply Hr.
Qed.

Lemma sr_free b b' ls sb s l1 l l2 v o1 o2 :
  store_rep b ls sb → ls s = l1 ++ l :: l2 → objects b !! l = Some v →
  s_side s sb = o1 ++ payload v :: o2 → length o1 = length l1 →
  objects b' !! l = None →
  (∀ l', l' ≠ l → payload <$> objects b' !! l' = payload <$> objects b !! l') →
  pool_live (pool_ b') = pool_live (pool_ b) ∖ {[l]} →
  orders_ b' = index_erase (o_clientId_ v) (o_clientOrderId_ v) (orders_ b) →
  nextMarketOrderId b' = nextMarketOrderId b →
  store_rep b' (side_upd ls s (l1 ++ l2)) (s_set s (o1 ++ o2) sb).
Proof.
  intros Hr Hls Hv Hs Hlen Hv' Hag Hp Ho Hn.
  destruct (sr_elsewhere _ _ _ _ _ _ _ Hr Hls) as (Hn1 & Hn2 & Hn3).
  pose proof (sr_nodup _ _ _ Hr s) as Hnd. rewrite Hls in Hnd.
  assert (Hex : ∀ l' (Q : MEOrder → Prop), (∀ v, Q v ↔ Q (payload v)) →
    (∃ o, objects b' !! l' = Some o ∧ Q o) ↔ l' ≠ l ∧ (∃ o, objects b !! l' = Some o ∧ Q o)).
  { intros l' Q HQ. destruct (decide (l' = l)) as [->|].
    - rewrite Hv'. naive_solver.
    - rewrite (same_payload_ex (objects b) (objects b')) by auto. naive_solver. }
  split.
  - intros s'. unfold side_upd. case_decide; [|apply Hr].
    rewrite NoDup_app, NoDup_cons in Hnd. rewrite NoDup_app. set_solver.
  - intros l' s'. rewrite Hex by done. rewrite <-(sr_mem _ _ _ Hr). unfold side_upd.
    case_decide as Hss; [subst s'; rewrite Hls; set_solver|].
    split; [|naive_solver]. intros Hin. split; [|done]. intros ->. by eapply Hn3.
  - intros s'. rewrite s_side_set. unfold side_upd.
    pose proof (sr_rest _ _ _ Hr s') as HF. case_decide as Hss; [subst s'|].
    + rewrite Hls, Hs in HF. apply Forall2_app_inv in HF as [HF1 HF2]; [|done].
      apply Forall2_cons in HF2 as [_ HF2].
      apply Forall2_app; (eapply resting_agree; [|done]; intros; apply Hag; set_solver).
    + eapply resting_agree; [|done]. intros. apply Hag. intros ->. by eapply Hn3.
  - rewrite Hp, (sr_pool _ _ _ Hr). apply set_eq. intros l'.
    rewrite elem_of_difference, elem_of_singleton, !elem_of_dom.
    destruct (decide (l' = l)) as [->|]; [rewrite Hv'; split; [naive_solver|by intros []]|].
    rewrite (same_payload_alive (objects b) (objects b') l') by auto. naive_solver.
  - intros c id l'. rewrite Hex by done. rewrite <-(sr_index _ _ _ Hr), Ho, index_find_erase.
    assert (index_find (o_clientId_ v) (o_clientOrderId_ v) (orders_ b) = Some l) as Hil
      by (apply (sr_index _ _ _ Hr); eauto).
    case_decide as Hck; [simplify_eq; naive_solver congruence|].
    split; [|naive_solver]. intros Hi. split; [|done]. intros ->.
    apply (sr_index _ _ _ Hr) in Hi as (v2 & Hv2 & Hk2). unfold key in Hk2. congruence.
  - rewrite Ho. apply index_erase_tidy, Hr.
  - rewrite Hn, s_next_set. apply Hr.
Qed.

Lemma sr_alloc b b' ls sb s l1 l l2 v o1 o2 :
  store_rep b ls sb → ls s = l1 ++ l2 → s_side s sb = o1 ++ o2 → length o1 = length l1 →
  objects b !! l = None → index_find (o_clientId_ v) (o_clientOrderId_ v) (orders_ b) = None →
  objects b' !! l = Some v → o_side_ v = s →
  (∀ l', l' ≠ l → payload <$> objects b' !! l' = payload <$> objects b !! l') →
  pool_live (pool_ b') = {[l]} ∪ pool_live (pool_ b) →
  orders_ b' = index_set (o_clientId_ v) (o_clientOrderId_ v) l (orders_ b) →
  nextMarketOrderId b' = nextMarketOrderId b →
  store_rep b' (side_upd ls s (l1 ++ l :: l2)) (s_set s (o1 ++ payload v :: o2) sb).
Proof.
  intros Hr Hls Hs Hlen Hl Hix Hv Hsd Hag Hp Ho Hn.
  assert (Hni : ∀ s', l ∉ ls s').
  { intros s' (?&?&?)%(sr_mem _ _ _ Hr). congruence. }
  pose proof (Hni s) as Hnis. rewrite Hls in Hnis.
  pose proof (sr_nodup _ _ _ Hr s) as Hnd. rewrite Hls in Hnd.
  assert (Hex : ∀ l' (Q : MEOrder → Prop), (∀ v, Q v ↔ Q (payload v)) →
    (∃ o, objects b' !! l' = Some o ∧ Q o) ↔
    (l' = l ∧ Q v) ∨ (∃ o, objects b !! l' = Some o ∧ Q o)).
  { intros l' Q HQ. destruct (decide (l' = l)) as [->|].
    - rewrite Hv, Hl. naive_solver.
    - rewrite (same_payload_ex (objects b) (objects b')) by auto. naive_solver. }
  split.
  - intros s'. unfold side_upd. case_decide; [|apply Hr].
    rewrite NoDup_app in Hnd. rewrite NoDup_app, NoDup_cons. set_solver.
  - intros l' s'. rewrite Hex by done. rewrite <-(sr_mem _ _ _ Hr). unfold side_upd.
    case_decide as Hss; [subst s'; rewrite Hls; set_solver|]. naive_solver congruence.
  - intros s'. rewrite s_side_set. unfold side_upd.
    pose proof (sr_rest _ _ _ Hr s') as HF. case_decide as Hss; [subst s'|].
    + rewrite Hls, Hs in HF. apply Forall2_app_inv in HF as [HF1 HF2]; [|done].
      apply Forall2_app; [|constructor; [unfold resting; by rewrite Hv|]];
        (eapply resting_agree; [|done]; intros; apply Hag; set_solver).
    + eapply resting_agree; [|done]. intros. apply Hag. intros ->. by eapply Hni.
  - rewrite Hp, (sr_pool _ _ _ Hr). apply set_eq. intros l'.
    rewrite elem_of_union, elem_of_singleton, !elem_of_dom.
    destruct (decide (l' = l)) as [->|]; [rewrite Hv; naive_solver|].
    rewrite (same_payload_alive (objects b) (objects b') l') by auto. naive_solver.
  - intros c id l'. rewrite Hex by done. rewrite <-(sr_index _ _ _ Hr), Ho, index_find_set.
    unfold key. case_decide as Hck; [simplify_eq|]; naive_solver congruence.
  - rewrite Ho. apply index_set_tidy, Hr.
  - rewrite Hn, s_next_set. apply Hr.
Qed.

(** An order inserted behind the orders it does not beat, in front of those
    it beats. *)
Lemma sr_insert b b' ls sb a q l v l1 l2 :
  store_rep b ls sb → ls (a_side a) = l1 ++ l2 →
  Forall (λ k, ∃ o, objects b !! k = Some o ∧
                    better (a_side a) (a_price a) (o_price_ o) = false) l1 →
  Forall (λ k, ∃ o, objects b !! k = Some o ∧
                    better (a_side a) (a_price a) (o_price_ o) = true) l2 →
  objects b !! l = None →
  index_find (a_clientId a) (a_clientOrderId a) (orders_ b) = None →
  objects b' !! l = Some v → payload v = resting_order a q →
  (∀ l', l' ≠ l → payload <$> objects b' !! l' = payload <$> objects b !! l') →
  pool_live (pool_ b') = {[l]} ∪ pool_live (pool_ b) →
  orders_ b' = index_set (a_clientId a) (a_clientOrderId a) l (orders_ b) →
  nextMarketOrderId b' = nextMarketOrderId b →
  store_rep b' (side_upd ls (a_side a) (l1 ++ l :: l2)) (s_insert a q sb).
Proof.
  intros Hr Hls H1 H2 Hl Hix Hv Hpv Hag Hp Ho Hn.
  pose proof (sr_rest _ _ _ Hr (a_side a)) as HF. rewrite Hls in HF.
  apply Forall2_app_inv_l in HF as (o1 & o2 & HF1 & HF2 & Hs).
  assert (s_insert a q sb = s_set (a_side a) (o1 ++ payload v :: o2) sb) as ->.
  { unfold s_insert. f_equal. rewrite Hs, Hpv. apply s_enqueue_split; simpl.
    - eapply (resting_prices _ _ _ (λ x, better (a_side a) (a_price a) x = false)); eauto.
    - eapply (resting_prices _ _ _ (λ x, better (a_side a) (a_price a) x = true)); eauto. }
  assert (Hfields : o_clientId_ v = a_clientId a ∧ o_clientOrderId_ v = a_clientOrderId a ∧
    o_side_ v = a_side a).
  { change (o_clientId_ (payload v) = a_clientId a ∧
      o_clientOrderId_ (payload v) = a_clientOrderId a ∧ o_side_ (payload v) = a_side a).
    by rewrite Hpv. }
  destruct Hfields as (Hc & Hi & Hsd).
  eapply sr_alloc; try done; try (by rewrite Hc, Hi).
  symmetry. by eapply Forall2_length.
Qed.

(** The objects are exactly the orders of the two sides. *)
Lemma sr_total b ls sb : store_rep b ls sb → size (objects b) = length (s_orders sb).
Proof.
  intros Hr. unfold s_orders. rewrite length_app.
  change (s_bids sb) with (s_side BUY sb). change (s_asks sb) with (s_side SELL sb).
  rewrite <-(sr_length _ _ _ BUY Hr), <-(sr_length _ _ _ SELL Hr), <-length_app.
  assert (Hnd : NoDup (ls BUY ++ ls SELL)).
  { apply NoDup_app. split_and!; [apply Hr| |apply Hr].
    intros l (?&?&?)%(sr_mem _ _ _ Hr) (?&?&?)%(sr_mem _ _ _ Hr). congruence. }
  rewrite <-size_dom, <-(size_list_to_set (C := gset positive)) by done.
  apply set_size_proper. intros l. rewrite elem_of_dom, elem_of_list_to_set, elem_of_app.
  rewrite !(sr_mem _ _ _ Hr). split; [|by intros [(?&->&_)|(?&->&_)]].
  intros [o Ho]. destruct (o_side_ o) eqn:?; eauto.
Qed.

(** A key that is not in the abstract book is not in the index. *)
Lemma sr_find_none b ls sb c id :
  store_rep b ls sb → s_find (c, id) sb = None → index_find c id (orders_ b) = None.
Proof.
  intros Hr Hf. rewrite (sr_find _ _ _ _ _ Hr) in Hf.
  destruct (index_find c id (orders_ b)) as [l|] eqn:Hi; [|done].
  apply (sr_index _ _ _ Hr) in Hi as (v & Hv & _). simpl in Hf. by rewrite Hv in Hf.
Qed.

(** The object found in the index, its place in its side's list and in the
    abstract book. *)
Lemma sr_found b ls sb c id l :
  store_rep b ls sb → index_find c id (orders_ b) = Some l →
  ∃ v l1 l2 o1 o2, objects b !! l = Some v ∧ key v = (c, id) ∧
    s_find (c, id) sb = Some (payload v) ∧ ls (o_side_ v) = l1 ++ l :: l2 ∧
    s_side (o_side_ v) sb = o1 ++ payload v :: o2 ∧ length o1 = length l1.
Proof.
  intros Hr Hi. rewrite (sr_find _ _ _ _ _ Hr), Hi. simpl.
  apply (sr_index _ _ _ Hr) in Hi as (v & Hv & Hk).
  assert (l ∈ ls (o_side_ v)) as (l1 & l2 & Hls)%list_elem_of_split
    by (apply (sr_mem _ _ _ Hr); eauto).
  destruct (sr_split _ _ _ _ _ _ _ Hr Hls) as (o1 & w & o2 & Hs & Hlen & Hw & _).
  assert (w = v) as -> by congruence.
  exists v, l1, l2, o1, o2. rewrite Hv. done.
Qed.
End store_rep.
