(* ===== verification/LevelMap.v ===== *)
(** * LevelMap: [std::map<Price, PriceLevel, Compare>]

    The map book keeps each side in a [std::map] ordered by [std::less]
    (asks) or [std::greater] (bids).  The container is the list of its entries
    in iteration order: [begin()] is the head, [operator[]] inserts a
    value-initialised entry at its place when the key is absent, [erase]
    removes the entry. *)

From S2P Require Import Prelude Types BookSpec.

Abbreviation level_map := (list (Z * PriceLevel)).

Fixpoint lm_find (k : Price) (m : level_map) : option PriceLevel :=
  match m with
  | [] => None
  | (k', v) :: m' => if k =? k' then Some v else lm_find k m'
  end.

(** [m[k]]: the entry exists afterwards. *)
Fixpoint lm_subscript (s : Side) (k : Price) (m : level_map) : level_map :=
  match m with
  | [] => [(k, PriceLevel_default)]
  | (k', v) :: m' =>
      if k =? k' then m
      else if better s k k' then (k, PriceLevel_default) :: m
      else (k', v) :: lm_subscript s k m'
  end.

(** A write through a reference to the mapped value. *)
Fixpoint lm_alter (f : PriceLevel → PriceLevel) (k : Price) (m : level_map) : level_map :=
  match m with
  | [] => []
  | (k', v) :: m' => if k =? k' then (k', f v) :: m' else (k', v) :: lm_alter f k m'
  end.

Fixpoint lm_erase (k : Price) (m : level_map) : level_map :=
  match m with
  | [] => []
  | (k', v) :: m' => if k =? k' then m' else (k', v) :: lm_erase k m'
  end.

(** ** Orders on prices *)

Lemma better_irrefl s p : better s p p = false.
Proof. destruct s; simpl; lia. Qed.
Lemma better_trans s p q r : better s p q = true → better s q r = true → better s p r = true.
Proof. destruct s; simpl; lia. Qed.
Lemma better_total s p q : better s p q = false → better s q p = false → p = q.
Proof. destruct s; simpl; lia. Qed.
Lemma better_asym s p q : better s p q = true → better s q p = false.
Proof. destruct s; simpl; lia. Qed.

(** Strictly sorted in iteration order. *)
Definition lm_sorted (s : Side) (m : level_map) : Prop :=
  StronglySorted (λ p q, better s p q = true) m.*1.

Lemma lm_sorted_app s m1 k v m2 :
  lm_sorted s (m1 ++ (k, v) :: m2) ↔
  lm_sorted s m1 ∧ lm_sorted s m2 ∧
  Forall (λ e, better s e.1 k = true) m1 ∧ Forall (λ e, better s k e.1 = true) m2.
Proof.
  unfold lm_sorted. induction m1 as [|[k0 v0] m1 IH]; simpl.
  - split.
    + intros [? HF]%StronglySorted_inv. split_and!; [constructor|done|done|].
      by rewrite Forall_fmap in HF.
    + intros (_ & ? & _ & ?). constructor; [done|]. by rewrite Forall_fmap.
  - split.
    + intros [(?&?&?&?)%IH HF]%StronglySorted_inv.
      rewrite Forall_fmap, Forall_app, Forall_cons in HF. destruct HF as (HF1 & Hk & HF2).
      split_and!; [constructor; [done|by rewrite Forall_fmap]|done|by constructor|done].
    + intros ([? HF]%StronglySorted_inv & ? & [Hk ?]%Forall_cons & HF2).
      constructor; [by apply IH|].
      rewrite Forall_fmap in HF |- *. rewrite Forall_app, Forall_cons.
      split_and!; [done|done|]. eapply Forall_impl; [exact HF2|].
      intros e ?. by eapply better_trans.
Qed.

Lemma lm_sorted_set s m1 k v v' m2 :
  lm_sorted s (m1 ++ (k, v) :: m2) → lm_sorted s (m1 ++ (k, v') :: m2).
Proof. by rewrite !lm_sorted_app. Qed.

Lemma lm_sorted_erase s m1 k v m2 :
  lm_sorted s (m1 ++ (k, v) :: m2) → lm_sorted s (m1 ++ m2).
Proof.
  unfold lm_sorted. induction m1 as [|[k0 v0] m1 IH]; simpl.
  - by intros [? _]%StronglySorted_inv.
  - intros [Hs HF]%StronglySorted_inv. constructor; [by apply IH|].
    rewrite Forall_fmap, Forall_app, Forall_cons in HF. rewrite Forall_fmap, Forall_app.
    naive_solver.
Qed.

(** Entries whose keys are all strictly better (worse) than [k] do not have key [k]. *)
Definition lm_absent (k : Price) (m : level_map) : Prop := Forall (λ e, e.1 ≠ k) m.

Lemma absent_better s k m : Forall (λ e, better s e.1 k = true) m → lm_absent k m.
Proof.
  intros HF. eapply Forall_impl; [exact HF|]. intros e He Hk.
  simpl in He. by rewrite Hk, better_irrefl in He.
Qed.
Lemma absent_worse s k m : Forall (λ e, better s k e.1 = true) m → lm_absent k m.
Proof.
  intros HF. eapply Forall_impl; [exact HF|]. intros e He Hk.
  simpl in He. by rewrite Hk, better_irrefl in He.
Qed.

Ltac lm_absent_cons :=
  match goal with
  | |- context [?k =? ?k'] => destruct (Z.eqb_spec k k'); [congruence|]
  end.

Lemma lm_find_split m1 k v m2 : lm_absent k m1 → lm_find k (m1 ++ (k, v) :: m2) = Some v.
Proof.
  induction 1 as [|[k' v'] m1 Hne _ IH]; simpl in *; [by rewrite Z.eqb_refl|].
  by lm_absent_cons.
Qed.

Lemma lm_find_absent k m : lm_absent k m → lm_find k m = None.
Proof. induction 1 as [|[k' v'] m Hne _ IH]; simpl in *; [done|]. by lm_absent_cons. Qed.

Lemma lm_alter_split f m1 k v m2 :
  lm_absent k m1 → lm_alter f k (m1 ++ (k, v) :: m2) = m1 ++ (k, f v) :: m2.
Proof.
  induction 1 as [|[k' v'] m1 Hne _ IH]; simpl in *; [by rewrite Z.eqb_refl|].
  lm_absent_cons. by f_equal.
Qed.

Lemma lm_erase_split m1 k v m2 :
  lm_absent k m1 → lm_erase k (m1 ++ (k, v) :: m2) = m1 ++ m2.
Proof.
  induction 1 as [|[k' v'] m1 Hne _ IH]; simpl in *; [by rewrite Z.eqb_refl|].
  lm_absent_cons. by f_equal.
Qed.

Lemma lm_subscript_present s m1 k v m2 :
  Forall (λ e, better s e.1 k = true) m1 →
  lm_subscript s k (m1 ++ (k, v) :: m2) = m1 ++ (k, v) :: m2.
Proof.
  induction 1 as [|[k' v'] m1 Hb _ IH]; simpl in *; [by rewrite Z.eqb_refl|].
  destruct (Z.eqb_spec k k'); [done|]. rewrite (better_asym _ _ _ Hb). by f_equal.
Qed.

Lemma lm_subscript_absent s m1 k m2 :
  Forall (λ e, better s e.1 k = true) m1 → Forall (λ e, better s k e.1 = true) m2 →
  lm_subscript s k (m1 ++ m2) = m1 ++ (k, PriceLevel_default) :: m2.
Proof.
  intros H1 H2. induction H1 as [|[k' v'] m1 Hb _ IH]; simpl in *.
  - destruct H2 as [|[k' v'] m2 Hb _]; simpl in *; [done|].
    destruct (Z.eqb_spec k k'); [subst; by rewrite better_irrefl in Hb|]. by rewrite Hb.
  - destruct (Z.eqb_spec k k'); [subst; by rewrite better_irrefl in Hb|].
    rewrite (better_asym _ _ _ Hb). by f_equal.
Qed.

(** A sorted map splits at any key: the key is present in the middle or absent. *)
Lemma lm_split s k m :
  lm_sorted s m →
  ∃ m1 m2, Forall (λ e, better s e.1 k = true) m1 ∧ Forall (λ e, better s k e.1 = true) m2 ∧
    ((∃ v, m = m1 ++ (k, v) :: m2) ∨ m = m1 ++ m2).
Proof.
  unfold lm_sorted. induction m as [|[k0 v0] m IH]; simpl; intros Hs.
  { exists [], []. naive_solver. }
  apply StronglySorted_inv in Hs as [Hs HF]. rewrite Forall_fmap in HF.
  destruct (better s k0 k) eqn:Hb.
  - destruct (IH Hs) as (m1 & m2 & H1 & H2 & Hm).
    exists ((k0, v0) :: m1), m2. split_and!; [by constructor|done|].
    destruct Hm as [[v ->]| ->]; [left|right]; eauto.
  - destruct (better s k k0) eqn:Hb'.
    + exists [], ((k0, v0) :: m). split_and!; [done| |by right].
      constructor; [done|]. eapply Forall_impl; [exact HF|]. intros e ?.
      by eapply better_trans.
    + apply (better_total s) in Hb'; [subst|done]. exists [], m. split_and!; [done..|].
      left. eauto.
Qed.
