(* ===== verification/BookSpecFacts.v ===== *)
(** * BookSpecFacts: what the abstract book guarantees

    The invariant [s_wf] of the abstract book and its preservation by the
    three requests; the accounting, pricing and priority facts about a sweep.
    Through the refinement theorems these are facts about the two
    implementations. *)

From S2P Require Import Prelude Types BookSpec DList Memory StoreRep LevelMap.

(** ** The sweep *)

(** An order that lost some, but not all, of its quantity. *)
Definition reduced (o o' : MEOrder) : Prop :=
  ∃ q, o' = set_remaining q o ∧ 0 < q ≤ o_remainingQuantity_ o.

Lemma reduced_refl o : qty_ok o → reduced o o.
Proof. intros [? _]. exists (o_remainingQuantity_ o). split; [by destruct o|lia]. Qed.

Lemma reduced_qty o o' : qty_ok o → reduced o o' → qty_ok o'.
Proof. intros [? ?] (q & -> & ?). split; simpl; lia. Qed.

(** What a sweep leaves of a side: a suffix, its first order possibly reduced. *)
Definition swept (os os' : list MEOrder) : Prop :=
  ∃ gone rest, os = gone ++ rest ∧ Forall2 reduced rest os'.

Lemma Forall2_reduced_refl os : Forall qty_ok os → Forall2 reduced os os.
Proof. induction 1; constructor; auto using reduced_refl. Qed.

Lemma swept_refl os : Forall qty_ok os → swept os os.
Proof. intros. exists [], os. auto using Forall2_reduced_refl. Qed.

Lemma swept_cons o os os' : swept os os' → swept (o :: os) os'.
Proof. intros (g & r & -> & ?). by exists (o :: g), r. Qed.

Lemma fill_of_facts rem mid o :
  0 < rem → qty_ok o →
  let f := fill_of rem mid o in
  0 < f_qty f ≤ o_remainingQuantity_ o ∧ f_left f = rem - f_qty f ∧ 0 ≤ f_left f ∧
  (o_remainingQuantity_ (f_after f) = 0 ∨ f_left f = 0) ∧ 0 ≤ o_remainingQuantity_ (f_after f).
Proof. unfold qty_ok. simpl. lia. Qed.

(** Induction over a sweep, one case per way a step can go. *)
Lemma s_sweep_ind (side : Side) (price : Price)
    (Q : Quantity → OrderId → list MEOrder →
         list MEOrder → Quantity → OrderId → list fill → Prop) :
  (∀ rem mid os, rem = 0 ∨ os = [] ∨
     (∃ o os', os = o :: os' ∧ no_cross side price (o_price_ o) = true) →
     Q rem mid os os rem mid []) →
  (∀ rem mid o os, 0 < rem → qty_ok o → no_cross side price (o_price_ o) = false →
     let f := fill_of rem mid o in
     0 < o_remainingQuantity_ (f_after f) → f_left f = 0 →
     Q rem mid (o :: os) (f_after f :: os) 0 (u64 (mid + 1)) [f]) →
  (∀ rem mid o os os' rem' mid' fs, 0 < rem → qty_ok o →
     no_cross side price (o_price_ o) = false →
     let f := fill_of rem mid o in
     o_remainingQuantity_ (f_after f) = 0 →
     Q (f_left f) (u64 (mid + 1)) os os' rem' mid' fs →
     Q rem mid (o :: os) os' rem' mid' (f :: fs)) →
  ∀ rem mid os os' rem' mid' fs, 0 ≤ rem → Forall qty_ok os →
    s_sweep side price rem mid os = (os', rem', mid', fs) → Q rem mid os os' rem' mid' fs.
Proof.
  intros Hstop Hpart Hfull rem mid os. revert rem mid.
  induction os as [|o os IH]; intros rem mid os' rem' mid' fs Hrem HQ.
  { simpl. intros. simplify_eq. apply Hstop. auto. }
  apply Forall_cons in HQ as [Hq HQ]. rewrite s_sweep_cons.
  destruct (negb (rem >? 0)) eqn:Hz; cbn [orb].
  { intros. simplify_eq. apply Hstop. left. lia. }
  destruct (no_cross side price (o_price_ o)) eqn:Hx.
  { intros. simplify_eq. apply Hstop. right. right. eauto. }
  assert (Hpos : 0 < rem) by lia. cbv zeta.
  destruct (fill_of_facts rem mid o Hpos Hq) as (Hf1 & Hf2 & Hf3 & Hf4 & Hf5).
  destruct (o_remainingQuantity_ (f_after (fill_of rem mid o)) =? 0) eqn:Hfz.
  - destruct (s_sweep side price _ _ os) as [[[os1 rem1] mid1] fs1] eqn:Hsw.
    intros [= <- <- <- <-]. apply Hfull; [exact Hpos|exact Hq|exact Hx|lia|].
    by apply IH.
  - assert (f_left (fill_of rem mid o) = 0) as Hl by lia.
    rewrite Hl. intros [= <- <- <- <-]. apply Hpart; [exact Hpos|exact Hq|exact Hx|lia|exact Hl].
Qed.

Section sweep.
Variables (side : Side) (price : Price) (rem : Quantity) (mid : OrderId).
Variables (os os' : list MEOrder) (rem' : Quantity) (mid' : OrderId) (fs : list fill).
Hypothesis Hrem : 0 ≤ rem.
Hypothesis HQ : Forall qty_ok os.
Hypothesis Hsweep : s_sweep side price rem mid os = (os', rem', mid', fs).

Lemma sweep_swept : swept os os'.
Proof.
  revert Hrem HQ Hsweep.
  enough (0 ≤ rem → Forall qty_ok os → s_sweep side price rem mid os = (os', rem', mid', fs) →
    Forall qty_ok os → swept os os') by auto.
  apply (s_sweep_ind side price (λ _ _ os os' _ _ _, Forall qty_ok os → swept os os')).
  - intros _ _ ? _. apply swept_refl.
  - intros r m o l Hr Hq _ f Hf _ [_ ?]%Forall_cons. exists [], (o :: l). split; [done|].
    constructor; [|by apply Forall2_reduced_refl].
    eexists. split; [done|]. simpl in *. destruct Hq. lia.
  - intros r m o l l' r' m' gs _ _ _ f _ IH [_ ?]%Forall_cons. by apply swept_cons, IH.
Qed.

(** Quantity is conserved on both sides of the trade. *)
Lemma sweep_conserves :
  rem' = rem - zsum f_qty fs ∧
  zsum o_remainingQuantity_ os' = zsum o_remainingQuantity_ os - zsum f_qty fs.
Proof.
  revert Hrem HQ Hsweep. apply (s_sweep_ind side price (λ rem _ os os' rem' _ fs,
    rem' = rem - zsum f_qty fs ∧
    zsum o_remainingQuantity_ os' = zsum o_remainingQuantity_ os - zsum f_qty fs));
    unfold zsum; simpl; intros; lia.
Qed.

(** The executions: positive quantities, at a crossing price, not more than the
    resting order had. *)
Lemma sweep_fills :
  Forall (λ f, 0 < f_qty f ≤ o_remainingQuantity_ (f_order f) ∧ qty_ok (f_order f) ∧
               no_cross side price (o_price_ (f_order f)) = false) fs.
Proof.
  revert Hrem HQ Hsweep. apply (s_sweep_ind side price (λ _ _ _ _ _ _ fs,
    Forall (λ f, 0 < f_qty f ≤ o_remainingQuantity_ (f_order f) ∧ qty_ok (f_order f) ∧
               no_cross side price (o_price_ (f_order f)) = false) fs)); [constructor|..].
  - intros r m o l Hr Hq Hx f _ _. constructor; [|constructor]. split_and!; [| |done|done];
      destruct (fill_of_facts r m o Hr Hq) as [? _]; unfold f; simpl in *; lia.
  - intros r m o l l' r' m' gs Hr Hq Hx f _ IH. constructor; [|done]. split_and!; [| |done|done];
      destruct (fill_of_facts r m o Hr Hq) as [? _]; unfold f; simpl in *; lia.
Qed.

(** Orders execute in priority order, each before the next one is touched:
    every execution but the last one takes its order off the book. *)
Lemma sweep_order :
  f_order <$> fs = take (length fs) os ∧
  (os' = drop (length fs) os ∨
   ∃ fs1 f, fs = fs1 ++ [f] ∧ os' = f_after f :: drop (length fs) os ∧ rem' = 0 ∧
            0 < o_remainingQuantity_ (f_after f)) ∧
  (∀ fs1 f fs2, fs = fs1 ++ f :: fs2 → fs2 ≠ [] → o_remainingQuantity_ (f_after f) = 0).
Proof.
  revert Hrem HQ Hsweep. apply (s_sweep_ind side price (λ _ _ os os' rem' _ fs,
    f_order <$> fs = take (length fs) os ∧
    (os' = drop (length fs) os ∨
     ∃ fs1 f, fs = fs1 ++ [f] ∧ os' = f_after f :: drop (length fs) os ∧ rem' = 0 ∧
              0 < o_remainingQuantity_ (f_after f)) ∧
    (∀ fs1 f fs2, fs = fs1 ++ f :: fs2 → fs2 ≠ [] → o_remainingQuantity_ (f_after f) = 0))).
  - intros r m l _. split_and!; [done|by left|]. intros [|??] ????; done.
  - intros r m o l _ _ _ f Hf _. split_and!; [done| |].
    + right. by exists [], f.
    + intros [|? [|??]] ????; simplify_eq/=.
  - intros r m o l l' r' m' gs _ _ _ f Hf (IH1 & IH2 & IH3). split_and!.
    + rewrite fmap_cons, IH1. done.
    + destruct IH2 as [->|(gs1 & g & -> & -> & -> & ?)]; [by left|right].
      by exists (f :: gs1), g.
    + intros [|f1 fs1] g fs2 Heq Hne; simplify_eq/=; [done|]. by eapply IH3.
Qed.

(** The sweep stops because the taker is done, or nothing left crosses. *)
Lemma sweep_stops :
  0 < rem' → os' = [] ∨ ∃ o l, os' = o :: l ∧ no_cross side price (o_price_ o) = true.
Proof.
  revert Hrem HQ Hsweep. apply (s_sweep_ind side price (λ _ _ _ os' rem' _ _,
    0 < rem' → os' = [] ∨ ∃ o l, os' = o :: l ∧ no_cross side price (o_price_ o) = true)).
  - intros r m l [->|[->|(o & l' & -> & ?)]] ?; [lia|by left|right; eauto].
  - intros; lia.
  - intros. auto.
Qed.

(** Match ids are handed out consecutively, modulo 2^64. *)
Lemma sweep_match_ids :
  0 ≤ mid < 2 ^ 64 →
  (∀ i f, fs !! i = Some f → f_mid f = u64 (mid + Z.of_nat i)) ∧
  mid' = u64 (mid + Z.of_nat (length fs)).
Proof.
  revert Hrem HQ Hsweep. apply (s_sweep_ind side price (λ _ mid _ _ _ mid' fs,
    0 ≤ mid < 2 ^ 64 →
    (∀ i f, fs !! i = Some f → f_mid f = u64 (mid + Z.of_nat i)) ∧
    mid' = u64 (mid + Z.of_nat (length fs)))).
  - intros r m l _ ?. split; [done|]. simpl. rewrite Z.add_0_r. by rewrite u64_small.
  - intros r m o l _ _ _ f _ _ ?. split; [|done].
    intros [|[|i]] g Hg; simplify_eq/=. rewrite Z.add_0_r. by rewrite u64_small.
  - intros r m o l l' r' m' gs _ _ _ f _ IH Hm. destruct IH as [IH1 IH2]; [apply u64_range|].
    split.
    + intros [|i] g Hg; simplify_eq/=; [by rewrite Z.add_0_r, u64_small|].
      rewrite (IH1 _ _ Hg), u64_add_l. f_equal. lia.
    + rewrite IH2, u64_add_l. f_equal. simpl. lia.
Qed.

Lemma sweep_rem : 0 ≤ rem' ≤ rem.
Proof.
  pose proof Hrem. revert Hrem HQ Hsweep.
  enough (0 ≤ rem → Forall qty_ok os → s_sweep side price rem mid os = (os', rem', mid', fs) →
    0 ≤ rem → 0 ≤ rem' ≤ rem) by auto.
  apply (s_sweep_ind side price (λ rem _ _ _ rem' _ _, 0 ≤ rem → 0 ≤ rem' ≤ rem)).
  - intros; lia.
  - intros; lia.
  - intros r m o l l' r' m' gs Hr Hq _ f _ IH _.
    destruct (fill_of_facts r m o Hr Hq) as (? & ? & ? & _). fold f in H0, H1, H2. lia.
Qed.
End sweep.

(** ** The invariant *)

Record s_wf (sb : sbook) : Prop := {
  wf_qty s : Forall qty_ok (s_side s sb);
  wf_side s : Forall (λ o, o_side_ o = s) (s_side s sb);
  wf_sorted s :
    StronglySorted (λ x y, better s (o_price_ y) (o_price_ x) = false) (s_side s sb);
  wf_keys : NoDup (key <$> s_orders sb);
  wf_uncrossed x y : x ∈ s_bids sb → y ∈ s_asks sb → o_price_ x < o_price_ y;
  wf_gtc s : Forall (λ o, o_orderType_ o = GoodTillCancel) (s_side s sb)
}.

Lemma s_wf_empty : s_wf s_empty.
Proof. split; try (intros []); simpl; try constructor. set_solver. Qed.

Lemma wf_qty_orders sb : s_wf sb → Forall qty_ok (s_orders sb).
Proof. intros Hw. apply Forall_app. split; [apply (wf_qty _ Hw BUY)|apply (wf_qty _ Hw SELL)]. Qed.

(** *** Orders that only leave or shrink *)

Definition thinned (os os' : list MEOrder) : Prop :=
  ∃ l, l `sublist_of` os ∧ Forall2 reduced l os'.

Lemma swept_thinned os os' : swept os os' → thinned os os'.
Proof. intros (g & r & -> & ?). exists r. split; [by apply sublist_inserts_l|done]. Qed.

Lemma thinned_refl os : Forall qty_ok os → thinned os os.
Proof. intros. exists os. split; [done|by apply Forall2_reduced_refl]. Qed.

Lemma thinned_filter (p : MEOrder → bool) os : Forall qty_ok os → thinned os (List.filter p os).
Proof.
  intros HQ. exists (List.filter p os). split.
  - clear HQ. induction os as [|o os IH]; simpl; [done|]. destruct (p o); by constructor.
  - apply Forall2_reduced_refl. rewrite Forall_forall in HQ |- *. intros o Ho.
    apply HQ. rewrite list_elem_of_In, filter_In, <-list_elem_of_In in Ho. naive_solver.
Qed.

Lemma thinned_map (f : MEOrder → MEOrder) os :
  Forall (λ o, reduced o (f o)) os → thinned os (map f os).
Proof. intros HF. exists os. split; [done|]. induction HF; simpl; constructor; auto. Qed.

(** A property that a reduction keeps is kept by thinning. *)
Lemma thinned_Forall (R : MEOrder → Prop) os os' :
  (∀ o o', reduced o o' → R o → R o') → thinned os os' → Forall R os → Forall R os'.
Proof.
  intros HR (l & Hsub & HF) HQ.
  assert (HQl : Forall R l).
  { rewrite Forall_forall in HQ |- *. intros o Ho. apply HQ.
    by eapply sublist_subseteq. }
  clear Hsub HQ. induction HF as [|x y l l' Hxy HF IH]; [done|].
  apply Forall_cons in HQl as [??]. constructor; eauto.
Qed.

Lemma thinned_elem os os' o' : thinned os os' → o' ∈ os' → ∃ o, o ∈ os ∧ reduced o o'.
Proof.
  intros (l & Hsub & HF) [i Hi]%list_elem_of_lookup.
  destruct (Forall2_lookup_r _ _ _ _ _ HF Hi) as (o & Ho & Hr). exists o. split; [|done].
  eapply sublist_subseteq; [done|]. by eapply list_elem_of_lookup_2.
Qed.

Lemma reduced_fields o o' :
  reduced o o' → o_price_ o' = o_price_ o ∧ key o' = key o ∧ o_side_ o' = o_side_ o ∧
    o_orderType_ o' = o_orderType_ o ∧ o_marketOrderId_ o' = o_marketOrderId_ o.
Proof. by intros (q & -> & _). Qed.

Lemma thinned_length os os' : thinned os os' → (length os' ≤ length os)%nat.
Proof.
  intros (l & Hsub & HF). rewrite <-(Forall2_length _ _ _ HF). by apply sublist_length.
Qed.

Lemma thinned_keys os os' : thinned os os' → (key <$> os') `sublist_of` (key <$> os).
Proof.
  intros (l & Hsub & HF). assert (key <$> os' = key <$> l) as ->.
  { symmetry. clear Hsub. induction HF as [|x y l l' Hxy HF IH]; [done|].
    rewrite !fmap_cons, IH. by destruct (reduced_fields _ _ Hxy) as (_ & -> & _). }
  clear HF. induction Hsub; simpl; auto using sublist_nil, sublist_skip, sublist_cons.
Qed.

Lemma StronglySorted_sublist {A} (R : relation A) l l' :
  l `sublist_of` l' → StronglySorted R l' → StronglySorted R l.
Proof.
  induction 1 as [|x l l' Hsub IH|x l l' Hsub IH]; intros Hs; [done|..];
    apply StronglySorted_inv in Hs as [Hs HF].
  - constructor; [by apply IH|]. rewrite Forall_forall in HF |- *. intros y Hy.
    apply HF. by eapply sublist_subseteq.
  - by apply IH.
Qed.

(** A relation on orders that ignores the remaining quantity survives thinning. *)
Lemma thinned_sorted (R : relation MEOrder) os os' :
  (∀ x x' y y', reduced x x' → reduced y y' → R x y → R x' y') →
  thinned os os' → StronglySorted R os → StronglySorted R os'.
Proof.
  intros HR (l & Hsub & HF) Hs. apply (StronglySorted_sublist R l) in Hs; [|done].
  clear Hsub. induction HF as [|x y l l' Hxy HF IH]; [done|].
  apply StronglySorted_inv in Hs as [Hs HFx]. constructor; [by apply IH|].
  clear IH Hs. induction HF as [|u w l l' Huw HF IH]; [done|].
  apply Forall_cons in HFx as [??]. constructor; eauto.
Qed.

Lemma wf_thin sb sb' :
  (∀ s, thinned (s_side s sb) (s_side s sb')) → s_wf sb → s_wf sb'.
Proof.
  intros Ht Hw. split.
  - intros s. eapply thinned_Forall; [|apply Ht|by eapply wf_qty].
    intros. by eapply reduced_qty.
  - intros s. eapply thinned_Forall; [|apply Ht|by eapply wf_side].
    intros o o' (_ & _ & -> & _)%reduced_fields. done.
  - intros s. eapply thinned_sorted; [|apply Ht|by eapply wf_sorted].
    intros x x' y y' (-> & _)%reduced_fields (-> & _)%reduced_fields. done.
  - pose proof (wf_keys _ Hw) as Hnd. unfold s_orders in *. rewrite fmap_app in *.
    eapply sublist_NoDup; [exact Hnd|].
    apply sublist_app; apply thinned_keys; [apply (Ht BUY)|apply (Ht SELL)].
  - intros x y Hx Hy.
    destruct (thinned_elem _ _ _ (Ht BUY) Hx) as (x0 & Hx0 & (-> & _)%reduced_fields).
    destruct (thinned_elem _ _ _ (Ht SELL) Hy) as (y0 & Hy0 & (-> & _)%reduced_fields).
    by apply (wf_uncrossed _ Hw).
  - intros s. eapply thinned_Forall; [|apply Ht|by eapply wf_gtc].
    intros o o' (_ & _ & _ & -> & _)%reduced_fields. done.
Qed.

(** *** An order that comes to rest *)

Lemma s_enqueue_perm o os : s_enqueue o os ≡ₚ o :: os.
Proof.
  induction os as [|x os IH]; simpl; [done|]. case_match; [done|]. rewrite IH. constructor.
Qed.

(** On a sorted side, the new order splits the side into those it does not beat
    and those it beats. *)
Lemma sorted_split s p os :
  StronglySorted (λ x y, better s (o_price_ y) (o_price_ x) = false) os →
  ∃ o1 o2, os = o1 ++ o2 ∧
    Forall (λ x, better s p (o_price_ x) = false) o1 ∧
    Forall (λ x, better s p (o_price_ x) = true) o2.
Proof.
  induction 1 as [|x os _ IH HF]; [by exists [], []|].
  destruct (better s p (o_price_ x)) eqn:Hb.
  - exists [], (x :: os). split_and!; [done|constructor|]. constructor; [done|].
    eapply Forall_impl; [exact HF|]. simpl. intros y Hy.
    destruct (better s (o_price_ x) (o_price_ y)) eqn:Hxy; [by eapply better_trans|].
    by rewrite (better_total _ _ _ Hxy Hy) in Hb.
  - destruct IH as (o1 & o2 & -> & H1 & H2). exists (x :: o1), o2. by split_and!; [|constructor|].
Qed.

Lemma StronglySorted_mid {A} (R : relation A) l1 x l2 :
  StronglySorted R (l1 ++ l2) → Forall (λ y, R y x) l1 → Forall (R x) l2 →
  StronglySorted R (l1 ++ x :: l2).
Proof.
  intros Hs H1 H2. induction l1 as [|y l1 IH]; simpl in *; [by constructor|].
  apply StronglySorted_inv in Hs as [Hs HF]. apply Forall_cons in H1 as [Hy H1].
  constructor; [by apply IH|]. apply Forall_app in HF as [??]. apply Forall_app; auto.
Qed.

Lemma s_enqueue_sorted s o os :
  o_side_ o = s →
  StronglySorted (λ x y, better s (o_price_ y) (o_price_ x) = false) os →
  StronglySorted (λ x y, better s (o_price_ y) (o_price_ x) = false) (s_enqueue o os).
Proof.
  intros Hs Hso. destruct (sorted_split s (o_price_ o) os Hso) as (o1 & o2 & -> & H1 & H2).
  rewrite (s_enqueue_split o o1 o2) by (by rewrite Hs).
  apply StronglySorted_mid; [done|done|].
  eapply Forall_impl; [exact H2|]. intros x Hx. by apply better_asym.
Qed.

(** A limit price that no order of the opposite side reaches. *)
Definition clear_of (side : Side) (price : Price) (os : list MEOrder) : Prop :=
  Forall (λ o, no_cross side price (o_price_ o) = true) os.

Lemma no_cross_better side price p :
  no_cross side price p = true ↔ match side with BUY => price < p | SELL => p < price end.
Proof. destruct side; unfold no_cross; simpl; lia. Qed.

Lemma s_insert_orders a q sb : s_orders (s_insert a q sb) ≡ₚ resting_order a q :: s_orders sb.
Proof.
  unfold s_insert, s_orders. destruct (a_side a); simpl; rewrite s_enqueue_perm; [done|].
  by rewrite Permutation_middle.
Qed.

Lemma s_side_insert s a q sb :
  s_side s (s_insert a q sb) =
  if decide (s = a_side a) then s_enqueue (resting_order a q) (s_side s sb) else s_side s sb.
Proof. unfold s_insert. rewrite s_side_set. by case_decide; subst. Qed.

Lemma wf_insert a q sb :
  s_wf sb → 0 < q < 2 ^ 32 → a_orderType a = GoodTillCancel →
  (a_clientId a, a_clientOrderId a) ∉ key <$> s_orders sb →
  clear_of (a_side a) (a_price a) (s_side (opposite (a_side a)) sb) →
  s_wf (s_insert a q sb).
Proof.
  intros Hw Hq Ht Hk Hc.
  assert (HF : ∀ (Q : MEOrder → Prop) s, (s = a_side a → Q (resting_order a q)) →
    Forall Q (s_side s sb) → Forall Q (s_side s (s_insert a q sb))).
  { intros Q s Hnew Hold. rewrite s_side_insert. case_decide; [|done].
    rewrite s_enqueue_perm. constructor; auto. }
  split.
  - intros s. apply HF; [done|by apply wf_qty].
  - intros s. apply HF; [done|by apply wf_side].
  - intros s. rewrite s_side_insert. case_decide; [|by apply wf_sorted].
    apply s_enqueue_sorted; [done|by apply wf_sorted].
  - rewrite s_insert_orders, fmap_cons. apply NoDup_cons. split; [done|by apply wf_keys].
  - intros x y Hx Hy. unfold clear_of in Hc. rewrite Forall_forall in Hc.
    pose proof (wf_uncrossed _ Hw) as Hu. change (x ∈ s_side BUY (s_insert a q sb)) in Hx.
    change (y ∈ s_side SELL (s_insert a q sb)) in Hy. rewrite s_side_insert in Hx, Hy.
    destruct (a_side a) eqn:Hside; simpl in *; rewrite s_enqueue_perm in Hx || rewrite s_enqueue_perm in Hy.
    + apply elem_of_cons in Hx as [->|Hx]; [|by apply Hu].
      by apply (no_cross_better BUY), Hc.
    + apply elem_of_cons in Hy as [->|Hy]; [|by apply Hu].
      by apply (no_cross_better SELL), Hc.
  - intros s. apply HF; [done|by apply wf_gtc].
Qed.

(** *** The steps of a request *)

Lemma wf_bump sb : s_wf sb → s_wf (s_bump sb).
Proof. intros [? ? ? ? ? ?]. split; done. Qed.

Lemma s_side_delete s k sb :
  s_side s (s_delete k sb) = List.filter (λ o, negb (has_key k o)) (s_side s sb).
Proof. by destruct s. Qed.

Lemma s_side_update s k f sb :
  s_side s (s_update k f sb) = map (λ o, if has_key k o then f o else o) (s_side s sb).
Proof. by destruct s. Qed.

Lemma delete_thins k sb s :
  s_wf sb → thinned (s_side s sb) (s_side s (s_delete k sb)).
Proof. intros Hw. rewrite s_side_delete. by apply thinned_filter, wf_qty. Qed.

Lemma wf_delete k sb : s_wf sb → s_wf (s_delete k sb).
Proof. intros Hw. eapply wf_thin; [|done]. intros s. by apply delete_thins. Qed.
#[export] Hint Resolve s_wf_empty wf_bump wf_delete : exchange.


(** The orders found by key are the orders with that key. *)
Lemma s_find_some k sb o : s_find k sb = Some o → o ∈ s_orders sb ∧ key o = k.
Proof.
  intros [Hin Hk]%List.find_some. apply list_elem_of_In in Hin.
  by apply bool_decide_eq_true in Hk.
Qed.

Lemma s_find_none k sb : s_find k sb = None ↔ k ∉ key <$> s_orders sb.
Proof.
  unfold s_find. split.
  - intros Hf (o & -> & Ho)%list_elem_of_fmap. apply list_elem_of_In in Ho.
    apply (List.find_none _ _ Hf) in Ho. by apply bool_decide_eq_false in Ho.
  - intros Hk. destruct (List.find _ _) as [o|] eqn:Hf; [|done]. exfalso. apply Hk.
    apply (s_find_some k sb) in Hf as [? <-]. by apply list_elem_of_fmap_2.
Qed.

Lemma NoDup_fmap_eq {A B} (f : A → B) l x y :
  NoDup (f <$> l) → x ∈ l → y ∈ l → f x = f y → x = y.
Proof.
  intros Hnd [i Hi]%list_elem_of_lookup [j Hj]%list_elem_of_lookup Heq.
  assert (i = j) as ->; [|congruence].
  eapply (NoDup_lookup (f <$> l)); [done|..]; rewrite list_lookup_fmap.
  - by rewrite Hi.
  - rewrite Hj. simpl. by rewrite Heq.
Qed.

Lemma s_find_qty k sb o : s_wf sb → s_find k sb = Some o → qty_ok o.
Proof.
  intros Hw [Hin _]%s_find_some. pose proof (wf_qty_orders _ Hw) as HQ.
  rewrite Forall_forall in HQ. by apply HQ.
Qed.

(** Keys are unique, so the lookup is exact. *)
Lemma s_find_exact k sb o : s_wf sb → o ∈ s_orders sb → key o = k → s_find k sb = Some o.
Proof.
  intros Hw Ho Hk. destruct (s_find k sb) as [o'|] eqn:Hf.
  - apply s_find_some in Hf as [Ho' Hk']. f_equal.
    eapply (NoDup_fmap_eq key); [by apply wf_keys|done..|congruence].
  - apply s_find_none in Hf. exfalso. apply Hf. subst k. by apply list_elem_of_fmap_2.
Qed.

Lemma update_thins k sb o q s :
  s_wf sb → s_find k sb = Some o → 0 < q ≤ o_remainingQuantity_ o →
  thinned (s_side s sb) (s_side s (s_update k (set_remaining q) sb)).
Proof.
  intros Hw Hf Hq. rewrite s_side_update. apply thinned_map.
  pose proof (wf_qty _ Hw s) as HQ. rewrite Forall_forall in HQ |- *. intros x Hx.
  destruct (has_key k x) eqn:Hk; [|by apply reduced_refl, HQ].
  apply bool_decide_eq_true in Hk.
  rewrite (s_find_exact k sb x Hw) in Hf by (done || apply elem_of_s_orders; eauto).
  simplify_eq. by exists q.
Qed.

Lemma wf_update k sb o q :
  s_wf sb → s_find k sb = Some o → 0 < q ≤ o_remainingQuantity_ o →
  s_wf (s_update k (set_remaining q) sb).
Proof. intros Hw Hf Hq. eapply wf_thin; [|done]. intros s. by eapply update_thins. Qed.

(** What matching does to a well-formed book. *)
Record matched (a : order_args) (sb sb' : sbook) (rem : Quantity) : Prop := {
  md_thin s : thinned (s_side s sb) (s_side s sb');
  md_next : s_next sb' = s_next sb;
  md_rem : 0 ≤ rem ≤ a_initialQuantity a;
  md_clear : 0 < rem → clear_of (a_side a) (a_price a) (s_side (opposite (a_side a)) sb')
}.

Lemma sorted_clear side price os :
  StronglySorted (λ x y, better (opposite side) (o_price_ y) (o_price_ x) = false) os →
  (os = [] ∨ ∃ o l, os = o :: l ∧ no_cross side price (o_price_ o) = true) →
  clear_of side price os.
Proof.
  intros Hs [->|(o & l & -> & Ho)]; [constructor|].
  apply StronglySorted_inv in Hs as [_ HF]. constructor; [done|].
  eapply Forall_impl; [exact HF|]. simpl. intros x Hx. apply no_cross_better in Ho.
  apply no_cross_better. destruct side; simpl in *; lia.
Qed.

Lemma s_match_matched v a sb io sb' io' rem :
  s_wf sb → 0 ≤ a_initialQuantity a →
  s_match v a sb io = (sb', io', rem) → matched a sb sb' rem.
Proof.
  intros Hw Hq. unfold s_match.
  destruct (s_sweep _ _ _ _ _) as [[[os' rem'] mid'] fs] eqn:Hsw. intros [= <- <- <-].
  pose proof (wf_qty _ Hw (opposite (a_side a))) as HQ.
  assert (Hth : thinned (s_side (opposite (a_side a)) sb) os')
    by (eapply swept_thinned, sweep_swept; eauto).
  split.
  - intros s. rewrite s_side_set. case_decide; [by subst|]. by apply thinned_refl, wf_qty.
  - apply s_next_set.
  - by eapply sweep_rem.
  - intros Hpos. rewrite s_side_set_eq. apply sorted_clear; [|by eapply sweep_stops].
    eapply thinned_sorted; [|exact Hth|by apply wf_sorted].
    intros x x' y y' (-> & _)%reduced_fields (-> & _)%reduced_fields. done.
Qed.

Lemma matched_wf a sb sb' rem : s_wf sb → matched a sb sb' rem → s_wf sb'.
Proof. intros Hw Hm. eapply wf_thin; [apply Hm|done]. Qed.

Lemma thinned_orders sb sb' :
  (∀ s, thinned (s_side s sb) (s_side s sb')) →
  (key <$> s_orders sb') `sublist_of` (key <$> s_orders sb) ∧
  (length (s_orders sb') ≤ length (s_orders sb))%nat.
Proof.
  intros Ht. unfold s_orders. rewrite !fmap_app, !length_app.
  pose proof (thinned_length _ _ (Ht BUY)). pose proof (thinned_length _ _ (Ht SELL)).
  simpl in *. split; [|lia].
  apply sublist_app; apply thinned_keys; [apply (Ht BUY)|apply (Ht SELL)].
Qed.

Lemma thinned_fresh sb sb' k :
  (∀ s, thinned (s_side s sb) (s_side s sb')) →
  k ∉ key <$> s_orders sb → k ∉ key <$> s_orders sb'.
Proof.
  intros Ht Hk Hin. apply Hk. eapply sublist_subseteq; [|done]. by apply thinned_orders.
Qed.

(** An order that comes and goes leaves nothing behind. *)
Lemma s_delete_insert a q sb :
  (a_clientId a, a_clientOrderId a) ∉ key <$> s_orders sb →
  s_delete (a_clientId a, a_clientOrderId a) (s_insert a q sb) = sb.
Proof.
  intros Hk. set (k := (a_clientId a, a_clientOrderId a)) in *.
  assert (Hold : ∀ s, Forall (λ o, has_key k o = false) (s_side s sb)).
  { intros s. apply Forall_forall. intros o Ho. apply bool_decide_eq_false. intros Hko. apply Hk.
    rewrite <-Hko. apply list_elem_of_fmap_2, elem_of_s_orders. eauto. }
  assert (Hnew : has_key k (resting_order a q) = true) by (by apply bool_decide_eq_true).
  assert (Hside : ∀ os, Forall (λ o, has_key k o = false) os →
    List.filter (λ o, negb (has_key k o)) (s_enqueue (resting_order a q) os) = os).
  { induction 1 as [|x os Hx HF IH]; cbn [s_enqueue List.filter]; [by rewrite Hnew|].
    destruct (better _ _ _); cbn [List.filter]; rewrite ?Hnew, Hx; cbn [negb]; f_equal; [|done].
    by apply filter_other. }
  apply sbook_eq; [|unfold s_insert; simpl; apply s_next_set].
  intros s. rewrite s_side_delete, s_side_insert. case_decide; [by apply Hside|by apply filter_other].
Qed.

(** Nothing to match. *)
Lemma s_match_clear v a sb i :
  clear_of (a_side a) (a_price a) (s_side (opposite (a_side a)) sb) →
  s_match v a sb i = (sb, i, a_initialQuantity a).
Proof.
  intros Hc. unfold s_match.
  assert (s_sweep (a_side a) (a_price a) (a_initialQuantity a) (next_match_id_ i)
    (s_side (opposite (a_side a)) sb) =
    (s_side (opposite (a_side a)) sb, a_initialQuantity a, next_match_id_ i, [])) as ->.
  { destruct Hc as [|o os Ho _]; [done|]. simpl. by rewrite Ho, orb_true_r. }
  rewrite s_set_same. f_equal. f_equal. destruct i. simpl. by rewrite app_nil_r.
Qed.

(** ** The requests keep the invariant *)

Section requests.
Variables (v : variant) (tickerId : TickerId) (clientId : ClientId) (token : OrderToken).
Variables (sb : sbook) (io : engine_io).
Hypothesis Hw : s_wf sb.

Lemma add_wf clientOrderId orderType price qty side :
  0 ≤ qty < 2 ^ 32 → s_find (clientId, clientOrderId) sb = None →
  let sb' := (s_addOrder v tickerId clientId clientOrderId orderType price qty side token
                sb io).1 in
  s_wf sb' ∧ (length (s_orders sb') ≤ S (length (s_orders sb)))%nat.
Proof.
  intros Hq Hk. unfold s_addOrder. apply s_find_none in Hk.
  match goal with |- context [s_match v ?a] => set (a0 := a) end.
  destruct (s_match v a0 _ _) as [[sb1 io1] rem] eqn:Hm.
  pose proof (s_match_matched v a0 _ _ _ _ _ (wf_bump _ Hw) (proj1 Hq) Hm) as Hmd.
  pose proof (matched_wf _ _ _ _ (wf_bump _ Hw) Hmd) as Hw1.
  pose proof (md_rem _ _ _ _ Hmd) as Hr. simpl in Hr.
  destruct (thinned_orders _ _ (md_thin _ _ _ _ Hmd)) as [_ Hlen].
  change (s_orders (s_bump sb)) with (s_orders sb) in Hlen.
  destruct (rem >? 0) eqn:Hz; [|by split; [|simpl; lia]].
  destruct orderType eqn:Hty; [|by split; [|simpl; lia]]. split.
  - apply wf_insert; [done|lia|done| |apply (md_clear _ _ _ _ Hmd); lia].
    eapply thinned_fresh; [apply (md_thin _ _ _ _ Hmd)|done].
  - cbn [fst]. rewrite s_insert_orders. simpl. lia.
Qed.

Lemma cancel_wf clientOrderId qty :
  0 ≤ qty →
  let sb' := (s_cancelOrder v tickerId clientId clientOrderId qty token sb io).1 in
  s_wf sb' ∧ (length (s_orders sb') ≤ length (s_orders sb))%nat.
Proof.
  intros Hq. unfold s_cancelOrder. destruct (s_find _ sb) as [o|] eqn:Hf; [|done].
  set (c := if qty =? 0 then _ else _). destruct (c >? _) eqn:Hc; [done|]. simpl.
  pose proof (s_find_qty _ _ _ Hw Hf) as HQ.
  destruct (o_remainingQuantity_ o - c =? 0) eqn:Hz.
  - split; [by apply wf_delete|]. apply thinned_orders. intros s. by apply delete_thins.
  - assert (0 < o_remainingQuantity_ o - c ≤ o_remainingQuantity_ o).
    { unfold c in *. destruct HQ. destruct (qty =? 0) eqn:?; lia. }
    split; [by eapply wf_update|]. apply thinned_orders. intros s. by eapply update_thins.
Qed.

Lemma delete_length k o :
  s_find k sb = Some o → (length (s_orders (s_delete k sb)) < length (s_orders sb))%nat.
Proof.
  intros [Ho Hk]%s_find_some. unfold s_delete, s_orders in *. simpl.
  rewrite <-List.filter_app.
  induction (s_bids sb ++ s_asks sb) as [|x os IH]; [by apply elem_of_nil in Ho|].
  apply elem_of_cons in Ho as [<-|Ho]; simpl.
  - assert (has_key k o = true) as -> by (by apply bool_decide_eq_true). simpl.
    pose proof (List.filter_length_le (λ o, negb (has_key k o)) os). lia.
  - specialize (IH Ho). destruct (has_key k x); simpl; lia.
Qed.

Lemma replace_wf clientOrderId newClientOrderId orderType price qty :
  0 ≤ qty < 2 ^ 32 →
  s_find (clientId, newClientOrderId) (s_delete (clientId, clientOrderId) sb) = None →
  let sb' := (s_replaceOrder v tickerId clientId clientOrderId newClientOrderId orderType
                price qty token sb io).1 in
  s_wf sb' ∧ (length (s_orders sb') ≤ length (s_orders sb))%nat.
Proof.
  intros Hq Hk. unfold s_replaceOrder. destruct (s_find _ sb) as [old|] eqn:Hf; [|done].
  destruct (_ || _); [done|]. apply s_find_none in Hk.
  pose proof (delete_length _ _ Hf) as Hdl.
  match goal with |- context [s_match v ?a] => set (a0 := a) end.
  set (sb0 := s_delete _ _). assert (Hw0 : s_wf sb0) by (by apply wf_delete, wf_bump).
  destruct (s_match v a0 _ _) as [[sb1 io1] rem] eqn:Hm.
  pose proof (s_match_matched v a0 _ _ _ _ _ Hw0 (proj1 Hq) Hm) as Hmd.
  pose proof (matched_wf _ _ _ _ Hw0 Hmd) as Hw1.
  pose proof (md_rem _ _ _ _ Hmd) as Hr. simpl in Hr.
  destruct (thinned_orders _ _ (md_thin _ _ _ _ Hmd)) as [_ Hlen].
  change (s_orders sb0) with (s_orders (s_delete (clientId, clientOrderId) sb)) in Hlen.
  destruct (rem =? 0) eqn:Hz; [by split; [|simpl; lia]|].
  destruct orderType eqn:Hty; [|destruct v; by split; [|simpl; lia]]. split.
  - apply wf_insert; [done|lia|done| |apply (md_clear _ _ _ _ Hmd); lia].
    eapply thinned_fresh; [apply (md_thin _ _ _ _ Hmd)|done].
  - cbn [fst]. rewrite s_insert_orders. simpl. lia.
Qed.

(** The keys on the book afterwards: old ones, and the new order's. *)
Lemma insert_keys (a : order_args) q sb1 k :
  (∀ s, thinned (s_side s sb) (s_side s sb1)) →
  k ∈ key <$> s_orders (s_insert a q sb1) →
  k ∈ key <$> s_orders sb ∨ k = (a_clientId a, a_clientOrderId a).
Proof.
  intros Ht. rewrite s_insert_orders, fmap_cons. intros [->|Hk]%elem_of_cons; [by right|left].
  eapply sublist_subseteq; [|exact Hk]. by apply thinned_orders.
Qed.

Lemma thinned_keys_in sb1 k :
  (∀ s, thinned (s_side s sb) (s_side s sb1)) →
  k ∈ key <$> s_orders sb1 → k ∈ key <$> s_orders sb.
Proof. intros Ht Hk. eapply sublist_subseteq; [|exact Hk]. by apply thinned_orders. Qed.

Lemma add_keys clientOrderId orderType price qty side k :
  0 ≤ qty →
  k ∈ key <$> s_orders (s_addOrder v tickerId clientId clientOrderId orderType price qty side
                          token sb io).1 →
  k ∈ key <$> s_orders sb ∨ k = (clientId, clientOrderId).
Proof.
  intros Hq. unfold s_addOrder.
  match goal with |- context [s_match v ?a] => set (a0 := a) end.
  destruct (s_match v a0 _ _) as [[sb1 io1] rem] eqn:Hm.
  pose proof (md_thin _ _ _ _ (s_match_matched v a0 _ _ _ _ _ (wf_bump _ Hw) Hq Hm)) as Ht.
  assert (Ht' : ∀ s, thinned (s_side s sb) (s_side s sb1))
    by (intros s; rewrite <-(s_side_bump s sb); apply Ht).
  destruct (rem >? 0); [|intros ?%(thinned_keys_in _ _ Ht'); by left].
  destruct orderType; [by apply (insert_keys a0)|].
  intros ?%(thinned_keys_in _ _ Ht'); by left.
Qed.

Lemma cancel_keys clientOrderId qty k :
  k ∈ key <$> s_orders (s_cancelOrder v tickerId clientId clientOrderId qty token sb io).1 →
  k ∈ key <$> s_orders sb.
Proof.
  unfold s_cancelOrder. destruct (s_find _ sb) as [o|] eqn:Hf; [|done].
  destruct (_ >? _); [done|]. simpl. case_match.
  - apply thinned_keys_in. intros s. by apply delete_thins.
  - unfold s_orders. simpl. rewrite <-map_app. intros (x & -> & Hx)%list_elem_of_fmap.
    apply list_elem_of_fmap in Hx as (y & -> & Hy). apply list_elem_of_fmap.
    exists y. split; [by destruct (has_key _ y)|done].
Qed.

Lemma replace_keys clientOrderId newClientOrderId orderType price qty k :
  0 ≤ qty →
  k ∈ key <$> s_orders (s_replaceOrder v tickerId clientId clientOrderId newClientOrderId
                          orderType price qty token sb io).1 →
  k ∈ key <$> s_orders sb ∨ k = (clientId, newClientOrderId).
Proof.
  intros Hq. unfold s_replaceOrder. destruct (s_find _ sb) as [old|] eqn:Hf; [|by left].
  destruct (_ || _); [by left|].
  match goal with |- context [s_match v ?a] => set (a0 := a) end.
  destruct (s_match v a0 _ _) as [[sb1 io1] rem] eqn:Hm.
  pose proof (md_thin _ _ _ _
    (s_match_matched v a0 _ _ _ _ _ (wf_delete _ _ (wf_bump _ Hw)) Hq Hm)) as Ht.
  assert (Ht' : ∀ k, k ∈ key <$> s_orders sb1 → k ∈ key <$> s_orders sb).
  { intros k' Hk'. eapply (sublist_subseteq (key <$> s_orders (s_delete _ sb)));
      [apply thinned_orders; intros s; by apply delete_thins|].
    eapply sublist_subseteq; [apply thinned_orders, Ht|done]. }
  destruct (rem =? 0); [left; auto|]. destruct orderType; [|destruct v; left; auto].
  cbn [fst]. rewrite s_insert_orders, fmap_cons.
  intros [->|Hk]%elem_of_cons; [by right|left; auto].
Qed.
End requests.
