(* ===== verification/BookTime.v ===== *)
(** * BookTime: time priority and the identity of market orders

    At one price the orders of a side are in the order they arrived, which the
    market-order ids record: the invariant [s_timed].  Every request moves the
    book in one of two ways ([evolves]): orders leave or shrink, or in addition
    one order with a fresh id comes to rest. *)

From S2P Require Import Prelude Types BookSpec DList Memory StoreRep LevelMap BookSpecFacts.

Abbreviation mid_of := o_marketOrderId_ (only parsing).

Record s_timed (sb : sbook) : Prop := {
  td_time s :
    StronglySorted (λ x y, o_price_ x = o_price_ y → mid_of x < mid_of y) (s_side s sb);
  td_ids : NoDup (mid_of <$> s_orders sb);
  td_below : Forall (λ o, 0 < mid_of o < s_next sb) (s_orders sb);
  td_next : 0 < s_next sb < 2 ^ 64
}.

Definition thins (sb sb' : sbook) : Prop := ∀ s, thinned (s_side s sb) (s_side s sb').

Inductive evolves (sb : sbook) : sbook → Prop :=
  | evolves_thin sb' :
      thins sb sb' → s_next sb' = s_next sb ∨ s_next sb' = u64 (s_next sb + 1) →
      evolves sb sb'
  | evolves_rest sb1 a q :
      thins sb sb1 → s_next sb1 = u64 (s_next sb + 1) → a_marketOrderId a = s_next sb →
      evolves sb (s_insert a q sb1).

Lemma s_timed_empty : s_timed s_empty.
Proof. split; try (intros []); simpl; try constructor; try lia; constructor. Qed.
#[export] Hint Resolve s_timed_empty : exchange.


(** ** Every request evolves the book *)

Section requests.
Variables (v : variant) (tickerId : TickerId) (clientId : ClientId) (token : OrderToken).
Variables (sb : sbook) (io : engine_io).
Hypothesis Hw : s_wf sb.

Lemma add_evolves clientOrderId orderType price qty side :
  0 ≤ qty →
  evolves sb (s_addOrder v tickerId clientId clientOrderId orderType price qty side token sb io).1.
Proof.
  intros Hq. unfold s_addOrder.
  match goal with |- context [s_match v ?a] => set (a0 := a) end.
  destruct (s_match v a0 _ _) as [[sb1 io1] rem] eqn:Hm.
  pose proof (s_match_matched v a0 _ _ _ _ _ (wf_bump _ Hw) Hq Hm) as Hmd.
  assert (Ht : thins sb sb1).
  { intros s. rewrite <-(s_side_bump s sb). apply Hmd. }
  pose proof (md_next _ _ _ _ Hmd) as Hn.
  destruct (rem >? 0); [|apply evolves_thin; [done|by right]].
  destruct orderType; [by apply evolves_rest|apply evolves_thin; [done|by right]].
Qed.

Lemma thins_refl : thins sb sb.
Proof. intros s. apply thinned_refl. by apply wf_qty. Qed.

Lemma cancel_evolves clientOrderId qty :
  0 ≤ qty →
  evolves sb (s_cancelOrder v tickerId clientId clientOrderId qty token sb io).1.
Proof.
  intros Hq. unfold s_cancelOrder. destruct (s_find _ sb) as [o|] eqn:Hf;
    [|apply evolves_thin; [by apply thins_refl|by left]].
  set (c := if qty =? 0 then _ else _).
  destruct (c >? _) eqn:Hc; [apply evolves_thin; [by apply thins_refl|by left]|].
  pose proof (s_find_qty _ _ _ Hw Hf) as HQ.
  apply evolves_thin; simpl; [|left; by case_match].
  intros s. destruct (o_remainingQuantity_ o - c =? 0) eqn:Hz; [by apply delete_thins|].
  eapply update_thins; [done|done|].
  unfold c in *. destruct HQ. destruct (qty =? 0) eqn:?; lia.
Qed.

Lemma thinned_trans os1 os2 os3 : thinned os1 os2 → thinned os2 os3 → thinned os1 os3.
Proof.
  intros (l & Hsub & HF) (l' & Hsub' & HF').
  assert (∃ l'', l'' `sublist_of` l ∧ Forall2 reduced l'' l') as (l'' & Hs & HFl).
  { clear -HF Hsub'. revert l HF. induction Hsub' as [|x k k' Hk IH|x k k' Hk IH];
      intros l HF.
    - exists []. split; [apply sublist_nil_l|constructor].
    - apply Forall2_cons_inv_r in HF as (y & l0 & Hy & HF & ->).
      destruct (IH l0 HF) as (l'' & ? & ?). exists (y :: l''). split; by constructor.
    - apply Forall2_cons_inv_r in HF as (y & l0 & Hy & HF & ->).
      destruct (IH l0 HF) as (l'' & ? & ?). exists l''. split; [by constructor|done]. }
  exists l''. split; [by etrans|]. clear -HFl HF'. revert os3 HF'.
  induction HFl as [|x y k k' (q & -> & Hq) _ IH]; intros os3 HF'.
  - apply Forall2_nil_inv_l in HF' as ->. constructor.
  - apply Forall2_cons_inv_l in HF' as (z & os & (q' & -> & Hq') & HF' & ->).
    constructor; [|by apply IH]. exists q'. simpl in *. split; [done|lia].
Qed.

Lemma replace_evolves clientOrderId newClientOrderId orderType price qty :
  0 ≤ qty →
  evolves sb (s_replaceOrder v tickerId clientId clientOrderId newClientOrderId orderType
                price qty token sb io).1.
Proof.
  intros Hq. unfold s_replaceOrder. destruct (s_find _ sb) as [old|] eqn:Hf;
    [|apply evolves_thin; [by apply thins_refl|by left]].
  destruct (_ || _); [apply evolves_thin; [by apply thins_refl|by left]|].
  match goal with |- context [s_match v ?a] => set (a0 := a) end.
  destruct (s_match v a0 _ _) as [[sb1 io1] rem] eqn:Hm.
  pose proof (s_match_matched v a0 _ _ _ _ _ (wf_delete _ _ (wf_bump _ Hw)) Hq Hm) as Hmd.
  assert (Ht : thins sb sb1).
  { intros s. eapply thinned_trans; [by apply delete_thins|].
    rewrite <-(s_side_bump s (s_delete _ sb)). apply Hmd. }
  pose proof (md_next _ _ _ _ Hmd) as Hn.
  destruct (rem =? 0); [apply evolves_thin; [done|by right]|].
  destruct orderType; [by apply evolves_rest|].
  destruct v; (apply evolves_thin; [done|by right]).
Qed.
End requests.

(** ** Evolution keeps time priority *)

Lemma thinned_fmap {A} (f : MEOrder → A) os os' :
  (∀ o q, f (set_remaining q o) = f o) →
  thinned os os' → (f <$> os') `sublist_of` (f <$> os).
Proof.
  intros Hf (l & Hsub & HF). assert (f <$> os' = f <$> l) as ->.
  { symmetry. clear Hsub. induction HF as [|x y l l' (q & -> & _) HF IH]; [done|].
    rewrite !fmap_cons, IH. by rewrite Hf. }
  clear HF. induction Hsub; simpl; auto using sublist_nil, sublist_skip, sublist_cons.
Qed.

Lemma thins_fmap {A} (f : MEOrder → A) sb sb' :
  (∀ o q, f (set_remaining q o) = f o) →
  thins sb sb' → (f <$> s_orders sb') `sublist_of` (f <$> s_orders sb).
Proof.
  intros Hf Ht. unfold s_orders. rewrite !fmap_app.
  apply sublist_app; apply thinned_fmap; auto; [apply (Ht BUY)|apply (Ht SELL)].
Qed.

Lemma timed_thin sb sb' :
  s_timed sb → thins sb sb' → s_next sb ≤ s_next sb' < 2 ^ 64 → s_timed sb'.
Proof.
  intros [Htime Hids Hbelow Hnext] Ht Hn. split.
  - intros s. eapply thinned_sorted; [|apply Ht|apply Htime].
    intros x x' y y' (-> & _ & _ & _ & ->)%reduced_fields (-> & _ & _ & _ & ->)%reduced_fields. done.
  - eapply sublist_NoDup; [exact Hids|]. by apply thins_fmap.
  - rewrite Forall_forall in Hbelow |- *. intros o Ho.
    assert (mid_of o ∈ mid_of <$> s_orders sb) as Hm.
    { eapply sublist_subseteq; [by apply (thins_fmap mid_of _ sb')|]. by apply list_elem_of_fmap_2. }
    apply list_elem_of_fmap in Hm as (o0 & -> & Ho0). specialize (Hbelow _ Ho0). simpl in *. lia.
  - lia.
Qed.

Lemma timed_insert sb a q :
  s_timed sb → 0 < a_marketOrderId a < s_next sb →
  Forall (λ o, mid_of o < a_marketOrderId a) (s_orders sb) →
  (∀ s, StronglySorted (λ x y, better s (o_price_ y) (o_price_ x) = false) (s_side s sb)) →
  s_timed (s_insert a q sb).
Proof.
  intros [Htime Hids Hbelow Hnext] Hid Hold Hsort. split.
  - intros s. rewrite s_side_insert. case_decide as Hs; [|apply Htime].
    destruct (sorted_split (a_side a) (a_price a) (s_side s sb)) as (o1 & o2 & Ho & H1 & H2);
      [subst s; apply Hsort|].
    rewrite Ho, s_enqueue_split by done. apply StronglySorted_mid.
    + rewrite <-Ho. apply Htime.
    + rewrite Forall_forall in Hold |- *. intros x Hx _. apply Hold, elem_of_s_orders.
      exists s. rewrite Ho. set_solver.
    + eapply Forall_impl; [exact H2|]. simpl. intros x Hx Heq.
      rewrite Heq, better_irrefl in Hx. done.
  - rewrite s_insert_orders, fmap_cons. apply NoDup_cons. split; [|done].
    intros (o & Heq & Ho)%list_elem_of_fmap. rewrite Forall_forall in Hold.
    specialize (Hold _ Ho). simpl in *. lia.
  - rewrite s_insert_orders. assert (s_next (s_insert a q sb) = s_next sb) as ->
      by (unfold s_insert; apply s_next_set).
    constructor; [done|done].
  - unfold s_insert. by rewrite s_next_set.
Qed.

Lemma timed_evolves sb sb' :
  s_wf sb → s_timed sb → s_next sb + 1 < 2 ^ 64 → evolves sb sb' → s_timed sb'.
Proof.
  intros Hw Ht Hn Hev. pose proof (td_next _ Ht) as Hpos.
  assert (Hu : u64 (s_next sb + 1) = s_next sb + 1) by (apply u64_small; lia).
  destruct Hev as [sb' Hth Hor|sb1 a q Hth H1 Ha].
  - eapply timed_thin; [done|done|]. destruct Hor as [->| ->]; lia.
  - assert (Ht1 : s_timed sb1) by (eapply timed_thin; [done|done|lia]).
    apply timed_insert; [done|lia| |].
    + assert (Hsub : (mid_of <$> s_orders sb1) `sublist_of` (mid_of <$> s_orders sb))
        by (by apply thins_fmap).
      pose proof (td_below _ Ht) as Hb. rewrite Forall_forall in Hb |- *. intros o Ho.
      assert (mid_of o ∈ mid_of <$> s_orders sb) as Hm.
      { eapply sublist_subseteq; [exact Hsub|]. by apply list_elem_of_fmap_2. }
      apply list_elem_of_fmap in Hm as (o0 & -> & Ho0). specialize (Hb _ Ho0). simpl in *. lia.
    + intros s. pose proof (wf_thin sb sb1 Hth Hw) as Hw1. by apply wf_sorted.
Qed.

Lemma evolves_next sb sb' :
  0 < s_next sb → s_next sb + 1 < 2 ^ 64 → evolves sb sb' → s_next sb ≤ s_next sb' ≤ s_next sb + 1.
Proof.
  intros ? ? Hev. assert (u64 (s_next sb + 1) = s_next sb + 1) as Hu by (apply u64_small; lia).
  destruct Hev as [sb' _ [->| ->]|sb1 a q _ Hn _]; [lia|lia|].
  unfold s_insert. rewrite s_next_set, Hn. lia.
Qed.
