(* ===== verification/MatchingEngine.v ===== *)
(** * MatchingEngine: dispatch of requests to the order books

    [src/src/engine/matching_engine.{h,cpp}].  The engine owns one order book
    per ticker and the match-id counter; [processClientRequest] dispatches a
    request to the book of its ticker.  The order book is the compile-time
    choice of [order_book.h]: the class [OrderBook] is the API both headers
    expose, [OrderBookLaws] is the contract of [BookSpec]. *)

From S2P Require Import Prelude Types BookSpec DList Memory StoreRep BookSpecFacts BookTime.

Definition MAX_ORDER_BOOKS : nat := 256.

(** ** The order book API *)

Class OrderBook (B : Type) := {
  ob_new : nat → B;
  ob_addOrder : TickerId → ClientId → OrderId → OrderType → Price → Quantity → Side →
    OrderToken → B → engine_io → outcome (B * engine_io);
  ob_cancelOrder : TickerId → ClientId → OrderId → Quantity → OrderToken →
    B → engine_io → outcome (B * engine_io);
  ob_replaceOrder : TickerId → ClientId → OrderId → OrderId → OrderType → Price → Quantity →
    OrderToken → B → engine_io → outcome (B * engine_io)
}.

(** What the engine relies on: each call returns and does what the abstract
    book does, provided the book has room, the price is one the book can hold
    and a new order's key is not in use. *)
Class OrderBookLaws (v : variant) (B : Type) `{OrderBook B} := {
  ob_rel : nat → B → sbook → Prop;
  ob_price : Price → Prop;

  ob_new_ok n : ob_rel n (ob_new n) s_empty;
  ob_wf n b sb : ob_rel n b sb → s_wf sb;
  ob_addOrder_ok n b io sb t c id ty p q s tok :
    ob_rel n b sb → (length (s_orders sb) < n)%nat → ob_price p → 0 ≤ q < 2 ^ 32 →
    s_find (c, id) sb = None →
    let r := s_addOrder v t c id ty p q s tok sb io in
    ∃ b', ob_addOrder t c id ty p q s tok b io = Ok (b', r.2) ∧ ob_rel n b' r.1;
  ob_cancelOrder_ok n b io sb t c id q tok :
    ob_rel n b sb → 0 ≤ q →
    let r := s_cancelOrder v t c id q tok sb io in
    ∃ b', ob_cancelOrder t c id q tok b io = Ok (b', r.2) ∧ ob_rel n b' r.1;
  ob_replaceOrder_ok n b io sb t c id id' ty p q tok :
    ob_rel n b sb → ob_price p → 0 ≤ q < 2 ^ 32 →
    s_find (c, id') (s_delete (c, id) sb) = None →
    let r := s_replaceOrder v t c id id' ty p q tok sb io in
    ∃ b', ob_replaceOrder t c id id' ty p q tok b io = Ok (b', r.2) ∧ ob_rel n b' r.1
}.

(** ** The engine *)

Record engine (B : Type) := Engine {
  ticker_order_book_ : list B;
  engine_state : engine_io
}.
Arguments Engine {_} _ _.
Arguments ticker_order_book_ {_} _.
Arguments engine_state {_} _.

Section engine.
Context {B : Type} `{OrderBook B}.

(** The constructor: [maxOrderBooks] books, each with a pool of its own. *)
Definition engine_new (maxOrderBooks orderBookPoolSize : nat) : engine B :=
  Engine (replicate maxOrderBooks (ob_new orderBookPoolSize))
    {| next_match_id_ := 1; sent := [] |}.

(** The switch of [processClientRequest]. *)
Definition dispatch (rq : MEClientRequest) (orderbook : B) (io : engine_io)
    : outcome (B * engine_io) :=
  match rq_action_ rq with
  | REQ_NEW =>
      ob_addOrder (rq_ticker_id_ rq) (rq_client_id_ rq) (rq_client_order_id_ rq) (rq_type_ rq)
        (rq_price_ rq) (rq_qty_ rq) (rq_side_ rq) (rq_order_token_ rq) orderbook io
  | REQ_CANCEL =>
      ob_cancelOrder (rq_ticker_id_ rq) (rq_client_id_ rq) (rq_client_order_id_ rq)
        (rq_qty_ rq) (rq_order_token_ rq) orderbook io
  | REQ_MODIFY =>
      ob_replaceOrder (rq_ticker_id_ rq) (rq_client_id_ rq) (rq_client_order_id_ rq)
        (rq_new_client_order_id_ rq) (rq_type_ rq) (rq_price_ rq) (rq_qty_ rq)
        (rq_order_token_ rq) orderbook io
  end.

(** [MatchingEngine::processClientRequest]; [operator[]] of the vector of books
    is not bounds-checked, so an unknown ticker is a fault. *)
Definition processClientRequest (rq : MEClientRequest) (e : engine B) : outcome (engine B) :=
  match ticker_order_book_ e !! Z.to_nat (rq_ticker_id_ rq) with
  | None => Fault OutOfRange
  | Some orderbook =>
      match dispatch rq orderbook (engine_state e) with
      | Ok (ob', io') =>
          Ok (Engine (<[Z.to_nat (rq_ticker_id_ rq) := ob']> (ticker_order_book_ e)) io')
      | Fault f => Fault f
      end
  end.

(** The requests in the order [run] reads them. *)
Fixpoint run_requests (rqs : list MEClientRequest) (e : engine B) : outcome (engine B) :=
  match rqs with
  | [] => Ok e
  | rq :: rqs' =>
      match processClientRequest rq e with
      | Ok e' => run_requests rqs' e'
      | Fault f => Fault f
      end
  end.
End engine.

(** ** The abstract engine *)

Definition s_dispatch (v : variant) (rq : MEClientRequest) (sb : sbook) (io : engine_io)
    : sbook * engine_io :=
  match rq_action_ rq with
  | REQ_NEW =>
      s_addOrder v (rq_ticker_id_ rq) (rq_client_id_ rq) (rq_client_order_id_ rq) (rq_type_ rq)
        (rq_price_ rq) (rq_qty_ rq) (rq_side_ rq) (rq_order_token_ rq) sb io
  | REQ_CANCEL =>
      s_cancelOrder v (rq_ticker_id_ rq) (rq_client_id_ rq) (rq_client_order_id_ rq)
        (rq_qty_ rq) (rq_order_token_ rq) sb io
  | REQ_MODIFY =>
      s_replaceOrder v (rq_ticker_id_ rq) (rq_client_id_ rq) (rq_client_order_id_ rq)
        (rq_new_client_order_id_ rq) (rq_type_ rq) (rq_price_ rq) (rq_qty_ rq)
        (rq_order_token_ rq) sb io
  end.

Definition s_process (v : variant) (rq : MEClientRequest) (se : engine sbook) : engine sbook :=
  match ticker_order_book_ se !! Z.to_nat (rq_ticker_id_ rq) with
  | None => se
  | Some sb =>
      let r := s_dispatch v rq sb (engine_state se) in
      Engine (<[Z.to_nat (rq_ticker_id_ rq) := r.1]> (ticker_order_book_ se)) r.2
  end.

Definition s_run (v : variant) (rqs : list MEClientRequest) (se : engine sbook) : engine sbook :=
  foldl (λ se rq, s_process v rq se) se rqs.

Definition s_engine_new (n : nat) : engine sbook :=
  Engine (replicate n s_empty) {| next_match_id_ := 1; sent := [] |}.

(** ** What the requests of a run must satisfy *)

(** The key a request may put on a book. *)
Definition new_key (rq : MEClientRequest) : option (ClientId * OrderId) :=
  match rq_action_ rq with
  | REQ_NEW => Some (rq_client_id_ rq, rq_client_order_id_ rq)
  | REQ_MODIFY => Some (rq_client_id_ rq, rq_new_client_order_id_ rq)
  | REQ_CANCEL => None
  end.

(** How many requests of a run may add an order to the book of index [t]. *)
Definition new_load (t : nat) (rqs : list MEClientRequest) : nat :=
  length (List.filter (λ rq, bool_decide (rq_action_ rq = REQ_NEW) &&
                             bool_decide (Z.to_nat (rq_ticker_id_ rq) = t)) rqs).

(** The fields of a request are in range: a listed ticker, a 32-bit quantity and
    a price the book can hold. *)
Definition request_ok (price_ok : Price → Prop) (books : nat) (rq : MEClientRequest) : Prop :=
  (Z.to_nat (rq_ticker_id_ rq) < books)%nat ∧ 0 ≤ rq_qty_ rq < 2 ^ 32 ∧
  (rq_action_ rq = REQ_CANCEL ∨ price_ok (rq_price_ rq)).

(** The ids of a run are fresh and its orders fit into the pools. *)
Record admissible (n : nat) (rqs : list MEClientRequest) (se : engine sbook) : Prop := {
  adm_distinct : NoDup (omap new_key rqs);
  adm_fresh t sb k :
    ticker_order_book_ se !! t = Some sb → k ∈ omap new_key rqs → k ∉ key <$> s_orders sb;
  adm_room t sb :
    ticker_order_book_ se !! t = Some sb → (length (s_orders sb) + new_load t rqs ≤ n)%nat
}.

(** ** The abstract run *)

Section abstract_run.
Context (v : variant).

(** One request to one abstract book. *)
Lemma s_dispatch_ok sb io rq :
  s_wf sb → 0 ≤ rq_qty_ rq < 2 ^ 32 →
  (∀ k, new_key rq = Some k → k ∉ key <$> s_orders sb) →
  let sb' := (s_dispatch v rq sb io).1 in
  s_wf sb' ∧
  (∀ k, k ∈ key <$> s_orders sb' → k ∈ key <$> s_orders sb ∨ new_key rq = Some k) ∧
  (length (s_orders sb') ≤
     length (s_orders sb) + if bool_decide (rq_action_ rq = REQ_NEW) then 1 else 0)%nat.
Proof.
  intros Hw Hq Hk. unfold s_dispatch, new_key in *. destruct (rq_action_ rq); simpl in *.
  - specialize (Hk _ eq_refl). apply s_find_none in Hk. rewrite Nat.add_1_r.
    split_and!; [by apply add_wf| |by apply add_wf].
    intros k [?| ->]%(add_keys v _ _ _ _ io Hw); [by left|by right|lia].
  - rewrite Nat.add_0_r. split_and!; [apply cancel_wf; [done|lia]| |apply cancel_wf; [done|lia]].
    intros k ?%(cancel_keys v _ _ _ _ io Hw). by left.
  - specialize (Hk _ eq_refl). rewrite Nat.add_0_r.
    assert (Hk' : s_find (rq_client_id_ rq, rq_new_client_order_id_ rq)
      (s_delete (rq_client_id_ rq, rq_client_order_id_ rq) sb) = None).
    { apply s_find_none. eapply thinned_fresh; [|exact Hk]. intros s. by apply delete_thins. }
    split_and!; [by apply replace_wf| |by apply replace_wf].
    intros k [?| ->]%(replace_keys v _ _ _ _ io Hw); [by left|by right|lia].
Qed.

Lemma s_dispatch_evolves sb io rq :
  s_wf sb → 0 ≤ rq_qty_ rq → evolves sb (s_dispatch v rq sb io).1.
Proof.
  intros Hw Hq. unfold s_dispatch. destruct (rq_action_ rq);
    [by apply add_evolves|by apply cancel_evolves|by apply replace_evolves].
Qed.

Lemma s_process_books rq se :
  length (ticker_order_book_ (s_process v rq se)) = length (ticker_order_book_ se).
Proof. unfold s_process. case_match; [|done]. simpl. by rewrite length_insert. Qed.

Lemma s_process_lookup rq se t sb' :
  ticker_order_book_ (s_process v rq se) !! t = Some sb' →
  ∃ sb, ticker_order_book_ se !! t = Some sb ∧
    (t = Z.to_nat (rq_ticker_id_ rq) ∧ sb' = (s_dispatch v rq sb (engine_state se)).1 ∨
     t ≠ Z.to_nat (rq_ticker_id_ rq) ∧ sb' = sb).
Proof.
  unfold s_process. destruct (_ !! Z.to_nat _) as [sb|] eqn:Hsb; simpl.
  - intros [(<- & <- & _)|[Hne Hl]]%list_lookup_insert_Some; [|by eauto].
    exists sb. split; [done|by left].
  - intros Hl. exists sb'. split; [done|right]. split; [|done]. intros ->. congruence.
Qed.

Lemma new_load_cons t rq rqs :
  new_load t (rq :: rqs) =
  ((if bool_decide (rq_action_ rq = REQ_NEW) && bool_decide (Z.to_nat (rq_ticker_id_ rq) = t)
    then 1 else 0) + new_load t rqs)%nat.
Proof. unfold new_load. simpl. by destruct (_ && _). Qed.

Lemma new_keys_cons rq rqs k : k ∈ omap new_key rqs → k ∈ omap new_key (rq :: rqs).
Proof. simpl. destruct (new_key rq); [by right|done]. Qed.

(** The rest of an admissible run is admissible. *)
Lemma s_process_admissible n rq rqs se :
  (∀ t sb, ticker_order_book_ se !! t = Some sb → s_wf sb) → 0 ≤ rq_qty_ rq < 2 ^ 32 →
  admissible n (rq :: rqs) se → admissible n rqs (s_process v rq se).
Proof.
  intros Hw Hq [Hnd Hfresh Hroom]. simpl in Hnd.
  assert (Hd : ∀ t sb, ticker_order_book_ se !! t = Some sb → _) by
    (intros t sb Hsb; exact (s_dispatch_ok sb (engine_state se) rq (Hw _ _ Hsb) Hq (λ k Hk,
      Hfresh _ _ k Hsb ltac:(simpl; rewrite Hk; constructor)))).
  split.
  - destruct (new_key rq); [by apply NoDup_cons in Hnd as [_ ?]|done].
  - intros t sb' k (sb & Hsb & [[-> ->]|[_ ->]])%s_process_lookup Hk;
      [|by eapply Hfresh; [|apply new_keys_cons]].
    destruct (Hd _ _ Hsb) as (_ & Hkeys & _). intros [Hin|Hnew]%Hkeys.
    + eapply Hfresh; [exact Hsb|by apply new_keys_cons|exact Hin].
    + rewrite Hnew in Hnd. by apply NoDup_cons in Hnd as [??].
  - intros t sb' (sb & Hsb & Hor)%s_process_lookup. specialize (Hroom _ _ Hsb).
    rewrite new_load_cons in Hroom. destruct Hor as [[-> ->]|[_ ->]]; [|lia].
    destruct (Hd _ _ Hsb) as (_ & _ & Hlen).
    rewrite (bool_decide_eq_true_2 (Z.to_nat (rq_ticker_id_ rq) = _)), andb_true_r in Hroom by done.
    destruct (bool_decide (rq_action_ rq = REQ_NEW)); lia.
Qed.

(** An invariant of the books of a run; [k] counts the requests still to come. *)
Lemma s_run_inv n (Q : nat → sbook → Prop) :
  (∀ k rq sb io, s_wf sb → 0 ≤ rq_qty_ rq < 2 ^ 32 → Q (S k) sb →
     Q k (s_dispatch v rq sb io).1) →
  (∀ k sb, Q (S k) sb → Q k sb) →
  ∀ rqs se, Forall (λ rq, 0 ≤ rq_qty_ rq < 2 ^ 32) rqs → admissible n rqs se →
  (∀ t sb, ticker_order_book_ se !! t = Some sb → s_wf sb ∧ Q (length rqs) sb) →
  ∀ t sb, ticker_order_book_ (s_run v rqs se) !! t = Some sb → s_wf sb ∧ Q 0%nat sb.
Proof.
  intros HQ HQmono rqs. induction rqs as [|rq rqs IH]; intros se Hrq Hadm Hinv; [done|].
  apply Forall_cons in Hrq as [Hrq Hrqs]. simpl.
  apply IH; [done| |].
  - apply s_process_admissible; [|done|done]. intros t sb Hsb. by eapply Hinv.
  - intros t sb' (sb & Hsb & [[-> ->]|[_ ->]])%s_process_lookup;
      destruct (Hinv _ _ Hsb) as [Hw HQsb]; [|auto].
    split; [|by apply HQ]. apply (s_dispatch_ok sb (engine_state se) rq); [done|done|].
    intros k Hk. eapply (adm_fresh _ _ _ Hadm); [done|]. simpl. rewrite Hk. constructor.
Qed.

(** For a new engine the conditions of a run are conditions on the requests. *)
Lemma new_admissible books n rqs :
  NoDup (omap new_key rqs) → (∀ t, (new_load t rqs ≤ n)%nat) →
  admissible n rqs (s_engine_new books).
Proof.
  intros Hnd Hload. split; [done| |]; simpl.
  - intros t sb k (-> & _)%lookup_replicate. simpl. set_solver.
  - intros t sb (-> & _)%lookup_replicate. apply Hload.
Qed.

(** The books of a run of a new engine are well formed and in time order. *)
Lemma new_run_inv books n rqs t sb :
  NoDup (omap new_key rqs) → (∀ t, (new_load t rqs ≤ n)%nat) →
  Forall (λ rq, 0 ≤ rq_qty_ rq < 2 ^ 32) rqs → Z.of_nat (length rqs) + 1 < 2 ^ 64 →
  ticker_order_book_ (s_run v rqs (s_engine_new books)) !! t = Some sb → s_wf sb ∧ s_timed sb.
Proof.
  intros Hnd Hload Hq Hlen Hsb.
  destruct (s_run_inv n (λ k sb, s_timed sb ∧ s_next sb + Z.of_nat k < 2 ^ 64))
    with rqs (s_engine_new books) t sb as [? [??]]; try done.
  - intros k rq sb0 io Hw Hrq [Ht Hn].
    pose proof (s_dispatch_evolves sb0 io rq Hw (proj1 Hrq)) as Hev.
    pose proof (td_next _ Ht). pose proof (evolves_next sb0 _ ltac:(lia) ltac:(lia) Hev).
    split; [eapply timed_evolves; [done|done|lia|done]|lia].
  - intros k sb0 [??]. split; [done|lia].
  - by apply new_admissible.
  - simpl. intros t0 sb0 (-> & _)%lookup_replicate.
    split_and!; [auto with exchange..|]. simpl. lia.
Qed.

Lemma new_load_le t rqs : (new_load t rqs ≤ length rqs)%nat.
Proof. apply List.filter_length_le. Qed.
End abstract_run.

Section refinement.
Context (v : variant) {B : Type} `{OrderBook B} `{!OrderBookLaws v B}.

(** Every book represents its abstract book, and the engine states agree. *)
Definition engine_rel (n : nat) (e : engine B) (se : engine sbook) : Prop :=
  Forall2 (ob_rel n) (ticker_order_book_ e) (ticker_order_book_ se) ∧
  engine_state e = engine_state se.

Lemma engine_new_rel books n : engine_rel n (engine_new books n) (s_engine_new books).
Proof. split; [|done]. apply Forall2_replicate, ob_new_ok. Qed.

Lemma engine_rel_wf n e se t sb :
  engine_rel n e se → ticker_order_book_ se !! t = Some sb → s_wf sb.
Proof.
  intros [HF _] Hsb. destruct (Forall2_lookup_r _ _ _ _ _ HF Hsb) as (b & _ & Hrel).
  by eapply ob_wf.
Qed.

(** One request to one book. *)
Lemma dispatch_ok n b sb io rq books :
  ob_rel n b sb → request_ok ob_price books rq →
  (∀ k, new_key rq = Some k → k ∉ key <$> s_orders sb) →
  (rq_action_ rq = REQ_NEW → (length (s_orders sb) < n)%nat) →
  let r := s_dispatch v rq sb io in
  ∃ b', dispatch rq b io = Ok (b', r.2) ∧ ob_rel n b' r.1.
Proof.
  intros Hrel (_ & Hq & Hp) Hk Hroom. pose proof (ob_wf _ _ _ Hrel) as Hw.
  unfold dispatch, s_dispatch, new_key in *. destruct (rq_action_ rq); simpl in *.
  - destruct Hp as [?|Hp]; [done|]. apply ob_addOrder_ok; auto. by apply s_find_none, Hk.
  - apply ob_cancelOrder_ok; [done|lia].
  - destruct Hp as [?|Hp]; [done|]. apply ob_replaceOrder_ok; auto.
    apply s_find_none. eapply thinned_fresh; [|by apply Hk]. intros s. by apply delete_thins.
Qed.

(** One request to the engine. *)
Lemma process_ok n e se rq rqs :
  engine_rel n e se → request_ok ob_price (length (ticker_order_book_ se)) rq →
  admissible n (rq :: rqs) se →
  ∃ e', processClientRequest rq e = Ok e' ∧ engine_rel n e' (s_process v rq se).
Proof.
  intros [HF Hio] Hrq Hadm. pose proof Hrq as (Ht & _).
  destruct (lookup_lt_is_Some_2 _ _ Ht) as [sb Hsb].
  destruct (Forall2_lookup_r _ _ _ _ _ HF Hsb) as (b & Hb & Hrel).
  unfold processClientRequest, s_process. rewrite Hb, Hsb.
  destruct (dispatch_ok n b sb (engine_state e) rq _ Hrel Hrq) as (b' & Hrun & Hrel').
  { intros k Hk. apply (adm_fresh _ _ _ Hadm _ _ _ Hsb). simpl. rewrite Hk. constructor. }
  { intros Hnew. pose proof (adm_room _ _ _ Hadm _ _ Hsb) as Hroom.
    rewrite new_load_cons, !bool_decide_eq_true_2 in Hroom by done. simpl in Hroom. lia. }
  rewrite Hrun. eexists. split; [done|]. rewrite Hio in *. split; [|done].
  by apply Forall2_insert.
Qed.

(** A run. *)
Lemma run_ok n rqs : ∀ e se,
  engine_rel n e se → Forall (request_ok ob_price (length (ticker_order_book_ se))) rqs →
  admissible n rqs se →
  ∃ e', run_requests rqs e = Ok e' ∧ engine_rel n e' (s_run v rqs se).
Proof.
  induction rqs as [|rq rqs IH]; intros e se Hrel Hrq Hadm; [by exists e|].
  apply Forall_cons in Hrq as [Hrq Hrqs].
  destruct (process_ok n e se rq rqs Hrel Hrq Hadm) as (e1 & Hrun & Hrel1).
  simpl. rewrite Hrun. apply IH; [done|by rewrite s_process_books|].
  apply s_process_admissible; [|apply Hrq|done]. intros t sb. by eapply engine_rel_wf.
Qed.
End refinement.
