(* ===== verification/Trades.v ===== *)
(** * Trades: the trades an engine has announced

    The TRADE updates among the messages sent, and the numbering of their
    match ids by [MatchingEngine::nextMatchId]. *)

From S2P Require Import Prelude Types BookSpec DList Memory StoreRep BookSpecFacts BookTime MatchingEngine.

Definition is_trade (u : MEMarketUpdate) : bool := bool_decide (mu_type_ u = UPD_TRADE).

Definition trades (evs : list event) : list MEMarketUpdate := List.filter is_trade (updates evs).

Lemma trades_app evs evs' : trades (evs ++ evs') = trades evs ++ trades evs'.
Proof. unfold trades. by rewrite updates_app, List.filter_app. Qed.

(** One execution announces one trade. *)
Lemma trades_fills a fs :
  trades (fs ≫= fill_events MapBook a) =
  (λ f, trade_update a (f_order f) (f_qty f) (f_mid f)) <$> fs.
Proof.
  induction fs as [|f fs IH]; [done|]. rewrite bind_cons, trades_app, IH. done.
Qed.

(** The match ids announced so far are 1, 2, 3, ... (as 64-bit numbers) and the
    engine's counter holds the next one. *)
Definition numbered (io : engine_io) : Prop :=
  next_match_id_ io = u64 (1 + Z.of_nat (length (trades (sent io)))) ∧
  ∀ k u, trades (sent io) !! k = Some u → mu_match_id_ u = u64 (1 + Z.of_nat k).

Lemma numbered_emit evs io : trades evs = [] → numbered io → numbered (emit evs io).
Proof. intros He [Hn Hid]. unfold numbered, emit. simpl. by rewrite trades_app, He, app_nil_r. Qed.

Lemma numbered_match a sb io sb' io' rem :
  s_wf sb → 0 ≤ a_initialQuantity a → numbered io →
  s_match MapBook a sb io = (sb', io', rem) → numbered io'.
Proof.
  intros Hw Hq [Hn Hid]. unfold s_match.
  destruct (s_sweep _ _ _ _ _) as [[[os' rem'] mid'] fs] eqn:Hsw. intros [= <- <- <-].
  destruct (sweep_match_ids _ _ _ _ _ _ _ _ _ Hq (wf_qty _ Hw _) Hsw) as [Hids Hmid].
  { rewrite Hn. apply u64_range. }
  unfold numbered. simpl. rewrite trades_app, trades_fills, length_app, length_fmap. split.
  - rewrite Hmid, Hn, u64_add_l. f_equal. lia.
  - intros k u. rewrite lookup_app_Some, list_lookup_fmap.
    intros [?|[Hk Hf]]; [by apply Hid|]. apply fmap_Some in Hf as (f & Hf & ->). simpl.
    rewrite (Hids _ _ Hf), Hn, u64_add_l. f_equal. lia.
Qed.

Lemma numbered_dispatch rq sb io :
  s_wf sb → 0 ≤ rq_qty_ rq → numbered io → numbered (s_dispatch MapBook rq sb io).2.
Proof.
  intros Hw Hq Hnum. unfold s_dispatch. destruct (rq_action_ rq).
  - unfold s_addOrder. match goal with |- context [s_match _ ?a] => set (a0 := a) end.
    destruct (s_match _ a0 _ _) as [[sb1 io1] rem] eqn:Hm.
    apply numbered_match in Hm; [|by apply wf_bump|done|by apply numbered_emit].
    repeat case_match; simpl; try apply numbered_emit; done.
  - unfold s_cancelOrder. repeat case_match; simpl; by apply numbered_emit.
  - unfold s_replaceOrder. destruct (s_find _ _) as [old|]; [|by apply numbered_emit].
    destruct (_ || _); [by apply numbered_emit|].
    match goal with |- context [s_match _ ?a] => set (a0 := a) end.
    destruct (s_match _ a0 _ _) as [[sb1 io1] rem] eqn:Hm.
    apply numbered_match in Hm; [|by apply wf_delete, wf_bump|done|by apply numbered_emit].
    repeat case_match; simpl; try apply numbered_emit; done.
Qed.

(** Throughout a run of a new engine the trades are numbered. *)
Lemma numbered_run books n rqs :
  NoDup (omap new_key rqs) → (∀ t, (new_load t rqs ≤ n)%nat) →
  Forall (λ rq, 0 ≤ rq_qty_ rq < 2 ^ 32) rqs →
  numbered (engine_state (s_run MapBook rqs (s_engine_new books))).
Proof.
  intros Hnd Hload Hq.
  enough (∀ rqs se, Forall (λ rq, 0 ≤ rq_qty_ rq < 2 ^ 32) rqs → admissible n rqs se →
    (∀ t sb, ticker_order_book_ se !! t = Some sb → s_wf sb) → numbered (engine_state se) →
    numbered (engine_state (s_run MapBook rqs se))) as Hgen.
  { apply Hgen; [done|by apply new_admissible| |done].
    simpl. intros t sb (-> & _)%lookup_replicate. apply s_wf_empty. }
  clear. induction rqs as [|rq rqs IH]; intros se Hq Hadm Hw Hnum; [done|].
  apply Forall_cons in Hq as [Hrq Hq]. simpl. apply IH; [done| | |].
  - by apply s_process_admissible.
  - intros t sb' (sb & Hsb & [[-> ->]|[_ ->]])%s_process_lookup; [|by eapply Hw].
    apply (s_dispatch_ok MapBook sb (engine_state se) rq); [by eapply Hw|done|].
    intros k Hk. eapply (adm_fresh _ _ _ Hadm); [done|]. simpl. rewrite Hk. constructor.
  - unfold s_process. destruct (_ !! _) as [sb|] eqn:Hsb; [|done]. simpl.
    apply numbered_dispatch; [by eapply Hw|lia|done].
Qed.
