(* ===== verification/Levels.v ===== *)
(** * Levels: price levels over the order objects

    What both order books have in common below the matching logic: a price
    level is a run of order objects linked through [next_] and [prev_]
    ([level_ok]), a side is a run of levels sorted by price ([side_ok]), and
    unlinking or appending one order keeps both. *)

From S2P Require Import Prelude Types BookSpec DList Memory StoreRep LevelMap.

(** ** Levels and sides *)

Definition level_ok (h : gmap positive MEOrder) (e : Z * PriceLevel) (g : list positive) : Prop :=
  g ≠ [] ∧ pl_head e.2 = head g ∧ pl_tail e.2 = last g ∧ dlist h g ∧
  Forall (λ l, ∃ o, h !! l = Some o ∧ o_price_ o = e.1) g.

Definition side_ok (h : gmap positive MEOrder) (s : Side) (m : level_map)
    (ls : list positive) : Prop :=
  lm_sorted s m ∧ ∃ gs, Forall2 (level_ok h) m gs ∧ ls = concat gs.

(** A level depends on the links and prices of its own orders only. *)
Lemma level_ok_agree h h' e g :
  (∀ l v, l ∈ g → h !! l = Some v →
     ∃ v', h' !! l = Some v' ∧ o_prev_ v' = o_prev_ v ∧ o_next_ v' = o_next_ v ∧
           o_price_ v' = o_price_ v) →
  level_ok h e g → level_ok h' e g.
Proof.
  intros Hag (Hne & Hh & Ht & Hd & HF). split_and!; try done.
  - eapply dlist_agree; [|exact Hd]. intros l v Hl Hv.
    destruct (Hag l v Hl Hv) as (v' & ? & ? & ? & _). eauto.
  - rewrite Forall_forall in HF |- *. intros l Hl.
    destruct (HF l Hl) as (o & Ho & <-). destruct (Hag l o Hl Ho) as (v' & ? & _ & _ & ?). eauto.
Qed.

Lemma levels_ok_agree h h' m gs :
  (∀ l v, l ∈ concat gs → h !! l = Some v →
     ∃ v', h' !! l = Some v' ∧ o_prev_ v' = o_prev_ v ∧ o_next_ v' = o_next_ v ∧
           o_price_ v' = o_price_ v) →
  Forall2 (level_ok h) m gs → Forall2 (level_ok h') m gs.
Proof.
  intros Hag HF. induction HF as [|e g m gs He HF IH]; constructor.
  - eapply level_ok_agree; [|done]. intros l v Hl. apply Hag. set_solver.
  - apply IH. intros l v Hl. apply Hag. set_solver.
Qed.

Lemma levels_ok_frame h h' m gs :
  (∀ l, l ∈ concat gs → h' !! l = h !! l) →
  Forall2 (level_ok h) m gs → Forall2 (level_ok h') m gs.
Proof. intros Hag. apply levels_ok_agree. intros l v Hl Hv. exists v. by rewrite Hag. Qed.

(** A side depends on the objects at its own addresses only. *)
Lemma side_ok_frame h h' s m l0 :
  (∀ l, l ∈ l0 → h' !! l = h !! l) → side_ok h s m l0 → side_ok h' s m l0.
Proof.
  intros Hfr (Hs & gs & HF & ->). split; [done|]. exists gs. split; [|done].
  by eapply levels_ok_frame.
Qed.

(** The prices of the orders of a run of levels are the keys of the levels. *)
Lemma levels_ok_prices h m gs (Q : Z → Prop) :
  Forall2 (level_ok h) m gs → Forall (λ e, Q e.1) m →
  Forall (λ l, ∃ o, h !! l = Some o ∧ Q (o_price_ o)) (concat gs).
Proof.
  induction 1 as [|e g m gs (_ & _ & _ & _ & HF) _ IH]; simpl; [done|].
  intros [He Hm]%Forall_cons. apply Forall_app. split; [|by apply IH].
  eapply Forall_impl; [exact HF|]. intros l (o & ? & Hp). exists o. by rewrite Hp.
Qed.

(** The level an order is on. *)
Lemma side_ok_node h s m ls l v :
  side_ok h s m ls → l ∈ ls → h !! l = Some v →
  ∃ m1 pl m2 G1 g1 g2 G2,
    m = m1 ++ (o_price_ v, pl) :: m2 ∧ ls = (concat G1 ++ g1) ++ l :: g2 ++ concat G2 ∧
    Forall2 (level_ok h) m1 G1 ∧ level_ok h (o_price_ v, pl) (g1 ++ l :: g2) ∧
    Forall2 (level_ok h) m2 G2.
Proof.
  intros (Hsort & gs & HF & ->) Hin Hv.
  rewrite list_elem_of_In, in_concat in Hin. destruct Hin as (g & Hg & Hl).
  apply list_elem_of_In in Hg, Hl.
  apply list_elem_of_split in Hg as (G1 & G2 & ->), Hl as (g1 & g2 & ->).
  apply Forall2_app_inv_r in HF as (m1 & m' & H1 & H2 & ->).
  apply Forall2_cons_inv_r in H2 as ([p pl] & m2 & He & H2 & ->).
  assert (p = o_price_ v) as ->.
  { destruct He as (_ & _ & _ & _ & HF). rewrite Forall_app, Forall_cons in HF.
    destruct HF as (_ & (o & Ho & Hp) & _). simpl in Hp. congruence. }
  exists m1, pl, m2, G1, g1, g2, G2. split_and!; try done.
  rewrite concat_app. simpl. rewrite <-!app_assoc. done.
Qed.

(** ** Unlinking and appending an order *)

Lemma unlink_same_orders (h : gmap positive MEOrder) pre post :
  same_orders h (unlink h pre post).
Proof.
  intros l. unfold unlink.
  destruct pre as [p|], post as [q|]; rewrite ?lookup_alter; repeat case_decide; subst;
    destruct (h !! l); done.
Qed.

Lemma unlink_frame (h : gmap positive MEOrder) (g1 g2 : list positive) l k :
  k ∉ g1 ++ l :: g2 → delete l (unlink h (last g1) (head g2)) !! k = h !! k.
Proof.
  intros Hk. rewrite lookup_delete_ne by set_solver. apply lookup_unlink_other.
  - intros ?%last_in. set_solver.
  - intros ?%head_in. set_solver.
Qed.

Definition unlinked_level (prev next : option positive) (pl : PriceLevel) : PriceLevel :=
  let pl1 := match prev with Some _ => pl | None => pl_set_head next pl end in
  match next with Some _ => pl1 | None => pl_set_tail prev pl1 end.

(** The level pointers after the removal are those of the shortened list. *)
Lemma unlinked_level_ends (g1 g2 : list positive) l pl :
  pl_head pl = head (g1 ++ l :: g2) → pl_tail pl = last (g1 ++ l :: g2) →
  let pl' := unlinked_level (last g1) (head g2) pl in
  pl_head pl' = head (g1 ++ g2) ∧ pl_tail pl' = last (g1 ++ g2).
Proof.
  intros Hh Ht. unfold unlinked_level. rewrite last_app_cons in Ht.
  destruct g2 as [|y g2].
  - rewrite app_nil_r. destruct g1 as [|x g1]; [done|].
    destruct (last (x :: g1)) eqn:Hl; [done|by apply last_None in Hl].
  - rewrite last_app_cons. rewrite last_cons_cons in Ht.
    destruct (last g1) eqn:Hl; [by destruct g1|].
    by apply last_None in Hl as ->.
Qed.

(** The other levels, and the shortened one, after unlinking [l]. *)
Lemma unlink_levels (h : gmap positive MEOrder) (g1 g2 : list positive) l v e pl' :
  NoDup (g1 ++ l :: g2) → level_ok h e (g1 ++ l :: g2) → h !! l = Some v →
  g1 ++ g2 ≠ [] → pl_head pl' = head (g1 ++ g2) → pl_tail pl' = last (g1 ++ g2) →
  level_ok (delete l (unlink h (last g1) (head g2))) (e.1, pl') (g1 ++ g2).
Proof.
  intros Hnd (_ & _ & _ & Hd & HF) Hv Hne Hh Ht.
  assert (Hl : l ∉ g1 ++ g2).
  { rewrite NoDup_app, NoDup_cons in Hnd. set_solver. }
  split_and!; try done.
  - eapply dlist_frame; [|by eapply dlist_unlink]. intros k Hk.
    rewrite lookup_delete_ne; [done|]. intros ->. done.
  - rewrite Forall_forall in HF |- *. intros k Hk.
    rewrite lookup_delete_ne by (intros ->; done).
    destruct (HF k) as (o & Ho & Hp); [set_solver|].
    pose proof (unlink_same_orders h (last g1) (head g2) k) as Hso. rewrite Ho in Hso.
    apply fmap_Some in Hso as (w & Hw & Hpw). exists w. split; [done|]. simpl.
    rewrite <-Hp. change (o_price_ w) with (o_price_ (payload w)). by rewrite <-Hpw.
Qed.

Lemma lm_sorted_insert s m1 p pl m2 :
  lm_sorted s (m1 ++ m2) ∨ (∃ pl', lm_sorted s (m1 ++ (p, pl') :: m2)) →
  Forall (λ e, better s e.1 p = true) m1 → Forall (λ e, better s p e.1 = true) m2 →
  lm_sorted s (m1 ++ (p, pl) :: m2).
Proof.
  intros Hs Hb1 Hb2. destruct Hs as [Hs|[pl' Hs]]; [|by eapply lm_sorted_set].
  unfold lm_sorted in Hs. rewrite fmap_app in Hs. apply lm_sorted_app.
  split_and!; try done; unfold lm_sorted.
  - by eapply StronglySorted_app_1_l.
  - by eapply StronglySorted_app_1_r.
Qed.

(** The side an order was removed from is still a sorted run of levels. *)
Lemma removed_side_ok h s p pl pl' m1 m2 G1 G2 g1 g2 l v :
  lm_sorted s (m1 ++ (p, pl) :: m2) → NoDup (g1 ++ l :: g2) → h !! l = Some v →
  level_ok h (p, pl) (g1 ++ l :: g2) →
  pl_head pl' = head (g1 ++ g2) → pl_tail pl' = last (g1 ++ g2) →
  Forall2 (level_ok h) m1 G1 → Forall2 (level_ok h) m2 G2 →
  (∀ k, k ∈ concat G1 ∨ k ∈ concat G2 → k ∉ g1 ++ l :: g2) →
  side_ok (delete l (unlink h (last g1) (head g2))) s
    (m1 ++ match pl_head pl' with None => [] | Some _ => [(p, pl')] end ++ m2)
    ((concat G1 ++ g1) ++ g2 ++ concat G2).
Proof.
  intros Hsort Hnd Hv Hlev Hh Ht HF1 HF2 Hfr.
  assert (HF1' : Forall2 (level_ok (delete l (unlink h (last g1) (head g2)))) m1 G1).
  { eapply levels_ok_frame; [|done]. intros k Hk. apply unlink_frame. auto. }
  assert (HF2' : Forall2 (level_ok (delete l (unlink h (last g1) (head g2)))) m2 G2).
  { eapply levels_ok_frame; [|done]. intros k Hk. apply unlink_frame. auto. }
  rewrite Hh. destruct (g1 ++ g2) as [|k g] eqn:Hg; simpl.
  - apply app_nil in Hg as [-> ->]. split; [by eapply lm_sorted_erase|].
    exists (G1 ++ G2). split; [by apply Forall2_app|]. by rewrite concat_app, app_nil_r.
  - split; [by eapply lm_sorted_set|]. exists (G1 ++ (g1 ++ g2) :: G2). split.
    + apply Forall2_app; [done|]. constructor; [|done].
      eapply (unlink_levels h _ _ _ _ (p, pl)); try done; by rewrite Hg.
    + rewrite concat_app. simpl. by rewrite <-!app_assoc.
Qed.

(** The order the level's list has after [insert] appended [l], and the heap. *)
Definition appended (h : gmap positive MEOrder) (g : list positive) l : gmap positive MEOrder :=
  match last g with
  | None => h
  | Some t => alter (set_next (Some l)) t (alter (set_prev (Some t)) l h)
  end.

Lemma appended_link (h : gmap positive MEOrder) g l v :
  h !! l = Some v → l ∉ g → o_next_ v = None → o_prev_ v = None →
  appended h g l = link_between h (last g) l None.
Proof.
  intros Hv Hl Hn Hp. unfold appended, link_between.
  assert (Hset : ∀ pre, set_prv pre (set_nxt None v) = set_prev pre v).
  { intros. destruct v. simpl in *. by subst. }
  destruct (last g) as [t|] eqn:Ht.
  - assert (t ≠ l) by (intros ->; by apply last_in in Ht).
    apply map_eq. intros k. rewrite !lookup_alter.
    repeat case_decide; subst; try done. rewrite Hv. simpl. f_equal. symmetry. apply Hset.
  - apply map_eq. intros k. rewrite lookup_alter. case_decide; [subst|done].
    rewrite Hv. simpl. f_equal. rewrite Hset. destruct v. simpl in *. by subst.
Qed.

Lemma appended_other (h : gmap positive MEOrder) g l k :
  k ∉ g → k ≠ l → appended h g l !! k = h !! k.
Proof.
  intros Hk Hkl. unfold appended. destruct (last g) as [t|] eqn:Ht; [|done].
  apply last_in in Ht. rewrite !lookup_alter_ne; [done|congruence|].
  intros ->. done.
Qed.

Lemma appended_payload (h : gmap positive MEOrder) g l k :
  payload <$> appended h g l !! k = payload <$> h !! k.
Proof.
  unfold appended. destruct (last g); [|done].
  rewrite !lookup_alter. repeat case_decide; subst. all: by destruct (h !! _).
Qed.

Lemma h_payload_insert (h : gmap positive MEOrder) g l o :
  payload o = o →
  ∃ v, appended (<[l := o]> h) g l !! l = Some v ∧ payload v = o ∧
    ∀ k, k ≠ l → payload <$> appended (<[l := o]> h) g l !! k = payload <$> h !! k.
Proof.
  intros Ho. pose proof (appended_payload (<[l := o]> h) g l l) as Hp.
  rewrite lookup_insert_eq in Hp. simpl in Hp. rewrite Ho in Hp.
  apply fmap_Some in Hp as (v & Hv & Hvo). exists v. split_and!; [done|done|].
  intros k Hk. rewrite appended_payload. by rewrite lookup_insert_ne.
Qed.

Lemma appended_level_ok (h : gmap positive MEOrder) g l o pl p :
  NoDup g → l ∉ g → h !! l = Some o → o_next_ o = None → o_prev_ o = None →
  o_price_ o = p → dlist h g →
  Forall (λ l, ∃ o, h !! l = Some o ∧ o_price_ o = p) g →
  pl_head pl = head (g ++ [l]) → pl_tail pl = Some l →
  level_ok (appended h g l) (p, pl) (g ++ [l]).
Proof.
  intros Hnd Hl Ho Hn Hp Hpr Hd HF Hh Ht. split_and!; simpl.
  - by destruct g.
  - done.
  - by rewrite last_snoc.
  - rewrite (appended_link _ _ _ _ Ho) by done.
    apply (dlist_insert h g l []); rewrite ?app_nil_r; eauto.
  - rewrite Forall_forall. intros k Hk.
    assert (∃ o, h !! k = Some o ∧ o_price_ o = p) as (w & Hw & Hwp).
    { apply elem_of_app in Hk as [Hk| ->%list_elem_of_singleton]; [|eauto].
      rewrite Forall_forall in HF. by apply HF. }
    pose proof (appended_payload h g l k) as Hpl. rewrite Hw in Hpl.
    apply fmap_Some in Hpl as (w' & Hw' & Heq). exists w'. split; [done|].
    change (o_price_ (payload w') = p). by rewrite <-Heq.
Qed.

(** The level of [a_price], possibly not there yet, splits the side. *)
Lemma side_ok_split h s m (l0 : list positive) (p : Z) :
  side_ok h s m l0 →
  ∃ m1 m2 G1 g G2, l0 = concat G1 ++ g ++ concat G2 ∧
    Forall (λ e, better s e.1 p = true) m1 ∧ Forall (λ e, better s p e.1 = true) m2 ∧
    Forall2 (level_ok h) m1 G1 ∧ Forall2 (level_ok h) m2 G2 ∧
    (g = [] ∧ m = m1 ++ m2 ∨ ∃ pl, m = m1 ++ (p, pl) :: m2 ∧ level_ok h (p, pl) g).
Proof.
  intros (Hsort & gs & HF & ->). destruct (lm_split s p m Hsort)
    as (m1 & m2 & Hb1 & Hb2 & [[pl ->]| ->]).
  - apply Forall2_app_inv_l in HF as (G1 & G' & HF1 & HF2 & ->).
    apply Forall2_cons_inv_l in HF2 as (g & G2 & Hg & HF2 & ->).
    exists m1, m2, G1, g, G2. split_and!; try done; [by rewrite concat_app|eauto].
  - apply Forall2_app_inv_l in HF as (G1 & G2 & HF1 & HF2 & ->).
    exists m1, m2, G1, [], G2. split_and!; try done; [by rewrite concat_app|eauto].
Qed.

(** The side an order was appended to is a sorted run of levels. *)
Lemma inserted_side_ok h h' s p pl' m1 m2 G1 G2 g l :
  NoDup (concat G1 ++ g ++ concat G2) → l ∉ concat G1 ++ g ++ concat G2 →
  (∀ k, k ∉ g → k ≠ l → h' !! k = h !! k) →
  lm_sorted s (m1 ++ (p, pl') :: m2) → level_ok h' (p, pl') (g ++ [l]) →
  Forall2 (level_ok h) m1 G1 → Forall2 (level_ok h) m2 G2 →
  side_ok h' s (m1 ++ (p, pl') :: m2) ((concat G1 ++ g) ++ l :: concat G2).
Proof.
  intros Hnd Hl Hfr Hsort Hlev HF1 HF2. split; [done|]. exists (G1 ++ (g ++ [l]) :: G2).
  rewrite !NoDup_app in Hnd. split.
  - apply Forall2_app; [|constructor; [done|]];
      (eapply levels_ok_frame; [|done]; intros k Hk; apply Hfr; set_solver).
  - rewrite concat_app. simpl. by rewrite <-!app_assoc.
Qed.

(** The prices in front of and behind the place of [p]. *)
Lemma split_prices h s p m1 m2 G1 g G2 :
  Forall (λ e, better s e.1 p = true) m1 → Forall (λ e, better s p e.1 = true) m2 →
  Forall2 (level_ok h) m1 G1 → Forall2 (level_ok h) m2 G2 →
  Forall (λ l, ∃ o, h !! l = Some o ∧ o_price_ o = p) g →
  Forall (λ k, ∃ o, h !! k = Some o ∧ better s p (o_price_ o) = false) (concat G1 ++ g) ∧
  Forall (λ k, ∃ o, h !! k = Some o ∧ better s p (o_price_ o) = true) (concat G2).
Proof.
  intros Hb1 Hb2 HF1 HF2 Hg. split.
  - apply Forall_app. split.
    + eapply (levels_ok_prices _ _ _ (λ x, better s p x = false)); [done|].
      eapply Forall_impl; [exact Hb1|]. intros e He. by apply better_asym.
    + eapply Forall_impl; [exact Hg|]. intros k (o & Ho & Hp). exists o.
      by rewrite Hp, better_irrefl.
  - by eapply (levels_ok_prices _ _ _ (λ x, better s p x = true)).
Qed.

(** ** Running the pointer operations *)

Section runs.
Context {P L : Type} `{ObjectPool P} `{!ObjectPoolLaws P}.
Implicit Types (b : book P L) (sb : sbook) (ls : Side → list positive).

Lemma rd_ok {A} (f : MEOrder → A) b i l o :
  objects b !! l = Some o → rd f (Some l) (Ctx b i) = Ok (f o, Ctx b i).
Proof. intros Hl. unfold rd, deref, mbind, M_bind. simpl. by rewrite Hl. Qed.

Lemma wr_ok f b i l o :
  objects b !! l = Some o →
  wr f (Some l) (Ctx b i) =
  Ok (tt, Ctx (Book (pool_ b) (alter f l (objects b)) (orders_ b)
                 (nextMarketOrderId b) (levels b)) i).
Proof. intros Hl. unfold wr, deref, mbind, M_bind. simpl. by rewrite Hl. Qed.

Lemma wr_insert f b i l o :
  objects b !! l = Some o →
  wr f (Some l) (Ctx b i) =
  Ok (tt, Ctx (Book (pool_ b) (<[l := f o]> (objects b)) (orders_ b)
                 (nextMarketOrderId b) (levels b)) i).
Proof.
  intros Hl. rewrite (wr_ok _ _ _ _ _ Hl). repeat f_equal. apply map_eq. intros k.
  rewrite lookup_alter, lookup_insert. case_decide; [subst|done]. by rewrite Hl.
Qed.

Lemma allocate_ok b i o :
  pool_live (pool_ b) = dom (objects b) → (size (objects b) < pool_capacity (pool_ b))%nat →
  ∃ l p', allocate o (Ctx b i) =
      Ok (l, Ctx (Book p' (<[l := o]> (objects b)) (orders_ b)
                    (nextMarketOrderId b) (levels b)) i) ∧
    objects b !! l = None ∧ pool_live p' = {[l]} ∪ pool_live (pool_ b) ∧
    pool_capacity p' = pool_capacity (pool_ b).
Proof.
  intros Hlive Hcap.
  destruct (pool_allocate_some (pool_ b)) as [[l p'] Hal].
  { by rewrite Hlive, size_dom. }
  destruct (pool_allocate_fresh _ _ _ Hal) as (Hfr & Hl' & Hc').
  exists l, p'. split_and!; [|by apply not_elem_of_dom; rewrite <-Hlive|done|done].
  unfold allocate. simpl. by rewrite Hal.
Qed.

Lemma concat_split_sides ls sb b s (A g1 g2 B : list positive) l :
  store_rep b ls sb → ls s = (A ++ g1) ++ l :: g2 ++ B →
  NoDup (g1 ++ l :: g2) ∧ (∀ k, k ∈ A ∨ k ∈ B → k ∉ g1 ++ l :: g2) ∧
  (∀ s' k, s' ≠ s → k ∈ ls s' → k ∉ g1 ++ l :: g2).
Proof.
  intros Hr Hls. pose proof (sr_nodup _ _ _ Hr s) as Hnd. rewrite Hls in Hnd.
  replace ((A ++ g1) ++ l :: g2 ++ B) with (A ++ (g1 ++ l :: g2) ++ B) in Hnd
    by (by rewrite <-!app_assoc).
  apply NoDup_app in Hnd as (_ & Hd1 & (HndG & Hd2 & _)%NoDup_app).
  split_and!; [done| |].
  - intros k [Hk|Hk] Hin; [eapply Hd1; set_solver|by eapply Hd2].
  - intros s' k Hne Hk Hin. assert (k ∈ ls s) as Hks by (rewrite Hls; set_solver).
    apply (sr_mem _ _ _ Hr) in Hk as (?&?&?), Hks as (?&?&?). congruence.
Qed.

(** The first level of a side holds the orders at the front of the abstract
    side, the others are at other prices. *)
Lemma side_best b ls sb s m :
  store_rep b ls sb → side_ok (objects b) s m (ls s) →
  match m with
  | [] => s_side s sb = []
  | (lp, _) :: _ => ∃ og orest, og ≠ [] ∧ s_side s sb = og ++ orest ∧
      Forall (λ o, o_price_ o = lp) og ∧ Forall (λ o, o_price_ o ≠ lp) orest
  end.
Proof.
  intros Hr (Hsort & gs & HF & Hls).
  pose proof (sr_rest _ _ _ Hr s) as HR. rewrite Hls in HR.
  destruct m as [|[lp pl] m2].
  - apply Forall2_nil_inv_l in HF as ->. by apply Forall2_nil_inv_l in HR.
  - apply Forall2_cons_inv_l in HF as (g & G & Hg & HF & ->). simpl in HR.
    apply Forall2_app_inv_l in HR as (og & orest & HR1 & HR2 & Hs).
    destruct Hg as (Hne & Hh & _ & _ & Hp).
    apply (lm_sorted_app _ [] lp pl m2) in Hsort as (_ & _ & _ & Hb).
    exists og, orest. split_and!; [|done| |].
    + intros ->. apply Forall2_nil_inv_r in HR1 as ->. done.
    + by eapply (resting_prices _ _ _ (λ x, x = lp)).
    + eapply (resting_prices _ _ _ (λ x, x ≠ lp)); [exact HR2|].
      eapply (levels_ok_prices _ _ _ (λ x, x ≠ lp)); [exact HF|]. by eapply absent_worse.
Qed.

(** The first order of a side is the head of the first level. *)
Lemma side_head b ls sb s m o os :
  store_rep b ls sb → side_ok (objects b) s m (ls s) → s_side s sb = o :: os →
  ∃ l l0 v pl m2, ls s = l :: l0 ∧ m = (o_price_ o, pl) :: m2 ∧ pl_head pl = Some l ∧
    objects b !! l = Some v ∧ payload v = o ∧ o_side_ v = s.
Proof.
  intros Hr Hside Hs. pose proof (sr_rest _ _ _ Hr s) as HR. rewrite Hs in HR.
  apply Forall2_cons_inv_r in HR as (l & l0 & Hl & _ & Hls).
  unfold resting in Hl. apply fmap_Some in Hl as (v & Hv & ->).
  destruct (side_ok_node _ _ _ _ l v Hside) as
    (m1 & pl & m2 & G1 & g1 & g2 & G2 & Hm & Hls' & HF1 & Hlev & HF2);
    [rewrite Hls; set_solver|done|].
  pose proof (sr_nodup _ _ _ Hr s) as Hnd. rewrite Hls in Hnd, Hls'.
  destruct (NoDup_split_unique [] _ _ _ _ Hnd Hls') as [Hnil _].
  symmetry in Hnil. apply app_nil in Hnil as [HG1 ->].
  assert (m1 = []) as ->.
  { destruct HF1 as [|e g m1 G1 (Hne & _) _]; [done|]. simpl in HG1.
    apply app_nil in HG1 as [-> _]. done. }
  destruct Hlev as (_ & Hh & _). exists l, l0, v, pl, m2. split_and!; try done.
  assert (l ∈ ls s) as (v' & Hv' & <-)%(sr_mem _ _ _ Hr) by (rewrite Hls; set_solver).
  congruence.
Qed.
End runs.
