(* ===== verification/Soundness.v ===== *)
(** * Soundness: what a book's memory and market look like

    Properties of the concrete state of an order book that hold for both
    implementations: they depend on the order objects, the index and the pool
    only.  [sided] is what the two representation relations share. *)

From S2P Require Import Prelude Types BookSpec DList Memory StoreRep LevelMap Levels BookSpecFacts BookTime.

(** The memory of the book is consistent: nothing leaks and nothing dangles. *)
Record memory_sound {P L} `{ObjectPool P} (b : book P L) : Prop := {
  ms_pool : pool_live (pool_ b) = dom (objects b);
  ms_index c id l :
    index_find c id (orders_ b) = Some l ↔
    ∃ o, objects b !! l = Some o ∧ o_clientId_ o = c ∧ o_clientOrderId_ o = id;
  ms_links l o l' :
    objects b !! l = Some o → o_next_ o = Some l' →
    ∃ o', objects b !! l' = Some o' ∧ o_prev_ o' = Some l
}.

(** The market the book describes is sound: open orders only, nothing left to
    match, first come first served. *)
Record market_sound {P L} (b : book P L) : Prop := {
  mk_open l o :
    objects b !! l = Some o →
    0 < o_remainingQuantity_ o < 2 ^ 32 ∧ o_orderType_ o = GoodTillCancel;
  mk_uncrossed l o l' o' :
    objects b !! l = Some o → objects b !! l' = Some o' →
    o_side_ o = BUY → o_side_ o' = SELL → o_price_ o < o_price_ o';
  mk_fifo l o l' o' :
    objects b !! l = Some o → o_next_ o = Some l' → objects b !! l' = Some o' →
    o_price_ o' = o_price_ o ∧ o_side_ o' = o_side_ o ∧
    o_marketOrderId_ o < o_marketOrderId_ o'
}.

Section sound.
Context {P L : Type} `{ObjectPool P}.
Implicit Types (b : book P L) (sb : sbook) (ls : Side → list positive).

Definition sided b ls sb : Prop :=
  store_rep b ls sb ∧ ∀ s, ∃ m, side_ok (objects b) s m (ls s).

(** The place of an object on its level. *)
Lemma sided_place b ls sb l o :
  sided b ls sb → objects b !! l = Some o →
  ∃ A g1 g2 B pl,
    ls (o_side_ o) = (A ++ g1) ++ l :: g2 ++ B ∧
    level_ok (objects b) (o_price_ o, pl) (g1 ++ l :: g2) ∧
    o_prev_ o = last g1 ∧ o_next_ o = head g2.
Proof.
  intros [Hr Hside] Ho. destruct (Hside (o_side_ o)) as (m & Hm).
  destruct (side_ok_node _ _ _ _ l o Hm)
    as (m1 & pl & m2 & G1 & g1 & g2 & G2 & _ & Hls & _ & Hlev & _);
    [apply (sr_mem _ _ _ Hr); eauto|done|].
  destruct (dlist_node _ _ _ _ _ (proj1 (proj2 (proj2 (proj2 Hlev)))) Ho) as [Hp Hn].
  exists (concat G1), g1, g2, (concat G2), pl. split_and!; try done; apply Hlev.
Qed.

Lemma sided_memory b ls sb : sided b ls sb → memory_sound b.
Proof.
  intros Hsd. pose proof Hsd as [Hr _]. split.
  - apply Hr.
  - intros c id l. rewrite (sr_index _ _ _ Hr). unfold key. naive_solver congruence.
  - intros l o l' Ho Hn. destruct (sided_place _ _ _ _ _ Hsd Ho)
      as (A & g1 & g2 & B & pl & _ & (_ & _ & _ & Hd & _) & _ & Hnx).
    rewrite Hnx in Hn. destruct g2 as [|y g2]; simplify_eq/=.
    destruct (Hd (g1 ++ [l]) l' g2) as (o' & Ho' & Hp & _); [by rewrite <-app_assoc|].
    exists o'. split; [done|]. rewrite last_snoc in Hp. done.
Qed.

(** The head order of a level. *)
Lemma level_first b ls sb s m p pl :
  store_rep b ls sb → side_ok (objects b) s m (ls s) → (p, pl) ∈ m →
  ∃ l o, pl_head pl = Some l ∧ objects b !! l = Some o ∧
         o_price_ o = p ∧ o_side_ o = s ∧ o_prev_ o = None.
Proof.
  intros Hr (_ & gs & HF & Hls) Hin. apply list_elem_of_lookup in Hin as [k Hk].
  destruct (Forall2_lookup_l _ _ _ _ _ HF Hk) as (g & Hg & (Hne & Hh & _ & Hd & Hp)).
  destruct g as [|l g]; [done|]. simpl in *.
  destruct (Hd [] l g eq_refl) as (o & Ho & Hprev & _).
  apply Forall_cons in Hp as [(o' & Ho' & Hp) _].
  assert (o' = o) as -> by congruence. exists l, o. split_and!; try done.
  assert (l ∈ ls s) as (o'' & ? & ?)%(sr_mem _ _ _ Hr); [|congruence].
  rewrite Hls, list_elem_of_In, in_concat. exists (l :: g).
  rewrite <-!list_elem_of_In. split; [by eapply list_elem_of_lookup_2|set_solver].
Qed.

Lemma sided_market b ls sb : sided b ls sb → s_wf sb → s_timed sb → market_sound b.
Proof.
  intros Hsd Hw Ht. pose proof Hsd as [Hr _].
  assert (Hin : ∀ l o, objects b !! l = Some o → payload o ∈ s_side (o_side_ o) sb).
  { intros l o Ho. destruct (sided_place _ _ _ _ _ Hsd Ho) as (A & g1 & g2 & B & pl & Hls & _).
    destruct (sr_split _ _ _ _ _ _ _ Hr Hls) as (o1 & w & o2 & -> & _ & Hw' & _).
    assert (w = o) as -> by congruence. set_solver. }
  split.
  - intros l o Ho. split.
    + pose proof (wf_qty _ Hw (o_side_ o)) as HF. rewrite Forall_forall in HF.
      by apply (HF (payload o)), (Hin l).
    + pose proof (wf_gtc _ Hw (o_side_ o)) as HF. rewrite Forall_forall in HF.
      by apply (HF (payload o)), (Hin l).
  - intros l o l' o' Ho Ho' Hs Hs'. apply Hin in Ho, Ho'. rewrite Hs in Ho. rewrite Hs' in Ho'.
    by apply (wf_uncrossed _ Hw (payload o) (payload o')).
  - intros l o l' o' Ho Hn Ho'. destruct (sided_place _ _ _ _ _ Hsd Ho)
      as (A & g1 & g2 & B & pl & Hls & (_ & _ & _ & _ & Hp) & _ & Hnx).
    rewrite Hnx in Hn. destruct g2 as [|y g2]; simplify_eq/=.
    rewrite Forall_app, !Forall_cons in Hp. destruct Hp as (_ & _ & (w & Hw1 & Hpr) & _).
    assert (w = o') as -> by congruence. simpl in Hpr.
    destruct (sr_split _ _ _ _ _ _ _ Hr Hls) as (o1 & w & o2 & Hs & Hlen & Hw2 & _ & _ & HF).
    assert (w = o) as -> by congruence.
    apply Forall2_cons_inv_l in HF as (x & o3 & Hx & _ & ->).
    unfold resting in Hx. rewrite Ho' in Hx. simplify_eq/=.
    assert (l' ∈ ls (o_side_ o)) as (w & Hw3 & Hsd')%(sr_mem _ _ _ Hr) by (rewrite Hls; set_solver).
    split_and!; [done|congruence|].
    pose proof (td_time _ Ht (o_side_ o)) as Hso. rewrite Hs in Hso.
    apply StronglySorted_app_1_r in Hso. apply StronglySorted_inv in Hso as [_ HF].
    apply Forall_cons in HF as [Hlt _]. by apply Hlt.
Qed.
End sound.
