(* ===== verification/MatchLoop.v ===== *)
(** * MatchLoop: the two matching loops, for either book

    Both books match with an inner loop over the orders of the best opposite
    level and an outer loop over the levels.  Given what one round of the inner
    loop does, and how the outer loop picks its level, the loops together are
    the sweep [s_sweep] of the abstract book; they return, because every round
    but the last consumes a resting order. *)

From S2P Require Import Prelude Types BookSpec DList Memory StoreRep LevelMap.

(** The engine after one execution. *)
Definition after_fill (v : variant) (a : order_args) (f : fill) (i : engine_io) : engine_io :=
  {| next_match_id_ := next_match_id_ i +₆₄ 1; sent := sent i ++ fill_events v a f |}.

(** The engine after a list of executions that ended with match id [mid]. *)
Definition after_fills (v : variant) (a : order_args) (mid : OrderId) (fs : list fill)
    (i : engine_io) : engine_io :=
  {| next_match_id_ := mid; sent := sent i ++ (fs ≫= fill_events v a) |}.

Lemma after_fills_nil v a i : after_fills v a (next_match_id_ i) [] i = i.
Proof. unfold after_fills. destruct i. simpl. by rewrite app_nil_r. Qed.

Lemma after_fills_cons v a mid f fs i :
  after_fills v a mid fs (after_fill v a f i) = after_fills v a mid (f :: fs) i.
Proof. unfold after_fills, after_fill. simpl. f_equal. by rewrite <-app_assoc. Qed.

Lemma after_fills_app v a mid mid' fs fs' i :
  after_fills v a mid fs (after_fills v a mid' fs' i) = after_fills v a mid (fs' ++ fs) i.
Proof. unfold after_fills. simpl. by rewrite bind_app, <-app_assoc. Qed.

Lemma fill_left_range rem mid o :
  0 < rem < 2 ^ 32 → qty_ok o →
  let f := fill_of rem mid o in
  0 ≤ f_left f < 2 ^ 32 ∧
  ((o_remainingQuantity_ (f_after f) =? 0) = false → f_left f = 0 ∧ qty_ok (f_after f)).
Proof. unfold qty_ok. simpl. lia. Qed.

Section match_loop.
Context {P L : Type} `{ObjectPool P}.
Implicit Types (b : book P L) (sb : sbook) (ls : Side → list positive).

Variable v : variant.
Variable rep : book P L → (Side → list positive) → sbook → Prop.
(** What reading the head of the level of a price yields. *)
Variable level_head : book P L → Side → Price → option positive.
(** The price of the level the outer loop works on. *)
Variable best : book P L → Side → option Price.
Variable level_body : order_args → Price → Quantity → M (ctx P L) (Quantity + Quantity).
Variable step_body : nat → order_args → Quantity → M (ctx P L) (Quantity + Quantity).

(** While [match] works on the level [lp], the orders [og] are what is left of
    the level; when nothing is left, reading its head must give null. *)
Record front b sb (s : Side) (lp : Price) (og orest : list MEOrder) : Prop := {
  fr_split : s_side s sb = og ++ orest;
  fr_level : Forall (λ o, o_price_ o = lp) og;
  fr_rest : Forall (λ o, o_price_ o ≠ lp) orest;
  fr_empty : og = [] → level_head b s lp = None
}.

Hypothesis body_exit : ∀ a lp b i ls sb og orest rem,
  rep b ls sb → front b sb (opposite (a_side a)) lp og orest →
  level_head b (opposite (a_side a)) lp = None ∨ rem ≤ 0 →
  level_body a lp rem (Ctx b i) = Ok (inr rem, Ctx b i).

Hypothesis body_ok : ∀ a lp b i ls sb o og orest rem,
  let s := opposite (a_side a) in
  let f := fill_of rem (next_match_id_ i) o in
  rep b ls sb → front b sb s lp (o :: og) orest → 0 < rem < 2 ^ 32 → qty_ok o →
  ∃ b' ls',
    level_body a lp rem (Ctx b i) =
      Ok (inl (f_left f), Ctx b' (after_fill v a f i)) ∧
    pool_capacity (pool_ b') = pool_capacity (pool_ b) ∧
    let og' := if o_remainingQuantity_ (f_after f) =? 0 then og else f_after f :: og in
    rep b' ls' (s_set s (og' ++ orest) sb) ∧
    front b' (s_set s (og' ++ orest) sb) s lp og' orest.

Hypothesis best_ok : ∀ b ls sb s,
  rep b ls sb →
  match best b s with
  | None => s_side s sb = []
  | Some lp => ∃ og orest, og ≠ [] ∧ front b sb s lp og orest
  end.

Hypothesis step_ok : ∀ fuel a b i ls sb rem,
  rep b ls sb →
  step_body fuel a rem (Ctx b i) =
  match best b (opposite (a_side a)) with
  | None => Ok (inr rem, Ctx b i)
  | Some lp =>
      if negb (rem >? 0) then Ok (inr rem, Ctx b i)
      else if no_cross (a_side a) (a_price a) lp then Ok (inr rem, Ctx b i)
      else (r ← loop fuel (level_body a lp) rem; mret (inl r)) (Ctx b i)
  end.

(** The inner loop sweeps one level. *)
Lemma level_loop_ok a lp og orest : ∀ fuel b i ls sb rem,
  let s := opposite (a_side a) in
  rep b ls sb → front b sb s lp og orest → Forall qty_ok og →
  no_cross (a_side a) (a_price a) lp = false →
  0 ≤ rem < 2 ^ 32 → (length og < fuel)%nat →
  let '(og', rem', mid, fs) :=
    s_sweep (a_side a) (a_price a) rem (next_match_id_ i) og in
  ∃ b' ls', loop fuel (level_body a lp) rem (Ctx b i) =
      Ok (rem', Ctx b' (after_fills v a mid fs i)) ∧
    rep b' ls' (s_set s (og' ++ orest) sb) ∧
    pool_capacity (pool_ b') = pool_capacity (pool_ b) ∧
    0 ≤ rem' < 2 ^ 32 ∧ (og' = [] ∨ rem' = 0).
Proof.
  induction og as [|o og IH]; intros fuel b i ls sb rem s Hrep Hf HQ Hx Hrem Hfuel;
    destruct fuel as [|fuel]; try (simpl in *; lia);
    pose proof (fr_split _ _ _ _ _ _ Hf) as Hs.
  - exists b, ls. rewrite after_fills_nil. rewrite <-Hs, s_set_same.
    split_and!; try done; try lia; [|by left].
    eapply loop_exit, body_exit; [done|done|]. left. by apply Hf.
  - pose proof (fr_level _ _ _ _ _ _ Hf) as HF. apply Forall_cons in HF as [Hlp _].
    apply Forall_cons in HQ as [Hq HQ]. rewrite s_sweep_cons, Hlp, Hx, orb_false_r. cbv zeta.
    destruct (negb (rem >? 0)) eqn:Hz.
    { exists b, ls. rewrite after_fills_nil. rewrite <-Hs, s_set_same.
      split_and!; try done; try lia.
      eapply loop_exit, body_exit; [done|done|]. right. lia. }
    assert (Hpos : 0 < rem < 2 ^ 32) by lia.
    destruct (fill_left_range rem (next_match_id_ i) o Hpos Hq) as [Hleft Hpart].
    destruct (body_ok a lp b i ls sb o og orest rem Hrep Hf Hpos Hq)
      as (b1 & ls1 & Hrun & Hcap & Hrep1 & Hf1).
    set (f := fill_of rem (next_match_id_ i) o) in *.
    destruct (o_remainingQuantity_ (f_after f) =? 0) eqn:Hfull.
    + specialize (IH fuel b1 (after_fill v a f i) ls1 _ (f_left f) Hrep1 Hf1 HQ Hx Hleft
        ltac:(simpl in *; lia)).
      change (next_match_id_ (after_fill v a f i)) with (u64 (next_match_id_ i + 1)) in IH.
      destruct (s_sweep _ _ _ _ og) as [[[og' rem'] mid] fs].
      destruct IH as (b' & ls' & Hrun' & Hrep' & Hcap' & Hr' & Hor).
      rewrite after_fills_cons in Hrun'. rewrite s_set_set in Hrep'.
      exists b', ls'. rewrite (loop_continue _ _ _ _ _ _ Hrun).
      split_and!; try done; try lia; congruence.
    + destruct (Hpart eq_refl) as [Hl0 _].
      destruct fuel as [|fuel]; [simpl in *; lia|].
      exists b1, ls1. rewrite (loop_continue _ _ _ _ _ _ Hrun).
      split_and!; try done; try lia.
      rewrite <-after_fills_cons.
      rewrite (after_fills_nil _ _ (after_fill v a f i)).
      eapply loop_exit, body_exit; [done|done|]. right. lia.
Qed.

(** The outer loop leaves at once: nothing is swept. *)
Lemma step_loop_exit a fuel fuel' b i ls sb rem :
  rep b ls sb → step_body fuel' a rem (Ctx b i) = Ok (inr rem, Ctx b i) →
  ∃ b' ls', loop (S fuel) (step_body fuel' a) rem (Ctx b i) =
      Ok (rem, Ctx b' (after_fills v a (next_match_id_ i) [] i)) ∧
    rep b' ls' (s_set (opposite (a_side a)) (s_side (opposite (a_side a)) sb) sb) ∧
    pool_capacity (pool_ b') = pool_capacity (pool_ b).
Proof.
  intros Hrep Hst. exists b, ls. rewrite after_fills_nil, s_set_same.
  split_and!; [by apply loop_exit|done|done].
Qed.

Lemma step_zero fuel a b i ls sb :
  rep b ls sb → step_body fuel a 0 (Ctx b i) = Ok (inr 0, Ctx b i).
Proof. intros Hrep. rewrite (step_ok _ _ _ _ _ _ _ Hrep). by destruct (best b _). Qed.

(** The outer loop sweeps the opposite side. *)
Lemma step_loop_ok a n : ∀ fuel fuel' b i ls sb rem,
  let s := opposite (a_side a) in
  rep b ls sb → Forall qty_ok (s_side s sb) → 0 ≤ rem < 2 ^ 32 →
  (length (s_side s sb) ≤ n)%nat → (n < fuel)%nat → (n < fuel')%nat →
  let '(os', rem', mid, fs) :=
    s_sweep (a_side a) (a_price a) rem (next_match_id_ i) (s_side s sb) in
  ∃ b' ls', loop fuel (step_body fuel' a) rem (Ctx b i) =
      Ok (rem', Ctx b' (after_fills v a mid fs i)) ∧
    rep b' ls' (s_set s os' sb) ∧
    pool_capacity (pool_ b') = pool_capacity (pool_ b).
Proof.
  induction n as [n IH] using (well_founded_induction lt_wf).
  intros fuel fuel' b i ls sb rem s Hrep HQ Hrem Hn Hfuel Hfuel'.
  destruct fuel as [|fuel]; [lia|].
  pose proof (best_ok b ls sb s Hrep) as Hbest.
  pose proof (step_ok fuel' a b i ls sb rem Hrep) as Hstep. fold s in Hstep.
  pose proof (step_loop_exit a fuel fuel' b i ls sb rem Hrep) as Hexit. fold s in Hexit.
  destruct (best b s) as [lp|]; [|rewrite Hbest in *; by apply Hexit].
  destruct Hbest as (og & orest & Hne & Hf). pose proof (fr_split _ _ _ _ _ _ Hf) as Hs.
  destruct og as [|o og]; [done|].
  pose proof (fr_level _ _ _ _ _ _ Hf) as HF. apply Forall_cons in HF as [Hlp _].
  destruct (negb (rem >? 0)) eqn:Hz.
  { rewrite Hs in *. simpl. rewrite Hz. simpl. by apply Hexit. }
  destruct (no_cross (a_side a) (a_price a) lp) eqn:Hx.
  { rewrite Hs in *. simpl. rewrite Hz, Hlp, Hx. simpl. by apply Hexit. }
  clear Hexit. rewrite Hs, s_sweep_app. rewrite Hs in HQ, Hn.
  apply Forall_app in HQ as [HQ1 HQ2]. rewrite length_app in Hn.
  pose proof (level_loop_ok a lp (o :: og) orest fuel' b i ls sb rem Hrep Hf HQ1 Hx Hrem
    ltac:(lia)) as Hin.
  destruct (s_sweep _ _ _ _ (o :: og)) as [[[og' rem1] mid1] fs1].
  destruct Hin as (b1 & ls1 & Hrun1 & Hrep1 & Hcap1 & Hr1 & Hor).
  rewrite (bind_ok _ _ _ _ _ Hrun1) in Hstep.
  rewrite (loop_continue _ _ _ _ _ _ Hstep).
  destruct og' as [|o' og'].
  - (* the level is gone *)
    specialize (IH (length orest) ltac:(simpl in *; lia) fuel fuel' b1
      (after_fills v a mid1 fs1 i) ls1 (s_set s orest sb) rem1).
    simpl in IH. rewrite s_side_set_eq in IH.
    specialize (IH Hrep1 HQ2 Hr1 ltac:(lia) ltac:(simpl in *; lia) ltac:(simpl in *; lia)).
    destruct (s_sweep _ _ _ _ orest) as [[[os' rem'] mid] fs].
    destruct IH as (b' & ls' & Hrun & Hrep' & Hcap). exists b', ls'.
    rewrite after_fills_app in Hrun. rewrite s_set_set in Hrep'.
    split_and!; [done|done|congruence].
  - (* the taker is exhausted *)
    destruct Hor as [?| ->]; [done|]. exists b1, ls1. split_and!; [|done|done].
    destruct fuel; [simpl in *; lia|]. by eapply loop_exit, step_zero.
Qed.

(** The whole of [match], with one more round of fuel than there are objects. *)
Lemma match_loop_ok a b i ls sb n :
  rep b ls sb → Forall qty_ok (s_orders sb) → 0 ≤ a_initialQuantity a < 2 ^ 32 →
  (length (s_side (opposite (a_side a)) sb) ≤ n)%nat →
  let '(sb', i', rem) := s_match v a sb i in
  ∃ b' ls', loop (S n) (step_body (S n) a) (a_initialQuantity a) (Ctx b i) =
      Ok (rem, Ctx b' i') ∧ rep b' ls' sb' ∧
    pool_capacity (pool_ b') = pool_capacity (pool_ b).
Proof.
  intros Hrep HQ Hq Hn. unfold s_match.
  assert (HQs : Forall qty_ok (s_side (opposite (a_side a)) sb)).
  { rewrite Forall_forall in HQ |- *. intros o Ho. apply HQ, elem_of_s_orders. eauto. }
  pose proof (step_loop_ok a n (S n) (S n) b i ls sb (a_initialQuantity a) Hrep HQs Hq Hn
    ltac:(lia) ltac:(lia)) as Hloop.
  by destruct (s_sweep _ _ _ _ _) as [[[os' rem'] mid] fs].
Qed.
End match_loop.
