(* ===== verification/BookCore.v ===== *)
(** * BookCore: what the request handlers need from matching, inserting and removing

    [addOrder], [cancelOrder] and [replaceOrder] are written against three
    private operations of [MEOrderBook].  The class [BookCore] names them, the
    class [BookCoreLaws] states what they promise: they return, and they move
    the represented abstract book the way [s_match], [s_insert] and [s_delete]
    do.  The handlers are proved once against this interface; the two books
    discharge it. *)

From S2P Require Import Prelude Types BookSpec DList Memory StoreRep LevelMap BookSpecFacts.

Class BookCore (P L : Type) := {
  core_match : order_args → M (ctx P L) Quantity;
  core_insert : order_args → Quantity → M (ctx P L) unit;
  core_remove : positive → M (ctx P L) unit
}.

(** [nextMarketOrderId++] on the book alone. *)
Definition bump_next {P L} (b : book P L) : book P L :=
  Book (pool_ b) (objects b) (orders_ b) (nextMarketOrderId b +₆₄ 1) (levels b).

(** [order->remainingQuantity_ = q] on the book alone. *)
Definition set_qty {P L} (l : positive) (v : MEOrder) (q : Quantity) (b : book P L) : book P L :=
  Book (pool_ b) (<[l := set_remaining q v]> (objects b)) (orders_ b)
    (nextMarketOrderId b) (levels b).

Class BookCoreLaws (v : variant) (P L : Type) `{ObjectPool P} `{BookCore P L} := {
  core_rep : book P L → (Side → list positive) → sbook → Prop;
  (** the prices the book can hold *)
  core_price : Price → Prop;

  core_store b ls sb : core_rep b ls sb → store_rep b ls sb;
  core_bump b ls sb : core_rep b ls sb → core_rep (bump_next b) ls (s_bump sb);
  core_set_qty b ls sb s l1 l l2 w q o1 o2 :
    core_rep b ls sb → ls s = l1 ++ l :: l2 → objects b !! l = Some w →
    s_side s sb = o1 ++ payload w :: o2 → length o1 = length l1 →
    core_rep (set_qty l w q b) ls (s_set s (o1 ++ payload (set_remaining q w) :: o2) sb);

  core_match_ok a b i ls sb :
    core_rep b ls sb → Forall qty_ok (s_orders sb) → 0 ≤ a_initialQuantity a < 2 ^ 32 →
    let '(sb', i', rem) := s_match v a sb i in
    ∃ b' ls', core_match a (Ctx b i) = Ok (rem, Ctx b' i') ∧ core_rep b' ls' sb' ∧
      pool_capacity (pool_ b') = pool_capacity (pool_ b);
  core_insert_ok a q b i ls sb :
    core_rep b ls sb → core_price (a_price a) →
    index_find (a_clientId a) (a_clientOrderId a) (orders_ b) = None →
    (size (objects b) < pool_capacity (pool_ b))%nat →
    ∃ b' ls', core_insert a q (Ctx b i) = Ok (tt, Ctx b' i) ∧
      core_rep b' ls' (s_insert a q sb) ∧
      pool_capacity (pool_ b') = pool_capacity (pool_ b);
  core_remove_ok b i ls sb l w l1 l2 :
    core_rep b ls sb → objects b !! l = Some w → ls (o_side_ w) = l1 ++ l :: l2 →
    ∃ b', core_remove l (Ctx b i) = Ok (tt, Ctx b' i) ∧
      core_rep b' (side_upd ls (o_side_ w) (l1 ++ l2)) (s_delete (key w) sb) ∧
      pool_capacity (pool_ b') = pool_capacity (pool_ b)
}.

Section handlers.
Context (v : variant) {P L : Type} `{ObjectPool P} `{!BookCore P L} `{!BookCoreLaws v P L}.

(** ** The handlers over the interface

    [v] selects the order of two independent statements of [cancelOrder] and
    the announcements in which the two books differ. *)

Definition core_addOrder (tickerId : TickerId) (clientId : ClientId) (clientOrderId : OrderId)
    (orderType : OrderType) (price : Price) (initialQuantity : Quantity) (side : Side)
    (orderToken : OrderToken) : M (ctx P L) unit :=
  marketOrderId ← fresh_market_id;
  let a := {| a_tickerId := tickerId; a_clientId := clientId;
              a_clientOrderId := clientOrderId; a_marketOrderId := marketOrderId;
              a_orderType := orderType; a_price := price;
              a_initialQuantity := initialQuantity; a_side := side;
              a_orderToken := orderToken |} in
  sendClientResponse (accepted_response a);;
  remainingQuantity ← core_match a;
  when (remainingQuantity >? 0)
    match orderType with
    | GoodTillCancel =>
        core_insert a remainingQuantity;;
        sendMarketUpdate (add_update a remainingQuantity)
    | FillAndKill => sendClientResponse (killed_response a remainingQuantity)
    end.

Definition core_cancelOrder (tickerId : TickerId) (clientId : ClientId)
    (clientOrderId : OrderId) (qty : Quantity) (orderToken : OrderToken)
    : M (ctx P L) unit :=
  orders ← gets (λ c, orders_ (bk c));
  let reject := sendClientResponse
                  (unknown_order_response tickerId clientId clientOrderId orderToken) in
  match orders !! clientId with
  | None => reject
  | Some clientOrders =>
      match clientOrders !! clientOrderId with
      | None => reject
      | Some order =>
          o ← deref order;
          let canceled_qty := if qty =? 0 then o_remainingQuantity_ o else qty in
          if canceled_qty >? o_remainingQuantity_ o then
            sendClientResponse (excess_cancel_response tickerId clientId clientOrderId o)
          else
            let reduce :=
              wr (λ o, set_remaining (u32 (o_remainingQuantity_ o - canceled_qty)) o)
                (Some order) in
            match v with
            | MapBook =>
                sendMarketUpdate (cancel_update tickerId o canceled_qty);;
                reduce;;
                o ← deref order;
                sendClientResponse
                  (canceled_response tickerId clientId clientOrderId o canceled_qty);;
                when (o_remainingQuantity_ o =? 0) (core_remove order)
            | VectorBook =>
                reduce;;
                o ← deref order;
                sendMarketUpdate (cancel_update tickerId o canceled_qty);;
                sendClientResponse
                  (canceled_response tickerId clientId clientOrderId o (o_remainingQuantity_ o));;
                when (o_remainingQuantity_ o =? 0) (core_remove order)
            end
      end
  end.

Definition core_replaceOrder (tickerId : TickerId) (clientId : ClientId)
    (clientOrderId newClientOrderId : OrderId) (orderType : OrderType) (price : Price)
    (qty : Quantity) (orderToken : OrderToken) : M (ctx P L) unit :=
  orders ← gets (λ c, orders_ (bk c));
  let reject := sendClientResponse
                  (unknown_order_response tickerId clientId clientOrderId orderToken) in
  match orders !! clientId with
  | None => reject
  | Some clientOrders =>
      match clientOrders !! clientOrderId with
      | None => reject
      | Some old_order =>
          if (newClientOrderId =? 0) || (qty =? 0) then reject else
          o ← deref old_order;
          new_market_order_id ← fresh_market_id;
          core_remove old_order;;
          let a := {| a_tickerId := tickerId; a_clientId := clientId;
                      a_clientOrderId := newClientOrderId;
                      a_marketOrderId := new_market_order_id;
                      a_orderType := orderType; a_price := price;
                      a_initialQuantity := qty; a_side := o_side_ o;
                      a_orderToken := orderToken |} in
          sendClientResponse (replaced_response a);;
          sendMarketUpdate (modify_update a (o_marketOrderId_ o));;
          remaining_qty ← core_match a;
          match v with
          | MapBook =>
              if remaining_qty =? 0 then mret tt else
              match orderType with
              | GoodTillCancel => core_insert a remaining_qty
              | FillAndKill =>
                  sendClientResponse (killed_response a remaining_qty);;
                  sendMarketUpdate (killed_update a remaining_qty)
              end
          | VectorBook =>
              when ((remaining_qty >? 0) && bool_decide (orderType = GoodTillCancel))
                (core_insert a remaining_qty)
          end
      end
  end.

(** ** The handlers implement the abstract requests *)

(** The simulation relation: the book represents a well-formed abstract book
    that fits into the pool. *)
Definition book_rel (b : book P L) (sb : sbook) : Prop :=
  (∃ ls, core_rep b ls sb) ∧ s_wf sb ∧ (length (s_orders sb) ≤ pool_capacity (pool_ b))%nat.

(** Running [m] on [b] returns, in a state related to [r], having sent what the
    abstract request sends. *)
Definition implements (m : M (ctx P L) unit) (b : book P L) (i : engine_io)
    (r : sbook * engine_io) : Prop :=
  ∃ b', m (Ctx b i) = Ok (tt, Ctx b' r.2) ∧ book_rel b' r.1 ∧
        pool_capacity (pool_ b') = pool_capacity (pool_ b).

Definition steps_to (m : M (ctx P L) unit) (b : book P L) (i : engine_io)
    (r : sbook * engine_io) : Prop :=
  ∃ b' ls', m (Ctx b i) = Ok (tt, Ctx b' r.2) ∧ core_rep b' ls' r.1 ∧
            pool_capacity (pool_ b') = pool_capacity (pool_ b).

Lemma implements_intro m b i r :
  steps_to m b i r → s_wf r.1 → (length (s_orders r.1) ≤ pool_capacity (pool_ b))%nat →
  implements m b i r.
Proof.
  intros (b' & ls' & Hrun & Hr' & Hc) Hw Hlen. exists b'. split_and!; [done| |done].
  split; [eauto|split; [done|]]. by rewrite Hc.
Qed.

Lemma rel_size b sb ls :
  core_rep b ls sb → size (objects b) = length (s_orders sb).
Proof. intros Hr. by eapply sr_total, core_store. Qed.

Lemma fresh_run b i ls sb :
  core_rep b ls sb → fresh_market_id (Ctx b i) = Ok (s_next sb, Ctx (bump_next b) i).
Proof.
  intros Hr. unfold fresh_market_id, bump_next. simpl.
  by rewrite (sr_next _ _ _ (core_store _ _ _ Hr)).
Qed.

(** Matching, and the insertion of what is left, on a book with room. *)
Lemma match_and_rest a b i ls sb :
  core_rep b ls sb → s_wf sb → core_price (a_price a) → 0 ≤ a_initialQuantity a < 2 ^ 32 →
  (a_clientId a, a_clientOrderId a) ∉ key <$> s_orders sb →
  (length (s_orders sb) < pool_capacity (pool_ b))%nat →
  let '(sb1, i1, rem) := s_match v a sb i in
  0 ≤ rem ∧ ∃ b1 ls1 b2 ls2,
    core_match a (Ctx b i) = Ok (rem, Ctx b1 i1) ∧ core_rep b1 ls1 sb1 ∧
    pool_capacity (pool_ b1) = pool_capacity (pool_ b) ∧
    core_insert a rem (Ctx b1 i1) = Ok (tt, Ctx b2 i1) ∧ core_rep b2 ls2 (s_insert a rem sb1) ∧
    pool_capacity (pool_ b2) = pool_capacity (pool_ b).
Proof.
  intros Hr Hw Hp Hq Hk Hcap.
  pose proof (core_match_ok a b i ls sb Hr (wf_qty_orders _ Hw) Hq) as Hmatch.
  destruct (s_match v a sb i) as [[sb1 i1] rem] eqn:Hm.
  pose proof (s_match_matched v a _ _ _ _ _ Hw (proj1 Hq) Hm) as Hmd.
  destruct Hmatch as (b1 & ls1 & Hrun & Hr1 & Hc1).
  destruct (thinned_orders _ _ (md_thin _ _ _ _ Hmd)) as [_ Hlen].
  destruct (core_insert_ok a rem b1 i1 ls1 sb1 Hr1 Hp) as (b2 & ls2 & Hrun2 & Hr2 & Hc2).
  { eapply sr_find_none; [by eapply core_store|]. apply s_find_none.
    eapply thinned_fresh; [apply Hmd|done]. }
  { rewrite Hc1, (rel_size _ _ _ Hr1). lia. }
  split; [apply Hmd|]. exists b1, ls1, b2, ls2. split_and!; try done. congruence.
Qed.

Lemma core_add_ok b i sb tickerId clientId clientOrderId orderType price qty side token :
  book_rel b sb → (length (s_orders sb) < pool_capacity (pool_ b))%nat → core_price price →
  0 ≤ qty < 2 ^ 32 → s_find (clientId, clientOrderId) sb = None →
  implements (core_addOrder tickerId clientId clientOrderId orderType price qty side token) b i
    (s_addOrder v tickerId clientId clientOrderId orderType price qty side token sb i).
Proof.
  intros ([ls Hr] & Hw & _) Hcap Hp Hq Hk.
  pose proof (add_wf v tickerId clientId token sb i Hw clientOrderId orderType price qty side Hq Hk)
    as [Hw' Hlen'].
  apply implements_intro; [|done|simpl in *; lia].
  clear Hw' Hlen'. unfold steps_to, s_addOrder, core_addOrder.
  mstep (fresh_run b i ls sb Hr).
  match goal with |- context [s_match v ?x] => set (a := x) end.
  pose proof (match_and_rest a (bump_next b) (emit [Resp (accepted_response a)] i) ls _
    (core_bump _ _ _ Hr) (wf_bump _ Hw) Hp Hq (proj1 (s_find_none _ _) Hk) Hcap) as Hmatch.
  destruct (s_match v a _ _) as [[sb1 i1] rem].
  destruct Hmatch as (_ & b1 & ls1 & b2 & ls2 & Hrun & Hr1 & Hc1 & Hrun2 & Hr2 & Hc2).
  mgo tt (Ctx (bump_next b) (emit [Resp (accepted_response a)] i)).
  mstep Hrun.
  destruct (rem >? 0); [|by exists b1, ls1]. destruct orderType; [|by exists b1, ls1].
  exists b2, ls2. simpl. by mstep Hrun2.
Qed.

(** The two-level lookup of the handlers is the lookup of the index. *)
Lemma index_cases (b : book P L) c id (none : M (ctx P L) unit)
    (some : positive → M (ctx P L) unit) s :
  match orders_ b !! c with
  | None => none
  | Some cm => match cm !! id with None => none | Some l => some l end
  end s =
  match index_find c id (orders_ b) with None => none | Some l => some l end s.
Proof. unfold index_find. by destruct (orders_ b !! c) as [cm|]. Qed.

Lemma wr_set_qty (b : book P L) i l w f :
  objects b !! l = Some w →
  wr (λ o, set_remaining (f o) o) (Some l) (Ctx b i) = Ok (tt, Ctx (set_qty l w (f w) b) i).
Proof.
  intros Hl. unfold wr, deref, mbind, M_bind. simpl. rewrite Hl.
  unfold modify, set_objects, set_qty. simpl. repeat f_equal. apply map_eq. intros k.
  rewrite lookup_alter, lookup_insert. case_decide; [subst|done]. by rewrite Hl.
Qed.

(** The reduction of a found order to [q], followed by its removal at zero. *)
Lemma reduce_ok b i ls sb c id l w q :
  core_rep b ls sb → index_find c id (orders_ b) = Some l → objects b !! l = Some w →
  ∃ b' ls', when (q =? 0) (core_remove l) (Ctx (set_qty l w q b) i) = Ok (tt, Ctx b' i) ∧
    core_rep b' ls' (if q =? 0 then s_delete (c, id) sb
                     else s_update (c, id) (set_remaining q) sb) ∧
    pool_capacity (pool_ b') = pool_capacity (pool_ b).
Proof.
  intros Hr Hi Hl.
  destruct (sr_found _ _ _ _ _ _ (core_store _ _ _ Hr) Hi)
    as (w' & l1 & l2 & o1 & o2 & Hw' & Hk & _ & Hls & Hs & Hlen).
  assert (w' = w) as -> by congruence. rewrite <-Hk.
  pose proof (core_set_qty b ls sb _ _ _ _ _ q _ _ Hr Hls Hl Hs Hlen) as Hr1.
  destruct (q =? 0) eqn:Hz; simpl.
  - destruct (core_remove_ok _ i _ _ l (set_remaining q w) l1 l2 Hr1)
      as (b' & Hrun & Hr' & Hc); [apply lookup_insert_eq|done|].
    exists b', (side_upd ls (o_side_ w) (l1 ++ l2)). split_and!; [done| |done].
    change (o_side_ (set_remaining q w)) with (o_side_ w) in Hr'.
    change (key (set_remaining q w)) with (key w) in Hr'.
    rewrite (sr_delete _ _ _ _ _ _ _ _ _ _ (core_store _ _ _ Hr) Hls Hl Hs Hlen).
    erewrite (sr_delete (set_qty l w q b) ls _ _ l1 l l2 (set_remaining q w)) in Hr';
      [by rewrite s_set_set in Hr'|by eapply core_store|done|apply lookup_insert_eq
      |by rewrite s_side_set_eq|done].
  - exists (set_qty l w q b), ls. split_and!; [done| |done].
    by erewrite (sr_update b ls sb) by (done || by eapply core_store).
Qed.

Lemma core_cancel_ok b i sb tickerId clientId clientOrderId qty token :
  book_rel b sb → 0 ≤ qty →
  implements (core_cancelOrder tickerId clientId clientOrderId qty token) b i
    (s_cancelOrder v tickerId clientId clientOrderId qty token sb i).
Proof.
  intros ([ls Hr] & Hw & Hcap) Hq.
  pose proof (cancel_wf v tickerId clientId token sb i Hw clientOrderId qty Hq) as [Hw' Hlen'].
  apply implements_intro; [|done|simpl in *; lia]. clear Hw' Hlen' Hcap.
  unfold steps_to, s_cancelOrder, core_cancelOrder.
  mgo (orders_ b) (Ctx b i). cbv zeta. rewrite index_cases.
  pose proof (core_store _ _ _ Hr) as Hs.
  destruct (index_find clientId clientOrderId (orders_ b)) as [l|] eqn:Hi; last first.
  { rewrite (sr_find _ _ _ _ _ Hs), Hi. simpl. by exists b, ls. }
  destruct (sr_found _ _ _ _ _ _ Hs Hi) as (w & l1 & l2 & o1 & o2 & Hl & Hk & Hf & _).
  rewrite Hf, (bind_ok _ _ _ w (Ctx b i)) by (unfold deref; simpl; by rewrite Hl).
  change (o_remainingQuantity_ (payload w)) with (o_remainingQuantity_ w).
  set (c := if qty =? 0 then o_remainingQuantity_ w else qty).
  destruct (c >? o_remainingQuantity_ w) eqn:Hc; [by exists b, ls|].
  pose proof (s_find_qty _ _ _ Hw Hf) as Hwq.
  assert (Hu : u32 (o_remainingQuantity_ w - c) = o_remainingQuantity_ w - c).
  { apply u32_small. destruct Hwq. unfold c in *. destruct (qty =? 0) eqn:?; simpl in *; lia. }
  assert (Hwr : ∀ j, wr (λ o, set_remaining (u32 (o_remainingQuantity_ o - c)) o) (Some l)
    (Ctx b j) = Ok (tt, Ctx (set_qty l w (o_remainingQuantity_ w - c) b) j)).
  { intros j. rewrite (wr_set_qty b j l w (λ o, u32 (o_remainingQuantity_ o - c)) Hl).
    by rewrite Hu. }
  set (q := o_remainingQuantity_ w - c) in *.
  match goal with |- context [emit ?evs i] => set (i' := emit evs i) end.
  destruct (reduce_ok b i' ls sb _ _ l w q Hr Hi Hl) as (b' & ls' & Hrun & Hr' & Hc').
  exists b', ls'. split_and!; [|done|done]. simpl. rewrite <-Hrun. unfold i'. clear Hrun Hr'.
  assert (Hd : ∀ j, deref l (Ctx (set_qty l w q b) j) = Ok (set_remaining q w, Ctx (set_qty l w q b) j))
    by (intros; unfold deref; simpl; by rewrite lookup_insert_eq).
  destruct v.
  - mgo tt (Ctx b (emit [Upd (cancel_update tickerId w c)] i)).
    mstep (Hwr _).
    mstep (Hd _). erewrite bind_ok by reflexivity.
    unfold set_io. simpl. by rewrite emit_emit.
  - mstep (Hwr _).
    mstep (Hd _). do 2 (erewrite bind_ok by reflexivity).
    unfold set_io. simpl. by rewrite emit_emit.
Qed.

Lemma core_replace_ok b i sb tickerId clientId clientOrderId newClientOrderId orderType price
    qty token :
  book_rel b sb → core_price price → 0 ≤ qty < 2 ^ 32 →
  s_find (clientId, newClientOrderId) (s_delete (clientId, clientOrderId) sb) = None →
  implements (core_replaceOrder tickerId clientId clientOrderId newClientOrderId orderType
                price qty token) b i
    (s_replaceOrder v tickerId clientId clientOrderId newClientOrderId orderType price qty token
       sb i).
Proof.
  intros ([ls Hr] & Hw & Hcap) Hp Hq Hk.
  pose proof (replace_wf v tickerId clientId token sb i Hw clientOrderId newClientOrderId
    orderType price qty Hq Hk) as [Hw' Hlen'].
  apply implements_intro; [|done|simpl in *; lia]. clear Hw' Hlen'.
  unfold steps_to, s_replaceOrder, core_replaceOrder.
  mgo (orders_ b) (Ctx b i). cbv zeta. rewrite index_cases.
  pose proof (core_store _ _ _ Hr) as Hs.
  destruct (index_find clientId clientOrderId (orders_ b)) as [l|] eqn:Hi; last first.
  { rewrite (sr_find _ _ _ _ _ Hs), Hi. simpl. by exists b, ls. }
  destruct (sr_found _ _ _ _ _ _ Hs Hi) as (w & l1 & l2 & o1 & o2 & Hl & Hkw & Hf & Hls & _).
  rewrite Hf. destruct ((newClientOrderId =? 0) || (qty =? 0)); [by exists b, ls|].
  rewrite (bind_ok _ _ _ w (Ctx b i)) by (unfold deref; simpl; by rewrite Hl).
  mstep (fresh_run b i ls sb Hr).
  destruct (core_remove_ok (bump_next b) i ls _ l w l1 l2 (core_bump _ _ _ Hr) Hl Hls)
    as (b0 & Hrun0 & Hr0 & Hc0). rewrite Hkw in Hr0. simpl in Hc0.
  mstep Hrun0.
  change (o_side_ (payload w)) with (o_side_ w).
  change (o_marketOrderId_ (payload w)) with (o_marketOrderId_ w).
  match goal with |- context [s_match v ?x] => set (a := x) end.
  set (i1 := emit _ i).
  set (sb0 := s_delete _ (s_bump sb)) in *.
  pose proof (delete_length sb (clientId, clientOrderId) _ Hf) as Hdl.
  assert (Hcap0 : (length (s_orders sb0) < pool_capacity (pool_ b0))%nat).
  { rewrite Hc0. change (s_orders sb0) with (s_orders (s_delete (clientId, clientOrderId) sb)). lia. }
  pose proof (match_and_rest a b0 i1 _ sb0 Hr0 (wf_delete _ _ (wf_bump _ Hw)) Hp Hq
    (proj1 (s_find_none _ _) Hk) Hcap0) as Hmatch.
  destruct (s_match v a _ _) as [[sb1 i2] rem].
  destruct Hmatch as (Hrem & b1 & ls1 & b2 & ls2 & Hrun & Hr1 & Hc1 & Hrun2 & Hr2 & Hc2).
  do 2 (erewrite bind_ok by reflexivity).
  replace (set_io _ _) with (Ctx b0 i1) by (unfold set_io, i1; simpl; by rewrite emit_emit).
  mstep Hrun. rewrite Hc0 in Hc1, Hc2.
  destruct (rem =? 0) eqn:Hz.
  { exists b1, ls1. split_and!; [|done|done]. destruct v; simpl; [done|].
    by assert ((rem >? 0) = false) as -> by lia. }
  destruct orderType.
  - exists b2, ls2. split_and!; [|done|done]. destruct v; simpl; [done|].
    by assert ((rem >? 0) = true) as -> by lia.
  - exists b1, ls1. split_and!; [|by destruct v|done]. destruct v; simpl.
    + erewrite bind_ok by reflexivity.
      unfold sendMarketUpdate, modify, set_io. simpl. by rewrite emit_emit.
    + by rewrite andb_false_r.
Qed.
End handlers.
