(* ===== verification/OrderBookMap.v ===== *)
(** * OrderBookMap: the map order book, [src/src/engine/order_book/order_book_map.cpp]

    [MEOrderBook] with [std::map<Price, PriceLevel>] per side, translated
    statement by statement into the state monad of [Prelude]: the orders are
    objects linked through [next_] and [prev_], the levels are map entries that
    hold the head and tail pointers.

    [match] keeps a reference to a map entry across calls of [remove], which
    erases the entry when its last order goes; the loop condition then reads
    the destroyed entry.  What such a read yields is the allocator's business:
    it is the parameter [freed_node], applied to the bytes the entry held when
    it was erased. *)

From S2P Require Import Prelude Types BookSpec DList Memory LevelMap.

Module MapOB.

Record map_levels := {
  asks_ : level_map;
  bids_ : level_map;
  erased_node : PriceLevel
}.

Definition side_levels (s : Side) (m : map_levels) : level_map :=
  match s with BUY => bids_ m | SELL => asks_ m end.

Definition on_side (s : Side) (f : level_map → level_map) (m : map_levels) : map_levels :=
  match s with
  | BUY => {| asks_ := asks_ m; bids_ := f (bids_ m); erased_node := erased_node m |}
  | SELL => {| asks_ := f (asks_ m); bids_ := bids_ m; erased_node := erased_node m |}
  end.

Definition note_erased (l : PriceLevel) (m : map_levels) : map_levels :=
  {| asks_ := asks_ m; bids_ := bids_ m; erased_node := l |}.

Section map_book.
Context {P : Type} `{ObjectPool P}.
Variable freed_node : PriceLevel → PriceLevel.

Abbreviation state := (ctx P map_levels).
Abbreviation M := (M state).

(** [MEOrderBook(size, tickerId, matchingEngine)] *)
Definition map_new (size : nat) : book P map_levels :=
  Book (pool_new size) ∅ ∅ 1
    {| asks_ := []; bids_ := []; erased_node := PriceLevel_default |}.

(** [(side == Side::BUY) ? bids_[price] : asks_[price]] *)
Definition level_at (s : Side) (price : Price) : M unit :=
  modify (set_levels (on_side s (lm_subscript s price))).

(** A read through the reference to the entry of [price]. *)
Definition level_read (s : Side) (price : Price) : M PriceLevel :=
  gets (λ c,
    match lm_find price (side_levels s (levels (bk c))) with
    | Some l => l
    | None => freed_node (erased_node (levels (bk c)))
    end).

(** A write through the reference; writing to an erased entry is a fault. *)
Definition level_write (s : Side) (price : Price) (f : PriceLevel → PriceLevel) : M unit :=
  m ← gets (λ c, side_levels s (levels (bk c)));
  match lm_find price m with
  | Some _ => modify (set_levels (on_side s (lm_alter f price)))
  | None => raise DanglingDeref
  end.

(** [bids_.erase(price)] or [asks_.erase(price)] *)
Definition level_erase (s : Side) (price : Price) : M unit :=
  m ← gets (λ c, side_levels s (levels (bk c)));
  match lm_find price m with
  | Some l => modify (set_levels (λ lv, note_erased l (on_side s (lm_erase price) lv)))
  | None => mret tt
  end.

(** The middle part of [insert]: the order becomes the tail of its level,
    which comes into being with its first order. *)
Definition append_to_level (s : Side) (price : Price) (order : positive) : M unit :=
  level_at s price;;
  priceLevel ← level_read s price;
  match pl_head priceLevel with
  | None =>
      level_write s price (pl_set_head (Some order));;
      level_write s price (pl_set_tail (Some order))
  | Some _ =>
      wr (set_prev (pl_tail priceLevel)) (Some order);;
      wr (set_next (Some order)) (pl_tail priceLevel);;
      level_write s price (pl_set_tail (Some order))
  end.

(** [MEOrderBook::insert] *)
Definition insert (a : order_args) (initialQuantity : Quantity) : M unit :=
  order ← allocate (resting_order a initialQuantity);
  append_to_level (a_side a) (a_price a) order;;
  modify (set_orders (index_set (a_clientId a) (a_clientOrderId a) order)).

(** [MEOrderBook::remove] *)
Definition remove (order : positive) : M unit :=
  let p := Some order in
  price ← rd o_price_ p;
  side ← rd o_side_ p;
  level_at side price;;
  prev ← rd o_prev_ p;
  next ← rd o_next_ p;
  match prev with
  | Some _ => wr (set_next next) prev
  | None => level_write side price (pl_set_head next)
  end;;
  prev ← rd o_prev_ p;
  next ← rd o_next_ p;
  match next with
  | Some _ => wr (set_prev prev) next
  | None => level_write side price (pl_set_tail prev)
  end;;
  priceLevel ← level_read side price;
  when (bool_decide (pl_head priceLevel = None)) (level_erase side price);;
  clientId ← rd o_clientId_ p;
  clientOrderId ← rd o_clientOrderId_ p;
  modify (set_orders (index_erase clientId clientOrderId));;
  deallocate order.

(** One iteration of the inner loop of [match]: the head order of the level
    trades against the taker. *)
Definition match_level (a : order_args) (levelPrice : Price) (remainingQuantity : Quantity)
    : M (Quantity + Quantity) :=
  priceLevel ← level_read (opposite (a_side a)) levelPrice;
  match pl_head priceLevel with
  | None => mret (inr remainingQuantity)
  | Some restingOrder =>
      if negb (remainingQuantity >? 0) then mret (inr remainingQuantity) else
      restingQuantity ← rd o_remainingQuantity_ (Some restingOrder);
      let fill := Z.min remainingQuantity restingQuantity in
      match_id ← nextMatchId;
      let remainingQuantity := u32 (remainingQuantity - fill) in
      wr (λ o, set_remaining (u32 (o_remainingQuantity_ o - fill)) o) (Some restingOrder);;
      o ← deref restingOrder;
      sendClientResponse (resting_response a o fill levelPrice match_id);;
      sendClientResponse (aggressive_response a fill levelPrice remainingQuantity match_id);;
      sendMarketUpdate (trade_update a o fill match_id);;
      when (o_remainingQuantity_ o =? 0) (remove restingOrder);;
      mret (inl remainingQuantity)
  end.

(** One iteration of the outer loop: the best opposite level, if the taker
    reaches it. *)
Definition match_step (fuel : nat) (a : order_args) (remainingQuantity : Quantity)
    : M (Quantity + Quantity) :=
  oppositeSide ← gets (λ c, side_levels (opposite (a_side a)) (levels (bk c)));
  match oppositeSide with
  | [] => mret (inr remainingQuantity)
  | (levelPrice, _) :: _ =>
      if negb (remainingQuantity >? 0) then mret (inr remainingQuantity) else
      if no_cross (a_side a) (a_price a) levelPrice then mret (inr remainingQuantity) else
      r ← loop fuel (match_level a levelPrice) remainingQuantity;
      mret (inl r)
  end.

(** [MEOrderBook::match].  Every round of either loop but the last consumes a
    resting order or the rest of the taker, so one more round than there are
    resting orders is enough. *)
Definition match_ (a : order_args) : M Quantity :=
  n ← gets (λ c, size (objects (bk c)));
  loop (S n) (match_step (S n) a) (a_initialQuantity a).

(** [MEOrderBook::addOrder] *)
Definition addOrder (tickerId : TickerId) (clientId : ClientId) (clientOrderId : OrderId)
    (orderType : OrderType) (price : Price) (initialQuantity : Quantity) (side : Side)
    (orderToken : OrderToken) : M unit :=
  marketOrderId ← fresh_market_id;
  let a := {| a_tickerId := tickerId; a_clientId := clientId;
              a_clientOrderId := clientOrderId; a_marketOrderId := marketOrderId;
              a_orderType := orderType; a_price := price;
              a_initialQuantity := initialQuantity; a_side := side;
              a_orderToken := orderToken |} in
  sendClientResponse (accepted_response a);;
  remainingQuantity ← match_ a;
  when (remainingQuantity >? 0)
    match orderType with
    | GoodTillCancel =>
        insert a remainingQuantity;;
        sendMarketUpdate (add_update a remainingQuantity)
    | FillAndKill => sendClientResponse (killed_response a remainingQuantity)
    end.

(** [MEOrderBook::cancelOrder] *)
Definition cancelOrder (tickerId : TickerId) (clientId : ClientId) (clientOrderId : OrderId)
    (qty : Quantity) (orderToken : OrderToken) : M unit :=
  orders ← gets (λ c, orders_ (bk c));
  let reject := sendClientResponse
                  (unknown_order_response tickerId clientId clientOrderId orderToken) in
  match orders !! clientId with
  | None => reject
  | Some clientOrders =>
      match clientOrders !! clientOrderId with
      | None => reject
      | Some order =>
          o ← deref order;
          let canceled_qty := if qty =? 0 then o_remainingQuantity_ o else qty in
          if canceled_qty >? o_remainingQuantity_ o then
            sendClientResponse (excess_cancel_response tickerId clientId clientOrderId o)
          else
            sendMarketUpdate (cancel_update tickerId o canceled_qty);;
            wr (λ o, set_remaining (u32 (o_remainingQuantity_ o - canceled_qty)) o) (Some order);;
            o ← deref order;
            sendClientResponse
              (canceled_response tickerId clientId clientOrderId o canceled_qty);;
            when (o_remainingQuantity_ o =? 0) (remove order)
      end
  end.

(** [MEOrderBook::replaceOrder] *)
Definition replaceOrder (tickerId : TickerId) (clientId : ClientId)
    (clientOrderId newClientOrderId : OrderId) (orderType : OrderType) (price : Price)
    (qty : Quantity) (orderToken : OrderToken) : M unit :=
  orders ← gets (λ c, orders_ (bk c));
  let reject := sendClientResponse
                  (unknown_order_response tickerId clientId clientOrderId orderToken) in
  match orders !! clientId with
  | None => reject
  | Some clientOrders =>
      match clientOrders !! clientOrderId with
      | None => reject
      | Some old_order =>
          if (newClientOrderId =? 0) || (qty =? 0) then reject else
          o ← deref old_order;
          new_market_order_id ← fresh_market_id;
          remove old_order;;
          let a := {| a_tickerId := tickerId; a_clientId := clientId;
                      a_clientOrderId := newClientOrderId;
                      a_marketOrderId := new_market_order_id;
                      a_orderType := orderType; a_price := price;
                      a_initialQuantity := qty; a_side := o_side_ o;
                      a_orderToken := orderToken |} in
          sendClientResponse (replaced_response a);;
          sendMarketUpdate (modify_update a (o_marketOrderId_ o));;
          remaining_qty ← match_ a;
          if remaining_qty =? 0 then mret tt else
          match orderType with
          | GoodTillCancel => insert a remaining_qty
          | FillAndKill =>
              sendClientResponse (killed_response a remaining_qty);;
              sendMarketUpdate (killed_update a remaining_qty)
          end
      end
  end.
End map_book.
End MapOB.
