(* ===== verification/MapRefine.v ===== *)
(** * MapRefine: the map order book implements the abstract book

    [map_rep b ls sb]: the book [b] of [OrderBookMap] represents the abstract
    book [sb], the orders of side [s] being at the addresses [ls s].  Each
    operation of the implementation is shown to return without a fault, in a
    state that represents what the abstract operation computes, having sent
    the same messages. *)

From S2P Require Import Prelude Types BookSpec DList Memory StoreRep LevelMap Levels MatchLoop OrderBookMap.
Import MapOB.

Section map_refine.
Context {P : Type} `{ObjectPool P} `{!ObjectPoolLaws P}.
Variable freed_node : PriceLevel → PriceLevel.

Abbreviation state := (ctx P map_levels).
Implicit Types (b : book P map_levels) (sb : sbook) (ls : Side → list positive).

Definition map_rep b ls sb : Prop :=
  store_rep b ls sb ∧ ∀ s, side_ok (objects b) s (side_levels s (levels b)) (ls s).

(** ** Running the primitive operations *)

Lemma side_levels_on_side s s' f lv :
  side_levels s' (on_side s f lv) =
  if decide (s' = s) then f (side_levels s lv) else side_levels s' lv.
Proof. by destruct s, s'. Qed.

Definition read_level b (s : Side) (price : Price) : PriceLevel :=
  match lm_find price (side_levels s (levels b)) with
  | Some l => l
  | None => freed_node (erased_node (levels b))
  end.

Lemma level_read_ok b i s p :
  level_read freed_node s p (Ctx b i) = Ok (read_level b s p, Ctx b i).
Proof. done. Qed.

(** Levels after a write through the reference to an existing entry. *)
Lemma level_write_ok b i s p f m1 pl m2 :
  side_levels s (levels b) = m1 ++ (p, pl) :: m2 → lm_absent p m1 →
  ∃ lv', level_write s p f (Ctx b i) =
      Ok (tt, Ctx (Book (pool_ b) (objects b) (orders_ b) (nextMarketOrderId b) lv') i) ∧
    (∀ s', side_levels s' lv' =
       if decide (s' = s) then m1 ++ (p, f pl) :: m2 else side_levels s' (levels b)).
Proof.
  intros Hm Ha. exists (on_side s (lm_alter f p) (levels b)). split.
  - unfold level_write, mbind, M_bind, gets, modify. simpl.
    by rewrite Hm, lm_find_split.
  - intros s'. rewrite side_levels_on_side, Hm. by rewrite lm_alter_split.
Qed.

Lemma level_erase_ok b i s p m1 pl m2 :
  side_levels s (levels b) = m1 ++ (p, pl) :: m2 → lm_absent p m1 →
  ∃ lv', level_erase s p (Ctx b i) =
      Ok (tt, Ctx (Book (pool_ b) (objects b) (orders_ b) (nextMarketOrderId b) lv') i) ∧
    (∀ s', side_levels s' lv' =
       if decide (s' = s) then m1 ++ m2 else side_levels s' (levels b)) ∧
    erased_node lv' = pl.
Proof.
  intros Hm Ha. exists (note_erased pl (on_side s (lm_erase p) (levels b))). split_and!; [| |done].
  - unfold level_erase, mbind, M_bind, gets, modify. simpl.
    by rewrite Hm, lm_find_split.
  - intros s'. change (side_levels s' (note_erased ?pl ?lv)) with (side_levels s' lv).
    rewrite side_levels_on_side, Hm. by rewrite lm_erase_split.
Qed.

(** The level that results from a sequence of writes, seen from all sides. *)
Abbreviation with_side lv s m :=
  (λ s', if decide (s' = s) then m else side_levels s' lv).

Lemma level_at_present b i s p m1 pl m2 :
  side_levels s (levels b) = m1 ++ (p, pl) :: m2 → Forall (λ e, better s e.1 p = true) m1 →
  level_at s p (Ctx b i) = Ok (tt, Ctx b i).
Proof.
  intros Hm Hb. unfold level_at, modify, set_levels. simpl. repeat f_equal.
  destruct b as [pool h ix n [asks bids er]]. simpl in *.
  destruct s; simpl in *; subst; by rewrite lm_subscript_present.
Qed.

(** The first link update of [remove]: the predecessor, or the level head. *)
Lemma unlink_prev_ok b i s p (prev next : option positive) m1 pl m2 :
  side_levels s (levels b) = m1 ++ (p, pl) :: m2 → lm_absent p m1 →
  (∀ q, prev = Some q → is_Some (objects b !! q)) →
  ∃ lv', match prev with
    | Some _ => wr (set_next next) prev
    | None => level_write s p (pl_set_head next)
    end (Ctx b i) =
    Ok (tt, Ctx (Book (pool_ b)
          match prev with Some q => alter (set_next next) q (objects b) | None => objects b end
          (orders_ b) (nextMarketOrderId b) lv') i) ∧
    ∀ s', side_levels s' lv' = with_side (levels b) s
      (m1 ++ (p, match prev with Some _ => pl | None => pl_set_head next pl end) :: m2) s'.
Proof.
  intros Hm Ha Hq. destruct prev as [q|].
  - destruct (Hq q eq_refl) as [o Ho]. exists (levels b). split; [by apply (wr_ok _ _ _ _ o)|].
    intros s'. case_decide; by subst.
  - by eapply level_write_ok.
Qed.

(** The second one: the successor, or the level tail. *)
Lemma unlink_next_ok b i s p (prev next : option positive) m1 pl m2 :
  side_levels s (levels b) = m1 ++ (p, pl) :: m2 → lm_absent p m1 →
  (∀ q, next = Some q → is_Some (objects b !! q)) →
  ∃ lv', match next with
    | Some _ => wr (set_prev prev) next
    | None => level_write s p (pl_set_tail prev)
    end (Ctx b i) =
    Ok (tt, Ctx (Book (pool_ b)
          match next with Some q => alter (set_prev prev) q (objects b) | None => objects b end
          (orders_ b) (nextMarketOrderId b) lv') i) ∧
    ∀ s', side_levels s' lv' = with_side (levels b) s
      (m1 ++ (p, match next with Some _ => pl | None => pl_set_tail prev pl end) :: m2) s'.
Proof.
  intros Hm Ha Hq. destruct next as [q|].
  - destruct (Hq q eq_refl) as [o Ho]. exists (levels b). split; [by apply (wr_ok _ _ _ _ o)|].
    intros s'. case_decide; by subst.
  - by eapply level_write_ok.
Qed.

(** The conditional erase of an emptied level. *)
Lemma erase_if_empty_ok b i s p m1 pl m2 :
  side_levels s (levels b) = m1 ++ (p, pl) :: m2 → lm_absent p m1 → lm_absent p m2 →
  ∃ lv', when (bool_decide (pl_head pl = None)) (level_erase s p) (Ctx b i) =
      Ok (tt, Ctx (Book (pool_ b) (objects b) (orders_ b) (nextMarketOrderId b) lv') i) ∧
    (∀ s', side_levels s' lv' = with_side (levels b) s
       (m1 ++ match pl_head pl with None => [] | Some _ => [(p, pl)] end ++ m2) s') ∧
    (pl_head pl = None → lm_find p (side_levels s lv') = None ∧ erased_node lv' = pl).
Proof.
  intros Hm Ha Ha2. destruct (pl_head pl) as [l|] eqn:Hh; simpl.
  - exists (levels b). destruct b. split_and!; [done| |done].
    intros s'. case_decide; by subst.
  - destruct (level_erase_ok b i _ _ _ _ _ Hm Ha) as (lv' & Hrun & Hs & He).
    exists lv'. split_and!; [done|done|]. intros _. split; [|done].
    rewrite Hs, decide_True by done. apply lm_find_absent, Forall_app; auto.
Qed.

(** ** [remove] *)

Lemma remove_run b i l v m1 pl m2 :
  let s := o_side_ v in let p := o_price_ v in
  let pl' := unlinked_level (o_prev_ v) (o_next_ v) pl in
  objects b !! l = Some v → side_levels s (levels b) = m1 ++ (p, pl) :: m2 →
  lm_sorted s (side_levels s (levels b)) →
  o_prev_ v ≠ Some l → o_next_ v ≠ Some l →
  (∀ q, o_prev_ v = Some q → is_Some (objects b !! q)) →
  (∀ q, o_next_ v = Some q → is_Some (objects b !! q)) →
  ∃ lv', remove freed_node l (Ctx b i) =
      Ok (tt, Ctx (Book (pool_deallocate l (pool_ b))
            (delete l (unlink (objects b) (o_prev_ v) (o_next_ v)))
            (index_erase (o_clientId_ v) (o_clientOrderId_ v) (orders_ b))
            (nextMarketOrderId b) lv') i) ∧
    (∀ s', side_levels s' lv' = with_side (levels b) s
       (m1 ++ match pl_head pl' with None => [] | Some _ => [(p, pl')] end ++ m2) s') ∧
    (pl_head pl' = None → lm_find p (side_levels s lv') = None ∧ erased_node lv' = pl').
Proof.
  intros s p pl' Hv Hm Hsort Hpl Hnl Hpa Hna.
  rewrite Hm in Hsort. apply lm_sorted_app in Hsort as (_ & _ & Hb1 & Hb2).
  pose proof (absent_better _ _ _ Hb1) as Ha1. pose proof (absent_worse _ _ _ Hb2) as Ha2.
  unfold remove.
  erewrite bind_ok by (by apply rd_ok). erewrite bind_ok by (by apply rd_ok).
  erewrite bind_ok by (by eapply level_at_present).
  erewrite bind_ok by (by apply rd_ok). erewrite bind_ok by (by apply rd_ok).
  destruct (unlink_prev_ok b i s p (o_prev_ v) (o_next_ v) m1 pl m2)
    as (lv1 & Hr1 & Hlv1); [done..|].
  erewrite bind_ok by exact Hr1.
  match goal with |- context [Ctx (Book _ ?h' _ _ _) i] => set (h1 := h') end.
  assert (Hv1 : h1 !! l = Some v).
  { unfold h1. destruct (o_prev_ v) as [q|]; [|done]. by rewrite lookup_alter_ne by congruence. }
  erewrite bind_ok by (by apply rd_ok). erewrite bind_ok by (by apply rd_ok).
  set (b1 := Book _ h1 _ _ _).
  destruct (unlink_next_ok b1 i s p (o_prev_ v) (o_next_ v) m1
    (match o_prev_ v with Some _ => pl | None => pl_set_head (o_next_ v) pl end) m2)
    as (lv2 & Hr2 & Hlv2); [|done| |].
  { simpl. by rewrite Hlv1, decide_True. }
  { intros q Hq. simpl. unfold h1. destruct (Hna q Hq) as [w Hw].
    destruct (o_prev_ v) as [q'|]; [|by eauto]. rewrite lookup_alter.
    case_decide; subst; rewrite Hw; eauto. }
  erewrite bind_ok by exact Hr2.
  match goal with |- context [Ctx (Book ?x1 ?h' ?x2 ?x3 lv2) i] =>
    set (h2 := h'); set (b2 := Book x1 h2 x2 x3 lv2) end.
  assert (Hv2 : h2 !! l = Some v).
  { unfold h2. destruct (o_next_ v) as [q|]; [|done].
    by rewrite lookup_alter_ne by congruence. }
  assert (Hm2 : side_levels s (levels b2) = m1 ++ (p, pl') :: m2).
  { simpl. by rewrite Hlv2, decide_True. }
  erewrite (bind_ok _ _ _ _ _ (level_read_ok b2 i s p)).
  assert (read_level b2 s p = pl') as ->.
  { unfold read_level. by rewrite Hm2, lm_find_split. }
  destruct (erase_if_empty_ok b2 i s p m1 pl' m2) as (lv3 & Hr3 & Hlv3 & He3); [done..|].
  erewrite bind_ok by exact Hr3.
  erewrite bind_ok by (by apply rd_ok). erewrite bind_ok by (by apply rd_ok).
  exists lv3. split_and!; [done| |done].
  intros s'. rewrite Hlv3. simpl. case_decide; [done|].
  rewrite Hlv2, decide_False by done. simpl. by rewrite Hlv1, decide_False.
Qed.

Lemma remove_ok b i ls sb l v l1 l2 :
  map_rep b ls sb → objects b !! l = Some v → ls (o_side_ v) = l1 ++ l :: l2 →
  ∃ b', remove freed_node l (Ctx b i) = Ok (tt, Ctx b' i) ∧
    map_rep b' (side_upd ls (o_side_ v) (l1 ++ l2)) (s_delete (key v) sb) ∧
    pool_capacity (pool_ b') = pool_capacity (pool_ b) ∧
    (Forall (λ k, ∃ o, objects b !! k = Some o ∧ o_price_ o ≠ o_price_ v) (l1 ++ l2) →
     lm_find (o_price_ v) (side_levels (o_side_ v) (levels b')) = None ∧
     pl_head (erased_node (levels b')) = None).
Proof.
  intros [Hr Hside] Hv Hls. set (s := o_side_ v) in *.
  assert (Hin : l ∈ ls s) by (rewrite Hls; set_solver).
  destruct (side_ok_node _ _ _ _ _ _ (Hside s) Hin Hv)
    as (m1 & pl & m2 & G1 & g1 & g2 & G2 & Hm & Hls' & HF1 & Hlev & HF2).
  assert (l1 = concat G1 ++ g1 ∧ l2 = g2 ++ concat G2) as [-> ->].
  { rewrite Hls in Hls'. pose proof (sr_nodup _ _ _ Hr s) as Hnd. rewrite Hls in Hnd.
    by eapply NoDup_split_unique. }
  destruct (concat_split_sides _ _ _ _ _ _ _ _ _ Hr Hls) as (HndG & HfrS & HfrO).
  pose proof Hlev as (_ & Hh & Ht & Hd & _).
  destruct (dlist_node _ _ _ _ _ Hd Hv) as [Hpv Hnx]; simpl in Hpv, Hnx.
  destruct (unlinked_level_ends _ _ _ _ Hh Ht) as [Hh' Ht'].
  destruct (remove_run b i l v m1 pl m2) as (lv' & Hrun & Hlv & Her);
    [done|done|apply (Hside s)| | | | |].
  { rewrite Hpv. intros ?%last_in. rewrite NoDup_app in HndG. set_solver. }
  { rewrite Hnx. intros ?%head_in. rewrite NoDup_app, NoDup_cons in HndG. set_solver. }
  { intros q. rewrite Hpv. intros ?%last_in. eapply dlist_alive; [exact Hd|set_solver]. }
  { intros q. rewrite Hnx. intros ?%head_in. eapply dlist_alive; [exact Hd|set_solver]. }
  eexists. split; [exact Hrun|].
  rewrite Hpv, Hnx in *. fold s in Hlv, Her.
  destruct (sr_split _ _ _ _ _ _ _ Hr Hls) as (o1 & w & o2 & Hs & Hlen & Hw & _).
  assert (w = v) as -> by congruence.
  rewrite (sr_delete _ _ _ _ _ _ _ _ _ _ Hr Hls Hv Hs Hlen).
  destruct (pool_deallocate_live l (pool_ b)) as [Hlive Hcap].
  { rewrite (sr_pool _ _ _ Hr). by eapply elem_of_dom_2. }
  split_and!; [split| |].
  - eapply sr_free; try done; simpl.
    + apply lookup_delete_eq.
    + intros k Hk. rewrite lookup_delete_ne by done. apply unlink_same_orders.
  - intros s0. simpl. rewrite Hlv. unfold side_upd. case_decide as Hs0; [subst s0|].
    + eapply removed_side_ok; try done. rewrite <-Hm. apply (Hside s).
    + eapply side_ok_frame; [|by apply Hside]. intros k Hk.
      apply unlink_frame. by eapply HfrO.
  - done.
  - intros Hpr. simpl. destruct (g1 ++ g2) as [|k g] eqn:Hg.
    + destruct Her as [He1 He2]; [done|]. rewrite He1, He2. done.
    + exfalso. assert (k ∈ g1 ++ g2) as Hk by (rewrite Hg; set_solver).
      rewrite Forall_forall in Hpr. destruct (Hpr k) as (o & Ho & Hne); [set_solver|].
      destruct Hlev as (_ & _ & _ & _ & HFp). rewrite Forall_forall in HFp.
      destruct (HFp k) as (o' & Ho' & Hp'); [set_solver|]. simpl in *. congruence.
Qed.

(** ** [insert] *)

(** A level just brought into being gets its first order. *)
Lemma append_first b i s p l m1 m2 :
  Forall (λ e, better s e.1 p = true) m1 → Forall (λ e, better s p e.1 = true) m2 →
  side_levels s (levels b) = m1 ++ m2 →
  ∃ lv' pl', append_to_level freed_node s p l (Ctx b i) =
      Ok (tt, Ctx (Book (pool_ b) (objects b) (orders_ b) (nextMarketOrderId b) lv') i) ∧
    (∀ s', side_levels s' lv' = with_side (levels b) s (m1 ++ (p, pl') :: m2) s') ∧
    pl_head pl' = Some l ∧ pl_tail pl' = Some l.
Proof.
  intros Hb1 Hb2 Hm. pose proof (absent_better _ _ _ Hb1) as Ha1.
  set (b1 := Book (pool_ b) (objects b) (orders_ b) (nextMarketOrderId b)
               (on_side s (lm_subscript s p) (levels b))).
  assert (Hm1 : ∀ s', side_levels s' (levels b1) =
    with_side (levels b) s (m1 ++ (p, PriceLevel_default) :: m2) s').
  { intros s'. simpl. rewrite side_levels_on_side, Hm. by rewrite lm_subscript_absent. }
  assert (Hm1s : side_levels s (levels b1) = m1 ++ (p, PriceLevel_default) :: m2).
  { by rewrite Hm1, decide_True. }
  unfold append_to_level. mgo tt (Ctx b1 i).
  mstep (level_read_ok b1 i s p).
  assert (read_level b1 s p = PriceLevel_default) as ->.
  { unfold read_level. by rewrite Hm1s, lm_find_split. }
  simpl. destruct (level_write_ok b1 i s p (pl_set_head (Some l)) m1 PriceLevel_default m2)
    as (lv2 & Hw2 & Hlv2); [done..|].
  mstep Hw2. set (b2 := Book _ _ _ _ lv2).
  destruct (level_write_ok b2 i s p (pl_set_tail (Some l)) m1
    (pl_set_head (Some l) PriceLevel_default) m2) as (lv3 & Hw3 & Hlv3); [|done|].
  { simpl. by rewrite Hlv2, decide_True. }
  exists lv3, (pl_set_tail (Some l) (pl_set_head (Some l) PriceLevel_default)).
  split_and!; [exact Hw3| |done|done].
  intros s'. rewrite Hlv3. simpl. case_decide; [done|].
  rewrite Hlv2, decide_False by done. by rewrite Hm1, decide_False.
Qed.

(** An order joins the tail of an existing level. *)
Lemma append_behind b i s p l m1 pl m2 g :
  Forall (λ e, better s e.1 p = true) m1 →
  side_levels s (levels b) = m1 ++ (p, pl) :: m2 →
  is_Some (objects b !! l) → l ∉ g → level_ok (objects b) (p, pl) g →
  ∃ lv', append_to_level freed_node s p l (Ctx b i) =
      Ok (tt, Ctx (Book (pool_ b) (appended (objects b) g l) (orders_ b)
                     (nextMarketOrderId b) lv') i) ∧
    (∀ s', side_levels s' lv' =
       with_side (levels b) s (m1 ++ (p, pl_set_tail (Some l) pl) :: m2) s').
Proof.
  intros Hb1 Hm [v Hv] Hl (Hne & Hh & Ht & Hd & _). simpl in *.
  pose proof (absent_better _ _ _ Hb1) as Ha1.
  destruct (last g) as [t|] eqn:Hlast; [|by apply last_None in Hlast].
  assert (Htl : t ≠ l) by (intros ->; by apply last_in in Hlast).
  destruct (dlist_alive _ _ _ Hd (last_in _ _ Hlast)) as [w Hw].
  unfold append_to_level.
  erewrite bind_ok by (by apply (level_at_present b i s p m1 pl m2)).
  mstep (level_read_ok b i s p).
  assert (read_level b s p = pl) as ->.
  { unfold read_level. by rewrite Hm, lm_find_split. }
  rewrite Hh, Ht. destruct g as [|x g]; [done|]. cbv iota beta delta [head].
  mstep (wr_ok _ _ _ _ _ Hv).
  erewrite bind_ok by (eapply wr_ok; simpl; by rewrite lookup_alter_ne).
  destruct (level_write_ok (Book (pool_ b) (appended (objects b) (x :: g) l) (orders_ b)
    (nextMarketOrderId b) (levels b)) i s p (pl_set_tail (Some l)) m1 pl m2)
    as (lv2 & Hw2 & Hlv2); [done..|].
  exists lv2. split; [|done]. unfold appended in Hw2 |- *. by rewrite Hlast in Hw2 |- *.
Qed.

(** Both cases of [append_to_level], for an order already in the heap. *)
Lemma append_run b i s p l o m1 m2 g :
  Forall (λ e, better s e.1 p = true) m1 → Forall (λ e, better s p e.1 = true) m2 →
  lm_sorted s (side_levels s (levels b)) →
  objects b !! l = Some o → o_next_ o = None → o_prev_ o = None → o_price_ o = p →
  NoDup g → l ∉ g →
  (g = [] ∧ side_levels s (levels b) = m1 ++ m2 ∨
   ∃ pl, side_levels s (levels b) = m1 ++ (p, pl) :: m2 ∧ level_ok (objects b) (p, pl) g) →
  ∃ lv' pl', append_to_level freed_node s p l (Ctx b i) =
      Ok (tt, Ctx (Book (pool_ b) (appended (objects b) g l) (orders_ b)
                     (nextMarketOrderId b) lv') i) ∧
    (∀ s', side_levels s' lv' = with_side (levels b) s (m1 ++ (p, pl') :: m2) s') ∧
    lm_sorted s (m1 ++ (p, pl') :: m2) ∧
    level_ok (appended (objects b) g l) (p, pl') (g ++ [l]).
Proof.
  intros Hb1 Hb2 Hsort Ho Hn Hp Hpr Hnd Hl [[-> Hm]|(pl & Hm & Hlev)].
  - destruct (append_first b i s p l m1 m2) as (lv' & pl' & Hrun & Hlv & Hh & Ht); [done..|].
    exists lv', pl'. split_and!; [exact Hrun|done| |].
    + apply lm_sorted_insert; [|done|done]. left. by rewrite <-Hm.
    + eapply appended_level_ok; try done. apply dlist_nil.
  - destruct (append_behind b i s p l m1 pl m2 g) as (lv' & Hrun & Hlv); [by eauto..|].
    destruct Hlev as (Hne & Hh & Ht & Hd & HF). simpl in *.
    exists lv', (pl_set_tail (Some l) pl). split_and!; [exact Hrun|done| |].
    + apply lm_sorted_insert; [|done|done]. right. exists pl. by rewrite <-Hm.
    + eapply appended_level_ok; try done. simpl. rewrite Hh. by destruct g.
Qed.

Lemma insert_ok b i ls sb a q :
  map_rep b ls sb →
  index_find (a_clientId a) (a_clientOrderId a) (orders_ b) = None →
  (size (objects b) < pool_capacity (pool_ b))%nat →
  ∃ b' ls', insert freed_node a q (Ctx b i) = Ok (tt, Ctx b' i) ∧
    map_rep b' ls' (s_insert a q sb) ∧
    pool_capacity (pool_ b') = pool_capacity (pool_ b).
Proof.
  intros [Hr Hside] Hix Hcap. set (s := a_side a). set (p := a_price a).
  destruct (side_ok_split _ _ _ _ p (Hside s))
    as (m1 & m2 & G1 & g & G2 & Hls & Hb1 & Hb2 & HF1 & HF2 & Hcase).
  destruct (allocate_ok b i (resting_order a q) (sr_pool _ _ _ Hr) Hcap)
    as (l & p' & Hal & Hfr & Hlive & Hc').
  set (h0 := <[l := resting_order a q]> (objects b)) in Hal.
  assert (Hnl : ∀ s', l ∉ ls s').
  { intros s' (?&?&?)%(sr_mem _ _ _ Hr). congruence. }
  pose proof (Hnl s) as Hnls. rewrite Hls in Hnls.
  pose proof (sr_nodup _ _ _ Hr s) as Hnd. rewrite Hls in Hnd.
  assert (Hfr0 : ∀ k, k ≠ l → h0 !! k = objects b !! k)
    by (intros; by apply lookup_insert_ne).
  set (b0 := Book p' h0 (orders_ b) (nextMarketOrderId b) (levels b)) in *.
  destruct (append_run b0 i s p l (resting_order a q) m1 m2 g)
    as (lv' & pl' & Hrun & Hlv & Hsort & Hlev); try done.
  { apply (Hside s). } { apply lookup_insert_eq. }
  { rewrite !NoDup_app in Hnd. naive_solver. } { set_solver. }
  { destruct Hcase as [?|(pl & Hm & Hlev)]; [by left|right]. exists pl. split; [done|].
    eapply level_ok_agree; [|exact Hlev]. intros k v Hk Hv. exists v.
    simpl. rewrite Hfr0; [done|set_solver]. }
  assert (Hg : Forall (λ l, ∃ o, objects b !! l = Some o ∧ o_price_ o = p) g).
  { destruct Hcase as [[-> _]|(pl & _ & (_ & _ & _ & _ & HF))]; [constructor|done]. }
  destruct (split_prices _ _ _ _ _ _ _ _ Hb1 Hb2 HF1 HF2 Hg) as [Hpr1 Hpr2].
  destruct (h_payload_insert (objects b) g l (resting_order a q) eq_refl) as (v & Hv & Hpv & Hag).
  eexists _, (side_upd ls s ((concat G1 ++ g) ++ l :: concat G2)).
  split_and!; [unfold insert; mstep Hal;
    mstep Hrun; reflexivity| |done].
  assert (Hfr1 : ∀ k, k ∉ g → k ≠ l → appended h0 g l !! k = objects b !! k).
  { intros k ??. rewrite appended_other, Hfr0 by done. done. }
  split.
  - eapply sr_insert; try done. by rewrite <-app_assoc.
  - intros s'. simpl. rewrite Hlv. unfold side_upd. case_decide as Hss; [subst s'|].
    + by eapply inserted_side_ok.
    + eapply side_ok_frame; [|by apply Hside]. intros k Hk.
      apply Hfr1; [|intros ->; by eapply Hnl].
      intros Hkg. assert (k ∈ ls s) as Hks by (rewrite Hls; set_solver).
      apply (sr_mem _ _ _ Hr) in Hk as (?&?&?), Hks as (?&?&?). congruence.
Qed.

(** ** [match] *)

Lemma map_rep_change b ls sb s l1 l l2 v v' o1 o2 :
  let b' := Book (pool_ b) (<[l := v']> (objects b)) (orders_ b)
              (nextMarketOrderId b) (levels b) in
  map_rep b ls sb → ls s = l1 ++ l :: l2 → objects b !! l = Some v →
  s_side s sb = o1 ++ payload v :: o2 → length o1 = length l1 →
  (∃ q, v' = set_remaining q v) →
  map_rep b' ls (s_set s (o1 ++ payload v' :: o2) sb).
Proof.
  intros b' [Hr Hside] Hls Hv Hs Hlen [q ->]. split.
  - eapply sr_change; try done; simpl.
    + apply lookup_insert_eq.
    + intros k Hk. by rewrite lookup_insert_ne.
  - intros s'. destruct (Hside s') as (Hso & gs & HF & Hgs). split; [done|].
    exists gs. split; [|done]. eapply levels_ok_agree; [|exact HF].
    intros k w _ Hw. simpl. rewrite lookup_insert. case_decide; [|eauto].
    subst. eexists. split; [done|]. by simplify_eq.
Qed.

Definition head_of b (s : Side) (p : Price) : option positive := pl_head (read_level b s p).

Lemma front_head b ls sb s lp o og orest :
  map_rep b ls sb → front head_of b sb s lp (o :: og) orest →
  ∃ l l0 v, ls s = l :: l0 ∧ head_of b s lp = Some l ∧
    objects b !! l = Some v ∧ payload v = o ∧ o_price_ v = lp ∧ o_side_ v = s.
Proof.
  intros [Hr Hside] Hf.
  pose proof (fr_level _ _ _ _ _ _ _ Hf) as HF. apply Forall_cons in HF as [Hlp _].
  destruct (side_head b ls sb s _ o _ Hr (Hside s) (fr_split _ _ _ _ _ _ _ Hf))
    as (l & l0 & v & pl & m2 & Hls & Hm & Hh & Hv & <- & Hsd).
  exists l, l0, v. split_and!; try done. unfold head_of, read_level. rewrite Hm, Hlp. simpl.
  by rewrite Z.eqb_refl.
Qed.

(** One round of the inner loop up to the removal of a filled order. *)
Lemma match_level_run a lp b i l v rem :
  let f := fill_of rem (next_match_id_ i) (payload v) in
  let v' := set_remaining (o_remainingQuantity_ v - f_qty f) v in
  let b1 := Book (pool_ b) (<[l := v']> (objects b)) (orders_ b)
              (nextMarketOrderId b) (levels b) in
  pl_head (read_level b (opposite (a_side a)) lp) = Some l → objects b !! l = Some v →
  o_price_ v = lp → 0 < rem < 2 ^ 32 → qty_ok v →
  match_level freed_node a lp rem (Ctx b i) =
  (when (o_remainingQuantity_ v' =? 0) (remove freed_node l);; mret (inl (f_left f)))
    (Ctx b1 (after_fill MapBook a f i)).
Proof.
  intros f v' b1 Hh Hv Hlp Hrem [Hq1 Hq2]. unfold match_level.
  mstep (level_read_ok b i _ lp). rewrite Hh.
  assert (negb (rem >? 0) = false) as -> by lia.
  mstep (rd_ok _ _ _ _ _ Hv).
  mgo (next_match_id_ i) (Ctx b (bump_match_id i)).
  mstep (wr_insert _ _ _ _ _ Hv).
  fold (f_qty f). rewrite !u32_small by (unfold f, fill_of; simpl; lia).
  change (rem - f_qty f) with (f_left f). fold v'.
  rewrite (bind_ok _ _ _ v' (Ctx b1 (bump_match_id i)))
    by (unfold deref; simpl; by rewrite lookup_insert_eq).
  do 3 (erewrite bind_ok by reflexivity).
  match goal with |- ?k ?s1 = _ ?s2 => replace s1 with s2; [done|] end.
  unfold set_io, after_fill, emit, bump_match_id. cbn [bk io sent next_match_id_].
  rewrite <-!app_assoc, <-Hlp. reflexivity.
Qed.

(** A read of an erased entry whose head was null when it was erased. *)
Hypothesis freed_head_null :
  ∀ l, pl_head l = None → pl_head (freed_node l) = None.

(** One round of the inner loop: the head order is filled and removed, or it
    is reduced and the taker is exhausted. *)
Lemma match_level_ok a lp b i ls sb o og orest rem :
  let s := opposite (a_side a) in
  let f := fill_of rem (next_match_id_ i) o in
  map_rep b ls sb → front head_of b sb s lp (o :: og) orest → 0 < rem < 2 ^ 32 → qty_ok o →
  ∃ b' ls',
    match_level freed_node a lp rem (Ctx b i) =
      Ok (inl (f_left f), Ctx b' (after_fill MapBook a f i)) ∧
    pool_capacity (pool_ b') = pool_capacity (pool_ b) ∧
    let og' := if o_remainingQuantity_ (f_after f) =? 0 then og else f_after f :: og in
    map_rep b' ls' (s_set s (og' ++ orest) sb) ∧
    front head_of b' (s_set s (og' ++ orest) sb) s lp og' orest.
Proof.
  intros s f Hrep Hf Hrem Hq.
  destruct (front_head _ _ _ _ _ _ _ _ Hrep Hf) as (l & l0 & v & Hls & Hh & Hv & <- & Hlp & Hsd).
  rewrite (match_level_run a lp b i l v rem Hh Hv Hlp Hrem Hq). fold f.
  set (v' := set_remaining _ v). set (b1 := Book _ (<[l := v']> _) _ _ _).
  change (f_after f) with (payload v').
  pose proof (fr_split _ _ _ _ _ _ _ Hf) as Hs.
  assert (Hrep1 : map_rep b1 ls (s_set s (payload v' :: og ++ orest) sb)).
  { apply (map_rep_change b ls sb s [] l l0 v v' [] (og ++ orest)); eauto. }
  assert (Hlp' : o_price_ v' = lp) by done.
  change (o_remainingQuantity_ (payload v')) with (o_remainingQuantity_ v').
  destruct (o_remainingQuantity_ v' =? 0) eqn:Hz; simpl.
  - destruct (remove_ok b1 (after_fill MapBook a f i) ls _ l v' [] l0 Hrep1)
      as (b' & Hrun & Hrep' & Hcap & Hempty).
    { simpl. apply lookup_insert_eq. } { change (o_side_ v') with (o_side_ v). by rewrite Hsd. }
    rewrite (sr_delete b1 ls _ s [] l l0 v' [] (og ++ orest)) in Hrep';
      [|apply Hrep1|exact Hls|apply lookup_insert_eq|by rewrite s_side_set_eq|done].
    rewrite s_set_set in Hrep'. eexists b', _. split_and!; [|done|exact Hrep'|].
    + unfold when. by mstep Hrun.
    + split; [by rewrite s_side_set_eq| |apply Hf|].
      * pose proof (fr_level _ _ _ _ _ _ _ Hf) as HF. by apply Forall_cons in HF as [_ ?].
      * intros ->. unfold head_of, read_level.
        change (o_side_ v') with (o_side_ v) in Hempty. rewrite Hlp', Hsd in Hempty.
        destruct Hempty as [-> He]; [|by apply freed_head_null].
        pose proof (sr_rest _ _ _ (proj1 Hrep1) s) as HR.
        rewrite s_side_set_eq, Hls in HR. apply Forall2_cons in HR as [_ HR].
        eapply (resting_prices_inv _ _ _ (λ x, x ≠ lp)); [exact HR|]. apply Hf.
  - exists b1, ls. split_and!; [done|done|done|].
    split; [by rewrite s_side_set_eq| |apply Hf|done].
    pose proof (fr_level _ _ _ _ _ _ _ Hf) as HF. apply Forall_cons in HF as [_ ?]. by constructor.
Qed.

(** The inner loop stops on an emptied level and on an exhausted taker. *)
Lemma match_level_exit a lp b i rem :
  pl_head (read_level b (opposite (a_side a)) lp) = None ∨ rem ≤ 0 →
  match_level freed_node a lp rem (Ctx b i) = Ok (inr rem, Ctx b i).
Proof.
  intros Hor. unfold match_level. mstep (level_read_ok b i _ lp).
  destruct (pl_head _) as [l|]; [|done]. destruct Hor as [?|?]; [done|].
  by assert (negb (rem >? 0) = true) as -> by lia.
Qed.

(** The price of the first entry, as [match] finds it at [begin()]. *)
Definition best_price b (s : Side) : option Price :=
  match side_levels s (levels b) with [] => None | (lp, _) :: _ => Some lp end.

Lemma match_ok a b i ls sb :
  map_rep b ls sb → Forall qty_ok (s_orders sb) → 0 ≤ a_initialQuantity a < 2 ^ 32 →
  let '(sb', i', rem) := s_match MapBook a sb i in
  ∃ b' ls', match_ freed_node a (Ctx b i) = Ok (rem, Ctx b' i') ∧ map_rep b' ls' sb' ∧
    pool_capacity (pool_ b') = pool_capacity (pool_ b).
Proof.
  intros Hrep HQ Hq. unfold match_.
  mgo (size (objects b)) (Ctx b i).
  eapply (match_loop_ok MapBook map_rep head_of best_price (match_level freed_node));
    [| | | |exact Hrep|exact HQ|exact Hq|].
  - intros. by apply match_level_exit.
  - intros. by eapply match_level_ok.
  - clear. intros b ls sb s [Hr Hside]. unfold best_price.
    pose proof (side_best b ls sb s _ Hr (Hside s)) as Hb.
    destruct (side_levels s (levels b)) as [|[lp pl] m2]; [done|].
    destruct Hb as (og & orest & Hne & ? & ? & ?). exists og, orest. split; [done|].
    by split.
  - clear. intros fuel a b i ls sb rem _. unfold match_step, best_price.
    mgo (side_levels (opposite (a_side a)) (levels b)) (Ctx b i).
    destruct (side_levels _ _) as [|[lp pl] m]; [done|].
    repeat (case_match; [done|]). done.
  - rewrite <-(sr_length _ _ _ _ (proj1 Hrep)). apply sr_size with sb, Hrep.
Qed.
End map_refine.
