(* ===== verification/MapTheorems.v ===== *)
(** * MapTheorems: the request handlers of the map book

    The map book discharges the interface of [BookCore], so its handlers
    implement the abstract requests: they return, and the responses and market
    updates they send are those of the specification. *)

From S2P Require Import Prelude Types BookSpec DList Memory StoreRep LevelMap Levels MatchLoop BookSpecFacts BookCore MatchingEngine OrderBookMap MapRefine.
Import MapOB.

Section map_core.
Context {P : Type} `{ObjectPool P} `{!ObjectPoolLaws P}.
Variable freed_node : PriceLevel → PriceLevel.

Definition map_core : BookCore P map_levels := {|
  core_match := match_ freed_node;
  core_insert := insert freed_node;
  core_remove := remove freed_node
|}.

Hypothesis freed_head_null :
  ∀ l, pl_head l = None → pl_head (freed_node l) = None.

Lemma map_rep_bump b ls sb : map_rep b ls sb → map_rep (bump_next b) ls (s_bump sb).
Proof.
  intros [[? ? ? ? ? ? Hn] Hside]. split; [|exact Hside].
  split; try done. simpl. by rewrite Hn.
Qed.

Definition map_core_laws : BookCoreLaws (H0 := map_core) MapBook P map_levels.
Proof.
  refine {| core_rep := map_rep; core_price := λ _, True |}.
  - by intros b ls sb [??].
  - exact map_rep_bump.
  - intros b ls sb s l1 l l2 w q o1 o2 Hr Hls Hl Hs Hlen.
    eapply map_rep_change; eauto.
  - intros. by eapply match_ok.
  - intros. by eapply insert_ok.
  - intros b i ls sb l w l1 l2 Hr Hl Hls.
    destruct (remove_ok freed_node b i ls sb l w l1 l2 Hr Hl Hls) as (b' & ? & ? & ? & _).
    by exists b'.
Defined.
End map_core.

(** The map book [b] represents the abstract book [sb]: its maps, lists, index,
    pool and counter are consistent with [sb], which is well formed and fits
    into the pool. *)
Definition map_book_rel {P} `{ObjectPool P} (b : book P map_levels) (sb : sbook) : Prop :=
  (∃ ls, map_rep b ls sb) ∧ s_wf sb ∧ (length (s_orders sb) ≤ pool_capacity (pool_ b))%nat.

(** A new book represents the empty book. *)
Lemma map_new_rel {P} `{ObjectPool P} `{!ObjectPoolLaws P} n :
  map_book_rel (map_new (P := P) n) s_empty.
Proof.
  split; [|split; [apply s_wf_empty|simpl; lia]]. exists (λ _, []). split.
  - split; simpl; try done.
    + intros _. constructor.
    + intros l s. split; [by intros ?%elem_of_nil|]. intros (o & Ho & _). by rewrite lookup_empty in Ho.
    + intros []; constructor.
    + by rewrite pool_new_live, dom_empty_L.
    + intros c id l. unfold index_find. rewrite lookup_empty. simpl. split; [done|].
      intros (o & Ho & _). by rewrite lookup_empty in Ho.
  - intros []; (split; [constructor|exists []; split; [constructor|done]]).
Qed.

(** ** The handlers *)

Section map_handlers.
Context {P : Type} `{ObjectPool P} `{!ObjectPoolLaws P}.
Variable freed_node : PriceLevel → PriceLevel.
Hypothesis freed_head_null : ∀ l, pl_head l = None → pl_head (freed_node l) = None.
Variables (b : book P map_levels) (i : engine_io) (sb : sbook).
Hypothesis Hrel : map_book_rel b sb.

Let core : BookCore P map_levels := map_core freed_node.
#[local] Existing Instance core.
#[local] Existing Instance map_core_laws.

Lemma map_add_ok tickerId clientId clientOrderId orderType price qty side token :
  (length (s_orders sb) < pool_capacity (pool_ b))%nat → 0 ≤ qty < 2 ^ 32 →
  s_find (clientId, clientOrderId) sb = None →
  let r := s_addOrder MapBook tickerId clientId clientOrderId orderType price qty side token sb i in
  ∃ b', addOrder freed_node tickerId clientId clientOrderId orderType price qty side token
      (Ctx b i) = Ok (tt, Ctx b' r.2) ∧ map_book_rel b' r.1 ∧
    pool_capacity (pool_ b') = pool_capacity (pool_ b).
Proof.
  intros Hlt Hq Hk.
  exact (core_add_ok (BookCoreLaws0 := map_core_laws freed_node freed_head_null)
    MapBook b i sb tickerId clientId clientOrderId orderType price qty side token Hrel Hlt I Hq Hk).
Qed.

Lemma map_cancel_ok tickerId clientId clientOrderId qty token :
  0 ≤ qty →
  let r := s_cancelOrder MapBook tickerId clientId clientOrderId qty token sb i in
  ∃ b', cancelOrder freed_node tickerId clientId clientOrderId qty token (Ctx b i) =
      Ok (tt, Ctx b' r.2) ∧ map_book_rel b' r.1 ∧
    pool_capacity (pool_ b') = pool_capacity (pool_ b).
Proof.
  intros Hq.
  exact (core_cancel_ok (BookCoreLaws0 := map_core_laws freed_node freed_head_null)
    MapBook b i sb tickerId clientId clientOrderId qty token Hrel Hq).
Qed.

Lemma map_replace_ok tickerId clientId clientOrderId newClientOrderId orderType price qty token :
  0 ≤ qty < 2 ^ 32 →
  s_find (clientId, newClientOrderId) (s_delete (clientId, clientOrderId) sb) = None →
  let r := s_replaceOrder MapBook tickerId clientId clientOrderId newClientOrderId orderType
             price qty token sb i in
  ∃ b', replaceOrder freed_node tickerId clientId clientOrderId newClientOrderId orderType price
      qty token (Ctx b i) = Ok (tt, Ctx b' r.2) ∧ map_book_rel b' r.1 ∧
    pool_capacity (pool_ b') = pool_capacity (pool_ b).
Proof.
  intros Hq Hk.
  exact (core_replace_ok (BookCoreLaws0 := map_core_laws freed_node freed_head_null)
    MapBook b i sb tickerId clientId clientOrderId newClientOrderId orderType price qty token
    Hrel I Hq Hk).
Qed.
End map_handlers.

(** ** The map book as the engine's order book *)

(** A handler call seen from the engine: the book it was called on and the
    engine state go in, both come out. *)
Definition call {P L} (m : M (ctx P L) unit) (b : book P L) (io : engine_io)
    : outcome (book P L * engine_io) :=
  match m (Ctx b io) with
  | Ok (_, c) => Ok (bk c, Memory.io c)
  | Fault f => Fault f
  end.

Section map_order_book.
Context {P : Type} `{ObjectPool P} `{!ObjectPoolLaws P}.
Variable freed_node : PriceLevel → PriceLevel.

Definition map_order_book : OrderBook (book P map_levels) := {|
  ob_new := map_new;
  ob_addOrder t c id ty p q s tok := call (addOrder freed_node t c id ty p q s tok);
  ob_cancelOrder t c id q tok := call (cancelOrder freed_node t c id q tok);
  ob_replaceOrder t c id id' ty p q tok := call (replaceOrder freed_node t c id id' ty p q tok)
|}.

Hypothesis freed_head_null : ∀ l, pl_head l = None → pl_head (freed_node l) = None.

Definition map_order_book_laws : OrderBookLaws (H := map_order_book) MapBook (book P map_levels).
Proof.
  refine {| ob_rel n b sb := map_book_rel b sb ∧ pool_capacity (pool_ b) = n;
            ob_price := λ _, True |}.
  - intros n. split; [apply map_new_rel|apply pool_new_capacity].
  - by intros n b sb [(_ & ? & _) _].
  - intros n b i sb t c id ty p q s tok [Hrel <-] Hlt _ Hq Hk r.
    destruct (map_add_ok freed_node freed_head_null b i sb Hrel t c id ty p q s tok Hlt Hq Hk)
      as (b' & Hrun & Hrel' & Hc). exists b'. simpl. unfold call. by rewrite Hrun.
  - intros n b i sb t c id q tok [Hrel <-] Hq r.
    destruct (map_cancel_ok freed_node freed_head_null b i sb Hrel t c id q tok Hq)
      as (b' & Hrun & Hrel' & Hc). exists b'. simpl. unfold call. by rewrite Hrun.
  - intros n b i sb t c id id' ty p q tok [Hrel <-] _ Hq Hk r.
    destruct (map_replace_ok freed_node freed_head_null b i sb Hrel t c id id' ty p q tok Hq Hk)
      as (b' & Hrun & Hrel' & Hc). exists b'. simpl. unfold call. by rewrite Hrun.
Defined.
End map_order_book.
