(* ===== verification/EngineMap.v ===== *)
(** * EngineMap: the exchange engine with the map order book

    What the matching engine guarantees when it is built with the map book, the
    default of [order_book.h]: every admissible sequence of requests is
    processed without a fault and announces exactly what the specification
    announces, and the books it leaves behind are sound. *)

From S2P Require Import Prelude Types BookSpec DList Memory StoreRep LevelMap Levels BookSpecFacts BookTime Soundness BookCore MatchingEngine Trades OrderBookMap MapRefine MapTheorems.
Import MapOB.

(** The requests of a run: fields in range, order ids never reused, and no more
    new orders per ticker than a pool holds. *)
Definition run_ready (price_ok : Price → Prop) (books n : nat) (rqs : list MEClientRequest)
    : Prop :=
  Forall (request_ok price_ok books) rqs ∧ NoDup (omap new_key rqs) ∧
  ∀ t, (new_load t rqs ≤ n)%nat.

Lemma run_ready_qty price_ok books n rqs :
  run_ready price_ok books n rqs → Forall (λ rq, 0 ≤ rq_qty_ rq < 2 ^ 32) rqs.
Proof. intros [HF _]. eapply Forall_impl; [exact HF|]. by intros rq (_ & ? & _). Qed.

(** ** The levels of a map book *)

(** No order without its level, no level without an order. *)
Record map_levels_sound {P} (b : book P map_levels) : Prop := {
  mls_level l o :
    objects b !! l = Some o →
    is_Some (lm_find (o_price_ o) (side_levels (o_side_ o) (levels b)));
  mls_no_empty s p pl :
    (p, pl) ∈ side_levels s (levels b) →
    ∃ l o, pl_head pl = Some l ∧ objects b !! l = Some o ∧
           o_price_ o = p ∧ o_side_ o = s ∧ o_prev_ o = None
}.

Lemma map_rep_sided {P} `{ObjectPool P} (b : book P map_levels) ls sb :
  map_rep b ls sb → sided b ls sb.
Proof. intros [Hr Hside]. split; [done|]. intros s. eauto. Qed.

Lemma map_rep_levels {P} `{ObjectPool P} (b : book P map_levels) ls sb :
  map_rep b ls sb → map_levels_sound b.
Proof.
  intros [Hr Hside]. split.
  - intros l o Ho. destruct (side_ok_node _ _ _ _ l o (Hside (o_side_ o)))
      as (m1 & pl & m2 & G1 & g1 & g2 & G2 & Hm & _);
      [apply (sr_mem _ _ _ Hr); eauto|done|].
    destruct (Hside (o_side_ o)) as [Hsort _]. rewrite Hm in *.
    apply lm_sorted_app in Hsort as (_ & _ & Hb1 & _).
    rewrite lm_find_split by (by eapply absent_better). eauto.
  - intros s p pl Hin. destruct (level_first b ls sb s _ p pl Hr (Hside s) Hin)
      as (l & o & ? & ? & ? & ? & ?). by exists l, o.
Qed.

(** ** The theorems *)

(** A short session: a resting sell, a buy that takes it and rests, a replace of
    what rests and a partial cancel. *)
Definition demo_token : OrderToken := replicate OUCH_TOKEN_LEN 65.

Definition demo_request (action : ClientRequestType) (client id id' : Z) (p q : Z) (s : Side)
    : MEClientRequest := {|
  rq_client_id_ := client; rq_client_order_id_ := id; rq_new_client_order_id_ := id';
  rq_price_ := p; rq_ticker_id_ := 0; rq_qty_ := q; rq_action_ := action;
  rq_type_ := GoodTillCancel; rq_side_ := s; rq_order_token_ := demo_token |}.

Definition demo_session : list MEClientRequest :=
  [ demo_request REQ_NEW 1 1 0 100 5 SELL; demo_request REQ_NEW 2 1 0 101 8 BUY;
    demo_request REQ_MODIFY 2 1 2 102 4 BUY; demo_request REQ_CANCEL 2 2 0 0 1 BUY ].

Lemma demo_ready (price_ok : Price → Prop) :
  price_ok 100 → price_ok 101 → price_ok 102 → run_ready price_ok 1 4 demo_session.
Proof.
  intros. split_and!.
  - repeat (apply Forall_cons; split); [..|constructor]; split_and!; simpl; try lia; auto.
  - apply (bool_decide_unpack _). vm_compute. exact I.
  - intros t. pose proof (new_load_le t demo_session). simpl in *. lia.
Qed.

Section engine_map.
Context {P : Type} `{ObjectPool P} `{!ObjectPoolLaws P}.
Variable freed_node : PriceLevel → PriceLevel.
Hypothesis freed_head_null : ∀ l, pl_head l = None → pl_head (freed_node l) = None.

#[local] Instance order_book : OrderBook (book P map_levels) := map_order_book freed_node.
#[local] Instance order_book_laws : OrderBookLaws MapBook (book P map_levels) :=
  map_order_book_laws freed_node freed_head_null.

Lemma map_run_ok books n rqs :
  run_ready (λ _, True) books n rqs →
  ∃ e, run_requests rqs (engine_new books n) = Ok e ∧
    engine_state e = engine_state (s_run MapBook rqs (s_engine_new books)) ∧
    Forall2 map_book_rel (ticker_order_book_ e)
      (ticker_order_book_ (s_run MapBook rqs (s_engine_new books))).
Proof.
  intros (Hrq & Hnd & Hload).
  destruct (run_ok MapBook n rqs (engine_new books n) (s_engine_new books)) as (e & Hrun & HF & Hio).
  - apply engine_new_rel.
  - simpl. by rewrite length_replicate.
  - by apply new_admissible.
  - exists e. split_and!; [done|done|]. eapply Forall2_impl; [exact HF|]. by intros b sb [? _].
Qed.

Lemma map_run_books books n rqs :
  run_ready (λ _, True) books n rqs → Z.of_nat (length rqs) + 1 < 2 ^ 64 →
  ∃ e, run_requests rqs (engine_new books n) = Ok e ∧
    ∀ t b, ticker_order_book_ e !! t = Some b → ∃ ls sb, map_rep b ls sb ∧ s_wf sb ∧ s_timed sb.
Proof.
  intros Hready Hlen. destruct (map_run_ok books n rqs Hready) as (e & Hrun & _ & HF).
  exists e. split; [done|]. intros t b Hb.
  destruct (Forall2_lookup_l _ _ _ _ _ HF Hb) as (sb & Hsb & ([ls Hrep] & _)).
  exists ls, sb. split; [done|].
  eapply (new_run_inv MapBook books n rqs t); [apply Hready|apply Hready| |done|exact Hsb].
  by eapply run_ready_qty.
Qed.
End engine_map.

(** C1: Built with the map book, a new engine processes without a fault every
    sequence of requests with listed tickers, quantities of 32 bits, fresh order
    ids and at most as many NEW requests per ticker, over the whole run, as its
    pool has slots: [processClientRequest] always returns, the responses, market
    updates and match ids are exactly those of the specification, message by
    message, and every book represents its abstract book.  A destroyed map node
    whose head was null is assumed to still read as null. *)
Theorem engine_map_refines {P : Type} `{ObjectPool P} `{!ObjectPoolLaws P}
    (freed_node : PriceLevel → PriceLevel) (books n : nat) (rqs : list MEClientRequest) :
  (∀ l, pl_head l = None → pl_head (freed_node l) = None) →
  run_ready (λ _, True) books n rqs →
  ∃ e, run_requests (H := map_order_book freed_node) rqs
         (engine_new (H := map_order_book freed_node) books n) = Ok e ∧
    engine_state e = engine_state (s_run MapBook rqs (s_engine_new books)) ∧
    Forall2 (map_book_rel (P := P)) (ticker_order_book_ e)
      (ticker_order_book_ (s_run MapBook rqs (s_engine_new books))).
Proof. intros Hnull. by apply map_run_ok. Qed.

Lemma engine_map_refines_witness :
  ∃ e, run_requests (H := map_order_book (P := SetPool.t) id) demo_session
         (engine_new (H := map_order_book id) 1 4) = Ok e ∧
    length (sent (engine_state e)) = 11%nat.
Proof.
  destruct (engine_map_refines (P := SetPool.t) id 1 4 demo_session (λ l Hl, Hl)
    (demo_ready _ I I I)) as (e & Hrun & Hio & _).
  exists e. split; [exact Hrun|]. rewrite Hio. vm_compute. reflexivity.
Defined.

(** C6: After any run of the map engine on requests with listed tickers,
    quantities of 32 bits, fresh order ids, at most as many NEW requests per
    ticker, over the whole run, as its pool has slots and fewer than 2^64 - 1
    requests, the memory of every book is consistent: the live addresses of the
    object pool are exactly the resting orders, the index [orders_] finds
    exactly them, each is on an existing level, no level is empty and the head
    of a level is an order at its price with no predecessor, and the
    [next_]/[prev_] links agree.  A destroyed map node whose head was null is
    assumed to still read as null. *)
Theorem engine_map_memory_sound {P : Type} `{ObjectPool P} `{!ObjectPoolLaws P}
    (freed_node : PriceLevel → PriceLevel) (books n : nat) (rqs : list MEClientRequest) :
  (∀ l, pl_head l = None → pl_head (freed_node l) = None) →
  run_ready (λ _, True) books n rqs → Z.of_nat (length rqs) + 1 < 2 ^ 64 →
  ∃ e, run_requests (H := map_order_book freed_node) rqs
         (engine_new (H := map_order_book freed_node) books n) = Ok e ∧
    ∀ t b, ticker_order_book_ e !! t = Some b → memory_sound b ∧ map_levels_sound (P := P) b.
Proof.
  intros Hnull Hready Hlen.
  destruct (map_run_books freed_node Hnull books n rqs Hready Hlen) as (e & Hrun & Hbooks).
  exists e. split; [done|]. intros t b Hb. destruct (Hbooks t b Hb) as (ls & sb & Hrep & _).
  split; [by eapply sided_memory, map_rep_sided|by eapply map_rep_levels].
Qed.

Lemma engine_map_memory_sound_witness :
  ∃ e, run_requests (H := map_order_book (P := SetPool.t) id) demo_session
         (engine_new (H := map_order_book id) 1 4) = Ok e ∧
    ∀ t b, ticker_order_book_ e !! t = Some b → memory_sound b ∧ map_levels_sound b.
Proof.
  exact (engine_map_memory_sound id 1 4 demo_session (λ l Hl, Hl) (demo_ready _ I I I) eq_refl).
Defined.

(** C5: After any run of the map engine on requests with listed tickers,
    quantities of 32 bits, fresh order ids, at most as many NEW requests per
    ticker, over the whole run, as its pool has slots and fewer than 2^64 - 1
    requests, the market of every book is sound: every resting order is a
    good-till-cancel order with a positive 32-bit remaining quantity, every bid
    is below every ask, and on a level the orders stand in the order they
    arrived, by market-order id.  A destroyed map node whose head was null is
    assumed to still read as null. *)
Theorem engine_map_market_sound {P : Type} `{ObjectPool P} `{!ObjectPoolLaws P}
    (freed_node : PriceLevel → PriceLevel) (books n : nat) (rqs : list MEClientRequest) :
  (∀ l, pl_head l = None → pl_head (freed_node l) = None) →
  run_ready (λ _, True) books n rqs → Z.of_nat (length rqs) + 1 < 2 ^ 64 →
  ∃ e, run_requests (H := map_order_book freed_node) rqs
         (engine_new (H := map_order_book freed_node) books n) = Ok e ∧
    ∀ t b, ticker_order_book_ e !! t = Some b → market_sound b.
Proof.
  intros Hnull Hready Hlen.
  destruct (map_run_books freed_node Hnull books n rqs Hready Hlen) as (e & Hrun & Hbooks).
  exists e. split; [done|]. intros t b Hb.
  destruct (Hbooks t b Hb) as (ls & sb & Hrep & Hw & Ht). by eapply sided_market; [apply map_rep_sided|..].
Qed.

Lemma engine_map_market_sound_witness :
  ∃ e, run_requests (H := map_order_book (P := SetPool.t) id) demo_session
         (engine_new (H := map_order_book id) 1 4) = Ok e ∧
    ∀ t b, ticker_order_book_ e !! t = Some b → market_sound b.
Proof.
  exact (engine_map_market_sound id 1 4 demo_session (λ l Hl, Hl) (demo_ready _ I I I) eq_refl).
Defined.

(** C19: The trades of a run of the map engine (listed tickers, quantities of 32
    bits, fresh order ids, at most as many NEW requests per ticker, over the
    whole run, as its pool has slots) carry the match ids 1, 2, 3, ... in the
    order they are announced, across all books (as 64-bit numbers): no id is
    skipped or used twice before the counter wraps.  A destroyed map node whose
    head was null is assumed to still read as null. *)
Theorem engine_map_match_ids {P : Type} `{ObjectPool P} `{!ObjectPoolLaws P}
    (freed_node : PriceLevel → PriceLevel) (books n : nat) (rqs : list MEClientRequest) :
  (∀ l, pl_head l = None → pl_head (freed_node l) = None) →
  run_ready (λ _, True) books n rqs →
  ∃ e, run_requests (H := map_order_book (P := P) freed_node) rqs
         (engine_new (H := map_order_book freed_node) books n) = Ok e ∧
    ∀ k u, trades (sent (engine_state e)) !! k = Some u →
           mu_match_id_ u = u64 (1 + Z.of_nat k).
Proof.
  intros Hnull Hready.
  destruct (map_run_ok freed_node Hnull books n rqs Hready) as (e & Hrun & Hio & _).
  exists e. split; [done|]. rewrite Hio. eapply (numbered_run books n); [apply Hready..|].
  by eapply run_ready_qty.
Qed.

Lemma engine_map_match_ids_witness :
  ∃ e, run_requests (H := map_order_book (P := SetPool.t) id) demo_session
         (engine_new (H := map_order_book id) 1 4) = Ok e ∧
    ∀ k u, trades (sent (engine_state e)) !! k = Some u → mu_match_id_ u = u64 (1 + Z.of_nat k).
Proof. exact (engine_map_match_ids id 1 4 demo_session (λ l Hl, Hl) (demo_ready _ I I I)). Defined.

(** A request whose ticker is not below the number of books makes
    [processClientRequest] index [ticker_order_book_] out of range: nothing
    checks the ticker before [operator[]]. *)
Theorem engine_unknown_ticker {B : Type} `{OrderBook B} (rq : MEClientRequest) (e : engine B) :
  (length (ticker_order_book_ e) ≤ Z.to_nat (rq_ticker_id_ rq))%nat →
  processClientRequest rq e = Fault OutOfRange.
Proof. intros Ht. unfold processClientRequest. by rewrite lookup_ge_None_2. Qed.

Lemma engine_unknown_ticker_witness :
  processClientRequest (H := map_order_book (P := SetPool.t) id)
    (demo_request REQ_NEW 1 1 0 100 5 SELL) (engine_new (H := map_order_book id) 0 4) =
  Fault OutOfRange.
Proof. apply engine_unknown_ticker. simpl. lia. Defined.
