(* ===== verification/MapClaims.v ===== *)
(** * MapClaims: the operations of the map book, one by one

    The contracts of [match], [addOrder], [cancelOrder] and [replaceOrder] of
    [order_book_map.cpp], for any book that represents an abstract book, and
    what happens when the allocator does not keep the bytes of an erased map
    node. *)

From S2P Require Import Prelude Types BookSpec DList Memory StoreRep LevelMap Levels BookSpecFacts BookTime BookCore MatchingEngine OrderBookMap MapRefine MapTheorems EngineMap.
Import MapOB.

(** ** A book with resting orders, for the witnesses *)

Definition demo_io : engine_io := {| next_match_id_ := 1; sent := [] |}.

(** Two sells at 100 and one at 101. *)
Definition demo_sbook : sbook :=
  let add c id p q r := s_addOrder MapBook 0 c id GoodTillCancel p q SELL demo_token r.1 r.2 in
  (add 1 3 101 7 (add 1 2 100 4 (add 1 1 100 5 (s_empty, demo_io)))).1.

Lemma demo_book_rel :
  ∃ b : book SetPool.t map_levels, map_book_rel b demo_sbook ∧ pool_capacity (pool_ b) = 4%nat.
Proof.
  assert (Hadd : ∀ (b : book SetPool.t map_levels) sb i c id p q,
    map_book_rel b sb → (length (s_orders sb) < pool_capacity (pool_ b))%nat → 0 ≤ q < 2 ^ 32 →
    s_find (c, id) sb = None →
    ∃ b' : book SetPool.t map_levels, map_book_rel b'
      (s_addOrder MapBook 0 c id GoodTillCancel p q SELL demo_token sb i).1 ∧
      pool_capacity (pool_ b') = pool_capacity (pool_ b)).
  { intros b sb i c id p q Hrel Hlt Hq Hk.
    destruct (map_add_ok Datatypes.id (λ l Hl, Hl) b i sb Hrel 0 c id GoodTillCancel p q SELL demo_token
      Hlt Hq Hk) as (b' & _ & ? & ?). by exists b'. }
  destruct (Hadd (map_new 4) s_empty demo_io 1 1 100 5) as (b1 & H1 & Hc1);
    [apply map_new_rel|simpl; lia|lia|done|].
  destruct (Hadd b1 _ (s_addOrder MapBook 0 1 1 GoodTillCancel 100 5 SELL demo_token s_empty demo_io).2
    1 2 100 4 H1) as (b2 & H2 & Hc2); [rewrite Hc1; vm_compute; lia|lia|by vm_compute|].
  destruct (Hadd b2 _ (let r := s_addOrder MapBook 0 1 1 GoodTillCancel 100 5 SELL demo_token s_empty demo_io in
      s_addOrder MapBook 0 1 2 GoodTillCancel 100 4 SELL demo_token r.1 r.2).2
    1 3 101 7 H2) as (b3 & H3 & Hc3); [rewrite Hc2, Hc1; vm_compute; lia|lia|by vm_compute|].
  exists b3. split; [exact H3|]. by rewrite Hc3, Hc2, Hc1.
Qed.

(** ** Matching *)

Section match_claims.
Context {P : Type} `{ObjectPool P} `{!ObjectPoolLaws P}.
Variable freed_node : PriceLevel → PriceLevel.
Hypothesis freed_head_null : ∀ l, pl_head l = None → pl_head (freed_node l) = None.

(** The executions of a call of [match], and the state it leaves. *)
Lemma map_match_fills (b : book P map_levels) (i : engine_io) (sb : sbook) (a : order_args) :
  map_book_rel b sb → 0 ≤ a_initialQuantity a < 2 ^ 32 →
  ∃ os' rem mid fs b' ls,
    s_sweep (a_side a) (a_price a) (a_initialQuantity a) (next_match_id_ i)
      (s_side (opposite (a_side a)) sb) = (os', rem, mid, fs) ∧
    match_ freed_node a (Ctx b i) =
      Ok (rem, Ctx b' {| next_match_id_ := mid; sent := sent i ++ (fs ≫= fill_events MapBook a) |}) ∧
    map_rep b' ls (s_set (opposite (a_side a)) os' sb).
Proof.
  intros ([ls Hrep] & Hw & _) Hq.
  pose proof (match_ok freed_node freed_head_null a b i ls sb Hrep (wf_qty_orders _ Hw) Hq) as Hm.
  unfold s_match in Hm. destruct (s_sweep _ _ _ _ _) as [[[os' rem] mid] fs].
  destruct Hm as (b' & ls' & Hrun & Hrep' & _). by exists os', rem, mid, fs, b', ls'.
Qed.
End match_claims.

(** C3: Price-time priority of [match] on any book that represents an abstract
    book.  The executions take the resting orders of the opposite side from the
    front, in priority order, each at a price the taker's limit reaches; an
    order is passed only once it is completely filled; and when something of the
    taker is left, nothing that is left on the opposite side crosses its limit.
    A destroyed map node whose head was null is assumed to still read as null.
    *)
Theorem map_match_priority {P : Type} `{ObjectPool P} `{!ObjectPoolLaws P}
    (freed_node : PriceLevel → PriceLevel) (b : book P map_levels) (i : engine_io) (sb : sbook)
    (a : order_args) :
  (∀ l, pl_head l = None → pl_head (freed_node l) = None) →
  map_book_rel b sb → 0 ≤ a_initialQuantity a < 2 ^ 32 →
  let os := s_side (opposite (a_side a)) sb in
  ∃ rem b' mid fs ls os',
    match_ freed_node a (Ctx b i) =
      Ok (rem, Ctx b' {| next_match_id_ := mid; sent := sent i ++ (fs ≫= fill_events MapBook a) |}) ∧
    map_rep b' ls (s_set (opposite (a_side a)) os' sb) ∧
    f_order <$> fs = take (length fs) os ∧
    Forall (λ f, no_cross (a_side a) (a_price a) (o_price_ (f_order f)) = false) fs ∧
    (∀ fs1 f fs2, fs = fs1 ++ f :: fs2 → fs2 ≠ [] → o_remainingQuantity_ (f_after f) = 0) ∧
    (0 < rem → Forall (λ o, no_cross (a_side a) (a_price a) (o_price_ o) = true) os').
Proof.
  intros Hnull Hrel Hq os. pose proof Hq as [Hq0 _].
  destruct (map_match_fills freed_node Hnull b i sb a Hrel Hq)
    as (os' & rem & mid & fs & b' & ls & Hsw & Hrun & Hrep).
  pose proof Hrel as (_ & Hw & _). pose proof (wf_qty _ Hw (opposite (a_side a))) as HQ.
  destruct (sweep_order _ _ _ _ _ _ _ _ _ (proj1 Hq) HQ Hsw) as (Hord & _ & Hfull).
  exists rem, b', mid, fs, ls, os'. split_and!; try done.
  - eapply Forall_impl; [exact (sweep_fills _ _ _ _ _ _ _ _ _ Hq0 HQ Hsw)|]. by intros f (_ & _ & ?).
  - intros Hpos. apply sorted_clear; [|by eapply sweep_stops].
    eapply thinned_sorted; [|by eapply swept_thinned, sweep_swept|by apply wf_sorted].
    intros x x' y y' (-> & _)%reduced_fields (-> & _)%reduced_fields. done.
Qed.

Definition demo_taker : order_args := {|
  a_tickerId := 0; a_clientId := 2; a_clientOrderId := 9; a_marketOrderId := 4;
  a_orderType := GoodTillCancel; a_price := 101; a_initialQuantity := 10; a_side := BUY;
  a_orderToken := demo_token |}.

Lemma map_match_priority_witness :
  ∃ (b b' : book SetPool.t map_levels) rem mid fs,
    match_ id demo_taker (Ctx b demo_io) =
      Ok (rem, Ctx b' {| next_match_id_ := mid; sent := fs ≫= fill_events MapBook demo_taker |}) ∧
    f_order <$> fs = take (length fs) (s_asks demo_sbook).
Proof.
  destruct demo_book_rel as (b & Hrel & _).
  destruct (map_match_priority id b demo_io demo_sbook demo_taker (λ l Hl, Hl) Hrel ltac:(simpl; lia))
    as (rem & b' & mid & fs & ls & os' & Hrun & _ & Hord & _).
  exists b, b', rem, mid, fs. split; [exact Hrun|exact Hord].
Defined.

(** C18: [match], on a book that represents an abstract book and for a 32-bit
    quantity, conserves quantity and respects 32-bit arithmetic: what the taker
    loses, the total executed and what the opposite side loses are the same
    number, every execution is of a positive quantity that the resting order
    had, and the side the taker is on is untouched.  A destroyed map node whose
    head was null is assumed to still read as null. *)
Theorem map_match_conserves {P : Type} `{ObjectPool P} `{!ObjectPoolLaws P}
    (freed_node : PriceLevel → PriceLevel) (b : book P map_levels) (i : engine_io) (sb : sbook)
    (a : order_args) :
  (∀ l, pl_head l = None → pl_head (freed_node l) = None) →
  map_book_rel b sb → 0 ≤ a_initialQuantity a < 2 ^ 32 →
  let opp := opposite (a_side a) in
  ∃ rem b' io' (fs : list fill) ls sb',
    match_ freed_node a (Ctx b i) = Ok (rem, Ctx b' io') ∧ map_rep b' ls sb' ∧
    sent io' = sent i ++ (fs ≫= fill_events MapBook a) ∧
    0 ≤ rem ≤ a_initialQuantity a ∧
    zsum f_qty fs = a_initialQuantity a - rem ∧
    zsum o_remainingQuantity_ (s_side opp sb') =
      zsum o_remainingQuantity_ (s_side opp sb) - zsum f_qty fs ∧
    s_side (a_side a) sb' = s_side (a_side a) sb ∧
    Forall (λ f, 0 < f_qty f ≤ o_remainingQuantity_ (f_order f) ∧ f_qty f < 2 ^ 32) fs.
Proof.
  intros Hnull Hrel Hq opp. pose proof Hq as [Hq0 _].
  destruct (map_match_fills freed_node Hnull b i sb a Hrel Hq)
    as (os' & rem & mid & fs & b' & ls & Hsw & Hrun & Hrep).
  pose proof Hrel as (_ & Hw & _). pose proof (wf_qty _ Hw opp) as HQ.
  destruct (sweep_conserves _ _ _ _ _ _ _ _ _ (proj1 Hq) HQ Hsw) as [Hr Hs].
  destruct (sweep_rem _ _ _ _ _ _ _ _ _ Hq0 HQ Hsw) as [Hr0 Hr1].
  eexists rem, b', _, fs, ls, _. split_and!; [exact Hrun|exact Hrep|done|done|done|..].
  - lia.
  - unfold opp. by rewrite s_side_set_eq.
  - by rewrite s_side_set_opp.
  - eapply Forall_impl; [exact (sweep_fills _ _ _ _ _ _ _ _ _ Hq0 HQ Hsw)|]. intros f (? & [? ?] & _). lia.
Qed.

Lemma map_match_conserves_witness :
  ∃ (b b' : book SetPool.t map_levels) rem io' fs,
    match_ id demo_taker (Ctx b demo_io) = Ok (rem, Ctx b' io') ∧ zsum f_qty fs = 10 - rem.
Proof.
  destruct demo_book_rel as (b & Hrel & _).
  destruct (map_match_conserves id b demo_io demo_sbook demo_taker (λ l Hl, Hl) Hrel
    ltac:(simpl; lia)) as (rem & b' & io' & fs & ls & sb' & Hrun & _ & _ & _ & Hsum & _).
  exists b, b', rem, io', fs. split; [exact Hrun|exact Hsum].
Defined.

(** ** The handlers *)

(** C17: On a book that represents an abstract book each of the three request
    handlers returns and implements its specification on every branch, for
    quantities of 32 bits.  [addOrder] with a free pool slot and an unused order
    id: the acceptance, the executions, then the rest of a good-till-cancel
    order goes on the book with an ADD update and the rest of a fill-and-kill
    order is cancelled.  [cancelOrder]: an unknown order and a quantity above
    what remains are rejected and change nothing, quantity 0 or the whole
    remainder takes the order off the book, a smaller quantity reduces it in
    place.  [replaceOrder] whose new id is not in use: an unknown order, a zero
    new id or a zero quantity is rejected and changes nothing; otherwise the old
    order leaves the book and the new one is matched at its new price and loses
    its time priority, its rest going on the book or being cancelled.  The
    resulting book represents the specified one.  A destroyed map node whose
    head was null is assumed to still read as null. *)
Theorem map_requests_refine {P : Type} `{ObjectPool P} `{!ObjectPoolLaws P}
    (freed_node : PriceLevel → PriceLevel) (b : book P map_levels) (i : engine_io) (sb : sbook)
    tickerId clientId clientOrderId newClientOrderId orderType price qty side token :
  (∀ l, pl_head l = None → pl_head (freed_node l) = None) →
  map_book_rel b sb → 0 ≤ qty < 2 ^ 32 →
  ((length (s_orders sb) < pool_capacity (pool_ b))%nat → s_find (clientId, clientOrderId) sb = None →
   let r := s_addOrder MapBook tickerId clientId clientOrderId orderType price qty side token sb i in
   ∃ b', addOrder freed_node tickerId clientId clientOrderId orderType price qty side token
           (Ctx b i) = Ok (tt, Ctx b' r.2) ∧ map_book_rel b' r.1) ∧
  (let r := s_cancelOrder MapBook tickerId clientId clientOrderId qty token sb i in
   ∃ b', cancelOrder freed_node tickerId clientId clientOrderId qty token (Ctx b i) =
           Ok (tt, Ctx b' r.2) ∧ map_book_rel b' r.1) ∧
  (s_find (clientId, newClientOrderId) (s_delete (clientId, clientOrderId) sb) = None →
   let r := s_replaceOrder MapBook tickerId clientId clientOrderId newClientOrderId orderType
              price qty token sb i in
   ∃ b', replaceOrder freed_node tickerId clientId clientOrderId newClientOrderId orderType price
           qty token (Ctx b i) = Ok (tt, Ctx b' r.2) ∧ map_book_rel b' r.1).
Proof.
  intros Hnull Hrel Hq. split_and!.
  - intros Hlt Hk r.
    destruct (map_add_ok freed_node Hnull b i sb Hrel tickerId clientId clientOrderId orderType price
      qty side token Hlt Hq Hk) as (b' & ? & ? & _). by exists b'.
  - intros r.
    destruct (map_cancel_ok freed_node Hnull b i sb Hrel tickerId clientId clientOrderId qty token
      (proj1 Hq)) as (b' & ? & ? & _). by exists b'.
  - intros Hk r.
    destruct (map_replace_ok freed_node Hnull b i sb Hrel tickerId clientId clientOrderId
      newClientOrderId orderType price qty token Hq Hk) as (b' & ? & ? & _). by exists b'.
Qed.

(** A fill-and-kill order that sweeps the demo book, a cancel of 2 of 5 shares,
    and a replacement. *)
Lemma map_requests_refine_witness :
  ∃ b b1 b2 b3 : book SetPool.t map_levels,
    addOrder id 0 2 9 FillAndKill 101 10 BUY demo_token (Ctx b demo_io) =
      Ok (tt, Ctx b1 (s_addOrder MapBook 0 2 9 FillAndKill 101 10 BUY demo_token demo_sbook demo_io).2) ∧
    (cancelOrder id 0 1 1 2 demo_token (Ctx b demo_io) =
      Ok (tt, Ctx b2 (s_cancelOrder MapBook 0 1 1 2 demo_token demo_sbook demo_io).2) ∧
     map_book_rel b2 (s_update (1, 1) (set_remaining 3) demo_sbook)) ∧
    replaceOrder id 0 1 1 4 GoodTillCancel 100 6 demo_token (Ctx b demo_io) =
      Ok (tt, Ctx b3 (s_replaceOrder MapBook 0 1 1 4 GoodTillCancel 100 6 demo_token
                        demo_sbook demo_io).2).
Proof.
  destruct demo_book_rel as (b & Hrel & Hcap).
  destruct (map_requests_refine id b demo_io demo_sbook 0 2 9 0 FillAndKill 101 10 BUY demo_token
    (λ l Hl, Hl) Hrel ltac:(lia)) as (Hadd & _ & _).
  destruct Hadd as (b1 & Hadd & _); [rewrite Hcap; vm_compute; lia|done|].
  destruct (map_requests_refine id b demo_io demo_sbook 0 1 1 0 FillAndKill 101 2 BUY demo_token
    (λ l Hl, Hl) Hrel ltac:(lia)) as (_ & (b2 & Hcancel & Hrel2) & _).
  destruct (map_requests_refine id b demo_io demo_sbook 0 1 1 4 GoodTillCancel 100 6 BUY demo_token
    (λ l Hl, Hl) Hrel ltac:(lia)) as (_ & _ & Hreplace).
  destruct Hreplace as (b3 & Hreplace & _); [by vm_compute|].
  exists b, b1, b2, b3. split; [exact Hadd|]. split; [split; [exact Hcancel|exact Hrel2]|exact Hreplace].
Defined.

(** ** Adding and cancelling *)

(** C20: On a book with a free pool slot, a good-till-cancel order with an
    unused order id and a positive 32-bit quantity that does not cross the book
    comes to rest unmatched, and cancelling it restores the book: after
    [addOrder] and [cancelOrder] of the same id the book represents the orders
    it held before, only the market-order counter has moved, and the messages
    are the acceptance, the ADD, the CANCEL of the whole quantity and its
    confirmation.  A destroyed map node whose head was null is assumed to still
    read as null. *)
Theorem map_add_cancel_roundtrip {P : Type} `{ObjectPool P} `{!ObjectPoolLaws P}
    (freed_node : PriceLevel → PriceLevel) (b : book P map_levels) (i : engine_io) (sb : sbook)
    tickerId clientId clientOrderId price qty side token :
  (∀ l, pl_head l = None → pl_head (freed_node l) = None) →
  map_book_rel b sb → (length (s_orders sb) < pool_capacity (pool_ b))%nat →
  0 < qty < 2 ^ 32 → s_find (clientId, clientOrderId) sb = None →
  clear_of side price (s_side (opposite side) sb) →
  ∃ b1 b2 i1 i2,
    addOrder freed_node tickerId clientId clientOrderId GoodTillCancel price qty side token
      (Ctx b i) = Ok (tt, Ctx b1 i1) ∧
    cancelOrder freed_node tickerId clientId clientOrderId 0 token (Ctx b1 i1) =
      Ok (tt, Ctx b2 i2) ∧
    map_book_rel b2 (s_bump sb) ∧
    ∃ a o, sent i2 = sent i ++ [Resp (accepted_response a); Upd (add_update a qty);
                                Upd (cancel_update tickerId o qty);
                                Resp (canceled_response tickerId clientId clientOrderId o qty)].
Proof.
  intros Hnull Hrel Hlt Hq Hk Hc.
  destruct (map_add_ok freed_node Hnull b i sb Hrel tickerId clientId clientOrderId GoodTillCancel
    price qty side token Hlt ltac:(lia) Hk) as (b1 & Hrun1 & Hrel1 & _).
  unfold s_addOrder in Hrun1, Hrel1. rewrite s_match_clear in Hrun1, Hrel1
    by (simpl; by rewrite s_side_bump).
  cbn [a_initialQuantity] in Hrun1, Hrel1.
  assert (Hpos : (qty >? 0) = true) by lia. rewrite Hpos in Hrun1, Hrel1.
  set (a := {| a_tickerId := _ |}) in *. cbn [fst snd] in Hrun1, Hrel1.
  set (i1 := emit _ _) in Hrun1.
  destruct (map_cancel_ok freed_node Hnull b1 i1 _ Hrel1 tickerId clientId clientOrderId 0 token
    ltac:(lia)) as (b2 & Hrun2 & Hrel2 & _).
  assert (Hf : s_find (clientId, clientOrderId) (s_insert a qty (s_bump sb)) =
    Some (resting_order a qty)).
  { apply s_find_exact; [apply Hrel1| |done]. rewrite s_insert_orders. constructor. }
  unfold s_cancelOrder in Hrun2, Hrel2. rewrite Hf in Hrun2, Hrel2.
  cbn [Z.eqb resting_order mkOrder o_remainingQuantity_] in Hrun2, Hrel2.
  assert (Hgt : (qty >? qty) = false) by lia. rewrite Hgt, Z.sub_diag in Hrun2, Hrel2.
  cbn [Z.eqb fst snd] in Hrun2, Hrel2.
  pose proof (s_delete_insert a qty (s_bump sb) (proj1 (s_find_none _ _) Hk)) as Hd.
  change (a_clientId a, a_clientOrderId a) with (clientId, clientOrderId) in Hd. rewrite Hd in Hrel2.
  exists b1, b2, i1. eexists. split_and!; [exact Hrun1|exact Hrun2|exact Hrel2|].
  exists a, (resting_order a qty). unfold i1, emit. simpl. by rewrite <-!app_assoc.
Qed.

Lemma map_add_cancel_roundtrip_witness :
  ∃ b b1 b2 : book SetPool.t map_levels, ∃ i1 i2,
    addOrder id 0 2 9 GoodTillCancel 99 10 BUY demo_token (Ctx b demo_io) = Ok (tt, Ctx b1 i1) ∧
    cancelOrder id 0 2 9 0 demo_token (Ctx b1 i1) = Ok (tt, Ctx b2 i2) ∧
    map_book_rel b2 (s_bump demo_sbook).
Proof.
  destruct demo_book_rel as (b & Hrel & Hcap).
  destruct (map_add_cancel_roundtrip id b demo_io demo_sbook 0 2 9 99 10 BUY demo_token
    (λ l Hl, Hl) Hrel) as (b1 & b2 & i1 & i2 & H1 & H2 & Hrel2 & _);
    [rewrite Hcap; vm_compute; lia|lia|done|repeat constructor|].
  exists b, b1, b2, i1, i2. split_and!; [exact H1|exact H2|exact Hrel2].
Defined.

(** C33: [match] reads the head of a map entry after [remove] has erased it.  If
    the allocator overwrites the freed node, here with a stale order pointer,
    the demo session dereferences a destroyed order: the result above depends
    on freed memory keeping its bytes. *)
Theorem map_match_use_after_free :
  run_requests (H := map_order_book (P := SetPool.t) (pl_set_head (Some 1%positive))) demo_session
    (engine_new (H := map_order_book (pl_set_head (Some 1%positive))) 1 4) = Fault DanglingDeref.
Proof. vm_compute. reflexivity. Qed.
