(* ===== verification/OrderBookVector.v ===== *)
(** * OrderBookVector: the vector order book, [src/src/engine/order_book/order_book_vector.cpp]

    [MEOrderBook] with one array slot per price on each side.  The slots of the
    prices that have orders are linked, best price first, from [best_bid_] and
    [best_ask_].  A [std::vector<PriceLevel>] is the finite map from index to
    slot, and a pointer to a level is the index of its slot in the vector of its
    side; an index the vector does not have is a fault.

    The book may be built without an engine ([matchingEngine_ == nullptr], as
    the unit tests do): then it sends nothing and takes no match ids.  The two
    copies of the code for the two sides, which differ in the direction of the
    comparisons only, are one definition here, with [better] or [no_cross]. *)

From S2P Require Import Prelude Types BookSpec DList Memory LevelMap.

Definition MAX_PRICE_LEVELS : Z := 256000.

Module VecOB.

Abbreviation level_vector := (gmap Z PriceLevel).

Record vec_levels := {
  bids_ : level_vector;
  asks_ : level_vector;
  best_bid_ : option Z;
  best_ask_ : option Z
}.

Definition side_vector (s : Side) (v : vec_levels) : level_vector :=
  match s with BUY => bids_ v | SELL => asks_ v end.

Definition best_level (s : Side) (v : vec_levels) : option Z :=
  match s with BUY => best_bid_ v | SELL => best_ask_ v end.

Definition on_side (s : Side) (f : level_vector → level_vector) (v : vec_levels) : vec_levels :=
  match s with
  | BUY => {| bids_ := f (bids_ v); asks_ := asks_ v; best_bid_ := best_bid_ v;
              best_ask_ := best_ask_ v |}
  | SELL => {| bids_ := bids_ v; asks_ := f (asks_ v); best_bid_ := best_bid_ v;
               best_ask_ := best_ask_ v |}
  end.

Definition with_best (s : Side) (p : option Z) (v : vec_levels) : vec_levels :=
  match s with
  | BUY => {| bids_ := bids_ v; asks_ := asks_ v; best_bid_ := p; best_ask_ := best_ask_ v |}
  | SELL => {| bids_ := bids_ v; asks_ := asks_ v; best_bid_ := best_bid_ v; best_ask_ := p |}
  end.

Section vector_book.
Context {P : Type} `{ObjectPool P}.
(** [matchingEngine_ != nullptr] *)
Variable matchingEngine_ : bool.

Abbreviation state := (ctx P vec_levels).
Abbreviation M := (M state).

(** The constructor: every slot knows its price. *)
Definition vec_new (maxLevels : Z) (size : nat) : book P vec_levels :=
  let slots := list_to_map ((λ p, (p, pl_set_price p PriceLevel_default)) <$> seqZ 0 maxLevels) in
  Book (pool_new size) ∅ ∅ 1
    {| bids_ := slots; asks_ := slots; best_bid_ := None; best_ask_ := None |}.

(** [level->field] and [level->field = v] *)
Definition lvl (s : Side) (p : Z) : M PriceLevel :=
  v ← gets (λ c, side_vector s (levels (bk c)));
  match v !! p with
  | Some l => mret l
  | None => raise OutOfRange
  end.

Definition lvl_set (s : Side) (p : Z) (f : PriceLevel → PriceLevel) : M unit :=
  lvl s p;; modify (set_levels (on_side s (alter f p))).

Definition get_best (s : Side) : M (option Z) := gets (λ c, best_level s (levels (bk c))).
Definition set_best (s : Side) (p : option Z) : M unit := modify (set_levels (with_best s p)).

(** The sends of this file, silent without an engine. *)
Definition sendClientResponse (r : MEClientResponse) : M unit :=
  when matchingEngine_ (Memory.sendClientResponse r).
Definition sendMarketUpdate (u : MEMarketUpdate) : M unit :=
  when matchingEngine_ (Memory.sendMarketUpdate u).

(** One step of the walk of [insertPricelevel]:
    [while (curr->next_ && curr->next_->price_ beats priceLevel->price_) curr = curr->next_;] *)
Definition walk_step (s : Side) (price : Price) (curr : Z) : M (Z + Z) :=
  c ← lvl s curr;
  match pl_next_ c with
  | None => mret (inr curr)
  | Some n =>
      nl ← lvl s n;
      mret (if better s (pl_price_ nl) price then inl n else inr curr)
  end.

(** [MEOrderBook::insertPricelevel] *)
Definition insertPricelevel (priceLevel : Z) (s : Side) : M unit :=
  best ← get_best s;
  match best with
  | None => set_best s (Some priceLevel)
  | Some b =>
      pl ← lvl s priceLevel;
      bl ← lvl s b;
      if better s (pl_price_ pl) (pl_price_ bl) then
        lvl_set s priceLevel (pl_set_next (Some b));;
        lvl_set s b (pl_set_prev (Some priceLevel));;
        set_best s (Some priceLevel)
      else
        n ← gets (λ c, size (side_vector s (levels (bk c))));
        curr ← loop (S n) (walk_step s (pl_price_ pl)) b;
        cl ← lvl s curr;
        lvl_set s priceLevel (pl_set_next (pl_next_ cl));;
        match pl_next_ cl with
        | Some nx => lvl_set s nx (pl_set_prev (Some priceLevel))
        | None => mret tt
        end;;
        lvl_set s curr (pl_set_next (Some priceLevel));;
        lvl_set s priceLevel (pl_set_prev (Some curr))
  end.

(** [MEOrderBook::removePriceLevel] *)
Definition removePriceLevel (priceLevel : Z) (s : Side) : M unit :=
  pl ← lvl s priceLevel;
  match pl_next_ pl with
  | Some n => lvl_set s n (pl_set_prev (pl_prev_ pl))
  | None => mret tt
  end;;
  pl ← lvl s priceLevel;
  match pl_prev_ pl with
  | Some p => lvl_set s p (pl_set_next (pl_next_ pl))
  | None => mret tt
  end;;
  pl ← lvl s priceLevel;
  best ← get_best s;
  when (bool_decide (best = Some priceLevel)) (set_best s (pl_next_ pl));;
  lvl_set s priceLevel (pl_set_next None);;
  lvl_set s priceLevel (pl_set_prev None);;
  lvl_set s priceLevel (pl_set_head None);;
  lvl_set s priceLevel (pl_set_tail None).

(** The middle part of [insert]: link the level when it is new, then the order
    to its tail. *)
Definition append_to_level (s : Side) (price : Price) (order : positive) : M unit :=
  pl ← lvl s price;
  when (bool_decide (pl_head pl = None)) (insertPricelevel price s);;
  pl ← lvl s price;
  match pl_head pl with
  | None =>
      lvl_set s price (pl_set_head (Some order));;
      lvl_set s price (pl_set_tail (Some order))
  | Some _ =>
      wr (set_prev (pl_tail pl)) (Some order);;
      wr (set_next (Some order)) (pl_tail pl);;
      lvl_set s price (pl_set_tail (Some order))
  end.

(** [MEOrderBook::insert] *)
Definition insert (a : order_args) (initialQuantity : Quantity) : M unit :=
  order ← allocate (resting_order a initialQuantity);
  append_to_level (a_side a) (a_price a) order;;
  modify (set_orders (index_set (a_clientId a) (a_clientOrderId a) order)).

(** [MEOrderBook::remove] *)
Definition remove (order : positive) : M unit :=
  let p := Some order in
  price ← rd o_price_ p;
  side ← rd o_side_ p;
  prev ← rd o_prev_ p;
  next ← rd o_next_ p;
  match prev with
  | Some _ => wr (set_next next) prev
  | None => lvl_set side price (pl_set_head next)
  end;;
  prev ← rd o_prev_ p;
  next ← rd o_next_ p;
  match next with
  | Some _ => wr (set_prev prev) next
  | None => lvl_set side price (pl_set_tail prev)
  end;;
  priceLevel ← lvl side price;
  when (bool_decide (pl_head priceLevel = None)) (removePriceLevel price side);;
  clientId ← rd o_clientId_ p;
  clientOrderId ← rd o_clientOrderId_ p;
  modify (set_orders (index_erase clientId clientOrderId));;
  deallocate order.

(** One iteration of the inner loop of [match]. *)
Definition match_level (a : order_args) (level : Z) (remainingQuantity : Quantity)
    : M (Quantity + Quantity) :=
  pl ← lvl (opposite (a_side a)) level;
  match pl_head pl with
  | None => mret (inr remainingQuantity)
  | Some restingOrder =>
      if negb (remainingQuantity >? 0) then mret (inr remainingQuantity) else
      restingQuantity ← rd o_remainingQuantity_ (Some restingOrder);
      let fill := Z.min remainingQuantity restingQuantity in
      matchId ← (if matchingEngine_ then nextMatchId else mret OrderId_INVALID);
      let remainingQuantity := u32 (remainingQuantity - fill) in
      wr (λ o, set_remaining (u32 (o_remainingQuantity_ o - fill)) o) (Some restingOrder);;
      o ← deref restingOrder;
      sendClientResponse (resting_response a o fill (pl_price_ pl) matchId);;
      sendClientResponse (aggressive_response a fill (pl_price_ pl) remainingQuantity matchId);;
      sendMarketUpdate (trade_update a o fill OrderId_INVALID);;
      when (o_remainingQuantity_ o =? 0) (remove restingOrder);;
      mret (inl remainingQuantity)
  end.

(** One iteration of the outer loop, which starts by fetching the best level. *)
Definition match_step (fuel : nat) (a : order_args) (remainingQuantity : Quantity)
    : M (Quantity + Quantity) :=
  level ← get_best (opposite (a_side a));
  match level with
  | None => mret (inr remainingQuantity)
  | Some level =>
      if negb (remainingQuantity >? 0) then mret (inr remainingQuantity) else
      pl ← lvl (opposite (a_side a)) level;
      if no_cross (a_side a) (a_price a) (pl_price_ pl) then mret (inr remainingQuantity) else
      r ← loop fuel (match_level a level) remainingQuantity;
      mret (inl r)
  end.

(** [MEOrderBook::match], with one more round than there are resting orders. *)
Definition match_ (a : order_args) : M Quantity :=
  n ← gets (λ c, size (objects (bk c)));
  loop (S n) (match_step (S n) a) (a_initialQuantity a).

(** [MEOrderBook::addOrder] *)
Definition addOrder (tickerId : TickerId) (clientId : ClientId) (clientOrderId : OrderId)
    (orderType : OrderType) (price : Price) (initialQuantity : Quantity) (side : Side)
    (orderToken : OrderToken) : M unit :=
  marketOrderId ← fresh_market_id;
  let a := {| a_tickerId := tickerId; a_clientId := clientId;
              a_clientOrderId := clientOrderId; a_marketOrderId := marketOrderId;
              a_orderType := orderType; a_price := price;
              a_initialQuantity := initialQuantity; a_side := side;
              a_orderToken := orderToken |} in
  sendClientResponse (accepted_response a);;
  remainingQuantity ← match_ a;
  when (remainingQuantity >? 0)
    match orderType with
    | GoodTillCancel =>
        insert a remainingQuantity;;
        sendMarketUpdate (add_update a remainingQuantity)
    | FillAndKill => sendClientResponse (killed_response a remainingQuantity)
    end.

(** [MEOrderBook::cancelOrder] *)
Definition cancelOrder (tickerId : TickerId) (clientId : ClientId) (clientOrderId : OrderId)
    (qty : Quantity) (orderToken : OrderToken) : M unit :=
  orders ← gets (λ c, orders_ (bk c));
  let reject := sendClientResponse
                  (unknown_order_response tickerId clientId clientOrderId orderToken) in
  match orders !! clientId with
  | None => reject
  | Some clientOrders =>
      match clientOrders !! clientOrderId with
      | None => reject
      | Some order =>
          o ← deref order;
          let canceledQty := if qty =? 0 then o_remainingQuantity_ o else qty in
          if canceledQty >? o_remainingQuantity_ o then
            sendClientResponse (excess_cancel_response tickerId clientId clientOrderId o)
          else
            wr (λ o, set_remaining (u32 (o_remainingQuantity_ o - canceledQty)) o) (Some order);;
            o ← deref order;
            sendMarketUpdate (cancel_update tickerId o canceledQty);;
            sendClientResponse
              (canceled_response tickerId clientId clientOrderId o (o_remainingQuantity_ o));;
            when (o_remainingQuantity_ o =? 0) (remove order)
      end
  end.

(** [MEOrderBook::replaceOrder] *)
Definition replaceOrder (tickerId : TickerId) (clientId : ClientId)
    (clientOrderId newClientOrderId : OrderId) (orderType : OrderType) (price : Price)
    (qty : Quantity) (orderToken : OrderToken) : M unit :=
  orders ← gets (λ c, orders_ (bk c));
  let reject := sendClientResponse
                  (unknown_order_response tickerId clientId clientOrderId orderToken) in
  match orders !! clientId with
  | None => reject
  | Some clientOrders =>
      match clientOrders !! clientOrderId with
      | None => reject
      | Some oldOrder =>
          if (newClientOrderId =? 0) || (qty =? 0) then reject else
          o ← deref oldOrder;
          newMarketOrderId ← fresh_market_id;
          remove oldOrder;;
          let a := {| a_tickerId := tickerId; a_clientId := clientId;
                      a_clientOrderId := newClientOrderId;
                      a_marketOrderId := newMarketOrderId;
                      a_orderType := orderType; a_price := price;
                      a_initialQuantity := qty; a_side := o_side_ o;
                      a_orderToken := orderToken |} in
          sendClientResponse (replaced_response a);;
          sendMarketUpdate (modify_update a (o_marketOrderId_ o));;
          remaining ← match_ a;
          when ((remaining >? 0) && bool_decide (orderType = GoodTillCancel)) (insert a remaining)
      end
  end.

(** The overloads without a token; [{}] is an array of zero bytes. *)
Definition addOrder_untokened (tickerId : TickerId) (clientId : ClientId) (clientOrderId : OrderId)
    (orderType : OrderType) (price : Price) (initialQuantity : Quantity) (side : Side) : M unit :=
  addOrder tickerId clientId clientOrderId orderType price initialQuantity side
    (replicate OUCH_TOKEN_LEN 0).

Definition cancelOrder_untokened (tickerId : TickerId) (clientId : ClientId)
    (clientOrderId : OrderId) : M unit :=
  cancelOrder tickerId clientId clientOrderId 0 (replicate OUCH_TOKEN_LEN 0).
End vector_book.
End VecOB.
