(* ===== verification/VecRefine.v ===== *)
(** * VecRefine: the vector order book implements the abstract book

    [vec_rep b ls sb] relates a vector book to the abstract book: below the
    level structure it is the relation of the map book ([store_rep] and
    [side_ok]); the active slots of each side's vector are linked in price
    order from the best one, and all other slots are in their initial state. *)

From S2P Require Import Prelude Types BookSpec DList Memory StoreRep LevelMap Levels MatchLoop OrderBookVector.
Import VecOB.

(** ** The vector of one side *)

Definition idle_slot (p : Z) : PriceLevel := pl_set_price p PriceLevel_default.

(** The slot of an active level holds the level's orders. *)
Definition active (V : level_vector) (e : Z * PriceLevel) : Prop :=
  ∃ pl, V !! e.1 = Some pl ∧ pl_head pl = pl_head e.2 ∧ pl_tail pl = pl_tail e.2.

Record vec_side (maxLevels : Z) (V : level_vector) (best : option Z) (m : level_map) : Prop := {
  vs_slots p : is_Some (V !! p) ↔ 0 ≤ p < maxLevels;
  vs_price p pl : V !! p = Some pl → pl_price_ pl = p;
  vs_active : Forall (active V) m;
  vs_linked : dlist V m.*1;
  vs_idle p pl : V !! p = Some pl → p ∉ m.*1 → pl = idle_slot p;
  vs_best : best = head m.*1
}.

(** What a slot holds apart from its links to other slots. *)
Definition slot_core (pl : PriceLevel) : Price * option positive * option positive :=
  (pl_price_ pl, pl_head pl, pl_tail pl).

Definition same_slots (V V' : level_vector) : Prop :=
  ∀ q, slot_core <$> V' !! q = slot_core <$> V !! q.

Lemma same_slots_alive V V' q : same_slots V V' → is_Some (V' !! q) ↔ is_Some (V !! q).
Proof. intros Hs. rewrite <-(fmap_is_Some slot_core), Hs. apply fmap_is_Some. Qed.

Lemma same_slots_lookup V V' q pl :
  same_slots V V' → V' !! q = Some pl → ∃ pl0, V !! q = Some pl0 ∧ slot_core pl0 = slot_core pl.
Proof.
  intros Hs Hq. specialize (Hs q). rewrite Hq in Hs. symmetry in Hs.
  apply fmap_Some in Hs as (pl0 & ? & ->). eauto.
Qed.

Lemma same_slots_link V pre x post : same_slots V (link_between V pre x post).
Proof.
  intros q. unfold link_between. destruct pre, post; rewrite ?lookup_alter;
    repeat case_decide; subst; by destruct (V !! _).
Qed.

Lemma same_slots_unlink V pre post : same_slots V (unlink V pre post).
Proof.
  intros q. unfold unlink. destruct pre, post; rewrite ?lookup_alter;
    repeat case_decide; subst; by destruct (V !! _).
Qed.

(** A change of the orders of one level. *)
Definition keeps_links (f : PriceLevel → PriceLevel) : Prop :=
  ∀ pl, pl_price_ (f pl) = pl_price_ pl ∧ pl_next_ (f pl) = pl_next_ pl ∧
        pl_prev_ (f pl) = pl_prev_ pl.

Lemma dlist_alter V f p ps : keeps_links f → dlist V ps → dlist (alter f p V) ps.
Proof.
  intros Hf. apply dlist_agree. intros q pl _ Hq. rewrite lookup_alter. case_decide; [subst|eauto].
  rewrite Hq. exists (f pl). by destruct (Hf pl) as (_ & ? & ?).
Qed.

Lemma active_same V V' e : same_slots V V' → active V e → active V' e.
Proof.
  intros Hs (pl & Hpl & Hh & Ht). specialize (Hs e.1). rewrite Hpl in Hs.
  apply fmap_Some in Hs as (pl' & Hpl' & Hc). injection Hc as _ Hh' Ht'.
  exists pl'. by rewrite <-Hh', <-Ht'.
Qed.

Lemma active_alter V f p m :
  lm_absent p m → Forall (active V) m → Forall (active (alter f p V)) m.
Proof.
  intros Ha HF. unfold lm_absent in Ha. rewrite Forall_forall in Ha, HF. apply Forall_forall.
  intros e He. destruct (HF e He) as (pl & ? & ?). exists pl.
  rewrite lookup_alter_ne; [done|]. specialize (Ha e He). congruence.
Qed.

Lemma active_self V f p pl pl' :
  V !! p = Some pl → pl_head (f pl) = pl_head pl' → pl_tail (f pl) = pl_tail pl' →
  active (alter f p V) (p, pl').
Proof. intros Hp Hh Ht. exists (f pl). simpl. by rewrite lookup_alter_eq, Hp. Qed.

Lemma absent_keys p (m : level_map) : lm_absent p m ↔ p ∉ m.*1.
Proof.
  unfold lm_absent. rewrite Forall_forall. split.
  - intros Ha ([p' pl] & -> & He)%list_elem_of_fmap. by apply (Ha _ He).
  - intros Hn e He <-. apply Hn. by apply list_elem_of_fmap_2.
Qed.

(** The orders of an active level change. *)
Lemma vec_side_set maxLevels V best m1 p pl pl' m2 f v :
  vec_side maxLevels V best (m1 ++ (p, pl) :: m2) → lm_absent p m1 → lm_absent p m2 →
  keeps_links f → V !! p = Some v → pl_head (f v) = pl_head pl' → pl_tail (f v) = pl_tail pl' →
  vec_side maxLevels (alter f p V) best (m1 ++ (p, pl') :: m2).
Proof.
  intros [Hsl Hpr Hac Hd Hid Hbest] Ha1 Ha2 Hf Hv Hh Ht. split.
  - intros q. rewrite <-Hsl. rewrite lookup_alter. case_decide; [subst|done].
    by rewrite fmap_is_Some.
  - intros q w. rewrite lookup_alter. case_decide; [subst|apply Hpr].
    intros (w0 & Hw0 & ->)%fmap_Some. destruct (Hf w0) as (-> & _). by apply Hpr.
  - apply Forall_app in Hac as [Hac1 Hac2]. apply Forall_cons in Hac2 as [_ Hac2].
    apply Forall_app; split; [by apply active_alter|]. constructor; [|by apply active_alter].
    by eapply active_self.
  - rewrite fmap_app, fmap_cons in *. by apply dlist_alter.
  - intros q w. rewrite fmap_app, fmap_cons in *. simpl in *. intros Hw Hq.
    rewrite lookup_alter_ne in Hw by set_solver. by apply Hid.
  - rewrite fmap_app, fmap_cons in *. done.
Qed.

(** A level joins the active ones. *)
Lemma vec_side_insert maxLevels V best m1 p pl' m2 f :
  vec_side maxLevels V best (m1 ++ m2) → NoDup (m1 ++ m2).*1 → p ∉ (m1 ++ m2).*1 →
  0 ≤ p < maxLevels → keeps_links f →
  (∀ v, pl_head v = None → pl_head (f v) = pl_head pl' ∧ pl_tail (f v) = pl_tail pl') →
  vec_side maxLevels (alter f p (link_between V (last m1.*1) p (head m2.*1)))
    (head (m1.*1 ++ p :: m2.*1)) (m1 ++ (p, pl') :: m2).
Proof.
  intros [Hsl Hpr Hac Hd Hid Hbest] Hnd Hni Hp Hf Hpl.
  pose proof (same_slots_link V (last m1.*1) p (head m2.*1)) as Hsame.
  set (V1 := link_between V (last m1.*1) p (head m2.*1)) in *.
  destruct (proj2 (Hsl p) Hp) as [v Hv]. pose proof (Hid p v Hv Hni) as ->.
  assert (is_Some (V1 !! p)) as [v1 Hv1] by (apply (same_slots_alive V V1 p Hsame); eauto).
  destruct (same_slots_lookup _ _ _ _ Hsame Hv1) as (v0 & Hv0 & Hcore).
  rewrite Hv in Hv0. injection Hv0 as <-. injection Hcore as _ Hh _. rewrite fmap_app in Hnd, Hni, Hd, Hid.
  split.
  - intros q. rewrite <-Hsl, <-(same_slots_alive V V1 q Hsame). rewrite lookup_alter.
    case_decide; [subst|done]. by rewrite fmap_is_Some.
  - intros q w. rewrite lookup_alter. case_decide; [subst|].
    + rewrite Hv1. intros [= <-]. destruct (Hf v1) as (-> & _).
      destruct (same_slots_lookup _ _ _ _ Hsame Hv1) as (v0 & Hv0' & Hc).
      injection Hc as <- _ _. by apply Hpr.
    + intros Hw. destruct (same_slots_lookup _ _ _ _ Hsame Hw) as (w0 & Hw0 & Hc).
      injection Hc as <- _ _. by apply Hpr.
  - assert (Hac1 : Forall (active V1) (m1 ++ m2))
      by (eapply Forall_impl; [exact Hac|]; intros e; by apply active_same).
    apply Forall_app in Hac1 as [Hac1 Hac2].
    assert (lm_absent p m1) by (apply absent_keys; set_solver).
    assert (lm_absent p m2) by (apply absent_keys; set_solver).
    apply Forall_app; split; [by apply active_alter|]. constructor; [|by apply active_alter].
    destruct (Hpl v1) as [??]; [done|]. by eapply active_self.
  - rewrite fmap_app, fmap_cons. apply dlist_alter; [done|]. apply dlist_insert; eauto.
  - intros q w. rewrite fmap_app, fmap_cons. simpl. intros Hw Hq.
    rewrite lookup_alter_ne in Hw by set_solver. unfold V1 in Hw.
    rewrite lookup_link_other in Hw; [apply Hid; [done|set_solver]|set_solver|..].
    + intros ?%last_in. set_solver.
    + intros ?%head_in. set_solver.
  - by rewrite fmap_app, fmap_cons.
Qed.

Definition cleared (pl : PriceLevel) : PriceLevel :=
  pl_set_tail None (pl_set_head None (pl_set_prev None (pl_set_next None pl))).

(** A level leaves the active ones. *)
Lemma vec_side_remove maxLevels V best m1 p pl m2 g :
  vec_side maxLevels V best (m1 ++ (p, pl) :: m2) → NoDup (m1 ++ (p, pl) :: m2).*1 →
  keeps_links g →
  vec_side maxLevels
    (alter cleared p (unlink (alter g p V) (last m1.*1) (head m2.*1)))
    (head (m1.*1 ++ m2.*1)) (m1 ++ m2).
Proof.
  intros [Hsl Hpr Hac Hd Hid Hbest] Hnd Hg. rewrite fmap_app, fmap_cons in *. simpl in *.
  set (V0 := alter g p V). set (V1 := unlink V0 (last m1.*1) (head m2.*1)).
  pose proof (same_slots_unlink V0 (last m1.*1) (head m2.*1)) as Hsame. fold V1 in Hsame.
  assert (Hp1 : (p ∉ m1.*1) ∧ p ∉ m2.*1).
  { rewrite NoDup_app, NoDup_cons in Hnd. set_solver. }
  assert (Hpr0 : ∀ q w, V0 !! q = Some w → pl_price_ w = q).
  { intros q w. unfold V0. rewrite lookup_alter. case_decide; [subst|apply Hpr].
    intros (w0 & Hw0 & ->)%fmap_Some. destruct (Hg w0) as (-> & _). by apply Hpr. }
  assert (Hpr1 : ∀ q w, V1 !! q = Some w → pl_price_ w = q).
  { intros q w Hw. destruct (same_slots_lookup _ _ _ _ Hsame Hw) as (w0 & Hw0 & Hc).
    injection Hc as <- _ _. by apply Hpr0. }
  split.
  - intros q. rewrite <-Hsl.
    assert (Hal : ∀ f (W : level_vector), is_Some (alter f p W !! q) ↔ is_Some (W !! q)).
    { intros f W. rewrite lookup_alter. case_decide; [|done]. subst. apply fmap_is_Some. }
    rewrite Hal, (same_slots_alive _ _ q Hsame). apply Hal.
  - intros q w. rewrite lookup_alter. case_decide; [subst|apply Hpr1].
    intros (w0 & Hw0 & ->)%fmap_Some. exact (Hpr1 _ w0 Hw0).
  - apply Forall_app in Hac as [Hac1 Hac2]. apply Forall_cons in Hac2 as [_ Hac2].
    assert (lm_absent p m1 ∧ lm_absent p m2) as [??] by (split; apply absent_keys; apply Hp1).
    apply active_alter; [by apply Forall_app|].
    apply (Forall_impl (active V0)); [|intros e; by apply active_same].
    apply Forall_app; split; by apply active_alter.
  - rewrite fmap_app. apply (dlist_frame V1).
    { intros q Hq. rewrite lookup_alter_ne; [done|set_solver]. }
    apply (dlist_unlink V0 m1.*1 p m2.*1); [done|]. by apply dlist_alter.
  - intros q w. rewrite fmap_app, lookup_alter. case_decide; [subst|].
    + intros (w0 & Hw0 & ->)%fmap_Some _. rewrite <-(Hpr1 _ _ Hw0). done.
    + intros Hw Hq. unfold V1, V0 in Hw.
      rewrite lookup_unlink_other, lookup_alter_ne in Hw; [apply Hid; [done|set_solver]|done|..].
      * intros ?%last_in. set_solver.
      * intros ?%head_in. set_solver.
  - by rewrite fmap_app.
Qed.

(** The state with the vector and the best pointer of one side replaced. *)
Definition vec_put (s : Side) (V : level_vector) (best : option Z) (lv : vec_levels) : vec_levels :=
  on_side s (λ _, V) (with_best s best lv).

Lemma side_vector_put s V best lv : side_vector s (vec_put s V best lv) = V.
Proof. by destruct s. Qed.
Lemma best_level_put s V best lv : best_level s (vec_put s V best lv) = best.
Proof. by destruct s. Qed.
Lemma side_vector_put_ne s s' V best lv :
  s' ≠ s → side_vector s' (vec_put s V best lv) = side_vector s' lv.
Proof. by destruct s, s'. Qed.
Lemma best_level_put_ne s s' V best lv :
  s' ≠ s → best_level s' (vec_put s V best lv) = best_level s' lv.
Proof. by destruct s, s'. Qed.
Lemma vec_put_put s V best V' best' lv :
  vec_put s V' best' (vec_put s V best lv) = vec_put s V' best' lv.
Proof. by destruct s. Qed.
Lemma vec_put_same s lv : vec_put s (side_vector s lv) (best_level s lv) lv = lv.
Proof. by destruct s, lv. Qed.
Lemma on_side_put s f V best lv : on_side s f (vec_put s V best lv) = vec_put s (f V) best lv.
Proof. by destruct s. Qed.
Lemma with_best_put s V best best' lv :
  with_best s best' (vec_put s V best lv) = vec_put s V best' lv.
Proof. by destruct s. Qed.

Section level_ops.
Context {P : Type} `{ObjectPool P} `{!ObjectPoolLaws P}.
Implicit Types (b : book P vec_levels) (s : Side) (V : level_vector).

(** The book [b] with the vector and best pointer of side [s] replaced. *)
Definition put b s V (best : option Z) : book P vec_levels :=
  Book (pool_ b) (objects b) (orders_ b) (nextMarketOrderId b) (vec_put s V best (levels b)).

Lemma put_same b s : put b s (side_vector s (levels b)) (best_level s (levels b)) = b.
Proof. unfold put. rewrite vec_put_same. by destruct b. Qed.

Lemma lvl_put b i s V best p pl :
  V !! p = Some pl → lvl s p (Ctx (put b s V best) i) = Ok (pl, Ctx (put b s V best) i).
Proof.
  intros Hp. unfold lvl, gets, mbind, M_bind. simpl. by rewrite side_vector_put, Hp.
Qed.

Lemma lvl_set_put b i s V best p f :
  is_Some (V !! p) →
  lvl_set s p f (Ctx (put b s V best) i) = Ok (tt, Ctx (put b s (alter f p V) best) i).
Proof.
  intros [pl Hp]. unfold lvl_set. mstep (lvl_put b i s V best p pl Hp).
  unfold modify, set_levels, put. simpl. by rewrite on_side_put.
Qed.

Lemma get_best_put b i s V best :
  get_best s (Ctx (put b s V best) i) = Ok (best, Ctx (put b s V best) i).
Proof. unfold get_best, gets. simpl. by rewrite best_level_put. Qed.

Lemma set_best_put b i s V best best' :
  set_best s best' (Ctx (put b s V best) i) = Ok (tt, Ctx (put b s V best') i).
Proof. unfold set_best, modify, set_levels, put. simpl. by rewrite with_best_put. Qed.

(** ** The walk to the place of a new level *)

Lemma walk_ok b i s V best p : ∀ fuel ps1 c ps2,
  dlist V (ps1 ++ c :: ps2) → (∀ q pl, V !! q = Some pl → pl_price_ pl = q) →
  StronglySorted (λ x y, better s x y = true) ps2 →
  (length ps2 < fuel)%nat →
  ∃ k1 k2, ps2 = k1 ++ k2 ∧ Forall (λ q, better s q p = true) k1 ∧
    Forall (λ q, better s q p = false) k2 ∧
    loop fuel (walk_step s p) c (Ctx (put b s V best) i) =
      Ok (default c (last k1), Ctx (put b s V best) i).
Proof.
  induction fuel as [|fuel IH]; intros ps1 c ps2 Hd Hpr Hs Hf; [lia|].
  destruct (Hd ps1 c ps2 eq_refl) as (cl & Hc & _ & Hn). simpl in Hn.
  assert (Hstep : walk_step s p c (Ctx (put b s V best) i) =
    match head ps2 with
    | None => Ok (inr c, Ctx (put b s V best) i)
    | Some n => Ok (if better s n p then inl n else inr c, Ctx (put b s V best) i)
    end).
  { unfold walk_step. rewrite (bind_ok _ _ _ _ _ (lvl_put b i s V best c cl Hc)), Hn.
    destruct ps2 as [|n ps2]; [done|]. simpl.
    destruct (Hd (ps1 ++ [c]) n ps2) as (nl & Hnl & _); [by rewrite <-app_assoc|].
    mstep (lvl_put b i s V best n nl Hnl). by rewrite (Hpr _ _ Hnl). }
  destruct ps2 as [|n ps2]; simpl in Hstep.
  { exists [], []. split_and!; [done|constructor|constructor|]. by apply loop_exit. }
  apply StronglySorted_inv in Hs as [Hs HF].
  destruct (better s n p) eqn:Hb.
  - destruct (IH (ps1 ++ [c]) n ps2) as (k1 & k2 & -> & H1 & H2 & Hrun);
      [by rewrite <-app_assoc|done|done|simpl in *; lia|].
    exists (n :: k1), k2. split_and!; [done|by constructor|done|].
    rewrite (loop_continue _ _ _ _ _ _ Hstep), Hrun.
    by destruct k1 using rev_ind; [|rewrite app_comm_cons, !last_snoc].
  - exists [], (n :: ps2). split_and!; [done|constructor| |].
    + constructor; [done|]. eapply Forall_impl; [exact HF|]. simpl. intros q Hq.
      destruct (better s q p) eqn:Hqp; [|done]. by rewrite (better_trans s n q p) in Hb.
    + by apply loop_exit.
Qed.

Lemma StronglySorted_nodup_head s (qs : list Z) z ps :
  StronglySorted (λ x y, better s x y = true) (qs ++ z :: ps) → head ps ≠ Some z.
Proof.
  intros Hs Hh. apply StronglySorted_app_1_r in Hs. apply StronglySorted_inv in Hs as [_ HF].
  apply head_in in Hh. rewrite Forall_forall in HF. specialize (HF _ Hh). simpl in HF.
  by rewrite better_irrefl in HF.
Qed.

(** The four writes that link a level behind [curr]. *)
Lemma link_behind_run b i s V best p curr cl :
  V !! curr = Some cl → V !! p = Some (idle_slot p) → p ≠ curr →
  pl_next_ cl ≠ Some p → pl_next_ cl ≠ Some curr →
  (∀ n, pl_next_ cl = Some n → is_Some (V !! n)) →
  (cl ← lvl s curr;
   lvl_set s p (pl_set_next (pl_next_ cl));;
   match pl_next_ cl with
   | Some nx => lvl_set s nx (pl_set_prev (Some p))
   | None => mret tt
   end;;
   lvl_set s curr (pl_set_next (Some p));;
   lvl_set s p (pl_set_prev (Some curr))) (Ctx (put b s V best) i) =
  Ok (tt, Ctx (put b s (link_between V (Some curr) p (pl_next_ cl)) best) i).
Proof.
  intros Hc Hp Hpc Hnp Hnc Hal. mstep (lvl_put b i s V _ curr cl Hc).
  mstep (lvl_set_put b i s V _ p _ (ex_intro _ _ Hp)).
  unfold link_between. destruct (pl_next_ cl) as [n|].
  - destruct (Hal n eq_refl) as [nl Hn].
    assert (n ≠ p) by congruence. assert (n ≠ curr) by congruence.
    erewrite bind_ok by (apply lvl_set_put; rewrite lookup_alter_ne by done; eauto).
    erewrite bind_ok by (apply lvl_set_put; rewrite !lookup_alter_ne by done; eauto).
    erewrite lvl_set_put
      by (rewrite !lookup_alter_ne, lookup_alter_eq by done; rewrite Hp; eauto).
    do 4 f_equal. apply map_eq. intros k. rewrite !lookup_alter.
    repeat case_decide; subst; try done. rewrite Hp. done.
  - mgo tt (Ctx (put b s (alter (pl_set_next None) p V) best) i).
    erewrite bind_ok by (apply lvl_set_put; rewrite lookup_alter_ne by done; eauto).
    erewrite lvl_set_put by (rewrite lookup_alter_ne, lookup_alter_eq by done; rewrite Hp; eauto).
    do 4 f_equal. apply map_eq. intros k. rewrite !lookup_alter.
    repeat case_decide; subst; try done. rewrite Hp. done.
Qed.

(** The vector after [insertPricelevel], in each of its three cases. *)
Lemma insert_level_run b i s V p ps1 ps2 :
  dlist V (ps1 ++ ps2) → (∀ q pl, V !! q = Some pl → pl_price_ pl = q) →
  StronglySorted (λ x y, better s x y = true) (ps1 ++ ps2) →
  V !! p = Some (idle_slot p) → p ∉ ps1 ++ ps2 →
  Forall (λ q, better s q p = true) ps1 → Forall (λ q, better s p q = true) ps2 →
  (length (ps1 ++ ps2) ≤ size V)%nat →
  insertPricelevel p s (Ctx (put b s V (head (ps1 ++ ps2))) i) =
    Ok (tt, Ctx (put b s (link_between V (last ps1) p (head ps2)) (head (ps1 ++ p :: ps2))) i).
Proof.
  intros Hd Hpr Hs Hp Hni H1 H2 Hlen. unfold insertPricelevel.
  mstep (get_best_put b i s V _).
  destruct ps1 as [|c ps1].
  - destruct ps2 as [|c ps2]; simpl.
    { rewrite set_best_put. f_equal. f_equal. f_equal. f_equal. unfold link_between.
      apply map_eq. intros k. rewrite lookup_alter. case_decide as Hk; [|done]. subst k.
      rewrite Hp. done. }
    destruct (Hd [] c ps2 eq_refl) as (cl & Hc & _).
    mstep (lvl_put b i s V _ p _ Hp).
    mstep (lvl_put b i s V _ c cl Hc). rewrite (Hpr _ _ Hc).
    apply Forall_cons in H2 as [Hb _]. simpl. rewrite Hb.
    mstep (lvl_set_put b i s V _ p _ (ex_intro _ _ Hp)).
    assert (p ≠ c) by set_solver.
    erewrite bind_ok by (apply lvl_set_put; rewrite lookup_alter_ne by done; eauto).
    rewrite set_best_put. f_equal. f_equal. f_equal. f_equal. unfold link_between.
    apply map_eq. intros k. rewrite !lookup_alter. repeat case_decide; subst; try done.
    rewrite Hp. done.
  - simpl. destruct (Hd [] c (ps1 ++ ps2) eq_refl) as (cl & Hc & _).
    mstep (lvl_put b i s V _ p _ Hp).
    mstep (lvl_put b i s V _ c cl Hc). rewrite (Hpr _ _ Hc).
    apply Forall_cons in H1 as [Hb H1]. simpl. rewrite (better_asym _ _ _ Hb).
    rewrite (bind_ok _ _ _ (size V) (Ctx (put b s V (Some c)) i))
      by (unfold gets; simpl; by rewrite side_vector_put).
    pose proof Hs as Hs0. apply StronglySorted_inv in Hs as [Hs _].
    destruct (walk_ok b i s V (Some c) p (S (size V)) [] c (ps1 ++ ps2) Hd Hpr Hs)
      as (k1 & k2 & Heq & Hk1 & Hk2 & Hrun); [simpl in *; lia|].
    destruct (split_by_unique (λ q, better s q p) ps1 ps2 k1 k2) as [<- <-]; try done.
    { eapply Forall_impl; [exact H2|]. intros q. apply better_asym. }
    mstep Hrun.
    assert (∃ qs z, c :: ps1 = qs ++ [z] ∧ default c (last ps1) = z) as (qs & z & Hz & ->).
    { destruct ps1 as [|x ps1 _] using rev_ind; [by exists [], c|].
      exists (c :: ps1), x. by rewrite last_snoc. }
    rewrite Hz, last_snoc. rewrite Hz, <-app_assoc in Hd, Hni, Hs0.
    destruct (Hd qs z ps2 eq_refl) as (zl & Hzl & _ & Hn). simpl in Hn. rewrite <-Hn.
    apply link_behind_run; [done|done|set_solver|rewrite Hn..].
    + intros ?%head_in. set_solver.
    + intros Hh. by apply (StronglySorted_nodup_head s qs z ps2).
    + intros n ?%head_in. eapply dlist_alive; [exact Hd|set_solver].
Qed.

(** ** Taking a level out *)

Lemma unlink_alive V ps1 p ps2 q :
  is_Some (V !! q) → is_Some (unlink V (last ps1) (head ps2) !! q) ∧
  (NoDup (ps1 ++ p :: ps2) → q = p → unlink V (last ps1) (head ps2) !! q = V !! q).
Proof.
  intros [pl Hq]. split.
  - unfold unlink. destruct (last ps1), (head ps2); rewrite ?lookup_alter;
      repeat case_decide; subst; rewrite ?Hq; simpl; eauto.
  - intros Hnd ->. apply lookup_unlink_other.
    + intros ?%last_in. rewrite NoDup_app in Hnd. set_solver.
    + intros ?%head_in. rewrite NoDup_app, NoDup_cons in Hnd. set_solver.
Qed.

Lemma remove_level_run b i s V p ps1 ps2 :
  NoDup (ps1 ++ p :: ps2) → dlist V (ps1 ++ p :: ps2) →
  removePriceLevel p s (Ctx (put b s V (head (ps1 ++ p :: ps2))) i) =
    Ok (tt, Ctx (put b s (alter cleared p (unlink V (last ps1) (head ps2))) (head (ps1 ++ ps2))) i).
Proof.
  intros Hnd Hd. destruct (Hd ps1 p ps2 eq_refl) as (pl & Hp & Hpv & Hnx). simpl in Hpv, Hnx.
  assert (Hpn : ∀ n, head ps2 = Some n → n ≠ p ∧ is_Some (V !! n)).
  { intros n Hn%head_in. rewrite NoDup_app, NoDup_cons in Hnd.
    split; [set_solver|]. eapply dlist_alive; [exact Hd|set_solver]. }
  assert (Hpp : ∀ q, last ps1 = Some q → q ≠ p ∧ is_Some (V !! q)).
  { intros q Hq%last_in. rewrite NoDup_app in Hnd.
    split; [set_solver|]. eapply dlist_alive; [exact Hd|set_solver]. }
  unfold removePriceLevel. rewrite (bind_ok _ _ _ _ _ (lvl_put b i s V _ p pl Hp)), Hpv, Hnx.
  set (best := head (ps1 ++ p :: ps2)).
  set (V1 := match head ps2 with Some n => alter (pl_set_prev (last ps1)) n V | None => V end).
  rewrite (bind_ok _ _ _ tt (Ctx (put b s V1 best) i)); last first.
  { unfold V1. destruct (head ps2) as [n|]; [|done]. apply lvl_set_put. by apply Hpn. }
  assert (Hp1 : V1 !! p = Some pl).
  { unfold V1. destruct (head ps2) as [n|]; [|done]. destruct (Hpn n eq_refl).
    by rewrite lookup_alter_ne. }
  rewrite (bind_ok _ _ _ _ _ (lvl_put b i s V1 best p pl Hp1)), Hpv, Hnx.
  set (V2 := unlink V (last ps1) (head ps2)).
  rewrite (bind_ok _ _ _ tt (Ctx (put b s V2 best) i)); last first.
  { unfold V2, V1, unlink. destruct (last ps1) as [q|] eqn:Hq; [|done].
    destruct (Hpp q eq_refl) as [_ Halive]. destruct (head ps2) as [n|] eqn:Hn.
    - rewrite lvl_set_put by (rewrite lookup_alter; case_decide; subst; destruct Halive as [? ->]; simpl; eauto).
      do 4 f_equal. apply alter_alter_ne. intros ->. apply last_in in Hq. apply head_in in Hn.
      rewrite NoDup_app, NoDup_cons in Hnd. set_solver.
    - by apply lvl_set_put. }
  assert (Hp2 : V2 !! p = Some pl).
  { unfold V2. rewrite <-Hp. by apply (unlink_alive V ps1 p ps2 p). }
  mstep (lvl_put b i s V2 best p pl Hp2).
  rewrite (bind_ok _ _ _ _ _ (get_best_put b i s V2 best)), Hnx.
  rewrite (bind_ok _ _ _ tt (Ctx (put b s V2 (head (ps1 ++ ps2))) i)); last first.
  { unfold best. destruct ps1 as [|x ps1]; simpl.
    - rewrite bool_decide_true by done. apply set_best_put.
    - rewrite bool_decide_false; [done|]. intros [= ->]. apply NoDup_cons in Hnd. set_solver. }
  do 3 (erewrite bind_ok by (apply lvl_set_put; rewrite ?lookup_alter_eq, Hp2; simpl; eauto)).
  rewrite lvl_set_put by (rewrite ?lookup_alter_eq, Hp2; simpl; eauto).
  rewrite !alter_alter_eq. done.
Qed.
End level_ops.

(** ** Representation *)

Section vec_refine.
Context {P : Type} `{ObjectPool P} `{!ObjectPoolLaws P}.
Variable maxLevels : Z.
Implicit Types (b : book P vec_levels) (sb : sbook) (ls : Side → list positive).

Definition vec_rep b ls sb : Prop :=
  store_rep b ls sb ∧
  ∀ s, ∃ m, side_ok (objects b) s m (ls s) ∧
            vec_side maxLevels (side_vector s (levels b)) (best_level s (levels b)) m.

(** The book with another heap. *)
Definition heap b (h : gmap positive MEOrder) : book P vec_levels :=
  Book (pool_ b) h (orders_ b) (nextMarketOrderId b) (levels b).

Lemma wr_put b i s V best h f l :
  is_Some (h !! l) →
  wr f (Some l) (Ctx (put (heap b h) s V best) i) =
    Ok (tt, Ctx (put (heap b (alter f l h)) s V best) i).
Proof. intros [o Ho]. by rewrite (wr_ok _ (put (heap b h) s V best) i l o). Qed.

Lemma rd_put {A} (f : MEOrder → A) b i s V best h l o :
  h !! l = Some o →
  rd f (Some l) (Ctx (put (heap b h) s V best) i) = Ok (f o, Ctx (put (heap b h) s V best) i).
Proof. intros Ho. by apply (rd_ok _ (put (heap b h) s V best)). Qed.

(** ** [remove] *)

Lemma unlinked_keeps prev next : keeps_links (unlinked_level prev next).
Proof. intros pl. unfold unlinked_level. by destruct prev, next. Qed.

(** The two link updates of [remove]: neighbours in the level, or the level's
    head and tail. *)
Lemma unlink_order_run b i s V best h l v w :
  h !! l = Some v → V !! o_price_ v = Some w →
  o_prev_ v ≠ Some l → o_next_ v ≠ Some l →
  (∀ q, o_prev_ v = Some q → is_Some (h !! q)) → (∀ q, o_next_ v = Some q → is_Some (h !! q)) →
  ∀ (k : M (ctx P vec_levels) unit),
  (match o_prev_ v with
   | Some _ => wr (set_next (o_next_ v)) (o_prev_ v)
   | None => lvl_set s (o_price_ v) (pl_set_head (o_next_ v))
   end;;
   prev ← rd o_prev_ (Some l);
   next ← rd o_next_ (Some l);
   match next with
   | Some _ => wr (set_prev prev) next
   | None => lvl_set s (o_price_ v) (pl_set_tail prev)
   end;; k) (Ctx (put (heap b h) s V best) i) =
  k (Ctx (put (heap b (unlink h (o_prev_ v) (o_next_ v))) s
            (alter (unlinked_level (o_prev_ v) (o_next_ v)) (o_price_ v) V) best) i).
Proof.
  intros Hv Hw Hpl Hnl Hpa Hna k. set (p := o_price_ v) in *.
  set (h1 := match o_prev_ v with Some q => alter (set_next (o_next_ v)) q h | None => h end).
  set (V1 := match o_prev_ v with Some _ => V | None => alter (pl_set_head (o_next_ v)) p V end).
  rewrite (bind_ok _ _ _ tt (Ctx (put (heap b h1) s V1 best) i)); last first.
  { unfold h1, V1. destruct (o_prev_ v) as [q|]; [by apply wr_put, Hpa|apply lvl_set_put; eauto]. }
  assert (Hv1 : h1 !! l = Some v).
  { unfold h1. destruct (o_prev_ v); [|done]. by rewrite lookup_alter_ne by congruence. }
  mstep (rd_put o_prev_ b i s V1 best h1 l v Hv1).
  mstep (rd_put o_next_ b i s V1 best h1 l v Hv1).
  assert (Hw1 : is_Some (V1 !! p)).
  { unfold V1. destruct (o_prev_ v); [eauto|]. rewrite lookup_alter_eq, Hw. simpl. eauto. }
  rewrite (bind_ok _ _ _ tt (Ctx (put (heap b (unlink h (o_prev_ v) (o_next_ v))) s
    (alter (unlinked_level (o_prev_ v) (o_next_ v)) p V) best) i)); [done|].
  { assert (Hnext : ∀ q, o_next_ v = Some q → is_Some (h1 !! q)).
    { intros q Hq. unfold h1. destruct (o_prev_ v); [|auto]. rewrite lookup_alter.
      case_decide; [subst; rewrite fmap_is_Some|]; auto. }
    unfold unlink. fold h1. destruct (o_next_ v) as [q|] eqn:Hn.
    - rewrite wr_put by auto. do 3 f_equal. unfold V1, unlinked_level.
      destruct (o_prev_ v); [|done]. f_equal. apply map_eq. intros k'. rewrite lookup_alter.
      case_decide; [subst|done]. by rewrite Hw.
    - rewrite lvl_set_put by done. do 3 f_equal. unfold V1, unlinked_level.
      destruct (o_prev_ v); [done|]. by rewrite alter_alter_eq. }
Qed.

(** The vector and the best pointer after an order left its level. *)
Definition after_remove (V : level_vector) (p : Z) (ps1 ps2 : list Z)
    (prev next : option positive) (w : PriceLevel) : level_vector * option Z :=
  let V' := alter (unlinked_level prev next) p V in
  match pl_head (unlinked_level prev next w) with
  | None => (alter cleared p (unlink V' (last ps1) (head ps2)), head (ps1 ++ ps2))
  | Some _ => (V', head (ps1 ++ p :: ps2))
  end.

Lemma vec_remove_run b i l v V ps1 ps2 w :
  let s := o_side_ v in let p := o_price_ v in
  let r := after_remove V p ps1 ps2 (o_prev_ v) (o_next_ v) w in
  objects b !! l = Some v → V !! p = Some w →
  NoDup (ps1 ++ p :: ps2) → dlist V (ps1 ++ p :: ps2) →
  o_prev_ v ≠ Some l → o_next_ v ≠ Some l →
  (∀ q, o_prev_ v = Some q → is_Some (objects b !! q)) →
  (∀ q, o_next_ v = Some q → is_Some (objects b !! q)) →
  remove l (Ctx (put b s V (head (ps1 ++ p :: ps2))) i) =
    Ok (tt, Ctx (put (Book (pool_deallocate l (pool_ b))
                        (delete l (unlink (objects b) (o_prev_ v) (o_next_ v)))
                        (index_erase (o_clientId_ v) (o_clientOrderId_ v) (orders_ b))
                        (nextMarketOrderId b) (levels b)) s r.1 r.2) i).
Proof.
  intros s p r Hv Hw Hnd Hd Hpl Hnl Hpa Hna.
  set (best := head (ps1 ++ p :: ps2)). set (h := objects b) in *.
  change (put b s V best) with (put (heap b h) s V best).
  unfold remove. do 4 (erewrite bind_ok by (by apply rd_put)).
  rewrite (unlink_order_run b i s V best h l v w) by done.
  set (V1 := alter _ _ V). set (h1 := unlink h _ _).
  assert (Hw1 : V1 !! p = Some (unlinked_level (o_prev_ v) (o_next_ v) w)).
  { unfold V1. fold p. by rewrite lookup_alter_eq, Hw. }
  mstep (lvl_put (heap b h1) i s V1 best p _ Hw1).
  rewrite (bind_ok _ _ _ tt (Ctx (put (heap b h1) s r.1 r.2) i)); last first.
  { unfold r, after_remove. fold V1. destruct (pl_head (unlinked_level _ _ w)); [done|].
    simpl. apply (remove_level_run (heap b h1) i s V1 p ps1 ps2); [done|].
    apply dlist_alter; [apply unlinked_keeps|done]. }
  assert (Hv1 : h1 !! l = Some v).
  { unfold h1. by rewrite lookup_unlink_other. }
  do 2 (erewrite bind_ok by (by apply rd_put)). done.
Qed.

Lemma lm_sorted_nodup s m : lm_sorted s m → NoDup m.*1.
Proof.
  unfold lm_sorted. induction 1 as [|p ps _ IH HF]; constructor; [|done].
  intros Hin. rewrite Forall_forall in HF. specialize (HF _ Hin). simpl in HF.
  by rewrite better_irrefl in HF.
Qed.

(** The slots of the side an order was removed from. *)
Lemma removed_vec_side V best m1 p pl m2 prev next w :
  vec_side maxLevels V best (m1 ++ (p, pl) :: m2) → NoDup (m1 ++ (p, pl) :: m2).*1 →
  V !! p = Some w → pl_head w = pl_head pl → pl_tail w = pl_tail pl →
  let r := after_remove V p m1.*1 m2.*1 prev next w in
  let pl' := unlinked_level prev next pl in
  vec_side maxLevels r.1 r.2
    (m1 ++ match pl_head pl' with None => [] | Some _ => [(p, pl')] end ++ m2).
Proof.
  intros Hvs Hnd Hw Hh Ht r pl'.
  assert (Hpl : pl_head (unlinked_level prev next w) = pl_head pl' ∧
                pl_tail (unlinked_level prev next w) = pl_tail pl').
  { unfold pl', unlinked_level. by destruct prev, next. }
  destruct Hpl as [Hh' Ht']. unfold r, after_remove. rewrite Hh'.
  destruct (pl_head pl') as [k|] eqn:Hk; simpl.
  - replace (head (m1.*1 ++ p :: m2.*1)) with best
      by (rewrite (vs_best _ _ _ _ Hvs), fmap_app, fmap_cons; done).
    rewrite fmap_app, fmap_cons in Hnd. rewrite NoDup_app, NoDup_cons in Hnd.
    eapply vec_side_set; [exact Hvs| | |apply unlinked_keeps|exact Hw|congruence|done];
      apply absent_keys; set_solver.
  - eapply vec_side_remove; [exact Hvs|done|apply unlinked_keeps].
Qed.

Lemma vec_remove_ok b i ls sb l v l1 l2 :
  vec_rep b ls sb → objects b !! l = Some v → ls (o_side_ v) = l1 ++ l :: l2 →
  ∃ b', remove l (Ctx b i) = Ok (tt, Ctx b' i) ∧
    vec_rep b' (side_upd ls (o_side_ v) (l1 ++ l2)) (s_delete (key v) sb) ∧
    pool_capacity (pool_ b') = pool_capacity (pool_ b).
Proof.
  intros [Hr Hside] Hv Hls. set (s := o_side_ v) in *.
  assert (Hin : l ∈ ls s) by (rewrite Hls; set_solver).
  destruct (Hside s) as (m & Hso & Hvs).
  destruct (side_ok_node _ _ _ _ _ _ Hso Hin Hv)
    as (m1 & pl & m2 & G1 & g1 & g2 & G2 & -> & Hls' & HF1 & Hlev & HF2).
  assert (l1 = concat G1 ++ g1 ∧ l2 = g2 ++ concat G2) as [-> ->].
  { rewrite Hls in Hls'. pose proof (sr_nodup _ _ _ Hr s) as Hnd. rewrite Hls in Hnd.
    by eapply NoDup_split_unique. }
  destruct (concat_split_sides _ _ _ _ _ _ _ _ _ Hr Hls) as (HndG & HfrS & HfrO).
  pose proof Hlev as (_ & Hh & Ht & Hd & _).
  destruct (dlist_node _ _ _ _ _ Hd Hv) as [Hpv Hnx]; simpl in Hpv, Hnx.
  destruct (unlinked_level_ends _ _ _ _ Hh Ht) as [Hh' Ht'].
  pose proof (lm_sorted_nodup _ _ (proj1 Hso)) as HndP.
  pose proof (vs_active _ _ _ _ Hvs) as Hac.
  apply Forall_app in Hac as [_ [(w & Hw & Hwh & Hwt) _]%Forall_cons]. simpl in Hw, Hwh, Hwt.
  pose proof (vs_best _ _ _ _ Hvs) as Hbest. pose proof (vs_linked _ _ _ _ Hvs) as Hlink.
  pose proof HndP as HndP'. rewrite fmap_app, fmap_cons in Hbest, Hlink, HndP'. simpl in *.
  pose proof (vec_remove_run b i l v _ m1.*1 m2.*1 w Hv Hw HndP' Hlink) as Hrun.
  fold s in Hrun. rewrite <-Hbest, put_same in Hrun.
  eexists. split; [apply Hrun|].
  { rewrite Hpv. intros ?%last_in. rewrite NoDup_app in HndG. set_solver. }
  { rewrite Hnx. intros ?%head_in. rewrite NoDup_app, NoDup_cons in HndG. set_solver. }
  { intros q. rewrite Hpv. intros ?%last_in. eapply dlist_alive; [exact Hd|set_solver]. }
  { intros q. rewrite Hnx. intros ?%head_in. eapply dlist_alive; [exact Hd|set_solver]. }
  clear Hrun. rewrite Hpv, Hnx.
  destruct (sr_split _ _ _ _ _ _ _ Hr Hls) as (o1 & w' & o2 & Hs & Hlen & Hw' & _).
  assert (w' = v) as -> by congruence.
  rewrite (sr_delete _ _ _ _ _ _ _ _ _ _ Hr Hls Hv Hs Hlen).
  destruct (pool_deallocate_live l (pool_ b)) as [Hlive Hcap].
  { rewrite (sr_pool _ _ _ Hr). by eapply elem_of_dom_2. }
  split; [split|done].
  - eapply sr_free; try done; simpl.
    + apply lookup_delete_eq.
    + intros k Hk. rewrite lookup_delete_ne by done. apply unlink_same_orders.
  - intros s0. simpl. destruct (decide (s0 = s)) as [->|Hs0].
    + rewrite side_vector_put, best_level_put, side_upd_eq. eexists. split.
      * eapply removed_side_ok; try done. apply Hso.
      * by eapply removed_vec_side.
    + rewrite side_vector_put_ne, best_level_put_ne, side_upd_ne by done.
      destruct (Hside s0) as (m & Hso0 & Hvs0). exists m. split; [|done].
      eapply side_ok_frame; [|exact Hso0]. intros k Hk. apply unlink_frame. by eapply HfrO.
Qed.

(** ** [insert] *)

Lemma vec_side_size V best m : vec_side maxLevels V best m → NoDup m.*1 → (length m.*1 ≤ size V)%nat.
Proof.
  intros Hvs Hnd. rewrite <-size_dom, <-(size_list_to_set (C := gset Z)) by done.
  apply subseteq_size. intros p Hp%elem_of_list_to_set. apply elem_of_dom.
  eapply dlist_alive; [by eapply vs_linked|done].
Qed.

(** A level comes into being with its first order. *)
Lemma vec_append_first b i s V p l m1 m2 pl' :
  Forall (λ e, better s e.1 p = true) m1 → Forall (λ e, better s p e.1 = true) m2 →
  lm_sorted s (m1 ++ m2) → vec_side maxLevels V (head (m1 ++ m2).*1) (m1 ++ m2) →
  0 ≤ p < maxLevels → pl_head pl' = Some l → pl_tail pl' = Some l →
  ∃ V' best', append_to_level s p l (Ctx (put b s V (head (m1 ++ m2).*1)) i) =
      Ok (tt, Ctx (put b s V' best') i) ∧
    vec_side maxLevels V' best' (m1 ++ (p, pl') :: m2).
Proof.
  intros Hb1 Hb2 Hsort Hvs Hp Hh Ht. set (best := head (m1 ++ m2).*1).
  pose proof (absent_better _ _ _ Hb1) as Ha1. pose proof (absent_worse _ _ _ Hb2) as Ha2.
  apply absent_keys in Ha1, Ha2.
  assert (Hni : p ∉ (m1 ++ m2).*1) by (rewrite fmap_app; set_solver).
  destruct (proj2 (vs_slots _ _ _ _ Hvs p) Hp) as [w Hw].
  pose proof (vs_idle _ _ _ _ Hvs p w Hw Hni) as ->.
  unfold append_to_level. mstep (lvl_put b i s V best p _ Hw).
  pose proof (vec_side_size _ _ _ Hvs (lm_sorted_nodup _ _ Hsort)) as Hsize.
  set (V1 := link_between V (last m1.*1) p (head m2.*1)).
  set (best1 := head (m1.*1 ++ p :: m2.*1)).
  rewrite (bind_ok _ _ _ tt (Ctx (put b s V1 best1) i)); last first.
  { cbn [pl_head idle_slot pl_set_price PriceLevel_default].
    rewrite bool_decide_true by done. unfold when, best. rewrite fmap_app.
    apply insert_level_run; try (rewrite <-?fmap_app; done).
    - rewrite <-fmap_app. apply Hvs.
    - apply Hvs.
    - by apply Forall_fmap.
    - by apply Forall_fmap. }
  pose proof (same_slots_link V (last m1.*1) p (head m2.*1)) as Hsame. fold V1 in Hsame.
  assert (is_Some (V1 !! p)) as [w1 Hw1] by (apply (same_slots_alive V V1 p Hsame); eauto).
  destruct (same_slots_lookup _ _ _ _ Hsame Hw1) as (w0 & Hw0 & Hcore).
  rewrite Hw in Hw0. injection Hw0 as <-. injection Hcore as _ Hh1 _.
  mstep (lvl_put b i s V1 best1 p _ Hw1). rewrite <-Hh1.
  mstep (lvl_set_put b i s V1 best1 p _ (ex_intro _ _ Hw1)).
  rewrite lvl_set_put by (rewrite lookup_alter_eq, Hw1; simpl; eauto).
  rewrite alter_alter_eq. eexists _, _. split; [done|].
  eapply vec_side_insert; [exact Hvs|by eapply lm_sorted_nodup|done|done|by intros []|].
  intros v _. by rewrite Hh, Ht.
Qed.

(** An order joins the tail of an active level. *)
Lemma vec_append_behind b i s V best p l m1 pl m2 g h :
  lm_absent p m1 → lm_absent p m2 → vec_side maxLevels V best (m1 ++ (p, pl) :: m2) →
  is_Some (h !! l) → l ∉ g → level_ok h (p, pl) g →
  ∃ V', append_to_level s p l (Ctx (put (heap b h) s V best) i) =
      Ok (tt, Ctx (put (heap b (appended h g l)) s V' best) i) ∧
    vec_side maxLevels V' best (m1 ++ (p, pl_set_tail (Some l) pl) :: m2).
Proof.
  intros Ha1 Ha2 Hvs [v Hv] Hl (Hne & Hh & Ht & Hd & _). simpl in *.
  destruct (last g) as [t|] eqn:Hlast; [|by apply last_None in Hlast].
  assert (Htl : t ≠ l) by (intros ->; by apply last_in in Hlast).
  destruct (dlist_alive _ _ _ Hd (last_in _ _ Hlast)) as [o Ho].
  pose proof (vs_active _ _ _ _ Hvs) as Hac.
  apply Forall_app in Hac as [_ [(w & Hw & Hwh & Hwt) _]%Forall_cons]. simpl in Hw, Hwh, Hwt.
  unfold append_to_level. mstep (lvl_put (heap b h) i s V best p _ Hw).
  rewrite Hwh, Hh. destruct g as [|x g]; [done|]. cbn [head].
  rewrite bool_decide_false by done. unfold when.
  mgo tt (Ctx (put (heap b h) s V best) i).
  mstep (lvl_put (heap b h) i s V best p _ Hw).
  rewrite Hwh, Hh, Hwt, Ht. cbn [head].
  mstep (wr_put b i s V best h _ l (ex_intro _ _ Hv)).
  erewrite bind_ok by (apply wr_put; rewrite lookup_alter_ne by done; eauto).
  rewrite lvl_set_put by eauto. eexists. split.
  - unfold appended. by rewrite Hlast.
  - eapply vec_side_set; [exact Hvs|done|done|by intros []|exact Hw|exact Hwh|done].
Qed.

(** Both cases, for an order already in the heap. *)
Lemma vec_append_run b i s p l o m g h :
  lm_sorted s m → 0 ≤ p < maxLevels →
  vec_side maxLevels (side_vector s (levels b)) (best_level s (levels b)) m →
  h !! l = Some o → o_next_ o = None → o_prev_ o = None → o_price_ o = p →
  NoDup g → l ∉ g →
  ∀ m1 m2, Forall (λ e, better s e.1 p = true) m1 → Forall (λ e, better s p e.1 = true) m2 →
  (g = [] ∧ m = m1 ++ m2 ∨ ∃ pl, m = m1 ++ (p, pl) :: m2 ∧ level_ok h (p, pl) g) →
  ∃ V' best' pl', append_to_level s p l (Ctx (heap b h) i) =
      Ok (tt, Ctx (put (heap b (appended h g l)) s V' best') i) ∧
    vec_side maxLevels V' best' (m1 ++ (p, pl') :: m2) ∧
    lm_sorted s (m1 ++ (p, pl') :: m2) ∧ level_ok (appended h g l) (p, pl') (g ++ [l]).
Proof.
  intros Hsort Hp Hvs Ho Hn Hpv Hpr Hnd Hl m1 m2 Hb1 Hb2 Hcase.
  pose proof (absent_better _ _ _ Hb1) as Ha1. pose proof (absent_worse _ _ _ Hb2) as Ha2.
  assert (Hput : heap b h =
    put (heap b h) s (side_vector s (levels b)) (best_level s (levels b))).
  { unfold put, heap. simpl. by rewrite vec_put_same. }
  rewrite Hput. destruct Hcase as [[-> ->]|(pl & -> & Hlev)].
  - set (pl' := pl_set_tail (Some l) (pl_set_head (Some l) PriceLevel_default)).
    rewrite (vs_best _ _ _ _ Hvs) in Hvs |- *.
    destruct (vec_append_first (heap b h) i s (side_vector s (levels b)) p l m1 m2 pl')
      as (V' & best' & Hrun & Hvs'); try done.
    exists V', best', pl'. split_and!; [exact Hrun|done| |].
    + apply lm_sorted_insert; [by left|done|done].
    + eapply appended_level_ok; try done. apply dlist_nil.
  - destruct (vec_append_behind b i s (side_vector s (levels b)) (best_level s (levels b))
      p l m1 pl m2 g h) as (V' & Hrun & Hvs'); [by eauto..|].
    destruct Hlev as (Hne & Hh & Ht & Hd & HF). simpl in *.
    exists V', (best_level s (levels b)), (pl_set_tail (Some l) pl).
    split_and!; [exact Hrun|done| |].
    + apply lm_sorted_insert; [|done|done]. right. by exists pl.
    + eapply appended_level_ok; try done. simpl. rewrite Hh. by destruct g.
Qed.

Lemma vec_insert_ok b i ls sb a q :
  vec_rep b ls sb → 0 ≤ a_price a < maxLevels →
  index_find (a_clientId a) (a_clientOrderId a) (orders_ b) = None →
  (size (objects b) < pool_capacity (pool_ b))%nat →
  ∃ b' ls', insert a q (Ctx b i) = Ok (tt, Ctx b' i) ∧
    vec_rep b' ls' (s_insert a q sb) ∧
    pool_capacity (pool_ b') = pool_capacity (pool_ b).
Proof.
  intros [Hr Hside] Hmax Hix Hcap. set (s := a_side a). set (p := a_price a).
  destruct (Hside s) as (m & Hso & Hvs).
  destruct (side_ok_split _ _ _ _ p Hso)
    as (m1 & m2 & G1 & g & G2 & Hls & Hb1 & Hb2 & HF1 & HF2 & Hcase).
  destruct (allocate_ok b i (resting_order a q) (sr_pool _ _ _ Hr) Hcap)
    as (l & p' & Hal & Hfr & Hlive & Hc').
  set (h0 := <[l := resting_order a q]> (objects b)) in Hal.
  assert (Hnl : ∀ s', l ∉ ls s').
  { intros s' (?&?&?)%(sr_mem _ _ _ Hr). congruence. }
  pose proof (Hnl s) as Hnls. rewrite Hls in Hnls.
  pose proof (sr_nodup _ _ _ Hr s) as Hnd. rewrite Hls in Hnd.
  assert (Hfr0 : ∀ k, k ≠ l → h0 !! k = objects b !! k) by (intros; by apply lookup_insert_ne).
  set (b0 := Book p' (objects b) (orders_ b) (nextMarketOrderId b) (levels b)).
  destruct (vec_append_run b0 i s p l (resting_order a q) m g h0) with m1 m2
    as (V' & best' & pl' & Hrun & Hvs' & Hsort & Hlev); try done.
  { apply Hso. } { apply lookup_insert_eq. }
  { rewrite !NoDup_app in Hnd. naive_solver. } { set_solver. }
  { destruct Hcase as [?|(pl & Hm & Hlev)]; [by left|right]. exists pl. split; [done|].
    eapply level_ok_agree; [|exact Hlev]. intros k v Hk Hv. exists v.
    rewrite Hfr0; [done|set_solver]. }
  assert (Hg : Forall (λ l, ∃ o, objects b !! l = Some o ∧ o_price_ o = p) g).
  { destruct Hcase as [[-> _]|(pl & _ & (_ & _ & _ & _ & HF))]; [constructor|done]. }
  destruct (split_prices _ _ _ _ _ _ _ _ Hb1 Hb2 HF1 HF2 Hg) as [Hpr1 Hpr2].
  destruct (h_payload_insert (objects b) g l (resting_order a q) eq_refl) as (v & Hv & Hpv & Hag).
  eexists _, (side_upd ls s ((concat G1 ++ g) ++ l :: concat G2)).
  split_and!; [unfold insert; mstep Hal;
    mstep Hrun; reflexivity| |done].
  assert (Hfr1 : ∀ k, k ∉ g → k ≠ l → appended h0 g l !! k = objects b !! k).
  { intros k ??. rewrite appended_other, Hfr0 by done. done. }
  split.
  - eapply sr_insert; try done. by rewrite <-app_assoc.
  - intros s'. simpl. destruct (decide (s' = s)) as [->|Hs'].
    + rewrite side_vector_put, best_level_put, side_upd_eq. eexists. split; [|exact Hvs'].
      by eapply inserted_side_ok.
    + rewrite side_vector_put_ne, best_level_put_ne, side_upd_ne by done.
      destruct (Hside s') as (m' & Hso' & Hvs0). exists m'. split; [|done].
      eapply side_ok_frame; [|exact Hso']. intros k Hk.
      apply Hfr1; [|intros ->; by eapply Hnl].
      intros Hkg. assert (k ∈ ls s) as Hks by (rewrite Hls; set_solver).
      apply (sr_mem _ _ _ Hr) in Hk as (?&?&?), Hks as (?&?&?). congruence.
Qed.

(** ** [match] *)

Lemma vec_rep_change b ls sb s l1 l l2 v v' o1 o2 :
  vec_rep b ls sb → ls s = l1 ++ l :: l2 → objects b !! l = Some v →
  s_side s sb = o1 ++ payload v :: o2 → length o1 = length l1 →
  (∃ q, v' = set_remaining q v) →
  vec_rep (heap b (<[l := v']> (objects b))) ls (s_set s (o1 ++ payload v' :: o2) sb).
Proof.
  intros [Hr Hside] Hls Hv Hs Hlen [q ->]. split.
  - eapply sr_change; try done; simpl.
    + apply lookup_insert_eq.
    + intros k Hk. by rewrite lookup_insert_ne.
  - intros s'. destruct (Hside s') as (m & (Hso & gs & HF & Hgs) & Hvs). exists m.
    split; [|done]. split; [done|]. exists gs. split; [|done].
    eapply levels_ok_agree; [|exact HF]. intros k w _ Hw. simpl. rewrite lookup_insert.
    case_decide; [|eauto]. subst. eexists. split; [done|]. by simplify_eq.
Qed.

(** The head of the level of a price; a slot the vector does not have has none
    to read. *)
Definition vec_head b (s : Side) (p : Price) : option positive :=
  match side_vector s (levels b) !! p with
  | Some pl => pl_head pl
  | None => Some 1%positive
  end.

Lemma lvl_ok b i s p pl :
  side_vector s (levels b) !! p = Some pl → lvl s p (Ctx b i) = Ok (pl, Ctx b i).
Proof. intros Hp. unfold lvl, gets, mbind, M_bind. simpl. by rewrite Hp. Qed.

(** The first order of a side is the head of the best slot. *)
Lemma vec_front_head b ls sb s lp o og orest :
  vec_rep b ls sb → front vec_head b sb s lp (o :: og) orest →
  ∃ l l0 v pl, ls s = l :: l0 ∧ side_vector s (levels b) !! lp = Some pl ∧
    pl_head pl = Some l ∧ pl_price_ pl = lp ∧
    objects b !! l = Some v ∧ payload v = o ∧ o_price_ v = lp ∧ o_side_ v = s.
Proof.
  intros [Hr Hside] Hf. destruct (Hside s) as (m & Hso & Hvs).
  pose proof (fr_level _ _ _ _ _ _ _ Hf) as HF. apply Forall_cons in HF as [Hlp _].
  destruct (side_head b ls sb s m o _ Hr Hso (fr_split _ _ _ _ _ _ _ Hf))
    as (l & l0 & v & pl & m2 & Hls & -> & Hh & Hv & <- & Hsd).
  pose proof (vs_active _ _ _ _ Hvs) as Hac.
  apply Forall_cons in Hac as [(w & Hw & Hwh & Hwt) _]. rewrite Hlp in Hw. simpl in *.
  exists l, l0, v, w. split_and!; try done; [congruence|]. by eapply vs_price.
Qed.

Lemma vec_front_slot b ls sb s lp og orest :
  vec_rep b ls sb → front vec_head b sb s lp og orest →
  ∃ pl, side_vector s (levels b) !! lp = Some pl ∧ pl_head pl = vec_head b s lp.
Proof.
  intros Hrep Hf. unfold vec_head. destruct (side_vector s (levels b) !! lp) as [pl|] eqn:Hp; [eauto|].
  destruct og as [|o og].
  - pose proof (fr_empty _ _ _ _ _ _ _ Hf eq_refl) as He. unfold vec_head in He.
    by rewrite Hp in He.
  - destruct (vec_front_head _ _ _ _ _ _ _ _ Hrep Hf) as (l & l0 & v & pl & _ & Hpl & _). congruence.
Qed.

Lemma vec_level_exit a lp b i ls sb og orest rem :
  vec_rep b ls sb → front vec_head b sb (opposite (a_side a)) lp og orest →
  vec_head b (opposite (a_side a)) lp = None ∨ rem ≤ 0 →
  match_level true a lp rem (Ctx b i) = Ok (inr rem, Ctx b i).
Proof.
  intros Hrep Hf Hor. destruct (vec_front_slot _ _ _ _ _ _ _ Hrep Hf) as (pl & Hp & Hh).
  unfold match_level. rewrite (bind_ok _ _ _ _ _ (lvl_ok b i _ lp pl Hp)), Hh.
  destruct (vec_head _ _ _) as [l|]; [|done]. destruct Hor as [?|?]; [done|].
  by assert (negb (rem >? 0) = true) as -> by lia.
Qed.

(** One round of the inner loop up to the removal of a filled order. *)
Lemma vec_level_run a lp b i l v pl rem :
  let f := fill_of rem (next_match_id_ i) (payload v) in
  let v' := set_remaining (o_remainingQuantity_ v - f_qty f) v in
  side_vector (opposite (a_side a)) (levels b) !! lp = Some pl →
  pl_head pl = Some l → pl_price_ pl = lp → objects b !! l = Some v →
  o_price_ v = lp → 0 < rem < 2 ^ 32 → qty_ok v →
  match_level true a lp rem (Ctx b i) =
  (when (o_remainingQuantity_ v' =? 0) (remove l);; mret (inl (f_left f)))
    (Ctx (heap b (<[l := v']> (objects b))) (after_fill VectorBook a f i)).
Proof.
  intros f v' Hp Hh Hpp Hv Hlp Hrem [Hq1 Hq2]. unfold match_level.
  mstep (lvl_ok b i _ lp pl Hp). rewrite Hh.
  assert (negb (rem >? 0) = false) as -> by lia.
  mstep (rd_ok _ _ _ _ _ Hv).
  mgo (next_match_id_ i) (Ctx b (bump_match_id i)).
  mstep (wr_insert _ _ _ _ _ Hv).
  fold (f_qty f). rewrite !u32_small by (unfold f, fill_of; simpl; lia).
  change (rem - f_qty f) with (f_left f). fold v'.
  rewrite (bind_ok _ _ _ v' (Ctx (heap b (<[l := v']> (objects b))) (bump_match_id i)))
    by (unfold deref; simpl; by rewrite lookup_insert_eq).
  do 3 (erewrite bind_ok by reflexivity).
  match goal with |- ?k ?s1 = _ ?s2 => replace s1 with s2; [done|] end.
  unfold set_io, after_fill, emit, bump_match_id. cbn [bk io sent next_match_id_].
  rewrite <-!app_assoc, Hpp, <-Hlp. reflexivity.
Qed.

(** A price without orders has an idle slot. *)
Lemma vec_no_orders b ls sb s p :
  vec_rep b ls sb → Forall (λ o, o_price_ o ≠ p) (s_side s sb) → 0 ≤ p < maxLevels →
  vec_head b s p = None.
Proof.
  intros [Hr Hside] HF Hp. destruct (Hside s) as (m & (_ & gs & Hlev & Hls) & Hvs).
  destruct (proj2 (vs_slots _ _ _ _ Hvs p) Hp) as [pl Hpl]. unfold vec_head. rewrite Hpl.
  destruct (decide (p ∈ m.*1)) as [Hin|Hni]; [|by rewrite (vs_idle _ _ _ _ Hvs p pl Hpl Hni)].
  exfalso. apply list_elem_of_fmap in Hin as ([p' pl'] & -> & He).
  apply list_elem_of_lookup in He as [k Hk].
  destruct (Forall2_lookup_l _ _ _ _ _ Hlev Hk) as (g & Hg & (Hne & _ & _ & _ & Hpr)).
  destruct g as [|l g]; [done|]. apply Forall_cons in Hpr as [(o & Ho & Hop) _].
  pose proof (resting_prices_inv _ _ _ (λ x, x ≠ p') (sr_rest _ _ _ Hr s) HF) as Hall.
  rewrite Forall_forall in Hall. destruct (Hall l) as (o' & Ho' & Hne').
  { rewrite Hls, list_elem_of_In, in_concat. exists (l :: g).
    rewrite <-!list_elem_of_In. split; [by eapply list_elem_of_lookup_2|set_solver]. }
  simpl in Hop. congruence.
Qed.

Lemma vec_level_ok a lp b i ls sb o og orest rem :
  let s := opposite (a_side a) in
  let f := fill_of rem (next_match_id_ i) o in
  vec_rep b ls sb → front vec_head b sb s lp (o :: og) orest → 0 < rem < 2 ^ 32 → qty_ok o →
  ∃ b' ls',
    match_level true a lp rem (Ctx b i) =
      Ok (inl (f_left f), Ctx b' (after_fill VectorBook a f i)) ∧
    pool_capacity (pool_ b') = pool_capacity (pool_ b) ∧
    let og' := if o_remainingQuantity_ (f_after f) =? 0 then og else f_after f :: og in
    vec_rep b' ls' (s_set s (og' ++ orest) sb) ∧
    front vec_head b' (s_set s (og' ++ orest) sb) s lp og' orest.
Proof.
  intros s f Hrep Hf Hrem Hq.
  destruct (vec_front_head _ _ _ _ _ _ _ _ Hrep Hf)
    as (l & l0 & v & pl & Hls & Hp & Hh & Hpp & Hv & <- & Hlp & Hsd).
  rewrite (vec_level_run a lp b i l v pl rem Hp Hh Hpp Hv Hlp Hrem Hq). fold f.
  set (v' := set_remaining _ v). set (b1 := heap b _).
  change (f_after f) with (payload v').
  pose proof (fr_split _ _ _ _ _ _ _ Hf) as Hs.
  assert (Hrep1 : vec_rep b1 ls (s_set s (payload v' :: og ++ orest) sb)).
  { apply (vec_rep_change b ls sb s [] l l0 v v' [] (og ++ orest)); eauto. }
  assert (Hslot : 0 ≤ lp < maxLevels).
  { destruct (proj2 Hrep s) as (m & _ & Hvs). apply (vs_slots _ _ _ _ Hvs). eauto. }
  change (o_remainingQuantity_ (payload v')) with (o_remainingQuantity_ v').
  pose proof (fr_level _ _ _ _ _ _ _ Hf) as HF. apply Forall_cons in HF as [_ HF].
  destruct (o_remainingQuantity_ v' =? 0) eqn:Hz; simpl.
  - destruct (vec_remove_ok b1 (after_fill VectorBook a f i) ls _ l v' [] l0 Hrep1)
      as (b' & Hrun & Hrep' & Hcap).
    { simpl. apply lookup_insert_eq. } { change (o_side_ v') with (o_side_ v). by rewrite Hsd. }
    rewrite (sr_delete b1 ls _ s [] l l0 v' [] (og ++ orest)) in Hrep';
      [|apply Hrep1|exact Hls|apply lookup_insert_eq|by rewrite s_side_set_eq|done].
    rewrite s_set_set in Hrep'. eexists b', _. split_and!; [|done|exact Hrep'|].
    + unfold when. by mstep Hrun.
    + split; [by rewrite s_side_set_eq|done|apply Hf|].
      intros ->. eapply vec_no_orders; [exact Hrep'| |done]. rewrite s_side_set_eq. apply Hf.
  - exists b1, ls. split_and!; [done|done|done|].
    split; [by rewrite s_side_set_eq|by constructor|apply Hf|done].
Qed.

Lemma vec_match_ok a b i ls sb :
  vec_rep b ls sb → Forall qty_ok (s_orders sb) → 0 ≤ a_initialQuantity a < 2 ^ 32 →
  let '(sb', i', rem) := s_match VectorBook a sb i in
  ∃ b' ls', match_ true a (Ctx b i) = Ok (rem, Ctx b' i') ∧ vec_rep b' ls' sb' ∧
    pool_capacity (pool_ b') = pool_capacity (pool_ b).
Proof.
  intros Hrep HQ Hq. unfold match_.
  mgo (size (objects b)) (Ctx b i).
  eapply (match_loop_ok VectorBook vec_rep vec_head (λ b s, best_level s (levels b))
    (match_level true)); [| | | |exact Hrep|exact HQ|exact Hq|].
  - intros. by eapply vec_level_exit.
  - intros. by eapply vec_level_ok.
  - clear. intros b ls sb s [Hr Hside]. destruct (Hside s) as (m & Hso & Hvs).
    pose proof (side_best b ls sb s _ Hr Hso) as Hb. rewrite (vs_best _ _ _ _ Hvs).
    destruct m as [|[lp pl] m2]; [done|]. simpl.
    destruct Hb as (og & orest & Hne & ? & ? & ?). exists og, orest. split; [done|]. by split.
  - clear. intros fuel a b i ls sb rem [Hr Hside]. destruct (Hside (opposite (a_side a))) as (m & _ & Hvs).
    unfold match_step. mgo (best_level (opposite (a_side a)) (levels b)) (Ctx b i).
    rewrite (vs_best _ _ _ _ Hvs). destruct m as [|[lp pl] m2]; [done|]. simpl.
    pose proof (vs_active _ _ _ _ Hvs) as Hac. apply Forall_cons in Hac as [(w & Hw & _) _].
    destruct (negb (rem >? 0)); [done|]. mstep (lvl_ok b i _ lp w Hw).
    rewrite (vs_price _ _ _ _ Hvs _ _ Hw). simpl. by destruct (no_cross _ _ lp).
  - rewrite <-(sr_length _ _ _ _ (proj1 Hrep)). apply sr_size with sb, Hrep.
Qed.
End vec_refine.
