(* ===== verification/VecTheorems.v ===== *)
(** * VecTheorems: the vector book behind the interfaces

    The vector book discharges [BookCoreLaws], so its handlers implement the
    abstract requests with the announcements of [VectorBook], for prices below
    the number of slots; with that it is an [OrderBook] of the engine. *)

From S2P Require Import Prelude Types BookSpec DList Memory StoreRep LevelMap Levels MatchLoop BookSpecFacts BookTime BookCore MatchingEngine OrderBookVector VecRefine MapTheorems EngineMap.
Import VecOB.

Section vec_core.
Context {P : Type} `{ObjectPool P} `{!ObjectPoolLaws P}.
Variable maxLevels : Z.

Definition vec_core : BookCore P vec_levels := {|
  core_match := match_ true; core_insert := insert; core_remove := remove |}.

Definition vec_core_laws : BookCoreLaws (H0 := vec_core) VectorBook P vec_levels.
Proof.
  refine {| core_rep := vec_rep maxLevels; core_price := λ p, 0 ≤ p < maxLevels |}.
  - by intros b ls sb [??].
  - intros b ls sb [[? ? ? ? ? ? Hn] Hside]. split; [|exact Hside].
    split; try done. simpl. by rewrite Hn.
  - intros b ls sb s l1 l l2 w q o1 o2 Hr Hls Hl Hs Hlen.
    apply (vec_rep_change maxLevels b ls sb s l1 l l2 w (set_remaining q w) o1 o2); eauto.
  - intros. by eapply vec_match_ok.
  - intros. by eapply vec_insert_ok.
  - intros. by eapply vec_remove_ok.
Defined.
End vec_core.

(** The vector book [b] represents the abstract book [sb]. *)
Definition vec_book_rel {P} `{ObjectPool P} (maxLevels : Z) (b : book P vec_levels) (sb : sbook)
    : Prop :=
  (∃ ls, vec_rep maxLevels b ls sb) ∧ s_wf sb ∧
  (length (s_orders sb) ≤ pool_capacity (pool_ b))%nat.

Lemma vec_new_slot maxLevels p :
  (list_to_map ((λ p, (p, idle_slot p)) <$> seqZ 0 maxLevels) : gmap Z PriceLevel) !! p =
  if decide (0 ≤ p < maxLevels) then Some (idle_slot p) else None.
Proof.
  case_decide as Hp.
  - apply elem_of_list_to_map_1.
    + rewrite <-list_fmap_compose. simpl. apply NoDup_fmap_2; [by intros ?|apply NoDup_seqZ].
    + apply list_elem_of_fmap. exists p. split; [done|]. apply elem_of_seqZ. lia.
  - apply not_elem_of_list_to_map_1. rewrite <-list_fmap_compose. simpl.
    intros (q & -> & Hq)%list_elem_of_fmap. apply elem_of_seqZ in Hq. simpl in *. lia.
Qed.

Lemma vec_new_side maxLevels :
  vec_side maxLevels (list_to_map ((λ p, (p, idle_slot p)) <$> seqZ 0 maxLevels)) None [].
Proof.
  split; simpl; [..|apply dlist_nil| |done].
  - intros p. rewrite vec_new_slot. case_decide; [by split; eauto|]. split; [by intros []|done].
  - intros p pl. rewrite vec_new_slot. case_decide; [|done]. by intros [= <-].
  - constructor.
  - intros p pl. rewrite vec_new_slot. case_decide; [|done]. by intros [= <-].
Qed.

Lemma vec_new_rel {P} `{ObjectPool P} `{!ObjectPoolLaws P} maxLevels n :
  vec_book_rel maxLevels (vec_new (P := P) maxLevels n) s_empty.
Proof.
  split; [|split; [apply s_wf_empty|simpl; lia]]. exists (λ _, []). split.
  - split; simpl; try done.
    + intros _. constructor.
    + intros l s. split; [by intros ?%elem_of_nil|]. intros (o & Ho & _). by rewrite lookup_empty in Ho.
    + intros []; constructor.
    + by rewrite pool_new_live, dom_empty_L.
    + intros c id l. unfold index_find. rewrite lookup_empty. simpl. split; [done|].
      intros (o & Ho & _). by rewrite lookup_empty in Ho.
  - intros s. exists []. split; [split; [constructor|exists []; split; [constructor|done]]|].
    destruct s; apply vec_new_side.
Qed.

Section vec_handlers.
Context {P : Type} `{ObjectPool P} `{!ObjectPoolLaws P}.
Variable maxLevels : Z.
Variables (b : book P vec_levels) (i : engine_io) (sb : sbook).
Hypothesis Hrel : vec_book_rel maxLevels b sb.

Lemma vec_add_ok tickerId clientId clientOrderId orderType price qty side token :
  (length (s_orders sb) < pool_capacity (pool_ b))%nat → 0 ≤ price < maxLevels →
  0 ≤ qty < 2 ^ 32 → s_find (clientId, clientOrderId) sb = None →
  let r := s_addOrder VectorBook tickerId clientId clientOrderId orderType price qty side token sb i in
  ∃ b', addOrder true tickerId clientId clientOrderId orderType price qty side token
      (Ctx b i) = Ok (tt, Ctx b' r.2) ∧ vec_book_rel maxLevels b' r.1 ∧
    pool_capacity (pool_ b') = pool_capacity (pool_ b).
Proof.
  intros Hlt Hp Hq Hk.
  exact (core_add_ok (BookCore0 := vec_core) (BookCoreLaws0 := vec_core_laws maxLevels)
    VectorBook b i sb tickerId clientId clientOrderId orderType price qty side token Hrel Hlt Hp Hq Hk).
Qed.

Lemma vec_cancel_ok tickerId clientId clientOrderId qty token :
  0 ≤ qty →
  let r := s_cancelOrder VectorBook tickerId clientId clientOrderId qty token sb i in
  ∃ b', cancelOrder true tickerId clientId clientOrderId qty token (Ctx b i) =
      Ok (tt, Ctx b' r.2) ∧ vec_book_rel maxLevels b' r.1 ∧
    pool_capacity (pool_ b') = pool_capacity (pool_ b).
Proof.
  intros Hq.
  exact (core_cancel_ok (BookCore0 := vec_core) (BookCoreLaws0 := vec_core_laws maxLevels)
    VectorBook b i sb tickerId clientId clientOrderId qty token Hrel Hq).
Qed.

Lemma vec_replace_ok tickerId clientId clientOrderId newClientOrderId orderType price qty token :
  0 ≤ price < maxLevels → 0 ≤ qty < 2 ^ 32 →
  s_find (clientId, newClientOrderId) (s_delete (clientId, clientOrderId) sb) = None →
  let r := s_replaceOrder VectorBook tickerId clientId clientOrderId newClientOrderId orderType
             price qty token sb i in
  ∃ b', replaceOrder true tickerId clientId clientOrderId newClientOrderId orderType price
      qty token (Ctx b i) = Ok (tt, Ctx b' r.2) ∧ vec_book_rel maxLevels b' r.1 ∧
    pool_capacity (pool_ b') = pool_capacity (pool_ b).
Proof.
  intros Hp Hq Hk.
  exact (core_replace_ok (BookCore0 := vec_core) (BookCoreLaws0 := vec_core_laws maxLevels)
    VectorBook b i sb tickerId clientId clientOrderId newClientOrderId orderType price qty token
    Hrel Hp Hq Hk).
Qed.
End vec_handlers.

(** ** The vector book as the engine's order book *)

Section vec_order_book.
Context {P : Type} `{ObjectPool P} `{!ObjectPoolLaws P}.
Variable maxLevels : Z.

Definition vec_order_book : OrderBook (book P vec_levels) := {|
  ob_new := vec_new maxLevels;
  ob_addOrder t c id ty p q s tok := call (addOrder true t c id ty p q s tok);
  ob_cancelOrder t c id q tok := call (cancelOrder true t c id q tok);
  ob_replaceOrder t c id id' ty p q tok := call (replaceOrder true t c id id' ty p q tok)
|}.

Definition vec_order_book_laws : OrderBookLaws (H := vec_order_book) VectorBook (book P vec_levels).
Proof.
  refine {| ob_rel n b sb := vec_book_rel maxLevels b sb ∧ pool_capacity (pool_ b) = n;
            ob_price := λ p, 0 ≤ p < maxLevels |}.
  - intros n. split; [apply vec_new_rel|apply pool_new_capacity].
  - by intros n b sb [(_ & ? & _) _].
  - intros n b i sb t c id ty p q s tok [Hrel <-] Hlt Hp Hq Hk r.
    destruct (vec_add_ok maxLevels b i sb Hrel t c id ty p q s tok Hlt Hp Hq Hk)
      as (b' & Hrun & Hrel' & Hc). exists b'. simpl. unfold call. by rewrite Hrun.
  - intros n b i sb t c id q tok [Hrel <-] Hq r.
    destruct (vec_cancel_ok maxLevels b i sb Hrel t c id q tok Hq)
      as (b' & Hrun & Hrel' & Hc). exists b'. simpl. unfold call. by rewrite Hrun.
  - intros n b i sb t c id id' ty p q tok [Hrel <-] Hp Hq Hk r.
    destruct (vec_replace_ok maxLevels b i sb Hrel t c id id' ty p q tok Hp Hq Hk)
      as (b' & Hrun & Hrel' & Hc). exists b'. simpl. unfold call. by rewrite Hrun.
Defined.

#[local] Instance vec_ob : OrderBook (book P vec_levels) := vec_order_book.
#[local] Instance vec_ob_laws : OrderBookLaws VectorBook (book P vec_levels) := vec_order_book_laws.

Lemma vec_run_ok books n rqs :
  run_ready (λ p, 0 ≤ p < maxLevels) books n rqs →
  ∃ e, run_requests rqs (engine_new books n) = Ok e ∧
    engine_state e = engine_state (s_run VectorBook rqs (s_engine_new books)) ∧
    Forall2 (vec_book_rel maxLevels) (ticker_order_book_ e)
      (ticker_order_book_ (s_run VectorBook rqs (s_engine_new books))).
Proof.
  intros (Hrq & Hnd & Hload).
  destruct (run_ok VectorBook n rqs (engine_new books n) (s_engine_new books)) as (e & Hrun & HF & Hio).
  - apply engine_new_rel.
  - simpl. by rewrite length_replicate.
  - by apply new_admissible.
  - exists e. split_and!; [done|done|]. eapply Forall2_impl; [exact HF|]. by intros b sb [? _].
Qed.
End vec_order_book.
