(* ===== verification/BookEquiv.v ===== *)
(** * BookEquiv: the map book and the vector book compared

    Both books evolve the same abstract book.  Their announcements are equal up
    to three differences, which [common] erases or [modest] excludes: the match
    id of a TRADE update, the leaves quantity of a CANCELED response, and what
    follows a replace by a fill-and-kill order. *)

From S2P Require Import Prelude Types BookSpec DList Memory StoreRep LevelMap Levels BookSpecFacts BookTime BookCore MatchingEngine Trades OrderBookMap MapRefine MapTheorems EngineMap OrderBookVector VecRefine VecTheorems.

(** ** What both books announce *)

Definition common_response (r : MEClientResponse) : MEClientResponse :=
  match rs_status_ r with
  | CANCELED =>
      mkResponse (rs_client_id_ r) (rs_ticker_id_ r) (rs_client_order_id_ r) (rs_market_order_id_ r)
        (rs_side_ r) (rs_price_ r) (rs_qty_ r) (rs_type_ r) CANCELED (rs_executed_qty_ r)
        (rs_execution_price_ r) 0 (rs_match_id_ r) (rs_order_token_ r)
  | _ => r
  end.

Definition common_update (u : MEMarketUpdate) : MEMarketUpdate :=
  mkUpdate (mu_ticker_id_ u) (mu_market_order_id_ u) (mu_type_ u) (mu_side_ u) (mu_price_ u)
    (mu_qty_ u) (mu_new_order_id_ u) OrderId_INVALID.

Definition common (e : event) : event :=
  match e with
  | Resp r => Resp (common_response r)
  | Upd u => Upd (common_update u)
  end.

(** Not a replace by a fill-and-kill order. *)
Definition modest (rq : MEClientRequest) : bool :=
  negb (bool_decide (rq_action_ rq = REQ_MODIFY) && bool_decide (rq_type_ rq = FillAndKill)).

(** ** The books evolve alike *)

(** Executions apart from their match ids. *)
Definition anon (f : fill) : fill :=
  {| f_order := f_order f; f_qty := f_qty f; f_mid := 0; f_left := f_left f |}.

Lemma sweep_anon side price rem mid mid' os :
  let r := s_sweep side price rem mid os in let r' := s_sweep side price rem mid' os in
  r.1.1.1 = r'.1.1.1 ∧ r.1.1.2 = r'.1.1.2.
Proof.
  revert rem mid mid'. induction os as [|o os IH]; intros rem mid mid'; [done|].
  rewrite !s_sweep_cons. destruct (_ || _); [done|]. cbv zeta.
  change (f_after (fill_of rem mid' o)) with (f_after (fill_of rem mid o)).
  change (f_left (fill_of rem mid' o)) with (f_left (fill_of rem mid o)).
  destruct (_ =? 0); [|done].
  specialize (IH (f_left (fill_of rem mid o)) (u64 (mid + 1)) (u64 (mid' + 1))).
  destruct (s_sweep _ _ _ (u64 (mid + 1)) os) as [[[??]?]?],
    (s_sweep _ _ _ (u64 (mid' + 1)) os) as [[[??]?]?]. done.
Qed.

Lemma s_match_book v v' a sb io io' :
  (s_match v a sb io).1.1 = (s_match v' a sb io').1.1 ∧
  (s_match v a sb io).2 = (s_match v' a sb io').2.
Proof.
  unfold s_match.
  destruct (sweep_anon (a_side a) (a_price a) (a_initialQuantity a) (next_match_id_ io)
    (next_match_id_ io') (s_side (opposite (a_side a)) sb)) as [H1 H2].
  destruct (s_sweep _ _ _ (next_match_id_ io) _) as [[[??]?]?],
    (s_sweep _ _ _ (next_match_id_ io') _) as [[[??]?]?]. simpl in *. by subst.
Qed.

Lemma dispatch_book v v' rq sb io io' :
  (s_dispatch v rq sb io).1 = (s_dispatch v' rq sb io').1.
Proof.
  unfold s_dispatch. destruct (rq_action_ rq).
  - unfold s_addOrder. match goal with |- context [s_match v ?a ?sb0 ?i] =>
      destruct (s_match_book v v' a sb0 i (emit [Resp (accepted_response a)] io')) as [H1 H2] end.
    destruct (s_match v _ _ _) as [[sb1 io1] rem], (s_match v' _ _ _) as [[sb1' io1'] rem'].
    simpl in *. subst. destruct (rem' >? 0); [|done]. by destruct (rq_type_ rq).
  - unfold s_cancelOrder. destruct (s_find _ _); [|done]. by destruct (_ >? _).
  - unfold s_replaceOrder. destruct (s_find _ _) as [old|]; [|done]. destruct (_ || _); [done|].
    match goal with |- context [s_match v ?a ?sb0 ?i] =>
      destruct (s_match_book v v' a sb0 i (emit [Resp (replaced_response a);
        Upd (modify_update a (o_marketOrderId_ old))] io')) as [H1 H2] end.
    destruct (s_match v _ _ _) as [[sb1 io1] rem], (s_match v' _ _ _) as [[sb1' io1'] rem'].
    simpl in *. subst. destruct (rem' =? 0); [done|]. destruct (rq_type_ rq); [done|].
    by destruct v, v'.
Qed.

(** ** The announcements agree *)

Definition io_agree (io io' : engine_io) : Prop :=
  next_match_id_ io = next_match_id_ io' ∧ common <$> sent io = common <$> sent io'.

Lemma io_agree_emit evs evs' io io' :
  common <$> evs = common <$> evs' → io_agree io io' → io_agree (emit evs io) (emit evs' io').
Proof. intros He [Hn Hs]. split; [done|]. simpl. by rewrite !fmap_app, He, Hs. Qed.

Lemma common_fills a fs :
  common <$> (fs ≫= fill_events MapBook a) = common <$> (fs ≫= fill_events VectorBook a).
Proof.
  induction fs as [|f fs IH]; [done|]. rewrite !bind_cons, !fmap_app. by rewrite IH.
Qed.

Lemma io_agree_match a sb io io' :
  io_agree io io' →
  io_agree (s_match MapBook a sb io).1.2 (s_match VectorBook a sb io').1.2 ∧
  (s_match MapBook a sb io).1.1 = (s_match VectorBook a sb io').1.1 ∧
  (s_match MapBook a sb io).2 = (s_match VectorBook a sb io').2.
Proof.
  intros [Hn Hs]. split; [|apply s_match_book]. unfold s_match. rewrite Hn.
  destruct (s_sweep _ _ _ _ _) as [[[??]?] fs]. split; [done|]. simpl.
  by rewrite !fmap_app, Hs, common_fills.
Qed.

Lemma io_agree_dispatch rq sb io io' :
  modest rq = true → io_agree io io' →
  io_agree (s_dispatch MapBook rq sb io).2 (s_dispatch VectorBook rq sb io').2.
Proof.
  intros Hmod Hio. unfold s_dispatch. unfold modest in Hmod. destruct (rq_action_ rq).
  - unfold s_addOrder. match goal with |- context [s_match MapBook ?a ?sb0 ?i] =>
      destruct (io_agree_match a sb0 i (emit [Resp (accepted_response a)] io')) as (Hio' & H1 & H2);
      [by apply io_agree_emit|] end.
    destruct (s_match MapBook _ _ _) as [[sb1 io1] rem], (s_match VectorBook _ _ _) as [[sb1' io1'] rem'].
    simpl in *. subst. destruct (rem' >? 0); [|done].
    destruct (rq_type_ rq); by apply io_agree_emit.
  - unfold s_cancelOrder. destruct (s_find _ _) as [o|]; [|by apply io_agree_emit].
    destruct (_ >? _); [by apply io_agree_emit|]. by apply io_agree_emit.
  - unfold s_replaceOrder. destruct (s_find _ _) as [old|]; [|by apply io_agree_emit].
    destruct (_ || _); [by apply io_agree_emit|].
    match goal with |- context [s_match MapBook ?a ?sb0 ?i] =>
      destruct (io_agree_match a sb0 i (emit [Resp (replaced_response a);
        Upd (modify_update a (o_marketOrderId_ old))] io')) as (Hio' & H1 & H2);
      [by apply io_agree_emit|] end.
    destruct (s_match MapBook _ _ _) as [[sb1 io1] rem], (s_match VectorBook _ _ _) as [[sb1' io1'] rem'].
    simpl in *. subst. destruct (rem' =? 0); [done|]. by destruct (rq_type_ rq).
Qed.
