(* ===== verification/EngineVector.v ===== *)
(** * EngineVector: the exchange engine with the vector order book

    The guarantees of the engine when it is built with
    [NANOEXCHANGE_USE_VECTOR_ORDER_BOOK], and the comparison of the two builds
    on the same requests: the books are the same, the messages differ in the
    three ways [BookEquiv] names. *)

From S2P Require Import Prelude Types BookSpec DList Memory StoreRep LevelMap Levels BookSpecFacts BookTime Soundness BookCore MatchingEngine Trades OrderBookMap MapRefine MapTheorems EngineMap OrderBookVector VecRefine VecTheorems BookEquiv.
Import VecOB.

(** ** The levels of a vector book *)

(** The best pointer of a side is the best price among its orders, and it is
    null exactly when the side is empty. *)
Record best_sound {P} (b : book P vec_levels) : Prop := {
  bs_some s p :
    best_level s (levels b) = Some p →
    ∃ l o, objects b !! l = Some o ∧ o_side_ o = s ∧ o_price_ o = p;
  bs_best s l o :
    objects b !! l = Some o → o_side_ o = s →
    ∃ p, best_level s (levels b) = Some p ∧ better s (o_price_ o) p = false
}.

Lemma vec_rep_sided {P} `{ObjectPool P} maxLevels (b : book P vec_levels) ls sb :
  vec_rep maxLevels b ls sb → sided b ls sb.
Proof. intros [Hr Hside]. split; [done|]. intros s. destruct (Hside s) as (m & ? & _). eauto. Qed.

Lemma vec_rep_best {P} `{ObjectPool P} maxLevels (b : book P vec_levels) ls sb :
  vec_rep maxLevels b ls sb → best_sound b.
Proof.
  intros [Hr Hside]. split.
  - intros s p Hp. destruct (Hside s) as (m & Hso & Hvs). rewrite (vs_best _ _ _ _ Hvs) in Hp.
    destruct m as [|[p' pl] m]; simplify_eq/=.
    destruct (level_first b ls sb s _ p pl Hr Hso) as (l & o & _ & ? & ? & ? & _); [constructor|].
    by exists l, o.
  - intros s l o Ho <-. destruct (Hside (o_side_ o)) as (m & Hso & Hvs).
    destruct (side_ok_node _ _ _ _ l o Hso) as (m1 & pl & m2 & G1 & g1 & g2 & G2 & -> & _);
      [apply (sr_mem _ _ _ Hr); eauto|done|].
    rewrite (vs_best _ _ _ _ Hvs). destruct Hso as [Hsort _].
    apply lm_sorted_app in Hsort as (_ & _ & Hb1 & _).
    destruct m1 as [|[q pl'] m1]; simpl; eexists; (split; [done|]).
    + apply better_irrefl.
    + apply Forall_cons in Hb1 as [Hq _]. by apply better_asym.
Qed.

(** ** The engine *)

(** C21: Built with the vector book, a new engine processes without a fault
    every sequence of requests with listed tickers, quantities of 32 bits,
    prices below the number of slots, fresh order ids and at most as many NEW
    requests per ticker, over the whole run, as its pool has slots, announces
    exactly what the specification of the vector book announces, and every book
    represents its abstract book. *)
Theorem engine_vec_refines {P : Type} `{ObjectPool P} `{!ObjectPoolLaws P}
    (maxLevels : Z) (books n : nat) (rqs : list MEClientRequest) :
  run_ready (λ p, 0 ≤ p < maxLevels) books n rqs →
  ∃ e, run_requests (H := vec_order_book maxLevels) rqs
         (engine_new (H := vec_order_book maxLevels) books n) = Ok e ∧
    engine_state e = engine_state (s_run VectorBook rqs (s_engine_new books)) ∧
    Forall2 (vec_book_rel (P := P) maxLevels) (ticker_order_book_ e)
      (ticker_order_book_ (s_run VectorBook rqs (s_engine_new books))).
Proof. by apply vec_run_ok. Qed.

Lemma engine_vec_refines_witness :
  ∃ e, run_requests (H := vec_order_book (P := SetPool.t) 128) demo_session
         (engine_new (H := vec_order_book 128) 1 4) = Ok e ∧
    length (sent (engine_state e)) = 11%nat.
Proof.
  destruct (engine_vec_refines (P := SetPool.t) 128 1 4 demo_session
    (demo_ready (λ p, 0 ≤ p < 128) ltac:(simpl; lia) ltac:(simpl; lia) ltac:(simpl; lia))) as (e & Hrun & Hio & _).
  exists e. split; [exact Hrun|]. rewrite Hio. vm_compute. reflexivity.
Defined.

(** C22: After any such run (prices below the number of slots, listed tickers,
    quantities of 32 bits, fresh order ids, at most as many NEW requests per
    ticker, over the whole run, as its pool has slots) of fewer than 2^64 - 1
    requests every vector book is sound: its memory is consistent, its market is
    open orders only, uncrossed and first come first served on each level, and
    [best_bid_] and [best_ask_] are the best prices of their sides, null exactly
    for an empty side. *)
Theorem engine_vec_sound {P : Type} `{ObjectPool P} `{!ObjectPoolLaws P}
    (maxLevels : Z) (books n : nat) (rqs : list MEClientRequest) :
  run_ready (λ p, 0 ≤ p < maxLevels) books n rqs → Z.of_nat (length rqs) + 1 < 2 ^ 64 →
  ∃ e, run_requests (H := vec_order_book (P := P) maxLevels) rqs
         (engine_new (H := vec_order_book maxLevels) books n) = Ok e ∧
    ∀ t b, ticker_order_book_ e !! t = Some b → memory_sound b ∧ market_sound b ∧ best_sound b.
Proof.
  intros Hready Hlen. destruct (vec_run_ok maxLevels books n rqs Hready) as (e & Hrun & _ & HF).
  exists e. split; [done|]. intros t b Hb.
  destruct (Forall2_lookup_l _ _ _ _ _ HF Hb) as (sb & Hsb & ([ls Hrep] & _)).
  destruct (new_run_inv VectorBook books n rqs t sb) as [Hw Ht];
    [apply Hready|apply Hready|by eapply run_ready_qty|done|done|].
  pose proof (vec_rep_sided _ _ _ _ Hrep) as Hsd.
  split_and!; [by eapply sided_memory|by eapply sided_market|by eapply vec_rep_best].
Qed.

Lemma engine_vec_sound_witness :
  ∃ e, run_requests (H := vec_order_book (P := SetPool.t) 128) demo_session
         (engine_new (H := vec_order_book 128) 1 4) = Ok e ∧
    ∀ t b, ticker_order_book_ e !! t = Some b → memory_sound b ∧ market_sound b ∧ best_sound b.
Proof.
  exact (engine_vec_sound 128 1 4 demo_session
    (demo_ready (λ p, 0 ≤ p < 128) ltac:(simpl; lia) ltac:(simpl; lia) ltac:(simpl; lia)) eq_refl).
Defined.

(** ** The two builds compared *)

Lemma s_run_books rqs : ∀ se se',
  ticker_order_book_ se = ticker_order_book_ se' →
  ticker_order_book_ (s_run MapBook rqs se) = ticker_order_book_ (s_run VectorBook rqs se').
Proof.
  induction rqs as [|rq rqs IH]; intros se se' Hb; [done|]. simpl. apply IH.
  unfold s_process. rewrite Hb. destruct (_ !! _) as [sb|]; [|done]. simpl.
  by rewrite (dispatch_book MapBook VectorBook rq sb _ (engine_state se')).
Qed.

Lemma s_run_agree rqs : ∀ se se',
  Forall (λ rq, modest rq = true) rqs → ticker_order_book_ se = ticker_order_book_ se' →
  io_agree (engine_state se) (engine_state se') →
  io_agree (engine_state (s_run MapBook rqs se)) (engine_state (s_run VectorBook rqs se')).
Proof.
  induction rqs as [|rq rqs IH]; intros se se' Hmod Hb Hio; [done|].
  apply Forall_cons in Hmod as [Hrq Hmod]. simpl. apply IH; [done| |].
  - unfold s_process. rewrite Hb. destruct (_ !! _) as [sb|]; [|done]. simpl.
    by rewrite (dispatch_book MapBook VectorBook rq sb _ (engine_state se')).
  - unfold s_process. rewrite Hb. destruct (_ !! _) as [sb|]; [|done]. simpl.
    by apply io_agree_dispatch.
Qed.

Lemma run_ready_weaken maxLevels books n rqs :
  run_ready (λ p, 0 ≤ p < maxLevels) books n rqs → run_ready (λ _, True) books n rqs.
Proof.
  intros (HF & ? & ?). split_and!; [|done|done]. eapply Forall_impl; [exact HF|].
  intros rq (? & ? & ?). split_and!; lia || by right.
Qed.

(** C23: Both builds keep the same books and say the same: on the same requests,
    with prices the vector can hold, listed tickers, quantities of 32 bits,
    fresh order ids and at most as many NEW requests per ticker, over the whole
    run, as its pool has slots, both engines return and book by book they
    represent the same abstract book, so the same resting orders with the same
    remaining quantities in the same priority order.  As long as no order is
    replaced by a fill-and-kill order they send the same messages in the same
    order with the same match ids, except that the vector book leaves the match
    id out of TRADE updates and reports the remaining instead of the cancelled
    quantity in CANCELED responses.  For the map book, a destroyed map node
    whose head was null is assumed to still read as null. *)
Theorem engine_variants_agree {P : Type} `{ObjectPool P} `{!ObjectPoolLaws P}
    (freed_node : PriceLevel → PriceLevel) (maxLevels : Z) (books n : nat)
    (rqs : list MEClientRequest) :
  (∀ l, pl_head l = None → pl_head (freed_node l) = None) →
  run_ready (λ p, 0 ≤ p < maxLevels) books n rqs →
  ∃ em ev sbs,
    run_requests (H := map_order_book freed_node) rqs
      (engine_new (H := map_order_book freed_node) books n) = Ok em ∧
    run_requests (H := vec_order_book maxLevels) rqs
      (engine_new (H := vec_order_book maxLevels) books n) = Ok ev ∧
    Forall2 (map_book_rel (P := P)) (ticker_order_book_ em) sbs ∧
    Forall2 (vec_book_rel (P := P) maxLevels) (ticker_order_book_ ev) sbs ∧
    (Forall (λ rq, modest rq = true) rqs →
     next_match_id_ (engine_state em) = next_match_id_ (engine_state ev) ∧
     common <$> sent (engine_state em) = common <$> sent (engine_state ev)).
Proof.
  intros Hnull Hready.
  destruct (map_run_ok freed_node Hnull books n rqs) as (em & Hm & Hiom & HFm);
    [by eapply run_ready_weaken|].
  destruct (vec_run_ok maxLevels books n rqs Hready) as (ev & Hv & Hiov & HFv).
  exists em, ev. eexists. split_and!; [done|done|exact HFm|..].
  - by rewrite (s_run_books rqs (s_engine_new books) (s_engine_new books) eq_refl).
  - intros Hmod. rewrite Hiom, Hiov. split; by apply s_run_agree.
Qed.

Lemma engine_variants_agree_witness :
  ∃ em ev sbs,
    run_requests (H := map_order_book id) demo_session
      (engine_new (H := map_order_book id) 1 4) = Ok em ∧
    run_requests (H := vec_order_book 128) demo_session
      (engine_new (H := vec_order_book 128) 1 4) = Ok ev ∧
    Forall2 (map_book_rel (P := SetPool.t)) (ticker_order_book_ em) sbs ∧
    Forall2 (vec_book_rel (P := SetPool.t) 128) (ticker_order_book_ ev) sbs ∧
    common <$> sent (engine_state em) = common <$> sent (engine_state ev).
Proof.
  destruct (engine_variants_agree (P := SetPool.t) id 128 1 4 demo_session (λ l Hl, Hl)
    (demo_ready (λ p, 0 ≤ p < 128) ltac:(simpl; lia) ltac:(simpl; lia) ltac:(simpl; lia)))
    as (em & ev & sbs & Hm & Hv & HFm & HFv & Hmsg).
  exists em, ev, sbs. split; [exact Hm|]. split; [exact Hv|]. split; [exact HFm|]. split; [exact HFv|].
  apply Hmsg. repeat constructor.
Defined.

(** ** Where the builds differ *)

(** The two engines of a session on one ticker, with four orders per pool and
    128 price slots. *)
Definition map_session (rqs : list MEClientRequest) :=
  run_requests (H := map_order_book (P := SetPool.t) id) rqs
    (engine_new (H := map_order_book id) 1 4).
Definition vec_session (rqs : list MEClientRequest) :=
  run_requests (H := vec_order_book (P := SetPool.t) 128) rqs
    (engine_new (H := vec_order_book 128) 1 4).

Definition session_events {B} (o : outcome (engine B)) : list event :=
  match o with Ok e => sent (engine_state e) | Fault _ => [] end.

(** A resting order of 10 that is replaced by a fill-and-kill order of 7. *)
Definition fak_replace : list MEClientRequest :=
  [ demo_request REQ_NEW 1 1 0 100 10 SELL;
    {| rq_client_id_ := 1; rq_client_order_id_ := 1; rq_new_client_order_id_ := 2;
       rq_price_ := 90; rq_ticker_id_ := 0; rq_qty_ := 7; rq_action_ := REQ_MODIFY;
       rq_type_ := FillAndKill; rq_side_ := SELL; rq_order_token_ := demo_token |} ].

(** C37: The builds announce the same events differently.  Replacing an order by a
    fill-and-kill order that does not trade: the map book answers MODIFIED and
    then CANCELED, and its MODIFY update is followed by a CANCEL update; the
    vector book stops after the MODIFY update, so the client is told that 7
    shares are working and the feed shows an order no book holds.  Cancelling 2
    of 5 shares: the map book confirms the 2 shares cancelled, the vector book
    puts the 3 shares left into the field the OUCH encoder sends as the
    decrement.  A trade: the update of the vector book carries the invalid match
    id where that of the map book carries the id both parties were told. *)
Theorem vec_announces_differently :
  let statuses evs := rs_status_ <$> responses evs in
  let types evs := mu_type_ <$> updates evs in
  let cancel := [demo_request REQ_NEW 1 1 0 100 5 SELL; demo_request REQ_CANCEL 1 1 0 0 2 SELL] in
  let leaves evs := rs_leaves_qty_ <$> responses evs in
  let ids evs := (rs_match_id_ <$> List.filter (λ r, bool_decide (rs_status_ r = EXECUTED)) (responses evs),
                  mu_match_id_ <$> trades evs) in
  (statuses (session_events (map_session fak_replace)) = [ACCEPTED; MODIFIED; CANCELED] ∧
   types (session_events (map_session fak_replace)) = [UPD_ADD; UPD_MODIFY; UPD_CANCEL] ∧
   leaves (session_events (map_session cancel)) = [5; 2] ∧
   ids (session_events (map_session demo_session)) = ([1; 1], [1])) ∧
  (statuses (session_events (vec_session fak_replace)) = [ACCEPTED; MODIFIED] ∧
   types (session_events (vec_session fak_replace)) = [UPD_ADD; UPD_MODIFY] ∧
   leaves (session_events (vec_session cancel)) = [5; 3] ∧
   ids (session_events (vec_session demo_session)) = ([1; 1], [OrderId_INVALID])) ∧
  match vec_session fak_replace with
  | Ok e => (objects <$> ticker_order_book_ e) = [∅]
  | Fault _ => False
  end.
Proof. split_and!; vm_compute; reflexivity. Qed.

(** C36: A price the vector has no slot for: a good-till-cancel order that does
    not trade and whose price is not below the number of slots makes [insert]
    index the vector out of range; nothing rejects the price beforehand. *)
Theorem vec_price_out_of_range {P : Type} `{ObjectPool P} `{!ObjectPoolLaws P} (maxLevels : Z)
    (b : book P vec_levels) (i : engine_io) (sb : sbook)
    tickerId clientId clientOrderId price qty side token :
  vec_book_rel maxLevels b sb → (length (s_orders sb) < pool_capacity (pool_ b))%nat →
  0 < qty < 2 ^ 32 → maxLevels ≤ price → clear_of side price (s_side (opposite side) sb) →
  addOrder true tickerId clientId clientOrderId GoodTillCancel price qty side token (Ctx b i) =
    Fault OutOfRange.
Proof.
  intros ([ls Hrep] & Hw & _) Hlt Hq Hp Hc. unfold addOrder.
  mgo (nextMarketOrderId b) (Ctx (bump_next b) i).
  set (a := {| a_tickerId := _ |}).
  set (i1 := emit [Resp (accepted_response a)] i).
  mgo tt (Ctx (bump_next b) i1).
  assert (Hrep1 : vec_rep maxLevels (bump_next b) ls (s_bump sb)).
  { exact (core_bump (BookCoreLaws := vec_core_laws maxLevels) b ls sb Hrep). }
  pose proof (vec_match_ok maxLevels a (bump_next b) i1 ls (s_bump sb) Hrep1
    (wf_qty_orders _ (wf_bump _ Hw)) ltac:(simpl; lia)) as Hm.
  rewrite s_match_clear in Hm by (simpl; by rewrite s_side_bump).
  destruct Hm as (b1 & ls1 & Hrun & [Hr1 Hside1] & Hcap).
  mstep Hrun. simpl. assert ((qty >? 0) = true) as -> by lia. simpl.
  destruct (allocate_ok b1 i1 (resting_order a qty) (sr_pool _ _ _ Hr1)) as (l & p' & Hal & _).
  { rewrite (sr_total _ _ _ Hr1), Hcap. simpl. exact Hlt. }
  unfold insert. rewrite (bind_fault _ _ _ OutOfRange); [done|].
  mstep Hal. apply bind_fault. unfold append_to_level. apply bind_fault.
  unfold lvl, gets, mbind, M_bind. simpl.
  destruct (Hside1 side) as (m & _ & Hvs).
  destruct (side_vector side (levels b1) !! price) as [pl|] eqn:Hpl; [|done].
  assert (0 ≤ price < maxLevels) by (apply (vs_slots _ _ _ _ Hvs); eauto). lia.
Qed.

Lemma vec_price_out_of_range_witness :
  addOrder true 0 1 1 GoodTillCancel 256000 5 SELL demo_token
    (Ctx (vec_new (P := SetPool.t) MAX_PRICE_LEVELS 4) {| next_match_id_ := 1; sent := [] |}) =
  Fault OutOfRange.
Proof.
  apply (vec_price_out_of_range MAX_PRICE_LEVELS _ _ s_empty);
    [apply vec_new_rel|simpl; lia|lia|unfold MAX_PRICE_LEVELS; lia|constructor].
Defined.
