(* ===== verification/TokenManager.v ===== *)
(** * TokenManager: order tokens and internal order ids

    [src/src/network/gateway/token_manager.h].  [OrderTokenManager] hands out
    the internal order ids of the gateway and resolves a client's OUCH token
    to the newest id registered for it.

    The keys of [token_to_id_] are [std::string_view]s into the slots of
    [id_to_token_]: a key owns no bytes.  A key is therefore the index of the
    slot it points into, and comparing keys compares the bytes these slots hold
    at that moment.  That no key ever changes under the table is part of the
    invariant [token_rep] and not of the model. *)

From S2P Require Import Prelude Types.

(** ** The manager *)

Record info := Info {
  token_ : OrderToken;
  tickerId_ : TickerId;
  clientId_ : ClientId
}.

#[global] Instance info_eq_dec : EqDecision info.
Proof. solve_decision. Defined.

Definition info_default : info := Info (replicate OUCH_TOKEN_LEN 0) 0 0.

Record OrderTokenManager := TokenManager {
  id_to_token_ : list info;
  token_to_id_ : gmap ClientId (list (nat * OrderId));
  next_internal_id_ : OrderId
}.

(** [explicit OrderTokenManager(size_t size)] *)
Definition manager_new (size : nat) : OrderTokenManager :=
  TokenManager (replicate (S size) info_default) ∅ 1.

(** The bytes behind a [std::string_view] of slot [k]. *)
Definition view_bytes (slots : list info) (k : nat) : OrderToken :=
  from_option token_ [] (slots !! k).

(** [unordered_map<string_view, OrderId>::find] *)
Fixpoint view_find (slots : list info) (token : OrderToken) (table : list (nat * OrderId))
    : option OrderId :=
  match table with
  | [] => None
  | (k, id) :: table' =>
      if bool_decide (view_bytes slots k = token) then Some id else view_find slots token table'
  end.

(** [unordered_map<string_view, OrderId>::insert_or_assign]: an equal key stays
    in the table and gets the new value. *)
Fixpoint insert_or_assign (slots : list info) (view : nat) (id : OrderId)
    (table : list (nat * OrderId)) : list (nat * OrderId) :=
  match table with
  | [] => [(view, id)]
  | (k, id') :: table' =>
      if bool_decide (view_bytes slots k = view_bytes slots view) then (k, id) :: table'
      else (k, id') :: insert_or_assign slots view id table'
  end.

Definition registerNewToken (client_id : ClientId) (ouch_token : list Z) (tickerId : TickerId)
    (m : OrderTokenManager) : OrderId * OrderTokenManager :=
  if Z.of_nat (length (id_to_token_ m)) <=? next_internal_id_ m then (0, m)
  else
    let id := next_internal_id_ m in
    let slot := Z.to_nat id in
    let slots :=
      <[slot := Info (take OUCH_TOKEN_LEN ouch_token) tickerId client_id]> (id_to_token_ m) in
    let table := default [] (token_to_id_ m !! client_id) in
    (id, TokenManager slots
           (<[client_id := insert_or_assign slots slot id table]> (token_to_id_ m))
           (id +₆₄ 1)).

Definition getID (client_id : ClientId) (ouch_token : list Z) (m : OrderTokenManager) : OrderId :=
  match token_to_id_ m !! client_id with
  | None => 0
  | Some table =>
      default 0 (view_find (id_to_token_ m) (take OUCH_TOKEN_LEN ouch_token) table)
  end.

Definition getToken (internal_id : OrderId) (m : OrderTokenManager) : option OrderToken :=
  if (0 <? internal_id) && (internal_id <? next_internal_id_ m)
  then token_ <$> id_to_token_ m !! Z.to_nat internal_id
  else None.

(** ** The contract: a history of registrations *)

(** [newest c tok n h]: the last registration of client [c]'s token [tok] in the
    history [h], whose first entry has id [n]; 0 when there is none. *)
Fixpoint newest (c : ClientId) (tok : OrderToken) (n : Z) (h : list info) : OrderId :=
  match h with
  | [] => 0
  | i :: h' =>
      let later := newest c tok (n + 1) h' in
      if later =? 0
      then (if bool_decide (clientId_ i = c ∧ token_ i = tok) then n else 0)
      else later
  end.

Lemma newest_snoc c tok n h i :
  0 < n →
  newest c tok n (h ++ [i]) =
  if bool_decide (clientId_ i = c ∧ token_ i = tok) then n + Z.of_nat (length h)
  else newest c tok n h.
Proof.
  revert n. induction h as [|j h IH]; intros n Hn; simpl.
  - rewrite Z.add_0_r. by destruct (bool_decide _).
  - rewrite IH by lia. destruct (bool_decide (clientId_ i = c ∧ _)) eqn:Hi; [|done].
    destruct (Z.eqb_spec (n + 1 + Z.of_nat (length h)) 0); lia.
Qed.

Lemma newest_range c tok n h :
  0 < n → newest c tok n h = 0 ∨ n ≤ newest c tok n h < n + Z.of_nat (length h).
Proof.
  revert n. induction h as [|j h IH]; intros n Hn; simpl; [by left|].
  destruct (IH (n + 1)) as [->|Hr]; [lia|simpl; destruct (bool_decide _); lia|].
  destruct (Z.eqb_spec (newest c tok (n + 1) h) 0); lia.
Qed.

(** The newest registration is one of the client and of the token. *)
Lemma newest_sound c tok h :
  newest c tok 1 h ≠ 0 →
  ∃ i, h !! Z.to_nat (newest c tok 1 h - 1) = Some i ∧ clientId_ i = c ∧ token_ i = tok.
Proof.
  induction h as [|i h IH] using rev_ind; [done|]. rewrite newest_snoc by lia.
  case_bool_decide as Hi; intros Hne.
  - exists i. replace (1 + Z.of_nat (length h) - 1) with (Z.of_nat (length h)) by lia.
    rewrite Nat2Z.id, lookup_app_r, Nat.sub_diag by lia. naive_solver.
  - destruct (IH Hne) as (j & Hj & ?). exists j. split; [|done].
    rewrite lookup_app_l; [done|]. by eapply lookup_lt_Some.
Qed.

(** The manager after the registrations [h]: the slots hold them in order, every
    view of a table points into one of them, and a token resolves to its newest
    registration. *)
Record token_rep (size : nat) (h : list info) (m : OrderTokenManager) : Prop := {
  tr_len : (length h ≤ size)%nat;
  tr_next : next_internal_id_ m = 1 + Z.of_nat (length h);
  tr_slots : id_to_token_ m = info_default :: h ++ replicate (size - length h) info_default;
  tr_views c table k id :
    token_to_id_ m !! c = Some table → (k, id) ∈ table → (k ≤ length h)%nat;
  tr_newest c tok :
    default 0 (view_find (id_to_token_ m) tok (default [] (token_to_id_ m !! c))) =
    newest c tok 1 h
}.

Lemma token_rep_new size : token_rep size [] (manager_new size).
Proof.
  split; simpl; try done; [lia|by rewrite Nat.sub_0_r].
Qed.
#[export] Hint Resolve token_rep_new : exchange.


(** The content of a view depends on its slot only. *)
Lemma view_find_ext slots slots' tok table :
  (∀ k id, (k, id) ∈ table → view_bytes slots' k = view_bytes slots k) →
  view_find slots' tok table = view_find slots tok table.
Proof.
  induction table as [|[k id] table IH]; intros Hk; simpl; [done|].
  rewrite (Hk k id) by constructor. rewrite IH; [done|]. intros k' id' Hin.
  apply (Hk k' id'). by right.
Qed.

Lemma view_find_insert slots view id tok table :
  view_find slots tok (insert_or_assign slots view id table) =
  if bool_decide (view_bytes slots view = tok) then Some id else view_find slots tok table.
Proof.
  induction table as [|[k id'] table IH]; simpl; [done|].
  destruct (bool_decide (view_bytes slots k = view_bytes slots view)) eqn:Hk; simpl.
  - apply bool_decide_eq_true in Hk. rewrite Hk. by destruct (bool_decide _).
  - apply bool_decide_eq_false in Hk. rewrite IH.
    repeat case_bool_decide; congruence.
Qed.

Lemma insert_or_assign_views slots view id table k i :
  (k, i) ∈ insert_or_assign slots view id table → k = view ∨ ∃ i', (k, i') ∈ table.
Proof.
  induction table as [|[k' id'] table IH]; simpl.
  - intros [= -> ->]%list_elem_of_singleton. by left.
  - destruct (bool_decide _); rewrite elem_of_cons.
    + intros [[= -> ->]|Hin]; right; [exists id'; by left|exists i; by right].
    + intros [[= -> ->]|Hin]; [right; exists id'; by left|].
      destruct (IH Hin) as [->|[i' ?]]; [by left|right; exists i'; by right].
Qed.

Lemma slots_insert size (h : list info) i :
  (length h < size)%nat →
  <[S (length h) := i]> (info_default :: h ++ replicate (size - length h) info_default) =
  info_default :: (h ++ [i]) ++ replicate (size - length (h ++ [i])) info_default.
Proof.
  intros Hlt. simpl. f_equal. rewrite insert_app_r_alt, Nat.sub_diag by lia.
  replace (size - length h)%nat with (S (size - S (length h))) by lia. simpl.
  rewrite <- app_assoc, length_app. simpl. repeat f_equal. lia.
Qed.

(** Registration with room appends to the history and returns its position. *)
Lemma register_ok size h m c tok t :
  token_rep size h m → Z.of_nat size + 1 < 2 ^ 64 → (length h < size)%nat →
  let i := Info (take OUCH_TOKEN_LEN tok) t c in
  ∃ m', registerNewToken c tok t m = (1 + Z.of_nat (length h), m') ∧
        token_rep size (h ++ [i]) m'.
Proof.
  intros [Hlen Hnext Hslots Hviews Hnew] Hsize Hlt i. unfold registerNewToken.
  rewrite Hnext, Hslots. simpl. rewrite length_app, length_replicate.
  destruct (Z.leb_spec (Z.of_nat (S (length h + (size - length h)))) (1 + Z.of_nat (length h)));
    [lia|].
  replace (Z.to_nat (1 + Z.of_nat (length h))) with (S (length h)) by lia.
  eexists. split; [done|]. rewrite slots_insert by done. fold i.
  set (slots := info_default :: (h ++ [i]) ++ _).
  assert (Hat : view_bytes slots (S (length h)) = token_ i).
  { unfold view_bytes, slots. simpl. by rewrite <- app_assoc, lookup_app_r, Nat.sub_diag by lia. }
  assert (Hold : ∀ d tok', view_find slots tok' (default [] (token_to_id_ m !! d)) =
                           view_find (id_to_token_ m) tok' (default [] (token_to_id_ m !! d))).
  { intros d tok'. apply view_find_ext. intros k id Hin.
    destruct (token_to_id_ m !! d) as [table|] eqn:Hd; simpl in Hin; [|by apply elem_of_nil in Hin].
    specialize (Hviews d table k id Hd Hin). unfold view_bytes. rewrite Hslots. unfold slots.
    destruct k as [|k]; [done|]. simpl. by rewrite <- app_assoc, !(lookup_app_l h) by lia. }
  split; simpl; rewrite ?length_app; simpl.
  - lia.
  - autorewrite with words. lia.
  - unfold slots. by rewrite length_app.
  - intros d table k id. destruct (decide (d = c)) as [->|Hd].
    + rewrite lookup_insert_eq. intros [= <-] Hin.
      apply insert_or_assign_views in Hin as [->|[i' Hin]]; [lia|].
      destruct (token_to_id_ m !! c) as [tb|] eqn:Hc; simpl in Hin; [|by apply elem_of_nil in Hin].
      specialize (Hviews c tb k i' Hc Hin). lia.
    + rewrite lookup_insert_ne by done. intros Hd' Hin. specialize (Hviews _ _ _ _ Hd' Hin). lia.
  - intros d tok'. rewrite newest_snoc by lia. destruct (decide (d = c)) as [->|Hd].
    + rewrite lookup_insert_eq. simpl. rewrite view_find_insert, Hat, Hold.
      simpl. repeat case_bool_decide; try naive_solver; by rewrite Hnew.
    + rewrite lookup_insert_ne by done. rewrite Hold, Hnew.
      rewrite bool_decide_eq_false_2; [done|]. simpl. naive_solver.
Qed.

(** Registration without room changes nothing and returns 0. *)
Lemma register_full size h m c tok t :
  token_rep size h m → length h = size → registerNewToken c tok t m = (0, m).
Proof.
  intros [Hlen Hnext Hslots _ _] Heq. unfold registerNewToken. rewrite Hnext, Hslots. simpl.
  rewrite length_app, length_replicate.
  by destruct (Z.leb_spec (Z.of_nat (S (length h + (size - length h)))) (1 + Z.of_nat (length h)));
    [|lia].
Qed.

Lemma getID_rep size h m c tok :
  token_rep size h m → getID c tok m = newest c (take OUCH_TOKEN_LEN tok) 1 h.
Proof.
  intros Hr. rewrite <- (tr_newest _ _ _ Hr). unfold getID.
  by destruct (token_to_id_ m !! c).
Qed.

Lemma slot_rep size h m id :
  token_rep size h m → 0 < id ≤ Z.of_nat (length h) →
  id_to_token_ m !! Z.to_nat id = h !! Z.to_nat (id - 1).
Proof.
  intros Hr Hid. rewrite (tr_slots _ _ _ Hr). replace (Z.to_nat id) with (S (Z.to_nat (id - 1))) by lia.
  simpl. by rewrite lookup_app_l by lia.
Qed.

Lemma getToken_rep size h m id :
  token_rep size h m →
  getToken id m = if 0 <? id then token_ <$> h !! Z.to_nat (id - 1) else None.
Proof.
  intros Hr. unfold getToken. destruct (Z.ltb_spec 0 id); simpl; [|done].
  destruct (Z.ltb_spec id (next_internal_id_ m)) as [Hlt|Hge]; rewrite (tr_next _ _ _ Hr) in *.
  - by rewrite (slot_rep _ _ _ _ Hr) by lia.
  - by rewrite lookup_ge_None_2 by lia.
Qed.

(** ** A run of registrations *)

Fixpoint register_all (regs : list info) (m : OrderTokenManager)
    : list OrderId * OrderTokenManager :=
  match regs with
  | [] => ([], m)
  | i :: regs' =>
      let '(id, m1) := registerNewToken (clientId_ i) (token_ i) (tickerId_ i) m in
      let '(ids, m2) := register_all regs' m1 in
      (id :: ids, m2)
  end.

Definition token_ok (i : info) : Prop := length (token_ i) = OUCH_TOKEN_LEN.

Lemma register_all_ok size h m regs :
  token_rep size h m → Z.of_nat size + 1 < 2 ^ 64 → Forall token_ok regs →
  let r := register_all regs m in
  token_rep size (take size (h ++ regs)) r.2 ∧
  r.1 = imap (λ n _, if (length h + n <? size)%nat then 1 + Z.of_nat (length h + n) else 0) regs.
Proof.
  intros Hr Hsize HF. revert h m Hr. induction HF as [|i regs Hi HF IH]; intros h m Hr; simpl.
  { rewrite app_nil_r, take_ge by apply (tr_len _ _ _ Hr). done. }
  pose proof (tr_len _ _ _ Hr) as Hlen. destruct (decide (length h < size)%nat) as [Hlt|Hge].
  - destruct (register_ok size h m (clientId_ i) (token_ i) (tickerId_ i) Hr Hsize Hlt)
      as (m1 & -> & Hr1).
    rewrite take_ge in Hr1 by (unfold token_ok in Hi; lia). destruct i as [tok t c]; simpl in *.
    destruct (IH _ _ Hr1) as [Hr2 Hids]. destruct (register_all regs m1) as [ids m2]. simpl in *.
    rewrite <- app_assoc in Hr2. split; [done|]. f_equal.
    + rewrite Nat.add_0_r. by destruct (Nat.ltb_spec (length h) size); [|lia].
    + rewrite Hids. apply imap_ext. intros n ? _. rewrite length_app. simpl.
      by replace (length h + 1 + n)%nat with (length h + S n)%nat by lia.
  - rewrite (register_full size h m) by (done || lia).
    destruct (IH h m Hr) as [Hr2 Hids]. destruct (register_all regs m) as [ids m2]. simpl in *.
    rewrite !take_app_le in * by lia. split; [done|]. f_equal.
    + by destruct (Nat.ltb_spec (length h + 0) size); [lia|].
    + rewrite Hids. apply imap_ext. intros n ? _. simpl.
      destruct (Nat.ltb_spec (length h + n) size), (Nat.ltb_spec (length h + S n) size); lia.
Qed.

(** A token manager built for [size] orders hands out the ids 1, 2, ... to
    the first [size] registrations and 0 to every later one.  After any run of
    registrations by any clients a client's token resolves to the newest of
    that client's own registrations of it, to 0 when it has none, and every id
    handed out resolves back to the token it was registered with. *)
Theorem token_manager_history (size : nat) (regs : list info) :
  Z.of_nat size + 1 < 2 ^ 64 → Forall token_ok regs →
  let '(ids, m) := register_all regs (manager_new size) in
  let h := take size regs in
  ids = imap (λ n _, if (n <? size)%nat then 1 + Z.of_nat n else 0) regs ∧
  (∀ c tok, getID c tok m = newest c (take OUCH_TOKEN_LEN tok) 1 h) ∧
  (∀ id, getToken id m = if 0 <? id then token_ <$> h !! Z.to_nat (id - 1) else None).
Proof.
  intros Hsize HF. destruct (register_all_ok size [] _ regs (token_rep_new size) Hsize HF) as [Hr Hids].
  destruct (register_all regs (manager_new size)) as [ids m]. simpl in *. split_and!.
  - exact Hids.
  - intros c tok. by eapply getID_rep.
  - intros id. by eapply getToken_rep.
Qed.

(** Client 1 uses token "A" twice and client 2 once; the fourth registration
    finds the pool exhausted. *)
Definition demo_regs : list info :=
  let a := replicate OUCH_TOKEN_LEN 65 in [Info a 0 1; Info a 0 2; Info a 3 1; Info a 0 2].

Lemma token_manager_history_witness :
  let '(ids, m) := register_all demo_regs (manager_new 3) in
  ids = [1; 2; 3; 0] ∧ getID 1 (replicate 14 65) m = 3 ∧ getID 2 (replicate 14 65) m = 2.
Proof.
  assert (HF : Forall token_ok demo_regs) by (repeat constructor).
  pose proof (token_manager_history 3 demo_regs ltac:(lia) HF) as Ht.
  destruct (register_all demo_regs (manager_new 3)) as [ids m]. destruct Ht as (-> & Hid & _).
  split_and!; [reflexivity|rewrite Hid; reflexivity..].
Defined.
