(* ===== verification/Queue.v ===== *)
(** * Queue: the single-producer single-consumer queue

    [quantlink::SPSCQueue<T>] ([lf_queue.h]) is code of the QuantLink submodule.
    The class [SPSCQueue] has the operations the exchange calls, from the side
    of one thread at a time, and [SPSCQueueLaws] what the exchange relies on:
    the queue is a bounded first-in first-out sequence, [push] refuses an
    element exactly when the queue is full, and [getNextRead] shows the oldest
    element without removing it, [nullptr] when there is none. *)

From S2P Require Import Prelude.

Class SPSCQueue (A Q : Type) := {
  push : A → Q → bool * Q;
  getNextRead : Q → option A;
  updateNextRead : Q → Q
}.

Class SPSCQueueLaws (A Q : Type) `{SPSCQueue A Q} := {
  queued : Q → list A;
  capacity : Q → nat;
  push_room a q :
    (length (queued q) < capacity q)%nat →
    ∃ q', push a q = (true, q') ∧ queued q' = queued q ++ [a] ∧ capacity q' = capacity q;
  push_full a q : (capacity q ≤ length (queued q))%nat → push a q = (false, q);
  next_read q : getNextRead q = head (queued q);
  pop_queued q : queued (updateNextRead q) = tail (queued q);
  pop_capacity q : capacity (updateNextRead q) = capacity q
}.

(** A queue on lists, for concrete runs. *)
Record list_queue (A : Type) := ListQueue { lq_capacity : nat; lq_items : list A }.
Arguments ListQueue {_} _ _.
Arguments lq_capacity {_} _.
Arguments lq_items {_} _.

#[global] Instance list_queue_ops A : SPSCQueue A (list_queue A) := {
  push a q :=
    if (length (lq_items q) <? lq_capacity q)%nat
    then (true, ListQueue (lq_capacity q) (lq_items q ++ [a])) else (false, q);
  getNextRead q := head (lq_items q);
  updateNextRead q := ListQueue (lq_capacity q) (tail (lq_items q))
}.

#[global] Instance list_queue_laws A : SPSCQueueLaws A (list_queue A).
Proof.
  refine {| queued := lq_items; capacity := lq_capacity |}; simpl; try done.
  - intros a q Hlt. destruct (Nat.ltb_spec (length (lq_items q)) (lq_capacity q)); [|lia]. eauto.
  - intros a q Hge. by destruct (Nat.ltb_spec (length (lq_items q)) (lq_capacity q)); [lia|].
Defined.

Section drain.
Context {A Q : Type} `{SPSCQueueLaws A Q}.

(** Reading an element that is there. *)
Lemma next_read_cons q a rest : queued q = a :: rest → getNextRead q = Some a.
Proof. intros Hq. by rewrite next_read, Hq. Qed.

Lemma next_read_nil q : queued q = [] → getNextRead q = None.
Proof. intros Hq. by rewrite next_read, Hq. Qed.
End drain.
