(* ===== verification/Fifo.v ===== *)
(** * Fifo: the sequencer between the gateway and the engine

    [src/src/network/gateway/fifo_process.h].  [FifoNdProcess] stages decoded
    requests with the kernel time of their arrival and publishes them to the
    request queue in time order, keeping what does not fit.

    [pending_orders_] is the whole vector; only its first [pending_size_]
    entries are pending.  [std::sort] promises a sorted permutation and nothing
    about the order of entries that compare equal, so it is the class
    [StdSort]: every theorem below holds for every conforming sort. *)

From S2P Require Import Prelude Types Queue.

(** ** [std::sort] *)

Class StdSort := std_sort : ∀ {A : Type}, (A → A → bool) → list A → list A.

(** The strict weak orderings of the standard. *)
Record strict_weak {A} (lt : A → A → bool) : Prop := {
  sw_irrefl a : lt a a = false;
  sw_trans a b c : lt a b = true → lt b c = true → lt a c = true;
  sw_incomparable a b c : lt b a = false → lt c b = false → lt c a = false
}.

Class StdSortLaws `{StdSort} := {
  std_sort_perm {A} (lt : A → A → bool) l : strict_weak lt → std_sort lt l ≡ₚ l;
  std_sort_sorted {A} (lt : A → A → bool) l :
    strict_weak lt → StronglySorted (λ a b, lt b a = false) (std_sort lt l)
}.

(** ** The sequencer *)

Record RecvClientRequest := Recv { time_nanos_ : Z; request_ : MEClientRequest }.

(** [MEClientRequest{}]: every field is value-initialised. *)
Definition MEClientRequest_default : MEClientRequest := {|
  rq_client_id_ := 0; rq_client_order_id_ := 0; rq_new_client_order_id_ := 0; rq_price_ := 0;
  rq_ticker_id_ := 0; rq_qty_ := 0; rq_action_ := REQ_NEW; rq_type_ := GoodTillCancel;
  rq_side_ := BUY; rq_order_token_ := replicate OUCH_TOKEN_LEN 0 |}.

Definition Recv_default : RecvClientRequest := Recv 0 MEClientRequest_default.

Record FifoNdProcess := Fifo {
  pending_orders_ : list RecvClientRequest;
  pending_size_ : nat;
  pending_sorted_ : bool
}.

Definition fifo_new (max_pending : nat) : FifoNdProcess :=
  Fifo (replicate (max_pending `max` 1) Recv_default) 0 true.

Definition pending (f : FifoNdProcess) : list RecvClientRequest :=
  take (pending_size_ f) (pending_orders_ f).

Definition addToPending (time_nanos : Z) (request : MEClientRequest) (f : FifoNdProcess)
    : bool * FifoNdProcess :=
  if (length (pending_orders_ f) <=? pending_size_ f)%nat then (false, f)
  else (true, Fifo (<[pending_size_ f := Recv time_nanos request]> (pending_orders_ f))
                (S (pending_size_ f)) false).

(** The comparison handed to [std::sort]. *)
Definition earlier (a b : RecvClientRequest) : bool := time_nanos_ a <? time_nanos_ b.

Definition growPending (f : FifoNdProcess) : FifoNdProcess :=
  Fifo (pending_orders_ f ++ replicate (length (pending_orders_ f)) Recv_default)
    (pending_size_ f) (pending_sorted_ f).

Section sequencer.
Context {Q : Type} `{SPSCQueue MEClientRequest Q} `{StdSort}.

(** The publishing loop: push in order until one is refused; how many went. *)
Fixpoint push_loop (rs : list RecvClientRequest) (requests : Q) : nat * Q :=
  match rs with
  | [] => (O, requests)
  | r :: rs' =>
      match push (request_ r) requests with
      | (false, requests') => (O, requests')
      | (true, requests') =>
          let '(published, requests'') := push_loop rs' requests' in (S published, requests'')
      end
  end.

Definition publishPendingOrders (f : FifoNdProcess) (requests : Q) : FifoNdProcess * Q :=
  let n := pending_size_ f in
  if (n =? 0)%nat then (f, requests)
  else
    let sorted :=
      if pending_sorted_ f then pending_orders_ f
      else std_sort earlier (take n (pending_orders_ f)) ++ drop n (pending_orders_ f) in
    let '(published, requests') := push_loop (take n sorted) requests in
    if (published =? 0)%nat then (Fifo sorted n true, requests')
    else
      (* [std::move] of the unpublished range to the front; what lies behind it stays *)
      let moved := drop published (take n sorted) ++ drop (n - published) sorted in
      (Fifo moved (n - published) true, requests').
End sequencer.

(** ** The invariant *)

Definition by_time (rs : list RecvClientRequest) : Prop :=
  StronglySorted (λ a b, time_nanos_ a ≤ time_nanos_ b) rs.

Record fifo_wf (f : FifoNdProcess) : Prop := {
  fw_size : (pending_size_ f ≤ length (pending_orders_ f))%nat;
  fw_nonempty : (0 < length (pending_orders_ f))%nat;
  fw_sorted : pending_sorted_ f = true → by_time (pending f)
}.

Lemma pending_length f : fifo_wf f → length (pending f) = pending_size_ f.
Proof. intros Hw. unfold pending. rewrite length_take. pose proof (fw_size _ Hw). lia. Qed.

Lemma fifo_new_wf n : fifo_wf (fifo_new n).
Proof.
  split; simpl; rewrite ?length_replicate; try lia. intros _. unfold pending. simpl. constructor.
Qed.
#[export] Hint Resolve fifo_new_wf : exchange.


(** Staging a request: refused exactly when the buffer is full. *)
Lemma addToPending_ok t rq f :
  fifo_wf f → (pending_size_ f < length (pending_orders_ f))%nat →
  ∃ f', addToPending t rq f = (true, f') ∧ fifo_wf f' ∧
        pending f' = pending f ++ [Recv t rq] ∧
        length (pending_orders_ f') = length (pending_orders_ f).
Proof.
  intros [Hs Hn Hsort] Hlt. unfold addToPending.
  destruct (Nat.leb_spec (length (pending_orders_ f)) (pending_size_ f)); [lia|].
  eexists. split; [done|]. split_and!.
  - split; simpl; rewrite ?length_insert; (lia || done).
  - unfold pending. simpl. by erewrite take_S_r, take_insert_ge by
      (by rewrite ?list_lookup_insert_eq).
  - simpl. by rewrite length_insert.
Qed.

Lemma addToPending_full t rq f :
  (length (pending_orders_ f) ≤ pending_size_ f)%nat → addToPending t rq f = (false, f).
Proof.
  intros Hge. unfold addToPending.
  by destruct (Nat.leb_spec (length (pending_orders_ f)) (pending_size_ f)); [|lia].
Qed.

Lemma growPending_ok f :
  fifo_wf f →
  fifo_wf (growPending f) ∧ pending (growPending f) = pending f ∧
  (pending_size_ (growPending f) < length (pending_orders_ (growPending f)))%nat.
Proof.
  intros [Hs Hn Hsort]. assert (Hp : pending (growPending f) = pending f).
  { unfold pending. simpl. by rewrite take_app_le. }
  split_and!; [|done|simpl; rewrite length_app, length_replicate; lia].
  split; [simpl; rewrite length_app; lia..|]. rewrite Hp. exact Hsort.
Qed.

Lemma earlier_strict_weak : strict_weak earlier.
Proof. unfold earlier. split; intros; simpl in *; lia. Qed.

Section publish.
Context {Q : Type} `{SPSCQueueLaws MEClientRequest Q} `{StdSort} `{!StdSortLaws}.

Lemma sort_by_time rs : by_time (std_sort earlier rs).
Proof.
  pose proof (std_sort_sorted earlier rs earlier_strict_weak) as Hs. unfold by_time.
  induction Hs as [|a l Hs IH HF]; constructor; [done|].
  eapply Forall_impl; [exact HF|]. unfold earlier. simpl. intros b ?. lia.
Qed.

(** The loop pushes a prefix and stops early only at a full queue. *)
Lemma push_loop_ok rs q :
  let '(n, q') := push_loop rs q in
  (n ≤ length rs)%nat ∧ queued q' = queued q ++ (request_ <$> take n rs) ∧
  capacity q' = capacity q ∧ (n = length rs ∨ (capacity q' ≤ length (queued q'))%nat).
Proof.
  revert q. induction rs as [|r rs IH]; intros q; simpl.
  { rewrite app_nil_r. naive_solver. }
  destruct (decide (length (queued q) < capacity q)%nat) as [Hlt|Hge].
  - destruct (push_room (request_ r) q Hlt) as (q1 & -> & Hq1 & Hc1). specialize (IH q1).
    destruct (push_loop rs q1) as [n q']. destruct IH as (Hn & Hq & Hc & Hend).
    rewrite Hq, Hq1, Hc, Hc1. simpl. rewrite <- app_assoc. split_and!; [lia|done..|].
    rewrite Hq, Hq1, <- app_assoc in Hend. rewrite Hc, Hc1 in Hend.
    destruct Hend as [->|?]; auto.
  - rewrite (push_full (request_ r) q) by lia. simpl. rewrite app_nil_r. split_and!; try done; lia.
Qed.

(** With room in the queue a publication empties the buffer, in the order the sort
    has chosen. *)
Lemma publish_room f q :
  fifo_wf f → pending_sorted_ f = false →
  (length (queued q) + length (pending f) ≤ capacity q)%nat →
  queued (publishPendingOrders f q).2 = queued q ++ (request_ <$> std_sort earlier (pending f)).
Proof.
  intros Hw Hflag Hroom. pose proof (pending_length _ Hw) as Hn.
  pose proof (std_sort_perm earlier (pending f) earlier_strict_weak) as Hperm.
  pose proof (Permutation_length Hperm) as Hl. unfold publishPendingOrders. rewrite Hflag.
  destruct (Nat.eqb_spec (pending_size_ f) 0) as [Hz|Hz].
  { rewrite Hz in Hn. rewrite (nil_length_inv _ Hn) in Hl. simpl.
    by rewrite (nil_length_inv _ Hn), (nil_length_inv _ Hl), app_nil_r. }
  fold (pending f). rewrite take_app_le, take_ge by lia.
  pose proof (push_loop_ok (std_sort earlier (pending f)) q) as Hpush.
  destruct (push_loop _ q) as [k q']. destruct Hpush as (Hk & Hq & Hc & Hend).
  assert (Hall : k = length (std_sort earlier (pending f))).
  { destruct Hend as [?|Hfull]; [done|]. rewrite Hq, length_app, length_fmap, length_take in Hfull. lia. }
  rewrite take_ge in Hq by lia. by destruct (k =? 0)%nat.
Qed.

(** What one call of [publishPendingOrders] does. *)
Lemma publish_ok f q :
  fifo_wf f →
  let '(f', q') := publishPendingOrders f q in
  ∃ batch,
    fifo_wf f' ∧ by_time (batch ++ pending f') ∧ batch ++ pending f' ≡ₚ pending f ∧
    queued q' = queued q ++ (request_ <$> batch) ∧ capacity q' = capacity q ∧
    (pending f' = [] ∨ (capacity q' ≤ length (queued q'))%nat) ∧
    length (pending_orders_ f') = length (pending_orders_ f).
Proof.
  intros Hw. pose proof Hw as [Hs Hn Hsort]. unfold publishPendingOrders.
  destruct (Nat.eqb_spec (pending_size_ f) 0) as [Hz|Hz].
  { exists []. assert (Hp : pending f = []) by (unfold pending; by rewrite Hz). rewrite Hp. simpl.
    rewrite app_nil_r. split_and!; try done; [constructor|by left]. }
  set (n := pending_size_ f) in *. set (sorted := if pending_sorted_ f then _ else _).
  assert (take n sorted ≡ₚ pending f ∧ by_time (take n sorted) ∧
                length sorted = length (pending_orders_ f)) as (Hperm & Htime & Hlen).
  { unfold sorted, n. destruct (pending_sorted_ f); [split_and!; by auto|].
    pose proof (std_sort_perm earlier (pending f) earlier_strict_weak) as Hp.
    pose proof (Permutation_length Hp) as Hl. rewrite (pending_length _ Hw) in Hl.
    fold (pending f). rewrite take_app_le, take_ge by lia. split_and!; [done|apply sort_by_time|].
    rewrite length_app, length_drop, Hl. lia. }
  pose proof (push_loop_ok (take n sorted) q) as Hpush.
  destruct (push_loop (take n sorted) q) as [k q']. destruct Hpush as (Hk & Hq & Hc & Hend).
  rewrite length_take in Hk, Hend.
  destruct (Nat.eqb_spec k 0) as [->|Hk0].
  - assert (Hp0 : pending (Fifo sorted n true) = take n sorted) by done.
    exists []. rewrite !app_nil_l, Hp0. split_and!; try done.
    + split; simpl; [lia..|done].
    + destruct Hend as [?|?]; [lia|by right].
  - assert (Hp' : pending (Fifo (drop k (take n sorted) ++ drop (n - k) sorted) (n - k) true) =
                  drop k (take n sorted)).
    { unfold pending. simpl. rewrite take_app_le, take_ge; rewrite ?length_drop, ?length_take; lia || done. }
    exists (take k (take n sorted)). rewrite Hp', take_drop. split_and!; try done.
    + split; [simpl; rewrite length_app, !length_drop, length_take; lia..|].
      intros _. rewrite Hp'. unfold by_time in *. rewrite <- (take_drop k (take n sorted)) in Htime.
      by apply StronglySorted_app_1_r in Htime.
    + destruct Hend as [->|?]; [left|by right]. apply drop_ge. rewrite length_take. lia.
    + simpl. rewrite length_app, !length_drop, length_take. lia.
Qed.
End publish.

(** ** Runs of the sequencer

    The gateway stages, publishes and grows; the engine pops. *)

Inductive fifo_op :=
  | FAdd (t : Z) (rq : MEClientRequest)
  | FPublish
  | FGrow
  | FPop.

Record fifo_run (Q : Type) := FifoRun {
  fr_fifo : FifoNdProcess;
  fr_requests : Q;
  fr_accepted : list RecvClientRequest;
  fr_consumed : list MEClientRequest
}.
Arguments FifoRun {_} _ _ _ _.
Arguments fr_fifo {_} _.
Arguments fr_requests {_} _.
Arguments fr_accepted {_} _.
Arguments fr_consumed {_} _.

(** No request is staged with a time before that of a request staged before the
    last publication: the kernel clock does not run backwards from one epoll
    round to the next.  Within a round the times are arbitrary. *)
Fixpoint timely (published staged : list Z) (ops : list fifo_op) : Prop :=
  match ops with
  | [] => True
  | FAdd t _ :: ops' => Forall (λ t', t' ≤ t) published ∧ timely published (t :: staged) ops'
  | FPublish :: ops' => timely (staged ++ published) [] ops'
  | _ :: ops' => timely published staged ops'
  end.

Section runs.
Context {Q : Type} `{SPSCQueue MEClientRequest Q} `{StdSort}.

Definition fifo_exec (st : fifo_run Q) (op : fifo_op) : fifo_run Q :=
  match op with
  | FAdd t rq =>
      let '(added, f') := addToPending t rq (fr_fifo st) in
      FifoRun f' (fr_requests st)
        (if added then fr_accepted st ++ [Recv t rq] else fr_accepted st) (fr_consumed st)
  | FPublish =>
      let '(f', q') := publishPendingOrders (fr_fifo st) (fr_requests st) in
      FifoRun f' q' (fr_accepted st) (fr_consumed st)
  | FGrow => FifoRun (growPending (fr_fifo st)) (fr_requests st) (fr_accepted st) (fr_consumed st)
  | FPop =>
      match getNextRead (fr_requests st) with
      | None => st
      | Some rq =>
          FifoRun (fr_fifo st) (updateNextRead (fr_requests st)) (fr_accepted st)
            (fr_consumed st ++ [rq])
      end
  end.

Context `{!SPSCQueueLaws MEClientRequest Q} `{!StdSortLaws}.

(** [log]: what was published so far, in order. *)
Record run_log (st : fifo_run Q) (log : list RecvClientRequest) : Prop := {
  rl_wf : fifo_wf (fr_fifo st);
  rl_queue : request_ <$> log = fr_consumed st ++ queued (fr_requests st);
  rl_accepted : log ++ pending (fr_fifo st) ≡ₚ fr_accepted st
}.

Record run_timed (st : fifo_run Q) (log : list RecvClientRequest) (published staged : list Z)
    : Prop := {
  rt_sorted : by_time log;
  rt_before a b : a ∈ log → b ∈ pending (fr_fifo st) → time_nanos_ a ≤ time_nanos_ b;
  rt_log a : a ∈ log → time_nanos_ a ∈ published;
  rt_pending b : b ∈ pending (fr_fifo st) → time_nanos_ b ∈ published ++ staged
}.

(** What an operation does to the staged requests: [ps] before, [ps'] after, the
    [batch] published. *)
Definition staging (op : fifo_op) (batch ps ps' : list RecvClientRequest) : Prop :=
  match op with
  | FAdd t rq => batch = [] ∧ (ps' = ps ∨ ps' = ps ++ [Recv t rq])
  | FPublish => by_time (batch ++ ps') ∧ batch ++ ps' ≡ₚ ps
  | FGrow | FPop => batch = [] ∧ ps' = ps
  end.

(** One operation extends the log by the batch it publishes. *)
Lemma exec_log st op log :
  run_log st log →
  ∃ batch, run_log (fifo_exec st op) (log ++ batch) ∧
           staging op batch (pending (fr_fifo st)) (pending (fr_fifo (fifo_exec st op))).
Proof.
  intros [Hw Hq Ha]. destruct op as [t rq| | |]; simpl.
  - exists []. rewrite app_nil_r.
    destruct (decide (pending_size_ (fr_fifo st) < length (pending_orders_ (fr_fifo st)))%nat) as [Hlt|Hge].
    + destruct (addToPending_ok t rq _ Hw Hlt) as (f' & -> & Hw' & Hp & _). simpl.
      split; [|by auto]. split; simpl; [done..|]. by rewrite Hp, app_assoc, Ha.
    + rewrite addToPending_full by lia. simpl. split; [by split|by auto].
  - pose proof (publish_ok (fr_fifo st) (fr_requests st) Hw) as Hpub.
    destruct (publishPendingOrders _ _) as [f' q'].
    destruct Hpub as (batch & Hw' & Ht & Hp & Hq' & _). exists batch. simpl.
    split; [|done]. split; simpl; [done| |by rewrite <- app_assoc, Hp].
    by rewrite fmap_app, Hq, Hq', app_assoc.
  - exists []. rewrite app_nil_r. destruct (growPending_ok _ Hw) as (Hw' & Hp & _).
    split; [|done]. split; simpl; [done..|]. by rewrite Hp.
  - exists []. rewrite app_nil_r, next_read. destruct (queued (fr_requests st)) as [|rq rest] eqn:Hqs;
      simpl; [split; [|done]; split; simpl; rewrite ?Hqs; done|].
    split; [|done]. split; simpl; [done| |done]. rewrite pop_queued, Hqs. simpl.
    by rewrite Hq, <- app_assoc.
Qed.

Lemma exec_timed st op log published staged batch :
  run_log st log → run_timed st log published staged →
  staging op batch (pending (fr_fifo st)) (pending (fr_fifo (fifo_exec st op))) →
  match op with
  | FAdd t _ => Forall (λ t', t' ≤ t) published →
      run_timed (fifo_exec st op) (log ++ batch) published (t :: staged)
  | FPublish => run_timed (fifo_exec st op) (log ++ batch) (staged ++ published) []
  | _ => run_timed (fifo_exec st op) (log ++ batch) published staged
  end.
Proof.
  intros _ [Hs Hb Hl Hp]. destruct op as [t rq| | |].
  - intros [-> Hor] HF. rewrite app_nil_r. rewrite Forall_forall in HF.
    split; [done| |done|]; destruct Hor as [-> | ->]; intros; set_solver.
  - intros [Hbt Hperm].
    assert (Hin : ∀ x, x ∈ batch ++ pending (fr_fifo (fifo_exec st FPublish)) →
                       x ∈ pending (fr_fifo st)) by (intros x; by rewrite Hperm).
    apply StronglySorted_app in Hbt as (Hbb & Hbatch & Hrest). split.
    + apply StronglySorted_app. split_and!; [|done..]. intros a b Ha Hx. apply Hb; [done|].
      apply Hin. set_solver.
    + intros a b. rewrite elem_of_app. intros [Ha|Ha] Hx; [|by apply Hbb].
      apply Hb; [done|]. apply Hin. set_solver.
    + intros a. rewrite elem_of_app. intros [Ha|Ha]; [specialize (Hl a Ha); set_solver|].
      assert (Hx : a ∈ pending (fr_fifo st)) by (apply Hin; set_solver).
      specialize (Hp a Hx). set_solver.
    + intros b Hx. assert (Hy : b ∈ pending (fr_fifo st)) by (apply Hin; set_solver).
      specialize (Hp b Hy). set_solver.
  - intros [-> Heq]. rewrite app_nil_r. split; rewrite ?Heq; done.
  - intros [-> Heq]. rewrite app_nil_r. split; rewrite ?Heq; done.
Qed.

Lemma run_log_ok ops st log :
  run_log st log → ∃ log', run_log (foldl fifo_exec st ops) log' ∧
    ∀ published staged, run_timed st log published staged → timely published staged ops →
      by_time log'.
Proof.
  revert st log. induction ops as [|op ops IH]; intros st log Hr; simpl.
  { exists log. split; [done|]. by intros ? ? []. }
  destruct (exec_log st op log Hr) as (batch & Hr' & Hop).
  destruct (IH _ _ Hr') as (log' & Hlog & Htime). exists log'. split; [done|].
  intros published staged Ht Hops. pose proof (exec_timed _ _ _ _ _ _ Hr Ht Hop) as Hnext.
  destruct op; simpl in *; [destruct Hops as [HF Hops]; eauto|eauto..].
Qed.

Lemma run_log_new max_pending q :
  queued q = [] → run_log (FifoRun (fifo_new max_pending) q [] []) [].
Proof. intros Hq. split; simpl; auto with exchange. Qed.

Lemma run_timed_new max_pending q :
  run_timed (FifoRun (fifo_new max_pending) q [] []) [] [] [].
Proof. split; simpl; [constructor|set_solver..]. Qed.
End runs.

(** ** Two conforming sorts *)

Section insertion.
Context {A : Type} (lt : A → A → bool).

Fixpoint sorted_insert (x : A) (l : list A) : list A :=
  match l with
  | [] => [x]
  | y :: l' => if lt y x then y :: sorted_insert x l' else x :: l
  end.

Definition insertion_sort (l : list A) : list A := foldr sorted_insert [] l.

Lemma sorted_insert_perm x l : sorted_insert x l ≡ₚ x :: l.
Proof. induction l as [|y l IH]; simpl; [done|]. destruct (lt y x); [|done]. rewrite IH. constructor. Qed.

Lemma insertion_sort_perm l : insertion_sort l ≡ₚ l.
Proof. induction l as [|x l IH]; simpl; [done|]. by rewrite sorted_insert_perm, IH. Qed.

Lemma sorted_insert_sorted x l :
  strict_weak lt → StronglySorted (λ a b, lt b a = false) l →
  StronglySorted (λ a b, lt b a = false) (sorted_insert x l).
Proof.
  intros Hlt. induction 1 as [|y l Hs IH HF]; simpl; [repeat constructor|].
  destruct (lt y x) eqn:Hyx; constructor; [done| |by constructor|].
  - rewrite sorted_insert_perm. constructor; [|done]. destruct (lt x y) eqn:Hxy; [|done].
    pose proof (sw_irrefl _ Hlt y). pose proof (sw_trans _ Hlt y x y). naive_solver.
  - constructor; [done|]. eapply Forall_impl; [exact HF|]. simpl. intros z Hz.
    by apply (sw_incomparable _ Hlt x y z).
Qed.

Lemma insertion_sort_sorted l :
  strict_weak lt → StronglySorted (λ a b, lt b a = false) (insertion_sort l).
Proof. intros Hlt. induction l; simpl; [constructor|by apply sorted_insert_sorted]. Qed.
End insertion.

(** Entries that compare equal keep their order. *)
Definition stable_sort : StdSort := λ A lt l, insertion_sort lt l.
(** Entries that compare equal come out in the order [idx] gives their positions,
    which the standard allows as well. *)
Definition permute {A} (idx : list nat) (l : list A) : list A :=
  if bool_decide (idx ≡ₚ seq 0 (length l)) then omap (l !!.) idx else l.
Definition permuting_sort (idx : list nat) : StdSort := λ A lt l, insertion_sort lt (permute idx l).

#[global] Instance stable_sort_laws : StdSortLaws (H := stable_sort).
Proof. split; intros A lt l; [intros _; apply insertion_sort_perm|apply insertion_sort_sorted]. Qed.

Lemma lookup_positions {A} (l : list A) : omap (l !!.) (seq 0 (length l)) = l.
Proof.
  induction l as [|x l IH] using rev_ind; [done|].
  rewrite length_app, seq_app, omap_app. simpl. rewrite lookup_app_r, Nat.sub_diag by lia. f_equal.
  rewrite <- IH at 2. apply list_omap_ext, Forall2_same_length_lookup_2; [done|].
  intros i j k Hj Hk. rewrite Hj in Hk. injection Hk as ->. apply lookup_seq in Hj as [-> ?].
  by rewrite lookup_app_l by lia.
Qed.

Lemma permute_perm {A} idx (l : list A) : permute idx l ≡ₚ l.
Proof.
  unfold permute. case_bool_decide as Hidx; [|done]. rewrite Hidx. by rewrite lookup_positions.
Qed.

#[global] Instance permuting_sort_laws idx : StdSortLaws (H := permuting_sort idx).
Proof.
  split; intros A lt l; [intros _|apply insertion_sort_sorted].
  unfold std_sort, permuting_sort. by rewrite insertion_sort_perm, permute_perm.
Qed.

(** Every permutation of a list is given by positions. *)
Lemma permute_any {A} (l l' : list A) : l' ≡ₚ l → ∃ idx, permute idx l = l'.
Proof.
  intros (Hlen & f & Hinj & Hf)%Permutation_inj. exists (f <$> seq 0 (length l')).
  assert (Hin : ∀ i, i ∈ f <$> seq 0 (length l') → i ∈ seq 0 (length l)).
  { intros i (j & -> & Hj)%list_elem_of_fmap. apply elem_of_seq in Hj. apply elem_of_seq. split; [lia|].
    destruct (lookup_lt_is_Some_2 l' j) as [x Hx]; [lia|]. rewrite Hf in Hx. by apply lookup_lt_Some in Hx. }
  unfold permute. rewrite bool_decide_true.
  2:{ apply submseteq_length_Permutation.
      - apply NoDup_submseteq; [apply NoDup_fmap_2; [done|apply NoDup_seq]|done].
      - by rewrite length_fmap, !length_seq, Hlen. }
  rewrite <- (lookup_positions l') at 2. generalize (seq 0 (length l')). intros ns.
  induction ns as [|i ns IH]; simpl; [done|]. rewrite Hf. destruct (l !! f i); [f_equal|]; exact IH.
Qed.

(** Among entries of which none precedes another the sort leaves any order. *)
Lemma insertion_sort_flat {A} (lt : A → A → bool) l :
  (∀ a b, a ∈ l → b ∈ l → lt a b = false) → insertion_sort lt l = l.
Proof.
  induction l as [|x l IH]; intros Hl; simpl; [done|].
  rewrite IH by (intros a b Ha Hb; apply Hl; by right). destruct l as [|y l]; [done|]. simpl.
  rewrite (Hl y x); [done|right; left|left].
Qed.

Lemma equal_times_any_sort t rqs rqs' :
  rqs' ≡ₚ rqs →
  ∃ idx, std_sort (StdSort := permuting_sort idx) earlier (Recv t <$> rqs) = Recv t <$> rqs'.
Proof.
  intros Hp. destruct (permute_any (Recv t <$> rqs) (Recv t <$> rqs')) as [idx Hidx].
  { by rewrite Hp. }
  exists idx. unfold std_sort, permuting_sort. rewrite Hidx. apply insertion_sort_flat.
  intros a b (? & -> & _)%list_elem_of_fmap (? & -> & _)%list_elem_of_fmap.
  unfold earlier. simpl. lia.
Qed.

(** ** The theorems *)

(** One publication of the sequencer, for every conforming sort: the requests
    pushed are the earliest of the staged ones in time order, the rest stays
    staged, nothing is lost or duplicated, and something stays only when the
    request queue is full. *)
Theorem publish_in_time_order {Q : Type} `{SPSCQueueLaws MEClientRequest Q} `{StdSort}
    `{!StdSortLaws} (f : FifoNdProcess) (q : Q) :
  fifo_wf f →
  let '(f', q') := publishPendingOrders f q in
  ∃ batch,
    fifo_wf f' ∧ queued q' = queued q ++ (request_ <$> batch) ∧
    by_time (batch ++ pending f') ∧ batch ++ pending f' ≡ₚ pending f ∧
    (pending f' = [] ∨ (capacity q' ≤ length (queued q'))%nat).
Proof.
  intros Hw. pose proof (publish_ok f q Hw) as Hp. destruct (publishPendingOrders f q) as [f' q'].
  destruct Hp as (batch & ? & ? & ? & ? & _ & ? & _). by exists batch.
Qed.

(** C30: Whatever the gateway stages, publishes and grows and however the engine
    pops in between: the requests popped, queued and still staged are those
    accepted, each exactly once; and when kernel times do not run backwards
    between publications, the engine receives the requests in time order. *)
Theorem sequencer_runs {Q : Type} `{SPSCQueueLaws MEClientRequest Q} `{StdSort} `{!StdSortLaws}
    (max_pending : nat) (q : Q) (ops : list fifo_op) :
  queued q = [] →
  let st := foldl fifo_exec (FifoRun (fifo_new max_pending) q [] []) ops in
  ∃ log, request_ <$> log = fr_consumed st ++ queued (fr_requests st) ∧
    log ++ pending (fr_fifo st) ≡ₚ fr_accepted st ∧
    (timely [] [] ops → by_time log).
Proof.
  intros Hq st. destruct (run_log_ok ops _ _ (run_log_new max_pending q Hq)) as (log & Hlog & Ht).
  exists log. destruct Hlog. split_and!; [done..|]. intros Hops.
  eapply Ht; [apply run_timed_new|done].
Qed.

(** Three requests out of order for a queue of two, and a late pop. *)
Definition demo_rq (id : OrderId) (action : ClientRequestType) : MEClientRequest := {|
  rq_client_id_ := 1; rq_client_order_id_ := id; rq_new_client_order_id_ := 0; rq_price_ := 100;
  rq_ticker_id_ := 0; rq_qty_ := 1; rq_action_ := action; rq_type_ := GoodTillCancel;
  rq_side_ := BUY; rq_order_token_ := replicate OUCH_TOKEN_LEN 65 |}.

Definition demo_ops : list fifo_op :=
  [FAdd 30 (demo_rq 3 REQ_NEW); FAdd 10 (demo_rq 1 REQ_NEW); FAdd 20 (demo_rq 2 REQ_NEW);
   FPublish; FPop; FAdd 40 (demo_rq 4 REQ_NEW); FPublish].

Lemma publish_in_time_order_witness :
  let f := fr_fifo (foldl (fifo_exec (H0 := stable_sort))
             (FifoRun (fifo_new 5) (ListQueue 2 []) [] []) (take 3 demo_ops)) in
  let '(f', q') := publishPendingOrders (H0 := stable_sort) f (ListQueue 2 []) in
  fifo_wf f' ∧ (rq_client_order_id_ <$> lq_items q') = [1; 2] ∧
  (rq_client_order_id_ ∘ request_ <$> pending f') = [3].
Proof.
  intros f. assert (Hw : fifo_wf f).
  { split; [vm_compute; lia..|]. vm_compute. discriminate. }
  pose proof (publish_in_time_order (H1 := stable_sort) f (ListQueue 2 []) Hw) as Hp.
  destruct (publishPendingOrders (H0 := stable_sort) f (ListQueue 2 [])) as [f' q'] eqn:Heq.
  destruct Hp as (batch & Hw' & _). split_and!; [exact Hw'|..];
    vm_compute in Heq; injection Heq as <- <-; reflexivity.
Defined.

Lemma sequencer_runs_witness :
  timely [] [] demo_ops ∧
  ∃ log, by_time log ∧
    (rq_client_order_id_ ∘ request_ <$> log) = [1; 2; 3].
Proof.
  assert (Ht : timely [] [] demo_ops) by (simpl; split_and!; repeat constructor; lia).
  split; [exact Ht|].
  destruct (sequencer_runs (H0 := list_queue_laws _) (H1 := stable_sort) 5 (ListQueue 2 []) demo_ops eq_refl)
    as (log & Hq & _ & Hs).
  exists log. split; [exact (Hs Ht)|]. rewrite list_fmap_compose, Hq. vm_compute. reflexivity.
Defined.
