(* ===== verification/Wire.v ===== *)
(** * Wire: byte order of the wire formats

    [swap16], [swap32] and [swap64] convert between host and network order.
    They are functions of QuantLink ([ouch_messages.h], [itch_messages.h]); the
    protocol code relies on each being its own inverse on values of its width.
    [bswap] is a byte swap, for concrete runs. *)

From stdpp Require Import list_numbers.
From S2P Require Import Prelude.

Class ByteSwap := {
  swap16 : Z → Z;
  swap32 : Z → Z;
  swap64 : Z → Z
}.

Class ByteSwapLaws `{ByteSwap} := {
  swap16_range z : 0 ≤ swap16 z < 2 ^ 16;
  swap32_range z : 0 ≤ swap32 z < 2 ^ 32;
  swap64_range z : 0 ≤ swap64 z < 2 ^ 64;
  swap16_swap16 z : 0 ≤ z < 2 ^ 16 → swap16 (swap16 z) = z;
  swap32_swap32 z : 0 ≤ z < 2 ^ 32 → swap32 (swap32 z) = z;
  swap64_swap64 z : 0 ≤ z < 2 ^ 64 → swap64 (swap64 z) = z
}.

(** ** A byte swap *)

(** The [k] bytes of [z] in host (little-endian) order, and back. *)
Definition host_bytes (k z : Z) : list Z := Z_to_little_endian k 8 z.
Definition of_host_bytes (bs : list Z) : Z := little_endian_to_Z 8 bs.

Definition bswap (k z : Z) : Z := of_host_bytes (reverse (host_bytes k z)).

Lemma length_host_bytes k z : 0 ≤ k → Z.of_nat (length (host_bytes k z)) = k.
Proof. apply length_Z_to_little_endian. Qed.

Lemma host_bytes_roundtrip k z : 0 ≤ k → 0 ≤ z < 2 ^ (k * 8) → of_host_bytes (host_bytes k z) = z.
Proof.
  intros Hk Hz. unfold of_host_bytes, host_bytes.
  rewrite little_endian_to_Z_to_little_endian by lia. by apply Z.mod_small.
Qed.

Lemma bswap_range k z : 0 ≤ k → 0 ≤ bswap k z < 2 ^ (k * 8).
Proof.
  intros Hk. pose proof (length_Z_to_little_endian k 8 z Hk) as Hl.
  pose proof (little_endian_to_Z_bound 8 (reverse (host_bytes k z)) ltac:(lia)) as Hb.
  unfold host_bytes in *. rewrite length_reverse, Hl in Hb. apply Hb.
  apply Forall_reverse, Z_to_little_endian_bound; lia.
Qed.

Lemma bswap_bswap k z : 0 ≤ k → 0 ≤ z < 2 ^ (k * 8) → bswap k (bswap k z) = z.
Proof.
  intros Hk Hz. unfold bswap, of_host_bytes, host_bytes.
  pose proof (length_Z_to_little_endian k 8 z Hk) as Hl.
  rewrite Z_to_little_endian_to_Z, reverse_involutive, little_endian_to_Z_to_little_endian;
    try lia.
  - by apply Z.mod_small.
  - rewrite length_reverse. lia.
  - apply Forall_reverse, Z_to_little_endian_bound; lia.
Qed.

#[global] Instance host_swap : ByteSwap :=
  {| swap16 := bswap 2; swap32 := bswap 4; swap64 := bswap 8 |}.

#[global] Instance host_swap_laws : ByteSwapLaws.
Proof.
  split; intros z; simpl.
  1-3: apply bswap_range; lia.
  all: intros Hz; apply bswap_bswap; [lia|exact Hz].
Qed.
