(* ===== verification/Ouch.v ===== *)
(** * Ouch: decoding client messages and encoding responses

    [src/src/network/protocol/ouch_processor.h].  The packed message structs of
    [ouch_messages.h] are QuantLink's: [OuchWire] gives the type bytes, the
    sizes, what [reinterpret_cast] finds at an address ([read_EnterOrder], ...)
    and the bytes of an outgoing struct; [OuchWireLaws] is what the gateway
    relies on.  The records have the members the exchange accesses, in network
    byte order, as they lie in memory.  What a client makes of the bytes is
    [OuchReader]: the structs have a fixed layout, so it finds the members
    again. *)

From S2P Require Import Prelude Types Wire TokenManager.

(** ** The structs *)

Record EnterOrder := {
  eo_order_token : list Z;
  eo_buy_sell_indicator : Z;
  eo_stock : Z;
  eo_price : Z;
  eo_time_in_force : Z;
  eo_get_shares : Z
}.

Record CancelOrder := { co_order_token : list Z; co_get_shares : Z }.

Record ReplaceOrder := {
  ro_existing_order_token : list Z;
  ro_replacement_order_token : list Z;
  ro_price : Z;
  ro_time_in_force : Z;
  ro_get_shares : Z
}.

Record OrderAccepted := {
  oa_type : Z; oa_timestamp : Z; oa_order_token : list Z; oa_buy_sell_indicator : Z; oa_shares : Z;
  oa_stock : Z; oa_price : Z; oa_time_in_force : Z; oa_order_reference_number : Z
}.
Record OrderExecuted := {
  oe_type : Z; oe_timestamp : Z; oe_order_token : list Z; oe_executed_shares : Z;
  oe_execution_price : Z; oe_match_number : Z
}.
Record OrderCanceled := {
  oc_type : Z; oc_timestamp : Z; oc_order_token : list Z; oc_decrement_shares : Z; oc_reason : Z
}.
Record OrderReplaced := {
  or_type : Z; or_timestamp : Z; or_replacement_order_token : list Z; or_buy_sell_indicator : Z;
  or_shares : Z; or_stock : Z; or_price : Z; or_time_in_force : Z; or_order_reference_number : Z
}.
Record CancelRejected := { cr_type : Z; cr_timestamp : Z; cr_order_token : list Z }.

(** An outgoing message: the struct with its members assigned, every other byte
    a blank. *)
Inductive ouch_out :=
  | OutAccepted (m : OrderAccepted)
  | OutExecuted (m : OrderExecuted)
  | OutCanceled (m : OrderCanceled)
  | OutReplaced (m : OrderReplaced)
  | OutCancelRejected (m : CancelRejected).

Class OuchWire := {
  ENTER_ORDER : Z;
  CANCEL_ORDER : Z;
  REPLACE_ORDER : Z;
  ORDER_ACCEPTED : Z;
  ORDER_EXECUTED : Z;
  ORDER_CANCELED : Z;
  MsgType_CANCEL_REJECTED : Z;
  sizeof_EnterOrder : nat;
  sizeof_CancelOrder : nat;
  sizeof_ReplaceOrder : nat;
  read_EnterOrder : list Z → EnterOrder;
  read_CancelOrder : list Z → CancelOrder;
  read_ReplaceOrder : list Z → ReplaceOrder;
  out_bytes : ouch_out → list Z
}.

Definition token_ok (token : list Z) : Prop := length token = OUCH_TOKEN_LEN.

(** The three type bytes differ, no struct is empty, a struct is what its own
    bytes say, tokens have the length of an OUCH token, share counts are 32-bit
    numbers, and no outgoing struct is empty. *)
Class OuchWireLaws `{OuchWire} := {
  ouch_types_differ :
    ENTER_ORDER ≠ CANCEL_ORDER ∧ ENTER_ORDER ≠ REPLACE_ORDER ∧ CANCEL_ORDER ≠ REPLACE_ORDER;
  ouch_sizes :
    (0 < sizeof_EnterOrder)%nat ∧ (0 < sizeof_CancelOrder)%nat ∧ (0 < sizeof_ReplaceOrder)%nat;
  read_EnterOrder_local bs bs' :
    (sizeof_EnterOrder ≤ length bs)%nat → read_EnterOrder (bs ++ bs') = read_EnterOrder bs;
  read_CancelOrder_local bs bs' :
    (sizeof_CancelOrder ≤ length bs)%nat → read_CancelOrder (bs ++ bs') = read_CancelOrder bs;
  read_ReplaceOrder_local bs bs' :
    (sizeof_ReplaceOrder ≤ length bs)%nat → read_ReplaceOrder (bs ++ bs') = read_ReplaceOrder bs;
  eo_shares_range bs : 0 ≤ eo_get_shares (read_EnterOrder bs) < 2 ^ 32;
  co_shares_range bs : 0 ≤ co_get_shares (read_CancelOrder bs) < 2 ^ 32;
  ro_shares_range bs : 0 ≤ ro_get_shares (read_ReplaceOrder bs) < 2 ^ 32;
  eo_token_ok bs : token_ok (eo_order_token (read_EnterOrder bs));
  co_token_ok bs : token_ok (co_order_token (read_CancelOrder bs));
  ro_tokens_ok bs :
    token_ok (ro_existing_order_token (read_ReplaceOrder bs)) ∧
    token_ok (ro_replacement_order_token (read_ReplaceOrder bs));
  out_bytes_nonempty m : out_bytes m ≠ []
}.

(** ** Reading an outgoing message *)

(** A struct of its type whose members have their widths. *)
Definition out_ok `{OuchWire} (m : ouch_out) : Prop :=
  match m with
  | OutAccepted m =>
      oa_type m = ORDER_ACCEPTED ∧ 0 ≤ oa_timestamp m < 2 ^ 64 ∧ token_ok (oa_order_token m) ∧
      0 ≤ oa_buy_sell_indicator m < 256 ∧ 0 ≤ oa_shares m < 2 ^ 32 ∧ 0 ≤ oa_stock m < 2 ^ 64 ∧
      0 ≤ oa_price m < 2 ^ 32 ∧ 0 ≤ oa_time_in_force m < 2 ^ 32 ∧
      0 ≤ oa_order_reference_number m < 2 ^ 64
  | OutExecuted m =>
      oe_type m = ORDER_EXECUTED ∧ 0 ≤ oe_timestamp m < 2 ^ 64 ∧ token_ok (oe_order_token m) ∧
      0 ≤ oe_executed_shares m < 2 ^ 32 ∧ 0 ≤ oe_execution_price m < 2 ^ 32 ∧
      0 ≤ oe_match_number m < 2 ^ 64
  | OutCanceled m =>
      oc_type m = ORDER_CANCELED ∧ 0 ≤ oc_timestamp m < 2 ^ 64 ∧ token_ok (oc_order_token m) ∧
      0 ≤ oc_decrement_shares m < 2 ^ 32 ∧ 0 ≤ oc_reason m < 256
  | OutReplaced m =>
      or_type m = REPLACE_ORDER ∧ 0 ≤ or_timestamp m < 2 ^ 64 ∧
      token_ok (or_replacement_order_token m) ∧ 0 ≤ or_buy_sell_indicator m < 256 ∧
      0 ≤ or_shares m < 2 ^ 32 ∧ 0 ≤ or_stock m < 2 ^ 64 ∧ 0 ≤ or_price m < 2 ^ 32 ∧
      0 ≤ or_time_in_force m < 2 ^ 32 ∧ 0 ≤ or_order_reference_number m < 2 ^ 64
  | OutCancelRejected m =>
      cr_type m = MsgType_CANCEL_REJECTED ∧ 0 ≤ cr_timestamp m < 2 ^ 64 ∧ token_ok (cr_order_token m)
  end.

(** The first message of what arrives on a client's connection, and the bytes
    behind it. *)
Class OuchReader := read_out : list Z → option (ouch_out * list Z).
Class OuchReaderLaws `{OuchWire} `{OuchReader} :=
  read_out_bytes m rest : out_ok m → read_out (out_bytes m ++ rest) = Some (m, rest).

(** ** [decodeOuch] *)

Section decode.
Context `{OuchWire} `{ByteSwap}.

Definition char_B : Z := 66.
Definition char_S : Z := 83.
Definition char_U : Z := 85.

Definition tif_type (time_in_force : Z) : OrderType :=
  if swap32 time_in_force =? 0 then FillAndKill else GoodTillCancel.

(** [token_manager.id_to_token_[id].tickerId_] *)
Definition ticker_of (id : OrderId) : M OrderTokenManager TickerId :=
  m ← get;
  match id_to_token_ m !! Z.to_nat id with
  | Some i => mret (tickerId_ i)
  | None => raise OutOfRange
  end.

Definition register (clientId : ClientId) (token : list Z) (ticker : TickerId)
    : M OrderTokenManager OrderId :=
  λ m, Ok (registerNewToken clientId token ticker m).

(** [data] is the memory from the start of the message on; [None] is the result
    [false], for which the caller discards [out_request]. *)
Definition decodeOuch (data : list Z) (clientId : ClientId)
    : M OrderTokenManager (option MEClientRequest) :=
  let mssg_type := default 0 (data !! 0%nat) in
  if mssg_type =? ENTER_ORDER then
    let msg := read_EnterOrder data in
    let ticker := u32 (swap64 (eo_stock msg)) in
    id ← register clientId (eo_order_token msg) ticker;
    if id =? 0 then mret None
    else mret (Some {|
      rq_client_id_ := clientId; rq_client_order_id_ := id; rq_new_client_order_id_ := 0;
      rq_price_ := swap32 (eo_price msg); rq_ticker_id_ := ticker;
      rq_qty_ := eo_get_shares msg; rq_action_ := REQ_NEW;
      rq_type_ := tif_type (eo_time_in_force msg);
      rq_side_ := if eo_buy_sell_indicator msg =? char_B then BUY else SELL;
      rq_order_token_ := take OUCH_TOKEN_LEN (eo_order_token msg) |})
  else if mssg_type =? CANCEL_ORDER then
    let msg := read_CancelOrder data in
    id ← gets (getID clientId (co_order_token msg));
    if id =? 0 then mret None
    else
      ticker ← ticker_of id;
      mret (Some {|
        rq_client_id_ := clientId; rq_client_order_id_ := id; rq_new_client_order_id_ := 0;
        rq_price_ := 0; rq_ticker_id_ := ticker; rq_qty_ := co_get_shares msg;
        rq_action_ := REQ_CANCEL; rq_type_ := GoodTillCancel; rq_side_ := BUY;
        rq_order_token_ := take OUCH_TOKEN_LEN (co_order_token msg) |})
  else if mssg_type =? REPLACE_ORDER then
    let msg := read_ReplaceOrder data in
    id ← gets (getID clientId (ro_existing_order_token msg));
    if id =? 0 then mret None
    else
      ticker ← ticker_of id;
      newId ← register clientId (ro_replacement_order_token msg) ticker;
      if newId =? 0 then mret None
      else mret (Some {|
        rq_client_id_ := clientId; rq_client_order_id_ := id; rq_new_client_order_id_ := newId;
        rq_price_ := swap32 (ro_price msg); rq_ticker_id_ := ticker;
        rq_qty_ := ro_get_shares msg; rq_action_ := REQ_MODIFY;
        rq_type_ := tif_type (ro_time_in_force msg); rq_side_ := BUY;
        rq_order_token_ := take OUCH_TOKEN_LEN (ro_replacement_order_token msg) |})
  else mret None.

(** ** [encodeOuch] *)

Definition side_char (s : Side) : Z := match s with BUY => char_B | SELL => char_S end.
Definition tif_field (t : OrderType) : Z :=
  swap32 (match t with FillAndKill => 0 | GoodTillCancel => 99998 end).

(** The struct written to [out_buffer]; 64-bit prices are cut to the 32 bits of
    their field. *)
Definition encodeOuch (resp : MEClientResponse) (current_ts : Z) : ouch_out :=
  let token := rs_order_token_ resp in
  let ts := swap64 current_ts in
  match rs_status_ resp with
  | ACCEPTED => OutAccepted {|
      oa_type := ORDER_ACCEPTED; oa_timestamp := ts; oa_order_token := token;
      oa_buy_sell_indicator := side_char (rs_side_ resp);
      oa_shares := swap32 (rs_qty_ resp); oa_stock := swap64 (rs_ticker_id_ resp);
      oa_price := swap32 (u32 (rs_price_ resp)); oa_time_in_force := tif_field (rs_type_ resp);
      oa_order_reference_number := swap64 (rs_market_order_id_ resp) |}
  | EXECUTED => OutExecuted {|
      oe_type := ORDER_EXECUTED; oe_timestamp := ts; oe_order_token := token;
      oe_executed_shares := swap32 (rs_executed_qty_ resp);
      oe_execution_price := swap32 (u32 (rs_execution_price_ resp));
      oe_match_number := swap64 (rs_match_id_ resp) |}
  | CANCELED => OutCanceled {|
      oc_type := ORDER_CANCELED; oc_timestamp := ts; oc_order_token := token;
      oc_decrement_shares := swap32 (rs_leaves_qty_ resp); oc_reason := char_U |}
  | MODIFIED => OutReplaced {|
      or_type := REPLACE_ORDER; or_timestamp := ts; or_replacement_order_token := token;
      or_buy_sell_indicator := side_char (rs_side_ resp);
      or_shares := swap32 (rs_qty_ resp); or_stock := swap64 (rs_ticker_id_ resp);
      or_price := swap32 (u32 (rs_price_ resp)); or_time_in_force := tif_field (rs_type_ resp);
      or_order_reference_number := swap64 (rs_market_order_id_ resp) |}
  | CANCEL_REJECTED => OutCancelRejected {|
      cr_type := MsgType_CANCEL_REJECTED; cr_timestamp := ts; cr_order_token := token |}
  end.
End decode.
