(* ===== verification/OuchFacts.v ===== *)
(** * OuchFacts: what decoding and encoding guarantee

    [decodeOuch] refines [decode_spec], which works on the history of
    registrations instead of the token manager; runs of decodes hand out fresh
    ids and let a client name its own orders only; [encodeOuch] loses nothing a
    client needs. *)

From S2P Require Import Prelude Types BookSpec DList Memory StoreRep BookSpecFacts BookTime MatchingEngine Wire TokenManager Ouch.

(** ** The contract of [decodeOuch] *)

(** The registration a token resolves to, with its id. *)
Definition resolve (c : ClientId) (token : list Z) (h : list info) : option (OrderId * info) :=
  let id := newest c (take OUCH_TOKEN_LEN token) 1 h in
  if id =? 0 then None else pair id <$> h !! Z.to_nat (id - 1).

Definition new_info (c : ClientId) (token : list Z) (t : TickerId) : info :=
  Info (take OUCH_TOKEN_LEN token) t c.

Section spec.
Context `{OuchWire} `{ByteSwap}.

Definition decode_spec (size : nat) (c : ClientId) (data : list Z) (h : list info)
    : option MEClientRequest * list info :=
  let type := default 0 (data !! 0%nat) in
  let room := (length h <? size)%nat in
  let id' := 1 + Z.of_nat (length h) in
  if type =? ENTER_ORDER then
    let msg := read_EnterOrder data in
    let t := u32 (swap64 (eo_stock msg)) in
    if room then
      (Some {| rq_client_id_ := c; rq_client_order_id_ := id'; rq_new_client_order_id_ := 0;
               rq_price_ := swap32 (eo_price msg); rq_ticker_id_ := t;
               rq_qty_ := eo_get_shares msg; rq_action_ := REQ_NEW;
               rq_type_ := tif_type (eo_time_in_force msg);
               rq_side_ := if eo_buy_sell_indicator msg =? char_B then BUY else SELL;
               rq_order_token_ := take OUCH_TOKEN_LEN (eo_order_token msg) |},
       h ++ [new_info c (eo_order_token msg) t])
    else (None, h)
  else if type =? CANCEL_ORDER then
    let msg := read_CancelOrder data in
    match resolve c (co_order_token msg) h with
    | Some (id, i) =>
        (Some {| rq_client_id_ := c; rq_client_order_id_ := id; rq_new_client_order_id_ := 0;
                 rq_price_ := 0; rq_ticker_id_ := tickerId_ i; rq_qty_ := co_get_shares msg;
                 rq_action_ := REQ_CANCEL; rq_type_ := GoodTillCancel; rq_side_ := BUY;
                 rq_order_token_ := take OUCH_TOKEN_LEN (co_order_token msg) |}, h)
    | None => (None, h)
    end
  else if type =? REPLACE_ORDER then
    let msg := read_ReplaceOrder data in
    match resolve c (ro_existing_order_token msg) h with
    | Some (id, i) =>
        if room then
          (Some {| rq_client_id_ := c; rq_client_order_id_ := id; rq_new_client_order_id_ := id';
                   rq_price_ := swap32 (ro_price msg); rq_ticker_id_ := tickerId_ i;
                   rq_qty_ := ro_get_shares msg; rq_action_ := REQ_MODIFY;
                   rq_type_ := tif_type (ro_time_in_force msg); rq_side_ := BUY;
                   rq_order_token_ := take OUCH_TOKEN_LEN (ro_replacement_order_token msg) |},
           h ++ [new_info c (ro_replacement_order_token msg) (tickerId_ i)])
        else (None, h)
    | None => (None, h)
    end
  else (None, h).

(** ** The refinement *)

(** Registering, seen from the history. *)
Lemma register_cases size h m c tok t :
  token_rep size h m → Z.of_nat size + 1 < 2 ^ 64 →
  ∃ m', register c tok t m =
          Ok (if (length h <? size)%nat then 1 + Z.of_nat (length h) else 0, m') ∧
        token_rep size (if (length h <? size)%nat then h ++ [new_info c tok t] else h) m'.
Proof.
  intros Hr Hs. unfold register. pose proof (tr_len _ _ _ Hr).
  destruct (Nat.ltb_spec (length h) size).
  - destruct (register_ok size h m c tok t Hr Hs) as (m' & -> & Hr'); [done|]. eauto.
  - rewrite (register_full size h m) by (done || lia). eauto.
Qed.

(** Looking a token up, seen from the history: the slot of a registered id is
    in range. *)
Lemma resolve_cases size h m c tok :
  token_rep size h m →
  match resolve c tok h with
  | Some (id, i) => getID c tok m = id ∧ id ≠ 0 ∧ ticker_of id m = Ok (tickerId_ i, m)
  | None => getID c tok m = 0
  end.
Proof.
  intros Hr. rewrite (getID_rep _ _ _ _ _ Hr). unfold resolve.
  set (id := newest _ _ 1 h). destruct (Z.eqb_spec id 0) as [Hz|Hz]; [done|].
  destruct (newest_sound c (take OUCH_TOKEN_LEN tok) h Hz) as (i & Hi & _ & _).
  destruct (newest_range c (take OUCH_TOKEN_LEN tok) 1 h) as [?|Hrange]; [lia|done|].
  fold id in Hi, Hrange. rewrite Hi. simpl. split_and!; [done..|].
  unfold ticker_of. mgo m m.
  rewrite (slot_rep _ _ _ _ Hr) by (fold id; lia). by rewrite Hi.
Qed.

Lemma decode_ok size h m c data :
  token_rep size h m → Z.of_nat size + 1 < 2 ^ 64 →
  let r := decode_spec size c data h in
  ∃ m', decodeOuch data c m = Ok (r.1, m') ∧ token_rep size r.2 m'.
Proof.
  intros Hr Hs. unfold decodeOuch, decode_spec.
  destruct (default 0 (data !! 0%nat) =? ENTER_ORDER).
  { destruct (register_cases size h m c (eo_order_token (read_EnterOrder data))
      (u32 (swap64 (eo_stock (read_EnterOrder data)))) Hr Hs) as (m' & Hreg & Hr').
    mstep Hreg. exists m'.
    destruct (Nat.ltb_spec (length h) size); simpl; [|by split].
    destruct (Z.eqb_spec (1 + Z.of_nat (length h)) 0); [lia|by split]. }
  destruct (default 0 (data !! 0%nat) =? CANCEL_ORDER).
  { pose proof (resolve_cases size h m c (co_order_token (read_CancelOrder data)) Hr) as Hres.
    mgo (getID c (co_order_token (read_CancelOrder data)) m) m.
    destruct (resolve _ _ h) as [[id i]|]; [|by rewrite Hres; exists m].
    destruct Hres as (-> & Hz & Ht). destruct (Z.eqb_spec id 0); [done|].
    mstep Ht. by exists m. }
  destruct (default 0 (data !! 0%nat) =? REPLACE_ORDER); [|by exists m].
  set (msg := read_ReplaceOrder data).
  pose proof (resolve_cases size h m c (ro_existing_order_token msg) Hr) as Hres.
  mgo (getID c (ro_existing_order_token msg) m) m.
  destruct (resolve _ _ h) as [[id i]|]; [|by rewrite Hres; exists m].
  destruct Hres as (-> & Hz & Ht). destruct (Z.eqb_spec id 0); [done|].
  mstep Ht.
  destruct (register_cases size h m c (ro_replacement_order_token msg) (tickerId_ i) Hr Hs)
    as (m' & Hreg & Hr').
  mstep Hreg. exists m'.
  destruct (Nat.ltb_spec (length h) size); simpl; [|by split].
  destruct (Z.eqb_spec (1 + Z.of_nat (length h)) 0); [lia|by split].
Qed.

(** ** Runs of decodes *)

(** The messages of all clients in the order they are decoded; undecodable ones
    are dropped. *)
Fixpoint decode_all (msgs : list (ClientId * list Z)) : M OrderTokenManager (list MEClientRequest) :=
  match msgs with
  | [] => mret []
  | (c, data) :: msgs' =>
      r ← decodeOuch data c;
      rqs ← decode_all msgs';
      mret (option_list r ++ rqs)
  end.

Fixpoint decode_all_spec (size : nat) (msgs : list (ClientId * list Z)) (h : list info)
    : list MEClientRequest * list info :=
  match msgs with
  | [] => ([], h)
  | (c, data) :: msgs' =>
      let r := decode_spec size c data h in
      let rs := decode_all_spec size msgs' r.2 in
      (option_list r.1 ++ rs.1, rs.2)
  end.

Lemma decode_all_ok size msgs h m :
  token_rep size h m → Z.of_nat size + 1 < 2 ^ 64 →
  let r := decode_all_spec size msgs h in
  ∃ m', decode_all msgs m = Ok (r.1, m') ∧ token_rep size r.2 m'.
Proof.
  intros Hr Hs. revert h m Hr. induction msgs as [|[c data] msgs IH]; intros h m Hr; simpl.
  { by exists m. }
  destruct (decode_ok size h m c data Hr Hs) as (m1 & Hd & Hr1). mstep Hd.
  destruct (IH _ _ Hr1) as (m2 & Hall & Hr2). mstep Hall. by exists m2.
Qed.

(** *** The ids of a run *)

(** What a request registers: client, id and ticker. *)
Definition registers (rq : MEClientRequest) : option (ClientId * OrderId * TickerId) :=
  (λ k, (k, rq_ticker_id_ rq)) <$> new_key rq.

Definition registration (n : nat) (i : info) : ClientId * OrderId * TickerId :=
  (clientId_ i, 1 + Z.of_nat n, tickerId_ i).

(** An order is named by a request of the client that entered it, on the ticker
    it was entered on. *)
Definition names_own (before : list info) (rq : MEClientRequest) : Prop :=
  rq_action_ rq ≠ REQ_NEW →
  ∃ i, before !! Z.to_nat (rq_client_order_id_ rq - 1) = Some i ∧ 0 < rq_client_order_id_ rq ∧
       clientId_ i = rq_client_id_ rq ∧ tickerId_ i = rq_ticker_id_ rq.

Lemma resolve_sound c tok h id i :
  resolve c tok h = Some (id, i) →
  h !! Z.to_nat (id - 1) = Some i ∧ 0 < id ∧ clientId_ i = c ∧ token_ i = take OUCH_TOKEN_LEN tok.
Proof.
  unfold resolve. intros Hres. destruct (Z.eqb_spec (newest c (take OUCH_TOKEN_LEN tok) 1 h) 0);
    [done|].
  destruct (newest_sound c (take OUCH_TOKEN_LEN tok) h) as (j & Hj & Hc & Ht); [done|].
  destruct (newest_range c (take OUCH_TOKEN_LEN tok) 1 h) as [?|?]; [lia|done|].
  rewrite Hj in Hres. injection Hres as <- <-. split_and!; (done || lia).
Qed.

(** One decode, seen from the history: it appends at most one registration, the
    one the request it yields registers. *)
Lemma decode_spec_step size c data h :
  let '(r, h') := decode_spec size c data h in
  h' = h ++ (match r with
             | Some rq => match new_key rq with
                          | Some _ => [Info (rq_order_token_ rq) (rq_ticker_id_ rq) c]
                          | None => []
                          end
             | None => []
             end) ∧
  ∀ rq, r = Some rq →
    rq_client_id_ rq = c ∧ names_own h rq ∧
    ∀ k, new_key rq = Some k → k = (c, 1 + Z.of_nat (length h)).
Proof.
  unfold decode_spec, new_info, new_key.
  repeat match goal with
  | |- context [?a =? ?b] => destruct (a =? b)
  | |- context [(?a <? ?b)%nat] => destruct (a <? b)%nat
  | |- context [resolve ?c ?t ?h] => destruct (resolve c t h) as [[id i]|] eqn:Hres
  end; simpl; rewrite ?app_nil_r; (split; [done|]); intros rq Hrq; simplify_eq; simpl;
    (split; [done|]); (split; [|intros k Hk; by inversion Hk]); intros Hact; try done;
    apply resolve_sound in Hres as (? & ? & ? & ?); by exists i.
Qed.

(** *** Invariants of runs *)

(** The registrations of a run of requests, in order. *)
Definition run_regs (rqs : list MEClientRequest) (h : list info) : Prop :=
  omap registers rqs = imap registration h.

(** A cancel or replace names an order of its own client on its own ticker. *)
Definition names_earlier (before : list MEClientRequest) (rq : MEClientRequest) : Prop :=
  rq_action_ rq ≠ REQ_NEW →
  ∃ rq', rq' ∈ before ∧
    registers rq' = Some (rq_client_id_ rq, rq_client_order_id_ rq, rq_ticker_id_ rq).

Definition fields_ok (rq : MEClientRequest) : Prop :=
  0 ≤ rq_qty_ rq < 2 ^ 32 ∧ 0 ≤ rq_price_ rq < 2 ^ 32 ∧ token_ok (rq_order_token_ rq).

Lemma registration_lookup (h : list info) n i :
  h !! n = Some i → registration n i ∈ imap registration h.
Proof. intros Hi. apply list_elem_of_lookup_2 with n. by rewrite list_lookup_imap, Hi. Qed.

Lemma names_own_earlier rqs h rq : run_regs rqs h → names_own h rq → names_earlier rqs rq.
Proof.
  intros Hregs Hown Hact. destruct (Hown Hact) as (i & Hi & Hpos & Hc & Ht).
  apply registration_lookup in Hi. rewrite <- Hregs in Hi.
  apply list_elem_of_omap in Hi as (rq' & Hin & Hrq'). exists rq'. split; [done|].
  rewrite Hrq'. unfold registration. rewrite Hc, Ht. repeat f_equal. lia.
Qed.

Lemma new_keys_regs rqs h :
  run_regs rqs h →
  omap new_key rqs = imap (λ n i, (clientId_ i, 1 + Z.of_nat n)) h.
Proof.
  intros Hregs. assert (Hfst : omap new_key rqs = fst <$> omap registers rqs).
  { clear Hregs. induction rqs as [|rq rqs IH]; simpl; [done|]. unfold registers at 1.
    destruct (new_key rq); simpl; [f_equal|]; exact IH. }
  rewrite Hfst, Hregs, fmap_imap. by apply imap_ext.
Qed.

Lemma run_regs_NoDup rqs h : run_regs rqs h → NoDup (omap new_key rqs).
Proof.
  intros Hregs. rewrite (new_keys_regs _ _ Hregs). apply NoDup_alt. intros i j x.
  rewrite !list_lookup_imap. destruct (h !! i), (h !! j); simpl; intros [= <-] ?; simplify_eq; lia.
Qed.

Context `{!OuchWireLaws} `{!ByteSwapLaws}.

Lemma decode_spec_fields size c data h rq :
  (decode_spec size c data h).1 = Some rq → fields_ok rq.
Proof.
  unfold decode_spec, fields_ok.
  pose proof (eo_shares_range data). pose proof (co_shares_range data).
  pose proof (ro_shares_range data).
  assert (Htok : ∀ t, token_ok t → token_ok (take OUCH_TOKEN_LEN t)).
  { intros t Ht. unfold token_ok in *. rewrite length_take, Ht. lia. }
  pose proof (Htok _ (eo_token_ok data)). pose proof (Htok _ (co_token_ok data)).
  pose proof (Htok _ (proj2 (ro_tokens_ok data))).
  repeat match goal with
  | |- context [?a =? ?b] => destruct (a =? b)
  | |- context [(?a <? ?b)%nat] => destruct (a <? b)%nat
  | |- context [resolve ?c ?t ?h] => destruct (resolve c t h) as [[id i]|]
  end; simpl; intros Hrq; simplify_eq; simpl; split_and!; (done || lia || apply swap32_range).
Qed.

Lemma decode_all_regs size msgs h rqs0 :
  run_regs rqs0 h →
  let r := decode_all_spec size msgs h in
  run_regs (rqs0 ++ r.1) r.2 ∧
  ∀ j rq, r.1 !! j = Some rq → fields_ok rq ∧ names_earlier (rqs0 ++ take j r.1) rq.
Proof.
  revert h rqs0. induction msgs as [|[c data] msgs IH]; intros h rqs0 Hregs; simpl.
  { by rewrite app_nil_r. }
  pose proof (decode_spec_step size c data h) as Hstep.
  pose proof (decode_spec_fields size c data h) as Hfields.
  destruct (decode_spec size c data h) as [[rq0|] h'] eqn:Hd; simpl in *.
  - destruct Hstep as [Hh Hrq]. destruct (Hrq _ eq_refl) as (Hc & Hown & Hkey).
    assert (Hregs' : run_regs (rqs0 ++ [rq0]) h').
    { unfold run_regs in *. rewrite omap_app, Hregs, Hh, imap_app. f_equal. simpl.
      unfold registers. destruct (new_key rq0) as [k|] eqn:Hk; simpl; [|done].
      rewrite (Hkey k eq_refl). unfold registration. simpl. by rewrite Nat.add_0_r. }
    destruct (IH h' _ Hregs') as [Hr Hall]. rewrite <- app_assoc in Hr. split; [exact Hr|].
    intros [|j] rq; simpl; [|].
    + intros [= <-]. rewrite app_nil_r. split; [by apply Hfields|]. by eapply names_own_earlier.
    + intros Hj. destruct (Hall j rq Hj) as [? Hn]. by rewrite <- app_assoc in Hn.
  - destruct Hstep as [Hh _]. rewrite app_nil_r in Hh. subst h'. by apply IH.
Qed.
End spec.

(** ** A concrete layout

    Members at fixed offsets, numbers in network order, in the style of OUCH
    4.2; it shows that the laws can hold and drives the concrete runs.  A token
    is 14 characters, [char14]: memory behind the end of the bytes is read as zero. *)

Definition field (off len : nat) (bs : list Z) : list Z := take len (drop off bs).

Lemma field_app off len bs bs' :
  (off + len ≤ length bs)%nat → field off len (bs ++ bs') = field off len bs.
Proof.
  intros Hle. unfold field. rewrite drop_app_le by lia. apply take_app_le.
  rewrite length_drop. lia.
Qed.

Definition num (off len : nat) (bs : list Z) : Z := of_host_bytes (field off len bs).

Definition char14 (off : nat) (bs : list Z) : list Z :=
  resize OUCH_TOKEN_LEN 0 (field off OUCH_TOKEN_LEN bs).

#[global] Instance demo_wire : OuchWire := {|
  ENTER_ORDER := 79; CANCEL_ORDER := 88; REPLACE_ORDER := 85;
  ORDER_ACCEPTED := 65; ORDER_EXECUTED := 69; ORDER_CANCELED := 67; MsgType_CANCEL_REJECTED := 74;
  sizeof_EnterOrder := 49; sizeof_CancelOrder := 19; sizeof_ReplaceOrder := 47;
  read_EnterOrder bs := {|
    eo_order_token := char14 1 bs; eo_buy_sell_indicator := num 15 1 bs;
    eo_stock := num 20 8 bs; eo_price := num 28 4 bs; eo_time_in_force := num 32 4 bs;
    eo_get_shares := swap32 (num 16 4 bs) |};
  read_CancelOrder bs := {|
    co_order_token := char14 1 bs; co_get_shares := swap32 (num 15 4 bs) |};
  read_ReplaceOrder bs := {|
    ro_existing_order_token := char14 1 bs; ro_replacement_order_token := char14 15 bs;
    ro_price := num 33 4 bs; ro_time_in_force := num 37 4 bs;
    ro_get_shares := swap32 (num 29 4 bs) |};
  out_bytes m :=
    match m with
    | OutAccepted m =>
        host_bytes 1 (oa_type m) ++ host_bytes 8 (oa_timestamp m) ++ oa_order_token m ++
        host_bytes 1 (oa_buy_sell_indicator m) ++ host_bytes 4 (oa_shares m) ++
        host_bytes 8 (oa_stock m) ++ host_bytes 4 (oa_price m) ++
        host_bytes 4 (oa_time_in_force m) ++ host_bytes 8 (oa_order_reference_number m)
    | OutExecuted m =>
        host_bytes 1 (oe_type m) ++ host_bytes 8 (oe_timestamp m) ++ oe_order_token m ++
        host_bytes 4 (oe_executed_shares m) ++ host_bytes 4 (oe_execution_price m) ++
        host_bytes 8 (oe_match_number m)
    | OutCanceled m =>
        host_bytes 1 (oc_type m) ++ host_bytes 8 (oc_timestamp m) ++ oc_order_token m ++
        host_bytes 4 (oc_decrement_shares m) ++ host_bytes 1 (oc_reason m)
    | OutReplaced m =>
        host_bytes 1 (or_type m) ++ host_bytes 8 (or_timestamp m) ++ or_replacement_order_token m ++
        host_bytes 1 (or_buy_sell_indicator m) ++ host_bytes 4 (or_shares m) ++
        host_bytes 8 (or_stock m) ++ host_bytes 4 (or_price m) ++
        host_bytes 4 (or_time_in_force m) ++ host_bytes 8 (or_order_reference_number m)
    | OutCancelRejected m =>
        host_bytes 1 (cr_type m) ++ host_bytes 8 (cr_timestamp m) ++ cr_order_token m
    end
|}.

#[global] Instance demo_wire_laws : OuchWireLaws.
Proof.
  split.
  - simpl. lia.
  - simpl. lia.
  - intros bs bs' Hl. simpl in *. unfold num, char14, OUCH_TOKEN_LEN. by rewrite !field_app by lia.
  - intros bs bs' Hl. simpl in *. unfold num, char14, OUCH_TOKEN_LEN. by rewrite !field_app by lia.
  - intros bs bs' Hl. simpl in *. unfold num, char14, OUCH_TOKEN_LEN. by rewrite !field_app by lia.
  - intros bs. apply swap32_range.
  - intros bs. apply swap32_range.
  - intros bs. apply swap32_range.
  - intros bs. apply length_resize.
  - intros bs. apply length_resize.
  - intros bs. split; apply length_resize.
  - intros m Hnil. apply (f_equal length) in Hnil.
    destruct m; cbn [out_bytes demo_wire] in Hnil; rewrite length_app in Hnil; simpl in Hnil; lia.
Qed.

(** Messages in that layout, padded with blanks. *)
Definition pad (size : nat) (bs : list Z) : list Z := bs ++ replicate (size - length bs) 32.
Definition net (k z : Z) : list Z := host_bytes k (bswap k z).
Definition tok (c : Z) : list Z := replicate OUCH_TOKEN_LEN c.

Definition enter_msg (token : list Z) (side shares ticker price tif : Z) : list Z :=
  pad 49 ([79] ++ token ++ [side] ++ net 4 shares ++ net 8 ticker ++ net 4 price ++ net 4 tif).
Definition cancel_msg (token : list Z) (shares : Z) : list Z :=
  pad 19 ([88] ++ token ++ net 4 shares).
Definition replace_msg (old new : list Z) (shares price tif : Z) : list Z :=
  pad 47 ([85] ++ old ++ new ++ net 4 shares ++ net 4 price ++ net 4 tif).

(** ** The theorems *)

(** C29: [decodeOuch] on every branch, for a token manager that represents a
    history of registrations: it never reads a slot out of range; an Enter
    Order registers its token under the next id and a Replace Order its
    replacement token, on the ticker of the order it replaces; a Cancel and a
    Replace name the newest order of the same client with the given token; an
    unknown token, an exhausted pool and an unknown type are refused and change
    nothing. *)
Theorem decodeOuch_refines `{OuchWire} `{ByteSwap} (size : nat) (h : list info)
    (m : OrderTokenManager) (c : ClientId) (data : list Z) :
  token_rep size h m → Z.of_nat size + 1 < 2 ^ 64 →
  let '(r, h') := decode_spec size c data h in
  ∃ m', decodeOuch data c m = Ok (r, m') ∧ token_rep size h' m'.
Proof.
  intros Hr Hs. destruct (decode_ok size h m c data Hr Hs) as (m' & Hd & Hr').
  destruct (decode_spec size c data h) as [r h']. by exists m'.
Qed.

Lemma decodeOuch_refines_witness :
  ∃ m', decodeOuch (enter_msg (tok 65) 66 10 1 1001234 0) 1 (manager_new 16) =
        Ok (Some {| rq_client_id_ := 1; rq_client_order_id_ := 1; rq_new_client_order_id_ := 0;
                    rq_price_ := 1001234; rq_ticker_id_ := 1; rq_qty_ := 10;
                    rq_action_ := REQ_NEW; rq_type_ := FillAndKill; rq_side_ := BUY;
                    rq_order_token_ := tok 65 |}, m') ∧
        token_rep 16 [Info (tok 65) 1 1] m'.
Proof.
  pose proof (decodeOuch_refines 16 [] (manager_new 16) 1
    (enter_msg (tok 65) 66 10 1 1001234 0) (token_rep_new 16) ltac:(lia)) as Hd.
  vm_compute in Hd. exact Hd.
Defined.

(** C28: Whatever the clients send, in whatever order it is decoded: decoding
    never faults, no two requests register the same client and order id,
    quantities and prices are 32-bit numbers, tokens 14 characters, and every cancel or replace names
    an order that the same client entered earlier, on the ticker it was entered
    on. *)
Theorem gateway_names_own_orders `{OuchWire} `{ByteSwap} `{!OuchWireLaws} `{!ByteSwapLaws}
    (size : nat) (msgs : list (ClientId * list Z)) :
  Z.of_nat size + 1 < 2 ^ 64 →
  ∃ rqs m, decode_all msgs (manager_new size) = Ok (rqs, m) ∧
    NoDup (omap new_key rqs) ∧
    ∀ j rq, rqs !! j = Some rq → fields_ok rq ∧ names_earlier (take j rqs) rq.
Proof.
  intros Hs. destruct (decode_all_ok size msgs [] _ (token_rep_new size) Hs) as (m & Hd & _).
  destruct (decode_all_regs size msgs [] [] eq_refl) as [Hregs Hall].
  eexists _, m. split; [exact Hd|]. split; [|exact Hall]. by eapply run_regs_NoDup.
Qed.

(** Client 2 cannot cancel client 1's order with client 1's token; client 1 can
    replace it and cancel the replacement. *)
Definition demo_msgs : list (ClientId * list Z) :=
  [ (1, enter_msg (tok 65) 66 10 0 100 99998); (2, cancel_msg (tok 65) 0);
    (1, replace_msg (tok 65) (tok 66) 7 101 99998); (1, cancel_msg (tok 66) 0) ].

Lemma gateway_names_own_orders_witness :
  ∃ rqs m, decode_all demo_msgs (manager_new 16) = Ok (rqs, m) ∧ NoDup (omap new_key rqs) ∧
    (rq_action_ <$> rqs) = [REQ_NEW; REQ_MODIFY; REQ_CANCEL].
Proof.
  destruct (gateway_names_own_orders 16 demo_msgs ltac:(lia)) as (rqs & m & Hd & Hnd & _).
  exists rqs, m. split_and!; [exact Hd|exact Hnd|]. vm_compute in Hd. injection Hd as <- _.
  reflexivity.
Defined.

(** *** Encoding *)

(** The fields a response puts on the wire fit into their wire fields. *)
Definition encodable (resp : MEClientResponse) (ts : Z) : Prop :=
  0 ≤ ts < 2 ^ 64 ∧ token_ok (rs_order_token_ resp) ∧
  match rs_status_ resp with
  | ACCEPTED | MODIFIED =>
      0 ≤ rs_qty_ resp < 2 ^ 32 ∧ 0 ≤ rs_ticker_id_ resp < 2 ^ 32 ∧
      0 ≤ rs_price_ resp < 2 ^ 32 ∧ 0 ≤ rs_market_order_id_ resp < 2 ^ 64
  | EXECUTED =>
      0 ≤ rs_executed_qty_ resp < 2 ^ 32 ∧ 0 ≤ rs_execution_price_ resp < 2 ^ 32 ∧
      0 ≤ rs_match_id_ resp < 2 ^ 64
  | CANCELED => 0 ≤ rs_leaves_qty_ resp < 2 ^ 32
  | CANCEL_REJECTED => True
  end.

Definition char_side (z : Z) : Side := if z =? char_B then BUY else SELL.

(** What a client reads from the members of a message, the type byte included. *)
Definition client_reads `{OuchWire} `{ByteSwap} (m : ouch_out) (resp : MEClientResponse) (ts : Z) : Prop :=
  match m with
  | OutAccepted m =>
      rs_status_ resp = ACCEPTED ∧ oa_type m = ORDER_ACCEPTED ∧ swap64 (oa_timestamp m) = ts ∧
      oa_order_token m = rs_order_token_ resp ∧
      char_side (oa_buy_sell_indicator m) = rs_side_ resp ∧
      swap32 (oa_shares m) = rs_qty_ resp ∧ swap64 (oa_stock m) = rs_ticker_id_ resp ∧
      swap32 (oa_price m) = rs_price_ resp ∧ tif_type (oa_time_in_force m) = rs_type_ resp ∧
      swap64 (oa_order_reference_number m) = rs_market_order_id_ resp
  | OutExecuted m =>
      rs_status_ resp = EXECUTED ∧ oe_type m = ORDER_EXECUTED ∧ swap64 (oe_timestamp m) = ts ∧
      oe_order_token m = rs_order_token_ resp ∧
      swap32 (oe_executed_shares m) = rs_executed_qty_ resp ∧
      swap32 (oe_execution_price m) = rs_execution_price_ resp ∧
      swap64 (oe_match_number m) = rs_match_id_ resp
  | OutCanceled m =>
      rs_status_ resp = CANCELED ∧ oc_type m = ORDER_CANCELED ∧ swap64 (oc_timestamp m) = ts ∧
      oc_order_token m = rs_order_token_ resp ∧
      swap32 (oc_decrement_shares m) = rs_leaves_qty_ resp ∧ oc_reason m = char_U
  | OutReplaced m =>
      rs_status_ resp = MODIFIED ∧ or_type m = REPLACE_ORDER ∧ swap64 (or_timestamp m) = ts ∧
      or_replacement_order_token m = rs_order_token_ resp ∧
      char_side (or_buy_sell_indicator m) = rs_side_ resp ∧
      swap32 (or_shares m) = rs_qty_ resp ∧ swap64 (or_stock m) = rs_ticker_id_ resp ∧
      swap32 (or_price m) = rs_price_ resp ∧ tif_type (or_time_in_force m) = rs_type_ resp ∧
      swap64 (or_order_reference_number m) = rs_market_order_id_ resp
  | OutCancelRejected m =>
      rs_status_ resp = CANCEL_REJECTED ∧ cr_type m = MsgType_CANCEL_REJECTED ∧ swap64 (cr_timestamp m) = ts ∧
      cr_order_token m = rs_order_token_ resp
  end.

Lemma char_side_char s : char_side (side_char s) = s.
Proof. by destruct s. Qed.

Lemma tif_roundtrip `{ByteSwap} `{!ByteSwapLaws} t : tif_type (tif_field t) = t.
Proof. unfold tif_type, tif_field. destruct t; by rewrite swap32_swap32 by lia. Qed.

Lemma encodeOuch_reads `{OuchWire} `{ByteSwap} `{!ByteSwapLaws} (resp : MEClientResponse) (ts : Z) :
  encodable resp ts → client_reads (encodeOuch resp ts) resp ts.
Proof.
  intros (Hts & _ & Hfields). unfold encodeOuch. destruct (rs_status_ resp) eqn:Hst; simpl;
    rewrite ?char_side_char, ?tif_roundtrip, ?u32_small, ?swap64_swap64, ?swap32_swap32 by lia;
    by split_and!.
Qed.

(** The members [encodeOuch] assigns fit the struct. *)
Lemma encodeOuch_ok `{OuchWire} `{ByteSwap} `{!ByteSwapLaws} (resp : MEClientResponse) (ts : Z) :
  token_ok (rs_order_token_ resp) → out_ok (encodeOuch resp ts).
Proof.
  intros Htok. unfold encodeOuch, tif_field. destruct (rs_status_ resp); simpl;
    split_and!; try apply swap32_range; try apply swap64_range; try done;
    destruct (rs_side_ resp); vm_compute; intuition congruence.
Qed.

(** From the bytes of an encoded response, whatever follows them on the
    connection, a client reads the response. *)
Lemma client_reads_bytes `{OuchWire} `{OuchReader} `{!OuchReaderLaws} `{ByteSwap} `{!ByteSwapLaws}
    (resp : MEClientResponse) (ts : Z) (rest : list Z) :
  encodable resp ts →
  ∃ m, read_out (out_bytes (encodeOuch resp ts) ++ rest) = Some (m, rest) ∧ client_reads m resp ts.
Proof.
  intros He. exists (encodeOuch resp ts). split; [|by apply encodeOuch_reads].
  apply read_out_bytes, encodeOuch_ok, He.
Qed.
