(* ===== verification/OrderServer.v ===== *)
(** * OrderServer: the order gateway

    [src/src/network/gateway/order_server.h].  One thread frames and decodes the
    bytes of every client socket, stages the requests in the sequencer, and
    routes the engine's responses back.  The sockets and the epoll loop are
    QuantLink's ([TCPServer]): it appends received bytes to a socket's
    [inbound_data_] and calls [onRecv], [onRecvFinished] and [onDisconnect],
    which are the events of [net_event].

    A [TCPSocket*] is a [sock]: its address and its descriptor.  The valid bytes
    of its [inbound_data_] are the entry of [inbound] at its address, and
    [sends] is the sequence of calls of [TCPSocket::send]. *)

From S2P Require Import Prelude Types Queue Fifo Wire TokenManager Ouch.

Record sock := Sock { sk_addr : positive; socket_fd_ : Z }.

#[global] Instance sock_eq_dec : EqDecision sock.
Proof. solve_decision. Defined.

Record server (Q R : Type) := Server {
  requestQ_ : Q;
  responseQ_ : R;
  fifo_ : FifoNdProcess;
  tokenManager_ : OrderTokenManager;
  fdToClientId_ : gmap Z ClientId;
  clientToSocket_ : gmap ClientId sock;
  nextClientId_ : ClientId;
  inbound : gmap positive (list Z);
  sends : list (sock * list Z);
  clock_reads : nat
}.
Arguments Server {_ _} _ _ _ _ _ _ _ _ _ _.
Arguments requestQ_ {_ _} _.
Arguments responseQ_ {_ _} _.
Arguments fifo_ {_ _} _.
Arguments tokenManager_ {_ _} _.
Arguments fdToClientId_ {_ _} _.
Arguments clientToSocket_ {_ _} _.
Arguments nextClientId_ {_ _} _.
Arguments inbound {_ _} _.
Arguments sends {_ _} _.
Arguments clock_reads {_ _} _.

Section gateway.
Context {Q R : Type} `{SPSCQueue MEClientRequest Q} `{SPSCQueue MEClientResponse R}.
Context `{StdSort} `{OuchWire} `{ByteSwap}.
(** [get_current_epoch_nanos()]: the [n]-th reading of the clock. *)
Context (epoch_nanos : nat → Z).

Abbreviation srv := (server Q R).
Abbreviation M := (M srv).

Definition server_new (requestQ : Q) (responseQ : R) (fifoPending tokenPoolSz : nat) : srv :=
  Server requestQ responseQ (fifo_new fifoPending) (manager_new tokenPoolSz) ∅ ∅ 1 ∅ [] 0.

(** Field assignments. *)
Definition set_staged (f : FifoNdProcess) (q : Q) (s : srv) : srv :=
  Server q (responseQ_ s) f (tokenManager_ s) (fdToClientId_ s) (clientToSocket_ s)
    (nextClientId_ s) (inbound s) (sends s) (clock_reads s).
Definition set_tokens (m : OrderTokenManager) (s : srv) : srv :=
  Server (requestQ_ s) (responseQ_ s) (fifo_ s) m (fdToClientId_ s) (clientToSocket_ s)
    (nextClientId_ s) (inbound s) (sends s) (clock_reads s).
Definition set_clients (fds : gmap Z ClientId) (socks : gmap ClientId sock) (next : ClientId)
    (s : srv) : srv :=
  Server (requestQ_ s) (responseQ_ s) (fifo_ s) (tokenManager_ s) fds socks next
    (inbound s) (sends s) (clock_reads s).
Definition set_inbound (i : gmap positive (list Z)) (s : srv) : srv :=
  Server (requestQ_ s) (responseQ_ s) (fifo_ s) (tokenManager_ s) (fdToClientId_ s)
    (clientToSocket_ s) (nextClientId_ s) i (sends s) (clock_reads s).
Definition set_responses (r : R) (s : srv) : srv :=
  Server (requestQ_ s) r (fifo_ s) (tokenManager_ s) (fdToClientId_ s)
    (clientToSocket_ s) (nextClientId_ s) (inbound s) (sends s) (clock_reads s).
Definition add_send (sk : sock) (bs : list Z) (s : srv) : srv :=
  Server (requestQ_ s) (responseQ_ s) (fifo_ s) (tokenManager_ s) (fdToClientId_ s)
    (clientToSocket_ s) (nextClientId_ s) (inbound s) (sends s ++ [(sk, bs)]) (clock_reads s).
Definition tick (s : srv) : srv :=
  Server (requestQ_ s) (responseQ_ s) (fifo_ s) (tokenManager_ s) (fdToClientId_ s)
    (clientToSocket_ s) (nextClientId_ s) (inbound s) (sends s) (S (clock_reads s)).

(** ** Inbound *)

Definition ouchMsgSize (t : Z) : nat :=
  if t =? ENTER_ORDER then sizeof_EnterOrder
  else if t =? CANCEL_ORDER then sizeof_CancelOrder
  else if t =? REPLACE_ORDER then sizeof_ReplaceOrder
  else 0.

Definition registerClient (socket : sock) : M unit :=
  modify (λ s,
    let cid := nextClientId_ s in
    set_clients (<[socket_fd_ socket := cid]> (fdToClientId_ s))
      (<[cid := socket]> (clientToSocket_ s)) (cid +₆₄ 1) s).

(** Calls on the members [tokenManager_] and [fifo_]. *)
Definition decode (data : list Z) (cid : ClientId) : M (option MEClientRequest) := λ s,
  match decodeOuch data cid (tokenManager_ s) with
  | Ok (r, m) => Ok (r, set_tokens m s)
  | Fault f => Fault f
  end.

Definition addPending (kernel_time : Z) (req : MEClientRequest) : M bool := λ s,
  let '(added, f) := addToPending kernel_time req (fifo_ s) in
  Ok (added, set_staged f (requestQ_ s) s).

Definition publish : M unit := modify (λ s,
  let '(f, q) := publishPendingOrders (fifo_ s) (requestQ_ s) in set_staged f q s).

Definition grow : M unit := modify (λ s, set_staged (growPending (fifo_ s)) (requestQ_ s) s).

(** Staging a decoded request: publish and retry when the buffer is full, then
    grow it. *)
Definition stage (kernel_time : Z) (req : MEClientRequest) : M unit :=
  added ← addPending kernel_time req;
  if (added : bool) then mret tt
  else
    publish;;
    added' ← addPending kernel_time req;
    if (added' : bool) then mret tt
    else
      grow;;
      added'' ← addPending kernel_time req;
      if (added'' : bool) then mret tt else raise AssertionFailed.

(** One round of the framing loop at [offset]. *)
Definition frame_step (data : list Z) (cid : ClientId) (kernel_time : Z) (offset : nat)
    : M (nat + nat) :=
  let bufLen := length data in
  if (bufLen <=? offset)%nat then mret (inr offset)
  else
    let msgLen := ouchMsgSize (default 0 (data !! offset)) in
    if (msgLen =? 0)%nat then mret (inl (S offset))
    else if (bufLen - offset <? msgLen)%nat then mret (inr offset)
    else
      r ← decode (drop offset data) cid;
      match r with
      | Some req => stage kernel_time req
      | None => mret tt
      end;;
      mret (inl (offset + msgLen)%nat).

Definition onRecv (socket : sock) (kernel_time : Z) : M unit :=
  fds ← gets fdToClientId_;
  when (bool_decide (fds !! socket_fd_ socket = None)) (registerClient socket);;
  cid ← gets (λ s, default 0 (fdToClientId_ s !! socket_fd_ socket));
  data ← gets (λ s, default [] (inbound s !! sk_addr socket));
  offset ← loop (S (length data)) (frame_step data cid kernel_time) 0%nat;
  (* what was not consumed moves to the front *)
  modify (λ s, set_inbound (<[sk_addr socket := drop offset data]> (inbound s)) s).

Definition onRecvFinished : M unit := publish.

Definition onDisconnect (socket : sock) : M unit :=
  fds ← gets fdToClientId_;
  match fds !! socket_fd_ socket with
  | None => mret tt
  | Some client_id =>
      modify (λ s, set_clients (delete (socket_fd_ socket) (fdToClientId_ s))
                     (delete client_id (clientToSocket_ s)) (nextClientId_ s) s)
  end.

(** ** Outbound *)

(** One round of the loop of [drainResponses]. *)
Definition drain_step (_ : unit) : M (unit + unit) :=
  next ← gets (λ s, getNextRead (responseQ_ s));
  match next with
  | None => mret (inr tt)
  | Some resp =>
      socks ← gets clientToSocket_;
      match socks !! rs_client_id_ resp with
      | None => modify (λ s, set_responses (updateNextRead (responseQ_ s)) s);; mret (inl tt)
      | Some socket =>
          now ← gets (λ s, epoch_nanos (clock_reads s));
          modify tick;;
          let buf := out_bytes (encodeOuch resp now) in
          when (0 <? length buf)%nat (modify (add_send socket buf));;
          modify (λ s, set_responses (updateNextRead (responseQ_ s)) s);;
          mret (inl tt)
      end
  end.

Definition drainResponses (fuel : nat) : M unit := loop fuel drain_step tt.

(** ** The run loop *)

(** What [TCPServer] does between two iterations, as far as the gateway sees
    it: bytes arrive on a socket, a round of reads ends, a socket goes away. *)
Inductive net_event :=
  | NRecv (socket : sock) (bytes : list Z) (kernel_time : Z)
  | NRecvFinished
  | NDisconnect (socket : sock).

Definition handle (ev : net_event) : M unit :=
  match ev with
  | NRecv socket bytes kernel_time =>
      modify (λ s, set_inbound
        (<[sk_addr socket := default [] (inbound s !! sk_addr socket) ++ bytes]> (inbound s)) s);;
      onRecv socket kernel_time
  | NRecvFinished => onRecvFinished
  | NDisconnect socket =>
      onDisconnect socket;;
      modify (λ s, set_inbound (delete (sk_addr socket) (inbound s)) s)
  end.

Fixpoint handle_all (evs : list net_event) : M unit :=
  match evs with
  | [] => mret tt
  | ev :: evs' => handle ev;; handle_all evs'
  end.

(** One iteration of [run]; [fuel] bounds the responses drained in it. *)
Definition run_once (fuel : nat) (evs : list net_event) : M unit :=
  drainResponses fuel;; publish;; handle_all evs.
End gateway.
