(* ===== verification/ServerFacts.v ===== *)
(** * ServerFacts: framing, staging and routing of the gateway

    [frames] is the reference for the framing loop of [onRecv]; [staged_more]
    says what staging requests does to the sequencer and the request queue;
    [routed] is the invariant of the client tables. *)

From S2P Require Import Prelude Types BookSpec DList Memory StoreRep BookSpecFacts BookTime MatchingEngine Queue Fifo Wire TokenManager Ouch OuchFacts OrderServer.

(** ** Framing *)

Section framing.
Context `{OuchWire} `{ByteSwap}.

(** The complete messages at the front of a buffer and what is left: bytes that
    start no message are skipped, an incomplete message stays. *)
Fixpoint frames (fuel : nat) (buf : list Z) : list (list Z) * list Z :=
  match fuel, buf with
  | S fuel', t :: rest =>
      let len := ouchMsgSize t in
      if (len =? 0)%nat then frames fuel' rest
      else if (length buf <? len)%nat then ([], buf)
      else
        let r := frames fuel' (drop len buf) in
        (take len buf :: r.1, r.2)
  | _, _ => ([], buf)
  end.

Definition frames_of (buf : list Z) : list (list Z) * list Z := frames (S (length buf)) buf.

Lemma frames_fuel fuel fuel' buf :
  (length buf < fuel)%nat → (length buf < fuel')%nat → frames fuel buf = frames fuel' buf.
Proof.
  revert fuel' buf. induction fuel as [|fuel IH]; intros [|fuel'] [|t rest] Hf Hf'; simpl in *;
    try lia; try done.
  destruct (Nat.eqb_spec (ouchMsgSize t) 0); [apply IH; lia|].
  destruct (Nat.ltb_spec (S (length rest)) (ouchMsgSize t)); [done|].
  pose proof (length_drop (t :: rest) (ouchMsgSize t)) as Hd. simpl in Hd.
  by rewrite (IH fuel') by lia.
Qed.

Lemma frames_S fuel t rest :
  frames (S fuel) (t :: rest) =
  let len := ouchMsgSize t in
  if (len =? 0)%nat then frames fuel rest
  else if (length (t :: rest) <? len)%nat then ([], t :: rest)
  else let r := frames fuel (drop len (t :: rest)) in (take len (t :: rest) :: r.1, r.2).
Proof. done. Qed.

Lemma frames_of_cons t rest :
  frames_of (t :: rest) =
  let len := ouchMsgSize t in
  if (len =? 0)%nat then frames_of rest
  else if (length (t :: rest) <? len)%nat then ([], t :: rest)
  else
    let r := frames_of (drop len (t :: rest)) in
    (take len (t :: rest) :: r.1, r.2).
Proof.
  unfold frames_of at 1. rewrite frames_S. cbv zeta.
  destruct (Nat.eqb_spec (ouchMsgSize t) 0); [done|].
  destruct (Nat.ltb_spec (length (t :: rest)) (ouchMsgSize t)); [done|].
  pose proof (length_drop (t :: rest) (ouchMsgSize t)) as Hd. simpl length in *.
  unfold frames_of.
  by rewrite (frames_fuel _ (S (length (drop (ouchMsgSize t) (t :: rest)))) (drop _ _)) by lia.
Qed.

(** Splitting the stream anywhere changes nothing. *)
Lemma frames_app a b :
  frames_of (a ++ b) =
  let r := frames_of a in
  let r' := frames_of (r.2 ++ b) in
  (r.1 ++ r'.1, r'.2).
Proof.
  remember (length a) as n eqn:Hn. revert a Hn.
  induction n as [n IH] using lt_wf_ind. intros [|t a] ->.
  { simpl. by destruct (frames_of b). }
  rewrite <- app_comm_cons, !frames_of_cons. cbv zeta.
  destruct (Nat.eqb_spec (ouchMsgSize t) 0) as [Hz|Hz]; [by apply (IH (length a)); simpl; lia|].
  destruct (Nat.ltb_spec (length (t :: a)) (ouchMsgSize t)) as [Hlt|Hge]; cbn [fst snd].
  { rewrite <- app_comm_cons, frames_of_cons. cbv zeta.
    destruct (Nat.eqb_spec (ouchMsgSize t) 0); [done|]. by destruct (_ <? _)%nat. }
  destruct (Nat.ltb_spec (length (t :: a ++ b)) (ouchMsgSize t)) as [Hlt'|_].
  { simpl in Hlt', Hge. rewrite length_app in Hlt'. lia. }
  rewrite (app_comm_cons a b t), (take_app_le (t :: a) b), (drop_app_le (t :: a) b) by done.
  rewrite (IH (length (drop (ouchMsgSize t) (t :: a)))); [done| |done].
  rewrite length_drop. simpl in *. lia.
Qed.

Context `{!OuchWireLaws}.

(** Every frame is a whole message and the rest is empty or the beginning of a
    message. *)
Lemma frames_shape fuel buf :
  (length buf < fuel)%nat →
  let '(fs, rest) := frames fuel buf in
  Forall (λ f, ∃ t, head f = Some t ∧ ouchMsgSize t ≠ 0%nat ∧ length f = ouchMsgSize t) fs ∧
  (rest = [] ∨ ∃ t, head rest = Some t ∧ (length rest < ouchMsgSize t)%nat).
Proof.
  revert buf. induction fuel as [|fuel IH]; intros [|t buf] Hf; simpl in *; try lia; [by auto|].
  destruct (Nat.eqb_spec (ouchMsgSize t) 0) as [Hz|Hz]; [apply IH; lia|].
  destruct (Nat.ltb_spec (S (length buf)) (ouchMsgSize t)) as [Hlt|Hge].
  { split; [constructor|right]. by exists t. }
  pose proof (length_drop (t :: buf) (ouchMsgSize t)) as Hd. simpl in Hd.
  specialize (IH (drop (ouchMsgSize t) (t :: buf)) ltac:(lia)).
  destruct (frames fuel _) as [fs rest]. destruct IH as [HF Hrest]. split; [|done].
  constructor; [|done]. exists t. split_and!; [|done|rewrite length_take; simpl; lia].
  by destruct (ouchMsgSize t).
Qed.

(** Decoding looks at the message only. *)
Lemma decode_spec_local size c h t bs bs' :
  head bs = Some t → ouchMsgSize t ≠ 0%nat → (ouchMsgSize t ≤ length bs)%nat →
  decode_spec size c (bs ++ bs') h = decode_spec size c bs h.
Proof.
  intros Ht Hz Hle. destruct bs as [|t' bs]; simplify_eq/=. unfold decode_spec.
  change (t :: bs ++ bs') with ((t :: bs) ++ bs'). simpl default.
  unfold ouchMsgSize in *. destruct (t =? ENTER_ORDER).
  { by rewrite read_EnterOrder_local. }
  destruct (t =? CANCEL_ORDER); [by rewrite read_CancelOrder_local|].
  destruct (t =? REPLACE_ORDER); [by rewrite read_ReplaceOrder_local|done].
Qed.
End framing.

(** ** Staging *)

Section staging.
Context {Q : Type} `{SPSCQueueLaws MEClientRequest Q}.

(** The requests [new] were staged: nothing was lost, and what left the buffer
    went to the queue. *)
Definition staged_more (f : FifoNdProcess) (q : Q) (new : list RecvClientRequest)
    (f' : FifoNdProcess) (q' : Q) : Prop :=
  fifo_wf f' ∧ ∃ batch,
    queued q' = queued q ++ (request_ <$> batch) ∧ batch ++ pending f' ≡ₚ pending f ++ new ∧
    capacity q' = capacity q.

(** A buffer with room for [new] takes them in their order and the queue is left
    alone. *)
Definition appended (f : FifoNdProcess) (q : Q) (new : list RecvClientRequest)
    (f' : FifoNdProcess) (q' : Q) : Prop :=
  (length (pending f) + length new ≤ length (pending_orders_ f))%nat →
  q' = q ∧ pending f' = pending f ++ new ∧
  length (pending_orders_ f') = length (pending_orders_ f) ∧
  (new ≠ [] → pending_sorted_ f' = false) ∧ (new = [] → pending_sorted_ f' = pending_sorted_ f).

Definition staged f q new f' q' : Prop := staged_more f q new f' q' ∧ appended f q new f' q'.

Lemma appended_refl f q : appended f q [] f q.
Proof. intros _. by rewrite app_nil_r. Qed.

Lemma appended_trans f q n1 f1 q1 n2 f2 q2 :
  appended f q n1 f1 q1 → appended f1 q1 n2 f2 q2 → appended f q (n1 ++ n2) f2 q2.
Proof.
  intros H1 H2 Hroom. rewrite length_app in Hroom.
  destruct H1 as (-> & Hp1 & Hl1 & Hn1 & He1); [lia|].
  destruct H2 as (-> & Hp2 & Hl2 & Hn2 & He2); [rewrite Hp1, Hl1, length_app; lia|].
  split_and!; [done|by rewrite Hp2, Hp1, app_assoc|congruence|..].
  - intros Hne. destruct n2 as [|r n2]; [|by apply Hn2]. rewrite app_nil_r in Hne. rewrite He2 by done. auto.
  - intros [-> ->]%app_nil. by rewrite He2, He1.
Qed.

(** One that is full has no room. *)
Lemma appended_full f q r new f' q' :
  fifo_wf f → (length (pending_orders_ f) ≤ pending_size_ f)%nat → appended f q (r :: new) f' q'.
Proof. intros Hw Hge Hroom. rewrite (pending_length _ Hw) in Hroom. simpl in Hroom. lia. Qed.

Lemma staged_refl f q : fifo_wf f → staged_more f q [] f q.
Proof. intros Hw. split; [done|]. exists []. by rewrite !app_nil_r. Qed.

Lemma staged_trans f q n1 f1 q1 n2 f2 q2 :
  staged_more f q n1 f1 q1 → staged_more f1 q1 n2 f2 q2 → staged_more f q (n1 ++ n2) f2 q2.
Proof.
  intros [_ (b1 & Hq1 & Hp1 & Hc1)] [Hw2 (b2 & Hq2 & Hp2 & Hc2)]. split; [done|].
  exists (b1 ++ b2). split; [by rewrite Hq2, Hq1, fmap_app, app_assoc|]. split; [|congruence].
  by rewrite <- app_assoc, Hp2, app_assoc, Hp1, app_assoc.
Qed.

Lemma staged_add t rq f q :
  fifo_wf f → (pending_size_ f < length (pending_orders_ f))%nat →
  ∃ f', addToPending t rq f = (true, f') ∧ staged f q [Recv t rq] f' q.
Proof.
  intros Hw Hlt. destruct (addToPending_ok t rq f Hw Hlt) as (f' & Hadd & Hw' & Hp & Hl).
  exists f'. split; [done|]. split; [split; [done|]; exists []; by rewrite app_nil_r, Hp|].
  intros _. split_and!; try done. intros _. unfold addToPending in Hadd.
  destruct (_ <=? _)%nat in Hadd; [done|]. by injection Hadd as <-.
Qed.

Lemma staged_publish `{StdSort} `{!StdSortLaws} f q :
  fifo_wf f →
  let '(f', q') := publishPendingOrders f q in staged_more f q [] f' q'.
Proof.
  intros Hw. pose proof (publish_ok f q Hw) as Hp. destruct (publishPendingOrders f q) as [f' q'].
  destruct Hp as (batch & ? & _ & Hperm & ? & ? & _). split; [done|]. exists batch.
  by rewrite app_nil_r.
Qed.

Lemma staged_grow f q : fifo_wf f → staged_more f q [] (growPending f) q.
Proof.
  intros Hw. destruct (growPending_ok f Hw) as (? & Hp & _). split; [done|].
  exists []. by rewrite Hp, !app_nil_r.
Qed.
End staging.

#[export] Hint Resolve staged_refl staged_grow : exchange.

(** ** Receiving *)

Section receiving.
Context {Q R : Type} `{SPSCQueueLaws MEClientRequest Q} `{SPSCQueue MEClientResponse R}.
Context `{StdSort} `{!StdSortLaws} `{OuchWire} `{!OuchWireLaws} `{ByteSwap}.

Abbreviation srv := (server Q R).

Lemma set_staged_id (s : srv) : set_staged (fifo_ s) (requestQ_ s) s = s.
Proof. by destruct s. Qed.

(** [addPending] on a server whose sequencer was changed before. *)
Lemma addPending_run t rq f q (s : srv) b f' :
  addToPending t rq f = (b, f') →
  addPending t rq (set_staged f q s) = Ok (b, set_staged f' q s).
Proof. intros Hadd. unfold addPending. simpl. by rewrite Hadd. Qed.

(** A decoded request is always staged: the assertion never fails. *)
Lemma stage_ok t rq (s : srv) :
  fifo_wf (fifo_ s) →
  ∃ f q, stage t rq s = Ok (tt, set_staged f q s) ∧
         staged (fifo_ s) (requestQ_ s) [Recv t rq] f q.
Proof.
  intros Hw.
  replace (stage t rq s) with (stage t rq (set_staged (fifo_ s) (requestQ_ s) s))
    by (by rewrite set_staged_id).
  unfold stage.
  destruct (decide (pending_size_ (fifo_ s) < length (pending_orders_ (fifo_ s)))%nat) as [Hlt|Hge].
  { destruct (staged_add t rq (fifo_ s) (requestQ_ s) Hw Hlt) as (f & Hadd & Hst).
    mstep (addPending_run _ _ _ _ _ _ _ Hadd). by exists f, (requestQ_ s). }
  mstep (addPending_run _ _ _ _ _ _ _
    (addToPending_full t rq (fifo_ s) ltac:(lia))).
  pose proof (staged_publish (fifo_ s) (requestQ_ s) Hw) as Hpub.
  destruct (publishPendingOrders (fifo_ s) (requestQ_ s)) as [f1 q1] eqn:Hp.
  rewrite (bind_ok _ _ _ tt (set_staged f1 q1 s)) by (unfold publish, modify; simpl; by rewrite Hp).
  destruct (decide (pending_size_ f1 < length (pending_orders_ f1))%nat) as [Hlt1|Hge1].
  { destruct (staged_add t rq f1 q1 (proj1 Hpub) Hlt1) as (f & Hadd & Hst & _).
    mstep (addPending_run _ _ _ _ _ _ _ Hadd). exists f, q1. split; [done|].
    split; [exact (staged_trans _ _ [] _ _ _ _ _ Hpub Hst)|apply appended_full; [done|lia]]. }
  mstep (addPending_run _ _ _ _ _ _ _
    (addToPending_full t rq f1 ltac:(lia))).
  mgo tt (set_staged (growPending f1) q1 s).
  destruct (growPending_ok f1 (proj1 Hpub)) as (Hw2 & _ & Hroom).
  destruct (staged_add t rq (growPending f1) q1 Hw2 Hroom) as (f & Hadd & Hst & _).
  mstep (addPending_run _ _ _ _ _ _ _ Hadd). exists f, q1. split; [done|].
  split; [|apply appended_full; [done|lia]].
  exact (staged_trans _ _ [] _ _ _ _ _ Hpub
    (staged_trans _ _ [] _ _ _ _ _ (staged_grow f1 q1 (proj1 Hpub)) Hst)).
Qed.

(** A server whose decoding side was changed. *)
Definition advance (m : OrderTokenManager) (f : FifoNdProcess) (q : Q) (s : srv) : srv :=
  set_staged f q (set_tokens m s).

Lemma advance_id (s : srv) : advance (tokenManager_ s) (fifo_ s) (requestQ_ s) s = s.
Proof. by destruct s. Qed.

(** One message at [offset] is decoded and staged. *)
Lemma frame_step_message size h data cid t offset m f q (s : srv) :
  let rest := drop offset data in
  let len := ouchMsgSize (default 0 (data !! offset)) in
  token_rep size h m → Z.of_nat size + 1 < 2 ^ 64 → fifo_wf f →
  (offset < length data)%nat → len ≠ 0%nat → (len ≤ length rest)%nat →
  let r := decode_spec size cid (take len rest) h in
  ∃ m' f' q', frame_step data cid t offset (advance m f q s) =
      Ok (inl (offset + len)%nat, advance m' f' q' s) ∧
    token_rep size r.2 m' ∧ staged f q (Recv t <$> option_list r.1) f' q'.
Proof.
  intros rest len Hr Hs Hw Hoff Hz Hle r. unfold frame_step.
  destruct (Nat.leb_spec (length data) offset); [lia|]. fold len.
  destruct (Nat.eqb_spec len 0); [done|].
  unfold rest in Hle. rewrite length_drop in Hle.
  destruct (Nat.ltb_spec (length data - offset) len); [lia|].
  destruct (lookup_lt_is_Some_2 data offset Hoff) as [ty Hty].
  assert (Hlocal : decode_spec size cid rest h = r).
  { unfold r. rewrite <- (take_drop len rest) at 1. unfold len in *. rewrite Hty in *. simpl in *.
    apply (decode_spec_local size cid h ty).
    - unfold rest. rewrite (drop_S _ _ _ Hty). by destruct (ouchMsgSize ty).
    - done.
    - unfold rest. rewrite length_take, length_drop. lia. }
  destruct (decode_ok size h m cid rest Hr Hs) as (m' & Hd & Hr'). rewrite Hlocal in Hd, Hr'.
  fold rest. rewrite (bind_ok _ _ _ r.1 (advance m' f q s)) by (unfold decode; simpl; by rewrite Hd).
  destruct r.1 as [rq|] eqn:Hrq; simpl.
  - destruct (stage_ok t rq (advance m' f q s)) as (f' & q' & Hst & Hmore); [done|].
    mstep Hst. by exists m', f', q'.
  - mgo tt (advance m' f q s). exists m', f, q.
    split_and!; [done..|]. split; [by apply staged_refl|apply appended_refl].
Qed.

(** The framing loop decodes exactly the frames of the buffer. *)
Lemma frame_loop fuel size h data cid t offset m f q (s : srv) :
  token_rep size h m → Z.of_nat size + 1 < 2 ^ 64 → fifo_wf f →
  (length data - offset < fuel)%nat →
  let fs := frames fuel (drop offset data) in
  let r := decode_all_spec size (pair cid <$> fs.1) h in
  ∃ offset' m' f' q',
    loop fuel (frame_step data cid t) offset (advance m f q s) =
      Ok (offset', advance m' f' q' s) ∧
    drop offset' data = fs.2 ∧ token_rep size r.2 m' ∧ staged f q (Recv t <$> r.1) f' q'.
Proof.
  revert offset h m f q. induction fuel as [|fuel IH]; intros offset h m f q Hr Hs Hw Hfuel; [lia|].
  destruct (decide (offset < length data)%nat) as [Hoff|Hoff].
  2:{ rewrite drop_ge by lia. simpl. exists offset, m, f, q. split_and!; [|by apply drop_ge; lia|done|].
      - apply loop_exit. unfold frame_step.
        by destruct (Nat.leb_spec (length data) offset); [|lia].
      - split; [by apply staged_refl|apply appended_refl]. }
  destruct (lookup_lt_is_Some_2 data offset Hoff) as [ty Hty].
  rewrite (drop_S data ty offset Hty), frames_S. cbv zeta. rewrite <- (drop_S data ty offset Hty).
  assert (Hlen : default 0 (data !! offset) = ty) by (by rewrite Hty).
  destruct (Nat.eqb_spec (ouchMsgSize ty) 0) as [Hz|Hz].
  { rewrite (loop_continue _ _ _ (S offset) _ (advance m f q s)).
    - apply IH; [done..|lia].
    - unfold frame_step. destruct (Nat.leb_spec (length data) offset); [lia|].
      by rewrite Hlen, Hz. }
  rewrite length_drop.
  destruct (Nat.ltb_spec (length data - offset) (ouchMsgSize ty)) as [Hlt|Hge]; cbn [fst snd fmap list_fmap decode_all_spec].
  { exists offset, m, f, q. split_and!; [|done..|split; [by apply staged_refl|apply appended_refl]].
    apply loop_exit. unfold frame_step. destruct (Nat.leb_spec (length data) offset); [lia|].
    rewrite Hlen. destruct (Nat.eqb_spec (ouchMsgSize ty) 0); [done|].
    by destruct (Nat.ltb_spec (length data - offset) (ouchMsgSize ty)); [|lia]. }
  destruct (frame_step_message size h data cid t offset m f q s) as (m1 & f1 & q1 & Hstep & Hr1 & Hst1);
    rewrite ?Hlen; try done; [by rewrite length_drop|].
  rewrite Hlen in *. rewrite (loop_continue _ _ _ _ _ _ Hstep).
  destruct (IH (offset + ouchMsgSize ty)%nat _ m1 f1 q1 Hr1 Hs (proj1 (proj1 Hst1)) ltac:(lia))
    as (offset' & m' & f' & q' & Hloop & Hrest & Hr' & Hst').
  rewrite drop_drop. exists offset', m', f', q'. split_and!; [done..|].
  rewrite fmap_app. destruct Hst1, Hst'. split; [by eapply staged_trans|by eapply appended_trans].
Qed.

(** *** [onRecv] *)

(** The server once the socket's descriptor has a client id. *)
Definition identified (socket : sock) (s : srv) : srv :=
  match fdToClientId_ s !! socket_fd_ socket with
  | Some _ => s
  | None =>
      set_clients (<[socket_fd_ socket := nextClientId_ s]> (fdToClientId_ s))
        (<[nextClientId_ s := socket]> (clientToSocket_ s)) (nextClientId_ s +₆₄ 1) s
  end.

Definition client_of (socket : sock) (s : srv) : ClientId :=
  default (nextClientId_ s) (fdToClientId_ s !! socket_fd_ socket).

(** What the bytes of a socket amount to: its requests and the history after
    them. *)
Definition received (size : nat) (socket : sock) (buf : list Z) (s : srv) (h : list info)
    : list MEClientRequest * list info :=
  decode_all_spec size (pair (client_of socket s) <$> (frames_of buf).1) h.

Lemma onRecv_ok size h socket t (s : srv) :
  token_rep size h (tokenManager_ s) → Z.of_nat size + 1 < 2 ^ 64 → fifo_wf (fifo_ s) →
  let buf := default [] (inbound s !! sk_addr socket) in
  let r := received size socket buf s h in
  ∃ m f q,
    onRecv socket t s =
      Ok (tt, set_inbound (<[sk_addr socket := (frames_of buf).2]> (inbound s))
                (advance m f q (identified socket s))) ∧
    token_rep size r.2 m ∧ staged (fifo_ s) (requestQ_ s) (Recv t <$> r.1) f q.
Proof.
  intros Hr Hs Hw buf r. unfold onRecv. mgo (fdToClientId_ s) s.
  rewrite (bind_ok _ _ _ tt (identified socket s)).
  2:{ unfold identified. by destruct (fdToClientId_ s !! socket_fd_ socket). }
  set (s1 := identified socket s).
  assert (Hcid : default 0 (fdToClientId_ s1 !! socket_fd_ socket) = client_of socket s).
  { unfold s1, identified, client_of. destruct (fdToClientId_ s !! socket_fd_ socket) eqn:Hfd;
      simpl; [by rewrite Hfd|by rewrite lookup_insert_eq]. }
  assert (Hs1 : tokenManager_ s1 = tokenManager_ s ∧ fifo_ s1 = fifo_ s ∧
                requestQ_ s1 = requestQ_ s ∧ inbound s1 = inbound s).
  { unfold s1, identified. by destruct (fdToClientId_ s !! _). }
  destruct Hs1 as (Ht1 & Hf1 & Hq1 & Hi1).
  rewrite (bind_ok _ _ _ (client_of socket s) s1) by (unfold gets; by rewrite Hcid).
  rewrite (bind_ok _ _ _ buf s1) by (unfold gets; by rewrite Hi1).
  destruct (frame_loop (S (length buf)) size h buf (client_of socket s) t 0%nat (tokenManager_ s)
    (fifo_ s) (requestQ_ s) s1 Hr Hs Hw ltac:(lia)) as (offset & m & f & q & Hloop & Hrest & Hr' & Hst).
  rewrite drop_0 in *. rewrite <- Ht1, <- Hf1, <- Hq1, advance_id in Hloop.
  mstep Hloop. exists m, f, q. split_and!; [|done|done].
  unfold modify. rewrite Hrest. unfold set_inbound. simpl. by rewrite Hi1.
Qed.
End receiving.

(** ** Routing *)

Section routing.
Context {Q R : Type} `{SPSCQueue MEClientRequest Q} `{SPSCQueueLaws MEClientResponse R}.
Context `{StdSort} `{OuchWire} `{!OuchWireLaws} `{ByteSwap}.
Context (epoch_nanos : nat → Z).

Abbreviation srv := (server Q R).

(** What a drain sends: each response to the socket of its client, responses
    without one dropped, the clock read once per message sent. *)
Fixpoint route (socks : gmap ClientId sock) (n : nat) (rs : list MEClientResponse)
    : list (sock * list Z) :=
  match rs with
  | [] => []
  | r :: rs' =>
      match socks !! rs_client_id_ r with
      | None => route socks n rs'
      | Some socket =>
          (socket, out_bytes (encodeOuch r (epoch_nanos n))) :: route socks (S n) rs'
      end
  end.

(** A server after responses were taken off the queue and sent. *)
Definition sent_out (q : R) (out : list (sock * list Z)) (s : srv) : srv :=
  Server (requestQ_ s) q (fifo_ s) (tokenManager_ s) (fdToClientId_ s) (clientToSocket_ s)
    (nextClientId_ s) (inbound s) (sends s ++ out) (clock_reads s + length out).

Lemma sent_out_app q q' out out' (s : srv) :
  sent_out q' out' (sent_out q out s) = sent_out q' (out ++ out') s.
Proof. unfold sent_out. simpl. by rewrite length_app, app_assoc, Nat.add_assoc. Qed.

(** One round of [drainResponses]. *)
Lemma drain_step_none (s : srv) :
  queued (responseQ_ s) = [] → drain_step epoch_nanos tt s = Ok (inr tt, s).
Proof.
  intros Hq. unfold drain_step. rewrite (bind_ok _ _ _ None s); [done|].
  unfold gets. by rewrite next_read_nil.
Qed.

Lemma drain_step_one r rs (s : srv) :
  queued (responseQ_ s) = r :: rs →
  drain_step epoch_nanos tt s =
  Ok (inl tt, sent_out (updateNextRead (responseQ_ s))
                (route (clientToSocket_ s) (clock_reads s) [r]) s).
Proof.
  intros Hq. unfold drain_step.
  rewrite (bind_ok _ _ _ (Some r) s) by (unfold gets; by rewrite (next_read_cons _ _ _ Hq)).
  mgo (clientToSocket_ s) s. cbn [route].
  destruct (clientToSocket_ s !! rs_client_id_ r) as [sk|].
  - set (buf := out_bytes (encodeOuch r (epoch_nanos (clock_reads s)))).
    mgo (epoch_nanos (clock_reads s)) s. mgo tt (tick s). fold buf.
    pose proof (out_bytes_nonempty (encodeOuch r (epoch_nanos (clock_reads s)))) as Hne.
    fold buf in Hne. rewrite (bind_ok _ _ _ tt (add_send sk buf (tick s))) by (by destruct buf).
    unfold sent_out. simpl. by rewrite Nat.add_1_r.
  - unfold sent_out. simpl. unfold modify, set_responses, mbind, M_bind, mret, M_ret.
    by rewrite app_nil_r, Nat.add_0_r.
Qed.

Lemma drain_ok fuel (s : srv) :
  (length (queued (responseQ_ s)) < fuel)%nat →
  ∃ q', drainResponses epoch_nanos fuel s =
          Ok (tt, sent_out q' (route (clientToSocket_ s) (clock_reads s) (queued (responseQ_ s))) s) ∧
        queued q' = [].
Proof.
  unfold drainResponses. revert s. induction fuel as [|fuel IH]; intros s Hlt; [lia|].
  destruct (queued (responseQ_ s)) as [|r rs] eqn:Hq; simpl in Hlt.
  { exists (responseQ_ s). split; [|done]. rewrite (loop_exit _ _ _ _ _ _ (drain_step_none s Hq)).
    destruct s. unfold sent_out. simpl. by rewrite app_nil_r, Nat.add_0_r. }
  rewrite (loop_continue _ _ _ _ _ _ (drain_step_one r rs s Hq)).
  destruct (IH (sent_out (updateNextRead (responseQ_ s))
    (route (clientToSocket_ s) (clock_reads s) [r]) s)) as (q' & Hloop & Hq');
    [simpl; rewrite pop_queued, Hq; simpl; lia|].
  exists q'. split; [|done]. rewrite Hloop, sent_out_app. simpl. rewrite pop_queued, Hq. simpl.
  destruct (clientToSocket_ s !! rs_client_id_ r); simpl; by rewrite ?Nat.add_1_r, ?Nat.add_0_r.
Qed.

(** A message on a socket is the encoded response of a client of that socket. *)
Lemma route_to socks n rs sk bs :
  (sk, bs) ∈ route socks n rs →
  ∃ r ts, r ∈ rs ∧ socks !! rs_client_id_ r = Some sk ∧ bs = out_bytes (encodeOuch r ts).
Proof.
  revert n. induction rs as [|r rs IH]; intros n; simpl; [by intros ?%elem_of_nil|].
  destruct (socks !! rs_client_id_ r) as [sk0|] eqn:Hsk; [rewrite elem_of_cons|].
  - intros [[= -> ->]|Hin].
    + exists r, (epoch_nanos n). split; [by left|done].
    + destruct (IH _ Hin) as (r' & ts & ? & ?). exists r', ts. split; [by right|done].
  - intros Hin. destruct (IH _ Hin) as (r' & ts & ? & ?). exists r', ts. split; [by right|done].
Qed.

End routing.
