(* ===== verification/Gateway.v ===== *)
(** * Gateway: runs of the order gateway

    The gateway thread against its environment: [gw_op] interleaves what the
    network, the engine and the gateway's own loop do.  The abstract gateway
    [agw] keeps the client tables, the unframed bytes of every socket, the
    history of registrations and the list of all requests decoded so far; it
    has no sequencer and no token manager.  [gateway_run_ok] is the
    refinement. *)

From S2P Require Import Prelude Types BookSpec DList Memory StoreRep BookSpecFacts BookTime MatchingEngine Queue Fifo Wire TokenManager Ouch OuchFacts OrderServer ServerFacts.

Inductive gw_op :=
  | GNet (ev : net_event)          (** a callback of [TCPServer] *)
  | GPublish                       (** the retry of [run] *)
  | GDrain                         (** [drainResponses] of [run] *)
  | GRespond (r : MEClientResponse) (** the engine pushes a response *)
  | GPop.                          (** the engine takes a request *)

(** The gateway and the requests the engine has taken. *)
Record gateway (Q R : Type) := Gw {
  gw_server : server Q R;
  gw_popped : list MEClientRequest
}.
Arguments Gw {_ _} _ _.
Arguments gw_server {_ _} _.
Arguments gw_popped {_ _} _.

(** ** The abstract gateway *)

Record agw := AGw {
  ag_fds : gmap Z ClientId;
  ag_socks : gmap ClientId sock;
  ag_next : ClientId;
  ag_inbound : gmap positive (list Z);
  ag_hist : list info;
  ag_requests : list MEClientRequest
}.

Definition agw_new : agw := AGw ∅ ∅ 1 ∅ [] [].

Section abstract.
Context `{OuchWire} `{ByteSwap} (size : nat).

(** Bytes on a socket: a new descriptor gets the next client id; the complete
    messages are decoded for the descriptor's client, the rest is kept. *)
Definition a_recv (socket : sock) (bytes : list Z) (a : agw) : agw :=
  let known := ag_fds a !! socket_fd_ socket in
  let c := default (ag_next a) known in
  let buf := default [] (ag_inbound a !! sk_addr socket) ++ bytes in
  let fs := frames_of buf in
  let r := decode_all_spec size (pair c <$> fs.1) (ag_hist a) in
  let inbound' := <[sk_addr socket := fs.2]> (ag_inbound a) in
  match known with
  | Some _ => AGw (ag_fds a) (ag_socks a) (ag_next a) inbound' r.2 (ag_requests a ++ r.1)
  | None =>
      AGw (<[socket_fd_ socket := ag_next a]> (ag_fds a)) (<[ag_next a := socket]> (ag_socks a))
        (ag_next a + 1) inbound' r.2 (ag_requests a ++ r.1)
  end.

Definition a_disconnect (socket : sock) (a : agw) : agw :=
  let inbound' := delete (sk_addr socket) (ag_inbound a) in
  match ag_fds a !! socket_fd_ socket with
  | None => AGw (ag_fds a) (ag_socks a) (ag_next a) inbound' (ag_hist a) (ag_requests a)
  | Some c =>
      AGw (delete (socket_fd_ socket) (ag_fds a)) (delete c (ag_socks a)) (ag_next a) inbound'
        (ag_hist a) (ag_requests a)
  end.

Definition a_step (a : agw) (op : gw_op) : agw :=
  match op with
  | GNet (NRecv socket bytes _) => a_recv socket bytes a
  | GNet (NDisconnect socket) => a_disconnect socket a
  | _ => a
  end.

(** *** Its invariant *)

(** Descriptors and clients belong together, ids are fresh, requests are the
    registrations of the history. *)
Record agw_ok (a : agw) : Prop := {
  ao_next : 0 < ag_next a;
  ao_socks c sk : ag_socks a !! c = Some sk → 0 < c < ag_next a;
  ao_fds fd c :
    ag_fds a !! fd = Some c → ∃ sk, ag_socks a !! c = Some sk ∧ socket_fd_ sk = fd;
  ao_regs : run_regs (ag_requests a) (ag_hist a);
  ao_fields : Forall fields_ok (ag_requests a)
}.

Lemma agw_new_ok : agw_ok agw_new.
Proof. split; simpl; done. Qed.

Context `{!OuchWireLaws} `{!ByteSwapLaws}.

Lemma decoded_ok msgs a :
  agw_ok a →
  let r := decode_all_spec size msgs (ag_hist a) in
  run_regs (ag_requests a ++ r.1) r.2 ∧ Forall fields_ok (ag_requests a ++ r.1).
Proof.
  intros Ha r. destruct (decode_all_regs size msgs _ _ (ao_regs _ Ha)) as [Hregs Hall].
  split; [done|]. apply Forall_app. split; [apply Ha|]. apply Forall_lookup. intros j rq Hj.
  by apply (Hall j rq).
Qed.

Lemma a_recv_ok socket bytes a : agw_ok a → agw_ok (a_recv socket bytes a).
Proof.
  intros Ha. unfold a_recv. set (c := default (ag_next a) _). set (fs := frames_of _).
  destruct (decoded_ok (pair c <$> fs.1) a Ha) as [Hregs Hfields]. destruct Ha as [Hn Hs Hf _ _].
  destruct (ag_fds a !! socket_fd_ socket) as [c0|] eqn:Hfd; [by split|].
  split; simpl; [lia| | |done|done].
  - intros c' sk. destruct (decide (c' = ag_next a)) as [->|Hne]; [lia|].
    rewrite lookup_insert_ne by done. intros ?%Hs. lia.
  - intros fd c'. destruct (decide (fd = socket_fd_ socket)) as [->|Hne].
    + rewrite lookup_insert_eq. intros [= <-]. exists socket. by rewrite lookup_insert_eq.
    + rewrite lookup_insert_ne by done. intros Hfd'. destruct (Hf _ _ Hfd') as (sk & Hsk & ?).
      exists sk. rewrite lookup_insert_ne; [done|]. intros <-. apply Hs in Hsk. lia.
Qed.

Lemma a_disconnect_ok socket a : agw_ok a → agw_ok (a_disconnect socket a).
Proof.
  intros [Hn Hs Hf Hr Hfl]. unfold a_disconnect.
  destruct (ag_fds a !! socket_fd_ socket) as [c|] eqn:Hfd; split; simpl; try done.
  - intros c' sk. rewrite lookup_delete_Some. intros [_ ?]. by eapply Hs.
  - intros fd c'. rewrite lookup_delete_Some. intros [Hne Hfd'].
    destruct (Hf _ _ Hfd') as (sk & Hsk & Hskfd). exists sk. split; [|done].
    apply lookup_delete_Some. split; [|done]. intros <-.
    destruct (Hf _ _ Hfd) as (sk' & Hsk' & Hskfd'). congruence.
Qed.
#[local] Hint Resolve a_recv_ok a_disconnect_ok : exchange.


Lemma a_step_ok a op : agw_ok a → agw_ok (a_step a op).
Proof.
  intros Ha. destruct op as [[]| | | |]; simpl; auto with exchange.
Qed.

Lemma a_run_ok a ops : agw_ok a → agw_ok (foldl a_step a ops).
Proof. revert a. induction ops; simpl; auto using a_step_ok. Qed.

(** A client id belongs to one socket for ever: it is never given out again, and
    it loses its socket at most. *)
Definition clients_kept (a a' : agw) : Prop :=
  ag_next a ≤ ag_next a' ∧
  ∀ c sk, c < ag_next a → ag_socks a' !! c = Some sk → ag_socks a !! c = Some sk.

Lemma a_step_kept a op : clients_kept a (a_step a op).
Proof.
  unfold clients_kept. destruct op as [[sk bytes t| |sk]| | | |]; simpl; try by (split; [lia|]).
  - unfold a_recv. destruct (ag_fds a !! socket_fd_ sk); simpl; (split; [lia|]); [done|].
    intros c sk'. intros Hc. by rewrite lookup_insert_ne by lia.
  - unfold a_disconnect. destruct (ag_fds a !! socket_fd_ sk); simpl; (split; [lia|]); [|done].
    intros c sk' _. rewrite lookup_delete_Some. by intros [_ ?].
Qed.

Lemma a_run_kept a ops : clients_kept a (foldl a_step a ops).
Proof.
  revert a. induction ops as [|op ops IH]; intros a; simpl; [by split; [lia|]|].
  destruct (a_step_kept a op) as [Hn Hk], (IH (a_step a op)) as [Hn' Hk']. split; [lia|].
  intros c sk Hc Hsk. apply Hk; [done|]. apply Hk'; [lia|done].
Qed.

Lemma a_step_next a op : ag_next (a_step a op) ≤ ag_next a + 1.
Proof.
  destruct op as [[sk bytes t| |sk]| | | |]; simpl; try lia.
  - unfold a_recv. destruct (ag_fds a !! socket_fd_ sk); simpl; lia.
  - unfold a_disconnect. destruct (ag_fds a !! socket_fd_ sk); simpl; lia.
Qed.
End abstract.

#[export] Hint Resolve agw_new_ok a_run_ok : exchange.

(** ** The gateway refines it *)

Section refinement.
Context {Q R : Type} `{SPSCQueueLaws MEClientRequest Q} `{SPSCQueueLaws MEClientResponse R}.
Context `{StdSort} `{!StdSortLaws} `{OuchWire} `{!OuchWireLaws} `{ByteSwap}.
Context (epoch_nanos : nat → Z) (size : nat).

Abbreviation gw := (gateway Q R).

Definition lift (m : M (server Q R) unit) (g : gw) : outcome gw :=
  match m (gw_server g) with
  | Ok (_, s) => Ok (Gw s (gw_popped g))
  | Fault f => Fault f
  end.

(** A response the engine cannot push yet stays with the engine, which blocks. *)
Definition gw_exec (op : gw_op) (g : gw) : outcome gw :=
  let s := gw_server g in
  match op with
  | GNet ev => lift (handle ev) g
  | GPublish => lift publish g
  | GDrain => lift (drainResponses epoch_nanos (S (length (queued (responseQ_ s))))) g
  | GRespond r => Ok (Gw (set_responses (push r (responseQ_ s)).2 s) (gw_popped g))
  | GPop =>
      match getNextRead (requestQ_ s) with
      | None => Ok g
      | Some rq =>
          Ok (Gw (set_staged (fifo_ s) (updateNextRead (requestQ_ s)) s) (gw_popped g ++ [rq]))
      end
  end.

Fixpoint gw_run (ops : list gw_op) (g : gw) : outcome gw :=
  match ops with
  | [] => Ok g
  | op :: ops' =>
      match gw_exec op g with
      | Ok g' => gw_run ops' g'
      | Fault f => Fault f
      end
  end.

(** Every decoded request is with the engine, in the queue or staged, once. *)
Record gw_rep (a : agw) (g : gw) : Prop := {
  gr_tokens : token_rep size (ag_hist a) (tokenManager_ (gw_server g));
  gr_fifo : fifo_wf (fifo_ (gw_server g));
  gr_requests :
    gw_popped g ++ queued (requestQ_ (gw_server g)) ++ (request_ <$> pending (fifo_ (gw_server g)))
      ≡ₚ ag_requests a;
  gr_fds : fdToClientId_ (gw_server g) = ag_fds a;
  gr_socks : clientToSocket_ (gw_server g) = ag_socks a;
  gr_next : nextClientId_ (gw_server g) = ag_next a;
  gr_inbound : inbound (gw_server g) = ag_inbound a
}.

Lemma gw_rep_new q r pending_max :
  queued q = [] → gw_rep agw_new (Gw (server_new q r pending_max size) []).
Proof.
  intros Hq. split; simpl; auto with exchange. by rewrite Hq.
Qed.

(** Staging adds to what is with the engine, queued or staged. *)
Lemma staged_requests popped f q new f' q' :
  staged_more f q new f' q' →
  popped ++ queued q' ++ (request_ <$> pending f') ≡ₚ
  (popped ++ queued q ++ (request_ <$> pending f)) ++ (request_ <$> new).
Proof.
  intros [_ (batch & Hq & Hp & _)]. rewrite Hq, <- !app_assoc, <- fmap_app, Hp, fmap_app. done.
Qed.

Lemma exec_publish a g :
  gw_rep a g → ∃ g', lift publish g = Ok g' ∧ gw_rep a g'.
Proof.
  intros [Ht Hf Hr Hfd Hs Hn Hi]. unfold lift, publish, modify.
  pose proof (staged_publish (fifo_ (gw_server g)) (requestQ_ (gw_server g)) Hf) as Hst.
  destruct (publishPendingOrders _ _) as [f' q']. eexists. split; [done|].
  split; simpl; try done; [apply Hst|]. rewrite (staged_requests _ _ _ _ _ _ Hst).
  by rewrite app_nil_r.
Qed.

Lemma exec_recv a g socket bytes t :
  gw_rep a g → Z.of_nat size + 1 < 2 ^ 64 → 0 < ag_next a → ag_next a + 1 < 2 ^ 64 →
  ∃ g', lift (handle (NRecv socket bytes t)) g = Ok g' ∧ gw_rep (a_recv size socket bytes a) g'.
Proof.
  intros [Ht Hf Hr Hfd Hs Hn Hi] Hsize Hpos Hnext. unfold lift, handle.
  mgo tt (set_inbound (<[sk_addr socket :=
    default [] (inbound (gw_server g) !! sk_addr socket) ++ bytes]> (inbound (gw_server g)))
      (gw_server g)).
  set (s2 := set_inbound _ (gw_server g)).
  destruct (onRecv_ok size (ag_hist a) socket t s2 Ht Hsize Hf) as (m & f & q & -> & Hm & Hst & _).
  eexists. split; [done|].
  assert (Hbuf : default [] (inbound s2 !! sk_addr socket) =
                 default [] (ag_inbound a !! sk_addr socket) ++ bytes).
  { unfold s2. simpl. by rewrite lookup_insert_eq, Hi. }
  assert (Hc : client_of socket s2 = default (ag_next a) (ag_fds a !! socket_fd_ socket)).
  { unfold client_of. simpl. by rewrite Hfd, Hn. }
  unfold received in *. rewrite Hbuf, Hc in *. unfold a_recv.
  pose proof (staged_requests (gw_popped g) _ _ _ _ _ Hst) as Hreq.
  simpl in Hreq. rewrite Hr, <- list_fmap_compose, list_fmap_id in Hreq.
  unfold identified. simpl. rewrite Hfd, Hn, Hi, insert_insert_eq.
  destruct (ag_fds a !! socket_fd_ socket) as [c|]; split; simpl; try done; try apply Hst.
  - by rewrite Hs.
  - by autorewrite with words.
Qed.

Lemma exec_disconnect a g socket :
  gw_rep a g →
  ∃ g', lift (handle (NDisconnect socket)) g = Ok g' ∧ gw_rep (a_disconnect socket a) g'.
Proof.
  intros [Ht Hf Hr Hfd Hs Hn Hi]. unfold lift, handle, onDisconnect, a_disconnect.
  unfold mbind, M_bind, gets. simpl. rewrite Hfd.
  destruct (ag_fds a !! socket_fd_ socket) as [c|]; simpl; eexists; (split; [done|]);
    split; simpl; by rewrite ?Hfd, ?Hs, ?Hi.
Qed.

(** What the inbound side leaves alone: the responses, what was sent and the
    front of the request queue. *)
Record inbound_only (s s' : server Q R) : Prop := {
  io_sends : sends s' = sends s;
  io_reads : clock_reads s' = clock_reads s;
  io_responses : responseQ_ s' = responseQ_ s;
  io_queue : queued (requestQ_ s) `prefix_of` queued (requestQ_ s');
  io_capacity : capacity (requestQ_ s') = capacity (requestQ_ s)
}.

Lemma publish_inbound (s s' : server Q R) u :
  fifo_wf (fifo_ s) → publish s = Ok (u, s') → inbound_only s s'.
Proof.
  intros Hf. unfold publish, modify. pose proof (staged_publish (fifo_ s) (requestQ_ s) Hf) as Hst.
  destruct (publishPendingOrders _ _) as [f' q']. intros [= _ <-].
  destruct Hst as (_ & batch & Hq & _ & Hc). split; simpl; try done. rewrite Hq. by apply prefix_app_r.
Qed.

Lemma handle_inbound a g ev u s' :
  gw_rep a g → Z.of_nat size + 1 < 2 ^ 64 → handle ev (gw_server g) = Ok (u, s') →
  inbound_only (gw_server g) s'.
Proof.
  intros [Ht Hf _ _ _ _ _] Hsize. destruct ev as [socket bytes t| |socket]; simpl.
  - mgo tt (set_inbound (<[sk_addr socket :=
      default [] (inbound (gw_server g) !! sk_addr socket) ++ bytes]> (inbound (gw_server g)))
        (gw_server g)).
    set (s2 := set_inbound _ (gw_server g)).
    destruct (onRecv_ok size (ag_hist a) socket t s2 Ht Hsize Hf) as (m & f & q & -> & _ & Hst & _).
    intros [= _ <-]. destruct Hst as (_ & batch & Hq & _ & Hc). unfold identified.
    destruct (fdToClientId_ s2 !! _); split; simpl; try done; rewrite Hq; by apply prefix_app_r.
  - by apply publish_inbound.
  - unfold onDisconnect, mbind, M_bind, gets. simpl.
    destruct (fdToClientId_ (gw_server g) !! _); simpl; intros [= _ <-]; by split.
Qed.

Lemma exec_drain a g :
  gw_rep a g → ∃ g', gw_exec GDrain g = Ok g' ∧ gw_rep a g'.
Proof.
  intros [Ht Hf Hr Hfd Hs Hn Hi]. unfold gw_exec, lift.
  destruct (drain_ok epoch_nanos _ (gw_server g) (Nat.lt_succ_diag_r _)) as (q' & -> & _).
  eexists. split; [done|]. by split.
Qed.

Lemma exec_pop a g : gw_rep a g → ∃ g', gw_exec GPop g = Ok g' ∧ gw_rep a g'.
Proof.
  intros Hg. pose proof Hg as [Ht Hf Hr Hfd Hs Hn Hi]. unfold gw_exec. rewrite next_read.
  destruct (queued (requestQ_ (gw_server g))) as [|rq rest] eqn:Hq; simpl; [by exists g|].
  eexists. split; [done|]. split; simpl; try done.
  rewrite pop_queued, Hq. simpl. by rewrite <- app_assoc.
Qed.

Lemma exec_ok a g op :
  gw_rep a g → Z.of_nat size + 1 < 2 ^ 64 → 0 < ag_next a → ag_next a + 1 < 2 ^ 64 →
  ∃ g', gw_exec op g = Ok g' ∧ gw_rep (a_step size a op) g'.
Proof.
  intros Hg Hsize Hpos Hnext. destruct op as [[socket bytes t| |socket]| | |r|]; simpl.
  - by apply exec_recv.
  - by apply exec_publish.
  - by apply exec_disconnect.
  - by apply exec_publish.
  - by apply exec_drain.
  - eexists. split; [done|]. destruct Hg. by split.
  - by apply exec_pop.
Qed.

Lemma gateway_run_ok a g ops :
  gw_rep a g → Z.of_nat size + 1 < 2 ^ 64 → 0 < ag_next a →
  ag_next a + Z.of_nat (length ops) < 2 ^ 64 →
  ∃ g', gw_run ops g = Ok g' ∧ gw_rep (foldl (a_step size) a ops) g'.
Proof.
  intros Hg Hsize. revert a g Hg. induction ops as [|op ops IH]; intros a g Hg Hpos Hlen; simpl in *.
  { by exists g. }
  destruct (exec_ok a g op Hg Hsize Hpos ltac:(lia)) as (g1 & -> & Hg1).
  pose proof (a_step_next size a op). pose proof (proj1 (a_step_kept size a op)).
  apply IH; [done|lia..].
Qed.
End refinement.

(** ** The theorems *)

Lemma decode_all_spec_app `{OuchWire} `{ByteSwap} size msgs1 msgs2 h :
  decode_all_spec size (msgs1 ++ msgs2) h =
  let r1 := decode_all_spec size msgs1 h in
  let r2 := decode_all_spec size msgs2 r1.2 in
  (r1.1 ++ r2.1, r2.2).
Proof.
  revert h. induction msgs1 as [|[c data] msgs1 IH]; intros h; simpl.
  { by destruct (decode_all_spec size msgs2 h). }
  rewrite IH. simpl. by rewrite app_assoc.
Qed.

(** The abstract gateway does not see where the stream was cut. *)
Lemma a_recv_app `{OuchWire} `{ByteSwap} size socket x y a :
  a_recv size socket y (a_recv size socket x a) = a_recv size socket (x ++ y) a.
Proof.
  unfold a_recv. set (buf := default [] (ag_inbound a !! sk_addr socket)).
  rewrite app_assoc, (frames_app (buf ++ x) y).
  destruct (ag_fds a !! socket_fd_ socket) as [c|] eqn:Hfd; simpl;
    rewrite ?Hfd, ?lookup_insert_eq; simpl;
    rewrite insert_insert_eq, fmap_app, decode_all_spec_app; simpl; by rewrite app_assoc.
Qed.

Section claims.
Context {Q R : Type} `{SPSCQueueLaws MEClientRequest Q} `{SPSCQueueLaws MEClientResponse R}.
Context `{StdSort} `{!StdSortLaws} `{OuchWire} `{!OuchWireLaws} `{ByteSwap} `{!ByteSwapLaws}.
Context (epoch_nanos : nat → Z).

(** A gateway that has just been constructed. *)
Definition gw_start (q : Q) (r : R) (fifoPending tokenPoolSz : nat) : gateway Q R :=
  Gw (server_new q r fifoPending tokenPoolSz) [].

(** C25: Whatever bytes arrive on whatever sockets, however publishing, draining,
    disconnects and the engine interleave: the gateway never faults, no
    assertion fails, and every request it decoded is exactly once with the
    engine, in the request queue or staged; the requests are those of the
    abstract gateway, their order ids are all different and their quantities
    and prices are 32-bit numbers. *)
Theorem gateway_loses_nothing (q : Q) (r : R) (fifoPending tokenPoolSz : nat) (ops : list gw_op) :
  queued q = [] → Z.of_nat tokenPoolSz + 1 < 2 ^ 64 → Z.of_nat (length ops) + 1 < 2 ^ 64 →
  let a := foldl (a_step tokenPoolSz) agw_new ops in
  ∃ g, gw_run epoch_nanos ops (gw_start q r fifoPending tokenPoolSz) = Ok g ∧
    gw_popped g ++ queued (requestQ_ (gw_server g)) ++
      (request_ <$> pending (fifo_ (gw_server g))) ≡ₚ ag_requests a ∧
    NoDup (omap new_key (ag_requests a)) ∧ Forall fields_ok (ag_requests a).
Proof.
  intros Hq Hsize Hlen a.
  destruct (gateway_run_ok epoch_nanos tokenPoolSz agw_new (gw_start q r fifoPending tokenPoolSz) ops)
    as (g & Hrun & Hg); [by apply gw_rep_new|done|simpl; lia..|].
  pose proof (a_run_ok tokenPoolSz agw_new ops agw_new_ok) as Ha. fold a in Hg, Ha.
  exists g. split_and!; [done|apply Hg| |apply Ha].
  by eapply run_regs_NoDup, Ha.
Qed.

(** C26: However TCP cuts a client's byte stream, the gateway does the same with
    it: receiving [x ++ y] at once and receiving [x] and then [y] leave the
    same clients, the same unframed rest, the same order ids and the same
    requests. *)
Theorem gateway_chunking (size : nat) (a : agw) (g : gateway Q R) (socket : sock)
    (x y : list Z) (t t1 t2 : Z) :
  gw_rep size a g → Z.of_nat size + 1 < 2 ^ 64 → 0 < ag_next a → ag_next a + 2 < 2 ^ 64 →
  ∃ a' g1 g2,
    gw_run epoch_nanos [GNet (NRecv socket (x ++ y) t)] g = Ok g1 ∧ gw_rep size a' g1 ∧
    gw_run epoch_nanos [GNet (NRecv socket x t1); GNet (NRecv socket y t2)] g = Ok g2 ∧
    gw_rep size a' g2.
Proof.
  intros Hg Hsize Hpos Hnext. exists (a_recv size socket (x ++ y) a).
  destruct (gateway_run_ok epoch_nanos size a g [GNet (NRecv socket (x ++ y) t)])
    as (g1 & Hrun1 & Hg1); [done..|simpl; lia|].
  destruct (gateway_run_ok epoch_nanos size a g [GNet (NRecv socket x t1); GNet (NRecv socket y t2)])
    as (g2 & Hrun2 & Hg2); [done..|simpl; lia|].
  exists g1, g2. simpl in Hg2. rewrite a_recv_app in Hg2. done.
Qed.

(** [drainResponses] empties the response queue, sends every response of a
    connected client, encoded, to that client's socket and to no other, in the
    order of the queue, and drops exactly the responses of clients that have no
    socket. *)
Theorem drain_routes (fuel : nat) (s : server Q R) :
  (length (queued (responseQ_ s)) < fuel)%nat →
  ∃ s', drainResponses epoch_nanos fuel s = Ok (tt, s') ∧ queued (responseQ_ s') = [] ∧
    sends s' = sends s ++
      route epoch_nanos (clientToSocket_ s) (clock_reads s) (queued (responseQ_ s)) ∧
    clientToSocket_ s' = clientToSocket_ s ∧ requestQ_ s' = requestQ_ s ∧ fifo_ s' = fifo_ s ∧
    ∀ sk bs, (sk, bs) ∈ route epoch_nanos (clientToSocket_ s) (clock_reads s) (queued (responseQ_ s)) →
      ∃ resp ts, resp ∈ queued (responseQ_ s) ∧ bs = out_bytes (encodeOuch resp ts) ∧
        clientToSocket_ s !! rs_client_id_ resp = Some sk.
Proof.
  intros Hf. destruct (drain_ok epoch_nanos fuel s Hf) as (q' & Hd & Hq').
  eexists. split; [exact Hd|]. split_and!; try done. intros sk bs Hin.
  destruct (route_to epoch_nanos _ _ _ _ _ Hin) as (resp & ts & ? & ? & ?). by exists resp, ts.
Qed.

(** C27: Client ids are never reused: at any later moment of any run the socket of
    a client id given out earlier is the one it had, or none after a
    disconnect, also when the descriptor is used by a new connection; and the
    client of a descriptor is answered on a socket with that descriptor. *)
Theorem responses_stay_with_their_client (q : Q) (r : R) (fifoPending tokenPoolSz : nat)
    (ops1 ops2 : list gw_op) :
  queued q = [] → Z.of_nat tokenPoolSz + 1 < 2 ^ 64 →
  Z.of_nat (length (ops1 ++ ops2)) + 1 < 2 ^ 64 →
  ∃ g1 g2,
    gw_run epoch_nanos ops1 (gw_start q r fifoPending tokenPoolSz) = Ok g1 ∧
    gw_run epoch_nanos ops2 g1 = Ok g2 ∧
    (∀ c sk, c < nextClientId_ (gw_server g1) →
       clientToSocket_ (gw_server g2) !! c = Some sk →
       clientToSocket_ (gw_server g1) !! c = Some sk) ∧
    (∀ fd c, fdToClientId_ (gw_server g2) !! fd = Some c →
       ∃ sk, clientToSocket_ (gw_server g2) !! c = Some sk ∧ socket_fd_ sk = fd).
Proof.
  rewrite length_app. intros Hq Hsize Hlen.
  destruct (gateway_run_ok epoch_nanos tokenPoolSz agw_new (gw_start q r fifoPending tokenPoolSz) ops1)
    as (g1 & Hrun1 & Hg1); [by apply gw_rep_new|done|simpl; lia..|].
  set (a1 := foldl (a_step tokenPoolSz) agw_new ops1) in *.
  pose proof (a_run_ok tokenPoolSz agw_new ops1 agw_new_ok) as Ha1. fold a1 in Ha1.
  assert (Hn1 : ag_next a1 ≤ 1 + Z.of_nat (length ops1)).
  { unfold a1. clear. induction ops1 as [|op ops IH] using rev_ind; [simpl; lia|].
    rewrite foldl_snoc, length_app. simpl.
    pose proof (a_step_next tokenPoolSz (foldl (a_step tokenPoolSz) agw_new ops) op). lia. }
  destruct (gateway_run_ok epoch_nanos tokenPoolSz a1 g1 ops2 Hg1 Hsize (ao_next _ Ha1))
    as (g2 & Hrun2 & Hg2); [lia|].
  pose proof (a_run_ok tokenPoolSz a1 ops2 Ha1) as Ha2.
  destruct (a_run_kept tokenPoolSz a1 ops2) as [_ Hkept].
  exists g1, g2. split_and!; [done..| |].
  - intros c sk. rewrite (gr_next _ _ _ Hg1), (gr_socks _ _ _ Hg1), (gr_socks _ _ _ Hg2). apply Hkept.
  - intros fd c. rewrite (gr_fds _ _ _ Hg2), (gr_socks _ _ _ Hg2). apply Ha2.
Qed.
End claims.

(** ** Concrete runs

    Two clients, the message of the first in two pieces; the engine takes a
    request, and answers both clients and one that does not exist. *)

Definition sockA : sock := Sock 1 5.
Definition sockB : sock := Sock 2 6.
Definition demo_enter (c : Z) : list Z := enter_msg (tok c) 66 10 0 100 99998.
Definition demo_response (c : ClientId) : MEClientResponse :=
  mkResponse c 0 1 1 BUY 100 10 GoodTillCancel ACCEPTED 0 100 10 OrderId_INVALID (tok (64 + c)).

Definition demo_gw_ops : list gw_op :=
  [ GNet (NRecv sockA (take 20 (demo_enter 65)) 10); GNet (NRecv sockB (demo_enter 66) 12);
    GNet (NRecv sockA (drop 20 (demo_enter 65)) 11); GNet NRecvFinished; GPop;
    GRespond (demo_response 2); GRespond (demo_response 7); GRespond (demo_response 1); GDrain ].

Definition demo_clock (n : nat) : Z := 1000 + Z.of_nat n.

Abbreviation demo_gateway :=
  (gateway (list_queue MEClientRequest) (list_queue MEClientResponse)).
Definition demo_start : demo_gateway := gw_start (ListQueue 4 []) (ListQueue 4 []) 2 16.

(** The popped request and the sockets the messages went to. *)
Lemma gateway_loses_nothing_witness :
  ∃ g : demo_gateway,
    gw_run (H3 := stable_sort) demo_clock demo_gw_ops demo_start = Ok g ∧
    (rq_client_id_ <$> gw_popped g) = [1] ∧ length (lq_items (requestQ_ (gw_server g))) = 1%nat ∧
    (fst <$> sends (gw_server g)) = [sockB; sockA] ∧
    NoDup (omap new_key (ag_requests (foldl (a_step 16) agw_new demo_gw_ops))).
Proof.
  destruct (gateway_loses_nothing (H0 := list_queue_laws _) (H2 := list_queue_laws _)
    (H3 := stable_sort) demo_clock (ListQueue 4 []) (ListQueue 4 []) 2 16 demo_gw_ops
    eq_refl ltac:(lia) ltac:(vm_compute; reflexivity)) as (g & Hrun & _ & Hnd & _).
  exists g. split; [exact Hrun|]. vm_compute in Hrun. injection Hrun as <-.
  split_and!; [reflexivity..|exact Hnd].
Defined.

Lemma gateway_chunking_witness :
  ∃ a' (g1 g2 : demo_gateway),
    gw_run (H3 := stable_sort) demo_clock [GNet (NRecv sockA (demo_enter 65 ++ demo_enter 66) 9)]
      demo_start = Ok g1 ∧ gw_rep 16 a' g1 ∧
    gw_run (H3 := stable_sort) demo_clock
      [GNet (NRecv sockA (demo_enter 65) 9); GNet (NRecv sockA (demo_enter 66) 10)]
      demo_start = Ok g2 ∧ gw_rep 16 a' g2.
Proof.
  refine (gateway_chunking (H0 := list_queue_laws _) (H2 := list_queue_laws _)
    (H3 := stable_sort) demo_clock 16 agw_new demo_start sockA (demo_enter 65) (demo_enter 66)
    9 9 10 
    (gw_rep_new (H0 := list_queue_laws _) 16 (ListQueue 4 []) (ListQueue 4 []) 2 eq_refl) _ _ _); simpl; lia.
Defined.

Lemma drain_routes_witness :
  let s := set_clients {[5 := 1]} {[1 := sockA]} 2
             (gw_server (gw_start (ListQueue 4 []) (ListQueue 4 [demo_response 7; demo_response 1]) 2 16)
               : server (list_queue MEClientRequest) _) in
  ∃ s', drainResponses demo_clock 3 s = Ok (tt, s') ∧
    sends s' = [(sockA, out_bytes (encodeOuch (demo_response 1) 1000))].
Proof.
  intros s. destruct (drain_routes (H2 := list_queue_laws _) demo_clock 3 s) as (s' & Hd & _ & Hs & _).
  - vm_compute. lia.
  - exists s'. split; [exact Hd|]. rewrite Hs. reflexivity.
Defined.

(** The descriptor of client 1 is taken over by a new connection, client 2: the
    old client id has no socket any more. *)
Lemma responses_stay_with_their_client_witness :
  let ops1 := [GNet (NRecv sockA (demo_enter 65) 9)] in
  let ops2 := [GNet (NDisconnect sockA); GNet (NRecv (Sock 3 5) (demo_enter 66) 10)] in
  ∃ g1 g2 : demo_gateway,
    gw_run (H3 := stable_sort) demo_clock ops1 demo_start = Ok g1 ∧
    gw_run (H3 := stable_sort) demo_clock ops2 g1 = Ok g2 ∧
    clientToSocket_ (gw_server g1) !! 1 = Some sockA ∧
    clientToSocket_ (gw_server g2) !! 1 = None ∧
    clientToSocket_ (gw_server g2) !! 2 = Some (Sock 3 5).
Proof.
  intros ops1 ops2.
  destruct (responses_stay_with_their_client (H0 := list_queue_laws _) (H2 := list_queue_laws _)
    (H3 := stable_sort) demo_clock (ListQueue 4 []) (ListQueue 4 []) 2 16 ops1 ops2
    eq_refl ltac:(lia) ltac:(vm_compute; reflexivity)) as (g1 & g2 & Hrun1 & Hrun2 & _).
  exists g1, g2. split; [exact Hrun1|]. split; [exact Hrun2|].
  vm_compute in Hrun1. injection Hrun1 as <-. vm_compute in Hrun2. injection Hrun2 as <-.
  split_and!; reflexivity.
Defined.

(** ** Messages of one read *)

Section one_read.
Context {Q R : Type} `{SPSCQueueLaws MEClientRequest Q} `{SPSCQueueLaws MEClientResponse R}.
Context `{OuchWire} `{!OuchWireLaws} `{ByteSwap} (epoch_nanos : nat → Z).

(** Everything one read completes is staged behind each other, all with the time
    of the read. *)
Lemma recv_staged `{StdSort} `{!StdSortLaws} size a (g : gateway Q R) socket bytes t new :
  gw_rep size a g → Z.of_nat size + 1 < 2 ^ 64 →
  ag_requests (a_recv size socket bytes a) = ag_requests a ++ new →
  pending (fifo_ (gw_server g)) = [] →
  (length new ≤ length (pending_orders_ (fifo_ (gw_server g))))%nat →
  ∃ g', gw_exec epoch_nanos (GNet (NRecv socket bytes t)) g = Ok g' ∧
    requestQ_ (gw_server g') = requestQ_ (gw_server g) ∧ fifo_wf (fifo_ (gw_server g')) ∧
    pending (fifo_ (gw_server g')) = Recv t <$> new ∧
    (new ≠ [] → pending_sorted_ (fifo_ (gw_server g')) = false).
Proof.
  intros [Ht Hf _ Hfd _ Hn Hi] Hsize Hnew Hidle Hroom. cbn [gw_exec]. unfold lift, handle.
  mgo tt (set_inbound (<[sk_addr socket :=
    default [] (inbound (gw_server g) !! sk_addr socket) ++ bytes]> (inbound (gw_server g)))
      (gw_server g)).
  set (s2 := set_inbound _ (gw_server g)).
  destruct (onRecv_ok size (ag_hist a) socket t s2 Ht Hsize Hf) as (m & f & q & -> & _ & [Hw _] & Happ).
  assert (Hrs : (received size socket (default [] (inbound s2 !! sk_addr socket)) s2 (ag_hist a)).1 = new).
  { apply (app_inv_head (ag_requests a)). rewrite <- Hnew. unfold received, a_recv, client_of, s2. simpl.
    rewrite lookup_insert_eq, Hi, Hfd, Hn. by destruct (ag_fds a !! socket_fd_ socket). }
  rewrite Hrs in Happ. destruct Happ as (Hq & Hp & _ & Hflag & _).
  { unfold s2. simpl. rewrite Hidle, length_fmap. simpl. lia. }
  unfold s2 in Hq, Hp. simpl in Hq, Hp. rewrite Hidle in Hp. subst q.
  eexists. split; [done|]. unfold identified.
  destruct (fdToClientId_ s2 !! socket_fd_ socket); simpl; split_and!; try done;
    intros Hne; apply Hflag; by destruct new.
Qed.

(** C38: The order of messages within one read is not kept.  [onRecv] stamps every
    message of one read of a socket with the same kernel time, and [std::sort]
    promises nothing about entries with equal times: on a gateway with nothing
    staged, a staging buffer and a request queue with room, and for any bytes,
    every order of the requests that one read completes is one in which some
    conforming [std::sort] hands them to the engine.  A cancel may thus reach
    the engine before the order it names. *)
Theorem equal_times_any_order (size : nat) (a : agw) (g : gateway Q R) (socket : sock)
    (bytes : list Z) (t : Z) (new order : list MEClientRequest) :
  gw_rep size a g → Z.of_nat size + 1 < 2 ^ 64 →
  ag_requests (a_recv size socket bytes a) = ag_requests a ++ new → order ≡ₚ new →
  pending (fifo_ (gw_server g)) = [] →
  (length new ≤ length (pending_orders_ (fifo_ (gw_server g))))%nat →
  (length (queued (requestQ_ (gw_server g))) + length new ≤ capacity (requestQ_ (gw_server g)))%nat →
  ∃ (sort : StdSort) g', StdSortLaws (H := sort) ∧
    gw_run (H3 := sort) epoch_nanos [GNet (NRecv socket bytes t); GNet NRecvFinished] g = Ok g' ∧
    queued (requestQ_ (gw_server g')) = queued (requestQ_ (gw_server g)) ++ order.
Proof.
  intros Hrep Hsize Hnew Horder Hidle Hbuf Hroom. destruct (equal_times_any_sort t new order Horder) as [idx Hidx].
  exists (permuting_sort idx).
  destruct (recv_staged (H6 := permuting_sort idx) size a g socket bytes t new Hrep Hsize Hnew Hidle Hbuf)
    as (g1 & He & Hq & Hw & Hp & Hflag).
  cbn [gw_run]. rewrite He. cbn [gw_exec]. unfold lift. cbn [handle]. unfold onRecvFinished, publish, modify.
  pose proof (publish_room (H1 := permuting_sort idx) (fifo_ (gw_server g1)) (requestQ_ (gw_server g1)) Hw) as Hpub.
  destruct new as [|rq new].
  - apply Permutation_nil_r in Horder as ->. unfold publishPendingOrders.
    rewrite <- (pending_length _ Hw), Hp. simpl. eexists. split; [apply permuting_sort_laws|]. split; [done|].
    simpl. by rewrite Hq, app_nil_r.
  - rewrite Hp, Hidx, Hq, length_fmap, <- list_fmap_compose, list_fmap_id in Hpub.
    specialize (Hpub (Hflag ltac:(done)) Hroom). rewrite Hq.
    destruct (publishPendingOrders _ _) as [f' q']. eexists. split; [apply permuting_sort_laws|]. by split.
Qed.
End one_read.

(** A client enters an order and cancels it in the same read: with a conforming
    sort the engine gets the cancel first. *)
Lemma equal_times_any_order_witness :
  ∃ (sort : StdSort) (g' : demo_gateway), StdSortLaws (H := sort) ∧
    gw_run (H3 := sort) demo_clock
      [GNet (NRecv sockA (demo_enter 65 ++ cancel_msg (tok 65) 0) 9); GNet NRecvFinished] demo_start = Ok g' ∧
    rq_action_ <$> lq_items (requestQ_ (gw_server g')) = [REQ_CANCEL; REQ_NEW].
Proof.
  set (new := ag_requests (a_recv 16 sockA (demo_enter 65 ++ cancel_msg (tok 65) 0) agw_new)).
  destruct (equal_times_any_order (H0 := list_queue_laws _) (H2 := list_queue_laws _) demo_clock 16 agw_new
    demo_start sockA (demo_enter 65 ++ cancel_msg (tok 65) 0) 9 new (reverse new)
    (gw_rep_new (H0 := list_queue_laws _) 16 (ListQueue 4 []) (ListQueue 4 []) 2 eq_refl))
    as (sort & g' & Hlaws & Hrun & Hq).
  - lia.
  - reflexivity.
  - apply reverse_Permutation.
  - reflexivity.
  - vm_compute. lia.
  - vm_compute. lia.
  - exists sort, g'. split; [exact Hlaws|]. split; [exact Hrun|]. cbn [queued list_queue_laws] in Hq.
    rewrite Hq. vm_compute. reflexivity.
Defined.
