(* ===== verification/Exchange.v ===== *)
(** * Exchange: the gateway in front of the engine

    The requests the engine takes from the request queue are among those the
    gateway decoded, and these are fit for the engine as far as the gateway
    checks them: what remains to be assumed of the clients is that they name
    listed tickers and do not exhaust an object pool. *)

From S2P Require Import Prelude Types BookSpec DList Memory StoreRep LevelMap Levels BookSpecFacts BookTime Soundness BookCore MatchingEngine Trades OrderBookMap MapRefine MapTheorems EngineMap Queue Fifo Wire TokenManager Ouch OuchFacts OrderServer ServerFacts Gateway.
Import MapOB.

(** ** Parts of a run *)

Lemma omap_submseteq {A B} (f : A → option B) (l k : list A) :
  l ⊆+ k → omap f l ⊆+ omap f k.
Proof.
  intros [k' Hk]%submseteq_Permutation. rewrite Hk, omap_app. apply submseteq_inserts_r. done.
Qed.

Lemma new_load_submseteq t (l k : list MEClientRequest) :
  l ⊆+ k → (new_load t l ≤ new_load t k)%nat.
Proof.
  intros [k' Hk]%submseteq_Permutation. unfold new_load.
  assert (Hp : ∀ (f : MEClientRequest → bool) x y, x ≡ₚ y →
    length (List.filter f x) = length (List.filter f y)).
  { intros f x y. induction 1 as [|r x y _ IH|r r' x|x y z _ IH1 _ IH2]; simpl; try congruence.
    - destruct (f r); simpl; congruence.
    - by destruct (f r), (f r'). }
  rewrite (Hp _ _ _ Hk), List.filter_app, length_app. lia.
Qed.

(** Any part of the requests, in any order, is as ready as the whole. *)
Lemma run_ready_submseteq price_ok books n l k :
  l ⊆+ k → run_ready price_ok books n k → run_ready price_ok books n l.
Proof.
  intros Hsub (HF & Hnd & Hload). split_and!.
  - rewrite Forall_forall in *. intros rq Hin. apply HF. by eapply elem_of_submseteq.
  - apply (omap_submseteq new_key) in Hsub. apply submseteq_Permutation in Hsub as [k' Hk'].
    rewrite Hk' in Hnd. by apply NoDup_app in Hnd as [? _].
  - intros t. etrans; [by apply new_load_submseteq|apply Hload].
Qed.

(** Listed tickers and room are all that is missing. *)
Lemma decoded_ready books n rqs :
  Forall fields_ok rqs → NoDup (omap new_key rqs) →
  Forall (λ rq, (Z.to_nat (rq_ticker_id_ rq) < books)%nat) rqs →
  (∀ t, (new_load t rqs ≤ n)%nat) → run_ready (λ _, True) books n rqs.
Proof.
  intros Hf Hnd Ht Hload. split_and!; [|done..]. rewrite Forall_forall in *. intros rq Hin.
  split; [by apply Ht|]. destruct (Hf rq Hin) as [Hq _]. split; [exact Hq|by right].
Qed.

Section exchange.
Context {Q R : Type} `{SPSCQueueLaws MEClientRequest Q} `{SPSCQueueLaws MEClientResponse R}.
Context `{StdSort} `{!StdSortLaws} `{OuchWire} `{!OuchWireLaws} `{ByteSwap} `{!ByteSwapLaws}.
Context {P : Type} `{ObjectPool P} `{!ObjectPoolLaws P}.
Context (epoch_nanos : nat → Z) (freed_node : PriceLevel → PriceLevel).

(** From bytes to trades: whatever bytes arrive on whatever sockets and
    however gateway and engine interleave, if the decoded requests name listed
    tickers and no pool is asked for more orders than it holds, the engine
    processes the requests it takes without a fault, announces exactly what the
    specification announces for them, and its books are sound. *)
Theorem exchange_is_safe (q : Q) (r : R) (fifoPending tokenPoolSz books n : nat)
    (ops : list gw_op) :
  (∀ l, pl_head l = None → pl_head (freed_node l) = None) →
  queued q = [] → Z.of_nat tokenPoolSz + 1 < 2 ^ 64 → Z.of_nat (length ops) + 1 < 2 ^ 64 →
  let rqs := ag_requests (foldl (a_step tokenPoolSz) agw_new ops) in
  Forall (λ rq, (Z.to_nat (rq_ticker_id_ rq) < books)%nat) rqs →
  (∀ t, (new_load t rqs ≤ n)%nat) → Z.of_nat (length rqs) + 1 < 2 ^ 64 →
  ∃ g e,
    gw_run epoch_nanos ops (gw_start q r fifoPending tokenPoolSz) = Ok g ∧
    gw_popped g ⊆+ rqs ∧
    run_requests (H := map_order_book (P := P) freed_node) (gw_popped g)
      (engine_new (H := map_order_book freed_node) books n) = Ok e ∧
    engine_state e = engine_state (s_run MapBook (gw_popped g) (s_engine_new books)) ∧
    ∀ t b, ticker_order_book_ e !! t = Some b → memory_sound b ∧ market_sound b.
Proof.
  intros Hnull Hq Hsize Hlen rqs Ht Hload Hrqs.
  destruct (gateway_run_ok epoch_nanos tokenPoolSz agw_new (gw_start q r fifoPending tokenPoolSz) ops)
    as (g & Hrun & Hg); [by apply gw_rep_new|done|simpl; lia..|].
  pose proof (a_run_ok tokenPoolSz agw_new ops agw_new_ok) as Ha.
  assert (Hsub : gw_popped g ⊆+ rqs).
  { unfold rqs. rewrite <- (gr_requests _ _ _ Hg). by apply submseteq_inserts_r. }
  assert (Hready : run_ready (λ _, True) books n (gw_popped g)).
  { eapply run_ready_submseteq; [exact Hsub|]. apply decoded_ready; [apply Ha| |done..].
    by eapply run_regs_NoDup, Ha. }
  assert (Hpop : Z.of_nat (length (gw_popped g)) + 1 < 2 ^ 64).
  { apply submseteq_length in Hsub. lia. }
  destruct (map_run_ok freed_node Hnull books n _ Hready) as (e & He & Hio & _).
  destruct (map_run_books freed_node Hnull books n _ Hready Hpop) as (e' & He' & Hbooks).
  rewrite He in He'. injection He' as <-.
  exists g, e. split_and!; [done..|]. intros t b Hb.
  destruct (Hbooks t b Hb) as (ls & sb & Hrep & Hw & Htm).
  split; [by eapply sided_memory, map_rep_sided|].
  by eapply sided_market; [apply map_rep_sided|..].
Qed.
End exchange.

(** The run of [Gateway] with one more request taken. *)
Lemma exchange_is_safe_witness :
  ∃ (g : demo_gateway) e,
    gw_run (H3 := stable_sort) demo_clock (demo_gw_ops ++ [GPop]) demo_start = Ok g ∧
    run_requests (H := map_order_book (P := SetPool.t) id) (gw_popped g)
      (engine_new (H := map_order_book id) 4 8) = Ok e ∧
    (rq_client_id_ <$> gw_popped g) = [1; 2] ∧ length (sent (engine_state e)) = 4%nat.
Proof.
  destruct (exchange_is_safe (H0 := list_queue_laws _) (H2 := list_queue_laws _) (H3 := stable_sort)
    (P := SetPool.t) demo_clock id (ListQueue 4 []) (ListQueue 4 []) 2 16 4 8 (demo_gw_ops ++ [GPop]))
    as (g & e & Hrun & _ & He & Hio & _).
  - done.
  - reflexivity.
  - lia.
  - vm_compute. reflexivity.
  - apply (bool_decide_unpack _). vm_compute. exact I.
  - intros t. etrans; [apply new_load_le|]. vm_compute. lia.
  - vm_compute. reflexivity.
  - exists g, e. split; [exact Hrun|]. split; [exact He|]. rewrite Hio.
    vm_compute in Hrun. injection Hrun as <-. split; reflexivity.
Defined.

(** C39: Nothing between the socket and the engine checks the ticker: an Enter
    Order for ticker 4 of an exchange with the tickers 0 to 3 is decoded,
    staged, published and taken, and the engine indexes its vector of books out
    of range. *)
Theorem unlisted_ticker_reaches_engine :
  match gw_run (H3 := stable_sort) demo_clock
          [GNet (NRecv sockA (enter_msg (tok 65) 66 10 4 100 99998) 1); GNet NRecvFinished; GPop]
          demo_start with
  | Ok g =>
      (rq_ticker_id_ <$> gw_popped g) = [4] ∧
      run_requests (H := map_order_book (P := SetPool.t) id) (gw_popped g)
        (engine_new (H := map_order_book id) 4 8) = Fault OutOfRange
  | Fault _ => False
  end.
Proof. vm_compute. split; reflexivity. Qed.
