(* ===== verification/Itch.v ===== *)
(** * Itch: encoding market updates

    [src/src/network/protocol/itch_encoder.h].  The message structs of
    [itch_messages.h] are QuantLink's: the records have the members the encoder
    assigns, in network byte order, and [ItchWire] gives the bytes of a struct.
    The laws: no struct is empty and none is longer than the buffers of
    [ITCH_MAX_MSG_SIZE] bytes it is copied to. *)

From S2P Require Import Prelude Types Wire.

Module Itch.

Definition ITCH_MAX_MSG_SIZE : nat := 40.

Record AddOrder := {
  ad_stock_locate : Z; ad_tracking_number : Z; ad_timestamp : list Z; ad_order_ref_num : Z;
  ad_buy_sell : Z; ad_shares : Z; ad_stock : Z; ad_price : Z
}.
Record OrderDelete := {
  de_stock_locate : Z; de_tracking_number : Z; de_timestamp : list Z; de_order_ref_num : Z
}.
Record OrderExecuted := {
  ex_stock_locate : Z; ex_tracking_number : Z; ex_timestamp : list Z; ex_order_ref_num : Z;
  ex_executed_shares : Z; ex_match_number : Z
}.
Record OrderReplace := {
  re_stock_locate : Z; re_tracking_number : Z; re_timestamp : list Z; re_original_order_ref : Z;
  re_new_order_ref : Z; re_shares : Z; re_price : Z
}.

Inductive itch_msg :=
  | ItchAdd (m : AddOrder)
  | ItchDelete (m : OrderDelete)
  | ItchExecuted (m : OrderExecuted)
  | ItchReplace (m : OrderReplace).

Class ItchWire := itch_bytes : itch_msg → list Z.

Class ItchWireLaws `{ItchWire} := {
  itch_nonempty m : itch_bytes m ≠ [];
  itch_fits m : (length (itch_bytes m) ≤ ITCH_MAX_MSG_SIZE)%nat
}.

Definition char_B : Z := 66.
Definition char_S : Z := 83.

(** The 6-byte big-endian timestamp; [ns] is [get_nanos_since_midnight()]. *)
Definition writeTimestamp (ns_since_midnight : Z) : list Z :=
  [ Z.land (Z.shiftr ns_since_midnight 40) 255; Z.land (Z.shiftr ns_since_midnight 32) 255;
    Z.land (Z.shiftr ns_since_midnight 24) 255; Z.land (Z.shiftr ns_since_midnight 16) 255;
    Z.land (Z.shiftr ns_since_midnight 8) 255; Z.land (Z.shiftr ns_since_midnight 0) 255 ].

Definition getStockLocate (ticker_id : TickerId) : Z := u16 ticker_id.

Section encode.
Context `{ByteSwap}.

Definition copyStock (ticker_id : TickerId) : Z := swap64 (u64 ticker_id).

(** [encode]: the struct written to [buf], [None] for the result 0. *)
Definition encode (u : MEMarketUpdate) (ns : Z) : option itch_msg :=
  let locate := swap16 (getStockLocate (mu_ticker_id_ u)) in
  match mu_type_ u with
  | UPD_ADD => Some (ItchAdd {|
      ad_stock_locate := locate; ad_tracking_number := 0; ad_timestamp := writeTimestamp ns;
      ad_order_ref_num := swap64 (mu_market_order_id_ u);
      ad_buy_sell := match mu_side_ u with BUY => char_B | SELL => char_S end;
      ad_shares := swap32 (u32 (mu_qty_ u)); ad_stock := copyStock (mu_ticker_id_ u);
      ad_price := swap32 (u32 (mu_price_ u)) |})
  | UPD_CANCEL => Some (ItchDelete {|
      de_stock_locate := locate; de_tracking_number := 0; de_timestamp := writeTimestamp ns;
      de_order_ref_num := swap64 (mu_market_order_id_ u) |})
  | UPD_TRADE => Some (ItchExecuted {|
      ex_stock_locate := locate; ex_tracking_number := 0; ex_timestamp := writeTimestamp ns;
      ex_order_ref_num := swap64 (mu_market_order_id_ u);
      ex_executed_shares := swap32 (u32 (mu_qty_ u));
      ex_match_number := swap64 (mu_match_id_ u) |})
  | UPD_MODIFY => Some (ItchReplace {|
      re_stock_locate := locate; re_tracking_number := 0; re_timestamp := writeTimestamp ns;
      re_original_order_ref := swap64 (mu_market_order_id_ u);
      re_new_order_ref := swap64 (mu_new_order_id_ u);
      re_shares := swap32 (u32 (mu_qty_ u)); re_price := swap32 (u32 (mu_price_ u)) |})
  | UPD_SNAPSHOT_START | UPD_SNAPSHOT_END | UPD_CLEAR => None
  end.

(** The types the encoder has a message for. *)
Definition on_feed (u : MEMarketUpdate) : bool :=
  match mu_type_ u with
  | UPD_ADD | UPD_CANCEL | UPD_TRADE | UPD_MODIFY => true
  | _ => false
  end.

Lemma encode_on_feed u ns : on_feed u = true → is_Some (encode u ns).
Proof. unfold on_feed, encode. destruct (mu_type_ u); eauto; done. Qed.

Lemma encode_some_on_feed u ns m : encode u ns = Some m → on_feed u = true.
Proof. unfold on_feed, encode. by destruct (mu_type_ u). Qed.
End encode.

(** ** What a subscriber reads *)

(** The number in a big-endian field. *)
Definition be_read (bs : list Z) : Z := foldl (λ acc b, acc * 256 + b) 0 bs.

Lemma timestamp_roundtrip ns : 0 ≤ ns < 2 ^ 48 → be_read (writeTimestamp ns) = ns.
Proof.
  intros Hns. unfold writeTimestamp, be_read. cbn [foldl].
  change 255 with (Z.ones 8). rewrite !Z.land_ones, !Z.shiftr_div_pow2 by lia.
  change (2 ^ 8) with 256. change (2 ^ 0) with 1. change (2 ^ 16) with 65536.
  change (2 ^ 24) with 16777216. change (2 ^ 32) with 4294967296.
  change (2 ^ 40) with 1099511627776. change (2 ^ 48) with 281474976710656 in Hns.
  Z.div_mod_to_equations. lia.
Qed.

Record feed_ok (u : MEMarketUpdate) (ns : Z) : Prop := {
  fo_ticker : 0 ≤ mu_ticker_id_ u < 2 ^ 16;
  fo_id : 0 ≤ mu_market_order_id_ u < 2 ^ 64;
  fo_qty : 0 ≤ mu_qty_ u < 2 ^ 32;
  fo_price : 0 ≤ mu_price_ u < 2 ^ 32;
  fo_new : 0 ≤ mu_new_order_id_ u < 2 ^ 64;
  fo_match : 0 ≤ mu_match_id_ u < 2 ^ 64;
  fo_ns : 0 ≤ ns < 2 ^ 48
}.

Definition subscriber_reads `{ByteSwap} (m : itch_msg) (u : MEMarketUpdate) (ns : Z) : Prop :=
  match m with
  | ItchAdd m =>
      mu_type_ u = UPD_ADD ∧ swap16 (ad_stock_locate m) = mu_ticker_id_ u ∧
      swap64 (ad_stock m) = mu_ticker_id_ u ∧ be_read (ad_timestamp m) = ns ∧
      swap64 (ad_order_ref_num m) = mu_market_order_id_ u ∧
      (if ad_buy_sell m =? char_B then BUY else SELL) = mu_side_ u ∧
      swap32 (ad_shares m) = mu_qty_ u ∧ swap32 (ad_price m) = mu_price_ u
  | ItchDelete m =>
      mu_type_ u = UPD_CANCEL ∧ swap16 (de_stock_locate m) = mu_ticker_id_ u ∧
      be_read (de_timestamp m) = ns ∧ swap64 (de_order_ref_num m) = mu_market_order_id_ u
  | ItchExecuted m =>
      mu_type_ u = UPD_TRADE ∧ swap16 (ex_stock_locate m) = mu_ticker_id_ u ∧
      be_read (ex_timestamp m) = ns ∧ swap64 (ex_order_ref_num m) = mu_market_order_id_ u ∧
      swap32 (ex_executed_shares m) = mu_qty_ u ∧ swap64 (ex_match_number m) = mu_match_id_ u
  | ItchReplace m =>
      mu_type_ u = UPD_MODIFY ∧ swap16 (re_stock_locate m) = mu_ticker_id_ u ∧
      be_read (re_timestamp m) = ns ∧ swap64 (re_original_order_ref m) = mu_market_order_id_ u ∧
      swap64 (re_new_order_ref m) = mu_new_order_id_ u ∧
      swap32 (re_shares m) = mu_qty_ u ∧ swap32 (re_price m) = mu_price_ u
  end.

(** Nothing a subscriber needs is lost. *)
Lemma encode_reads `{ByteSwap} `{!ByteSwapLaws} `{ItchWire} `{!ItchWireLaws}
    (u : MEMarketUpdate) (ns : Z) :
  on_feed u = true → feed_ok u ns →
  ∃ m, encode u ns = Some m ∧ subscriber_reads m u ns ∧
       (0 < length (itch_bytes m) ≤ ITCH_MAX_MSG_SIZE)%nat.
Proof.
  intros Hfeed [Ht Hid Hq Hp Hnew Hm Hns]. destruct (encode_on_feed u ns Hfeed) as [m Hm'].
  exists m. split; [done|]. split.
  - unfold encode, getStockLocate, copyStock in Hm'. unfold on_feed in Hfeed.
    destruct (mu_type_ u) eqn:Htype; simplify_eq; simpl;
      rewrite ?timestamp_roundtrip, ?u16_small, ?u32_small, ?u64_small, ?swap16_swap16,
        ?swap32_swap32, ?swap64_swap64 by lia;
      split_and!; try done; by destruct (mu_side_ u).
  - pose proof (itch_fits m). pose proof (itch_nonempty m). destruct (itch_bytes m); simpl in *; [done|lia].
Qed.

(** The timestamp field holds 48 bits of the clock. *)
Lemma timestamp_mod ns : writeTimestamp (ns `mod` 2 ^ 48) = writeTimestamp ns.
Proof.
  unfold writeTimestamp. change 255 with (Z.ones 8).
  rewrite !Z.land_ones, !Z.shiftr_div_pow2 by lia.
  change (2 ^ 8) with 256. change (2 ^ 0) with 1. change (2 ^ 16) with 65536.
  change (2 ^ 24) with 16777216. change (2 ^ 32) with 4294967296.
  change (2 ^ 40) with 1099511627776. change (2 ^ 48) with 281474976710656.
  repeat (apply (f_equal2 cons); [Z.div_mod_to_equations; lia|]). done.
Qed.

Lemma encode_mod `{ByteSwap} u ns : encode u (ns `mod` 2 ^ 48) = encode u ns.
Proof. unfold encode. by rewrite timestamp_mod. Qed.

(** A layout for concrete runs: type byte, locate code, order number, shares. *)
#[global] Instance demo_itch : ItchWire := λ m,
  match m with
  | ItchAdd m => 65 :: host_bytes 2 (ad_stock_locate m) ++ host_bytes 8 (ad_order_ref_num m) ++
                 host_bytes 4 (ad_shares m)
  | ItchDelete m => 68 :: host_bytes 2 (de_stock_locate m) ++ host_bytes 8 (de_order_ref_num m)
  | ItchExecuted m => 69 :: host_bytes 2 (ex_stock_locate m) ++ host_bytes 8 (ex_order_ref_num m) ++
                      host_bytes 4 (ex_executed_shares m)
  | ItchReplace m => 85 :: host_bytes 2 (re_stock_locate m) ++
                     host_bytes 8 (re_original_order_ref m) ++ host_bytes 8 (re_new_order_ref m)
  end.

#[global] Instance demo_itch_laws : ItchWireLaws.
Proof.
  assert (Hl : ∀ k z, 0 ≤ k → length (host_bytes k z) = Z.to_nat k).
  { intros k z Hk. pose proof (length_host_bytes k z Hk). lia. }
  split; intros m; unfold itch_bytes, demo_itch; [by destruct m|].
  destruct m; cbn [length]; rewrite ?length_app, !Hl by lia; unfold ITCH_MAX_MSG_SIZE; simpl; lia.
Qed.
End Itch.
