(* ===== verification/Publisher.v ===== *)
(** * Publisher: sequencing and fan-out of market data

    [src/src/network/market/marketdata_publisher.h].  The publisher takes the
    engine's updates, encodes each once, sends it with its sequence number to
    the UDP subscribers and hands the same bytes to the snapshot streamer.

    [UdpFanoutSocket] is QuantLink's: [datagrams] is the sequence of its
    [fanout] calls.  [streamer_updates_.pushBlocking] waits for room, so an
    iteration that has sent its datagram and not yet pushed is the state
    [blocked]; the streamer runs meanwhile. *)

From S2P Require Import Prelude Types Queue Wire Itch.
Import Itch.

(** [SnapshotUpdate]; [su_bytes_] are the first [len_] bytes of [bytes_]. *)
Record SnapshotUpdate := Snap {
  su_update_ : MEMarketUpdate;
  su_seq_num_ : Z;
  su_bytes_ : list Z
}.

Record publisher (U : Type) := Publisher {
  marketUpdates_ : U;
  next_seq_num_ : Z;
  published_count_ : Z;
  datagrams : list (list Z);
  midnight_reads : nat;
  blocked : option SnapshotUpdate
}.
Arguments Publisher {_} _ _ _ _ _ _.
Arguments marketUpdates_ {_} _.
Arguments next_seq_num_ {_} _.
Arguments published_count_ {_} _.
Arguments datagrams {_} _.
Arguments midnight_reads {_} _.
Arguments blocked {_} _.

Definition publisher_new {U} (marketUpdates : U) : publisher U :=
  Publisher marketUpdates 1 0 [] 0 None.

Section publisher.
Context {U S : Type} `{SPSCQueue MEMarketUpdate U} `{SPSCQueue SnapshotUpdate S}.
Context `{ByteSwap} `{ItchWire}.
(** [get_nanos_since_midnight()]: the [n]-th reading of the publisher thread. *)
Context (nanos : nat → Z).

(** The 8 bytes of [swap64(seq)] in memory. *)
Definition seq_prefix (seq : Z) : list Z := host_bytes 8 (swap64 seq).

(** [sendToIncrementalNetwork] *)
Definition sendToIncrementalNetwork (data : list Z) (p : publisher U) : publisher U :=
  Publisher (marketUpdates_ p) (next_seq_num_ p) (published_count_ p)
    (datagrams p ++ [seq_prefix (next_seq_num_ p) ++ data]) (midnight_reads p) (blocked p).

(** The end of an iteration. *)
Definition finish (p : publisher U) : publisher U :=
  let next := next_seq_num_ p +₆₄ 1 in
  Publisher (updateNextRead (marketUpdates_ p)) next (u64 (next - 1)) (datagrams p)
    (midnight_reads p) None.

Definition set_blocked (s : option SnapshotUpdate) (p : publisher U) : publisher U :=
  Publisher (marketUpdates_ p) (next_seq_num_ p) (published_count_ p) (datagrams p)
    (midnight_reads p) s.

Definition read_midnight (p : publisher U) : publisher U :=
  Publisher (marketUpdates_ p) (next_seq_num_ p) (published_count_ p) (datagrams p)
    (Datatypes.S (midnight_reads p)) (blocked p).

(** A step of [run]: a blocked push is retried; otherwise the next update is
    encoded and sent, and its push begins. *)
Definition run_step (p : publisher U) (streamer_updates : S) : publisher U * S :=
  match blocked p with
  | Some snap =>
      match push snap streamer_updates with
      | (true, q) => (finish p, q)
      | (false, q) => (p, q)
      end
  | None =>
      match getNextRead (marketUpdates_ p) with
      | None => (p, streamer_updates)
      | Some update =>
          match encode update (nanos (midnight_reads p)) with
          | None => (finish p, streamer_updates)
          | Some m =>
              let snap := Snap update (next_seq_num_ p) (itch_bytes m) in
              (set_blocked (Some snap)
                 (sendToIncrementalNetwork (su_bytes_ snap) (read_midnight p)),
               streamer_updates)
          end
      end
  end.
End publisher.
