(* ===== verification/Streamer.v ===== *)
(** * Streamer: shadow book, snapshot and replay

    [src/src/network/market/snapshot_stream.h].  The streamer applies every
    sequenced update to a shadow book, keeps the last [REPLAY_CAPACITY] encoded
    updates in a ring, and answers recovery clients with a snapshot or a replay.

    A request is modelled by the bytes the client sends on its connection and
    the answer by the buffers passed to [sendAll].  The iteration order of an
    [unordered_map] is unspecified: it is the class [HashIteration]. *)

From S2P Require Import Prelude Types Queue Wire Itch Publisher.
Import Itch.

Definition SNAP_CTRL_START : Z := 0xBBBB.
Definition SNAP_CTRL_CLEAR : Z := 0xCCCC.
Definition SNAP_CTRL_END : Z := 0xEEEE.
Definition REPLAY_CAPACITY : Z := 8192.

Definition char_C : Z := 67.
Definition char_N : Z := 78.
Definition char_R : Z := 82.

Class HashIteration := iterate : gmap OrderId MEMarketUpdate → list (OrderId * MEMarketUpdate).
Class HashIterationLaws `{HashIteration} :=
  iterate_perm m : iterate m ≡ₚ map_to_list m.

Definition list_iteration : HashIteration := λ m, map_to_list m.
#[global] Instance list_iteration_laws : HashIterationLaws (H := list_iteration).
Proof. intros m. done. Qed.

(** [entry_bytes] are the first [len_] bytes of [bytes_]. *)
Record ReplayEntry := Entry { seq_be_ : list Z; entry_bytes : list Z }.

Record streamer := Streamer {
  shadow_book_ : list (gmap OrderId MEMarketUpdate);
  last_seq_num_ : Z;
  dirty_ : bool;
  replay_buffer_ : list ReplayEntry;
  snapshot_buf_ : list Z;
  stream_reads : nat
}.

Definition streamer_new (maxTickers : nat) : streamer :=
  Streamer (replicate maxTickers ∅) 0 false
    (replicate (Z.to_nat REPLAY_CAPACITY) (Entry (replicate 8 0) [])) [] 0.

(** ** The shadow book *)

Definition set_book (t : nat) (m : gmap OrderId MEMarketUpdate) (st : streamer) : streamer :=
  Streamer (<[t := m]> (shadow_book_ st)) (last_seq_num_ st) (dirty_ st) (replay_buffer_ st)
    (snapshot_buf_ st) (stream_reads st).

Definition with_id (id : OrderId) (u : MEMarketUpdate) : MEMarketUpdate :=
  mkUpdate (mu_ticker_id_ u) id (mu_type_ u) (mu_side_ u) (mu_price_ u) (mu_qty_ u)
    OrderId_INVALID (mu_match_id_ u).

Definition with_qty (q : Quantity) (u : MEMarketUpdate) : MEMarketUpdate :=
  mkUpdate (mu_ticker_id_ u) (mu_market_order_id_ u) (mu_type_ u) (mu_side_ u) (mu_price_ u) q
    (mu_new_order_id_ u) (mu_match_id_ u).

Definition with_type (t : UpdateType) (u : MEMarketUpdate) : MEMarketUpdate :=
  mkUpdate (mu_ticker_id_ u) (mu_market_order_id_ u) t (mu_side_ u) (mu_price_ u) (mu_qty_ u)
    (mu_new_order_id_ u) (mu_match_id_ u).

(** The switch of [applyToBook] on the map of one ticker. *)
Definition book_after (u : MEMarketUpdate) (orders : gmap OrderId MEMarketUpdate)
    : gmap OrderId MEMarketUpdate :=
  match mu_type_ u with
  | UPD_ADD => <[mu_market_order_id_ u := u]> orders
  | UPD_CANCEL => delete (mu_market_order_id_ u) orders
  | UPD_MODIFY =>
      <[mu_new_order_id_ u := with_id (mu_new_order_id_ u) u]>
        (delete (mu_market_order_id_ u) orders)
  | UPD_TRADE =>
      match orders !! mu_market_order_id_ u with
      | Some o =>
          if mu_qty_ o <=? mu_qty_ u then delete (mu_market_order_id_ u) orders
          else <[mu_market_order_id_ u := with_qty (u32 (mu_qty_ o - mu_qty_ u)) o]> orders
      | None => orders
      end
  | UPD_SNAPSHOT_START | UPD_SNAPSHOT_END | UPD_CLEAR => orders
  end.

Definition set_dirty (d : bool) (st : streamer) : streamer :=
  Streamer (shadow_book_ st) (last_seq_num_ st) d (replay_buffer_ st) (snapshot_buf_ st)
    (stream_reads st).

(** [shadow_book_[ticker]] is not bounds-checked. *)
Definition applyToBook (update : MEMarketUpdate) : M streamer unit :=
  if on_feed update then
    st ← get;
    match shadow_book_ st !! Z.to_nat (mu_ticker_id_ update) with
    | None => raise OutOfRange
    | Some orders =>
        modify (set_book (Z.to_nat (mu_ticker_id_ update)) (book_after update orders));;
        modify (set_dirty true)
    end
  else mret tt.

(** ** The replay ring *)

Definition slot (seq : Z) : nat := Z.to_nat (Z.land (u64 (seq - 1)) (REPLAY_CAPACITY - 1)).

Section streamer.
Context {S : Type} `{SPSCQueue SnapshotUpdate S} `{ByteSwap} `{ItchWire} `{HashIteration}.
(** [get_nanos_since_midnight()]: the [n]-th reading of the streamer thread. *)
Context (nanos : nat → Z).

Definition writeReplayEntry (snap : SnapshotUpdate) (st : streamer) : streamer :=
  Streamer (shadow_book_ st) (last_seq_num_ st) (dirty_ st)
    (<[slot (su_seq_num_ snap) := Entry (seq_prefix (su_seq_num_ snap)) (su_bytes_ snap)]>
       (replay_buffer_ st)) (snapshot_buf_ st) (stream_reads st).

Definition set_last (seq : Z) (st : streamer) : streamer :=
  Streamer (shadow_book_ st) seq (dirty_ st) (replay_buffer_ st) (snapshot_buf_ st)
    (stream_reads st).

(** One round of the draining loop of [run]. *)
Definition drain_one (streamer_updates : S) : M streamer S :=
  match getNextRead streamer_updates with
  | None => mret streamer_updates
  | Some snap =>
      applyToBook (su_update_ snap);;
      modify (writeReplayEntry snap);;
      modify (set_last (su_seq_num_ snap));;
      mret (updateNextRead streamer_updates)
  end.

(** ** Snapshots *)

(** [append_ctrl]: a control marker in an Order Delete frame. *)
Definition ctrl (code value : Z) (ns : Z) : option itch_msg :=
  Some (ItchDelete {|
    de_stock_locate := swap16 code; de_tracking_number := 0;
    de_timestamp := writeTimestamp ns; de_order_ref_num := swap64 value |}).

(** The frames of a snapshot in order, each a function of the clock reading its
    encoding takes. *)
Definition snapshot_frames (books : list (gmap OrderId MEMarketUpdate)) (last : Z)
    : list (Z → option itch_msg) :=
  [ctrl SNAP_CTRL_START last] ++
  concat (imap (λ t orders,
    ctrl SNAP_CTRL_CLEAR (Z.of_nat t) ::
    ((λ o, encode (with_type UPD_ADD o.2)) <$> iterate orders)) books) ++
  [ctrl SNAP_CTRL_END last].

(** The bytes of frames encoded one after the other from clock reading [n] on. *)
Fixpoint render (fs : list (Z → option itch_msg)) (n : nat) : list Z :=
  match fs with
  | [] => []
  | f :: fs' => from_option itch_bytes [] (f (nanos n)) ++ render fs' (Datatypes.S n)
  end.

Definition bakeSnapshot (st : streamer) : streamer :=
  let fs := snapshot_frames (shadow_book_ st) (last_seq_num_ st) in
  Streamer (shadow_book_ st) (last_seq_num_ st) false (replay_buffer_ st)
    (render fs (stream_reads st)) (stream_reads st + length fs).

(** ** Serving clients; the buffers given to [sendAll] *)

Definition serveSnapshot (st : streamer) : streamer * list (list Z) :=
  let st' := if dirty_ st || bool_decide (snapshot_buf_ st = []) then bakeSnapshot st else st in
  (st', [snapshot_buf_ st']).

(** The flattening loop: [count] entries from [seq] on. *)
Fixpoint flatten (count : nat) (seq : Z) (ring : list ReplayEntry) : list Z :=
  match count with
  | O => []
  | Datatypes.S count' =>
      match ring !! slot seq with
      | Some e => seq_be_ e ++ entry_bytes e ++ flatten count' (seq + 1) ring
      | None => flatten count' (seq + 1) ring
      end
  end.

Definition serveReplay (client_seq : Z) (st : streamer) : list (list Z) :=
  let last := last_seq_num_ st in
  if last <=? client_seq then [[char_C]]
  else
    let oldest_replayable := if REPLAY_CAPACITY <? last then last - REPLAY_CAPACITY else 0 in
    if client_seq <? oldest_replayable then [[char_N]]
    else [[char_R]; flatten (Z.to_nat (last - client_seq)) (client_seq + 1) (replay_buffer_ st)].

Definition handleClient (request : list Z) (st : streamer) : streamer * list (list Z) :=
  match request with
  | [] => (st, [])
  | c :: rest =>
      if c =? char_S then serveSnapshot st
      else if c =? char_R then
        if (length rest <? 8)%nat then (st, [])
        else (st, serveReplay (swap64 (of_host_bytes (take 8 rest))) st)
      else (st, [])
  end.
End streamer.
