(* ===== verification/FeedFacts.v ===== *)
(** * FeedFacts: runs of the market-data side

    Publisher, streamer queue and streamer under every interleaving of the
    engine's pushes, the two threads and recovery requests.  [feed_inv] ties
    the state to the engine's updates: the datagrams are these updates, numbered
    from 1 without a gap; the streamer has a prefix of them; its ring holds the
    last [REPLAY_CAPACITY] of that prefix, its shadow books are the fold of it,
    and a snapshot buffer that is not dirty is a snapshot of them. *)

From S2P Require Import Prelude Types Queue Wire Itch Publisher Streamer.
Import Itch.

(** ** The ring *)

Lemma slot_mod seq : 0 < seq < 2 ^ 64 → slot seq = Z.to_nat ((seq - 1) mod REPLAY_CAPACITY).
Proof.
  intros Hs. unfold slot. autorewrite with words.
  change (REPLAY_CAPACITY - 1) with (Z.ones 13). by rewrite Z.land_ones by lia.
Qed.

(** Sequence numbers less than a window apart have different slots. *)
Lemma slot_ne k j :
  0 < j < k → k < 2 ^ 64 → k - j < REPLAY_CAPACITY → slot k ≠ slot j.
Proof.
  intros Hj Hk Hd. rewrite !slot_mod by lia. unfold REPLAY_CAPACITY in *.
  intros Heq. apply Z2Nat.inj in Heq; try (apply Z.mod_pos_bound; lia).
  Z.div_mod_to_equations. lia.
Qed.

Lemma slot_lt seq : 0 < seq < 2 ^ 64 → (slot seq < Z.to_nat REPLAY_CAPACITY)%nat.
Proof.
  intros Hs. rewrite slot_mod by done. unfold REPLAY_CAPACITY.
  pose proof (Z.mod_pos_bound (seq - 1) 8192). lia.
Qed.

(** ** The system *)

Inductive feed_op :=
  | FEngine (u : MEMarketUpdate)    (** the engine pushes an update *)
  | FPublisher                      (** a step of the publisher thread *)
  | FStreamer                       (** the streamer drains one update *)
  | FClient (request : list Z).     (** a recovery client is served *)

Record feed (U S : Type) := Feed {
  fd_publisher : publisher U;
  fd_updates : S;
  fd_streamer : streamer;
  fd_input : list MEMarketUpdate;
  fd_answers : list (list (list Z))
}.
Arguments Feed {_ _} _ _ _ _ _.
Arguments fd_publisher {_ _} _.
Arguments fd_updates {_ _} _.
Arguments fd_streamer {_ _} _.
Arguments fd_input {_ _} _.
Arguments fd_answers {_ _} _.

Section system.
Context {U S : Type} `{SPSCQueue MEMarketUpdate U} `{SPSCQueue SnapshotUpdate S}.
Context `{ByteSwap} `{ItchWire} `{HashIteration} (pub_nanos str_nanos : nat → Z).

Definition feed_new (marketUpdates : U) (streamer_updates : S) (maxTickers : nat) : feed U S :=
  Feed (publisher_new marketUpdates) streamer_updates (streamer_new maxTickers) [] [].

Definition with_market (q : U) (p : publisher U) : publisher U :=
  Publisher q (next_seq_num_ p) (published_count_ p) (datagrams p) (midnight_reads p) (blocked p).

(** An update the engine cannot push yet stays with the engine, which blocks. *)
Definition feed_exec (op : feed_op) (f : feed U S) : outcome (feed U S) :=
  match op with
  | FEngine u =>
      match push u (marketUpdates_ (fd_publisher f)) with
      | (true, q) =>
          Ok (Feed (with_market q (fd_publisher f)) (fd_updates f) (fd_streamer f)
                (fd_input f ++ [u]) (fd_answers f))
      | (false, q) =>
          Ok (Feed (with_market q (fd_publisher f)) (fd_updates f) (fd_streamer f)
                (fd_input f) (fd_answers f))
      end
  | FPublisher =>
      let '(p, q) := run_step pub_nanos (fd_publisher f) (fd_updates f) in
      Ok (Feed p q (fd_streamer f) (fd_input f) (fd_answers f))
  | FStreamer =>
      match drain_one (fd_updates f) (fd_streamer f) with
      | Ok (q, st) => Ok (Feed (fd_publisher f) q st (fd_input f) (fd_answers f))
      | Fault e => Fault e
      end
  | FClient request =>
      let '(st, ans) := handleClient str_nanos request (fd_streamer f) in
      Ok (Feed (fd_publisher f) (fd_updates f) st (fd_input f) (fd_answers f ++ [ans]))
  end.

Fixpoint feed_run (ops : list feed_op) (f : feed U S) : outcome (feed U S) :=
  match ops with
  | [] => Ok f
  | op :: ops' =>
      match feed_exec op f with
      | Ok f' => feed_run ops' f'
      | Fault e => Fault e
      end
  end.

(** ** The invariant *)

Definition frame (s : SnapshotUpdate) : list Z := seq_prefix (su_seq_num_ s) ++ su_bytes_ s.

(** The [k]-th update, sequenced and encoded. *)
Record snap_ok (input : list MEMarketUpdate) (k : nat) (s : SnapshotUpdate) : Prop := {
  sn_seq : su_seq_num_ s = 1 + Z.of_nat k;
  sn_update : input !! k = Some (su_update_ s);
  sn_bytes : ∃ ns m, encode (su_update_ s) ns = Some m ∧ su_bytes_ s = itch_bytes m
}.

(** The shadow books after updates. *)
Definition books_after (books : list (gmap OrderId MEMarketUpdate)) (u : MEMarketUpdate)
    : list (gmap OrderId MEMarketUpdate) :=
  alter (book_after u) (Z.to_nat (mu_ticker_id_ u)) books.

Definition update_ok (maxTickers : nat) (u : MEMarketUpdate) : Prop :=
  on_feed u = true ∧ (Z.to_nat (mu_ticker_id_ u) < maxTickers)%nat.

(** What the streamer holds once it has drained the [snaps]. *)
Record stream_ok (maxTickers : nat) (snaps : list SnapshotUpdate) (st : streamer) : Prop := {
  so_last : last_seq_num_ st = Z.of_nat (length snaps);
  so_books :
    shadow_book_ st = foldl books_after (replicate maxTickers ∅) (su_update_ <$> snaps);
  so_ring_len : length (replay_buffer_ st) = Z.to_nat REPLAY_CAPACITY;
  so_ring k s :
    snaps !! k = Some s → Z.of_nat (length snaps) - REPLAY_CAPACITY ≤ Z.of_nat k →
    replay_buffer_ st !! slot (1 + Z.of_nat k) = Some (Entry (seq_prefix (su_seq_num_ s)) (su_bytes_ s));
  so_snapshot :
    dirty_ st = false →
    snapshot_buf_ st = [] ∨
    ∃ n, snapshot_buf_ st =
         render str_nanos (snapshot_frames (shadow_book_ st) (last_seq_num_ st)) n
}.

Context `{!SPSCQueueLaws MEMarketUpdate U} `{!SPSCQueueLaws SnapshotUpdate S} `{!ItchWireLaws}.

Record feed_inv (maxTickers : nat) (f : feed U S) (snaps : list SnapshotUpdate) (F D : nat)
    : Prop := {
  fi_snaps k s : snaps !! k = Some s → snap_ok (fd_input f) k s;
  fi_datagrams : datagrams (fd_publisher f) = frame <$> snaps;
  fi_finished :
    match blocked (fd_publisher f) with
    | None => F = length snaps
    | Some s => snaps !! F = Some s ∧ length snaps = Datatypes.S F
    end;
  fi_next : next_seq_num_ (fd_publisher f) = 1 + Z.of_nat F;
  fi_market : queued (marketUpdates_ (fd_publisher f)) = drop F (fd_input f);
  fi_le : (F ≤ length (fd_input f))%nat;
  fi_queue : queued (fd_updates f) = drop D (take F snaps);
  fi_drained : (D ≤ F)%nat;
  fi_stream : stream_ok maxTickers (take D snaps) (fd_streamer f)
}.

(** ** The streamer *)

Lemma books_after_length us books :
  length (foldl books_after books us) = length books.
Proof.
  revert books. induction us as [|u us IH]; intros books; simpl; [done|].
  rewrite IH. apply length_alter.
Qed.

Lemma stream_new_ok maxTickers : stream_ok maxTickers [] (streamer_new maxTickers).
Proof.
  split; simpl; try done; auto using length_replicate.
Qed.

(** Draining one update. *)
Lemma drain_step_ok maxTickers snaps st s q q' rest :
  stream_ok maxTickers snaps st → su_seq_num_ s = 1 + Z.of_nat (length snaps) →
  update_ok maxTickers (su_update_ s) → Z.of_nat (length snaps) + 1 < 2 ^ 64 →
  queued q = s :: rest → q' = updateNextRead q →
  ∃ st', drain_one q st = Ok (q', st') ∧ stream_ok maxTickers (snaps ++ [s]) st'.
Proof.
  intros [Hl Hb Hrl Hring _] Hseq [Hfeed Ht] Hlen Hq ->. unfold drain_one.
  rewrite (next_read_cons _ _ _ Hq). unfold applyToBook. rewrite Hfeed.
  destruct (lookup_lt_is_Some_2 (shadow_book_ st) (Z.to_nat (mu_ticker_id_ (su_update_ s))))
    as [orders Horders].
  { by rewrite Hb, books_after_length, length_replicate. }
  unfold mbind, M_bind, get, modify, mret, M_ret. rewrite Horders.
  eexists. split; [done|]. split; simpl.
  - rewrite length_app, Hseq. simpl. lia.
  - rewrite fmap_app, foldl_app, <- Hb. simpl. unfold books_after.
    apply list_eq. intros i. destruct (decide (i = Z.to_nat (mu_ticker_id_ (su_update_ s)))) as [->|Hne].
    + rewrite list_lookup_alter_eq, list_lookup_insert_eq, Horders; [done|].
      by eapply lookup_lt_Some.
    + by rewrite list_lookup_alter_ne, list_lookup_insert_ne by done.
  - by rewrite length_insert.
  - intros k s'. rewrite length_app. simpl. intros Hk Hwin. rewrite Hseq.
    destruct (decide (k = length snaps)) as [->|Hne].
    + rewrite lookup_app_r, Nat.sub_diag in Hk by lia. injection Hk as <-.
      rewrite list_lookup_insert_eq; [by rewrite Hseq|]. rewrite Hrl. apply slot_lt. lia.
    + pose proof (lookup_lt_Some _ _ _ Hk) as Hlt. rewrite length_app in Hlt. simpl in Hlt.
      rewrite lookup_app_l in Hk by lia.
      rewrite list_lookup_insert_ne; [apply Hring; [done|lia]|].
      apply slot_ne; unfold REPLAY_CAPACITY in *; lia.
  - done.
Qed.

(** *** Replays *)

Lemma flatten_ok maxTickers snaps st count c :
  stream_ok maxTickers snaps st → (∀ k s, snaps !! k = Some s → su_seq_num_ s = 1 + Z.of_nat k) →
  (c + count = length snaps)%nat → Z.of_nat (length snaps) - REPLAY_CAPACITY ≤ Z.of_nat c →
  flatten count (Z.of_nat c + 1) (replay_buffer_ st) = concat (frame <$> drop c snaps).
Proof.
  intros Hst Hseq. revert c. induction count as [|count IH]; intros c Hc Hwin; simpl.
  { by rewrite drop_ge by lia. }
  destruct (lookup_lt_is_Some_2 snaps c) as [s Hs]; [lia|].
  rewrite (drop_S _ _ _ Hs). replace (Z.of_nat c + 1) with (1 + Z.of_nat c) by lia.
  rewrite (so_ring _ _ _ Hst _ _ Hs Hwin), fmap_cons. cbn [concat seq_be_ entry_bytes].
  change (frame s) with (seq_prefix (su_seq_num_ s) ++ su_bytes_ s). rewrite <- app_assoc.
  do 2 f_equal. rewrite <- (IH (Datatypes.S c)) by lia. f_equal. lia.
Qed.

(** The answer to a replay request. *)
Definition replay_answer (frames : list (list Z)) (client_seq : Z) : list (list Z) :=
  let last := Z.of_nat (length frames) in
  if last <=? client_seq then [[char_C]]
  else if client_seq <? last - REPLAY_CAPACITY then [[char_N]]
  else [[char_R]; concat (drop (Z.to_nat client_seq) frames)].

Lemma serveReplay_ok maxTickers snaps st client_seq :
  stream_ok maxTickers snaps st → (∀ k s, snaps !! k = Some s → su_seq_num_ s = 1 + Z.of_nat k) →
  0 ≤ client_seq → serveReplay client_seq st = replay_answer (frame <$> snaps) client_seq.
Proof.
  intros Hst Hseq Hc. unfold serveReplay, replay_answer. rewrite (so_last _ _ _ Hst), length_fmap.
  destruct (Z.leb_spec (Z.of_nat (length snaps)) client_seq) as [|Hlt]; [done|].
  assert (Hold : (client_seq <? if REPLAY_CAPACITY <? Z.of_nat (length snaps)
                                then Z.of_nat (length snaps) - REPLAY_CAPACITY else 0) =
                 (client_seq <? Z.of_nat (length snaps) - REPLAY_CAPACITY)).
  { destruct (Z.ltb_spec REPLAY_CAPACITY (Z.of_nat (length snaps))); [done|].
    destruct (Z.ltb_spec client_seq 0), (Z.ltb_spec client_seq (Z.of_nat (length snaps) - REPLAY_CAPACITY));
      (done || lia). }
  rewrite Hold. destruct (Z.ltb_spec client_seq (Z.of_nat (length snaps) - REPLAY_CAPACITY)); [done|].
  do 2 f_equal.
  pose proof (flatten_ok maxTickers snaps st (Z.to_nat (Z.of_nat (length snaps) - client_seq))
    (Z.to_nat client_seq) Hst Hseq ltac:(lia) ltac:(lia)) as Hfl.
  rewrite Z2Nat.id in Hfl by done. rewrite Hfl. by rewrite fmap_drop.
Qed.

(** *** Snapshots *)

(** Whether baked now or before, the snapshot sent is one of the present book
    and sequence number. *)
Lemma serveSnapshot_ok maxTickers snaps st :
  stream_ok maxTickers snaps st →
  let '(st', ans) := serveSnapshot str_nanos st in
  stream_ok maxTickers snaps st' ∧
  ∃ n, ans = [render str_nanos (snapshot_frames (shadow_book_ st) (last_seq_num_ st)) n].
Proof.
  intros Hst. unfold serveSnapshot.
  destruct (dirty_ st || bool_decide (snapshot_buf_ st = [])) eqn:Hbake.
  - destruct Hst. split; [split; simpl; try done; eauto|]. by exists (stream_reads st).
  - split; [done|]. apply orb_false_iff in Hbake as [Hd Hne%bool_decide_eq_false].
    destruct (so_snapshot _ _ _ Hst Hd) as [?|[n Hn]]; [done|]. exists n. by rewrite Hn.
Qed.

Lemma handleClient_ok maxTickers snaps st request :
  stream_ok maxTickers snaps st →
  stream_ok maxTickers snaps (handleClient str_nanos request st).1.
Proof.
  intros Hst. destruct request as [|c rest]; simpl; [done|].
  destruct (c =? char_S); [|destruct (c =? char_R); [by destruct (_ <? _)%nat|done]].
  pose proof (serveSnapshot_ok maxTickers snaps st Hst) as Hs.
  destruct (serveSnapshot str_nanos st) as [st' ans]. apply Hs.
Qed.

(** ** The invariant holds *)

Lemma feed_new_inv maxTickers u q :
  queued u = [] → queued q = [] → feed_inv maxTickers (feed_new u q maxTickers) [] 0 0.
Proof.
  intros Hu Hq. split; simpl; try done; try lia. apply stream_new_ok.
Qed.

(** The engine pushes an update. *)
Lemma feed_pushed maxTickers f snaps F D u q :
  feed_inv maxTickers f snaps F D →
  queued q = queued (marketUpdates_ (fd_publisher f)) ++ [u] →
  feed_inv maxTickers (Feed (with_market q (fd_publisher f)) (fd_updates f) (fd_streamer f)
    (fd_input f ++ [u]) (fd_answers f)) snaps F D.
Proof.
  intros [Hs Hd Hfin Hn Hm Hle Hq HD Hst] Hq'. split; simpl; try done.
  - intros k s Hk. destruct (Hs k s Hk) as [? Hu ?]. split; [done| |done].
    rewrite lookup_app_l; [done|]. by eapply lookup_lt_Some.
  - by rewrite Hq', Hm, drop_app_le by lia.
  - rewrite length_app. lia.
Qed.

Lemma feed_engine maxTickers f snaps F D u :
  feed_inv maxTickers f snaps F D →
  ∃ f', feed_exec (FEngine u) f = Ok f' ∧ feed_inv maxTickers f' snaps F D ∧
        (fd_input f' = fd_input f ∨ fd_input f' = fd_input f ++ [u]).
Proof.
  intros Hinv. unfold feed_exec.
  destruct (decide (length (queued (marketUpdates_ (fd_publisher f))) <
                    capacity (marketUpdates_ (fd_publisher f)))%nat) as [Hlt|Hge].
  - destruct (push_room u _ Hlt) as (q' & -> & Hq' & _). eexists. split; [done|].
    split; [|by right]. by apply feed_pushed.
  - rewrite push_full by lia. eexists. split; [done|]. split; [|by left]. destruct Hinv. by split.
Qed.

(** A blocked push that finds room ends the iteration. *)
Lemma feed_unblock maxTickers f snaps F D s q' :
  feed_inv maxTickers f snaps F D → blocked (fd_publisher f) = Some s →
  Z.of_nat (length (fd_input f)) + 1 < 2 ^ 64 →
  queued q' = queued (fd_updates f) ++ [s] →
  feed_inv maxTickers (Feed (finish (fd_publisher f)) q' (fd_streamer f) (fd_input f) (fd_answers f))
    snaps (Datatypes.S F) D.
Proof.
  intros [Hs Hd Hfin Hn Hm Hle Hq HD Hst] Hb Hlen Hq'. rewrite Hb in Hfin.
  destruct Hfin as [HF Hsl]. pose proof (lookup_lt_Some _ _ _ (sn_update _ _ _ (Hs _ _ HF))) as Hlt.
  split; simpl; try done.
  - rewrite Hn. autorewrite with words. lia.
  - rewrite pop_queued, Hm. destruct (drop F (fd_input f)) eqn:Hdr; simpl;
      rewrite <- (Nat.add_1_r F), <- drop_drop, Hdr; done.
  - rewrite Hq', Hq, (take_S_r _ _ _ HF), drop_app_le; [done|]. rewrite length_take. lia.
  - lia.
Qed.

Lemma feed_publisher maxTickers f snaps F D :
  feed_inv maxTickers f snaps F D → Forall (update_ok maxTickers) (fd_input f) →
  Z.of_nat (length (fd_input f)) + 1 < 2 ^ 64 →
  ∃ f' snaps' F', feed_exec FPublisher f = Ok f' ∧ feed_inv maxTickers f' snaps' F' D ∧
    fd_input f' = fd_input f.
Proof.
  intros Hinv Hok Hlen. pose proof Hinv as [Hs Hd Hfin Hn Hm Hle Hq HD Hst].
  unfold feed_exec, run_step. destruct (blocked (fd_publisher f)) as [s|] eqn:Hb.
  - destruct (decide (length (queued (fd_updates f)) < capacity (fd_updates f))%nat) as [Hlt|Hge].
    + destruct (push_room s _ Hlt) as (q' & -> & Hq' & _). eexists _, snaps, (Datatypes.S F).
      split; [done|]. split; [|done]. by eapply feed_unblock.
    + rewrite push_full by lia. exists f, snaps, F. by destruct f.
  - rewrite next_read, Hm. destruct (drop F (fd_input f)) as [|u rest] eqn:Hdr; simpl.
    { exists f, snaps, F. by destruct f. }
    assert (Hu : fd_input f !! F = Some u).
    { replace F with (F + 0)%nat by lia. rewrite <- lookup_drop, Hdr. done. }
    destruct (proj1 (Forall_lookup _ _) Hok F u Hu) as [Hfeed Ht].
    destruct (encode_on_feed u (pub_nanos (midnight_reads (fd_publisher f))) Hfeed) as [m Hm'].
    rewrite Hm'. set (s := Snap u (next_seq_num_ (fd_publisher f)) (itch_bytes m)).
    exists (Feed (set_blocked (Some s) (sendToIncrementalNetwork (itch_bytes m)
              (read_midnight (fd_publisher f)))) (fd_updates f) (fd_streamer f) (fd_input f)
              (fd_answers f)), (snaps ++ [s]), F.
    split; [done|]. split; [|done]. subst F. split; simpl; try done.
    + intros k s'. destruct (decide (k = length snaps)) as [->|Hne].
      * rewrite lookup_app_r, Nat.sub_diag by lia. intros [= <-].
        split; simpl; [by rewrite Hn|done|eauto].
      * intros Hk. pose proof (lookup_lt_Some _ _ _ Hk) as Hlt. rewrite length_app in Hlt.
        simpl in Hlt. rewrite lookup_app_l in Hk by lia. by apply Hs.
    + by rewrite Hd, fmap_app.
    + rewrite lookup_app_r, Nat.sub_diag, length_app by lia. simpl. split; [done|lia].
    + by rewrite Hm.
    + by rewrite Hq, take_app_le by lia.
    + by rewrite take_app_le by lia.
Qed.

Lemma feed_streamer maxTickers f snaps F D :
  feed_inv maxTickers f snaps F D → Forall (update_ok maxTickers) (fd_input f) →
  Z.of_nat (length (fd_input f)) + 1 < 2 ^ 64 →
  ∃ f' D', feed_exec FStreamer f = Ok f' ∧ feed_inv maxTickers f' snaps F D' ∧
    fd_input f' = fd_input f.
Proof.
  intros Hinv Hok Hlen. pose proof Hinv as [Hs Hd Hfin Hn Hm Hle Hq HD Hst].
  unfold feed_exec. destruct (drop D (take F snaps)) as [|s rest] eqn:Hdr.
  { unfold drain_one. rewrite next_read, Hq. simpl. exists f, D. by destruct f. }
  assert (HDs : take F snaps !! D = Some s).
  { replace D with (D + 0)%nat by lia. rewrite <- lookup_drop, Hdr. done. }
  apply lookup_take_Some in HDs as [HDs HlF]. pose proof (lookup_lt_Some _ _ _ HDs) as Hlt.
  destruct (Hs D s HDs) as [Hseq Hup _].
  assert (HDlen : length (take D snaps) = D) by (rewrite length_take; lia).
  destruct (drain_step_ok maxTickers (take D snaps) (fd_streamer f) s (fd_updates f)
    (updateNextRead (fd_updates f)) rest Hst)
    as (st' & Hrun & Hst'); [by rewrite HDlen|by eapply (Forall_lookup_1 _ _ D)|lia|by rewrite Hq|done|].
  rewrite Hrun. eexists _, (Datatypes.S D). split; [done|]. split; [|done].
  split; simpl; try done.
  - rewrite pop_queued, Hq. simpl.
    rewrite <- (Nat.add_1_r D), <- drop_drop, Hdr. done.
  - by rewrite (take_S_r _ _ _ HDs).
Qed.

Lemma feed_step maxTickers f snaps F D op :
  feed_inv maxTickers f snaps F D → Forall (update_ok maxTickers) (fd_input f) →
  Z.of_nat (length (fd_input f)) + 1 < 2 ^ 64 →
  (∀ u, op = FEngine u → update_ok maxTickers u) →
  ∃ f' snaps' F' D', feed_exec op f = Ok f' ∧ feed_inv maxTickers f' snaps' F' D' ∧
    Forall (update_ok maxTickers) (fd_input f') ∧
    (length (fd_input f') ≤ Datatypes.S (length (fd_input f)))%nat.
Proof.
  intros Hinv Hok Hlen Hop. destruct op as [u| | |request].
  - destruct (feed_engine maxTickers f snaps F D u Hinv) as (f' & ? & ? & Hin).
    exists f', snaps, F, D. split_and!; [done..| |].
    + destruct Hin as [-> | ->]; [done|]. apply Forall_app. split; [done|].
      constructor; [by apply Hop|done].
    + destruct Hin as [-> | ->]; rewrite ?length_app; simpl; lia.
  - destruct (feed_publisher maxTickers f snaps F D Hinv Hok Hlen) as (f' & snaps' & F' & ? & ? & Hin).
    exists f', snaps', F', D. rewrite Hin. split_and!; (done || lia).
  - destruct (feed_streamer maxTickers f snaps F D Hinv Hok Hlen) as (f' & D' & ? & ? & Hin).
    exists f', snaps, F, D'. rewrite Hin. split_and!; (done || lia).
  - unfold feed_exec. pose proof (handleClient_ok maxTickers _ _ request (fi_stream _ _ _ _ _ Hinv)) as Hst.
    destruct (handleClient str_nanos request (fd_streamer f)) as [st ans].
    eexists _, snaps, F, D. split; [done|]. split; [|split; [done|simpl; lia]].
    destruct Hinv. by split.
Qed.

Lemma feed_run_ok maxTickers ops f snaps F D :
  feed_inv maxTickers f snaps F D → Forall (update_ok maxTickers) (fd_input f) →
  Z.of_nat (length (fd_input f)) + Z.of_nat (length ops) + 1 < 2 ^ 64 →
  (∀ u, FEngine u ∈ ops → update_ok maxTickers u) →
  ∃ f' snaps' F' D', feed_run ops f = Ok f' ∧ feed_inv maxTickers f' snaps' F' D'.
Proof.
  revert f snaps F D. induction ops as [|op ops IH]; intros f snaps F D Hinv Hok Hlen Hops; simpl in *.
  { by exists f, snaps, F, D. }
  destruct (feed_step maxTickers f snaps F D op Hinv Hok ltac:(lia)) as (f' & s' & F' & D' & -> & Hi & Ho & Hl).
  { intros u ->. apply Hops. by left. }
  apply (IH f' s' F' D'); [done|done|lia|]. intros u Hu. apply Hops. by right.
Qed.

(** What a subscriber and the streamer know of the same frames. *)
Lemma inv_seq maxTickers f snaps F D :
  feed_inv maxTickers f snaps F D →
  ∀ k s, take D snaps !! k = Some s → su_seq_num_ s = 1 + Z.of_nat k.
Proof.
  intros Hinv k s Hk. apply lookup_take_Some in Hk as [Hk _]. by apply (fi_snaps _ _ _ _ _ Hinv k s).
Qed.

(** The streamer's books are the fold of the input it has drained. *)
Lemma books_of_input maxTickers f snaps F D :
  feed_inv maxTickers f snaps F D →
  (Z.to_nat (last_seq_num_ (fd_streamer f)) ≤ length (fd_input f))%nat ∧
  shadow_book_ (fd_streamer f) =
    foldl books_after (replicate maxTickers ∅)
      (take (Z.to_nat (last_seq_num_ (fd_streamer f))) (fd_input f)).
Proof.
  intros Hinv. pose proof (fi_stream _ _ _ _ _ Hinv) as Hst.
  pose proof (fi_drained _ _ _ _ _ Hinv) as HD. pose proof (fi_finished _ _ _ _ _ Hinv) as HF.
  assert (HDs : (D ≤ length snaps)%nat) by (destruct (blocked (fd_publisher f)); lia).
  rewrite (so_books _ _ _ Hst), (so_last _ _ _ Hst), Nat2Z.id, length_take.
  rewrite Nat.min_l by lia. pose proof (fi_le _ _ _ _ _ Hinv). split; [lia|].
  f_equal. apply list_eq. intros i. rewrite list_lookup_fmap, !lookup_take.
  destruct (decide (i < D)%nat) as [Hi|Hi]; [|done].
  destruct (lookup_lt_is_Some_2 snaps i) as [sn Hsn]; [lia|]. rewrite Hsn. simpl.
  by rewrite (sn_update _ _ _ (fi_snaps _ _ _ _ _ Hinv i sn Hsn)).
Qed.
End system.
