(* ===== verification/MarketData.v ===== *)
(** * MarketData: what subscribers and recovery clients get

    The theorems on runs of publisher and streamer. *)

From S2P Require Import Prelude Types Queue Wire Itch Publisher Streamer FeedFacts.
Import Itch.

Section claims.
Context {U S : Type} `{SPSCQueueLaws MEMarketUpdate U} `{SPSCQueueLaws SnapshotUpdate S}.
Context `{ByteSwap} `{!ByteSwapLaws} `{ItchWire} `{!ItchWireLaws} `{HashIteration}.
Context (pub_nanos str_nanos : nat → Z).

(** The engine's side of a run: updates of the four feed types for listed
    tickers. *)
Definition feed_ready (maxTickers : nat) (ops : list feed_op) : Prop :=
  Z.of_nat (length ops) + 1 < 2 ^ 64 ∧ ∀ u, FEngine u ∈ ops → update_ok maxTickers u.

Lemma feed_start u s maxTickers ops :
  queued u = [] → queued s = [] → feed_ready maxTickers ops →
  ∃ f snaps F D, feed_run pub_nanos str_nanos ops (feed_new (U := U) (S := S) u s maxTickers) = Ok f ∧
    feed_inv str_nanos maxTickers f snaps F D.
Proof.
  intros Hu Hs [Hlen Hops].
  apply (feed_run_ok pub_nanos str_nanos maxTickers ops _ [] 0 0);
    [by apply feed_new_inv|constructor|simpl; lia|done].
Qed.

(** Whatever the interleaving of engine, publisher, streamer and recovery
    clients: the run does not fault, the k-th datagram is the sequence number k
    followed by the encoding of the engine's k-th update, so there are no gaps,
    duplicates or reorderings; the updates not yet finished are still in the
    queue, and the streamer is never ahead of the feed. *)
Theorem feed_gap_free (u : U) (s : S) (maxTickers : nat) (ops : list feed_op) :
  queued u = [] → queued s = [] → feed_ready maxTickers ops →
  ∃ f, feed_run pub_nanos str_nanos ops (feed_new u s maxTickers) = Ok f ∧
    (∀ k d, datagrams (fd_publisher f) !! k = Some d →
       ∃ upd ns m, fd_input f !! k = Some upd ∧ encode upd ns = Some m ∧
         d = seq_prefix (1 + Z.of_nat k) ++ itch_bytes m) ∧
    queued (marketUpdates_ (fd_publisher f)) =
      drop (Z.to_nat (next_seq_num_ (fd_publisher f) - 1)) (fd_input f) ∧
    0 ≤ last_seq_num_ (fd_streamer f) ≤ Z.of_nat (length (datagrams (fd_publisher f))).
Proof.
  intros Hu Hs Hops. destruct (feed_start u s maxTickers ops Hu Hs Hops) as (f & snaps & F & D & Hrun & Hinv).
  exists f. split; [done|]. rewrite (fi_datagrams _ _ _ _ _ _ Hinv). split_and!.
  - intros k d. rewrite list_lookup_fmap. destruct (snaps !! k) as [sn|] eqn:Hk; simpl; [|done].
    intros [= <-]. destruct (fi_snaps _ _ _ _ _ _ Hinv k sn Hk) as [Hseq Hup (ns & m & He & Hb)].
    exists (su_update_ sn), ns, m. split_and!; [done..|]. unfold frame. by rewrite Hseq, Hb.
  - rewrite (fi_market _ _ _ _ _ _ Hinv), (fi_next _ _ _ _ _ _ Hinv). f_equal. lia.
  - rewrite (so_last _ _ _ _ (fi_stream _ _ _ _ _ _ Hinv)). lia.
  - rewrite (so_last _ _ _ _ (fi_stream _ _ _ _ _ _ Hinv)), length_fmap, length_take. lia.
Qed.

(** A replay request as it arrives on the wire. *)
Definition replay_request (client_seq : Z) : list Z := char_R :: host_bytes 8 (swap64 client_seq).

(** A replay request is answered from the frames drained so far. *)
Lemma replay_request_ok maxTickers f snaps F D client_seq :
  feed_inv str_nanos maxTickers f snaps F D → 0 ≤ client_seq < 2 ^ 64 →
  handleClient str_nanos (replay_request client_seq) (fd_streamer f) =
    (fd_streamer f,
     replay_answer (take (Z.to_nat (last_seq_num_ (fd_streamer f))) (datagrams (fd_publisher f)))
       client_seq).
Proof.
  intros Hinv Hc. unfold handleClient, replay_request.
  change (char_R =? char_S) with false. change (char_R =? char_R) with true. cbn iota.
  pose proof (length_host_bytes 8 (swap64 client_seq) ltac:(lia)) as Hl.
  destruct (Nat.ltb_spec (length (host_bytes 8 (swap64 client_seq))) 8) as [?|_]; [lia|].
  rewrite take_ge by lia. rewrite host_bytes_roundtrip by (lia || apply swap64_range).
  rewrite swap64_swap64 by done.
  pose proof (fi_stream _ _ _ _ _ _ Hinv) as Hst. f_equal.
  rewrite (serveReplay_ok str_nanos maxTickers (take D snaps)); [|done|by eapply inv_seq|lia].
  rewrite (so_last _ _ _ _ Hst), (fi_datagrams _ _ _ _ _ _ Hinv), fmap_take. do 2 f_equal.
  rewrite Nat2Z.id, length_take.
  pose proof (fi_drained _ _ _ _ _ _ Hinv). pose proof (fi_finished _ _ _ _ _ _ Hinv).
  destruct (blocked (fd_publisher f)); lia.
Qed.

(** C14: After any run of the feed, in which the engine sends updates of listed
    tickers and of the kinds the feed carries, too few for a 64-bit counter to
    wrap, a client that asks for a replay from sequence number [client_seq] is
    told C when it is current, N when the gap is larger than the ring, and
    otherwise R followed by exactly the datagrams after [client_seq] up to the
    streamer's last sequence number, byte for byte as they were sent to the
    subscribers. *)
Theorem replay_is_exact (u : U) (s : S) (maxTickers : nat) (ops : list feed_op) (client_seq : Z) :
  queued u = [] → queued s = [] → feed_ready maxTickers ops → 0 ≤ client_seq < 2 ^ 64 →
  ∃ f, feed_run pub_nanos str_nanos ops (feed_new u s maxTickers) = Ok f ∧
    handleClient str_nanos (replay_request client_seq) (fd_streamer f) =
      (fd_streamer f,
       replay_answer (take (Z.to_nat (last_seq_num_ (fd_streamer f))) (datagrams (fd_publisher f)))
         client_seq).
Proof.
  intros Hu Hs Hops Hc.
  destruct (feed_start u s maxTickers ops Hu Hs Hops) as (f & snaps & F & D & Hrun & Hinv).
  exists f. split; [done|]. by apply (replay_request_ok maxTickers f snaps F D).
Qed.

(** C15: After any run of the feed, in which the engine sends updates of listed
    tickers and of the kinds the feed carries, too few for a 64-bit counter to
    wrap, a client that asks for a snapshot gets one of the present state,
    whether it was baked now or is the cached one: the frame with the streamer's
    last sequence number n, for every ticker a clear marker and one Add Order
    per order of the shadow book, the closing frame with n; and the shadow book
    is the fold of the first n updates of the engine. *)
Theorem snapshot_is_current (u : U) (s : S) (maxTickers : nat) (ops : list feed_op) :
  queued u = [] → queued s = [] → feed_ready maxTickers ops →
  ∃ f n, feed_run pub_nanos str_nanos ops (feed_new u s maxTickers) = Ok f ∧
    (handleClient str_nanos [char_S] (fd_streamer f)).2 =
      [render str_nanos
         (snapshot_frames (shadow_book_ (fd_streamer f)) (last_seq_num_ (fd_streamer f))) n] ∧
    shadow_book_ (fd_streamer f) =
      foldl books_after (replicate maxTickers ∅)
        (take (Z.to_nat (last_seq_num_ (fd_streamer f))) (fd_input f)).
Proof.
  intros Hu Hs Hops.
  destruct (feed_start u s maxTickers ops Hu Hs Hops) as (f & snaps & F & D & Hrun & Hinv).
  pose proof (fi_stream _ _ _ _ _ _ Hinv) as Hst.
  pose proof (serveSnapshot_ok str_nanos maxTickers (take D snaps) (fd_streamer f) Hst) as Hserve.
  destruct (serveSnapshot str_nanos (fd_streamer f)) as [st' ans] eqn:Hsv.
  destruct Hserve as [_ [n Hans]]. exists f, n. split; [done|]. split.
  - unfold handleClient. change (char_S =? char_S) with true. cbn iota. by rewrite Hsv.
  - by apply (books_of_input str_nanos maxTickers f snaps F D).
Qed.
End claims.

(** ** Concrete runs

    An order is added and partly executed; the streamer has both updates, a
    third one is still with the publisher. *)

Definition demo_update (t : UpdateType) (id qty : Z) : MEMarketUpdate :=
  mkUpdate 0 id t BUY 100 qty OrderId_INVALID 1.

Definition demo_feed_ops : list feed_op :=
  [ FEngine (demo_update UPD_ADD 7 10); FPublisher; FPublisher; FClient [char_S];
    FEngine (demo_update UPD_TRADE 7 4); FPublisher; FStreamer; FPublisher; FStreamer;
    FEngine (demo_update UPD_CANCEL 7 6); FPublisher ].

Definition demo_nanos (n : nat) : Z := 1000 + Z.of_nat n.

Lemma demo_feed_ready : feed_ready 1 demo_feed_ops.
Proof.
  split; [vm_compute; reflexivity|]. intros u Hu. unfold demo_feed_ops in Hu.
  repeat (apply elem_of_cons in Hu as [Hu|Hu]; [injection Hu as -> || discriminate Hu|]);
    try (split; [reflexivity|vm_compute; lia]). by apply elem_of_nil in Hu.
Qed.

Abbreviation demo_feed := (feed (list_queue MEMarketUpdate) (list_queue SnapshotUpdate)).
Definition demo_feed_start : demo_feed := feed_new (ListQueue 4 []) (ListQueue 4 []) 1.

(** Three datagrams were sent, with the sequence numbers 1, 2 and 3. *)
Lemma feed_gap_free_witness :
  ∃ f : demo_feed,
    feed_run (H3 := list_iteration) demo_nanos demo_nanos demo_feed_ops demo_feed_start = Ok f ∧
    (take 8 <$> datagrams (fd_publisher f)) = [seq_prefix 1; seq_prefix 2; seq_prefix 3] ∧
    last_seq_num_ (fd_streamer f) = 2.
Proof.
  destruct (feed_gap_free (H0 := list_queue_laws _) (H2 := list_queue_laws _) (H7 := list_iteration)
    demo_nanos demo_nanos (ListQueue 4 []) (ListQueue 4 []) 1 demo_feed_ops eq_refl eq_refl
    demo_feed_ready) as (f & Hrun & _).
  exists f. split; [exact Hrun|]. vm_compute in Hrun. injection Hrun as <-. split; reflexivity.
Defined.

(** A client that has seen datagram 1 gets datagram 2. *)
Lemma replay_is_exact_witness :
  ∃ f : demo_feed,
    feed_run (H3 := list_iteration) demo_nanos demo_nanos demo_feed_ops demo_feed_start = Ok f ∧
    (handleClient (H2 := list_iteration) demo_nanos (replay_request 1) (fd_streamer f)).2 =
      [[char_R]; default [] (datagrams (fd_publisher f) !! 1%nat)].
Proof.
  destruct (replay_is_exact (H0 := list_queue_laws _) (H2 := list_queue_laws _) (H7 := list_iteration)
    demo_nanos demo_nanos (ListQueue 4 []) (ListQueue 4 []) 1 demo_feed_ops 1 eq_refl eq_refl
    demo_feed_ready ltac:(lia)) as (f & Hrun & Hans).
  exists f. split; [exact Hrun|]. rewrite Hans. vm_compute in Hrun. injection Hrun as <-.
  vm_compute. reflexivity.
Defined.

(** The shadow book has 6 shares of order 7. *)
Lemma snapshot_is_current_witness :
  ∃ f : demo_feed,
    feed_run (H3 := list_iteration) demo_nanos demo_nanos demo_feed_ops demo_feed_start = Ok f ∧
    ((λ m : gmap OrderId MEMarketUpdate, mu_qty_ <$> m !! 7) <$> shadow_book_ (fd_streamer f)) =
      [Some 6].
Proof.
  destruct (snapshot_is_current (H0 := list_queue_laws _) (H2 := list_queue_laws _)
    (H7 := list_iteration) demo_nanos demo_nanos (ListQueue 4 []) (ListQueue 4 []) 1 demo_feed_ops
    eq_refl eq_refl demo_feed_ready) as (f & n & Hrun & _ & Hbook).
  exists f. split; [exact Hrun|]. rewrite Hbook. vm_compute in Hrun. injection Hrun as <-.
  vm_compute. reflexivity.
Defined.
