(* ===== verification/ShadowBook.v ===== *)
(** * ShadowBook: does the feed describe the market?

    The shadow book of the streamer is a fold of the updates the engine sends.
    A [market_view] is what it is meant to show: side, price and remaining
    quantity of every resting order by market order id.  On a request that is
    [told_truly] the updates turn the view of the book before it into the view
    of the book after it. *)

From S2P Require Import Prelude Types BookSpec DList Memory StoreRep BookSpecFacts BookTime MatchingEngine Streamer FeedFacts.

Definition view := (Side * Price * Quantity)%type.
Abbreviation market_view := (gmap OrderId view).

Definition order_view (o : MEOrder) : view := (o_side_ o, o_price_ o, o_remainingQuantity_ o).
Definition update_view (u : MEMarketUpdate) : view := (mu_side_ u, mu_price_ u, mu_qty_ u).

Definition book_view (os : list MEOrder) : market_view :=
  list_to_map ((λ o, (o_marketOrderId_ o, order_view o)) <$> os).
Definition shadow_view (orders : gmap OrderId MEMarketUpdate) : market_view := update_view <$> orders.

(** [book_after], seen through the view. *)
Definition view_after (v : market_view) (u : MEMarketUpdate) : market_view :=
  match mu_type_ u with
  | UPD_ADD => <[mu_market_order_id_ u := update_view u]> v
  | UPD_CANCEL => delete (mu_market_order_id_ u) v
  | UPD_MODIFY => <[mu_new_order_id_ u := update_view u]> (delete (mu_market_order_id_ u) v)
  | UPD_TRADE =>
      match v !! mu_market_order_id_ u with
      | Some (s, p, q) =>
          if q <=? mu_qty_ u then delete (mu_market_order_id_ u) v
          else <[mu_market_order_id_ u := (s, p, u32 (q - mu_qty_ u))]> v
      | None => v
      end
  | UPD_SNAPSHOT_START | UPD_SNAPSHOT_END | UPD_CLEAR => v
  end.

Lemma shadow_view_after u orders :
  shadow_view (book_after u orders) = view_after (shadow_view orders) u.
Proof.
  unfold shadow_view, book_after, view_after. destruct (mu_type_ u); try done.
  - by rewrite fmap_insert.
  - by rewrite fmap_delete.
  - by rewrite fmap_insert, fmap_delete.
  - rewrite lookup_fmap. destruct (orders !! mu_market_order_id_ u) as [o|]; simpl; [|done].
    destruct (mu_qty_ o <=? mu_qty_ u); [by rewrite fmap_delete|by rewrite fmap_insert].
Qed.

(** ** Views of lists of orders *)

Definition mids_ok (os : list MEOrder) : Prop := NoDup (o_marketOrderId_ <$> os).

Lemma mids_fst os :
  ((λ o, (o_marketOrderId_ o, order_view o)) <$> os).*1 = o_marketOrderId_ <$> os.
Proof. rewrite <- list_fmap_compose. by apply list_fmap_ext. Qed.

Lemma book_view_lookup os id w :
  mids_ok os → book_view os !! id = Some w ↔ ∃ o, o ∈ os ∧ o_marketOrderId_ o = id ∧ order_view o = w.
Proof.
  intros Hnd. unfold book_view. rewrite <- elem_of_list_to_map by (by rewrite mids_fst).
  rewrite list_elem_of_fmap. naive_solver.
Qed.

Lemma book_view_cons o os :
  book_view (o :: os) = <[o_marketOrderId_ o := order_view o]> (book_view os).
Proof. done. Qed.

Lemma book_view_fresh os id : id ∉ o_marketOrderId_ <$> os → book_view os !! id = None.
Proof. intros Hid. apply not_elem_of_list_to_map_1. by rewrite mids_fst. Qed.

Lemma book_view_perm os os' : mids_ok os → os ≡ₚ os' → book_view os = book_view os'.
Proof.
  intros Hnd Hp. apply list_to_map_proper; [by rewrite mids_fst|]. by apply fmap_Permutation.
Qed.

Lemma mids_perm os os' : os ≡ₚ os' → mids_ok os → mids_ok os'.
Proof. intros Hp. unfold mids_ok. by rewrite Hp. Qed.

(** Deleting an order by its client's key deletes it by its market order id. *)
Lemma book_view_delete k os old :
  mids_ok os → NoDup (key <$> os) → old ∈ os → key old = k →
  book_view (List.filter (λ o, negb (has_key k o)) os) =
  delete (o_marketOrderId_ old) (book_view os).
Proof.
  intros Hm Hk Hin Hkey. apply map_eq. intros id. apply option_eq. intros w.
  assert (Hm' : mids_ok (List.filter (λ o, negb (has_key k o)) os)).
  { unfold mids_ok. eapply sublist_NoDup; [exact Hm|]. clear.
    induction os as [|o os IH]; simpl; [done|]. destruct (negb _); by constructor. }
  rewrite lookup_delete_Some, !book_view_lookup by done.
  assert (Hf : ∀ o, o ∈ List.filter (λ o, negb (has_key k o)) os ↔ o ∈ os ∧ key o ≠ k).
  { intros o. rewrite !list_elem_of_In, filter_In, negb_true_iff.
    unfold has_key. by rewrite bool_decide_eq_false. }
  setoid_rewrite Hf. split.
  - intros (o & [Ho Hne] & <- & <-). split; [|by exists o]. intros Heq.
    apply Hne. by rewrite <- (NoDup_fmap_eq _ _ _ _ Hm Hin Ho Heq).
  - intros (Hne & o & Ho & <- & <-). exists o. split_and!; try done. intros Heq.
    apply Hne. by rewrite (NoDup_fmap_eq key _ _ _ Hk Hin Ho (eq_trans Hkey (eq_sym Heq))).
Qed.

(** ** Matching *)

Lemma updates_fills v a fs :
  updates (fs ≫= fill_events v a) =
  (λ f, trade_update a (f_order f) (f_qty f)
          (match v with MapBook => f_mid f | VectorBook => OrderId_INVALID end)) <$> fs.
Proof.
  induction fs as [|f fs IH]; [done|]. rewrite bind_cons, updates_app, IH. done.
Qed.

(** An execution against the first order of a list. *)
Lemma view_trade a o os q mid :
  o_marketOrderId_ o ∉ o_marketOrderId_ <$> os →
  view_after (book_view (o :: os)) (trade_update a o q mid) =
  if o_remainingQuantity_ o <=? q then book_view os
  else book_view (set_remaining (u32 (o_remainingQuantity_ o - q)) o :: os).
Proof.
  intros Hfresh. unfold view_after. simpl. rewrite book_view_cons, lookup_insert_eq.
  unfold order_view at 1. destruct (o_remainingQuantity_ o <=? q).
  - rewrite delete_insert_id; [done|]. by apply book_view_fresh.
  - by rewrite insert_insert_eq.
Qed.

Lemma view_sweep v a side price rem mid os rest os' rem' mid' fs :
  0 ≤ rem → Forall qty_ok os → s_sweep side price rem mid os = (os', rem', mid', fs) →
  mids_ok (os ++ rest) →
  foldl view_after (book_view (os ++ rest)) (updates (fs ≫= fill_events v a)) =
  book_view (os' ++ rest).
Proof.
  rewrite updates_fills. intros Hrem HQ Hsw. revert Hrem HQ Hsw.
  apply (s_sweep_ind side price (λ _ _ os os' _ _ fs, mids_ok (os ++ rest) →
    foldl view_after (book_view (os ++ rest)) (_ <$> fs) = book_view (os' ++ rest))); [done|..].
  - intros r m o l Hr Hq _ f Haft _ Hnd. simpl. apply NoDup_cons in Hnd as [Hfr _].
    rewrite view_trade by done. unfold f_after in Haft. simpl in Haft.
    destruct (Z.leb_spec (o_remainingQuantity_ o) (Z.min r (o_remainingQuantity_ o))); [lia|].
    rewrite u32_small; [done|]. destruct Hq as [Hq1 Hq2]. lia.
  - intros r m o l l' r' m' fs' Hr Hq _ f Haft IH Hnd. simpl. apply NoDup_cons in Hnd as [Hfr Hnd].
    rewrite view_trade by done. unfold f_after in Haft. simpl in Haft.
    destruct (Z.leb_spec (o_remainingQuantity_ o) (Z.min r (o_remainingQuantity_ o))); [|lia].
    by apply IH.
Qed.

(** The orders of a book with one side in front. *)
Lemma s_orders_side s sb : s_orders sb ≡ₚ s_side s sb ++ s_side (opposite s) sb.
Proof. destruct s; simpl; [done|]. unfold s_orders. apply Permutation_app_comm. Qed.

Lemma view_match v a sb io sb' io' rem :
  s_wf sb → 0 ≤ a_initialQuantity a → mids_ok (s_orders sb) →
  s_match v a sb io = (sb', io', rem) →
  ∃ evs, sent io' = sent io ++ evs ∧ mids_ok (s_orders sb') ∧
    foldl view_after (book_view (s_orders sb)) (updates evs) = book_view (s_orders sb').
Proof.
  intros Hw Hq Hnd Hm. pose proof (s_match_matched v a sb io sb' io' rem Hw Hq Hm) as Hmd.
  assert (Hnd' : mids_ok (s_orders sb')).
  { unfold mids_ok. eapply sublist_NoDup; [exact Hnd|]. apply thins_fmap; [done|]. intros s. apply (md_thin _ _ _ _ Hmd). }
  unfold s_match in Hm. destruct (s_sweep _ _ _ _ _) as [[[os' rem'] mid'] fs] eqn:Hsw.
  injection Hm as <- <- <-. simpl. eexists. split; [done|]. split; [done|].
  set (opp := opposite (a_side a)) in *.
  rewrite (book_view_perm _ _ Hnd (s_orders_side opp sb)).
  rewrite (view_sweep v a _ _ _ _ _ (s_side (opposite opp) sb) _ _ _ _ Hq (wf_qty _ Hw opp) Hsw)
    by (by eapply mids_perm; [apply s_orders_side|]).
  rewrite (book_view_perm _ _ Hnd' (s_orders_side opp _)), !s_side_set.
  rewrite decide_True by done. rewrite decide_False by (unfold opp; by destruct (a_side a)). done.
Qed.

(** ** Requests *)

(** The requests whose updates describe what happens to the book: no cancel of a
    part of an order, and no replacement that trades on arrival; with the vector
    book no fill-and-kill replacement either. *)
Definition told_truly (v : variant) (rq : MEClientRequest) (sb : sbook) : Prop :=
  ∀ o, s_find (rq_client_id_ rq, rq_client_order_id_ rq) sb = Some o →
  match rq_action_ rq with
  | REQ_NEW => True
  | REQ_CANCEL => rq_qty_ rq = 0 ∨ o_remainingQuantity_ o ≤ rq_qty_ rq
  | REQ_MODIFY =>
      clear_of (o_side_ o) (rq_price_ rq) (s_side (opposite (o_side_ o)) sb) ∧
      (v = MapBook ∨ rq_type_ rq = GoodTillCancel)
  end.

(** The effect of one request on the feed. *)
Definition tells (sb sb' : sbook) (io io' : engine_io) : Prop :=
  ∃ evs, sent io' = sent io ++ evs ∧
    foldl view_after (book_view (s_orders sb)) (updates evs) = book_view (s_orders sb').

Lemma tells_quiet sb io r : tells sb sb io (emit [Resp r] io).
Proof. by exists [Resp r]. Qed.

(** An order that comes to rest. *)
Lemma view_insert a q sb :
  mids_ok (s_orders sb) → a_marketOrderId a ∉ o_marketOrderId_ <$> s_orders sb →
  book_view (s_orders (s_insert a q sb)) =
  <[a_marketOrderId a := (a_side a, a_price a, q)]> (book_view (s_orders sb)).
Proof.
  intros Hnd Hfr. symmetry. apply (book_view_perm (resting_order a q :: s_orders sb)).
  - by apply NoDup_cons.
  - by rewrite s_insert_orders.
Qed.

Lemma thins_mids sb sb' id :
  thins sb sb' → id ∉ o_marketOrderId_ <$> s_orders sb → id ∉ o_marketOrderId_ <$> s_orders sb'.
Proof.
  intros Ht Hid Hin. apply Hid. eapply sublist_subseteq; [|exact Hin]. by apply thins_fmap.
Qed.

(** The next market order id is on no book. *)
Lemma next_fresh sb : s_timed sb → s_next sb ∉ o_marketOrderId_ <$> s_orders sb.
Proof.
  intros Ht (o & Heq & Ho)%list_elem_of_fmap. pose proof (td_below _ Ht) as HF.
  rewrite Forall_forall in HF. specialize (HF o Ho). simpl in HF. lia.
Qed.

Lemma add_tells v t c id ty p q s tk sb io :
  s_wf sb → s_timed sb → 0 ≤ q →
  let r := s_addOrder v t c id ty p q s tk sb io in tells sb r.1 io r.2.
Proof.
  intros Hw Ht Hq. unfold s_addOrder.
  match goal with |- context [s_match v ?a] => set (a0 := a) end.
  destruct (s_match v a0 _ _) as [[b1 io1] rem] eqn:Hm.
  pose proof (s_match_matched v a0 _ _ _ _ _ (wf_bump _ Hw) Hq Hm) as Hmd.
  destruct (view_match v a0 _ _ _ _ _ (wf_bump _ Hw) Hq (td_ids _ Ht) Hm) as (evs & Hs & Hnd & Hv).
  assert (Hfr : a_marketOrderId a0 ∉ o_marketOrderId_ <$> s_orders b1).
  { eapply thins_mids; [|exact (next_fresh _ Ht)]. intros s0. apply (md_thin _ _ _ _ Hmd s0). }
  simpl in Hs. rewrite <- app_assoc in Hs.
  destruct (rem >? 0); [destruct ty|]; simpl.
  - eexists. split; [simpl; by rewrite Hs, <- app_assoc|].
    rewrite !updates_app, foldl_app. simpl. change (s_orders (s_bump sb)) with (s_orders sb) in Hv.
    by rewrite Hv, view_insert.
  - eexists. split; [simpl; by rewrite Hs, <- app_assoc|].
    rewrite !updates_app, app_nil_r. exact Hv.
  - eexists. split; [exact Hs|]. exact Hv.
Qed.

Lemma delete_view k sb o :
  s_wf sb → s_timed sb → s_find k sb = Some o →
  book_view (s_orders (s_delete k sb)) = delete (o_marketOrderId_ o) (book_view (s_orders sb)).
Proof.
  intros Hw Ht Hf. apply s_find_some in Hf as [Hin Hk].
  unfold s_delete, s_orders at 1. simpl. rewrite <- List.filter_app.
  apply book_view_delete; [apply Ht|apply Hw|done|done].
Qed.

Lemma cancel_tells v t c id q tk sb io :
  s_wf sb → s_timed sb → 0 ≤ q →
  (∀ o, s_find (c, id) sb = Some o → q = 0 ∨ o_remainingQuantity_ o ≤ q) →
  let r := s_cancelOrder v t c id q tk sb io in tells sb r.1 io r.2.
Proof.
  intros Hw Ht Hq Htrue. unfold s_cancelOrder.
  destruct (s_find (c, id) sb) as [o|] eqn:Hf; [|apply tells_quiet].
  specialize (Htrue o eq_refl). pose proof (s_find_qty _ _ _ Hw Hf) as [Hpos _].
  destruct (Z.eqb_spec q 0) as [->|Hne]; cbv zeta.
  - destruct (o_remainingQuantity_ o >? o_remainingQuantity_ o) eqn:Hgt; [lia|].
    rewrite Z.sub_diag. simpl. eexists. split; [done|]. simpl. by rewrite (delete_view _ _ _ Hw Ht Hf).
  - destruct (q >? o_remainingQuantity_ o) eqn:Hgt; [apply tells_quiet|].
    assert (q = o_remainingQuantity_ o) as -> by lia.
    rewrite Z.sub_diag. simpl. eexists. split; [done|]. simpl. by rewrite (delete_view _ _ _ Hw Ht Hf).
Qed.

(** Nothing trades against a side the limit does not reach. *)
Lemma match_clear v a sb io :
  clear_of (a_side a) (a_price a) (s_side (opposite (a_side a)) sb) →
  ∃ io', s_match v a sb io =
           (s_set (opposite (a_side a)) (s_side (opposite (a_side a)) sb) sb, io', a_initialQuantity a) ∧
         sent io' = sent io.
Proof.
  intros Hc. unfold s_match. destruct Hc as [|o os Ho Hc]; simpl.
  - eexists. split; [done|]. simpl. by rewrite app_nil_r.
  - rewrite Ho, orb_true_r. eexists. split; [done|]. simpl. by rewrite app_nil_r.
Qed.

Lemma s_set_id s sb : s_set s (s_side s sb) sb = sb.
Proof. by destruct s, sb. Qed.

Lemma replace_tells v t c id id' ty p q tk sb io :
  s_wf sb → s_timed sb → 0 ≤ q →
  (∀ o, s_find (c, id) sb = Some o →
     clear_of (o_side_ o) p (s_side (opposite (o_side_ o)) sb) ∧
     (v = MapBook ∨ ty = GoodTillCancel)) →
  let r := s_replaceOrder v t c id id' ty p q tk sb io in tells sb r.1 io r.2.
Proof.
  intros Hw Ht Hq Htrue. unfold s_replaceOrder.
  destruct (s_find (c, id) sb) as [old|] eqn:Hf; [|apply tells_quiet].
  destruct (Htrue old eq_refl) as [Hclear Hty].
  destruct ((id' =? 0) || (q =? 0)) eqn:Hz; [apply tells_quiet|]. apply orb_false_iff in Hz as [_ Hz].
  match goal with |- context [s_match v ?a] => set (a0 := a) end.
  assert (Hclear' : clear_of (a_side a0) (a_price a0)
            (s_side (opposite (a_side a0)) (s_delete (c, id) (s_bump sb)))).
  { rewrite s_side_delete. unfold clear_of in *. rewrite Forall_forall in Hclear |- *. intros o Ho.
    apply Hclear. rewrite list_elem_of_In, filter_In, <- list_elem_of_In in Ho.
    destruct Ho as [Ho _]. simpl in Ho. by destruct (o_side_ old). }
  destruct (match_clear v a0 (s_delete (c, id) (s_bump sb))
    (emit [Resp (replaced_response a0); Upd (modify_update a0 (o_marketOrderId_ old))] io) Hclear')
    as (io1 & -> & Hs). rewrite s_set_id. simpl a_initialQuantity. rewrite Hz.
  assert (Hdel : book_view (s_orders (s_delete (c, id) (s_bump sb))) =
                 delete (o_marketOrderId_ old) (book_view (s_orders sb)))
    by exact (delete_view (c, id) sb old Hw Ht Hf).
  assert (Hth : thins sb (s_delete (c, id) sb)) by (intros s0; by apply delete_thins).
  assert (Hfr : a_marketOrderId a0 ∉ o_marketOrderId_ <$> s_orders (s_delete (c, id) (s_bump sb))).
  { exact (thins_mids sb (s_delete (c, id) sb) _ Hth (next_fresh sb Ht)). }
  assert (Hnd : mids_ok (s_orders (s_delete (c, id) (s_bump sb)))).
  { unfold mids_ok. eapply sublist_NoDup; [exact (td_ids _ Ht)|].
    by apply (thins_fmap o_marketOrderId_ sb (s_delete (c, id) sb)). }
  destruct ty; simpl.
  - eexists. split; [exact Hs|]. simpl. rewrite view_insert, Hdel by done. done.
  - destruct Hty as [->|?]; [|done]. simpl. eexists.
    split; [simpl; rewrite Hs; simpl; by rewrite <- app_assoc|]. simpl. rewrite Hdel. unfold view_after at 1. simpl. apply delete_insert_id.
    rewrite <- Hdel. by apply book_view_fresh.
Qed.

Lemma dispatch_tells v rq sb io :
  s_wf sb → s_timed sb → 0 ≤ rq_qty_ rq → told_truly v rq sb →
  let r := s_dispatch v rq sb io in tells sb r.1 io r.2.
Proof.
  intros Hw Ht Hq Htrue. unfold s_dispatch. unfold told_truly in Htrue.
  destruct (rq_action_ rq); [by apply add_tells|by apply cancel_tells|by apply replace_tells].
Qed.

(** ** Runs *)

(** Events that were sent in between, all about one ticker and of a feed type. *)
Definition about (t : TickerId) (u : MEMarketUpdate) : Prop :=
  mu_ticker_id_ u = t ∧ Itch.Itch.on_feed u = true.

Definition sends_about (t : TickerId) (io io' : engine_io) : Prop :=
  ∃ evs, sent io' = sent io ++ evs ∧ Forall (about t) (updates evs).

Lemma sends_emit t evs io :
  Forall (about t) (updates evs) → sends_about t io (emit evs io).
Proof. intros HF. by exists evs. Qed.

Lemma sends_trans t io1 io2 io3 :
  sends_about t io1 io2 → sends_about t io2 io3 → sends_about t io1 io3.
Proof.
  intros (e1 & H1 & F1) (e2 & H2 & F2). exists (e1 ++ e2). rewrite H2, H1, app_assoc. split; [done|].
  rewrite updates_app. by apply Forall_app.
Qed.

Lemma sends_match v a sb io :
  let r := s_match v a sb io in sends_about (a_tickerId a) io r.1.2.
Proof.
  unfold s_match. destruct (s_sweep _ _ _ _ _) as [[[os' rem'] mid'] fs]. simpl.
  exists (fs ≫= fill_events v a). split; [done|]. rewrite updates_fills. apply Forall_fmap.
  apply Forall_true. by intros f.
Qed.

Lemma dispatch_about v rq sb io :
  sends_about (rq_ticker_id_ rq) io (s_dispatch v rq sb io).2.
Proof.
  unfold s_dispatch. destruct (rq_action_ rq).
  - unfold s_addOrder. match goal with |- context [s_match v ?a ?b ?i] =>
      pose proof (sends_match v a b i) as Hm; destruct (s_match v a b i) as [[b1 io1] rem] end.
    simpl in Hm. apply (sends_trans _ io) in Hm; [|by apply sends_emit; repeat constructor].
    destruct (rem >? 0); [destruct (rq_type_ rq)|]; try done; simpl;
      (eapply sends_trans; [exact Hm|]); apply sends_emit; repeat constructor.
  - unfold s_cancelOrder. destruct (s_find _ sb); [|apply sends_emit; constructor].
    destruct (_ >? _); apply sends_emit; repeat constructor.
  - unfold s_replaceOrder. destruct (s_find _ sb); [|apply sends_emit; constructor].
    destruct (_ || _); [apply sends_emit; constructor|].
    match goal with |- context [s_match v ?a ?b ?i] =>
      pose proof (sends_match v a b i) as Hm; destruct (s_match v a b i) as [[b1 io1] rem] end.
    simpl in Hm. apply (sends_trans _ io) in Hm; [|by apply sends_emit; repeat constructor].
    destruct (rem =? 0); [done|]. destruct (rq_type_ rq), v; try done; simpl;
      (eapply sends_trans; [exact Hm|]); apply sends_emit; repeat constructor.
Qed.

(** *** Replacements name what they replace

    A MODIFY of the feed does not carry the side on the wire: whoever follows the
    feed has to know it from the order replaced.  A sequence of updates is
    [coherent] if every MODIFY names an order that is in the view, on its side. *)

Definition names_known (v : market_view) (u : MEMarketUpdate) : Prop :=
  mu_type_ u = UPD_MODIFY → ∃ p q, v !! mu_market_order_id_ u = Some (mu_side_ u, p, q).

Fixpoint coherent_view (v : market_view) (us : list MEMarketUpdate) : Prop :=
  match us with
  | [] => True
  | u :: us' => names_known v u ∧ coherent_view (view_after v u) us'
  end.

Definition plain (u : MEMarketUpdate) : Prop := mu_type_ u ≠ UPD_MODIFY.

Lemma coherent_plain v us : Forall plain us → coherent_view v us.
Proof. intros HF. revert v. induction HF; intros v; simpl; [done|]. by split; [intros ?|]. Qed.

Definition sends_plain (io io' : engine_io) : Prop :=
  ∃ evs, sent io' = sent io ++ evs ∧ Forall plain (updates evs).

Lemma plain_emit evs io io' :
  sends_plain io io' → Forall plain (updates evs) → sends_plain io (emit evs io').
Proof.
  intros (e & He & HF) Hevs. exists (e ++ evs). simpl. rewrite He, app_assoc. split; [done|].
  rewrite updates_app. by apply Forall_app.
Qed.

Lemma plain_refl io : sends_plain io io.
Proof. exists []. by rewrite app_nil_r. Qed.

Lemma plain_match v a sb io : sends_plain io (s_match v a sb io).1.2.
Proof.
  unfold s_match. destruct (s_sweep _ _ _ _ _) as [[[os' rem'] mid'] fs]. simpl.
  exists (fs ≫= fill_events v a). split; [done|]. rewrite updates_fills. apply Forall_fmap.
  by apply Forall_true.
Qed.

Definition sends_coherent (sb : sbook) (io io' : engine_io) : Prop :=
  ∃ evs, sent io' = sent io ++ evs ∧ coherent_view (book_view (s_orders sb)) (updates evs).

Lemma coherent_plainly sb io io' : sends_plain io io' → sends_coherent sb io io'.
Proof. intros (evs & He & HF). exists evs. split; [done|]. by apply coherent_plain. Qed.

Lemma add_coherent v t c id ty p q s tk sb io :
  sends_coherent sb io (s_addOrder v t c id ty p q s tk sb io).2.
Proof.
  apply coherent_plainly. unfold s_addOrder. match goal with |- context [s_match v ?a ?b ?i] =>
    pose proof (plain_match v a b i) as Hm; destruct (s_match v a b i) as [[b1 io1] rem] end.
  destruct Hm as (evs & He & HF). simpl in He. rewrite <- app_assoc in He.
  assert (Hio : sends_plain io io1) by (eexists; split; [exact He|done]).
  destruct (rem >? 0); [destruct ty|]; try done; simpl; apply plain_emit; try done; by repeat constructor.
Qed.

Lemma cancel_coherent v t c id q tk sb io :
  sends_coherent sb io (s_cancelOrder v t c id q tk sb io).2.
Proof.
  apply coherent_plainly. unfold s_cancelOrder. pose proof (plain_refl io).
  destruct (s_find _ sb); [destruct (_ >? _)|]; apply plain_emit; try done; by repeat constructor.
Qed.

Lemma replace_coherent v t c id id' ty p q tk sb io :
  s_timed sb → sends_coherent sb io (s_replaceOrder v t c id id' ty p q tk sb io).2.
Proof.
  intros Ht. unfold s_replaceOrder. destruct (s_find _ sb) as [old|] eqn:Hf.
  2:{ apply coherent_plainly, plain_emit; [apply plain_refl|constructor]. }
  destruct (_ || _); [apply coherent_plainly, plain_emit; [apply plain_refl|constructor]|].
  match goal with |- context [s_match v ?a ?b ?i] => pose (a0 := a);
    pose proof (plain_match v a b i) as Hm; destruct (s_match v a b i) as [[b1 io1] rem] end.
  simpl in Hm. match type of Hm with sends_plain ?i _ => set (io0 := i) in Hm end.
  assert (Hlast : sends_plain io0
    (if rem =? 0 then (b1, io1) else match ty with
       | GoodTillCancel => (s_insert a0 rem b1, io1)
       | FillAndKill => match v with
         | MapBook => (b1, emit [Resp (killed_response a0 rem); Upd (killed_update a0 rem)] io1)
         | VectorBook => (b1, io1) end end).2).
  { destruct (rem =? 0); [done|]. destruct ty, v; try done. simpl. apply plain_emit; [done|].
    by repeat constructor. }
  destruct Hlast as (evs & He & HF).
  exists ([Resp (replaced_response a0); Upd (modify_update a0 (o_marketOrderId_ old))] ++ evs).
  split; [etrans; [exact He|]; unfold io0; simpl; by rewrite <- app_assoc|].
  rewrite updates_app. split; [|by apply coherent_plain]. intros _.
  apply s_find_some in Hf as [Hin _]. exists (o_price_ old), (o_remainingQuantity_ old).
  apply book_view_lookup; [apply Ht|]. by exists old.
Qed.

Lemma dispatch_coherent v rq sb io :
  s_timed sb → sends_coherent sb io (s_dispatch v rq sb io).2.
Proof.
  intros Ht. unfold s_dispatch.
  destruct (rq_action_ rq); [apply add_coherent|apply cancel_coherent|by apply replace_coherent].
Qed.

(** Updates of one ticker change the shadow book of that ticker. *)
Lemma foldl_books us t books :
  Forall (about t) us →
  foldl books_after books us = alter (λ m, foldl (λ m u, book_after u m) m us) (Z.to_nat t) books.
Proof.
  revert books. induction us as [|u us IH]; intros books HF; simpl.
  { symmetry. by apply list_alter_id. }
  apply Forall_cons in HF as [[Hu _] HF]. rewrite IH by done. unfold books_after. rewrite Hu.
  apply list_eq. intros i. destruct (decide (i = Z.to_nat t)) as [->|Hne].
  - rewrite !list_lookup_alter_eq. by destruct (books !! Z.to_nat t).
  - by rewrite !list_lookup_alter_ne by done.
Qed.

Lemma shadow_view_foldl us m :
  shadow_view (foldl (λ m u, book_after u m) m us) = foldl view_after (shadow_view m) us.
Proof.
  revert m. induction us as [|u us IH]; intros m; simpl; [done|]. by rewrite IH, shadow_view_after.
Qed.

(** *** All tickers *)

Definition views_after (vs : list market_view) (u : MEMarketUpdate) : list market_view :=
  alter (λ v, view_after v u) (Z.to_nat (mu_ticker_id_ u)) vs.

Lemma shadow_views_after books u :
  shadow_view <$> books_after books u = views_after (shadow_view <$> books) u.
Proof.
  unfold books_after, views_after. apply list_eq. intros i. rewrite list_lookup_fmap.
  destruct (decide (i = Z.to_nat (mu_ticker_id_ u))) as [->|Hne].
  - rewrite !list_lookup_alter_eq, list_lookup_fmap. destruct (books !! _); simpl; [|done].
    by rewrite shadow_view_after.
  - by rewrite !list_lookup_alter_ne, list_lookup_fmap.
Qed.

Lemma shadow_views_foldl us books :
  shadow_view <$> foldl books_after books us = foldl views_after (shadow_view <$> books) us.
Proof.
  revert books. induction us as [|u us IH]; intros books; simpl; [done|].
  by rewrite IH, shadow_views_after.
Qed.

Fixpoint coherent (vs : list market_view) (us : list MEMarketUpdate) : Prop :=
  match us with
  | [] => True
  | u :: us' =>
      (∀ v, vs !! Z.to_nat (mu_ticker_id_ u) = Some v → names_known v u) ∧
      coherent (views_after vs u) us'
  end.

Lemma coherent_app vs us us' :
  coherent vs (us ++ us') ↔ coherent vs us ∧ coherent (foldl views_after vs us) us'.
Proof.
  revert vs. induction us as [|u us IH]; intros vs; simpl; [by intuition|]. rewrite IH. by intuition.
Qed.

(** Updates of one ticker. *)
Lemma coherent_about vs us t v :
  Forall (about t) us → vs !! Z.to_nat t = Some v → coherent_view v us → coherent vs us.
Proof.
  intros HF. revert vs v. induction HF as [|u us [Hu _] _ IH]; intros vs v Hv; simpl; [done|].
  intros [Hk Hc]. split; [intros v' Hv'; rewrite Hu in Hv'; by simplify_eq|].
  apply (IH _ (view_after v u)); [|done]. unfold views_after. rewrite Hu.
  by rewrite list_lookup_alter_eq, Hv.
Qed.

Definition shadows (books : list (gmap OrderId MEMarketUpdate)) (se : engine sbook) : Prop :=
  Forall2 (λ m sb, shadow_view m = book_view (s_orders sb)) books (ticker_order_book_ se).

(** Every request of a run is told truly when it is processed. *)
Fixpoint told_run (v : variant) (rqs : list MEClientRequest) (se : engine sbook) : Prop :=
  match rqs with
  | [] => True
  | rq :: rqs' =>
      (∀ sb, ticker_order_book_ se !! Z.to_nat (rq_ticker_id_ rq) = Some sb → told_truly v rq sb) ∧
      told_run v rqs' (s_process v rq se)
  end.

Lemma process_shadows v rq se books :
  (∀ t sb, ticker_order_book_ se !! t = Some sb → s_wf sb ∧ s_timed sb) → 0 ≤ rq_qty_ rq →
  (∀ sb, ticker_order_book_ se !! Z.to_nat (rq_ticker_id_ rq) = Some sb → told_truly v rq sb) →
  shadows books se →
  ∃ evs, sent (engine_state (s_process v rq se)) = sent (engine_state se) ++ evs ∧
    shadows (foldl books_after books (updates evs)) (s_process v rq se) ∧
    coherent (shadow_view <$> books) (updates evs).
Proof.
  intros Hw Hq Htrue Hsh. unfold s_process.
  destruct (ticker_order_book_ se !! Z.to_nat (rq_ticker_id_ rq)) as [sb|] eqn:Hsb.
  2:{ exists []. by rewrite app_nil_r. }
  destruct (Hw _ _ Hsb) as [Hwf Htm].
  destruct (dispatch_tells v rq sb (engine_state se) Hwf Htm Hq (Htrue sb eq_refl)) as (evs & Hs & Hv).
  destruct (dispatch_about v rq sb (engine_state se)) as (evs' & Hs' & HF).
  assert (evs' = evs) as -> by (rewrite Hs in Hs'; by apply app_inv_head in Hs').
  destruct (dispatch_coherent v rq sb (engine_state se) Htm) as (evs' & Hs2 & Hcoh).
  assert (evs' = evs) as -> by (rewrite Hs in Hs2; by apply app_inv_head in Hs2).
  destruct (Forall2_lookup_r _ _ _ _ _ Hsh Hsb) as (m & Hm & Hview).
  exists evs. split; [done|]. split.
  2:{ eapply coherent_about; [done| |exact Hcoh]. by rewrite list_lookup_fmap, Hm, <- Hview. }
  rewrite (foldl_books _ _ _ HF). unfold shadows. simpl.
  replace (alter _ (Z.to_nat (rq_ticker_id_ rq)) books) with
    (<[Z.to_nat (rq_ticker_id_ rq) := foldl (λ m u, book_after u m) m (updates evs)]> books).
  - apply Forall2_insert; [done|]. by rewrite shadow_view_foldl, Hview.
  - apply list_eq. intros i. destruct (decide (i = Z.to_nat (rq_ticker_id_ rq))) as [->|Hne].
    + rewrite list_lookup_alter_eq, list_lookup_insert_eq, Hm; [done|]. by eapply lookup_lt_Some.
    + by rewrite list_lookup_alter_ne, list_lookup_insert_ne by done.
Qed.

Lemma run_shadows v n rqs se books :
  Forall (λ rq, 0 ≤ rq_qty_ rq < 2 ^ 32) rqs → admissible n rqs se → told_run v rqs se →
  (∀ t sb, ticker_order_book_ se !! t = Some sb →
     s_wf sb ∧ s_timed sb ∧ s_next sb + Z.of_nat (length rqs) < 2 ^ 64) →
  shadows books se →
  ∃ evs, sent (engine_state (s_run v rqs se)) = sent (engine_state se) ++ evs ∧
    shadows (foldl books_after books (updates evs)) (s_run v rqs se) ∧
    coherent (shadow_view <$> books) (updates evs).
Proof.
  revert se books. induction rqs as [|rq rqs IH]; intros se books Hq Hadm Htold Hinv Hsh; simpl.
  { exists []. by rewrite app_nil_r. }
  apply Forall_cons in Hq as [Hq Hqs]. destruct Htold as [Htrue Htold].
  destruct (process_shadows v rq se books) as (evs & Hs & Hsh' & Hcoh); [|lia|done|done|].
  { intros t sb Hsb. by destruct (Hinv t sb Hsb) as (? & ? & _). }
  destruct (IH (s_process v rq se) (foldl books_after books (updates evs)))
    as (evs' & Hs' & Hsh'' & Hcoh').
  - done.
  - eapply s_process_admissible; [|done|exact Hadm]. intros t sb Hsb. by apply (Hinv t sb).
  - done.
  - intros t sb' (sb & Hsb & Hor)%s_process_lookup. destruct (Hinv t sb Hsb) as (Hwf & Htm & Hn).
    simpl in Hn. destruct Hor as [[-> ->]|[_ ->]]; [|split_and!; [done..|lia]].
    pose proof (s_dispatch_evolves v sb (engine_state se) rq Hwf (proj1 Hq)) as Hev.
    pose proof (td_next _ Htm). pose proof (evolves_next sb _ ltac:(lia) ltac:(lia) Hev).
    split_and!; [|eapply timed_evolves; [done|done|lia|done]|lia].
    apply (s_dispatch_ok v sb (engine_state se) rq); [done|done|].
    intros k Hk. eapply (adm_fresh _ _ _ Hadm); [done|]. simpl. rewrite Hk. constructor.
  - done.
  - exists (evs ++ evs'). rewrite updates_app, foldl_app, coherent_app. split_and!; [|done..|].
    + unfold s_run in *. by rewrite Hs', Hs, app_assoc.
    + by rewrite <- shadow_views_foldl.
Qed.

(** For a new engine and a new streamer. *)
Lemma new_run_shadows v books n rqs :
  NoDup (omap new_key rqs) → (∀ t, (new_load t rqs ≤ n)%nat) →
  Forall (λ rq, 0 ≤ rq_qty_ rq < 2 ^ 32) rqs → Z.of_nat (length rqs) + 1 < 2 ^ 64 →
  told_run v rqs (s_engine_new books) →
  let us := updates (sent (engine_state (s_run v rqs (s_engine_new books)))) in
  shadows (foldl books_after (replicate books ∅) us) (s_run v rqs (s_engine_new books)) ∧
  coherent (replicate books ∅) us.
Proof.
  intros Hnd Hload Hq Hlen Htold.
  destruct (run_shadows v n rqs (s_engine_new books) (replicate books ∅)) as (evs & Hs & Hsh & Hcoh);
    [done|by apply new_admissible|done| | |].
  - simpl. intros t sb (-> & _)%lookup_replicate.
    split_and!; [auto with exchange..|simpl; lia].
  - unfold shadows. simpl. apply Forall2_replicate. unfold shadow_view. apply fmap_empty.
  - simpl in Hs |- *. rewrite Hs. split; [done|]. rewrite fmap_replicate in Hcoh.
    unfold shadow_view in Hcoh. by rewrite fmap_empty in Hcoh.
Qed.
