(* ===== verification/FeedTruth.v ===== *)
(** * FeedTruth: the shadow book against the books of the engine

    When the updates the engine sends describe its books, and two ways in which
    they do not. *)

From S2P Require Import Prelude Types BookSpec DList Memory StoreRep LevelMap Levels BookSpecFacts BookTime Soundness BookCore MatchingEngine Trades OrderBookMap MapRefine MapTheorems EngineMap OrderBookVector VecRefine VecTheorems BookEquiv EngineVector Queue Itch Publisher Streamer FeedFacts ShadowBook.
Import MapOB.

(** The objects of a book are the orders of its abstract book. *)
Lemma objects_view {P L} `{ObjectPool P} (b : book P L) ls sb id w :
  store_rep b ls sb → mids_ok (s_orders sb) →
  book_view (s_orders sb) !! id = Some w ↔
  ∃ l o, objects b !! l = Some o ∧ o_marketOrderId_ o = id ∧ order_view o = w.
Proof.
  intros Hr Hnd. rewrite book_view_lookup by done. split.
  - intros (o & Ho & Hid & Hw).
    assert (∃ s, o ∈ s_side s sb) as [s Hs].
    { unfold s_orders in Ho. apply elem_of_app in Ho as [?|?]; [by exists BUY|by exists SELL]. }
    apply list_elem_of_lookup in Hs as [i Hi].
    destruct (Forall2_lookup_r _ _ _ _ _ (sr_rest _ _ _ Hr s) Hi) as (l & _ & Hl).
    unfold resting in Hl. destruct (objects b !! l) as [o'|] eqn:Ho'; simplify_eq/=.
    by exists l, o'.
  - intros (l & o & Ho & Hid & Hw).
    assert (Hl : l ∈ ls (o_side_ o)) by (apply (sr_mem _ _ _ Hr); eauto).
    apply list_elem_of_lookup in Hl as [i Hi].
    destruct (Forall2_lookup_l _ _ _ _ _ (sr_rest _ _ _ Hr (o_side_ o)) Hi) as (x & Hx & Hl).
    unfold resting in Hl. rewrite Ho in Hl. simplify_eq/=.
    exists (payload o). split_and!; [|done..].
    apply list_elem_of_lookup_2 in Hx. rewrite (s_orders_side (o_side_ o)). apply elem_of_app. by left.
Qed.

(** The updates of a run that is told truly describe the engine's books. *)
Lemma run_shows_market {P : Type} `{ObjectPool P} `{!ObjectPoolLaws P}
    (freed_node : PriceLevel → PriceLevel) (books n : nat) (rqs : list MEClientRequest) :
  (∀ l, pl_head l = None → pl_head (freed_node l) = None) →
  run_ready (λ _, True) books n rqs → Z.of_nat (length rqs) + 1 < 2 ^ 64 →
  told_run MapBook rqs (s_engine_new books) →
  ∃ e, run_requests (H := map_order_book (P := P) freed_node) rqs
         (engine_new (H := map_order_book freed_node) books n) = Ok e ∧
    engine_state e = engine_state (s_run MapBook rqs (s_engine_new books)) ∧
    ∀ t b, ticker_order_book_ e !! t = Some b →
      ∃ orders,
        foldl books_after (replicate books ∅) (updates (sent (engine_state e))) !! t = Some orders ∧
        ∀ id w, shadow_view orders !! id = Some w ↔
          ∃ l o, objects b !! l = Some o ∧ o_marketOrderId_ o = id ∧ order_view o = w.
Proof.
  intros Hnull Hready Hlen Htold.
  destruct (map_run_ok freed_node Hnull books n rqs Hready) as (e & Hrun & Hio & HF).
  exists e. split; [done|]. split; [done|]. intros t b Hb.
  destruct (Forall2_lookup_l _ _ _ _ _ HF Hb) as (sb & Hsb & ([ls Hrep] & _)).
  pose proof Hready as (_ & Hnd & Hload).
  destruct (new_run_inv MapBook books n rqs t sb Hnd Hload (run_ready_qty _ _ _ _ Hready) Hlen Hsb)
    as [Hw Ht].
  pose proof (new_run_shadows MapBook books n rqs Hnd Hload (run_ready_qty _ _ _ _ Hready) Hlen Htold)
    as [Hsh _].
  rewrite <- Hio in Hsh.
  destruct (Forall2_lookup_r _ _ _ _ _ Hsh Hsb) as (orders & Horders & Hview).
  exists orders. split; [done|]. intros id w. rewrite Hview.
  destruct Hrep as [Hr _]. by eapply objects_view; [|apply Ht].
Qed.

(** C13: A map engine processes requests with listed tickers, quantities of 32
    bits, fresh order ids, at most as many NEW requests per ticker, over the
    whole run, as its pool has slots and fewer than 2^64 - 1 requests.  As long
    as no request cancels a part of an order or replaces one at a price that
    crosses the other side, the shadow book is the book: for every ticker it has
    exactly the market order ids of the resting orders of the engine's book,
    each with its side, price and remaining quantity.  A destroyed map node
    whose head was null is assumed to still read as null. *)
Theorem shadow_book_tracks_market {P : Type} `{ObjectPool P} `{!ObjectPoolLaws P}
    (freed_node : PriceLevel → PriceLevel) (books n : nat) (rqs : list MEClientRequest) :
  (∀ l, pl_head l = None → pl_head (freed_node l) = None) →
  run_ready (λ _, True) books n rqs → Z.of_nat (length rqs) + 1 < 2 ^ 64 →
  told_run MapBook rqs (s_engine_new books) →
  ∃ e, run_requests (H := map_order_book (P := P) freed_node) rqs
         (engine_new (H := map_order_book freed_node) books n) = Ok e ∧
    ∀ t b, ticker_order_book_ e !! t = Some b →
      ∃ orders,
        foldl books_after (replicate books ∅) (updates (sent (engine_state e))) !! t = Some orders ∧
        ∀ id w, shadow_view orders !! id = Some w ↔
          ∃ l o, objects b !! l = Some o ∧ o_marketOrderId_ o = id ∧ order_view o = w.
Proof.
  intros Hnull Hready Hlen Htold.
  destruct (run_shows_market freed_node books n rqs Hnull Hready Hlen Htold) as (e & ? & _ & ?). eauto.
Qed.

(** A sell, a buy that takes part of it, a cancel of the rest and a new sell
    that is replaced by one further away. *)
Definition true_session : list MEClientRequest :=
  [ demo_request REQ_NEW 1 1 0 100 5 SELL; demo_request REQ_NEW 2 2 0 101 3 BUY;
    demo_request REQ_CANCEL 1 1 0 0 0 SELL; demo_request REQ_NEW 1 3 0 105 4 SELL;
    demo_request REQ_MODIFY 1 3 4 107 6 SELL ].

Lemma true_session_ready : run_ready (λ _, True) 1 8 true_session.
Proof.
  split_and!.
  - repeat (apply Forall_cons; split); [..|constructor]; split_and!; simpl; try lia; auto.
  - apply (bool_decide_unpack _). vm_compute. exact I.
  - intros t. pose proof (new_load_le t true_session). simpl in *. lia.
Qed.

Lemma true_session_told : told_run MapBook true_session (s_engine_new 1).
Proof.
  repeat (split; [intros sb Hsb; vm_compute in Hsb; injection Hsb as <-;
    intros o Ho; vm_compute in Ho;
    first [discriminate Ho | injection Ho as <-; simpl; first [by left | split; [constructor|by left]]]|]).
  exact I.
Qed.

Lemma shadow_book_tracks_market_witness :
  ∃ e, run_requests (H := map_order_book (P := SetPool.t) id) true_session
         (engine_new (H := map_order_book id) 1 8) = Ok e ∧
    ∃ orders,
      foldl books_after (replicate 1 ∅) (updates (sent (engine_state e))) !! 0%nat = Some orders ∧
      shadow_view orders !! 4 = Some (SELL, 107, 6) ∧ size orders = 1%nat.
Proof.
  destruct (shadow_book_tracks_market (P := SetPool.t) id 1 8 true_session (λ l Hl, Hl)
    true_session_ready eq_refl true_session_told) as (e & Hrun & Hbooks).
  exists e. split; [exact Hrun|].
  destruct (ticker_order_book_ e !! 0%nat) as [b|] eqn:Hb.
  - destruct (Hbooks 0%nat b Hb) as (orders & Horders & _). exists orders. split; [exact Horders|].
    vm_compute in Hrun. injection Hrun as <-. vm_compute in Horders. injection Horders as <-.
    split; reflexivity.
  - exfalso. vm_compute in Hrun. injection Hrun as <-. discriminate Hb.
Defined.

(** ** Where the feed does not describe the market *)

(** Market order id and view of the orders resting in the engine, and those the
    shadow book shows after the engine's updates. *)
Definition engine_shows {P} (o : outcome (engine (book P map_levels))) : list (OrderId * view) :=
  match o with
  | Ok e => ticker_order_book_ e ≫= λ b,
      (λ lo, (o_marketOrderId_ lo.2, order_view lo.2)) <$> map_to_list (objects b)
  | Fault _ => []
  end.

Definition shadow_shows {B} (o : outcome (engine B)) : list (OrderId * view) :=
  foldl books_after (replicate 1 ∅) (updates (session_events o)) ≫= λ m, map_to_list (shadow_view m).

(** C35: Two ways the feed misses a change.  A client cancels 2 of 5 shares: 3
    shares keep resting in the engine's book, but [applyToBook] erases the whole
    order, so snapshots no longer show it.  And a buy order is replaced by one
    that trades in full with the sell order it now reaches: no order is left in
    the engine's book, but the MODIFY update was sent with the whole quantity
    before matching and no TRADE names the replacement, so the shadow book keeps
    showing it. *)
Theorem feed_misses_changes :
  let cancel := [demo_request REQ_NEW 1 1 0 100 5 SELL; demo_request REQ_CANCEL 1 1 0 0 2 SELL] in
  let replace := [demo_request REQ_NEW 1 1 0 100 5 SELL; demo_request REQ_NEW 2 2 0 90 5 BUY;
                  demo_request REQ_MODIFY 2 2 3 101 5 BUY] in
  (engine_shows (map_session cancel) = [(1, (SELL, 100, 3))] ∧ shadow_shows (map_session cancel) = []) ∧
  (engine_shows (map_session replace) = [] ∧
   shadow_shows (map_session replace) = [(3, (BUY, 101, 5))]).
Proof. split; split; vm_compute; reflexivity. Qed.
