(* ===== verification/Messages.v ===== *)
(** * Messages: how much the engine has to say

    An execution sends three messages, and one request may execute against any
    number of resting orders; but every execution except the last of a request
    removes an order from the book.  Counting a resting order as three messages
    still to come, a request sends at most eight: [dispatch_messages].  A run of
    [k] requests therefore sends at most [8 * k] messages, which is what the
    progress argument of [Progress] counts down. *)

From S2P Require Import Prelude Types BookSpec DList Memory StoreRep BookSpecFacts BookTime MatchingEngine OrderBookMap MapRefine MapTheorems EngineMap.

Local Open Scope nat_scope.

(** The messages a request may cost beyond those its executions take over from
    the orders they remove. *)
Definition REQUEST_MESSAGES : nat := 8.

(** ** One request *)

Lemma sweep_fill_count side price rem mid os os' rem' mid' fs :
  s_sweep side price rem mid os = (os', rem', mid', fs) → length fs + length os' ≤ length os + 1.
Proof.
  revert rem mid os' rem' mid' fs. induction os as [|o os IH]; intros rem mid os' rem' mid' fs; simpl.
  { intros [= <- _ _ <-]. simpl. lia. }
  destruct (_ || _); [intros [= <- _ _ <-]; simpl; lia|].
  destruct (_ =? 0)%Z.
  - destruct (s_sweep side price _ _ os) as [[[rest r] m] fs1] eqn:Hsw.
    intros [= <- _ _ <-]. apply IH in Hsw. simpl. lia.
  - intros [= <- _ _ <-]. simpl. lia.
Qed.

Lemma fills_length v a fs : length (fs ≫= fill_events v a) = 3 * length fs.
Proof. induction fs as [|f fs IH]; [done|]. rewrite bind_cons, length_app, IH. simpl. lia. Qed.

Lemma s_set_orders s l b :
  length (s_orders (s_set s l b)) + length (s_side s b) = length (s_orders b) + length l.
Proof. destruct s; unfold s_orders; simpl; rewrite !length_app; lia. Qed.

Lemma match_messages v a b io b' io' rem :
  s_match v a b io = (b', io', rem) →
  length (sent io') + 3 * length (s_orders b') ≤ length (sent io) + 3 * length (s_orders b) + 3.
Proof.
  unfold s_match. destruct (s_sweep _ _ _ _ _) as [[[os r] m] fs] eqn:Hsw. intros [= <- <- _].
  simpl. rewrite length_app, fills_length. apply sweep_fill_count in Hsw.
  pose proof (s_set_orders (opposite (a_side a)) os b). lia.
Qed.

Lemma enqueue_length o os : length (s_enqueue o os) = S (length os).
Proof. induction os as [|x os IH]; simpl; [done|]. destruct (better _ _ _); simpl; lia. Qed.

Lemma insert_orders a q b : length (s_orders (s_insert a q b)) = S (length (s_orders b)).
Proof.
  unfold s_insert. pose proof (s_set_orders (a_side a) (s_enqueue (resting_order a q) (s_side (a_side a) b)) b).
  rewrite enqueue_length in *. lia.
Qed.

Lemma delete_orders k b : length (s_orders (s_delete k b)) ≤ length (s_orders b).
Proof.
  unfold s_orders, s_delete. simpl. rewrite !length_app.
  pose proof (List.filter_length_le (λ o, negb (has_key k o)) (s_bids b)).
  pose proof (List.filter_length_le (λ o, negb (has_key k o)) (s_asks b)). lia.
Qed.

Lemma update_orders k f b : length (s_orders (s_update k f b)) = length (s_orders b).
Proof. unfold s_orders, s_update. simpl. by rewrite !length_app, !length_map. Qed.

Lemma emit_length evs io : length (sent (emit evs io)) = length (sent io) + length evs.
Proof. simpl. by rewrite length_app. Qed.

Lemma dispatch_messages v rq sb io :
  let r := s_dispatch v rq sb io in
  length (sent r.2) + 3 * length (s_orders r.1) ≤
  length (sent io) + 3 * length (s_orders sb) + REQUEST_MESSAGES.
Proof.
  unfold s_dispatch, REQUEST_MESSAGES. destruct (rq_action_ rq).
  - unfold s_addOrder. destruct (s_match v _ _ _) as [[b1 io1] rem] eqn:Hm.
    apply match_messages in Hm. rewrite emit_length in Hm. simpl in Hm.
    change (s_orders (s_bump sb)) with (s_orders sb) in Hm.
    destruct (rem >? 0)%Z; [destruct (rq_type_ rq)|]; cbn [fst snd];
      rewrite ?insert_orders, ?emit_length; simpl; lia.
  - unfold s_cancelOrder. destruct (s_find _ sb) as [o|]; cbn [fst snd]; [|rewrite emit_length; simpl; lia].
    set (canceled := if (rq_qty_ rq =? 0)%Z then _ else _).
    destruct (_ >? _)%Z; cbn [fst snd]; [rewrite emit_length; simpl; lia|].
    rewrite emit_length. destruct (_ - canceled =? 0)%Z; rewrite ?update_orders;
      pose proof (delete_orders (rq_client_id_ rq, rq_client_order_id_ rq) sb); simpl; lia.
  - unfold s_replaceOrder. destruct (s_find _ sb) as [o|]; cbn [fst snd]; [|rewrite emit_length; simpl; lia].
    destruct (_ || _); cbn [fst snd]; [rewrite emit_length; simpl; lia|].
    destruct (s_match v _ _ _) as [[b1 io1] rem] eqn:Hm.
    apply match_messages in Hm. rewrite emit_length in Hm. simpl in Hm.
    pose proof (delete_orders (rq_client_id_ rq, rq_client_order_id_ rq) (s_bump sb)) as Hdel.
    change (s_orders (s_bump sb)) with (s_orders sb) in Hdel.
    destruct (rem =? 0)%Z; [|destruct (rq_type_ rq); [|destruct v]]; cbn [fst snd];
      rewrite ?insert_orders, ?emit_length; simpl; lia.
Qed.

(** ** A run *)

(** The orders on all books. *)
Definition resting (books : list sbook) : nat := sum_list (length ∘ s_orders <$> books).

Lemma resting_insert t sb' books sb :
  books !! t = Some sb →
  resting (<[t := sb']> books) + length (s_orders sb) = resting books + length (s_orders sb').
Proof.
  unfold resting. revert t. induction books as [|b books IH]; intros [|t] Ht; simplify_eq/=.
  - lia.
  - specialize (IH t Ht). simpl in *. lia.
Qed.

Lemma resting_new n : resting (replicate n s_empty) = 0.
Proof. induction n; simpl; done. Qed.

Definition sent_by (se : engine sbook) : list event := sent (engine_state se).

Lemma process_messages v rq se :
  length (sent_by (s_process v rq se)) + 3 * resting (ticker_order_book_ (s_process v rq se)) ≤
  length (sent_by se) + 3 * resting (ticker_order_book_ se) + REQUEST_MESSAGES.
Proof.
  unfold s_process. destruct (ticker_order_book_ se !! _) as [sb|] eqn:Hsb; [|lia].
  pose proof (dispatch_messages v rq sb (engine_state se)) as Hd.
  pose proof (resting_insert _ (s_dispatch v rq sb (engine_state se)).1 _ _ Hsb) as Hr.
  unfold sent_by. cbn zeta in Hd. cbn [ticker_order_book_ engine_state]. lia.
Qed.

Lemma run_messages v rqs se :
  length (sent_by (s_run v rqs se)) + 3 * resting (ticker_order_book_ (s_run v rqs se)) ≤
  length (sent_by se) + 3 * resting (ticker_order_book_ se) + REQUEST_MESSAGES * length rqs.
Proof.
  revert se. induction rqs as [|rq rqs IH]; intros se; [simpl; lia|].
  cbn [s_run foldl length]. specialize (IH (s_process v rq se)).
  pose proof (process_messages v rq se). unfold s_run in *. lia.
Qed.

Lemma new_run_messages v rqs books :
  length (sent_by (s_run v rqs (s_engine_new books))) ≤ REQUEST_MESSAGES * length rqs.
Proof.
  pose proof (run_messages v rqs (s_engine_new books)) as Hr.
  cbn [ticker_order_book_ s_engine_new] in Hr. rewrite resting_new in Hr.
  change (length (sent_by (s_engine_new books))) with 0 in Hr. lia.
Qed.

(** ** The engine *)

(** C24: With either order book, a new engine that processes k requests with
    listed tickers, prices the book can hold, quantities of 32 bits, fresh order
    ids and at most as many NEW requests per ticker, over the whole run, as its
    pool has slots returns and has sent at most [8 k] messages in all, although
    a single request may execute against every resting order: the queues and the
    publisher are never asked for more than a constant per request. *)
Theorem engine_output_bounded (v : variant) {B : Type} `{OrderBook B} `{!OrderBookLaws v B}
    (books n : nat) (rqs : list MEClientRequest) :
  run_ready ob_price books n rqs →
  ∃ e, run_requests rqs (engine_new (B := B) books n) = Ok e ∧
    length (sent (engine_state e)) ≤ REQUEST_MESSAGES * length rqs.
Proof.
  intros (Hrq & Hnd & Hload).
  destruct (run_ok v n rqs (engine_new books n) (s_engine_new books)) as (e & Hrun & _ & Hio).
  - apply engine_new_rel.
  - simpl. by rewrite length_replicate.
  - by apply new_admissible.
  - exists e. split; [done|]. rewrite Hio. apply new_run_messages.
Qed.

Lemma engine_output_bounded_witness :
  ∃ e, run_requests (H := map_order_book (P := SetPool.t) id) demo_session
         (engine_new (H := map_order_book id) 1 4) = Ok e ∧
    length (sent (engine_state e)) ≤ 8 * length demo_session.
Proof.
  exact (engine_output_bounded (H := map_order_book (P := SetPool.t) id)
    (OrderBookLaws0 := map_order_book_laws id (λ l Hl, Hl)) MapBook 1 4 demo_session
    (demo_ready _ I I I)).
Defined.
