(* ===== verification/Lifecycle.v ===== *)
(** * Lifecycle: starting and stopping the threads

    Every component of the exchange owns a flag [run_] and a [std::thread]:
    [start] sets the flag and launches [run], [stop] clears it and joins.
    [main.cpp] starts the components, waits for a signal and stops them; when it
    returns, the destructors stop them once more.

    The program of the main thread is the list of its [action]s; the four
    components' [start] and [stop] are the parts it is composed of.  Pinning a
    thread to a core, logging and printing are left out. *)

From stdpp Require Import functions.
From S2P Require Import Prelude.

(** ** Components and their threads *)

Inductive component := CGateway | CEngine | CPublisher | CStreamer.

#[global] Instance component_eq_dec : EqDecision component.
Proof. solve_decision. Defined.

Inductive thread_state :=
  | NotStarted       (** no thread was created *)
  | Running          (** the thread executes [run] *)
  | Exited           (** [run] has returned *)
  | Joined.          (** the thread was joined *)

#[global] Instance thread_state_eq_dec : EqDecision thread_state.
Proof. solve_decision. Defined.

Record control := Control { run_ : bool; thread_ : thread_state }.

Definition control_new : control := Control false NotStarted.

(** [thread_.joinable()] *)
Definition joinable (c : control) : bool :=
  bool_decide (thread_ c = Running) || bool_decide (thread_ c = Exited).

(** [run] returns. *)
Definition exits (c : control) : control := Control (run_ c) Exited.

(** ** The main thread *)

Inductive action :=
  | SetRun (c : component) (b : bool)   (** [run_.store(b)] *)
  | Spawn (c : component)               (** [thread_ = create_and_pin_thread(...)] *)
  | Join (c : component)                (** [if (thread_.joinable()) thread_.join()] *)
  | Wait.                               (** the loop on [g_running] *)

#[global] Instance action_eq_dec : EqDecision action.
Proof. solve_decision. Defined.

Definition gateway_start : list action := [SetRun CGateway true; Spawn CGateway].
Definition gateway_stop : list action := [SetRun CGateway false; Join CGateway].

Definition engine_start : list action := [SetRun CEngine true; Spawn CEngine].
Definition engine_stop : list action := [SetRun CEngine false; Join CEngine].

Definition streamer_start : list action := [SetRun CStreamer true; Spawn CStreamer].
Definition streamer_stop : list action := [SetRun CStreamer false; Join CStreamer].

Definition publisher_start : list action :=
  [SetRun CPublisher true] ++ streamer_start ++ [Spawn CPublisher].
Definition publisher_stop : list action :=
  [SetRun CPublisher false; Join CPublisher] ++ streamer_stop.

(** The destructors; members are destroyed after the body of a destructor. *)
Definition gateway_destroy : list action := gateway_stop.
Definition engine_destroy : list action := engine_stop.
Definition streamer_destroy : list action := streamer_stop.
Definition publisher_destroy : list action := publisher_stop ++ streamer_destroy.

(** [main]: start, wait, stop, and the locals destroyed in reverse order. *)
Definition main_program : list action :=
  (publisher_start ++ engine_start ++ gateway_start) ++
  [Wait] ++
  (gateway_stop ++ engine_stop ++ publisher_stop) ++
  (gateway_destroy ++ publisher_destroy ++ engine_destroy).

(** An action changes the controls, or waits ([None]). *)
Definition act (g_running : bool) (a : action) (ctl : component → control)
    : option (component → control) :=
  match a with
  | SetRun c b => Some (<[c := Control b (thread_ (ctl c))]> ctl)
  | Spawn c => Some (<[c := Control (run_ (ctl c)) Running]> ctl)
  | Join c =>
      if joinable (ctl c) then
        if bool_decide (thread_ (ctl c) = Exited)
        then Some (<[c := Control (run_ (ctl c)) Joined]> ctl) else None
      else Some ctl
  | Wait => if g_running then None else Some ctl
  end.

(** ** Where the main thread is, and what the others may do

    [lifecycle k ctl]: the main thread has done its first [k] actions.  A flag
    is as the last [SetRun] left it; a thread exists from its [Spawn] to its
    [Join], and has returned only if its flag is down. *)

Definition flag_after (done : list action) (c : component) : bool :=
  foldl (λ b a, match a with SetRun c' b' => if decide (c' = c) then b' else b | _ => b end)
    false done.

Definition spawned (done : list action) (c : component) : bool := bool_decide (Spawn c ∈ done).
Definition joined (done : list action) (c : component) : bool := bool_decide (Join c ∈ done).

Definition thread_ok (done : list action) (c : component) (t : control) : Prop :=
  run_ t = flag_after done c ∧
  match thread_ t with
  | NotStarted => spawned done c = false
  | Running => spawned done c = true ∧ joined done c = false
  | Exited => spawned done c = true ∧ joined done c = false ∧ run_ t = false
  | Joined => joined done c = true
  end.

Definition lifecycle (k : nat) (ctl : component → control) : Prop :=
  (k ≤ length main_program)%nat ∧ ∀ c, thread_ok (take k main_program) c (ctl c).

Lemma lifecycle_new : lifecycle 0 (λ _, control_new).
Proof. split; [lia|]. intros c. by split. Qed.
#[export] Hint Resolve lifecycle_new : exchange.

Lemma lifecycle_exit k ctl c :
  lifecycle k ctl → thread_ (ctl c) = Running → run_ (ctl c) = false →
  lifecycle k (<[c := exits (ctl c)]> ctl).
Proof.
  intros [Hk Hok] Hr Hf. split; [done|]. intros c'. destruct (decide (c' = c)) as [->|Hne].
  - rewrite fn_lookup_insert. destruct (Hok c) as [Hrun Hth]. rewrite Hr in Hth.
    split; simpl; [done|]. split_and!; [apply Hth..|done].
  - by rewrite fn_lookup_insert_ne.
Qed.

(** What the program says of its own positions. *)
Definition action_ok (k : nat) (a : action) : bool :=
  match a with
  | SetRun c true => negb (spawned (take k main_program) c)
  | Spawn c => negb (joined (take (S k) main_program) c)
  | Join c => spawned (take k main_program) c
  | _ => true
  end.

Lemma program_ok k a : main_program !! k = Some a → action_ok k a = true.
Proof.
  intros Hk. assert (Hall : forallb (λ k, from_option (action_ok k) true (main_program !! k))
    (seq 0 (length main_program)) = true) by (vm_compute; reflexivity).
  rewrite forallb_forall in Hall. specialize (Hall k). rewrite Hk in Hall. apply Hall.
  apply in_seq. apply lookup_lt_Some in Hk. lia.
Qed.

Lemma flag_after_snoc done a c :
  flag_after (done ++ [a]) c =
  match a with SetRun c' b => if decide (c' = c) then b else flag_after done c | _ => flag_after done c end.
Proof. unfold flag_after. rewrite foldl_app. simpl. by destruct a. Qed.

Lemma spawned_snoc done a c : spawned (done ++ [a]) c = spawned done c || bool_decide (a = Spawn c).
Proof. unfold spawned. rewrite <- bool_decide_or. apply bool_decide_ext. set_solver. Qed.

Lemma joined_snoc done a c : joined (done ++ [a]) c = joined done c || bool_decide (a = Join c).
Proof. unfold joined. rewrite <- bool_decide_or. apply bool_decide_ext. set_solver. Qed.

Create Rewrite HintDb program.
#[local] Hint Rewrite flag_after_snoc spawned_snoc joined_snoc : program.

(** The main thread does its next action. *)
Lemma lifecycle_act k ctl a g ctl' :
  lifecycle k ctl → main_program !! k = Some a → act g a ctl = Some ctl' →
  lifecycle (S k) ctl'.
Proof.
  intros [Hk Hok] Ha Hact. pose proof (program_ok k a Ha) as Hpos.
  split; [apply lookup_lt_Some in Ha; lia|]. intros c. specialize (Hok c).
  unfold action_ok in Hpos. unfold thread_ok in *. rewrite (take_S_r _ _ _ Ha) in *.
  autorewrite with program in *. destruct a as [c0 b|c0|c0|]; simpl in Hact.
  - injection Hact as <-. destruct (decide (c0 = c)) as [->|Hne].
    + rewrite fn_lookup_insert, !bool_decide_eq_false_2, !orb_false_r by done. simpl.
      split; [done|]. destruct Hok as [_ Hth].
      destruct (thread_ (ctl c)); try done. destruct b; [|naive_solver].
      apply negb_true_iff in Hpos. naive_solver.
    + rewrite fn_lookup_insert_ne, !bool_decide_eq_false_2, !orb_false_r by done. done.
  - injection Hact as <-. destruct (decide (c0 = c)) as [->|Hne].
    + rewrite fn_lookup_insert. simpl. split; [by apply Hok|].
      rewrite bool_decide_eq_true_2, orb_true_r by done. split; [done|].
      apply negb_true_iff in Hpos. by autorewrite with program in Hpos.
    + rewrite fn_lookup_insert_ne, !bool_decide_eq_false_2, !orb_false_r by congruence. done.
  - destruct (decide (c0 = c)) as [->|Hne].
    + rewrite bool_decide_eq_false_2, (bool_decide_eq_true_2 (Join c = _)), orb_false_r, orb_true_r by done.
      destruct Hok as [Hrun Hth]. unfold joinable in Hact.
      destruct (thread_ (ctl c)) eqn:Hc; simpl in Hact; try done; simplify_eq.
      * congruence.
      * rewrite fn_lookup_insert. by split.
      * by rewrite Hc.
    + rewrite !bool_decide_eq_false_2, !orb_false_r by congruence.
      destruct (joinable _); [destruct (bool_decide _)|]; simplify_eq; [|done].
      by rewrite fn_lookup_insert_ne.
  - assert (ctl' = ctl) as -> by (destruct g; congruence).
    by rewrite !bool_decide_eq_false_2, !orb_false_r.
Qed.
