(* ===== verification/System.v ===== *)
(** * System: the whole exchange

    The state of the process and the steps of its five threads.  A step is what
    a thread does between two points at which another thread can interfere: a
    read or write of a shared queue, or of a flag.  What a thread does with its
    private state (the books of the engine, the tables of the gateway) is part
    of the step that precedes it.  The pushes of one [publishPendingOrders],
    which never wait, are one step: all the engine could do in between is make
    room for more of them.

    [MatchingEngine::sendClientResponse] and [sendMarketUpdate] push blockingly:
    while a queue is full the engine stays at [EnPush] with the message at hand
    and the messages after it.  The program counters are those of the loops of
    [run] of the four components; the main thread executes [main_program].

    The network is the list [x_net] of what has arrived and was not read yet:
    [server_.poll()] takes what is there, [server_.sendAndRecv()] hands it to
    the callbacks.  [x_done], [x_handled] and [x_routed] record the requests
    the engine has finished, the network events handled and the responses taken
    off the queue with the socket they went to; no step depends on them. *)

From stdpp Require Import functions.
From S2P Require Import Prelude Types BookSpec Memory MatchingEngine Queue Fifo Wire TokenManager Ouch OrderServer Itch Publisher Streamer FeedFacts Lifecycle.
Import Itch.

Inductive gateway_pc :=
  | GwTop                                (** [while (run_.load())] *)
  | GwDrain                              (** in [drainResponses] *)
  | GwPublish                            (** [fifo_.publishPendingOrders()] *)
  | GwPoll                               (** [server_.poll()] *)
  | GwNet (batch : list net_event).      (** in [server_.sendAndRecv()] *)

Inductive engine_pc :=
  | EnTop                                (** [while (run_.load())] *)
  | EnPush (rq : MEClientRequest) (outbox : list event).
                                         (** in [processClientRequest] *)

Inductive streamer_pc :=
  | StTop                                (** [while (run_.load())] *)
  | StDrain                              (** draining [streamer_updates_] *)
  | StPoll.                              (** [poll] and [serveRequests] *)

Record exchange (Q R U S B : Type) := Exchange {
  x_server : server Q R;
  x_gw_pc : gateway_pc;
  x_books : engine B;
  x_en_pc : engine_pc;
  x_feed : feed U S;
  x_st_pc : streamer_pc;
  x_ctl : component → control;
  x_main : list action;
  g_running : bool;
  x_net : list net_event;
  x_done : list MEClientRequest;
  x_handled : list net_event;
  x_routed : list (MEClientResponse * option sock)
}.
Arguments Exchange {_ _ _ _ _} _ _ _ _ _ _ _ _ _ _ _ _ _.
Arguments x_server {_ _ _ _ _} _.
Arguments x_gw_pc {_ _ _ _ _} _.
Arguments x_books {_ _ _ _ _} _.
Arguments x_en_pc {_ _ _ _ _} _.
Arguments x_feed {_ _ _ _ _} _.
Arguments x_st_pc {_ _ _ _ _} _.
Arguments x_ctl {_ _ _ _ _} _.
Arguments x_main {_ _ _ _ _} _.
Arguments g_running {_ _ _ _ _} _.
Arguments x_net {_ _ _ _ _} _.
Arguments x_done {_ _ _ _ _} _.
Arguments x_handled {_ _ _ _ _} _.
Arguments x_routed {_ _ _ _ _} _.

(** Who moves: a thread, the signal, or the network.  A step of the streamer
    carries the requests of the recovery clients that are waiting. *)
Inductive label :=
  | LMain
  | LSignal
  | LArrive (ev : net_event)
  | LGateway
  | LEngine
  | LPublisher
  | LStreamer (clients : list (list Z)).

(** The constants of [main.cpp]. *)
Definition NUM_TICKERS : nat := 4.
Definition QUEUE_SIZE : nat := Z.to_nat 65536.
Definition ENGINE_POOL_SIZE : nat := Z.to_nat 65536.
Definition FIFO_PENDING : nat := Z.to_nat 10000.
Definition TOKEN_POOL_SIZE : nat := Z.to_nat 1000000.
Definition SNAPSHOT_Q_SIZE : nat := Z.to_nat 65536.

Section system.
Context {Q R U S B : Type}.
Context `{SPSCQueue MEClientRequest Q} `{SPSCQueue MEClientResponse R}.
Context `{SPSCQueue MEMarketUpdate U} `{SPSCQueue SnapshotUpdate S}.
Context `{OrderBook B} `{StdSort} `{OuchWire} `{ByteSwap} `{ItchWire} `{HashIteration}.
Context (epoch_nanos pub_nanos str_nanos : nat → Z).

Abbreviation exchange := (exchange Q R U S B).

(** What [main] constructs before it starts the threads. *)
Definition exchange_new (requestQ : Q) (responseQ : R) (marketUpdateQ : U) (streamer_updates : S)
    (tickers pool fifoPending tokenPoolSz : nat) : exchange :=
  Exchange (server_new requestQ responseQ fifoPending tokenPoolSz) GwTop
    (engine_new tickers pool) EnTop (feed_new marketUpdateQ streamer_updates tickers) StTop
    (λ _, control_new) main_program true [] [] [] [].

(** ** Field assignments *)

Definition at_gateway (s : server Q R) (pc : gateway_pc) (x : exchange) : exchange :=
  Exchange s pc (x_books x) (x_en_pc x) (x_feed x) (x_st_pc x) (x_ctl x) (x_main x)
    (g_running x) (x_net x) (x_done x) (x_handled x) (x_routed x).
Definition at_engine (e : engine B) (pc : engine_pc) (x : exchange) : exchange :=
  Exchange (x_server x) (x_gw_pc x) e pc (x_feed x) (x_st_pc x) (x_ctl x) (x_main x)
    (g_running x) (x_net x) (x_done x) (x_handled x) (x_routed x).
Definition at_feed (f : feed U S) (pc : streamer_pc) (x : exchange) : exchange :=
  Exchange (x_server x) (x_gw_pc x) (x_books x) (x_en_pc x) f pc (x_ctl x) (x_main x)
    (g_running x) (x_net x) (x_done x) (x_handled x) (x_routed x).
Definition at_main (ctl : component → control) (m : list action) (x : exchange) : exchange :=
  Exchange (x_server x) (x_gw_pc x) (x_books x) (x_en_pc x) (x_feed x) (x_st_pc x) ctl m
    (g_running x) (x_net x) (x_done x) (x_handled x) (x_routed x).
Definition set_signal (b : bool) (x : exchange) : exchange :=
  Exchange (x_server x) (x_gw_pc x) (x_books x) (x_en_pc x) (x_feed x) (x_st_pc x) (x_ctl x)
    (x_main x) b (x_net x) (x_done x) (x_handled x) (x_routed x).
Definition set_net (net : list net_event) (x : exchange) : exchange :=
  Exchange (x_server x) (x_gw_pc x) (x_books x) (x_en_pc x) (x_feed x) (x_st_pc x) (x_ctl x)
    (x_main x) (g_running x) net (x_done x) (x_handled x) (x_routed x).
Definition log_done (rq : MEClientRequest) (x : exchange) : exchange :=
  Exchange (x_server x) (x_gw_pc x) (x_books x) (x_en_pc x) (x_feed x) (x_st_pc x) (x_ctl x)
    (x_main x) (g_running x) (x_net x) (x_done x ++ [rq]) (x_handled x) (x_routed x).
Definition log_handled (ev : net_event) (x : exchange) : exchange :=
  Exchange (x_server x) (x_gw_pc x) (x_books x) (x_en_pc x) (x_feed x) (x_st_pc x) (x_ctl x)
    (x_main x) (g_running x) (x_net x) (x_done x) (x_handled x ++ [ev]) (x_routed x).
Definition log_routed (r : MEClientResponse) (x : exchange) : exchange :=
  Exchange (x_server x) (x_gw_pc x) (x_books x) (x_en_pc x) (x_feed x) (x_st_pc x) (x_ctl x)
    (x_main x) (g_running x) (x_net x) (x_done x) (x_handled x)
    (x_routed x ++ [(r, clientToSocket_ (x_server x) !! rs_client_id_ r)]).

(** [run] of a component returns. *)
Definition leave (c : component) (x : exchange) : exchange :=
  at_main (<[c := exits (x_ctl x c)]> (x_ctl x)) (x_main x) x.

(** ** [OrderServer::run] *)

Definition gateway_step (x : exchange) : outcome exchange :=
  let s := x_server x in
  match x_gw_pc x with
  | GwTop =>
      if run_ (x_ctl x CGateway) then Ok (at_gateway s GwDrain x) else Ok (leave CGateway x)
  | GwDrain =>
      match drain_step epoch_nanos tt s with
      | Ok (inl _, s') =>
          match getNextRead (responseQ_ s) with
          | Some r => Ok (at_gateway s' GwDrain (log_routed r x))
          | None => Ok (at_gateway s' GwDrain x)
          end
      | Ok (inr _, s') => Ok (at_gateway s' GwPublish x)
      | Fault f => Fault f
      end
  | GwPublish =>
      match publish s with
      | Ok (_, s') => Ok (at_gateway s' GwPoll x)
      | Fault f => Fault f
      end
  | GwPoll => Ok (at_gateway s (GwNet (x_net x)) (set_net [] x))
  | GwNet [] => Ok (at_gateway s GwTop x)
  | GwNet (ev :: batch) =>
      match handle ev s with
      | Ok (_, s') => Ok (at_gateway s' (GwNet batch) (log_handled ev x))
      | Fault f => Fault f
      end
  end.

(** ** [MatchingEngine::run] *)

(** The messages [processClientRequest] sends. *)
Definition messages (before after : engine B) : list event :=
  drop (length (sent (engine_state before))) (sent (engine_state after)).

(** [responses_->pushBlocking], one attempt. *)
Definition push_response (r : MEClientResponse) (x : exchange) : bool * exchange :=
  let '(ok, q) := push r (responseQ_ (x_server x)) in
  (ok, at_gateway (set_responses q (x_server x)) (x_gw_pc x) x).

(** [marketUpdates_->pushBlocking], one attempt. *)
Definition push_update (u : MEMarketUpdate) (x : exchange) : bool * exchange :=
  let f := x_feed x in
  let '(ok, q) := push u (marketUpdates_ (fd_publisher f)) in
  (ok, at_feed (Feed (with_market q (fd_publisher f)) (fd_updates f) (fd_streamer f)
                  (if ok : bool then fd_input f ++ [u] else fd_input f) (fd_answers f))
         (x_st_pc x) x).

Definition engine_step (x : exchange) : outcome exchange :=
  match x_en_pc x with
  | EnTop =>
      if run_ (x_ctl x CEngine) then
        match getNextRead (requestQ_ (x_server x)) with
        | None => Ok x
        | Some request =>
            match processClientRequest request (x_books x) with
            | Ok e => Ok (at_engine e (EnPush request (messages (x_books x) e)) x)
            | Fault f => Fault f
            end
        end
      else Ok (leave CEngine x)
  | EnPush request [] =>
      let s := x_server x in
      Ok (log_done request (at_engine (x_books x) EnTop
            (at_gateway (set_staged (fifo_ s) (updateNextRead (requestQ_ s)) s) (x_gw_pc x) x)))
  | EnPush request (Resp r :: rest) =>
      let '(ok, x') := push_response r x in
      Ok (if ok : bool then at_engine (x_books x) (EnPush request rest) x' else x')
  | EnPush request (Upd u :: rest) =>
      let '(ok, x') := push_update u x in
      Ok (if ok : bool then at_engine (x_books x) (EnPush request rest) x' else x')
  end.

(** ** [MarketDataPublisher::run] *)

Definition publisher_step (x : exchange) : outcome exchange :=
  match blocked (fd_publisher (x_feed x)), run_ (x_ctl x CPublisher) with
  | None, false => Ok (leave CPublisher x)
  | _, _ =>
      match feed_exec pub_nanos str_nanos FPublisher (x_feed x) with
      | Ok f => Ok (at_feed f (x_st_pc x) x)
      | Fault e => Fault e
      end
  end.

(** ** [SnapshotStreamer::run] *)

Definition streamer_step (clients : list (list Z)) (x : exchange) : outcome exchange :=
  match x_st_pc x with
  | StTop =>
      if run_ (x_ctl x CStreamer) then Ok (at_feed (x_feed x) StDrain x) else Ok (leave CStreamer x)
  | StDrain =>
      match getNextRead (fd_updates (x_feed x)) with
      | None => Ok (at_feed (x_feed x) StPoll x)
      | Some _ =>
          match feed_exec pub_nanos str_nanos FStreamer (x_feed x) with
          | Ok f => Ok (at_feed f StDrain x)
          | Fault e => Fault e
          end
      end
  | StPoll =>
      match feed_run pub_nanos str_nanos (FClient <$> clients) (x_feed x) with
      | Ok f => Ok (at_feed f StTop x)
      | Fault e => Fault e
      end
  end.

(** ** [main] *)

Definition main_step (x : exchange) : exchange :=
  match x_main x with
  | [] => x
  | a :: rest =>
      match act (g_running x) a (x_ctl x) with
      | Some ctl => at_main ctl rest x
      | None => x
      end
  end.

(** ** Steps and runs *)

(** A component's thread moves only while it runs. *)
Definition if_running (c : component) (step : exchange → outcome exchange) (x : exchange)
    : outcome exchange :=
  if bool_decide (thread_ (x_ctl x c) = Running) then step x else Ok x.

Definition x_exec (l : label) (x : exchange) : outcome exchange :=
  match l with
  | LMain => Ok (main_step x)
  | LSignal => Ok (set_signal false x)
  | LArrive ev => Ok (set_net (x_net x ++ [ev]) x)
  | LGateway => if_running CGateway gateway_step x
  | LEngine => if_running CEngine engine_step x
  | LPublisher => if_running CPublisher publisher_step x
  | LStreamer clients => if_running CStreamer (streamer_step clients) x
  end.

Fixpoint x_run (ls : list label) (x : exchange) : outcome exchange :=
  match ls with
  | [] => Ok x
  | l :: ls' =>
      match x_exec l x with
      | Ok x' => x_run ls' x'
      | Fault f => Fault f
      end
  end.

Lemma x_run_app ls ls' x x' :
  x_run ls x = Ok x' → x_run (ls ++ ls') x = x_run ls' x'.
Proof.
  revert x. induction ls as [|l ls IH]; intros x; simpl; [by intros [= ->]|].
  destruct (x_exec l x) as [x1|]; [by apply IH|done].
Qed.

(** The requests the engine has taken, the last perhaps still in hand. *)
Definition in_hand (x : exchange) : list MEClientRequest :=
  match x_en_pc x with EnTop => [] | EnPush rq _ => [rq] end.
Definition taken (x : exchange) : list MEClientRequest := x_done x ++ in_hand x.

(** The messages of the requests taken, and those of them not yet pushed. *)
Definition outbox (x : exchange) : list event :=
  match x_en_pc x with EnTop => [] | EnPush _ evs => evs end.

(** The network events collected and not yet handled. *)
Definition collected (x : exchange) : list net_event :=
  match x_gw_pc x with GwNet batch => batch | _ => [] end.

(** All that has arrived. *)
Definition arrived (x : exchange) : list net_event := x_handled x ++ collected x ++ x_net x.

(** What the gateway sends for the responses it routed. *)
Fixpoint deliver (n : nat) (routed : list (MEClientResponse * option sock)) : list (sock * list Z) :=
  match routed with
  | [] => []
  | (_, None) :: rest => deliver n rest
  | (r, Some socket) :: rest =>
      (socket, out_bytes (encodeOuch r (epoch_nanos n))) :: deliver (Datatypes.S n) rest
  end.
End system.
