(* ===== verification/SystemInv.v ===== *)
(** * SystemInv: every schedule of the exchange is safe

    [x_inv] ties the state of the process to the specifications of its parts:
    the gateway represents the abstract gateway after the events handled, the
    engine has run the requests it took, what it sent is what was pushed and
    what is still in its outbox, the feed has what was pushed, and the threads
    are where the main thread left them.  [x_exec_ok]: every step of every
    thread returns and preserves it. *)

From stdpp Require Import functions.
From S2P Require Import Prelude Types BookSpec DList Memory StoreRep LevelMap Levels BookSpecFacts BookTime Soundness BookCore MatchingEngine Trades OrderBookMap MapRefine MapTheorems EngineMap Queue Fifo Wire TokenManager Ouch OuchFacts OrderServer ServerFacts Gateway Exchange Itch Publisher Streamer FeedFacts ShadowBook Messages Lifecycle System.
Import Itch.

(** ** Runs of the abstract gateway and of the specification *)

Section decoding.
Context `{OuchWire} `{ByteSwap} (size : nat).

(** The abstract gateway after network events, and the requests it decoded. *)
Definition heard (evs : list net_event) : agw := foldl (a_step size) agw_new (GNet <$> evs).
Definition decoded (evs : list net_event) : list MEClientRequest := ag_requests (heard evs).

Lemma heard_app evs evs' : heard (evs ++ evs') = foldl (a_step size) (heard evs) (GNet <$> evs').
Proof. unfold heard. by rewrite fmap_app, foldl_app. Qed.

Lemma a_step_requests a op : ag_requests a `prefix_of` ag_requests (a_step size a op).
Proof.
  destruct op as [[sk bytes t| |sk]| | | |]; simpl; try done.
  - unfold a_recv. destruct (ag_fds a !! socket_fd_ sk); simpl; by apply prefix_app_r.
  - unfold a_disconnect. by destruct (ag_fds a !! socket_fd_ sk).
Qed.

Lemma decoded_prefix evs evs' : evs `prefix_of` evs' → decoded evs `prefix_of` decoded evs'.
Proof.
  intros [k ->]. unfold decoded. rewrite heard_app. generalize (heard evs). clear evs.
  induction k as [|ev k IH]; intros a; simpl; [done|].
  etrans; [apply (a_step_requests a (GNet ev))|apply IH].
Qed.

Lemma heard_next evs : ag_next (heard evs) ≤ 1 + Z.of_nat (length evs).
Proof.
  induction evs as [|ev evs IH] using rev_ind; [done|]. rewrite heard_app, length_app. simpl.
  pose proof (a_step_next size (heard evs) (GNet ev)) as Hn. simpl in Hn. lia.
Qed.

Context `{!OuchWireLaws} `{!ByteSwapLaws}.

Lemma heard_ok evs : agw_ok (heard evs).
Proof. apply a_run_ok; auto with exchange. Qed.
End decoding.

(** Everything a run sends is for the feed and about a listed ticker. *)
Lemma run_updates v books rqs se :
  length (ticker_order_book_ se) = books → Forall (update_ok books) (updates (sent_by se)) →
  Forall (update_ok books) (updates (sent_by (s_run v rqs se))).
Proof.
  revert se. induction rqs as [|rq rqs IH]; intros se Hl HF; simpl; [done|].
  apply IH; [by rewrite s_process_books|]. unfold s_process.
  destruct (ticker_order_book_ se !! _) as [sb|] eqn:Hsb; [|done].
  destruct (dispatch_about v rq sb (engine_state se)) as (evs & Hs & Habout).
  unfold sent_by. simpl. rewrite Hs, updates_app. apply Forall_app. split; [exact HF|].
  eapply Forall_impl; [exact Habout|]. intros u [Hu Hon]. split; [done|]. rewrite Hu, <- Hl.
  by eapply lookup_lt_Some.
Qed.

Lemma updates_length evs : (length (updates evs) ≤ length evs)%nat.
Proof. induction evs as [|[r|u] evs IH]; simpl; lia. Qed.

Lemma run_requests_app {B} `{OrderBook B} l rq (e e1 : engine B) :
  run_requests l e = Ok e1 → run_requests (l ++ [rq]) e = processClientRequest rq e1.
Proof.
  revert e. induction l as [|r l IH]; intros e; simpl.
  - intros [= ->]. by destruct (processClientRequest rq e1).
  - destruct (processClientRequest r e) as [e'|]; [by apply IH|done].
Qed.

Lemma s_process_sent v rq se : ∃ evs, sent_by (s_process v rq se) = sent_by se ++ evs.
Proof.
  unfold s_process. destruct (ticker_order_book_ se !! _) as [sb|].
  - destruct (dispatch_about v rq sb (engine_state se)) as (evs & Hs & _). by exists evs.
  - exists []. by rewrite app_nil_r.
Qed.

(** ** The invariant *)

Section invariant.
Context {Q R U S B : Type}.
Context `{SPSCQueueLaws MEClientRequest Q} `{SPSCQueueLaws MEClientResponse R}.
Context `{SPSCQueueLaws MEMarketUpdate U} `{SPSCQueueLaws SnapshotUpdate S}.
Context (v : variant) `{OrderBook B} `{!OrderBookLaws v B}.
Context `{StdSort} `{!StdSortLaws} `{OuchWire} `{!OuchWireLaws} `{ByteSwap} `{!ByteSwapLaws}.
Context `{ItchWire} `{!ItchWireLaws} `{HashIteration}.
Context (epoch_nanos pub_nanos str_nanos : nat → Z) (tickers pool size : nat).

Abbreviation exchange := (exchange Q R U S B).
Abbreviation x_exec := (x_exec epoch_nanos pub_nanos str_nanos).
Abbreviation x_run := (x_run epoch_nanos pub_nanos str_nanos).

(** What is asked of the clients: the requests in the bytes they send name
    listed tickers and prices the book can hold, and no ticker gets more new
    orders than its pool holds.  The other conditions keep 64-bit counters from
    wrapping around. *)
Record load_ok (evs : list net_event) : Prop := {
  lo_requests : Forall (request_ok ob_price tickers) (decoded size evs);
  lo_pool t : (new_load t (decoded size evs) ≤ pool)%nat;
  lo_tokens : Z.of_nat size + 1 < 2 ^ 64;
  lo_events : Z.of_nat (length evs) + 2 < 2 ^ 64;
  lo_messages : Z.of_nat (REQUEST_MESSAGES * length (decoded size evs)) + 1 < 2 ^ 64
}.

(** The specification of the engine on the requests taken so far. *)
Definition spec_run (x : exchange) : engine sbook := s_run v (taken x) (s_engine_new tickers).

Record x_inv (evs : list net_event) (x : exchange) : Prop := {
  xi_arrived : arrived x `prefix_of` evs;
  xi_gateway : gw_rep size (heard size (x_handled x)) (Gw (x_server x) (x_done x));
  xi_engine : run_requests (taken x) (engine_new tickers pool) = Ok (x_books x);
  xi_hand : in_hand x `prefix_of` queued (requestQ_ (x_server x));
  xi_sent : ∃ pushed,
    sent (engine_state (x_books x)) = pushed ++ outbox x ∧
    fd_input (x_feed x) = updates pushed ∧
    (x_routed x).*1 ++ queued (responseQ_ (x_server x)) = responses pushed;
  xi_sends :
    sends (x_server x) = deliver epoch_nanos 0 (x_routed x) ∧
    clock_reads (x_server x) = length (sends (x_server x));
  xi_feed : ∃ snaps F D, feed_inv str_nanos tickers (x_feed x) snaps F D;
  xi_life : ∃ k, x_main x = drop k main_program ∧ lifecycle k (x_ctl x)
}.

(** *** Consequences *)

Lemma part_ready evs l :
  load_ok evs → l ⊆+ decoded size evs → run_ready ob_price tickers pool l.
Proof.
  intros Hload Hl. eapply run_ready_submseteq; [exact Hl|]. split_and!.
  - apply Hload.
  - eapply run_regs_NoDup, (heard_ok size evs).
  - apply Hload.
Qed.

Lemma run_of_part evs l :
  load_ok evs → l ⊆+ decoded size evs →
  ∃ e, run_requests l (engine_new (B := B) tickers pool) = Ok e ∧
    engine_rel v pool e (s_run v l (s_engine_new tickers)).
Proof.
  intros Hload Hl. destruct (part_ready evs l Hload Hl) as (Hrq & Hnd & Hpool).
  apply run_ok; [apply engine_new_rel| |by apply new_admissible].
  simpl. by rewrite length_replicate.
Qed.

Lemma inv_decoded evs x :
  x_inv evs x →
  x_done x ++ queued (requestQ_ (x_server x)) ++ (request_ <$> pending (fifo_ (x_server x)))
    ⊆+ decoded size evs.
Proof.
  intros Hx. destruct (decoded_prefix size (x_handled x) evs) as [k Hk].
  { etrans; [|apply Hx]. unfold arrived. by apply prefix_app_r. }
  rewrite Hk. apply submseteq_inserts_r.
  pose proof (gr_requests _ _ _ (xi_gateway _ _ Hx)) as Hr. simpl in Hr.
  unfold decoded. by rewrite <- Hr.
Qed.

Lemma taken_decoded evs x : x_inv evs x → taken x ⊆+ decoded size evs.
Proof.
  intros Hx. etrans; [|by apply (inv_decoded evs x)]. unfold taken.
  destruct (xi_hand _ _ Hx) as [k Hk]. rewrite Hk, <- app_assoc.
  apply submseteq_app; [done|]. by apply submseteq_inserts_r.
Qed.

Lemma inv_engine evs x :
  load_ok evs → x_inv evs x → engine_rel v pool (x_books x) (spec_run x).
Proof.
  intros Hload Hx. destruct (run_of_part evs (taken x) Hload) as (e & He & Hrel).
  { by apply taken_decoded. }
  rewrite (xi_engine _ _ Hx) in He. by injection He as <-.
Qed.

Lemma inv_sent evs x :
  load_ok evs → x_inv evs x → sent (engine_state (x_books x)) = sent_by (spec_run x).
Proof. intros Hload Hx. destruct (inv_engine evs x Hload Hx) as [_ Hio]. by rewrite Hio. Qed.

(** The feed gets only updates it can publish, and few enough of them. *)
Lemma inv_updates evs x :
  load_ok evs → x_inv evs x →
  Forall (update_ok tickers) (updates (sent (engine_state (x_books x)))) ∧
  Z.of_nat (length (updates (sent (engine_state (x_books x))))) + 1 < 2 ^ 64.
Proof.
  intros Hload Hx. rewrite (inv_sent evs x Hload Hx). split.
  - apply run_updates; [apply length_replicate|constructor].
  - pose proof (updates_length (sent_by (spec_run x))).
    pose proof (new_run_messages v (taken x) tickers) as Hm.
    pose proof (submseteq_length _ _ (taken_decoded evs x Hx)).
    pose proof (lo_messages _ Hload). unfold spec_run, REQUEST_MESSAGES in *. lia.
Qed.

Lemma inv_input evs x :
  load_ok evs → x_inv evs x →
  Forall (update_ok tickers) (fd_input (x_feed x)) ∧
  Z.of_nat (length (fd_input (x_feed x))) + 1 < 2 ^ 64.
Proof.
  intros Hload Hx. destruct (inv_updates evs x Hload Hx) as [HF Hlen].
  destruct (xi_sent _ _ Hx) as (pushed & Hs & -> & _). rewrite Hs, updates_app in *.
  rewrite length_app in Hlen. apply Forall_app in HF as [? _]. split; [done|lia].
Qed.
(** *** The gateway *)

(** A step of the inbound side. *)
Lemma x_inv_inbound evs x s' pc net handled :
  x_inv evs x → inbound_only (x_server x) s' →
  gw_rep size (heard size handled) (Gw s' (x_done x)) →
  handled ++ match pc with GwNet batch => batch | _ => [] end ++ net = arrived x →
  x_inv evs (Exchange s' pc (x_books x) (x_en_pc x) (x_feed x) (x_st_pc x) (x_ctl x) (x_main x)
               (g_running x) net (x_done x) handled (x_routed x)).
Proof.
  intros [Harr _ He Hh Hs [Hsd Hck] Hf Hl] [Hsends Hreads Hresp Hq _] Hgw Harr'. split; try done.
  - unfold arrived. simpl. unfold collected. simpl. by rewrite Harr'.
  - simpl. by etrans.
  - simpl. by rewrite Hresp.
  - simpl. by rewrite Hreads, Hsends.
Qed.

Lemma inbound_only_refl (s : server Q R) : inbound_only s s.
Proof. by split. Qed.
#[local] Hint Resolve inbound_only_refl : exchange.

Lemma inv_bounds evs x :
  load_ok evs → x_inv evs x →
  0 < ag_next (heard size (x_handled x)) ∧ ag_next (heard size (x_handled x)) + 1 < 2 ^ 64.
Proof.
  intros Hload Hx. split; [apply (heard_ok size)|].
  pose proof (heard_next size (x_handled x)). pose proof (lo_events _ Hload).
  pose proof (prefix_length _ _ (xi_arrived _ _ Hx)) as Hl. unfold arrived in Hl.
  rewrite length_app in Hl. lia.
Qed.

Lemma deliver_snoc n l r o :
  deliver epoch_nanos n (l ++ [(r, o)]) =
  deliver epoch_nanos n l ++
  match o with
  | Some sk => [(sk, out_bytes (encodeOuch r (epoch_nanos (n + length (deliver epoch_nanos n l))%nat)))]
  | None => []
  end.
Proof.
  revert n. induction l as [|[r' [sk|]] l IH]; intros n; simpl.
  - rewrite Nat.add_0_r. by destruct o.
  - rewrite IH. by rewrite <- Nat.add_succ_comm.
  - by rewrite IH.
Qed.

(** A response is taken off the queue. *)
Lemma x_inv_drain evs x r rs :
  x_inv evs x → queued (responseQ_ (x_server x)) = r :: rs →
  let s' := sent_out (updateNextRead (responseQ_ (x_server x)))
              (route epoch_nanos (clientToSocket_ (x_server x)) (clock_reads (x_server x)) [r])
              (x_server x) in
  x_gw_pc x = GwDrain → x_inv evs (at_gateway s' GwDrain (log_routed r x)).
Proof.
  intros [Harr Hgw He Hh Hs [Hsd Hck] Hf Hl] Hq s' Hpc. split; try done.
  - by rewrite <- Harr; unfold arrived, collected; simpl; rewrite Hpc.
  - destruct Hgw. by split.
  - destruct Hs as (pushed & ? & ? & Hr). exists pushed. split_and!; [done..|]. simpl.
    rewrite fmap_app, pop_queued, Hq, <- app_assoc. simpl. by rewrite Hq in Hr.
  - simpl. rewrite deliver_snoc, Hck, Hsd. simpl.
    destruct (clientToSocket_ (x_server x) !! rs_client_id_ r); simpl; rewrite ?length_app; simpl;
      split; (done || lia).
Qed.

Lemma x_inv_leave evs x c :
  x_inv evs x → thread_ (x_ctl x c) = Running → run_ (x_ctl x c) = false → x_inv evs (leave c x).
Proof.
  intros [Harr Hgw He Hh Hs Hsd Hf (k & Hm & Hl)] Hr Hrun. split; try done.
  exists k. split; [done|]. by apply lifecycle_exit.
Qed.

Lemma gateway_step_ok evs x :
  load_ok evs → x_inv evs x → thread_ (x_ctl x CGateway) = Running →
  ∃ x', gateway_step epoch_nanos x = Ok x' ∧ x_inv evs x'.
Proof.
  intros Hload Hx Hrun. destruct (inv_bounds evs x Hload Hx) as [Hpos Hnext].
  pose proof (xi_gateway _ _ Hx) as Hgw. unfold gateway_step.
  destruct (x_gw_pc x) as [| | | |[|ev batch]] eqn:Hpc.
  - destruct (run_ (x_ctl x CGateway)) eqn:Hflag; eexists; (split; [done|]); [|by apply x_inv_leave].
    apply (x_inv_inbound evs x); auto with exchange. unfold arrived, collected. by rewrite Hpc.
  - destruct (queued (responseQ_ (x_server x))) as [|r rs] eqn:Hq.
    + rewrite (drain_step_none epoch_nanos) by done. eexists. split; [done|].
      apply (x_inv_inbound evs x); auto with exchange. unfold arrived, collected. by rewrite Hpc.
    + rewrite (drain_step_one epoch_nanos r rs), (next_read_cons _ _ _ Hq) by done.
      eexists. split; [done|]. by eapply x_inv_drain.
  - destruct (exec_publish size _ _ Hgw) as (g' & Hpub & Hgw'). unfold lift in Hpub. cbn [gw_server] in Hpub.
    destruct (publish (x_server x)) as [[[] s']|] eqn:Hp; [|done]. injection Hpub as <-.
    eexists. split; [done|]. apply (x_inv_inbound evs x); [done| |exact Hgw'|].
    + eapply publish_inbound; [|exact Hp]. apply Hgw.
    + unfold arrived, collected. by rewrite Hpc.
  - eexists. split; [done|]. apply (x_inv_inbound evs x); auto with exchange.
    unfold arrived, collected. by rewrite Hpc, app_nil_r.
  - eexists. split; [done|]. apply (x_inv_inbound evs x); auto with exchange.
    unfold arrived, collected. by rewrite Hpc.
  - destruct (exec_ok epoch_nanos size _ _ (GNet ev) Hgw (lo_tokens _ Hload) Hpos Hnext)
      as (g' & Hrunev & Hgw'). unfold gw_exec, lift in Hrunev. cbn [gw_server] in Hrunev.
    destruct (handle ev (x_server x)) as [[[] s']|] eqn:Hp; [|done]. injection Hrunev as <-.
    eexists. split; [done|]. apply (x_inv_inbound evs x); [done| | |].
    + by eapply (handle_inbound size _ _ ev tt s' Hgw), Hp; eapply lo_tokens.
    + simpl. rewrite heard_app. exact Hgw'.
    + simpl. unfold arrived, collected. by rewrite Hpc, <- app_assoc.
Qed.

(** *** The engine *)

Lemma taken_snoc evs x rq rest :
  x_inv evs x → x_en_pc x = EnTop → queued (requestQ_ (x_server x)) = rq :: rest →
  x_done x ++ [rq] ⊆+ decoded size evs.
Proof.
  intros Hx Hpc Hq. etrans; [|by apply (inv_decoded evs x)]. rewrite Hq.
  apply submseteq_app; [done|]. simpl. apply submseteq_skip, submseteq_nil_l.
Qed.

(** Taking a request: the books move on and the messages are at hand. *)
Lemma x_inv_take evs x rq rest :
  load_ok evs → x_inv evs x → x_en_pc x = EnTop → queued (requestQ_ (x_server x)) = rq :: rest →
  ∃ e, processClientRequest rq (x_books x) = Ok e ∧
    x_inv evs (at_engine e (EnPush rq (messages (x_books x) e)) x) ∧
    sent (engine_state e) = sent (engine_state (x_books x)) ++ messages (x_books x) e ∧
    ticker_order_book_ (s_run v (x_done x ++ [rq]) (s_engine_new tickers)) =
      ticker_order_book_ (s_process v rq (spec_run x)) ∧
    engine_rel v pool e (s_process v rq (spec_run x)).
Proof.
  intros Hload Hx Hpc Hq. assert (Htk : taken x = x_done x).
  { unfold taken, in_hand. by rewrite Hpc, app_nil_r. }
  destruct (run_of_part evs _ Hload (taken_snoc evs x rq rest Hx Hpc Hq)) as (e & He & Hrel).
  pose proof (xi_engine _ _ Hx) as Hrun. rewrite Htk in Hrun.
  pose proof (inv_engine evs x Hload Hx) as [_ Hio].
  assert (Hspec : s_run v (x_done x ++ [rq]) (s_engine_new tickers) = s_process v rq (spec_run x)).
  { unfold spec_run, s_run. by rewrite Htk, foldl_app. }
  rewrite Hspec in *. assert (Hp := He). rewrite (run_requests_app _ _ _ _ Hrun) in Hp.
  exists e. split; [done|].
  assert (Hsent : sent (engine_state e) = sent (engine_state (x_books x)) ++ messages (x_books x) e).
  { destruct (s_process_sent v rq (spec_run x)) as [evs' Hevs']. unfold messages.
    rewrite (proj2 Hrel), Hio. unfold sent_by in Hevs'. by rewrite Hevs', drop_app_length. }
  split_and!; [|done..]. destruct Hx as [Harr Hgw _ _ Hs Hsd Hf Hl]. split; try done.
  - simpl. rewrite Hq. apply prefix_cons, prefix_nil.
  - destruct Hs as (pushed & Hs1 & Hs2 & Hs3). exists pushed. split_and!; [|done..].
    unfold outbox in *. simpl. rewrite Hpc, app_nil_r in Hs1. by rewrite Hsent, Hs1.
Qed.

(** A response, or an update, goes to its queue. *)
Lemma x_inv_response evs x rq r out q :
  x_inv evs x → x_en_pc x = EnPush rq (Resp r :: out) →
  queued q = queued (responseQ_ (x_server x)) ++ [r] →
  x_inv evs (at_engine (x_books x) (EnPush rq out)
               (at_gateway (set_responses q (x_server x)) (x_gw_pc x) x)).
Proof.
  intros [Harr Hgw He Hh (pushed & Hs1 & Hs2 & Hs3) Hsd Hf Hl] Hpc Hq.
  unfold taken, in_hand, outbox in *. rewrite Hpc in *. split; try done.
  - destruct Hgw. by split.
  - exists (pushed ++ [Resp r]). unfold outbox. simpl. split_and!.
    + by rewrite <- app_assoc.
    + by rewrite updates_app, app_nil_r.
    + by rewrite responses_app, <- Hs3, Hq, app_assoc.
Qed.

Lemma x_inv_update evs x rq u out q :
  x_inv evs x → x_en_pc x = EnPush rq (Upd u :: out) →
  queued q = queued (marketUpdates_ (fd_publisher (x_feed x))) ++ [u] →
  x_inv evs (at_engine (x_books x) (EnPush rq out)
    (at_feed (Feed (with_market q (fd_publisher (x_feed x))) (fd_updates (x_feed x))
                (fd_streamer (x_feed x)) (fd_input (x_feed x) ++ [u]) (fd_answers (x_feed x)))
       (x_st_pc x) x)).
Proof.
  intros [Harr Hgw He Hh (pushed & Hs1 & Hs2 & Hs3) Hsd (snaps & F & D & Hf) Hl] Hpc Hq.
  unfold taken, in_hand, outbox in *. rewrite Hpc in *. split; try done.
  - exists (pushed ++ [Upd u]). unfold outbox. simpl. split_and!.
    + by rewrite <- app_assoc.
    + by rewrite updates_app, Hs2.
    + by rewrite responses_app, app_nil_r.
  - exists snaps, F, D. by apply feed_pushed.
Qed.

(** The request in hand is done with. *)
Lemma x_inv_done evs x rq :
  x_inv evs x → x_en_pc x = EnPush rq [] →
  let s := x_server x in
  x_inv evs (log_done rq (at_engine (x_books x) EnTop
    (at_gateway (set_staged (fifo_ s) (updateNextRead (requestQ_ s)) s) (x_gw_pc x) x))).
Proof.
  intros [Harr Hgw He Hh Hs Hsd Hf Hl] Hpc s. unfold taken, in_hand, outbox in *.
  rewrite Hpc in *. destruct Hh as [rest Hq].
  destruct (exec_pop epoch_nanos size _ _ Hgw) as (g' & Hpop & Hgw').
  unfold gw_exec in Hpop. cbn [gw_server gw_popped] in Hpop.
  rewrite (next_read_cons _ rq rest) in Hpop by done. injection Hpop as <-.
  split; try done.
  - unfold taken. simpl. unfold in_hand. simpl. by rewrite app_nil_r.
  - apply prefix_nil.
Qed.

(** One attempt at a push: refused, nothing changes; otherwise the message is in
    the queue. *)
Lemma push_response_cases r (x : exchange) :
  push_response r x = (false, x) ∧
    (capacity (responseQ_ (x_server x)) ≤ length (queued (responseQ_ (x_server x))))%nat ∨
  ∃ q, push_response r x = (true, at_gateway (set_responses q (x_server x)) (x_gw_pc x) x) ∧
    queued q = queued (responseQ_ (x_server x)) ++ [r] ∧
    capacity q = capacity (responseQ_ (x_server x)).
Proof.
  unfold push_response.
  destruct (decide (length (queued (responseQ_ (x_server x))) <
                    capacity (responseQ_ (x_server x)))%nat) as [Hlt|Hge].
  - destruct (push_room r _ Hlt) as (q & -> & Hq & Hc). right. by exists q.
  - rewrite push_full by lia. left. split; [|lia]. by destruct x as [[] ? ? ? ? ? ? ? ? ? ? ? ?].
Qed.

Lemma push_update_cases u (x : exchange) :
  push_update u x = (false, x) ∧
    (capacity (marketUpdates_ (fd_publisher (x_feed x))) ≤
     length (queued (marketUpdates_ (fd_publisher (x_feed x)))))%nat ∨
  ∃ q, push_update u x = (true,
      at_feed (Feed (with_market q (fd_publisher (x_feed x))) (fd_updates (x_feed x))
                (fd_streamer (x_feed x)) (fd_input (x_feed x) ++ [u]) (fd_answers (x_feed x)))
        (x_st_pc x) x) ∧
    queued q = queued (marketUpdates_ (fd_publisher (x_feed x))) ++ [u] ∧
    capacity q = capacity (marketUpdates_ (fd_publisher (x_feed x))).
Proof.
  unfold push_update.
  destruct (decide (length (queued (marketUpdates_ (fd_publisher (x_feed x)))) <
                    capacity (marketUpdates_ (fd_publisher (x_feed x))))%nat) as [Hlt|Hge].
  - destruct (push_room u _ Hlt) as (q & -> & Hq & Hc). right. by exists q.
  - rewrite push_full by lia. left. split; [|lia].
    by destruct x as [? ? ? ? [[] ? ? ? ?] ? ? ? ? ? ? ? ?].
Qed.

Lemma engine_step_ok evs x :
  load_ok evs → x_inv evs x → thread_ (x_ctl x CEngine) = Running →
  ∃ x', engine_step x = Ok x' ∧ x_inv evs x'.
Proof.
  intros Hload Hx Hrun. unfold engine_step.
  destruct (x_en_pc x) as [|rq [|[r|u] out]] eqn:Hpc.
  - destruct (run_ (x_ctl x CEngine)) eqn:Hflag; [|eexists; split; [done|by apply x_inv_leave]].
    destruct (queued (requestQ_ (x_server x))) as [|rq rest] eqn:Hq.
    { rewrite (next_read_nil _ Hq). by exists x. }
    rewrite (next_read_cons _ _ _ Hq).
    destruct (x_inv_take evs x rq rest Hload Hx Hpc Hq) as (e & -> & Hx' & _). eauto.
  - eexists. split; [done|]. by apply x_inv_done.
  - destruct (push_response_cases r x) as [[-> _]|(q & -> & Hq & _)]; [by exists x|].
    eexists. split; [done|]. by eapply x_inv_response.
  - destruct (push_update_cases u x) as [[-> _]|(q & -> & Hq & _)]; [by exists x|].
    eexists. split; [done|]. by eapply x_inv_update.
Qed.

(** *** The market-data threads *)

Lemma x_inv_feed evs x f pc snaps F D :
  x_inv evs x → feed_inv str_nanos tickers f snaps F D → fd_input f = fd_input (x_feed x) →
  x_inv evs (at_feed f pc x).
Proof.
  intros [Harr Hgw He Hh Hs Hsd _ Hl] Hf Hin. split; try done; [|by exists snaps, F, D].
  simpl. by rewrite Hin.
Qed.

Lemma publisher_step_ok evs x :
  load_ok evs → x_inv evs x → thread_ (x_ctl x CPublisher) = Running →
  ∃ x', publisher_step pub_nanos str_nanos x = Ok x' ∧ x_inv evs x'.
Proof.
  intros Hload Hx Hrun. unfold publisher_step.
  destruct (inv_input evs x Hload Hx) as [HF Hlen]. pose proof (xi_feed _ _ Hx) as (snaps & F & D & Hf).
  destruct (feed_publisher pub_nanos str_nanos tickers _ _ _ _ Hf HF Hlen)
    as (f' & snaps' & F' & -> & Hf' & Hin).
  assert (x_inv evs (at_feed f' (x_st_pc x) x)) by (by eapply x_inv_feed).
  destruct (blocked (fd_publisher (x_feed x))); [eauto|].
  destruct (run_ (x_ctl x CPublisher)) eqn:Hflag; [eauto|].
  eexists. split; [done|]. by apply x_inv_leave.
Qed.

Lemma feed_clients_ok clients f snaps F D :
  feed_inv str_nanos tickers f snaps F D →
  ∃ f', feed_run pub_nanos str_nanos (FClient <$> clients) f = Ok f' ∧
    feed_inv str_nanos tickers f' snaps F D ∧ fd_input f' = fd_input f ∧
    fd_updates f' = fd_updates f ∧ fd_publisher f' = fd_publisher f.
Proof.
  revert f. induction clients as [|c clients IH]; intros f Hf; simpl; [by exists f|].
  pose proof (handleClient_ok str_nanos tickers _ _ c (fi_stream _ _ _ _ _ _ Hf)) as Hst.
  destruct (handleClient str_nanos c (fd_streamer f)) as [st ans].
  apply (IH (Feed (fd_publisher f) (fd_updates f) st (fd_input f) (fd_answers f ++ [ans]))).
  destruct Hf. by split.
Qed.

Lemma streamer_step_ok evs clients x :
  load_ok evs → x_inv evs x → thread_ (x_ctl x CStreamer) = Running →
  ∃ x', streamer_step pub_nanos str_nanos clients x = Ok x' ∧ x_inv evs x'.
Proof.
  intros Hload Hx Hrun. unfold streamer_step.
  destruct (inv_input evs x Hload Hx) as [HF Hlen]. pose proof (xi_feed _ _ Hx) as (snaps & F & D & Hf).
  destruct (x_st_pc x).
  - destruct (run_ (x_ctl x CStreamer)) eqn:Hflag; eexists; (split; [done|]); [|by apply x_inv_leave].
    by eapply x_inv_feed.
  - destruct (getNextRead (fd_updates (x_feed x))); [|eexists; split; [done|]; by eapply x_inv_feed].
    destruct (feed_streamer pub_nanos str_nanos tickers _ _ _ _ Hf HF Hlen) as (f' & D' & -> & Hf' & Hin).
    eexists. split; [done|]. by eapply x_inv_feed.
  - destruct (feed_clients_ok clients _ _ _ _ Hf) as (f' & -> & Hf' & Hin & _).
    eexists. split; [done|]. by eapply x_inv_feed.
Qed.

(** *** The main thread, the signal and the network *)

Lemma main_step_ok evs x : x_inv evs x → x_inv evs (main_step x).
Proof.
  intros Hx. unfold main_step. destruct (x_main x) as [|a rest] eqn:Hm; [done|].
  destruct (act (g_running x) a (x_ctl x)) as [ctl|] eqn:Ha; [|done].
  destruct Hx as [Harr Hgw He Hh Hs Hsd Hf (k & Hk & Hl)]. split; try done.
  rewrite Hm in Hk. assert (Hnth : main_program !! k = Some a).
  { replace k with (k + 0)%nat by lia. by rewrite <- lookup_drop, <- Hk. }
  exists (Datatypes.S k). split; [|by eapply lifecycle_act].
  simpl. rewrite (drop_S _ _ _ Hnth) in Hk. by injection Hk.
Qed.

(** *** Every step *)

(** What a schedule brings from the network. *)
Definition arrivals (ls : list label) : list net_event :=
  omap (λ l, match l with LArrive ev => Some ev | _ => None end) ls.

Lemma arrivals_cons l ls : arrivals (l :: ls) = arrivals [l] ++ arrivals ls.
Proof. by destruct l. Qed.

Lemma x_exec_arrived l (x x' : exchange) :
  x_exec l x = Ok x' → arrived x' = arrived x ++ arrivals [l].
Proof.
  destruct l; simpl; rewrite ?app_nil_r; try (intros [= <-]).
  - unfold main_step. by repeat case_match.
  - done.
  - unfold arrived. simpl. by rewrite <- !app_assoc.
  - unfold if_running. case_match; [|by intros [= <-]]. unfold gateway_step, arrived, collected.
    repeat case_match; intros; simplify_eq/=; rewrite ?app_nil_r, <- ?app_assoc; try done; congruence.
  - unfold if_running. case_match; [|by intros [= <-]].
    unfold engine_step, push_response, push_update. by repeat (case_match; simplify_eq/=); intros; simplify_eq/=.
  - unfold if_running. case_match; [|by intros [= <-]].
    unfold publisher_step. by repeat (case_match; simplify_eq/=); intros; simplify_eq/=.
  - unfold if_running. case_match; [|by intros [= <-]].
    unfold streamer_step. by repeat (case_match; simplify_eq/=); intros; simplify_eq/=.
Qed.

Lemma x_exec_ok evs l x :
  load_ok evs → x_inv evs x → arrived x ++ arrivals [l] `prefix_of` evs →
  ∃ x', x_exec l x = Ok x' ∧ x_inv evs x'.
Proof.
  intros Hload Hx Hevs. destruct l; simpl; unfold if_running; try case_bool_decide; eauto.
  - eexists. split; [done|]. by apply main_step_ok.
  - eexists. split; [done|]. destruct Hx. by split.
  - eexists. split; [done|]. pose proof (x_exec_arrived (LArrive ev) x _ eq_refl) as Ha. simpl in Ha.
    destruct Hx. split; try done. by rewrite Ha.
  - by apply gateway_step_ok.
  - by apply engine_step_ok.
  - by apply publisher_step_ok.
  - by apply streamer_step_ok.
Qed.

Lemma x_run_ok evs ls x :
  load_ok evs → x_inv evs x → arrived x ++ arrivals ls `prefix_of` evs →
  ∃ x', x_run ls x = Ok x' ∧ x_inv evs x' ∧ arrived x' = arrived x ++ arrivals ls.
Proof.
  intros Hload. revert x. induction ls as [|l ls IH]; intros x Hx Hevs.
  { exists x. split_and!; [done..|]. simpl. by rewrite app_nil_r. }
  cbn [System.x_run]. rewrite arrivals_cons, app_assoc in *.
  destruct (x_exec_ok evs l x Hload Hx) as (x1 & Hl & Hx1).
  { etrans; [|exact Hevs]. by apply prefix_app_r. }
  rewrite Hl. rewrite <- (x_exec_arrived l x x1 Hl) in *. by apply IH.
Qed.

Lemma exchange_new_inv evs requestQ responseQ marketUpdateQ streamer_updates fifoPending :
  queued requestQ = [] → queued responseQ = [] → queued marketUpdateQ = [] →
  queued streamer_updates = [] →
  x_inv evs (exchange_new requestQ responseQ marketUpdateQ streamer_updates tickers pool
               fifoPending size).
Proof.
  intros Hq Hr Hu Hs. split; simpl; try done.
  - apply prefix_nil.
  - by apply gw_rep_new.
  - apply prefix_nil.
  - exists []. simpl. by rewrite Hr.
  - exists [], 0%nat, 0%nat. by apply feed_new_inv.
  - exists 0%nat. split; [done|]. auto with exchange.
Qed.
End invariant.
