(* ===== verification/SystemSafe.v ===== *)
(** * SystemSafe: from bytes to trades, responses and market data

    What every schedule of the five threads guarantees, stated against the
    specification of the engine run on the requests it took. *)

From stdpp Require Import functions.
From S2P Require Import Prelude Types BookSpec DList Memory StoreRep LevelMap Levels BookSpecFacts BookTime Soundness BookCore MatchingEngine Trades OrderBookMap MapRefine MapTheorems EngineMap Queue Fifo Wire TokenManager Ouch OuchFacts OrderServer ServerFacts Gateway Exchange Itch Publisher Streamer FeedFacts ShadowBook Messages Lifecycle System SystemInv.
Import Itch.
Import MapOB.

Section safety.
Context {Q R U S B : Type}.
Context `{SPSCQueueLaws MEClientRequest Q} `{SPSCQueueLaws MEClientResponse R}.
Context `{SPSCQueueLaws MEMarketUpdate U} `{SPSCQueueLaws SnapshotUpdate S}.
Context (v : variant) `{OrderBook B} `{!OrderBookLaws v B}.
Context `{StdSort} `{!StdSortLaws} `{OuchWire} `{!OuchWireLaws} `{ByteSwap} `{!ByteSwapLaws}.
Context `{ItchWire} `{!ItchWireLaws} `{HashIteration}.
Context (epoch_nanos pub_nanos str_nanos : nat → Z) (tickers pool size : nat).

Abbreviation exchange := (exchange Q R U S B).
Abbreviation x_run := (x_run epoch_nanos pub_nanos str_nanos).

(** The four queues are empty when [main] constructs the components. *)
Record queues_empty (requestQ : Q) (responseQ : R) (marketUpdateQ : U) (streamer_updates : S)
    : Prop := {
  qe_requests : queued requestQ = [];
  qe_responses : queued responseQ = [];
  qe_updates : queued marketUpdateQ = [];
  qe_streamer : queued streamer_updates = []
}.

Lemma start_run rq rs mu su fifoPending ls :
  queues_empty rq rs mu su → load_ok v tickers pool size (arrivals ls) →
  ∃ x, x_run ls (exchange_new (B := B) rq rs mu su tickers pool fifoPending size) = Ok x ∧
    x_inv epoch_nanos str_nanos tickers pool size (arrivals ls) x ∧ arrived x = arrivals ls.
Proof.
  intros [Hq Hr Hu Hs] Hload. apply (x_run_ok v); [done|by apply exchange_new_inv|done].
Qed.

(** What the feed has published of the updates of the specification. *)
Lemma published evs x :
  load_ok v tickers pool size evs → x_inv epoch_nanos str_nanos tickers pool size evs x →
  let us := updates (sent_by (spec_run v tickers x)) in
  (∀ k d, datagrams (fd_publisher (x_feed x)) !! k = Some d →
     ∃ u ns m, us !! k = Some u ∧ encode u ns = Some m ∧
       d = seq_prefix (1 + Z.of_nat k) ++ itch_bytes m) ∧
  shadow_book_ (fd_streamer (x_feed x)) =
    foldl books_after (replicate tickers ∅)
      (take (Z.to_nat (last_seq_num_ (fd_streamer (x_feed x)))) us).
Proof.
  intros Hload Hx us. destruct (xi_feed _ _ _ _ _ _ _ Hx) as (snaps & F & D & Hf).
  destruct (xi_sent _ _ _ _ _ _ _ Hx) as (pushed & Hs & Hin & _).
  rewrite (inv_sent v _ _ _ _ _ evs x Hload Hx) in Hs.
  assert (Hus : us = fd_input (x_feed x) ++ updates (outbox x)).
  { unfold us. by rewrite Hs, updates_app, Hin. }
  split.
  - intros k d. rewrite (fi_datagrams _ _ _ _ _ _ Hf), list_lookup_fmap.
    destruct (snaps !! k) as [sn|] eqn:Hk; simpl; [|done]. intros [= <-].
    destruct (fi_snaps _ _ _ _ _ _ Hf k sn Hk) as [Hseq Hup (ns & m & He & Hb)].
    exists (su_update_ sn), ns, m. split_and!; [|done|unfold frame; by rewrite Hseq, Hb].
    rewrite Hus. by apply lookup_app_l_Some.
  - destruct (books_of_input str_nanos tickers (x_feed x) snaps F D Hf) as [Hle Hb].
    rewrite Hb, Hus, take_app_le by done. done.
Qed.

(** C2: Whatever bytes arrive on whatever sockets, however the five threads, the
    signal and the recovery clients interleave and however full the queues get:
    if the decoded requests name listed tickers and prices the book can hold, no
    ticker gets more NEW requests in the whole run than its pool has slots and
    no 64-bit counter wraps, then no thread faults; the engine has run requests
    the gateway decoded, none twice, and its books and counters are those of the
    specification; the responses routed so far are the first responses of the
    specification, in order, each encoded for the socket its client had; the
    k-th datagram is the sequence number k and the encoding of the k-th update
    of the specification; and the streamer's shadow book is the fold of the
    updates up to its sequence number. *)
Theorem exchange_end_to_end (rq : Q) (rs : R) (mu : U) (su : S) (fifoPending : nat)
    (ls : list label) :
  queues_empty rq rs mu su → load_ok v tickers pool size (arrivals ls) →
  ∃ x, x_run ls (exchange_new (B := B) rq rs mu su tickers pool fifoPending size) = Ok x ∧
    let spec := spec_run v tickers x in
    x_done x ++ queued (requestQ_ (x_server x)) ++ (request_ <$> pending (fifo_ (x_server x)))
      ⊆+ decoded size (arrivals ls) ∧
    taken x `prefix_of` x_done x ++ queued (requestQ_ (x_server x)) ∧
    engine_rel v pool (x_books x) spec ∧
    (x_routed x).*1 `prefix_of` responses (sent_by spec) ∧
    sends (x_server x) = deliver epoch_nanos 0 (x_routed x) ∧
    (∀ k d, datagrams (fd_publisher (x_feed x)) !! k = Some d →
       ∃ u ns m, updates (sent_by spec) !! k = Some u ∧ encode u ns = Some m ∧
         d = seq_prefix (1 + Z.of_nat k) ++ itch_bytes m) ∧
    shadow_book_ (fd_streamer (x_feed x)) =
      foldl books_after (replicate tickers ∅)
        (take (Z.to_nat (last_seq_num_ (fd_streamer (x_feed x)))) (updates (sent_by spec))).
Proof.
  intros Hqs Hload. destruct (start_run rq rs mu su fifoPending ls Hqs Hload) as (x & Hrun & Hx & _).
  exists x. split; [done|]. intros spec.
  destruct (published _ x Hload Hx) as [Hdg Hshadow].
  destruct (xi_sent _ _ _ _ _ _ _ Hx) as (pushed & Hs & _ & Hr).
  rewrite (inv_sent v _ _ _ _ _ _ x Hload Hx) in Hs. split_and!.
  - by eapply inv_decoded.
  - destruct (xi_hand _ _ _ _ _ _ _ Hx) as [k Hk]. exists k. unfold taken. by rewrite Hk, app_assoc.
  - by eapply inv_engine.
  - unfold spec. rewrite Hs, responses_app, <- Hr, <- app_assoc. by apply prefix_app_r.
  - apply Hx.
  - done.
  - done.
Qed.
End safety.

(** ** A concrete run

    One ticker, queues that hold a single element each.  Two clients trade with
    each other while main, gateway, engine, publisher and streamer take turns. *)

Abbreviation demo_exchange :=
  (exchange (list_queue MEClientRequest) (list_queue MEClientResponse) (list_queue MEMarketUpdate)
     (list_queue SnapshotUpdate) (book SetPool.t map_levels)).

Definition demo_exchange_new : demo_exchange :=
  exchange_new (H3 := map_order_book id) (ListQueue 1 []) (ListQueue 1 []) (ListQueue 1 [])
    (ListQueue 1 []) 1 8 4 16.

Definition demo_sell (c : Z) : list Z := enter_msg (tok c) 83 10 0 100 99998.

(** Everybody starts, both orders arrive. *)
Definition demo_arrivals : list label :=
  replicate 8 LMain ++
  [ LArrive (NRecv sockA (demo_enter 65) 10); LArrive (NRecv sockB (demo_sell 66) 12);
    LArrive NRecvFinished ].

Definition demo_round : list label := [LMain; LGateway; LEngine; LPublisher; LStreamer []].

Definition demo_x_run (ls : list label) (x : demo_exchange) : outcome demo_exchange :=
  x_run (H3 := map_order_book id) (H4 := stable_sort) (H8 := list_iteration)
    demo_clock demo_clock demo_clock ls x.

Lemma demo_load : load_ok (H7 := map_order_book (P := SetPool.t) id)
  (OrderBookLaws0 := map_order_book_laws id (λ l Hl, Hl)) MapBook 1 8 16 (arrivals demo_arrivals).
Proof.
  split.
  - let d := eval vm_compute in (decoded 16 (arrivals demo_arrivals)) in
      replace (decoded 16 (arrivals demo_arrivals)) with d by (vm_compute; reflexivity).
    apply Forall_cons. split; [|apply Forall_cons; split; [|by apply Forall_nil]];
      (split; [simpl; lia|]; split; [simpl; lia|by right]).
  - intros t. etrans; [apply new_load_le|]. vm_compute. lia.
  - lia.
  - vm_compute. reflexivity.
  - vm_compute. reflexivity.
Qed.

Lemma demo_queues : queues_empty (H0 := list_queue_laws _) (H2 := list_queue_laws _)
  (H4 := list_queue_laws _) (H6 := list_queue_laws _)
  (ListQueue 1 [] : list_queue MEClientRequest) (ListQueue 1 [] : list_queue MEClientResponse)
  (ListQueue 1 [] : list_queue MEMarketUpdate) (ListQueue 1 [] : list_queue SnapshotUpdate).
Proof. by split. Qed.

(** After forty rounds the engine has taken both orders and the four messages
    went to the two sockets; two updates were published. *)
Lemma exchange_end_to_end_witness :
  ∃ x, demo_x_run (demo_arrivals ++ concat (replicate 40 demo_round)) demo_exchange_new = Ok x ∧
    (rq_client_id_ <$> taken x) = [1; 2] ∧ (fst <$> sends (x_server x)) = [sockA; sockB; sockA; sockB] ∧
    length (datagrams (fd_publisher (x_feed x))) = 2%nat.
Proof.
  assert (Harr : arrivals (demo_arrivals ++ concat (replicate 40 demo_round)) = arrivals demo_arrivals)
    by (vm_compute; reflexivity).
  pose proof demo_load as Hload. rewrite <- Harr in Hload.
  destruct (exchange_end_to_end (H0 := list_queue_laws _) (H2 := list_queue_laws _)
    (H4 := list_queue_laws _) (H6 := list_queue_laws _) (H7 := map_order_book (P := SetPool.t) id)
    (OrderBookLaws0 := map_order_book_laws id (λ l Hl, Hl)) (H8 := stable_sort) (H16 := list_iteration)
    MapBook demo_clock demo_clock demo_clock 1 8 16 _ _ _ _ 4 _ demo_queues Hload) as (x & Hrun & _).
  exists x. split; [exact Hrun|]. vm_compute in Hrun. injection Hrun as <-. split_and!; reflexivity.
Defined.
