(* ===== verification/Fair.v ===== *)
(** * Fair: reaching a goal under every fair schedule

    A schedule is a list of labels; it is fair for [k] rounds when it can be cut
    into [k] pieces in each of which every thread moves at least once.  The
    argument for progress is the usual one: a measure that no step increases
    and, as long as the goal is not reached, a thread that needs at most [bound]
    steps of its own to decrease it, whatever the other threads do meanwhile.
    The conclusion is not only that the goal is reached eventually: it holds
    after [bound * measure] rounds. *)

From S2P Require Import Prelude.

Section rounds.
Context {L T : Type} (mover : L → option T).

Definition round (ls : list L) : Prop := ∀ t, Exists (λ l, mover l = Some t) ls.

Definition rounds (k : nat) (ls : list L) : Prop :=
  ∃ segs, length segs = k ∧ concat segs = ls ∧ Forall round segs.

Lemma rounds_O : rounds 0 [].
Proof. by exists []. Qed.

Lemma rounds_replicate k seg : round seg → rounds k (concat (replicate k seg)).
Proof.
  intros Hs. exists (replicate k seg). split_and!; [by rewrite length_replicate|done|].
  by apply Forall_replicate.
Qed.

Lemma rounds_S k ls :
  rounds (S k) ls → ∃ seg ls', ls = seg ++ ls' ∧ round seg ∧ rounds k ls'.
Proof.
  intros ([|seg segs] & Hl & <- & HF); [done|]. apply Forall_cons in HF as [? ?].
  exists seg, (concat segs). split_and!; [done..|]. exists segs. split_and!; [simpl in Hl; lia|done..].
Qed.

Lemma rounds_split k k' ls :
  rounds (k + k') ls → ∃ ls1 ls2, ls = ls1 ++ ls2 ∧ rounds k ls1 ∧ rounds k' ls2.
Proof.
  intros (segs & Hl & <- & HF). exists (concat (take k segs)), (concat (drop k segs)).
  rewrite <- concat_app, take_drop. split_and!; [done| |].
  - exists (take k segs). rewrite length_take. split_and!; [lia|done|by apply Forall_take].
  - exists (drop k segs). rewrite length_drop. split_and!; [lia|done|by apply Forall_drop].
Qed.
End rounds.

Section progress.
Context {X L T : Type} `{EqDecision T} (mover : L → option T).
Context (exec : L → X → outcome X).

Fixpoint run (ls : list L) (x : X) : outcome X :=
  match ls with
  | [] => Ok x
  | l :: ls' => match exec l x with Ok x' => run ls' x' | Fault f => Fault f end
  end.

Lemma run_app ls ls' x x1 : run ls x = Ok x1 → run (ls ++ ls') x = run ls' x1.
Proof.
  revert x. induction ls as [|l ls IH]; intros x; simpl; [by intros [= ->]|].
  destruct (exec l x); [apply IH|done].
Qed.

(** [calm] are the labels of the schedules considered, [I] what holds along them. *)
Context (calm : L → Prop) (I goal : X → Prop) (work : X → nat).
Context (helps : X → T → nat → Prop) (bound : nat).

Hypothesis step_ok : ∀ x l, I x → calm l →
  ∃ x', exec l x = Ok x' ∧ I x' ∧ (work x' ≤ work x)%nat ∧ (goal x → goal x').
Hypothesis someone_helps : ∀ x, I x → goal x ∨ ∃ t d, (d < bound)%nat ∧ helps x t d.
Hypothesis goal_or_work : ∀ x, I x → work x = 0%nat → goal x.
Hypothesis still_helps : ∀ x l x' t d,
  I x → calm l → exec l x = Ok x' → helps x t d →
  (work x' < work x)%nat ∨
  if decide (mover l = Some t) then ∃ d', d = S d' ∧ helps x' t d' else helps x' t d.

Lemma calm_run ls x :
  I x → Forall calm ls →
  ∃ x', run ls x = Ok x' ∧ I x' ∧ (work x' ≤ work x)%nat ∧ (goal x → goal x').
Proof.
  revert x. induction ls as [|l ls IH]; intros x Hx Hc; simpl; [by exists x|].
  apply Forall_cons in Hc as [Hl Hc]. destruct (step_ok x l Hx Hl) as (x1 & -> & Hx1 & Hw1 & Hg1).
  destruct (IH x1 Hx1 Hc) as (x' & ? & ? & ? & ?). exists x'. split_and!; [done..|lia|auto].
Qed.

(** A helping thread that moves gets closer. *)
Lemma helper_moves ls x x' t d :
  I x → Forall calm ls → helps x t d → run ls x = Ok x' → Exists (λ l, mover l = Some t) ls →
  (work x' < work x)%nat ∨ ∃ d', (d' < d)%nat ∧ helps x' t d'.
Proof.
  intros Hx Hc Hh Hrun Hex.
  assert (Hgen : (work x' < work x)%nat ∨ ∃ d', (d' ≤ d)%nat ∧ helps x' t d' ∧
    (Exists (λ l, mover l = Some t) ls → d' < d)%nat).
  { clear Hex. revert x d Hx Hh Hrun. induction ls as [|l ls IH]; intros x d Hx Hh Hrun; simpl in *.
    { injection Hrun as ->. right. exists d. split_and!; [lia|done|]. by intros ?%Exists_nil. }
    apply Forall_cons in Hc as [Hl Hc]. destruct (step_ok x l Hx Hl) as (x1 & Hexec & Hx1 & Hw1 & _).
    rewrite Hexec in Hrun. destruct (calm_run ls x1 Hx1 Hc) as (x2 & Hrun2 & _ & Hw2 & _).
    rewrite Hrun in Hrun2. injection Hrun2 as <-.
    destruct (still_helps x l x1 t d Hx Hl Hexec Hh) as [?|Hh1]; [left; lia|].
    destruct (decide (mover l = Some t)) as [Hm|Hm].
    - destruct Hh1 as (d1 & -> & Hh1). destruct (IH Hc x1 d1 Hx1 Hh1 Hrun) as [?|(d' & ? & ? & ?)];
        [left; lia|]. right. exists d'. split_and!; [lia|done|intros; lia].
    - destruct (IH Hc x1 d Hx1 Hh1 Hrun) as [?|(d' & ? & ? & Hd')]; [left; lia|].
      right. exists d'. split_and!; [lia|done|]. intros [?|?]%Exists_cons; [done|auto]. }
  destruct Hgen as [?|(d' & ? & ? & Hd')]; [by left|]. right. eauto.
Qed.

Lemma helper_works k ls x x' t d :
  I x → Forall calm ls → helps x t d → (d < k)%nat → rounds mover k ls → run ls x = Ok x' →
  (work x' < work x)%nat.
Proof.
  revert ls x d. induction k as [|k IH]; intros ls x d Hx Hc Hh Hd Hr Hrun; [lia|].
  apply rounds_S in Hr as (seg & ls' & -> & Hseg & Hr). apply Forall_app in Hc as [Hc1 Hc2].
  destruct (calm_run seg x Hx Hc1) as (x1 & Hrun1 & Hx1 & Hw1 & _).
  rewrite (run_app _ _ _ _ Hrun1) in Hrun.
  destruct (calm_run ls' x1 Hx1 Hc2) as (x2 & Hrun2 & _ & Hw2 & _).
  rewrite Hrun in Hrun2. injection Hrun2 as <-.
  destruct (helper_moves seg x x1 t d Hx Hc1 Hh Hrun1 (Hseg t)) as [?|(d' & Hd' & Hh1)]; [lia|].
  pose proof (IH ls' x1 d' Hx1 Hc2 Hh1 ltac:(lia) Hr Hrun). lia.
Qed.

Lemma rounds_reach n ls x :
  I x → Forall calm ls → (work x ≤ n)%nat → rounds mover (bound * n) ls →
  ∃ x', run ls x = Ok x' ∧ I x' ∧ goal x'.
Proof.
  revert ls x. induction n as [|n IH]; intros ls x Hx Hc Hw Hr.
  { destruct (calm_run ls x Hx Hc) as (x' & Hrun & Hx' & Hw' & Hg). exists x'. split_and!; [done..|].
    apply Hg, goal_or_work; [done|lia]. }
  destruct (someone_helps x Hx) as [Hg|(t & d & Hd & Hh)].
  { destruct (calm_run ls x Hx Hc) as (x' & Hrun & Hx' & Hw' & Hg'). eauto. }
  replace (bound * S n)%nat with (bound + bound * n)%nat in Hr by lia.
  apply rounds_split in Hr as (ls1 & ls2 & -> & Hr1 & Hr2). apply Forall_app in Hc as [Hc1 Hc2].
  destruct (calm_run ls1 x Hx Hc1) as (x1 & Hrun1 & Hx1 & _).
  pose proof (helper_works bound ls1 x x1 t d Hx Hc1 Hh Hd Hr1 Hrun1).
  rewrite (run_app _ _ _ _ Hrun1). apply IH; [done|done|lia|done].
Qed.
End progress.
