(* ===== verification/Progress.v ===== *)
(** * Progress: the exchange keeps up

    The engine pushes its messages blockingly, the gateway pushes requests
    without waiting and drains responses first.  Here: whatever the threads have
    in their queues, they work it off.  [work] weighs everything that is under
    way, from bytes not yet read to updates not yet with the streamer; no step
    increases it, and as long as there is something to do some thread can
    decrease it without waiting for another one: the streamer first, then the
    publisher, the gateway's drain, the engine, the gateway's publishing and
    reading.  A resting order weighs as much as the messages its execution may
    still cause ([Messages]). *)

From stdpp Require Import functions.
From S2P Require Import Prelude Types BookSpec DList Memory StoreRep LevelMap Levels BookSpecFacts BookTime Soundness BookCore MatchingEngine Trades OrderBookMap MapRefine MapTheorems EngineMap Queue Fifo Wire TokenManager Ouch OuchFacts OrderServer ServerFacts Gateway Exchange Itch Publisher Streamer FeedFacts ShadowBook Messages Lifecycle System SystemInv Fair.
Import Itch.

Local Open Scope nat_scope.

(** ** Where the main thread waits *)

(** [main] is in its waiting loop. *)
Definition SERVING : nat := 8.

Lemma drop_program k k' :
  k ≤ length main_program → k' ≤ length main_program →
  drop k main_program = drop k' main_program → k = k'.
Proof. intros Hk Hk' Heq. apply (f_equal length) in Heq. rewrite !length_drop in Heq. lia. Qed.

Lemma serving_threads ctl :
  lifecycle SERVING ctl → ∀ c, run_ (ctl c) = true ∧ thread_ (ctl c) = Running.
Proof.
  intros [_ Hok] c. destruct (Hok c) as [Hf Ht].
  assert (Hr : run_ (ctl c) = true) by (rewrite Hf; destruct c; reflexivity).
  split; [done|]. rewrite Hr in Ht.
  assert (Hs : spawned (take SERVING main_program) c = true) by (destruct c; reflexivity).
  assert (Hj : joined (take SERVING main_program) c = false) by (destruct c; reflexivity).
  destruct (thread_ (ctl c)); [congruence|done|naive_solver|congruence].
Qed.

Section progress.
Context {Q R U S B : Type}.
Context `{SPSCQueueLaws MEClientRequest Q} `{SPSCQueueLaws MEClientResponse R}.
Context `{SPSCQueueLaws MEMarketUpdate U} `{SPSCQueueLaws SnapshotUpdate S}.
Context (v : variant) `{OrderBook B} `{!OrderBookLaws v B}.
Context `{StdSort} `{!StdSortLaws} `{OuchWire} `{!OuchWireLaws} `{ByteSwap} `{!ByteSwapLaws}.
Context `{ItchWire} `{!ItchWireLaws} `{HashIteration}.
Context (epoch_nanos pub_nanos str_nanos : nat → Z) (tickers pool size : nat).

Abbreviation exchange := (exchange Q R U S B).
Abbreviation x_exec := (x_exec epoch_nanos pub_nanos str_nanos).
Abbreviation x_run := (x_run epoch_nanos pub_nanos str_nanos).
Abbreviation x_inv := (x_inv epoch_nanos str_nanos tickers pool size).
Abbreviation load_ok := (load_ok v tickers pool size).

(** ** What is under way *)

Record backlog := Backlog {
  b_undecoded : nat;      (** requests in bytes not yet handled *)
  b_events : nat;         (** network events not yet handled *)
  b_staged : nat;         (** requests in the sequencer *)
  b_queued : nat;         (** requests in the request queue *)
  b_engine : engine_pc;   (** the request in hand and its messages *)
  b_resting : nat;        (** resting orders *)
  b_responses : nat;      (** responses in their queue *)
  b_updates : nat;        (** updates in their queue *)
  b_blocked : bool;       (** the publisher waits for the streamer *)
  b_streamer : nat        (** updates in the streamer's queue *)
}.

Definition backlog_of (x : exchange) : backlog := Backlog
  (length (decoded size (arrived x)) - length (decoded size (x_handled x)))
  (length (collected x ++ x_net x))
  (length (pending (fifo_ (x_server x))))
  (length (queued (requestQ_ (x_server x))))
  (x_en_pc x)
  (resting (ticker_order_book_ (spec_run v tickers x)))
  (length (queued (responseQ_ (x_server x))))
  (length (queued (marketUpdates_ (fd_publisher (x_feed x)))))
  (bool_decide (is_Some (blocked (fd_publisher (x_feed x)))))
  (length (queued (fd_updates (x_feed x)))).

(** A message not yet pushed: it will be pushed and, if it is an update, read,
    sent and pushed again, and drained. *)
Definition message_weight (e : event) : nat := match e with Resp _ => 2 | Upd _ => 4 end.
Definition outbox_weight (evs : list event) : nat := sum_list (message_weight <$> evs).

Definition engine_weight (queued : nat) (pc : engine_pc) : nat :=
  match pc with
  | EnTop => 34 * queued
  | EnPush _ evs => 34 * (queued - 1) + 1 + outbox_weight evs
  end.

Definition feed_weight (b : backlog) : nat :=
  if b_blocked b then 3 * (b_updates b - 1) + 2 + b_streamer b else 3 * b_updates b + b_streamer b.

Definition weight (b : backlog) : nat :=
  36 * b_undecoded b + b_events b + 35 * b_staged b + engine_weight (b_queued b) (b_engine b) +
  12 * b_resting b + b_responses b + feed_weight b.

Definition work (x : exchange) : nat := weight (backlog_of x).

(** Nothing is under way. *)
Record quiet (x : exchange) : Prop := {
  q_net : collected x = [] ∧ x_net x = [];
  q_staged : pending (fifo_ (x_server x)) = [];
  q_queued : queued (requestQ_ (x_server x)) = [];
  q_engine : x_en_pc x = EnTop;
  q_responses : queued (responseQ_ (x_server x)) = [];
  q_updates : queued (marketUpdates_ (fd_publisher (x_feed x))) = [];
  q_blocked : blocked (fd_publisher (x_feed x)) = None;
  q_streamer : queued (fd_updates (x_feed x)) = []
}.

Lemma outbox_weight_cons e evs :
  outbox_weight (e :: evs) = message_weight e + outbox_weight evs.
Proof. done. Qed.

Lemma outbox_weight_le evs : outbox_weight evs ≤ 4 * length evs.
Proof.
  induction evs as [|e evs IH]; [done|]. rewrite outbox_weight_cons. cbn [length].
  destruct e; cbn [message_weight]; lia. Qed.

(** *** Capacities *)

Definition capacities (x : exchange) : nat * nat * nat * nat :=
  (capacity (requestQ_ (x_server x)), capacity (responseQ_ (x_server x)),
   capacity (marketUpdates_ (fd_publisher (x_feed x))), capacity (fd_updates (x_feed x))).

Definition roomy (c : nat * nat * nat * nat) : Prop :=
  let '(q, r, u, s) := c in 0 < q ∧ 0 < r ∧ 0 < u ∧ 0 < s.

(** [moved x x']: the step did some of the work, or changed nothing that
    counts. *)
Definition moved (x x' : exchange) : Prop :=
  capacities x' = capacities x ∧ (work x' < work x ∨ backlog_of x' = backlog_of x).

Lemma moved_refl x : moved x x.
Proof. split; auto. Qed.
(** Compare the weights of backlogs. *)
Ltac weigh :=
  unfold weight, feed_weight, engine_weight;
  cbn [b_undecoded b_events b_staged b_queued b_engine b_resting b_responses b_updates b_blocked
       b_streamer].

(** What the engine and the feed change of a backlog. *)
Definition with_engine (q : nat) (pc : engine_pc) (r : nat) (b : backlog) : backlog :=
  Backlog (b_undecoded b) (b_events b) (b_staged b) q pc r (b_responses b)
    (b_updates b) (b_blocked b) (b_streamer b).
Definition with_responses (r : nat) (b : backlog) : backlog :=
  Backlog (b_undecoded b) (b_events b) (b_staged b) (b_queued b) (b_engine b) (b_resting b) r
    (b_updates b) (b_blocked b) (b_streamer b).
Definition with_feed (u : nat) (bl : bool) (s : nat) (b : backlog) : backlog :=
  Backlog (b_undecoded b) (b_events b) (b_staged b) (b_queued b) (b_engine b) (b_resting b)
    (b_responses b) u bl s.

(** The update of a blocked publisher is still in the queue. *)
Lemma blocked_update evs x :
  x_inv evs x → is_Some (blocked (fd_publisher (x_feed x))) →
  1 ≤ length (queued (marketUpdates_ (fd_publisher (x_feed x)))).
Proof.
  intros Hx [s Hb]. destruct (xi_feed _ _ _ _ _ _ _ Hx) as (snaps & F & D & Hf).
  pose proof (fi_finished _ _ _ _ _ _ Hf) as Hfin. rewrite Hb in Hfin. destruct Hfin as [HF _].
  pose proof (lookup_lt_Some _ _ _ (sn_update _ _ _ (fi_snaps _ _ _ _ _ _ Hf _ _ HF))).
  rewrite (fi_market _ _ _ _ _ _ Hf), length_drop. lia.
Qed.

(** *** The engine *)

(** The engine has a request and room for its messages. *)
Definition engine_can (x : exchange) : Prop :=
  (x_en_pc x ≠ EnTop ∨ queued (requestQ_ (x_server x)) ≠ []) ∧
  length (queued (responseQ_ (x_server x))) < capacity (responseQ_ (x_server x)) ∧
  length (queued (marketUpdates_ (fd_publisher (x_feed x)))) <
    capacity (marketUpdates_ (fd_publisher (x_feed x))).

Lemma spec_run_hand (x x' : exchange) :
  taken x' = taken x → spec_run v tickers x' = spec_run v tickers x.
Proof. intros Ht. unfold spec_run. by rewrite Ht. Qed.

(** Taking a request costs less than the request weighed. *)
Lemma take_work evs x rq rest e :
  load_ok evs → x_inv evs x → x_en_pc x = EnTop → queued (requestQ_ (x_server x)) = rq :: rest →
  processClientRequest rq (x_books x) = Ok e →
  work (at_engine e (EnPush rq (messages (x_books x) e)) x) < work x.
Proof.
  intros Hload Hx Hpc Hq Hp.
  destruct (x_inv_take v epoch_nanos str_nanos tickers pool size evs x rq rest Hload Hx Hpc Hq)
    as (e' & Hp' & _ & Hsent & Hbooks & Hrel).
  rewrite Hp in Hp'. injection Hp' as <-.
  pose proof (inv_sent v epoch_nanos str_nanos tickers pool size evs x Hload Hx) as Hs.
  pose proof (process_messages v rq (spec_run v tickers x)) as Hm. unfold sent_by at 1 in Hm.
  rewrite <- (proj2 Hrel), Hsent, length_app, Hs in Hm.
  pose proof (outbox_weight_le (messages (x_books x) e)) as Hw.
  set (x' := at_engine _ _ x). unfold work.
  assert (backlog_of x' = with_engine (b_queued (backlog_of x)) (EnPush rq (messages (x_books x) e))
    (resting (ticker_order_book_ (s_process v rq (spec_run v tickers x)))) (backlog_of x)) as ->.
  { unfold with_engine, backlog_of. cbn. do 2 f_equal. exact Hbooks. }
  unfold with_engine, REQUEST_MESSAGES in *. weigh. unfold backlog_of.
  cbn [b_undecoded b_events b_staged b_queued b_engine b_resting b_responses b_updates b_blocked b_streamer].
  rewrite Hpc, Hq. cbn [length]. destruct (bool_decide _); lia.
Qed.

Lemma response_work x rq r out q :
  x_en_pc x = EnPush rq (Resp r :: out) → queued q = queued (responseQ_ (x_server x)) ++ [r] →
  work (at_engine (x_books x) (EnPush rq out)
          (at_gateway (set_responses q (x_server x)) (x_gw_pc x) x)) < work x.
Proof.
  intros Hpc Hq. set (x' := at_engine _ _ _). unfold work.
  assert (backlog_of x' = with_responses (1 + b_responses (backlog_of x))
    (with_engine (b_queued (backlog_of x)) (EnPush rq out) (b_resting (backlog_of x)) (backlog_of x))) as ->.
  { unfold with_responses, with_engine, backlog_of.
    rewrite (spec_run_hand x x') by (unfold taken, in_hand; by rewrite Hpc).
    cbn. rewrite Hq, (length_app _ [r]), (Nat.add_comm _ (length [r])). done. }
  unfold with_responses, with_engine. weigh. unfold backlog_of.
  cbn [b_undecoded b_events b_staged b_queued b_engine b_resting b_responses b_updates b_blocked b_streamer].
  rewrite Hpc, outbox_weight_cons. cbn [message_weight]. destruct (bool_decide _); lia.
Qed.

Lemma update_work evs x rq u out q :
  x_inv evs x → x_en_pc x = EnPush rq (Upd u :: out) →
  queued q = queued (marketUpdates_ (fd_publisher (x_feed x))) ++ [u] →
  work (at_engine (x_books x) (EnPush rq out)
    (at_feed (Feed (with_market q (fd_publisher (x_feed x))) (fd_updates (x_feed x))
                (fd_streamer (x_feed x)) (fd_input (x_feed x) ++ [u]) (fd_answers (x_feed x)))
       (x_st_pc x) x)) < work x.
Proof.
  intros Hx Hpc Hq. set (x' := at_engine _ _ _). unfold work.
  assert (backlog_of x' = with_feed (1 + b_updates (backlog_of x)) (b_blocked (backlog_of x))
    (b_streamer (backlog_of x))
    (with_engine (b_queued (backlog_of x)) (EnPush rq out) (b_resting (backlog_of x)) (backlog_of x))) as ->.
  { unfold with_feed, with_engine, backlog_of.
    rewrite (spec_run_hand x x') by (unfold taken, in_hand; by rewrite Hpc).
    cbn. rewrite Hq, (length_app _ [u]), (Nat.add_comm _ (length [u])). done. }
  unfold with_feed, with_engine. weigh. unfold backlog_of.
  cbn [b_undecoded b_events b_staged b_queued b_engine b_resting b_responses b_updates b_blocked b_streamer].
  rewrite Hpc, outbox_weight_cons. cbn [message_weight]. case_bool_decide as Hb; [|lia].
  pose proof (blocked_update evs x Hx Hb). lia.
Qed.

Lemma done_work evs x rq :
  x_inv evs x → x_en_pc x = EnPush rq [] →
  let s := x_server x in
  work (log_done rq (at_engine (x_books x) EnTop
    (at_gateway (set_staged (fifo_ s) (updateNextRead (requestQ_ s)) s) (x_gw_pc x) x))) < work x.
Proof.
  intros Hx Hpc s. destruct (xi_hand _ _ _ _ _ _ _ Hx) as [rest Hq].
  unfold in_hand in Hq. rewrite Hpc in Hq. set (x' := log_done _ _). unfold work.
  assert (backlog_of x' = with_engine (b_queued (backlog_of x) - 1) EnTop (b_resting (backlog_of x))
    (backlog_of x)) as ->.
  { unfold with_engine, backlog_of.
    rewrite (spec_run_hand x x') by (unfold taken, in_hand; rewrite Hpc; cbn; by rewrite app_nil_r).
    cbn. unfold s. rewrite pop_queued, Hq. cbn. by rewrite Nat.sub_0_r. }
  unfold with_engine. weigh. unfold backlog_of.
  cbn [b_undecoded b_events b_staged b_queued b_engine b_resting b_responses b_updates b_blocked b_streamer].
  rewrite Hpc, Hq. cbn [length app]. destruct (bool_decide _); lia.
Qed.

Lemma moved_less x x' : capacities x' = capacities x → work x' < work x → moved x x'.
Proof. intros ??. split; auto. Qed.

Lemma engine_moved evs x :
  load_ok evs → x_inv evs x → (x_en_pc x = EnTop → run_ (x_ctl x CEngine) = true) →
  ∃ x', engine_step x = Ok x' ∧ moved x x' ∧
    x_gw_pc x' = x_gw_pc x ∧ x_st_pc x' = x_st_pc x ∧ (engine_can x → work x' < work x).
Proof.
  intros Hload Hx Hflag. unfold engine_step.
  destruct (x_en_pc x) as [|rq [|[r|u] out]] eqn:Hpc.
  - rewrite Hflag by done. destruct (queued (requestQ_ (x_server x))) as [|rq rest] eqn:Hq.
    { rewrite (next_read_nil _ Hq). exists x. split_and!; auto using moved_refl.
      intros [[?|?] _]; congruence. }
    rewrite (next_read_cons _ _ _ Hq).
    destruct (x_inv_take v epoch_nanos str_nanos tickers pool size evs x rq rest Hload Hx Hpc Hq)
      as (e & Hp & _). rewrite Hp. pose proof (take_work evs x rq rest e Hload Hx Hpc Hq Hp).
    eexists. split; [done|]. split_and!; try done. by apply moved_less.
  - pose proof (done_work evs x rq Hx Hpc). eexists. split; [done|]. split_and!; try done.
    apply moved_less; [|done]. unfold capacities. cbn. by rewrite pop_capacity.
  - destruct (push_response_cases r x) as [[-> Hfull]|(q & -> & Hq & Hc)].
    { exists x. split_and!; auto using moved_refl. intros [_ [? _]]. lia. }
    pose proof (response_work x rq r out q Hpc Hq). eexists. split; [done|]. split_and!; try done.
    apply moved_less; [|done]. unfold capacities. cbn. by rewrite Hc.
  - destruct (push_update_cases u x) as [[-> Hfull]|(q & -> & Hq & Hc)].
    { exists x. split_and!; auto using moved_refl. intros [_ [_ ?]]. lia. }
    pose proof (update_work evs x rq u out q Hx Hpc Hq). eexists. split; [done|]. split_and!; try done.
    apply moved_less; [|done]. unfold capacities. cbn. by rewrite Hc.
Qed.

(** *** The publisher *)

(** What a step of the publisher does to the two queues. *)
Lemma publisher_cases f snaps F D :
  feed_inv str_nanos tickers f snaps F D → Forall (update_ok tickers) (fd_input f) →
  ∃ f', feed_exec pub_nanos str_nanos FPublisher f = Ok f' ∧
    (f' = f ∧ (blocked (fd_publisher f) = None → queued (marketUpdates_ (fd_publisher f)) = []) ∧
       (is_Some (blocked (fd_publisher f)) → capacity (fd_updates f) ≤ length (queued (fd_updates f))) ∨
     is_Some (blocked (fd_publisher f)) ∧ blocked (fd_publisher f') = None ∧
       marketUpdates_ (fd_publisher f') = updateNextRead (marketUpdates_ (fd_publisher f)) ∧
       length (queued (fd_updates f')) = 1 + length (queued (fd_updates f)) ∧
       capacity (fd_updates f') = capacity (fd_updates f) ∨
     blocked (fd_publisher f) = None ∧ is_Some (blocked (fd_publisher f')) ∧
       queued (marketUpdates_ (fd_publisher f)) ≠ [] ∧
       marketUpdates_ (fd_publisher f') = marketUpdates_ (fd_publisher f) ∧
       fd_updates f' = fd_updates f).
Proof.
  intros Hf HF. unfold feed_exec, run_step. destruct (blocked (fd_publisher f)) as [s|] eqn:Hb.
  - destruct (decide (length (queued (fd_updates f)) < capacity (fd_updates f))) as [Hlt|Hge].
    + destruct (push_room s _ Hlt) as (q & -> & Hq & Hc). eexists. split; [done|]. right; left.
      cbn. rewrite Hq, length_app. cbn. split_and!; (done || lia).
    + rewrite push_full by lia. exists f. split; [by destruct f|]. left.
      split_and!; [done|done|intros _; lia].
  - destruct (queued (marketUpdates_ (fd_publisher f))) as [|u rest] eqn:Hq.
    { rewrite (next_read_nil _ Hq). exists f. split; [by destruct f|]. left.
      split_and!; [done..|]. by intros [? ?]. }
    rewrite (next_read_cons _ _ _ Hq).
    assert (Hu : u ∈ fd_input f).
    { rewrite (fi_market _ _ _ _ _ _ Hf) in Hq. rewrite <- (take_drop F (fd_input f)), Hq. set_solver. }
    rewrite Forall_forall in HF. destruct (HF u Hu) as [Hon _].
    destruct (encode_on_feed u (pub_nanos (midnight_reads (fd_publisher f))) Hon) as [m ->].
    eexists. split; [done|]. right; right. cbn. eauto.
Qed.

(** The publisher has an update and room for it. *)
Definition publisher_can (x : exchange) : Prop :=
  (is_Some (blocked (fd_publisher (x_feed x))) ∨ queued (marketUpdates_ (fd_publisher (x_feed x))) ≠ []) ∧
  length (queued (fd_updates (x_feed x))) < capacity (fd_updates (x_feed x)).

(** A step of the feed changes its part of the backlog. *)
Definition feed_backlog (f : feed U S) (b : backlog) : backlog :=
  with_feed (length (queued (marketUpdates_ (fd_publisher f))))
    (bool_decide (is_Some (blocked (fd_publisher f)))) (length (queued (fd_updates f))) b.

Lemma at_feed_backlog (x : exchange) f pc :
  backlog_of (at_feed f pc x) = feed_backlog f (backlog_of x).
Proof. done. Qed.

Lemma at_feed_work (x : exchange) f pc :
  weight (feed_backlog f (backlog_of x)) < weight (feed_backlog (x_feed x) (backlog_of x)) →
  work (at_feed f pc x) < work x.
Proof. done. Qed.

(** Each stage of the feed does some of the work. *)
Lemma weight_push n s b : weight (with_feed n false (1 + s) b) < weight (with_feed (n + 1) true s b).
Proof. unfold with_feed. weigh. lia. Qed.

Lemma weight_send n s b : 1 ≤ n → weight (with_feed n true s b) < weight (with_feed n false s b).
Proof. intros Hn. unfold with_feed. weigh. lia. Qed.

Lemma weight_apply n bl s b : weight (with_feed n bl s b) < weight (with_feed n bl (s + 1) b).
Proof. unfold with_feed. weigh. destruct bl; lia. Qed.

Lemma length_tail {A} (l : list A) : l ≠ [] → length (tail l) + 1 = length l.
Proof. destruct l; [done|simpl; lia]. Qed.

Lemma length_nonempty {A} (l : list A) : l ≠ [] ↔ 1 ≤ length l.
Proof. destruct l; simpl; split; (done || lia). Qed.

Lemma publisher_moved evs x :
  load_ok evs → x_inv evs x →
  (blocked (fd_publisher (x_feed x)) = None → run_ (x_ctl x CPublisher) = true) →
  ∃ x', publisher_step pub_nanos str_nanos x = Ok x' ∧ moved x x' ∧
    x_gw_pc x' = x_gw_pc x ∧ x_st_pc x' = x_st_pc x ∧ (publisher_can x → work x' < work x).
Proof.
  intros Hload Hx Hflag. unfold publisher_step.
  destruct (inv_input v _ _ _ _ _ evs x Hload Hx) as [HF _].
  pose proof (xi_feed _ _ _ _ _ _ _ Hx) as (snaps & F & D & Hf).
  destruct (publisher_cases _ _ _ _ Hf HF) as (f' & -> & Hcases).
  exists (at_feed f' (x_st_pc x) x).
  split; [destruct (blocked _); [done|by rewrite Hflag]|].
  destruct Hcases as [(-> & He & Hfl)|[(Hb & Hb' & Hm & Hl & Hc)|(Hb & Hb' & Hne & Hm & Hu)]].
  - split_and!; [split; [done|by right]|done..|]. intros [[Hs|Hs] Hroom]; [specialize (Hfl Hs); lia|].
    destruct (blocked _) as [s|]; [|by rewrite He in Hs]. specialize (Hfl ltac:(eauto)). lia.
  - assert (Hw : work (at_feed f' (x_st_pc x) x) < work x).
    { apply at_feed_work. unfold feed_backlog. rewrite Hb', Hm, Hl, pop_queued.
      rewrite (bool_decide_eq_true_2 _ Hb), bool_decide_eq_false_2 by (by intros [? ?]).
      rewrite <- (length_tail (queued (marketUpdates_ (fd_publisher (x_feed x)))));
        [apply weight_push|]. apply length_nonempty. by eapply blocked_update. }
    split_and!; try done. apply moved_less; [|done].
    unfold capacities. cbn. by rewrite Hm, Hc, pop_capacity.
  - assert (Hw : work (at_feed f' (x_st_pc x) x) < work x).
    { apply at_feed_work. unfold feed_backlog. rewrite Hb, Hm, Hu.
      rewrite (bool_decide_eq_true_2 _ Hb'), bool_decide_eq_false_2 by (by intros [? ?]).
      by apply weight_send, length_nonempty. }
    split_and!; try done. apply moved_less; [|done]. unfold capacities. cbn. by rewrite Hm, Hu.
Qed.

(** *** The streamer *)

(** How many steps the streamer is away from draining. *)
Definition to_drain (pc : streamer_pc) : nat :=
  match pc with StDrain => 0 | StTop => 1 | StPoll => 2 end.

Lemma streamer_moved evs clients x :
  load_ok evs → x_inv evs x → (x_st_pc x = StTop → run_ (x_ctl x CStreamer) = true) →
  ∃ x', streamer_step pub_nanos str_nanos clients x = Ok x' ∧ moved x x' ∧ x_gw_pc x' = x_gw_pc x ∧
    (queued (fd_updates (x_feed x)) ≠ [] →
     work x' < work x ∨ to_drain (x_st_pc x) = Datatypes.S (to_drain (x_st_pc x'))).
Proof.
  intros Hload Hx Hflag. unfold streamer_step.
  destruct (inv_input v _ _ _ _ _ evs x Hload Hx) as [HF Hlen].
  pose proof (xi_feed _ _ _ _ _ _ _ Hx) as (snaps & F & D & Hf).
  destruct (x_st_pc x) eqn:Hpc.
  - rewrite Hflag by done. eexists. split; [done|]. split_and!; [split; [done|by right]|done|auto].
  - destruct (queued (fd_updates (x_feed x))) as [|s rest] eqn:Hq.
    { rewrite (next_read_nil _ Hq). eexists. split; [done|].
      split_and!; [split; [done|by right]|done..]. }
    rewrite (next_read_cons _ _ _ Hq). unfold feed_exec.
    destruct (feed_streamer pub_nanos str_nanos tickers _ _ _ _ Hf HF Hlen) as (f' & D' & Hex & _).
    unfold feed_exec in Hex. destruct (drain_one _ _) as [[q st]|] eqn:Hd; [|done].
    assert (q = updateNextRead (fd_updates (x_feed x))) as ->.
    { unfold drain_one in Hd. rewrite (next_read_cons _ _ _ Hq) in Hd.
      repeat (apply bind_ok_inv in Hd as (? & ? & _ & Hd)). by injection Hd. }
    eexists. split; [done|]. set (x' := at_feed _ _ x). assert (Hw : work x' < work x).
    { apply at_feed_work. unfold feed_backlog. cbn [fd_publisher fd_updates].
      rewrite pop_queued, Hq. cbn [tail length]. rewrite <- (Nat.add_1_r (length rest)).
      apply weight_apply. }
    split_and!; [|done|by left]. apply moved_less; [|done].
    unfold capacities. cbn. by rewrite pop_capacity.
  - destruct (feed_clients_ok pub_nanos str_nanos tickers clients _ _ _ _ Hf) as (f' & -> & _ & _ & Hu & Hp).
    eexists. split; [done|]. split_and!; [|done|auto]. split.
    + unfold capacities. cbn. by rewrite Hu, Hp.
    + right. rewrite at_feed_backlog. unfold feed_backlog. by rewrite Hu, Hp.
Qed.

(** *** The gateway *)

(** How many steps the gateway is away from draining responses, publishing
    requests and handling what has arrived. *)
Definition to_responses (pc : gateway_pc) : nat :=
  match pc with GwDrain | GwNet (_ :: _) => 0 | GwTop => 1 | GwNet [] => 2 | GwPoll => 3 | GwPublish => 4 end.
Definition to_publish (pc : gateway_pc) : nat :=
  match pc with GwPublish | GwNet (_ :: _) => 0 | GwDrain => 1 | GwTop => 2 | GwNet [] => 3 | GwPoll => 4 end.
Definition to_net (pc : gateway_pc) : nat :=
  match pc with GwNet (_ :: _) => 0 | GwPoll => 1 | GwPublish => 2 | GwDrain => 3 | GwTop => 4 | GwNet [] => 5 end.

(** The gateway has something to do and is at most [d] steps away from it. *)
Definition gateway_can (x : exchange) (d : nat) : Prop :=
  (queued (responseQ_ (x_server x)) ≠ [] ∧ to_responses (x_gw_pc x) ≤ d) ∨
  (pending (fifo_ (x_server x)) ≠ [] ∧
   length (queued (requestQ_ (x_server x))) < capacity (requestQ_ (x_server x)) ∧
   to_publish (x_gw_pc x) ≤ d) ∨
  (collected x ++ x_net x ≠ [] ∧ to_net (x_gw_pc x) ≤ d).

(** The requests decoded are with the engine, queued or staged. *)
Lemma decoded_total evs x :
  x_inv evs x →
  length (x_done x) + length (queued (requestQ_ (x_server x))) + length (pending (fifo_ (x_server x))) =
  length (decoded size (x_handled x)) ∧
  length (decoded size (x_handled x)) ≤ length (decoded size (arrived x)) ∧
  length (in_hand x) ≤ length (queued (requestQ_ (x_server x))).
Proof.
  intros Hx. split_and!.
  - pose proof (gr_requests _ _ _ (xi_gateway _ _ _ _ _ _ _ Hx)) as Hp.
    apply Permutation_length in Hp. cbn [gw_popped gw_server] in Hp.
    rewrite !length_app, length_fmap in Hp. unfold decoded. lia.
  - apply prefix_length, decoded_prefix. by apply prefix_app_r.
  - apply prefix_length, (xi_hand _ _ _ _ _ _ _ Hx).
Qed.

(** More requests in the queue and fewer staged. *)
Lemma weight_inbound b u n s q :
  b_queued b ≤ q → length (match b_engine b with EnTop => [] | EnPush rq _ => [rq] end) ≤ b_queued b →
  s + q + u = b_staged b + b_queued b + b_undecoded b → u ≤ b_undecoded b → n ≤ b_events b →
  (n < b_events b ∨ b_queued b < q) →
  weight (Backlog u n s q (b_engine b) (b_resting b) (b_responses b) (b_updates b) (b_blocked b)
            (b_streamer b)) < weight b.
Proof.
  intros Hq Hh Ht Hu Hn Hless. weigh. destruct (b_engine b); cbn [length] in Hh;
    destruct (b_blocked b); lia.
Qed.

(** The gateway goes on without having changed anything. *)
Lemma gateway_turn (x : exchange) pc net :
  match pc with GwNet batch => batch | _ => [] end ++ net = collected x ++ x_net x →
  (∀ d, gateway_can x d → 1 ≤ d ∧
     (queued (responseQ_ (x_server x)) ≠ [] → to_responses (x_gw_pc x) ≤ d → to_responses pc < d) ∧
     (to_publish (x_gw_pc x) ≤ d → to_publish pc < d) ∧
     (collected x ++ x_net x ≠ [] → to_net (x_gw_pc x) ≤ d → to_net pc < d)) →
  let x' := at_gateway (x_server x) pc (set_net net x) in
  moved x x' ∧ x_st_pc x' = x_st_pc x ∧
  (∀ d, gateway_can x d → work x' < work x ∨ ∃ d', d = Datatypes.S d' ∧ gateway_can x' d').
Proof.
  intros Hnet Hd x'. assert (Hcol : collected x' ++ x_net x' = collected x ++ x_net x) by done.
  split_and!; [|done|].
  - split; [done|right]. unfold backlog_of. rewrite Hcol. unfold arrived. by rewrite Hcol.
  - intros d Hcan. destruct (Hd d Hcan) as (Hd1 & Hr & Hp & Hn). right. exists (d - 1).
    split; [lia|]. unfold gateway_can in *. rewrite Hcol. cbn [x' x_gw_pc at_gateway set_net x_server].
    destruct Hcan as [[Hne Hle]|[(Hne & Hroom & Hle)|[Hne Hle]]].
    + left. specialize (Hr Hne Hle). split; [done|lia].
    + right; left. specialize (Hp Hle). split_and!; (done || lia).
    + right; right. specialize (Hn Hne Hle). split; [done|lia].
Qed.

(** One of the responses is drained. *)
Lemma drain_work x r rs out :
  queued (responseQ_ (x_server x)) = r :: rs → x_gw_pc x = GwDrain →
  work (at_gateway (sent_out (updateNextRead (responseQ_ (x_server x))) out (x_server x)) GwDrain
          (log_routed r x)) < work x.
Proof.
  intros Hq Hpc. set (x' := at_gateway _ _ _). unfold work.
  assert (backlog_of x' = with_responses (length rs) (backlog_of x)) as ->.
  { unfold with_responses, backlog_of, arrived, collected. rewrite Hpc. cbn.
    by rewrite pop_queued, Hq. }
  unfold with_responses. weigh. unfold backlog_of. cbn [b_undecoded b_events b_staged b_queued
    b_engine b_resting b_responses b_updates b_blocked b_streamer].
  rewrite Hq. cbn [length]. destruct (bool_decide _); lia.
Qed.

(** The backlog after a step of the inbound side. *)
Lemma inbound_backlog (x : exchange) s' pc net handled :
  inbound_only (x_server x) s' →
  handled ++ match pc with GwNet batch => batch | _ => [] end ++ net = arrived x →
  let x' := Exchange s' pc (x_books x) (x_en_pc x) (x_feed x) (x_st_pc x) (x_ctl x) (x_main x)
              (g_running x) net (x_done x) handled (x_routed x) in
  capacities x' = capacities x ∧ arrived x' = arrived x ∧
  backlog_of x' = Backlog
    (length (decoded size (arrived x)) - length (decoded size handled))
    (length (match pc with GwNet batch => batch | _ => [] end ++ net))
    (length (pending (fifo_ s'))) (length (queued (requestQ_ s'))) (b_engine (backlog_of x))
    (b_resting (backlog_of x)) (b_responses (backlog_of x)) (b_updates (backlog_of x))
    (b_blocked (backlog_of x)) (b_streamer (backlog_of x)).
Proof.
  intros [_ _ Hr _ Hc] Harr x'. assert (Ha : arrived x' = arrived x) by done. split_and!.
  - unfold capacities. cbn. by rewrite Hc, Hr.
  - done.
  - unfold backlog_of at 1. rewrite Ha. unfold backlog_of. cbn. by rewrite Hr.
Qed.

(** It does some of the work if it handled an event or queued a request. *)
Lemma inbound_work evs x s' pc net handled :
  x_inv evs x → inbound_only (x_server x) s' →
  handled ++ match pc with GwNet batch => batch | _ => [] end ++ net = arrived x →
  x_handled x `prefix_of` handled →
  let x' := Exchange s' pc (x_books x) (x_en_pc x) (x_feed x) (x_st_pc x) (x_ctl x) (x_main x)
              (g_running x) net (x_done x) handled (x_routed x) in
  x_inv evs x' →
  (x_handled x ≠ handled ∨
   length (queued (requestQ_ (x_server x))) < length (queued (requestQ_ s')) → work x' < work x) ∧
  (x_handled x = handled →
   length (queued (requestQ_ (x_server x))) = length (queued (requestQ_ s')) →
   backlog_of x' = backlog_of x).
Proof.
  intros Hx Hio Harr [new Hnew] x' Hx'. destruct (inbound_backlog x s' pc net handled Hio Harr) as (_ & Ha & Hb).
  destruct (decoded_total evs x Hx) as (Ht & Hle & Hh).
  destruct (decoded_total evs x' Hx') as (Ht' & Hle' & _). fold x' in Ha, Hb. rewrite Ha in Hle'.
  cbn [x' x_done x_server x_handled] in Ht', Hle'.
  pose proof (prefix_length _ _ (io_queue _ _ Hio)) as Hq.
  pose proof (prefix_length _ _ (decoded_prefix size (x_handled x) handled ltac:(by exists new))) as Hdec.
  assert (Hev : length (collected x ++ x_net x) =
    length new + length (match pc with GwNet batch => batch | _ => [] end ++ net)).
  { unfold arrived in Harr. apply (f_equal length) in Harr. rewrite Hnew, !length_app in Harr.
    rewrite !length_app. lia. }
  split.
  - intros Hless. unfold work. rewrite Hb. apply weight_inbound; cbn [backlog_of b_queued b_staged
      b_undecoded b_events b_engine]; try lia; [exact Hh|].
    destruct Hless as [Hne|?]; [left|by right]. rewrite Hev. destruct new; [|simpl; lia].
    by rewrite app_nil_r in Hnew.
  - intros Heq Hlen. rewrite Hb. unfold backlog_of. cbn.
    assert (Hnil : new = []).
    { destruct new; [done|]. rewrite <- Heq in Hnew. apply (f_equal length) in Hnew.
      rewrite length_app in Hnew. simpl in Hnew. lia. }
    rewrite Hnil in Hev. cbn in Hev. rewrite <- Heq in *. rewrite <- Hlen, <- Hev. f_equal. lia.
Qed.

(** Publishing moves a staged request if the queue has room. *)
Lemma publish_grows evs x s' :
  x_inv evs x → publish (x_server x) = Ok (tt, s') →
  x_inv evs (at_gateway s' GwPoll x) →
  pending (fifo_ (x_server x)) ≠ [] →
  length (queued (requestQ_ (x_server x))) < capacity (requestQ_ (x_server x)) →
  length (queued (requestQ_ (x_server x))) < length (queued (requestQ_ s')).
Proof.
  intros Hx Hp Hx' Hne Hroom. destruct (decoded_total evs x Hx) as (Ht & _).
  destruct (decoded_total evs _ Hx') as (Ht' & _). cbn in Ht'. apply length_nonempty in Hne.
  pose proof (gr_fifo _ _ _ (xi_gateway _ _ _ _ _ _ _ Hx)) as Hw. cbn in Hw.
  pose proof (publish_inbound (x_server x) s' tt Hw Hp) as [_ _ _ Hq Hc]. apply prefix_length in Hq.
  pose proof (publish_ok (fifo_ (x_server x)) (requestQ_ (x_server x)) Hw) as Hpub.
  unfold publish, modify in Hp. destruct (publishPendingOrders _ _) as [f q]. injection Hp as <-.
  cbn in *. destruct Hpub as (_ & _ & _ & _ & _ & _ & Hend & _).
  destruct Hend as [Hnil|?]; [rewrite Hnil in Ht'; cbn in Ht'|]; lia.
Qed.

(** Publishing lowers the work, or leaves it and comes one step nearer. *)
Lemma publish_moved evs x s' :
  x_inv evs x → x_gw_pc x = GwPublish → publish (x_server x) = Ok (tt, s') →
  x_inv evs (at_gateway s' GwPoll x) →
  moved x (at_gateway s' GwPoll x) ∧ x_st_pc (at_gateway s' GwPoll x) = x_st_pc x ∧
  ∀ d, gateway_can x d → work (at_gateway s' GwPoll x) < work x ∨
    ∃ d', d = Datatypes.S d' ∧ gateway_can (at_gateway s' GwPoll x) d'.
Proof.
  intros Hx Hpc Hp Hx'. pose proof (xi_gateway _ _ _ _ _ _ _ Hx) as Hgw.
  pose proof (publish_inbound (x_server x) s' tt (gr_fifo _ _ _ Hgw) Hp) as Hio.
  assert (Harr : x_handled x ++ [] ++ x_net x = arrived x) by (unfold arrived, collected; by rewrite Hpc).
  destruct (inbound_backlog x s' GwPoll (x_net x) (x_handled x) Hio Harr) as (Hc & _).
  destruct (inbound_work evs x s' GwPoll (x_net x) (x_handled x) Hx Hio Harr (reflexivity _) Hx')
    as [Hless Hsame].
  pose proof (prefix_length _ _ (io_queue _ _ Hio)) as Hq.
  destruct (decide (length (queued (requestQ_ (x_server x))) < length (queued (requestQ_ s')))) as [Hlt|Hge].
  { assert (Hw := Hless (or_intror Hlt)). split_and!; [by apply moved_less|done|by left]. }
  split_and!; [split; [exact Hc|right; apply Hsame; [done|lia]]|done|].
  intros d [[Hne Hd]|[(Hne & Hroom & Hd)|[Hne Hd]]]; rewrite Hpc in Hd; cbn in Hd.
  - right. exists (d - 1). split; [lia|]. left. cbn. rewrite (io_responses _ _ Hio). split; [done|lia].
  - pose proof (publish_grows evs x s' Hx Hp Hx' Hne Hroom). lia.
  - right. exists (d - 1). split; [lia|]. right; right. unfold collected in *. rewrite Hpc in Hne.
    cbn. split; [done|lia].
Qed.

Lemma gateway_moved evs x :
  load_ok evs → x_inv evs x → thread_ (x_ctl x CGateway) = Running →
  (x_gw_pc x = GwTop → run_ (x_ctl x CGateway) = true) →
  ∃ x', gateway_step epoch_nanos x = Ok x' ∧ moved x x' ∧ x_st_pc x' = x_st_pc x ∧
    (∀ d, gateway_can x d → work x' < work x ∨ ∃ d', d = Datatypes.S d' ∧ gateway_can x' d').
Proof.
  intros Hload Hx Hrun Hflag.
  destruct (gateway_step_ok v epoch_nanos str_nanos tickers pool size evs x Hload Hx Hrun)
    as (x' & Hstep & Hx'). exists x'. split; [done|]. revert Hstep.
  pose proof (xi_gateway _ _ _ _ _ _ _ Hx) as Hgw. unfold gateway_step.
  destruct (x_gw_pc x) as [| | | |[|ev batch]] eqn:Hpc.
  - rewrite Hflag by done. intros [= <-].
    apply gateway_turn; [unfold collected; by rewrite Hpc|]. rewrite Hpc. cbn.
    intros d [[??]|[(?&?&?)|[??]]]; rewrite Hpc in *; cbn in *; split_and!; lia.
  - destruct (queued (responseQ_ (x_server x))) as [|r rs] eqn:Hq.
    + rewrite (drain_step_none epoch_nanos) by done. intros [= <-].
      apply gateway_turn; [unfold collected; by rewrite Hpc|]. rewrite Hpc, Hq.
      intros d [[??]|[(?&?&?)|[??]]]; rewrite Hpc in *; cbn in *; split_and!; (done || lia).
    + rewrite (drain_step_one epoch_nanos r rs), (next_read_cons _ _ _ Hq) by done. intros [= <-].
      pose proof (drain_work x r rs (route epoch_nanos (clientToSocket_ (x_server x))
        (clock_reads (x_server x)) [r]) Hq Hpc). split_and!; [|done|by left].
      apply moved_less; [|done]. unfold capacities. cbn. by rewrite pop_capacity.
  - destruct (publish (x_server x)) as [[[] s']|] eqn:Hp; [|done]. intros [= <-].
    by apply (publish_moved evs).
  - intros [= <-]. apply gateway_turn; [unfold collected; by rewrite Hpc, app_nil_r|]. rewrite Hpc.
    unfold collected. rewrite Hpc. cbn.
    intros d [[??]|[(?&?&?)|[??]]]; rewrite Hpc in *; cbn in *; destruct (x_net x); split_and!; (done || lia).
  - intros [= <-]. apply gateway_turn; [unfold collected; by rewrite Hpc|]. rewrite Hpc. cbn.
    intros d [[??]|[(?&?&?)|[??]]]; rewrite Hpc in *; cbn in *; split_and!; lia.
  - destruct (handle ev (x_server x)) as [[[] s']|] eqn:Hh; [|done]. intros [= <-].
    pose proof (handle_inbound size _ _ ev tt s' Hgw (lo_tokens _ _ _ _ _ Hload) Hh) as Hio.
    assert (Harr : (x_handled x ++ [ev]) ++ batch ++ x_net x = arrived x).
    { unfold arrived, collected. by rewrite Hpc, <- app_assoc. }
    destruct (inbound_backlog x s' (GwNet batch) (x_net x) (x_handled x ++ [ev]) Hio Harr) as (Hc & _).
    destruct (inbound_work evs x s' (GwNet batch) (x_net x) (x_handled x ++ [ev]) Hx Hio Harr) as [Hless _];
      [by apply prefix_app_r|exact Hx'|].
    assert (Hw := Hless ltac:(left; intros Heq; apply (f_equal length) in Heq;
      rewrite length_app in Heq; simpl in Heq; lia)).
    split_and!; [by apply moved_less|done|by left].
Qed.
End progress.
