(* ===== verification/Liveness.v ===== *)
(** * Liveness: the exchange works off whatever it was sent

    [exchange_quiesces] puts the steps of [Progress] together with the fair
    schedules of [Fair]: once nothing arrives any more, a bounded number of
    rounds of the threads brings every request to the engine, every response to
    the gateway and every update to the subscribers and the streamer, however
    full the queues are. *)

From stdpp Require Import functions.
From S2P Require Import Prelude Types BookSpec DList Memory StoreRep LevelMap Levels BookSpecFacts BookTime Soundness BookCore MatchingEngine Trades OrderBookMap MapRefine MapTheorems EngineMap Queue Fifo Wire TokenManager Ouch OuchFacts OrderServer ServerFacts Gateway Exchange Itch Publisher Streamer FeedFacts ShadowBook Messages Lifecycle System SystemInv SystemSafe Fair Progress.
Import Itch.

Local Open Scope nat_scope.

(** ** Schedules *)

Inductive thread := ThMain | Th (c : component).

#[global] Instance thread_eq_dec : EqDecision thread.
Proof. solve_decision. Defined.

(** The thread that moves. *)
Definition mover (l : label) : option thread :=
  match l with
  | LMain => Some ThMain
  | LGateway => Some (Th CGateway)
  | LEngine => Some (Th CEngine)
  | LPublisher => Some (Th CPublisher)
  | LStreamer _ => Some (Th CStreamer)
  | LSignal | LArrive _ => None
  end.

(** Nothing arrives and nobody asks the process to stop. *)
Definition calm (l : label) : Prop := mover l ≠ None.

Lemma calm_arrivals ls : Forall calm ls → arrivals ls = [].
Proof.
  induction 1 as [|l ls Hl _ IH]; [done|]. rewrite arrivals_cons, IH. by destruct l.
Qed.

Section liveness.
Context {Q R U S B : Type}.
Context `{SPSCQueueLaws MEClientRequest Q} `{SPSCQueueLaws MEClientResponse R}.
Context `{SPSCQueueLaws MEMarketUpdate U} `{SPSCQueueLaws SnapshotUpdate S}.
Context (v : variant) `{OrderBook B} `{!OrderBookLaws v B}.
Context `{StdSort} `{!StdSortLaws} `{OuchWire} `{!OuchWireLaws} `{ByteSwap} `{!ByteSwapLaws}.
Context `{ItchWire} `{!ItchWireLaws} `{HashIteration}.
Context (epoch_nanos pub_nanos str_nanos : nat → Z) (tickers pool size : nat).

Abbreviation exchange := (exchange Q R U S B).
Abbreviation x_exec := (x_exec epoch_nanos pub_nanos str_nanos).
Abbreviation x_run := (x_run epoch_nanos pub_nanos str_nanos).
Abbreviation x_inv := (x_inv epoch_nanos str_nanos tickers pool size).
Abbreviation load_ok := (load_ok v tickers pool size).
Abbreviation work := (work v tickers size).
Abbreviation backlog_of := (backlog_of v tickers size).
Abbreviation moved := (moved v tickers size).

Lemma x_run_run ls (x : exchange) : x_run ls x = Fair.run x_exec ls x.
Proof.
  revert x. induction ls as [|l ls IH]; intros x; simpl; [done|]. by destruct (x_exec l x).
Qed.

(** ** The threads take turns *)

(** Whoever moves does some of the work or changes nothing that counts. *)
Lemma moved_keep x (x' : exchange) :
  capacities x' = capacities x → backlog_of x' = backlog_of x → moved x x'.
Proof. intros ??. split; auto. Qed.

Lemma leave_moved c (x : exchange) : moved x (leave c x).
Proof. by apply moved_keep. Qed.

Lemma x_exec_moved evs x l x' :
  load_ok evs → x_inv evs x → calm l → x_exec l x = Ok x' → moved x x'.
Proof.
  intros Hload Hx Hl Hexec. destruct l; try done; simpl in Hexec; unfold if_running in Hexec;
    try (case_bool_decide as Hrun; [|injection Hexec as <-; by apply moved_keep]).
  - injection Hexec as <-. unfold main_step. repeat case_match; by apply moved_keep.
  - assert ((x_gw_pc x = GwTop ∧ run_ (x_ctl x CGateway) = false) ∨ (x_gw_pc x = GwTop → run_ (x_ctl x CGateway) = true))
      as [[Hpc Hf]|Hn] by (destruct (run_ (x_ctl x CGateway)), (x_gw_pc x); naive_solver).
    { unfold gateway_step in Hexec. rewrite Hpc, Hf in Hexec. injection Hexec as <-. apply leave_moved. }
    destruct (gateway_moved v epoch_nanos str_nanos tickers pool size evs x Hload Hx Hrun)
      as (x1 & Hx1 & Hm & _); [exact Hn|congruence].
  - assert ((x_en_pc x = EnTop ∧ run_ (x_ctl x CEngine) = false) ∨ (x_en_pc x = EnTop → run_ (x_ctl x CEngine) = true))
      as [[Hpc Hf]|Hn] by (destruct (run_ (x_ctl x CEngine)), (x_en_pc x); naive_solver).
    { unfold engine_step in Hexec. rewrite Hpc, Hf in Hexec. injection Hexec as <-. apply leave_moved. }
    destruct (engine_moved v epoch_nanos str_nanos tickers pool size evs x Hload Hx)
      as (x1 & Hx1 & Hm & _); [exact Hn|congruence].
  - assert ((blocked (fd_publisher (x_feed x)) = None ∧ run_ (x_ctl x CPublisher) = false) ∨
            (blocked (fd_publisher (x_feed x)) = None → run_ (x_ctl x CPublisher) = true))
      as [[Hpc Hf]|Hn] by (destruct (run_ (x_ctl x CPublisher)), (blocked _); naive_solver).
    { unfold publisher_step in Hexec. rewrite Hpc, Hf in Hexec. injection Hexec as <-. apply leave_moved. }
    destruct (publisher_moved v epoch_nanos pub_nanos str_nanos tickers pool size evs x Hload Hx)
      as (x1 & Hx1 & Hm & _); [exact Hn|congruence].
  - assert ((x_st_pc x = StTop ∧ run_ (x_ctl x CStreamer) = false) ∨ (x_st_pc x = StTop → run_ (x_ctl x CStreamer) = true))
      as [[Hpc Hf]|Hn] by (destruct (run_ (x_ctl x CStreamer)), (x_st_pc x); naive_solver).
    { unfold streamer_step in Hexec. rewrite Hpc, Hf in Hexec. injection Hexec as <-. apply leave_moved. }
    destruct (streamer_moved v epoch_nanos pub_nanos str_nanos tickers pool size evs clients x Hload Hx)
      as (x1 & Hx1 & Hm & _); [exact Hn|congruence].
Qed.
Lemma x_exec_capacities evs x l x' :
  load_ok evs → x_inv evs x → x_exec l x = Ok x' → capacities x' = capacities x.
Proof.
  intros Hload Hx Hexec. destruct l as [| |ev| | | |clients];
    try by (eapply (x_exec_moved evs x); [done|done| |exact Hexec]).
  - by injection Hexec as <-.
  - by injection Hexec as <-.
Qed.

Lemma x_run_capacities evs ls x x' :
  load_ok evs → x_inv evs x → arrived x ++ arrivals ls `prefix_of` evs → x_run ls x = Ok x' →
  capacities x' = capacities x.
Proof.
  intros Hload. revert x. induction ls as [|l ls IH]; intros x Hx Hpre Hrun; simpl in Hrun.
  { by injection Hrun as ->. }
  rewrite arrivals_cons, app_assoc in Hpre.
  destruct (x_exec_ok v epoch_nanos pub_nanos str_nanos tickers pool size evs l x Hload Hx)
    as (x1 & Hl & Hx1); [etrans; [|exact Hpre]; by apply prefix_app_r|].
  rewrite Hl in Hrun. rewrite <- (x_exec_capacities evs x l x1 Hload Hx Hl).
  apply (IH x1 Hx1); [|done]. by rewrite (x_exec_arrived _ _ _ _ _ _ Hl).
Qed.

(** [main] waits for the signal, which has not come. *)
Definition serving (x : exchange) : Prop :=
  x_main x = drop SERVING main_program ∧ g_running x = true.

Lemma serving_running evs x :
  x_inv evs x → serving x → ∀ c, run_ (x_ctl x c) = true ∧ thread_ (x_ctl x c) = Running.
Proof.
  intros Hx [Hm _]. destruct (xi_life _ _ _ _ _ _ _ Hx) as (k & Hk & Hl).
  assert (k = SERVING) as ->.
  { apply drop_program; [apply Hl|vm_compute; lia|congruence]. }
  by apply serving_threads.
Qed.

Lemma serving_main (x : exchange) : serving x → main_step x = x.
Proof. intros [Hm Hg]. unfold main_step. rewrite Hm. cbn. by rewrite Hg. Qed.

Lemma x_exec_serving (x : exchange) l x' : serving x → calm l → x_exec l x = Ok x' → serving x'.
Proof.
  intros Hs Hl Hexec. destruct l; try done; simpl in Hexec; unfold if_running in Hexec;
    try (case_match; [|by injection Hexec as <-]).
  - injection Hexec as <-. by rewrite serving_main.
  - unfold gateway_step in Hexec. repeat (case_match; simplify_eq/=); done.
  - unfold engine_step, push_response, push_update in Hexec. repeat (case_match; simplify_eq/=); done.
  - unfold publisher_step in Hexec. repeat (case_match; simplify_eq/=); done.
  - unfold streamer_step in Hexec. repeat (case_match; simplify_eq/=); done.
Qed.

(** ** Who can move *)

(** What equal backlogs have in common. *)
Lemma backlog_lengths (x x' : exchange) :
  backlog_of x' = backlog_of x →
  length (collected x' ++ x_net x') = length (collected x ++ x_net x) ∧
  length (pending (fifo_ (x_server x'))) = length (pending (fifo_ (x_server x))) ∧
  length (queued (requestQ_ (x_server x'))) = length (queued (requestQ_ (x_server x))) ∧
  x_en_pc x' = x_en_pc x ∧
  length (queued (responseQ_ (x_server x'))) = length (queued (responseQ_ (x_server x))) ∧
  length (queued (marketUpdates_ (fd_publisher (x_feed x')))) =
    length (queued (marketUpdates_ (fd_publisher (x_feed x)))) ∧
  (is_Some (blocked (fd_publisher (x_feed x'))) ↔ is_Some (blocked (fd_publisher (x_feed x)))) ∧
  length (queued (fd_updates (x_feed x'))) = length (queued (fd_updates (x_feed x))).
Proof.
  intros Hb. split_and!.
  - exact (f_equal b_events Hb).
  - exact (f_equal b_staged Hb).
  - exact (f_equal b_queued Hb).
  - exact (f_equal b_engine Hb).
  - exact (f_equal b_responses Hb).
  - exact (f_equal b_updates Hb).
  - pose proof (f_equal b_blocked Hb) as Hbl. cbn in Hbl. revert Hbl. clear.
    by repeat case_bool_decide; intros.
  - exact (f_equal b_streamer Hb).
Qed.

Definition helps (x : exchange) (t : thread) (d : nat) : Prop :=
  match t with
  | ThMain => False
  | Th CStreamer => queued (fd_updates (x_feed x)) ≠ [] ∧ to_drain (x_st_pc x) ≤ d
  | Th CPublisher => publisher_can x
  | Th CEngine => engine_can x
  | Th CGateway => gateway_can x d
  end.

(** A thread that can move still can after the others moved. *)
Lemma helps_keep (x x' : exchange) t d :
  capacities x' = capacities x → backlog_of x' = backlog_of x →
  (t = Th CGateway → x_gw_pc x' = x_gw_pc x) → (t = Th CStreamer → x_st_pc x' = x_st_pc x) →
  helps x t d → helps x' t d.
Proof.
  intros Hc Hb Hgw Hst. injection Hc as Hcq Hcr Hcu Hcs.
  destruct (backlog_lengths x x' Hb) as (He & Hs & Hq & Hpc & Hr & Hu & Hbl & Hsq).
  destruct t as [|[]]; cbn; [done|..].
  - unfold gateway_can. rewrite (Hgw eq_refl), !length_nonempty, Hr, Hs, Hq, He, Hcq. done.
  - unfold engine_can. rewrite Hpc, !length_nonempty, Hq, Hr, Hu, Hcr, Hcu. done.
  - unfold publisher_can. rewrite Hbl, !length_nonempty, Hu, Hsq, Hcs. done.
  - rewrite (Hst eq_refl), !length_nonempty, Hsq. done.
Qed.

(** ** Quiet states *)

Lemma quiet_lengths (x : exchange) :
  quiet x ↔
  length (collected x ++ x_net x) = 0 ∧ length (pending (fifo_ (x_server x))) = 0 ∧
  length (queued (requestQ_ (x_server x))) = 0 ∧ x_en_pc x = EnTop ∧
  length (queued (responseQ_ (x_server x))) = 0 ∧
  length (queued (marketUpdates_ (fd_publisher (x_feed x)))) = 0 ∧
  ¬ is_Some (blocked (fd_publisher (x_feed x))) ∧ length (queued (fd_updates (x_feed x))) = 0.
Proof.
  rewrite !length_zero_iff_nil, app_nil, <- eq_None_not_Some. split.
  - intros [[? ?] ? ? ? ? ? ? ?]. by split_and!.
  - intros (? & ? & ? & ? & ? & ? & ? & ?). by split.
Qed.

Lemma quiet_keep (x x' : exchange) : backlog_of x' = backlog_of x → quiet x → quiet x'.
Proof.
  intros Hb. destruct (backlog_lengths x x' Hb) as (He & Hs & Hq & Hpc & Hr & Hu & Hbl & Hsq).
  rewrite !quiet_lengths, He, Hs, Hq, Hpc, Hr, Hu, Hbl, Hsq. done.
Qed.

(** Nothing to do: the work is that of the resting orders, and no step can
    reduce it. *)
Lemma quiet_taken (x : exchange) l x' :
  queued (requestQ_ (x_server x)) = [] → x_en_pc x = EnTop → x_exec l x = Ok x' →
  taken x' = taken x.
Proof.
  intros Hq Hpc Hexec. destruct l; simpl in Hexec; unfold if_running in Hexec;
    try (case_match; [|by injection Hexec as <-]); try (injection Hexec as <-).
  - unfold main_step. by repeat case_match.
  - done.
  - done.
  - unfold gateway_step in Hexec. by repeat (case_match; simplify_eq/=).
  - unfold engine_step in Hexec. rewrite Hpc, (next_read_nil _ Hq) in Hexec.
    by case_match; simplify_eq/=.
  - unfold publisher_step in Hexec. by repeat (case_match; simplify_eq/=).
  - unfold streamer_step in Hexec. by repeat (case_match; simplify_eq/=).
Qed.

Lemma work_resting (x : exchange) :
  12 * resting (ticker_order_book_ (spec_run v tickers x)) ≤ work x.
Proof. unfold Progress.work, weight. cbn [Progress.backlog_of b_resting]. lia. Qed.

Lemma quiet_work evs (x : exchange) :
  x_inv evs x → arrived x = evs → quiet x →
  work x = 12 * resting (ticker_order_book_ (spec_run v tickers x)).
Proof.
  intros Hx Harr Hq. pose proof (proj1 (quiet_lengths x) Hq) as (He & Hs & Hqq & Hpc & Hr & Hu & Hbl & Hsq).
  assert (Hall : x_handled x = arrived x).
  { unfold arrived. destruct Hq as [[-> ->] _ _ _ _ _ _ _]. by rewrite app_nil_r. }
  unfold Progress.work, weight, feed_weight, engine_weight. cbn [Progress.backlog_of b_undecoded
    b_events b_staged b_queued b_engine b_resting b_responses b_updates b_blocked b_streamer].
  rewrite He, Hs, Hqq, Hpc, Hr, Hu, Hsq, Hall, bool_decide_eq_false_2 by done. lia.
Qed.

Lemma quiet_step evs x l x' :
  load_ok evs → x_inv evs x → arrived x = evs → calm l → x_exec l x = Ok x' → quiet x → quiet x'.
Proof.
  intros Hload Hx Harr Hl Hexec Hq.
  destruct (x_exec_moved evs x l x' Hload Hx Hl Hexec) as [_ [Hless|Hb]]; [|by eapply quiet_keep].
  pose proof (quiet_taken x l x' (q_queued _ Hq) (q_engine _ Hq) Hexec) as Ht.
  pose proof (work_resting x') as Hr. rewrite (spec_run_hand v tickers x x' Ht) in Hr.
  rewrite (quiet_work evs x Hx Harr Hq) in Hless. lia.
Qed.

Lemma no_work (x : exchange) : work x = 0 → quiet x.
Proof.
  unfold Progress.work, weight, feed_weight, engine_weight. cbn [Progress.backlog_of b_undecoded
    b_events b_staged b_queued b_engine b_resting b_responses b_updates b_blocked b_streamer].
  intros Hw. apply quiet_lengths. destruct (x_en_pc x); [|lia].
  case_bool_decide; [lia|]. split_and!; (done || lia).
Qed.

(** As long as something is under way, somebody can move: downstream first. *)
Lemma someone_can evs x :
  x_inv evs x → roomy (capacities x) → quiet x ∨ ∃ t d, d < 6 ∧ helps x t d.
Proof.
  intros Hx (Hcq & Hcr & Hcu & Hcs).
  destruct (decide (length (queued (fd_updates (x_feed x))) = 0)) as [Hs0|Hs0].
  2:{ right. exists (Th CStreamer), 2. split; [lia|]. cbn. rewrite length_nonempty.
      split; [lia|]. by destruct (x_st_pc x); simpl; lia. }
  destruct (decide (is_Some (blocked (fd_publisher (x_feed x))))) as [Hb|Hb].
  { right. exists (Th CPublisher), 0. split; [lia|]. split; [by left|lia]. }
  destruct (decide (length (queued (marketUpdates_ (fd_publisher (x_feed x)))) = 0)) as [Hu0|Hu0].
  2:{ right. exists (Th CPublisher), 0. split; [lia|]. split; [right; apply length_nonempty|]; lia. }
  destruct (decide (length (queued (responseQ_ (x_server x))) = 0)) as [Hr0|Hr0].
  2:{ right. exists (Th CGateway), 4. split; [lia|]. left. rewrite length_nonempty. split; [lia|].
      destruct (x_gw_pc x) as [| | | |[]]; simpl; lia. }
  assert (Hen : (x_en_pc x = EnTop ∧ length (queued (requestQ_ (x_server x))) = 0) ∨ engine_can x).
  { unfold engine_can. rewrite Hr0, Hu0, length_nonempty.
    destruct (x_en_pc x); [|right; split_and!; [by left|lia..]].
    destruct (decide (length (queued (requestQ_ (x_server x))) = 0)); [by left|].
    right. split_and!; [right|..]; lia. }
  destruct Hen as [[Hpc Hq0]|Hcan]; [|right; exists (Th CEngine), 0; split; [lia|done]].
  destruct (decide (length (pending (fifo_ (x_server x))) = 0)) as [Hp0|Hp0].
  2:{ right. exists (Th CGateway), 4. split; [lia|]. right; left. rewrite length_nonempty.
      split_and!; [lia..|]. destruct (x_gw_pc x) as [| | | |[]]; simpl; lia. }
  destruct (decide (length (collected x ++ x_net x) = 0)) as [He0|He0].
  { left. apply quiet_lengths. by split_and!. }
  right. exists (Th CGateway), 5. split; [lia|]. right; right. rewrite length_nonempty.
  split; [lia|]. destruct (x_gw_pc x) as [| | | |[]]; simpl; lia.
Qed.

(** ** The schedules *)

Lemma x_exec_pcs (x : exchange) l x' :
  x_exec l x = Ok x' →
  (mover l ≠ Some (Th CGateway) → x_gw_pc x' = x_gw_pc x) ∧
  (mover l ≠ Some (Th CStreamer) → x_st_pc x' = x_st_pc x).
Proof.
  intros Hexec. destruct l; simpl in Hexec; unfold if_running in Hexec;
    try (case_match; [|by injection Hexec as <-]); try (injection Hexec as <-).
  - unfold main_step. by repeat case_match.
  - done.
  - done.
  - split; [done|]. unfold gateway_step in Hexec. by repeat (case_match; simplify_eq/=).
  - unfold engine_step, push_response, push_update in Hexec. by repeat (case_match; simplify_eq/=).
  - unfold publisher_step in Hexec. by repeat (case_match; simplify_eq/=).
  - split; [|done]. unfold streamer_step in Hexec. by repeat (case_match; simplify_eq/=).
Qed.

(** What holds along a calm schedule. *)
Definition at_work (evs : list net_event) (x : exchange) : Prop :=
  x_inv evs x ∧ arrived x = evs ∧ serving x ∧ roomy (capacities x).

Lemma at_work_step evs x l :
  load_ok evs → at_work evs x → calm l →
  ∃ x', x_exec l x = Ok x' ∧ at_work evs x' ∧ work x' ≤ work x ∧ (quiet x → quiet x').
Proof.
  intros Hload (Hx & Harr & Hs & Hc) Hl.
  assert (Hnil : arrivals [l] = []) by (by destruct l).
  destruct (x_exec_ok v epoch_nanos pub_nanos str_nanos tickers pool size evs l x Hload Hx)
    as (x' & Hexec & Hx'); [by rewrite Harr, Hnil, app_nil_r|].
  exists x'. split; [done|]. unfold at_work. split_and!.
  - done.
  - by rewrite (x_exec_arrived _ _ _ _ _ _ Hexec), Hnil, app_nil_r.
  - by eapply x_exec_serving.
  - by rewrite (x_exec_capacities evs x l x').
  - destruct (x_exec_moved evs x l x' Hload Hx Hl Hexec) as [_ [?|Hb]]; [lia|].
    unfold Progress.work. by rewrite Hb.
  - by eapply quiet_step.
Qed.

(** A thread that can move and does so gets on with it. *)
Lemma own_step evs x l x' t d :
  load_ok evs → at_work evs x → x_exec l x = Ok x' → mover l = Some t → helps x t d →
  work x' < work x ∨ ∃ d', d = Datatypes.S d' ∧ helps x' t d'.
Proof.
  intros Hload (Hx & Harr & Hs & Hc) Hexec Hl Hh.
  pose proof (serving_running evs x Hx Hs) as Hrun.
  destruct l; injection Hl as <- || discriminate Hl; simpl in Hexec; unfold if_running in Hexec.
  - done.
  - rewrite bool_decide_eq_true_2 in Hexec by apply Hrun.
    destruct (gateway_moved v epoch_nanos str_nanos tickers pool size evs x Hload Hx)
      as (x1 & Hx1 & _ & _ & Hcan); [apply Hrun|intros _; apply Hrun|].
    rewrite Hexec in Hx1. injection Hx1 as <-. by apply Hcan.
  - rewrite bool_decide_eq_true_2 in Hexec by apply Hrun.
    destruct (engine_moved v epoch_nanos str_nanos tickers pool size evs x Hload Hx)
      as (x1 & Hx1 & _ & _ & _ & Hcan); [intros _; apply Hrun|].
    rewrite Hexec in Hx1. injection Hx1 as <-. left. by apply Hcan.
  - rewrite bool_decide_eq_true_2 in Hexec by apply Hrun.
    destruct (publisher_moved v epoch_nanos pub_nanos str_nanos tickers pool size evs x Hload Hx)
      as (x1 & Hx1 & _ & _ & _ & Hcan); [intros _; apply Hrun|].
    rewrite Hexec in Hx1. injection Hx1 as <-. left. by apply Hcan.
  - rewrite bool_decide_eq_true_2 in Hexec by apply Hrun.
    destruct (streamer_moved v epoch_nanos pub_nanos str_nanos tickers pool size evs clients x Hload Hx)
      as (x1 & Hx1 & [_ Hm] & _ & Hcan); [intros _; apply Hrun|].
    rewrite Hexec in Hx1. injection Hx1 as <-. destruct Hm as [?|Hb]; [by left|].
    destruct Hh as [Hne Hd]. destruct (Hcan Hne) as [?|Hdist]; [by left|]. right. exists (d - 1).
    split; [lia|]. split; [|lia]. destruct (backlog_lengths x x' Hb) as (_ & _ & _ & _ & _ & _ & _ & Hlen).
    rewrite length_nonempty, Hlen. by apply length_nonempty.
Qed.

Lemma at_work_helps evs x l x' t d :
  load_ok evs → at_work evs x → calm l → x_exec l x = Ok x' → helps x t d →
  work x' < work x ∨
  if decide (mover l = Some t) then ∃ d', d = Datatypes.S d' ∧ helps x' t d' else helps x' t d.
Proof.
  intros Hload Hat Hl Hexec Hh. destruct (decide (mover l = Some t)) as [Hm|Hm]; [by eapply own_step|].
  destruct Hat as (Hx & _). destruct (x_exec_moved evs x l x' Hload Hx Hl Hexec) as [Hc [?|Hb]]; [by left|].
  right. destruct (x_exec_pcs x l x' Hexec) as [Hgw Hst].
  eapply helps_keep; [done|done|by intros ->; apply Hgw|by intros ->; apply Hst|done].
Qed.

(** From any state in service, so many rounds lead to a quiet one. *)
Lemma quiesce evs x ls :
  load_ok evs → at_work evs x → Forall calm ls → rounds mover (6 * work x) ls →
  ∃ x', x_run ls x = Ok x' ∧ at_work evs x' ∧ quiet x'.
Proof.
  intros Hload Hat Hc Hr.
  destruct (rounds_reach mover x_exec calm (at_work evs) quiet work helps 6) with (work x) ls x
    as (x' & Hrun & Hx' & Hq); try done.
  - intros y l Hy Hl. by apply at_work_step.
  - intros y (Hy & _ & _ & Hroom). by eapply someone_can.
  - intros y _. apply no_work.
  - intros y l y' t d Hy Hl Hexec Hh. by eapply at_work_helps.
  - exists x'. by rewrite x_run_run.
Qed.

(** ** Nothing is left behind *)

(** What a quiet exchange has done. *)
Lemma quiet_complete evs x :
  load_ok evs → at_work evs x → quiet x →
  let spec := s_run v (x_done x) (s_engine_new tickers) in
  x_done x ≡ₚ decoded size evs ∧ engine_rel v pool (x_books x) spec ∧
  (x_routed x).*1 = responses (sent_by spec) ∧
  sends (x_server x) = deliver epoch_nanos 0 (x_routed x) ∧
  length (datagrams (fd_publisher (x_feed x))) = length (updates (sent_by spec)) ∧
  last_seq_num_ (fd_streamer (x_feed x)) = Z.of_nat (length (updates (sent_by spec))) ∧
  shadow_book_ (fd_streamer (x_feed x)) =
    foldl books_after (replicate tickers ∅) (updates (sent_by spec)).
Proof.
  intros Hload (Hx & Harr & _ & _) [[Hcol Hnet] Hst Hq Hpc Hr Hu Hb Hsq] spec.
  assert (Hspec : spec_run v tickers x = spec).
  { unfold spec_run, spec, taken, in_hand. by rewrite Hpc, app_nil_r. }
  assert (Hall : x_handled x = evs).
  { rewrite <- Harr. unfold arrived. by rewrite Hcol, Hnet, app_nil_r. }
  destruct (xi_sent _ _ _ _ _ _ _ Hx) as (pushed & Hs & Hin & Hres).
  rewrite (inv_sent v _ _ _ _ _ evs x Hload Hx), Hspec in Hs. unfold outbox in Hs.
  rewrite Hpc, app_nil_r in Hs. rewrite Hr, app_nil_r in Hres. rewrite <- Hs in Hin, Hres.
  destruct (xi_feed _ _ _ _ _ _ _ Hx) as (snaps & F & D & Hf).
  pose proof (fi_finished _ _ _ _ _ _ Hf) as HF. rewrite Hb in HF. subst F.
  pose proof (fi_market _ _ _ _ _ _ Hf) as Hm. rewrite Hu in Hm. apply (f_equal length) in Hm.
  rewrite length_drop in Hm. cbn in Hm. pose proof (fi_le _ _ _ _ _ _ Hf) as Hle.
  pose proof (fi_queue _ _ _ _ _ _ Hf) as Hd. rewrite Hsq in Hd. apply (f_equal length) in Hd.
  rewrite take_ge, length_drop in Hd by lia. cbn in Hd. pose proof (fi_drained _ _ _ _ _ _ Hf) as HD.
  assert (Hlast : last_seq_num_ (fd_streamer (x_feed x)) = Z.of_nat (length (fd_input (x_feed x)))).
  { rewrite (so_last _ _ _ _ (fi_stream _ _ _ _ _ _ Hf)), length_take. f_equal. lia. }
  rewrite <- Hin. split_and!.
  - pose proof (gr_requests _ _ _ (xi_gateway _ _ _ _ _ _ _ Hx)) as Hp. cbn [gw_popped gw_server] in Hp.
    rewrite Hq, Hst, !app_nil_r, Hall in Hp. exact Hp.
  - rewrite <- Hspec. by eapply inv_engine.
  - done.
  - apply Hx.
  - rewrite (fi_datagrams _ _ _ _ _ _ Hf), length_fmap. lia.
  - done.
  - destruct (books_of_input str_nanos tickers (x_feed x) snaps _ D Hf) as [_ Hbk].
    rewrite Hbk, Hlast, Nat2Z.id, take_ge by lia. done.
Qed.

(** From any state in service, fair rounds bring the exchange to rest. *)
Lemma quiesces_from (rq : Q) (rs : R) (mu : U) (su : S) (fifoPending : nat)
    (ls ls' : list label) (x : exchange) :
  queues_empty rq rs mu su → roomy (capacity rq, capacity rs, capacity mu, capacity su) →
  load_ok (arrivals ls) →
  x_run ls (exchange_new (B := B) rq rs mu su tickers pool fifoPending size) = Ok x → serving x →
  Forall calm ls' → rounds mover (6 * work x) ls' →
  ∃ x', x_run ls' x = Ok x' ∧ at_work (arrivals ls) x' ∧ quiet x'.
Proof.
  intros Hqs Hcap Hload Hrun Hserv Hcalm Hrounds.
  destruct (start_run v epoch_nanos pub_nanos str_nanos tickers pool size rq rs mu su fifoPending ls Hqs Hload)
    as (x1 & Hrun1 & Hx & Harr). rewrite Hrun in Hrun1. injection Hrun1 as <-.
  assert (Hat : at_work (arrivals ls) x).
  { unfold at_work. split_and!; [done..|]. destruct Hqs as [Hq Hr Hu Hs].
    rewrite (x_run_capacities (arrivals ls) ls _ x Hload (exchange_new_inv _ _ _ _ _ (arrivals ls)
      rq rs mu su fifoPending Hq Hr Hu Hs) (reflexivity _) Hrun). exact Hcap. }
  by apply quiesce.
Qed.


End liveness.

(** ** A concrete run

    Both orders of [SystemSafe] have arrived and no thread has done anything
    yet; the queues hold one element each. *)

Lemma demo_round_round : round mover demo_round.
Proof. intros [|[]]; apply (bool_decide_unpack _); vm_compute; exact I. Qed.

Lemma demo_round_calm k : Forall calm (concat (replicate k demo_round)).
Proof. apply Forall_concat, Forall_replicate. by repeat constructor. Qed.

Definition demo_waiting : demo_exchange :=
  match demo_x_run demo_arrivals demo_exchange_new with Ok x => x | Fault _ => demo_exchange_new end.

Definition demo_patience : nat := 6 * work MapBook 1 16 (H0 := list_queue_laws _)
  (H2 := list_queue_laws _) (H4 := list_queue_laws _) (H6 := list_queue_laws _) demo_waiting.

