(* ===== verification/Shutdown.v ===== *)
(** * Shutdown: stopping the exchange

    [main.cpp] stops the gateway, then the engine, then the publisher and with
    it the streamer.  A thread that produces for a queue is stopped before the
    one that consumes from it - with one exception: the gateway, which consumes
    the responses, is stopped before the engine, which produces them.  So the
    shutdown completes if the response queue has room for what is under way
    ([shutdown_completes]) and never does if it has not ([shutdown_hangs]). *)

From stdpp Require Import functions.
From S2P Require Import Prelude Types BookSpec DList Memory StoreRep LevelMap Levels BookSpecFacts BookTime Soundness BookCore MatchingEngine Trades OrderBookMap MapRefine MapTheorems EngineMap Queue Fifo Wire TokenManager Ouch OuchFacts OrderServer ServerFacts Gateway Exchange Itch Publisher Streamer FeedFacts ShadowBook Messages Lifecycle System SystemInv SystemSafe Fair Progress Liveness.
Import Itch.

Local Open Scope nat_scope.

(** ** Who outlives whom *)

(** The threads that consume what a thread produces, except for the responses. *)
Definition downstream (c : component) : list component :=
  match c with
  | CGateway => [CEngine; CPublisher; CStreamer]
  | CEngine => [CPublisher; CStreamer]
  | CPublisher => [CStreamer]
  | CStreamer => []
  end.

(** A thread may be running after the first [k] actions. *)
Definition live (k : nat) (c : component) : bool :=
  spawned (take k main_program) c && negb (joined (take k main_program) c).

Definition components : list component := [CGateway; CEngine; CPublisher; CStreamer].

Lemma elem_of_components c : c ∈ components.
Proof. destruct c; set_solver. Qed.

Definition outlives_at (k : nat) : bool :=
  forallb (λ c, implb (live k c)
    (forallb (λ c', live k c' && flag_after (take k main_program) c') (downstream c))) components.

Lemma outlives_everywhere k : k ≤ length main_program → outlives_at k = true.
Proof.
  intros Hk. assert (Hall : forallb outlives_at (seq 0 (S (length main_program))) = true)
    by (vm_compute; reflexivity).
  rewrite forallb_forall in Hall. apply Hall, in_seq. lia.
Qed.

Lemma lifecycle_outlives k ctl c c' :
  lifecycle k ctl → thread_ (ctl c) = Running → c' ∈ downstream c →
  thread_ (ctl c') = Running ∧ run_ (ctl c') = true.
Proof.
  intros [Hk Hok] Hrun Hc'. pose proof (outlives_everywhere k Hk) as Ho. unfold outlives_at in Ho.
  rewrite forallb_forall in Ho. specialize (Ho c (proj1 (list_elem_of_In _ _) (elem_of_components c))).
  destruct (Hok c) as [_ Hc]. rewrite Hrun in Hc. destruct Hc as [Hsp Hj].
  unfold live in Ho at 1. rewrite Hsp, Hj in Ho. simpl in Ho. rewrite forallb_forall in Ho.
  specialize (Ho c' (proj1 (list_elem_of_In _ _) Hc')). apply andb_true_iff in Ho as [Hl Hf].
  unfold live in Hl. apply andb_true_iff in Hl as [Hs' Hj'%negb_true_iff].
  destruct (Hok c') as [Hrun' Ht']. rewrite Hf in Hrun'. split; [|done].
  destruct (thread_ (ctl c')); [congruence|done|destruct Ht' as (_ & _ & ?); congruence|congruence].
Qed.

(** A thread that is waited for was told to stop. *)
Lemma join_flag k ctl c :
  lifecycle k ctl → main_program !! k = Some (Join c) → run_ (ctl c) = false.
Proof.
  intros [Hk Hok] Ha. destruct (Hok c) as [-> _].
  assert (Hall : forallb (λ k, from_option (λ a, match a with
      Join c => negb (flag_after (take k main_program) c) | _ => true end) true (main_program !! k))
    (seq 0 (length main_program)) = true) by (vm_compute; reflexivity).
  rewrite forallb_forall in Hall. specialize (Hall k). rewrite Ha in Hall. cbn [from_option] in Hall.
  apply negb_true_iff, Hall, in_seq. apply lookup_lt_Some in Ha. lia.
Qed.

(** Nothing is started after the signal. *)
Lemma no_spawn k c : SERVING ≤ k → main_program !! k ≠ Some (Spawn c).
Proof.
  intros Hk Ha. assert (Hall : forallb (λ a, match a with Spawn _ => false | _ => true end)
    (drop SERVING main_program) = true) by (vm_compute; reflexivity).
  rewrite forallb_forall in Hall. replace k with (SERVING + (k - SERVING)) in Ha by lia.
  rewrite <- lookup_drop in Ha. apply list_elem_of_lookup_2, list_elem_of_In in Ha.
  by specialize (Hall _ Ha).
Qed.

Section shutdown.
Context {Q R U S B : Type}.
Context `{SPSCQueueLaws MEClientRequest Q} `{SPSCQueueLaws MEClientResponse R}.
Context `{SPSCQueueLaws MEMarketUpdate U} `{SPSCQueueLaws SnapshotUpdate S}.
Context (v : variant) `{OrderBook B} `{!OrderBookLaws v B}.
Context `{StdSort} `{!StdSortLaws} `{OuchWire} `{!OuchWireLaws} `{ByteSwap} `{!ByteSwapLaws}.
Context `{ItchWire} `{!ItchWireLaws} `{HashIteration}.
Context (epoch_nanos pub_nanos str_nanos : nat → Z) (tickers pool size : nat).

Abbreviation exchange := (exchange Q R U S B).
Abbreviation x_exec := (x_exec epoch_nanos pub_nanos str_nanos).
Abbreviation x_run := (x_run epoch_nanos pub_nanos str_nanos).
Abbreviation x_inv := (x_inv epoch_nanos str_nanos tickers pool size).
Abbreviation load_ok := (load_ok v tickers pool size).
Abbreviation work := (work v tickers size).
Abbreviation backlog_of := (backlog_of v tickers size).

Lemma x_outlives evs x c c' :
  x_inv evs x → thread_ (x_ctl x c) = Running → c' ∈ downstream c →
  thread_ (x_ctl x c') = Running ∧ run_ (x_ctl x c') = true.
Proof.
  intros Hx. destruct (xi_life _ _ _ _ _ _ _ Hx) as (k & _ & Hl). by apply (lifecycle_outlives k).
Qed.

(** ** What remains of a shutdown *)

Definition running (x : exchange) : nat :=
  sum_list ((λ c, if bool_decide (thread_ (x_ctl x c) = Running) then 1 else 0) <$> components).

(** Work under way, actions of [main] to come, threads to leave. *)
Definition remaining (x : exchange) : nat := work x + length (x_main x) + running x.

(** [main] is past its waiting loop or about to leave it, nothing arrives any
    more, and the response queue could take all that is under way. *)
Definition stopping (evs : list net_event) (x : exchange) : Prop :=
  x_inv evs x ∧ arrived x = evs ∧ g_running x = false ∧
  (∃ k, SERVING ≤ k ∧ x_main x = drop k main_program ∧ lifecycle k (x_ctl x)) ∧
  roomy (capacities x) ∧ work x ≤ capacity (responseQ_ (x_server x)).

Lemma running_leave (x : exchange) c :
  thread_ (x_ctl x c) = Running → running (leave c x) < running x.
Proof.
  intros Hr. unfold running, components. cbn. destruct c; cbn; rewrite Hr;
    rewrite ?fn_lookup_insert, ?fn_lookup_insert_ne by done; cbn;
    repeat (case_bool_decide; try done); lia.
Qed.

(** Actions after the signal start no thread. *)
Lemma running_act (x : exchange) k a ctl rest :
  SERVING ≤ k → main_program !! k = Some a → act (g_running x) a (x_ctl x) = Some ctl →
  running (at_main ctl rest x) ≤ running x.
Proof.
  intros Hk Ha Hact.
  assert (Hth : ∀ c, thread_ (ctl c) = Running → thread_ (x_ctl x c) = Running).
  { intros c. destruct a as [c0 b|c0|c0|]; simpl in Hact.
    - injection Hact as <-. destruct (decide (c0 = c)) as [->|Hne];
        [by rewrite fn_lookup_insert|by rewrite fn_lookup_insert_ne].
    - by apply no_spawn in Ha.
    - destruct (joinable _); [destruct (bool_decide _)|]; simplify_eq; [|done].
      destruct (decide (c0 = c)) as [->|Hne]; [by rewrite fn_lookup_insert|by rewrite fn_lookup_insert_ne].
    - by destruct (g_running x); simplify_eq. }
  unfold running, components. cbn.
  pose proof (Hth CGateway). pose proof (Hth CEngine). pose proof (Hth CPublisher).
  pose proof (Hth CStreamer). repeat case_bool_decide; naive_solver lia.
Qed.

(** A thread leaves, or the controls stay as they are. *)
Lemma x_exec_ctl (x : exchange) l x' :
  calm l → x_exec l x = Ok x' →
  g_running x' = g_running x ∧
  (mover l = Some ThMain ∧ x' = main_step x ∨
   x_main x' = x_main x ∧
   (x_ctl x' = x_ctl x ∨
    ∃ c, mover l = Some (Th c) ∧ x' = leave c x ∧ thread_ (x_ctl x c) = Running)).
Proof.
  intros Hl Hexec. destruct l; try done; simpl in Hexec; unfold if_running in Hexec;
    try (case_bool_decide as Hrun; [|injection Hexec as <-; auto]).
  - injection Hexec as <-. split; [|by left]. unfold main_step. by repeat case_match.
  - unfold gateway_step in Hexec. split; [by repeat (case_match; simplify_eq/=)|right].
    repeat (case_match; simplify_eq/=); (split; [done|]); eauto.
  - unfold engine_step, push_response, push_update in Hexec.
    split; [by repeat (case_match; simplify_eq/=)|right].
    repeat (case_match; simplify_eq/=); (split; [done|]); eauto.
  - unfold publisher_step in Hexec. split; [by repeat (case_match; simplify_eq/=)|right].
    repeat (case_match; simplify_eq/=); (split; [done|]); eauto.
  - unfold streamer_step in Hexec. split; [by repeat (case_match; simplify_eq/=)|right].
    repeat (case_match; simplify_eq/=); (split; [done|]); eauto.
Qed.

(** A step of a shutdown gets it closer to its end or changes nothing. *)
Definition kept (x x' : exchange) : Prop :=
  backlog_of x' = backlog_of x ∧ x_ctl x' = x_ctl x ∧ x_main x' = x_main x.

Lemma main_stopping (x : exchange) k :
  SERVING ≤ k → x_main x = drop k main_program → lifecycle k (x_ctl x) →
  main_step x = x ∨
  ∃ ctl rest, main_step x = at_main ctl rest x ∧ length rest < length (x_main x) ∧
    running (main_step x) ≤ running x ∧ rest = drop (Datatypes.S k) main_program ∧
    lifecycle (Datatypes.S k) ctl.
Proof.
  intros Hk Hm Hl. unfold main_step. destruct (x_main x) as [|a rest] eqn:Hx; [by left|].
  destruct (act (g_running x) a (x_ctl x)) as [ctl|] eqn:Ha; [right|by left].
  assert (Hnth : main_program !! k = Some a).
  { replace k with (k + 0)%nat by lia. by rewrite <- lookup_drop, <- Hm. }
  exists ctl, rest. split_and!; [done|simpl; lia| | |].
  - by eapply running_act.
  - rewrite (drop_S _ _ _ Hnth) in Hm. by injection Hm.
  - by eapply lifecycle_act.
Qed.

Lemma stopping_step evs x l :
  load_ok evs → stopping evs x → calm l →
  ∃ x', x_exec l x = Ok x' ∧ stopping evs x' ∧ capacities x' = capacities x ∧
    (remaining x' < remaining x ∨ kept x x').
Proof.
  intros Hload (Hx & Harr & Hg & (k & Hk & Hm & Hlc) & Hroom & Hw) Hl.
  assert (Hnil : arrivals [l] = []) by (by destruct l).
  destruct (x_exec_ok v epoch_nanos pub_nanos str_nanos tickers pool size evs l x Hload Hx)
    as (x' & Hexec & Hx'); [by rewrite Harr, Hnil, app_nil_r|].
  destruct (x_exec_moved v epoch_nanos pub_nanos str_nanos tickers pool size evs x l x' Hload Hx Hl Hexec)
    as [Hc Hmv]. assert (Hle : work x' ≤ work x).
  { destruct Hmv as [?|Hb]; [lia|]. unfold Progress.work. by rewrite Hb. }
  destruct (x_exec_ctl x l x' Hl Hexec) as [Hg' Hcases].
  exists x'. split; [done|].
  assert (Harr' : arrived x' = evs) by (by rewrite (x_exec_arrived _ _ _ _ _ _ Hexec), Hnil, app_nil_r).
  assert (Hcap : work x' ≤ capacity (responseQ_ (x_server x'))).
  { injection Hc as _ -> _ _. lia. }
  unfold stopping. rewrite Hc, Hg', Hg.
  destruct Hcases as [[_ ->]|[Hmain [Hctl|(c & _ & -> & Hrun)]]].
  - destruct (main_stopping x k Hk Hm Hlc) as [Heq|(ctl & rest & Heq & Hlt & Hr & Hrest & Hlc')].
    + rewrite Heq in *. split_and!; try done; [by exists k|by right].
    + split_and!; try done.
      * exists (Datatypes.S k). rewrite Heq. cbn. split_and!; [lia|done|done].
      * left. unfold remaining. rewrite Heq in *. cbn [x_main at_main]. lia.
  - split_and!; try done.
    + exists k. by rewrite Hmain, Hctl.
    + destruct Hmv as [Hless|Hb]; [left|by right]. unfold remaining, running. rewrite Hmain, Hctl. lia.
  - split_and!; try done.
    + destruct (xi_life _ _ _ _ _ _ _ Hx') as (k' & Hk' & Hlc'). exists k'.
      change (x_main (leave c x)) with (x_main x) in *.
      assert (k' = k) as ->; [|done]. apply drop_program; [apply Hlc'|apply Hlc|congruence].
    + left. unfold remaining. pose proof (running_leave x c Hrun). cbn [x_main leave at_main]. lia.
Qed.

(** ** Who gets the shutdown on *)

(** How many steps a thread is away from the head of its loop. *)
Definition gateway_exit (pc : gateway_pc) : nat :=
  match pc with GwTop | GwNet (_ :: _) => 0 | GwNet [] => 1 | GwPoll => 2 | GwPublish => 3 | GwDrain => 4 end.
Definition streamer_exit (pc : streamer_pc) : nat :=
  match pc with StTop => 0 | StPoll => 1 | StDrain => 2 end.

Definition main_can (x : exchange) : Prop :=
  ∃ a rest ctl, x_main x = a :: rest ∧ act (g_running x) a (x_ctl x) = Some ctl.

Definition stops (x : exchange) (t : thread) (d : nat) : Prop :=
  match t with
  | ThMain => main_can x
  | Th CGateway =>
      thread_ (x_ctl x CGateway) = Running ∧ run_ (x_ctl x CGateway) = false ∧
      gateway_exit (x_gw_pc x) ≤ d
  | Th CEngine =>
      thread_ (x_ctl x CEngine) = Running ∧
      (x_en_pc x = EnTop ∧ run_ (x_ctl x CEngine) = false ∨ x_en_pc x ≠ EnTop ∧ engine_can x)
  | Th CPublisher =>
      thread_ (x_ctl x CPublisher) = Running ∧
      (blocked (fd_publisher (x_feed x)) = None ∧ run_ (x_ctl x CPublisher) = false ∨ publisher_can x)
  | Th CStreamer =>
      thread_ (x_ctl x CStreamer) = Running ∧
      (run_ (x_ctl x CStreamer) = false ∧ streamer_exit (x_st_pc x) ≤ d ∨
       queued (fd_updates (x_feed x)) ≠ [] ∧ to_drain (x_st_pc x) ≤ d)
  end.

(** The publisher and the streamer keep the update queue from staying full. *)
Lemma feed_stops evs x :
  stopping evs x → thread_ (x_ctl x CPublisher) = Running →
  blocked (fd_publisher (x_feed x)) ≠ None ∨ queued (marketUpdates_ (fd_publisher (x_feed x))) ≠ [] →
  ∃ t d, d < 5 ∧ stops x t d.
Proof.
  intros (Hx & _ & _ & _ & (_ & _ & _ & Hcs) & _) Hrun Hsome.
  destruct (decide (length (queued (fd_updates (x_feed x))) < capacity (fd_updates (x_feed x)))) as [Hlt|Hge].
  - exists (Th CPublisher), 0. split; [lia|]. split; [done|]. right. split; [|done].
    rewrite <- not_eq_None_Some. exact Hsome.
  - exists (Th CStreamer), 2. split; [lia|]. split; [|right; split].
    + eapply (x_outlives evs x CPublisher); [done|done|by left].
    + apply length_nonempty. lia.
    + by destruct (x_st_pc x); simpl; lia.
Qed.

(** The engine is never kept waiting by the response queue. *)
Lemma engine_stops evs x :
  stopping evs x → thread_ (x_ctl x CEngine) = Running → x_en_pc x ≠ EnTop →
  ∃ t d, d < 5 ∧ stops x t d.
Proof.
  intros Hst Hrun Hpc. pose proof Hst as (Hx & _ & _ & _ & (_ & _ & Hcu & _) & Hw).
  destruct (decide (length (queued (marketUpdates_ (fd_publisher (x_feed x)))) <
    capacity (marketUpdates_ (fd_publisher (x_feed x))))) as [Hlt|Hge].
  - exists (Th CEngine), 0. split; [lia|]. split; [done|]. right. split; [done|].
    split_and!; [by left| |done]. eapply Nat.lt_le_trans; [|exact Hw].
    unfold Progress.work, weight, engine_weight. cbn [Progress.backlog_of b_undecoded b_events b_staged
      b_queued b_engine b_resting b_responses b_updates b_blocked b_streamer].
    destruct (x_en_pc x); [done|]. lia.
  - eapply feed_stops; [done| |right; apply length_nonempty; lia].
    eapply (x_outlives evs x CEngine); [done|done|by left].
Qed.

Lemma someone_stops evs x :
  stopping evs x → x_main x = [] ∨ ∃ t d, d < 5 ∧ stops x t d.
Proof.
  intros Hst. pose proof Hst as (Hx & _ & Hg & (k & Hk & Hm & Hlc) & _ & _).
  destruct (x_main x) as [|a rest] eqn:Hmain; [by left|right].
  assert (Hnth : main_program !! k = Some a).
  { replace k with (k + 0)%nat by lia. by rewrite <- lookup_drop, <- Hm. }
  destruct (act (g_running x) a (x_ctl x)) as [ctl|] eqn:Hact.
  { exists ThMain, 0. split; [lia|]. by exists a, rest, ctl. }
  destruct a as [c b|c|c|]; simpl in Hact; try done; [|by rewrite Hg in Hact].
  unfold joinable in Hact. destruct (thread_ (x_ctl x c)) eqn:Hth; simpl in Hact; try done.
  pose proof (join_flag k (x_ctl x) c Hlc Hnth) as Hflag. destruct c.
  - exists (Th CGateway), 4. split; [lia|]. split_and!; [done..|].
    destruct (x_gw_pc x) as [| | | |[]]; simpl; lia.
  - destruct (x_en_pc x) eqn:Hpc; [|by eapply engine_stops; [| |rewrite Hpc]].
    exists (Th CEngine), 0. split; [lia|]. split; [done|by left].
  - destruct (blocked (fd_publisher (x_feed x))) eqn:Hb.
    + eapply feed_stops; [done|done|left; by rewrite Hb].
    + exists (Th CPublisher), 0. split; [lia|]. split; [done|by left].
  - exists (Th CStreamer), 2. split; [lia|]. split; [done|left]. split; [done|].
    by destruct (x_st_pc x); simpl; lia.
Qed.

Lemma stops_keep (x x' : exchange) t d :
  kept x x' → capacities x' = capacities x → g_running x' = g_running x →
  (t = Th CGateway → x_gw_pc x' = x_gw_pc x) → (t = Th CStreamer → x_st_pc x' = x_st_pc x) →
  stops x t d → stops x' t d.
Proof.
  intros (Hb & Hctl & Hm) Hc Hg Hgw Hst. injection Hc as Hcq Hcr Hcu Hcs.
  destruct (backlog_lengths v tickers size x x' Hb) as (He & Hs & Hq & Hpc & Hr & Hu & Hbl & Hsq).
  destruct t as [|[]]; cbn [stops]; rewrite ?Hctl.
  - unfold main_can. by rewrite Hm, Hctl, Hg.
  - by rewrite (Hgw eq_refl).
  - unfold engine_can. by rewrite Hpc, !length_nonempty, Hq, Hr, Hu, Hcr, Hcu.
  - unfold publisher_can. by rewrite !eq_None_not_Some, Hbl, !length_nonempty, Hu, Hsq, Hcs.
  - by rewrite (Hst eq_refl), !length_nonempty, Hsq.
Qed.

Lemma kept_leave (x : exchange) c :
  thread_ (x_ctl x c) = Running → ¬ kept x (leave c x).
Proof.
  intros Hr (_ & Hctl & _). apply (f_equal (λ f, thread_ (f c))) in Hctl. cbn in Hctl.
  rewrite fn_lookup_insert in Hctl. cbn in Hctl. congruence.
Qed.

Lemma kept_work (x x' : exchange) : kept x x' → ¬ work x' < work x.
Proof. intros (Hb & _) Hless. unfold Progress.work in Hless. rewrite Hb in Hless. lia. Qed.

(** The gateway, told to stop, gets to the head of its loop. *)
Lemma gateway_leaves evs x x' d :
  load_ok evs → stopping evs x → gateway_step epoch_nanos x = Ok x' → kept x x' →
  stops x (Th CGateway) d → ∃ d', d = Datatypes.S d' ∧ stops x' (Th CGateway) d'.
Proof.
  intros Hload Hst Hstep Hkept (Hrun & Hflag & Hd). pose proof Hst as (Hx & _).
  pose proof Hkept as (Hb & Hctl & _). cbn [stops]. rewrite Hctl.
  assert (Hgoal : gateway_exit (x_gw_pc x') < gateway_exit (x_gw_pc x)).
  { destruct (backlog_lengths v tickers size x x' Hb) as (He & _ & _ & _ & Hr & _).
    revert Hstep. unfold gateway_step. rewrite Hflag.
    destruct (x_gw_pc x) as [| | | |[|ev batch]] eqn:Hpc.
    - intros [= <-]. by apply kept_leave in Hkept.
    - destruct (queued (responseQ_ (x_server x))) as [|r rs] eqn:Hq.
      + rewrite (drain_step_none epoch_nanos) by done. intros [= <-]. cbn. lia.
      + rewrite (drain_step_one epoch_nanos r rs), (next_read_cons _ _ _ Hq) by done.
        intros [= <-]. cbn in Hr. rewrite pop_queued, Hq in Hr. cbn in Hr. lia.
    - destruct (publish (x_server x)) as [[? s']|]; [|done]. intros [= <-]. cbn. lia.
    - intros [= <-]. cbn. destruct (x_net x); lia.
    - intros [= <-]. cbn. lia.
    - destruct (handle ev (x_server x)) as [[? s']|]; [|done]. intros [= <-].
      unfold collected in He. rewrite Hpc in He. cbn in He. rewrite !length_app in He. lia. }
  exists (d - 1). split; [lia|]. split_and!; [done..|lia].
Qed.

(** So does the streamer. *)
Lemma streamer_leaves evs clients x x' d :
  load_ok evs → stopping evs x → streamer_step pub_nanos str_nanos clients x = Ok x' → kept x x' →
  stops x (Th CStreamer) d → ∃ d', d = Datatypes.S d' ∧ stops x' (Th CStreamer) d'.
Proof.
  intros Hload Hst Hstep Hkept (Hrun & Hd). pose proof Hst as (Hx & _).
  pose proof Hkept as (Hb & Hctl & _). cbn [stops]. rewrite Hctl.
  destruct (backlog_lengths v tickers size x x' Hb) as (_ & _ & _ & _ & _ & _ & _ & Hsq).
  assert (Hflag : x_st_pc x = StTop → run_ (x_ctl x CStreamer) = true).
  { intros Hpc. destruct (run_ (x_ctl x CStreamer)) eqn:Hf; [done|].
    unfold streamer_step in Hstep. rewrite Hpc, Hf in Hstep. injection Hstep as <-.
    by apply kept_leave in Hkept. }
  destruct (streamer_moved v epoch_nanos pub_nanos str_nanos tickers pool size evs clients x Hload Hx Hflag)
    as (x1 & Hx1 & _ & _ & Hcan). rewrite Hstep in Hx1. injection Hx1 as <-.
  destruct Hd as [[Hf Hd]|[Hne Hd]].
  - assert (Hlt : streamer_exit (x_st_pc x') < streamer_exit (x_st_pc x)).
    { destruct (queued (fd_updates (x_feed x))) as [|s rest] eqn:Hq.
      - revert Hstep. unfold streamer_step. rewrite (next_read_nil _ Hq).
        destruct (x_st_pc x); [by rewrite Hflag in Hf|intros [= <-]; cbn; lia|].
        destruct (feed_run _ _ _ _) as [f|]; [|done]. intros [= <-]. cbn. lia.
      - destruct (Hcan ltac:(done)) as [Hless|Hdist]; [by apply kept_work in Hkept|].
        destruct (x_st_pc x); [by rewrite Hflag in Hf|done|].
        destruct (x_st_pc x'); simpl in *; lia. }
    exists (d - 1). split; [lia|]. split; [done|left]. split; [done|lia].
  - destruct (Hcan Hne) as [Hless|Hdist]; [by apply kept_work in Hkept|].
    exists (d - 1). split; [lia|]. split; [done|right]. split; [|lia].
    rewrite length_nonempty, Hsq. by apply length_nonempty.
Qed.

Lemma own_stops evs x l x' t d :
  load_ok evs → stopping evs x → calm l → x_exec l x = Ok x' → mover l = Some t → stops x t d →
  remaining x' < remaining x ∨ ∃ d', d = Datatypes.S d' ∧ stops x' t d'.
Proof.
  intros Hload Hst Hl Hexec Hm Hs. destruct (stopping_step evs x l Hload Hst Hl)
    as (x1 & Hx1 & _ & _ & [?|Hkept]); [rewrite Hexec in Hx1; injection Hx1 as <-; by left|].
  rewrite Hexec in Hx1. injection Hx1 as <-. right. pose proof Hst as (Hx & _).
  destruct l; injection Hm as <- || discriminate Hm; simpl in Hexec; unfold if_running in Hexec.
  - destruct Hs as (a & rest & ctl & Hmain & Hact). injection Hexec as <-.
    destruct Hkept as (_ & _ & Heq). unfold main_step in Heq. rewrite Hmain, Hact in Heq. cbn in Heq.
    apply (f_equal length) in Heq. cbn in Heq. lia.
  - rewrite bool_decide_eq_true_2 in Hexec by apply Hs. by eapply gateway_leaves.
  - pose proof Hs as (Hrun & Hcase). rewrite bool_decide_eq_true_2 in Hexec by done.
    destruct Hcase as [[Hpc Hf]|[Hpc Hcan]].
    { unfold engine_step in Hexec. rewrite Hpc, Hf in Hexec. injection Hexec as <-.
      by apply kept_leave in Hkept. }
    destruct (engine_moved v epoch_nanos str_nanos tickers pool size evs x Hload Hx)
      as (x2 & Hx2 & _ & _ & _ & Hless); [done|]. rewrite Hexec in Hx2. injection Hx2 as <-.
    by destruct (kept_work _ _ Hkept (Hless Hcan)).
  - pose proof Hs as (Hrun & Hcase). rewrite bool_decide_eq_true_2 in Hexec by done.
    assert ((blocked (fd_publisher (x_feed x)) = None ∧ run_ (x_ctl x CPublisher) = false) ∨
            (blocked (fd_publisher (x_feed x)) = None → run_ (x_ctl x CPublisher) = true))
      as [[Hpc Hf]|Hn] by (destruct (run_ (x_ctl x CPublisher)), (blocked _); naive_solver).
    { unfold publisher_step in Hexec. rewrite Hpc, Hf in Hexec. injection Hexec as <-.
      by apply kept_leave in Hkept. }
    destruct Hcase as [[Hpc Hf]|Hcan]; [by rewrite Hn in Hf|].
    destruct (publisher_moved v epoch_nanos pub_nanos str_nanos tickers pool size evs x Hload Hx Hn)
      as (x2 & Hx2 & _ & _ & _ & Hless). rewrite Hexec in Hx2. injection Hx2 as <-.
    by destruct (kept_work _ _ Hkept (Hless Hcan)).
  - rewrite bool_decide_eq_true_2 in Hexec by apply Hs. by eapply streamer_leaves.
Qed.

Lemma still_stops evs x l x' t d :
  load_ok evs → stopping evs x → calm l → x_exec l x = Ok x' → stops x t d →
  remaining x' < remaining x ∨
  if decide (mover l = Some t) then ∃ d', d = Datatypes.S d' ∧ stops x' t d' else stops x' t d.
Proof.
  intros Hload Hst Hl Hexec Hs. destruct (decide (mover l = Some t)) as [Hm|Hm]; [by eapply own_stops|].
  destruct (stopping_step evs x l Hload Hst Hl) as (x1 & Hx1 & _ & Hc & Hcase).
  rewrite Hexec in Hx1. injection Hx1 as <-. destruct Hcase as [?|Hkept]; [by left|right].
  destruct (x_exec_pcs epoch_nanos pub_nanos str_nanos x l x' Hexec) as [Hgw Hsp].
  destruct (x_exec_ctl x l x' Hl Hexec) as [Hg _].
  eapply stops_keep; [done..|by intros ->; apply Hgw|by intros ->; apply Hsp|done].
Qed.

Lemma stopping_reach evs x ls :
  load_ok evs → stopping evs x → Forall calm ls → rounds mover (5 * remaining x) ls →
  ∃ x', x_run ls x = Ok x' ∧ stopping evs x' ∧ x_main x' = [].
Proof.
  intros Hload Hst Hc Hr.
  destruct (rounds_reach mover x_exec calm (stopping evs) (λ x, x_main x = []) remaining stops 5)
    with (remaining x) ls x as (x' & Hrun & Hx' & Hq); try done.
  - intros y l Hy Hl. destruct (stopping_step evs y l Hload Hy Hl) as (y' & Hexec & Hy' & _ & Hcase).
    exists y'. split_and!; [done..| |].
    + destruct Hcase as [?|(Hb & Hctl & Hm)]; [lia|].
      unfold remaining, running, Progress.work. by rewrite Hb, Hctl, Hm.
    + intros Hm. destruct (x_exec_ctl y l y' Hl Hexec) as [_ [[_ ->]|[-> _]]]; [|done].
      unfold main_step. by rewrite Hm.
  - intros y Hy. by eapply someone_stops.
  - intros y _. unfold remaining. intros Hz. destruct (x_main y); [done|]. cbn in Hz. lia.
  - intros y l y' t d Hy Hl Hexec Hs. by eapply still_stops.
  - exists x'. by rewrite x_run_run.
Qed.

(** ** After the shutdown *)

(** A thread that is not running is at the head of its loop. *)
Definition parked (x : exchange) : Prop :=
  (thread_ (x_ctl x CEngine) ≠ Running → x_en_pc x = EnTop) ∧
  (thread_ (x_ctl x CPublisher) ≠ Running → blocked (fd_publisher (x_feed x)) = None).

Lemma act_keeps_running g a ctl ctl' c :
  act g a ctl = Some ctl' → thread_ (ctl' c) ≠ Running → thread_ (ctl c) ≠ Running.
Proof.
  intros Hact. destruct a as [c0 b|c0|c0|]; simpl in Hact.
  - injection Hact as <-. destruct (decide (c0 = c)) as [->|Hne];
      [by rewrite fn_lookup_insert|by rewrite fn_lookup_insert_ne].
  - injection Hact as <-. destruct (decide (c0 = c)) as [->|Hne];
      [by rewrite fn_lookup_insert|by rewrite fn_lookup_insert_ne].
  - destruct (joinable _); [case_bool_decide as Hex|]; simplify_eq; [|done].
    destruct (decide (c0 = c)) as [->|Hne]; [congruence|by rewrite fn_lookup_insert_ne].
  - by destruct g; simplify_eq.
Qed.

Lemma feed_run_publisher clients (f f' : feed U S) :
  feed_run pub_nanos str_nanos (FClient <$> clients) f = Ok f' → fd_publisher f' = fd_publisher f.
Proof.
  revert f. induction clients as [|c clients IH]; intros f; cbn; [by intros [= ->]|].
  destruct (handleClient str_nanos c (fd_streamer f)) as [st ans]. intros Hr. by rewrite (IH _ Hr).
Qed.

Lemma x_exec_parked (x : exchange) l x' : parked x → x_exec l x = Ok x' → parked x'.
Proof.
  intros [He Hp] Hexec. destruct l; simpl in Hexec; unfold if_running in Hexec;
    try (case_bool_decide as Hrun; [|by injection Hexec as <-]); try (injection Hexec as <-).
  - unfold main_step. destruct (x_main x) as [|a rest]; [done|].
    destruct (act _ a (x_ctl x)) as [ctl|] eqn:Ha; [|done].
    split; intros Ht; [apply He|apply Hp]; by eapply act_keeps_running.
  - done.
  - done.
  - unfold gateway_step in Hexec. repeat (case_match; simplify_eq/=); try done.
  - unfold engine_step, push_response, push_update in Hexec. split.
    + repeat (case_match; simplify_eq/=); cbn; rewrite ?fn_lookup_insert; done.
    + repeat (case_match; simplify_eq/=); cbn; rewrite ?fn_lookup_insert_ne by done; done.
  - unfold publisher_step in Hexec. split.
    + repeat (case_match; simplify_eq/=); cbn; rewrite ?fn_lookup_insert_ne by done; done.
    + repeat (case_match; simplify_eq/=); cbn; rewrite ?fn_lookup_insert; done.
  - unfold streamer_step in Hexec. destruct (x_st_pc x).
    + case_match; simplify_eq/=; [done|]. unfold parked. cbn.
      by rewrite !fn_lookup_insert_ne by done.
    + destruct (getNextRead _); [|by injection Hexec as <-]. unfold feed_exec in Hexec.
      destruct (drain_one _ _) as [[q st]|]; [|done]. by injection Hexec as <-.
    + destruct (feed_run _ _ _ _) as [f|] eqn:Hf; [|done]. injection Hexec as <-.
      unfold parked. cbn. by rewrite (feed_run_publisher clients _ _ Hf).
Qed.

Lemma x_run_parked ls (x : exchange) x' : parked x → x_run ls x = Ok x' → parked x'.
Proof.
  revert x. induction ls as [|l ls IH]; intros x Hp; simpl; [by intros [= ->]|].
  destruct (x_exec l x) as [x1|] eqn:Hexec; [|done]. apply IH. by eapply x_exec_parked.
Qed.

(** *** The claims on every shutdown *)

(** C12: On any schedule, with an admissible load (the requests decoded from the
    bytes name listed tickers and prices the book can hold, no ticker gets more
    NEW requests in the whole run than its pool has slots, and no 64-bit counter
    wraps): the run does not fault, and in the state it reaches a running thread
    finds the threads running that consume what it produces (requests, updates,
    sequenced updates), with their flags up: the publisher and the streamer are
    up before the engine, the engine before the gateway, and none of them stops
    before the last producer upstream has been joined. *)
Theorem consumers_outlive_producers (rq : Q) (rs : R) (mu : U) (su : S) (fifoPending : nat)
    (ls : list label) :
  queues_empty rq rs mu su → load_ok (arrivals ls) →
  ∃ x, x_run ls (exchange_new (B := B) rq rs mu su tickers pool fifoPending size) = Ok x ∧
    ∀ c c', thread_ (x_ctl x c) = Running → c' ∈ downstream c →
      thread_ (x_ctl x c') = Running ∧ run_ (x_ctl x c') = true.
Proof.
  intros Hqs Hload.
  destruct (start_run v epoch_nanos pub_nanos str_nanos tickers pool size rq rs mu su fifoPending ls Hqs Hload)
    as (x & Hrun & Hx & _). exists x. split; [done|]. intros c c'. by eapply x_outlives.
Qed.

Lemma all_joined k ctl c : lifecycle k ctl → length main_program ≤ k → thread_ (ctl c) = Joined.
Proof.
  intros [_ Hok] Hk. destruct (Hok c) as [_ Ht]. rewrite take_ge in Ht by done.
  assert (Hs : spawned main_program c = true) by (destruct c; vm_compute; reflexivity).
  assert (Hj : joined main_program c = true) by (destruct c; vm_compute; reflexivity).
  rewrite Hs, Hj in Ht. by destruct (thread_ (ctl c)); try naive_solver.
Qed.

(** C9: A shutdown completes.  The exchange, with any order book that has the
    laws of [OrderBookLaws], has received an admissible load (the requests
    decoded from the bytes name listed tickers and prices the book can hold, no
    ticker gets more NEW requests in the whole run than its pool has slots, and
    no 64-bit counter wraps), each of its four queues can hold one element, the
    signal has come and nothing more arrives; and the response queue can hold as
    many elements as there is work under way.  Then every schedule in which each
    thread moves once per round brings [main] to its end, without a fault,
    within five rounds per unit of work, action of [main] and running thread:
    all four threads have left their loops and are joined, the engine has pushed
    every message of every request it took, and the publisher waits for nothing.
    *)
Theorem shutdown_completes (rq : Q) (rs : R) (mu : U) (su : S) (fifoPending k : nat)
    (ls ls' : list label) (x : exchange) :
  queues_empty rq rs mu su → roomy (capacity rq, capacity rs, capacity mu, capacity su) →
  load_ok (arrivals ls) →
  x_run ls (exchange_new (B := B) rq rs mu su tickers pool fifoPending size) = Ok x →
  SERVING ≤ k ≤ length main_program → x_main x = drop k main_program → g_running x = false →
  work x ≤ capacity rs → Forall calm ls' → rounds mover (5 * remaining x) ls' →
  ∃ x', x_run ls' x = Ok x' ∧ x_main x' = [] ∧ (∀ c, thread_ (x_ctl x' c) = Joined) ∧
    taken x' = x_done x' ∧ outbox x' = [] ∧ blocked (fd_publisher (x_feed x')) = None.
Proof.
  intros Hqs Hcap Hload Hrun [Hk1 Hk2] Hm Hg Hw Hcalm Hrounds.
  destruct (start_run v epoch_nanos pub_nanos str_nanos tickers pool size rq rs mu su fifoPending ls Hqs Hload)
    as (x1 & Hrun1 & Hx & Harr). rewrite Hrun in Hrun1. injection Hrun1 as <-.
  destruct Hqs as [Hq Hr Hu Hs].
  pose proof (x_run_capacities v epoch_nanos pub_nanos str_nanos tickers pool size (arrivals ls) ls _ x Hload
    (exchange_new_inv _ _ _ _ _ (arrivals ls) rq rs mu su fifoPending Hq Hr Hu Hs) (reflexivity _) Hrun) as Hc.
  assert (Hst : stopping (arrivals ls) x).
  { unfold stopping. rewrite Hc. injection Hc as _ Hcr _ _. split_and!; try done.
    - destruct (xi_life _ _ _ _ _ _ _ Hx) as (k' & Hk' & Hl). exists k. split_and!; try done.
      assert (k' = k) as ->; [|done]. apply drop_program; [apply Hl|done|congruence].
    - by rewrite Hcr. }
  destruct (stopping_reach (arrivals ls) x ls' Hload Hst Hcalm Hrounds) as (x' & Hrun' & Hst' & Hmain').
  assert (Hj : ∀ c, thread_ (x_ctl x' c) = Joined).
  { destruct Hst' as (_ & _ & _ & (k' & _ & Hk' & Hl) & _). intros c. apply (all_joined k'); [done|].
    rewrite Hmain' in Hk'. apply (f_equal length) in Hk'. rewrite length_drop in Hk'.
    change (length (@nil action)) with 0 in Hk'. lia. }
  destruct (x_run_parked (ls ++ ls') (exchange_new (B := B) rq rs mu su tickers pool fifoPending size) x')
    as [He Hp]; [by split|by rewrite (x_run_app _ _ _ _ _ _ _ Hrun)|].
  rewrite Hj in He, Hp. exists x'. unfold taken, in_hand, outbox. rewrite He, app_nil_r by done.
  split_and!; try done. by apply Hp.
Qed.

(** ** The exception: responses *)

(** The gateway is gone, the engine waits for room in the response queue. *)
Definition hung (x : exchange) : Prop :=
  (∃ k, SERVING ≤ k ∧ x_main x = drop k main_program ∧ lifecycle k (x_ctl x)) ∧
  thread_ (x_ctl x CGateway) ≠ Running ∧ thread_ (x_ctl x CEngine) = Running ∧
  (∃ rq r out, x_en_pc x = EnPush rq (Resp r :: out)) ∧
  capacity (responseQ_ (x_server x)) ≤ length (queued (responseQ_ (x_server x))).

Lemma act_engine_running g a ctl ctl' :
  act g a ctl = Some ctl' → thread_ (ctl CEngine) = Running → thread_ (ctl' CEngine) = Running.
Proof.
  intros Hact Hr. destruct a as [c b|c|c|]; simpl in Hact.
  - injection Hact as <-. destruct (decide (c = CEngine)) as [->|Hne];
      [by rewrite fn_lookup_insert|by rewrite fn_lookup_insert_ne].
  - injection Hact as <-. destruct (decide (c = CEngine)) as [->|Hne];
      [by rewrite fn_lookup_insert|by rewrite fn_lookup_insert_ne].
  - destruct (joinable _); [case_bool_decide as Hex|]; simplify_eq; [|done].
    rewrite fn_lookup_insert_ne; [done|]. intros ->. congruence.
  - by destruct g; simplify_eq.
Qed.

Lemma hung_main (x : exchange) : hung x → hung (main_step x).
Proof.
  intros Hh. pose proof Hh as ((k & Hk & Hm & Hl) & Hgw & Hen & Hpc & Hfull). unfold main_step.
  destruct (x_main x) as [|a rest] eqn:Hx; [done|].
  destruct (act (g_running x) a (x_ctl x)) as [ctl|] eqn:Ha; [|done].
  assert (Hnth : main_program !! k = Some a).
  { replace k with (k + 0)%nat by lia. by rewrite <- lookup_drop, <- Hm. }
  split_and!; try done.
  - exists (Datatypes.S k). cbn [x_main at_main x_ctl]. split_and!; [lia| |by eapply lifecycle_act].
    rewrite (drop_S _ _ _ Hnth) in Hm. by injection Hm.
  - cbn. destruct a as [c b|c|c|]; simpl in Ha; simplify_eq.
    + destruct (decide (c = CGateway)) as [->|Hne];
        [by rewrite fn_lookup_insert|by rewrite fn_lookup_insert_ne].
    + by apply no_spawn in Hnth.
    + destruct (joinable _); [destruct (bool_decide _)|]; simplify_eq; [|done].
      destruct (decide (c = CGateway)) as [->|Hne];
        [by rewrite fn_lookup_insert|by rewrite fn_lookup_insert_ne].
    + by destruct (g_running x); simplify_eq.
  - cbn. by eapply act_engine_running.
Qed.

(** The market-data threads do not touch what the engine waits for. *)
Lemma hung_leave (x : exchange) c :
  hung x → thread_ (x_ctl x c) = Running → run_ (x_ctl x c) = false → c ≠ CEngine → hung (leave c x).
Proof.
  intros ((k & Hk & Hm & Hl) & Hgw & Hen & Hpc & Hfull) Hr Hf Hne. split_and!; try done.
  - exists k. split_and!; [done..|]. by apply lifecycle_exit.
  - cbn. destruct (decide (c = CGateway)) as [->|?]; [done|by rewrite fn_lookup_insert_ne].
  - cbn. by rewrite fn_lookup_insert_ne.
Qed.

Lemma hung_step (x : exchange) l x' : hung x → x_exec l x = Ok x' → hung x'.
Proof.
  intros Hh Hexec. pose proof Hh as (_ & Hgw & Hen & (rq & r & out & Hpc) & Hfull).
  destruct l; simpl in Hexec; unfold if_running in Hexec; try (injection Hexec as <-).
  - by apply hung_main.
  - done.
  - done.
  - rewrite bool_decide_eq_false_2 in Hexec by done. by injection Hexec as <-.
  - rewrite bool_decide_eq_true_2 in Hexec by done. unfold engine_step in Hexec. rewrite Hpc in Hexec.
    destruct (push_response_cases r x) as [[Heq _]|(q & _ & _)].
    + rewrite Heq in Hexec. by injection Hexec as <-.
    + unfold push_response in Hexec. rewrite push_full in Hexec by done. injection Hexec as <-. done.
  - case_bool_decide as Hrun; [|by injection Hexec as <-]. unfold publisher_step in Hexec.
    destruct (run_ (x_ctl x CPublisher)) eqn:Hf; repeat (case_match; simplify_eq/=);
      try done; by apply hung_leave.
  - case_bool_decide as Hrun; [|by injection Hexec as <-]. unfold streamer_step in Hexec.
    destruct (run_ (x_ctl x CStreamer)) eqn:Hf; repeat (case_match; simplify_eq/=);
      try done; by apply hung_leave.
Qed.

(** C34: If the engine is at a response for which there is no room when the gateway
    has stopped, the shutdown never completes: whatever the threads do from
    there, the engine stays in its push, [main] stays before the end of
    [engine.stop()] and never returns. *)
Theorem shutdown_hangs (ls : list label) (x x' : exchange) :
  hung x → x_run ls x = Ok x' →
  thread_ (x_ctl x' CEngine) = Running ∧ x_main x' ≠ [] ∧ x_en_pc x' ≠ EnTop.
Proof.
  intros Hh Hrun. assert (Hh' : hung x').
  { revert x Hh Hrun. induction ls as [|l ls IH]; intros x Hh; simpl; [by intros [= ->]|].
    destruct (x_exec l x) as [x1|] eqn:Hexec; [|done]. apply IH. by eapply hung_step. }
  destruct Hh' as ((k & Hk & Hm & Hl) & _ & Hen & (rq & r & out & Hpc) & _). split_and!; [done| |congruence].
  intros Hnil. rewrite Hnil in Hm. assert (thread_ (x_ctl x' CEngine) = Joined); [|congruence].
  apply (all_joined k); [done|]. apply (f_equal length) in Hm. rewrite length_drop in Hm.
  change (length (@nil action)) with 0 in Hm. lia.
Qed.
End shutdown.

(** ** Concrete shutdowns *)

Lemma consumers_outlive_producers_witness :
  ∃ x, demo_x_run demo_arrivals demo_exchange_new = Ok x ∧
    thread_ (x_ctl x CGateway) = Running ∧ thread_ (x_ctl x CStreamer) = Running.
Proof.
  destruct (consumers_outlive_producers (H0 := list_queue_laws _) (H2 := list_queue_laws _)
    (H4 := list_queue_laws _) (H6 := list_queue_laws _) (H7 := map_order_book (P := SetPool.t) id)
    (OrderBookLaws0 := map_order_book_laws id (λ l Hl, Hl)) (H8 := stable_sort) (H16 := list_iteration)
    MapBook demo_clock demo_clock demo_clock 1 8 16 _ _ _ _ 4 _ demo_queues demo_load) as (x & Hrun & Hall).
  exists x. split; [exact Hrun|]. assert (Hg : thread_ (x_ctl x CGateway) = Running).
  { vm_compute in Hrun. injection Hrun as <-. reflexivity. }
  split; [exact Hg|]. apply (Hall CGateway CStreamer Hg). vm_compute. repeat constructor.
Defined.

(** The exchange of [SystemSafe] with room for a hundred responses, both orders
    at the door when the signal comes. *)
Definition demo_roomy : demo_exchange :=
  exchange_new (H3 := map_order_book id) (ListQueue 1 []) (ListQueue 100 []) (ListQueue 1 [])
    (ListQueue 1 []) 1 8 4 16.

Definition demo_signalled : demo_exchange :=
  match demo_x_run (demo_arrivals ++ [LSignal]) demo_roomy with Ok x => x | Fault _ => demo_roomy end.

Definition demo_remaining : nat := remaining MapBook 1 16 (H0 := list_queue_laws _)
  (H2 := list_queue_laws _) (H4 := list_queue_laws _) (H6 := list_queue_laws _) demo_signalled.

Lemma shutdown_completes_witness :
  ∃ x', demo_x_run (concat (replicate (5 * demo_remaining) demo_round)) demo_signalled = Ok x' ∧
    x_main x' = [] ∧ thread_ (x_ctl x' CEngine) = Joined.
Proof.
  destruct (shutdown_completes (H0 := list_queue_laws _) (H2 := list_queue_laws _)
    (H4 := list_queue_laws _) (H6 := list_queue_laws _) (H7 := map_order_book (P := SetPool.t) id)
    (OrderBookLaws0 := map_order_book_laws id (λ l Hl, Hl)) (H8 := stable_sort) (H16 := list_iteration)
    MapBook demo_clock demo_clock demo_clock 1 8 16 (ListQueue 1 []) (ListQueue 100 []) (ListQueue 1 [])
    (ListQueue 1 []) 4 SERVING (demo_arrivals ++ [LSignal])
    (concat (replicate (5 * demo_remaining) demo_round)) demo_signalled) as (x' & Hrun & Hm & Hj & _).
  - by split.
  - split_and!; simpl; lia.
  - exact demo_load.
  - vm_compute. reflexivity.
  - vm_compute. lia.
  - vm_compute. reflexivity.
  - vm_compute. reflexivity.
  - vm_compute. lia.
  - apply demo_round_calm.
  - apply rounds_replicate, demo_round_round.
  - exists x'. split; [exact Hrun|]. split; [exact Hm|apply Hj].
Defined.

(** The shutdown of [main] after an order has been queued: the signal, the flag
    of the gateway, the gateway leaves its loop and is joined. *)
Definition stop_gateway : list label :=
  replicate 6 LGateway ++ [LSignal; LMain; LMain; LGateway; LGateway; LMain].

(** A fill-and-kill order that finds no match has two responses; the queue has
    room for one. *)
Definition demo_hang : list label :=
  replicate 8 LMain ++
  [ LArrive (NRecv sockA (enter_msg (tok 65) 66 10 0 100 0) 10); LArrive NRecvFinished ] ++
  stop_gateway ++ [LEngine; LEngine; LEngine].

Definition demo_hung : demo_exchange :=
  match demo_x_run demo_hang demo_exchange_new with Ok x => x | Fault _ => demo_exchange_new end.

(** Conversion opens [demo_x_run] before the run it stands for. *)
Strategy expand [demo_x_run].

Lemma shutdown_hangs_witness :
  demo_x_run demo_hang demo_exchange_new = Ok demo_hung ∧
  ∀ x', demo_x_run (concat (replicate 100 demo_round)) demo_hung = Ok x' → x_main x' ≠ [].
Proof.
  split; [vm_compute; reflexivity|]. intros x' Hrun. unfold demo_x_run in Hrun.
  destruct (shutdown_hangs (H2 := list_queue_laws _) (H7 := map_order_book (P := SetPool.t) id)
    (H8 := stable_sort) (H16 := list_iteration) demo_clock demo_clock demo_clock
    (concat (replicate 100 demo_round)) demo_hung x') as (_ & Hm & _); [|exact Hrun|exact Hm].
  split; [|split; [vm_compute; congruence|split; [vm_compute; reflexivity|split]]].
  - exists 11. split; [vm_compute; lia|]. split; [vm_compute; reflexivity|]. split; [vm_compute; lia|].
    intros c. destruct c; split; vm_compute; try reflexivity; split; reflexivity.
  - eexists _, _, _. vm_compute. reflexivity.
  - vm_compute. lia.
Defined.

(** The engine does not drain its queue when it is stopped: in this run two
    orders of connected clients were received before the signal, the shutdown
    completes, one order is still in the request queue and the other in the
    sequencer, and neither client was told anything. *)
Theorem shutdown_drops_requests :
  match demo_x_run (demo_arrivals ++ replicate 7 LGateway ++
          [LSignal; LMain; LMain; LGateway; LGateway; LMain; LMain; LEngine] ++
          concat (replicate 20 [LMain; LPublisher; LStreamer []])) demo_exchange_new with
  | Ok x =>
      x_main x = [] ∧ (∀ c, thread_ (x_ctl x c) = Joined) ∧ x_done x = [] ∧
      (rq_client_id_ <$> queued (requestQ_ (x_server x))) = [1%Z] ∧
      (rq_client_id_ ∘ request_ <$> pending (fifo_ (x_server x))) = [2%Z] ∧ sends (x_server x) = []
  | Fault _ => False
  end.
Proof. vm_compute. split_and!; try reflexivity. intros []; reflexivity. Qed.
