(* ===== verification/Sockets.v ===== *)
(** * Sockets: serving recovery clients over TCP

    [sendAll], [recvExact], [serveSnapshot], [serveReplay], [handleClient] and
    [serveRequests] of [src/src/network/market/snapshot_stream.h] down to the
    system calls.  [Streamer] describes an answer by the buffers given to
    [sendAll]; here the kernel may take or give as many bytes per call as it
    likes and fail at any of them.

    The kernel's [send] and [recv] are the class [StreamSocket], what the code
    relies on the class [StreamSocketLaws]; [script] is an instance. *)

From S2P Require Import Prelude Types Queue Wire Itch Publisher Streamer FeedFacts MarketData.
Import Itch.

Local Open Scope nat_scope.

(** ** A connected stream socket *)

(** The deadlines, in milliseconds. *)
Definition TCP_SND_TIMEOUT_MS : nat := 2000.
Definition TCP_RCV_TIMEOUT_MS : nat := 10.

Inductive syscall := SysSend (bytes : list Z) | SysRecv (size : nat).

(** [send] and [recv] return what the system call returns, a count or a number
    that is not positive; [recv] also gives the bytes it stored; [sys_ms] is how
    long the call takes. *)
Class StreamSocket (F : Type) := {
  sys_send : list Z → F → Z * F;
  sys_recv : nat → F → Z * list Z * F;
  sys_ms : syscall → F → nat
}.

(** [sent]: what the peer was given so far; [incoming]: what it sent and nobody
    has received.  A call on a non-empty buffer transfers a prefix, and the
    options [SO_SNDTIMEO] and [SO_RCVTIMEO] bound the time of each call. *)
Class StreamSocketLaws (F : Type) `{StreamSocket F} := {
  sent : F → list Z;
  incoming : F → list Z;
  sys_send_ok bytes f n f' :
    bytes ≠ [] → sys_send bytes f = (n, f') →
    Z.to_nat n ≤ length bytes ∧ sent f' = sent f ++ take (Z.to_nat n) bytes ∧
    incoming f' = incoming f;
  sys_recv_ok size f n bs f' :
    0 < size → sys_recv size f = (n, bs, f') →
    Z.to_nat n ≤ size ∧ length bs = Z.to_nat n ∧ incoming f = bs ++ incoming f' ∧ sent f' = sent f;
  sys_send_ms bytes f : sys_ms (SysSend bytes) f ≤ TCP_SND_TIMEOUT_MS;
  sys_recv_ms size f : sys_ms (SysRecv size) f ≤ TCP_RCV_TIMEOUT_MS
}.

(** A descriptor, the number of system calls made on it and the time they took. *)
Record fd (F : Type) := Fd { fd_conn : F; fd_calls : nat; fd_ms : nat }.
Arguments Fd {_} _ _ _.
Arguments fd_conn {_} _.
Arguments fd_calls {_} _.
Arguments fd_ms {_} _.

Section sockets.
Context {F : Type} `{StreamSocket F}.

Definition called (call : syscall) (c : F) (f : fd F) : fd F :=
  Fd c (S (fd_calls f)) (fd_ms f + sys_ms call (fd_conn f)).

Definition send (bytes : list Z) : M (fd F) Z := λ f,
  let '(n, c) := sys_send bytes (fd_conn f) in Ok (n, called (SysSend bytes) c f).

Definition recv (size : nat) : M (fd F) (Z * list Z) := λ f,
  let '(n, bs, c) := sys_recv size (fd_conn f) in Ok ((n, bs), called (SysRecv size) c f).

(** One round of the loop of [sendAll] with [bytes] left. *)
Definition send_step (bytes : list Z) : M (fd F) (list Z + bool) :=
  match bytes with
  | [] => mret (inr true)
  | _ =>
      sent ← send bytes;
      if (sent <=? 0)%Z then mret (inr false) else mret (inl (drop (Z.to_nat sent) bytes))
  end.

Definition sendAll (data : list Z) : M (fd F) bool := loop (S (length data)) send_step data.

(** One round of the loop of [recvExact]: [size] bytes to go, [got] stored. *)
Definition recv_step (v : nat * list Z) : M (fd F) (nat * list Z + option (list Z)) :=
  let '(size, got) := v in
  match size with
  | O => mret (inr (Some got))
  | _ =>
      r ← recv size;
      if (r.1 <=? 0)%Z then mret (inr None)
      else mret (inl (size - Z.to_nat r.1, got ++ r.2))
  end.

(** The buffer when [recvExact] returns true. *)
Definition recvExact (size : nat) : M (fd F) (option (list Z)) :=
  loop (S size) recv_step (size, []).
End sockets.

(** ** Serving a client *)

Section serving.
Context {F : Type} `{StreamSocket F} `{ByteSwap} `{ItchWire} `{HashIteration}.
Context (nanos : nat → Z).

(** The streamer with the connection at hand. *)
Abbreviation T := (M (streamer * fd F)).

Definition on_fd {A} (m : M (fd F) A) : T A := λ s,
  match m s.2 with
  | Ok (a, f) => Ok (a, (s.1, f))
  | Fault e => Fault e
  end.

Definition serveSnapshot_tcp : T unit :=
  st ← gets fst;
  when (dirty_ st || bool_decide (snapshot_buf_ st = []))
    (modify (λ s, (bakeSnapshot nanos s.1, s.2)));;
  buf ← gets (snapshot_buf_ ∘ fst);
  _ ← on_fd (sendAll buf);
  mret tt.

Definition serveReplay_tcp (client_seq : Z) : T unit :=
  st ← gets fst;
  let last := last_seq_num_ st in
  if (last <=? client_seq)%Z then
    _ ← on_fd (sendAll [char_C]); mret tt
  else
    let oldest_replayable := (if REPLAY_CAPACITY <? last then last - REPLAY_CAPACITY else 0)%Z in
    if (client_seq <? oldest_replayable)%Z then
      _ ← on_fd (sendAll [char_N]); mret tt
    else
      _ ← on_fd (sendAll [char_R]);
      let replay_scratch :=
        flatten (Z.to_nat (last - client_seq)) (client_seq + 1) (replay_buffer_ st) in
      _ ← on_fd (sendAll replay_scratch);
      mret tt.

Definition handleClient_tcp : T unit :=
  r ← on_fd (recvExact 1);
  match r with
  | Some [c] =>
      if (c =? char_S)%Z then serveSnapshot_tcp
      else if (c =? char_R)%Z then
        seq ← on_fd (recvExact 8);
        match seq with
        | Some bs => serveReplay_tcp (swap64 (of_host_bytes bs))
        | None => mret tt
        end
      else mret tt
  | _ => mret tt
  end.

(** [accepting]: the connections that [accept] returns before it fails;
    [closed]: those served and closed. *)
Record listener := Listener {
  ls_streamer : streamer;
  accepting : list F;
  closed : list (fd F)
}.

Definition accept_step (_ : unit) : M listener (unit + unit) := λ s,
  match accepting s with
  | [] => Ok (inr tt, s)
  | c :: rest =>
      match handleClient_tcp (ls_streamer s, Fd c 0 0) with
      | Ok (_, (st, f)) => Ok (inl tt, Listener st rest (closed s ++ [f]))
      | Fault e => Fault e
      end
  end.

Definition serveRequests (fuel : nat) : M listener unit := loop fuel accept_step tt.
End serving.
Arguments Listener {_} _ _ _.
Arguments ls_streamer {_} _.
Arguments accepting {_} _.
Arguments closed {_} _.

(** ** System calls add up *)

Section socket_facts.
Context {F : Type} `{StreamSocketLaws F}.

Abbreviation given := (λ f : fd F, sent (fd_conn f)).
Abbreviation unread := (λ f : fd F, incoming (fd_conn f)).

(** The connection after a system call. *)
Definition after_call (f : F) (c : syscall) : F :=
  match c with SysSend bs => (sys_send bs f).2 | SysRecv n => (sys_recv n f).2 end.

(** The peer keeps taking bytes and has sent what is asked for: no call fails,
    whatever calls came before. *)
Definition willing (f : F) : Prop :=
  ∀ cs, (∀ bs, bs ≠ [] → (0 < (sys_send bs (foldl after_call f cs)).1)%Z) ∧
        (∀ n, 0 < n → incoming (foldl after_call f cs) ≠ [] →
           (0 < (sys_recv n (foldl after_call f cs)).1.1)%Z).

Lemma willing_step f c : willing f → willing (after_call f c).
Proof. intros Hw cs. apply (Hw (c :: cs)). Qed.

Lemma send_step_call data (f : fd F) n c :
  data ≠ [] → sys_send data (fd_conn f) = (n, c) →
  send_step data f = Ok
    ((if (n <=? 0)%Z then inr false else inl (drop (Z.to_nat n) data)), called (SysSend data) c f).
Proof.
  intros Hne Hs. unfold send_step. destruct data as [|b data'] eqn:Hd; [done|]. rewrite <- Hd in *.
  rewrite (bind_ok _ _ _ n (called (SysSend data) c f)) by (unfold send; by rewrite Hs). by case_match.
Qed.

Lemma recv_step_call size got (f : fd F) n bs c :
  0 < size → sys_recv size (fd_conn f) = (n, bs, c) →
  recv_step (size, got) f = Ok
    ((if (n <=? 0)%Z then inr None else inl (size - Z.to_nat n, got ++ bs)), called (SysRecv size) c f).
Proof.
  intros Hpos Hs. unfold recv_step. destruct size as [|k] eqn:Hk; [lia|]. rewrite <- Hk in *.
  rewrite (bind_ok _ _ _ (n, bs) (called (SysRecv size) c f)) by (unfold recv; by rewrite Hs).
  cbn [fst snd]. by case_match.
Qed.

(** [sendAll] makes at most one call per byte and gives the peer a prefix, all
    of the data if it returns true; it does so for a willing peer. *)
Lemma sendAll_ok data (f : fd F) :
  ∃ ok part f', sendAll data f = Ok (ok, f') ∧ part `prefix_of` data ∧
    given f' = given f ++ part ∧ unread f' = unread f ∧
    fd_calls f' ≤ fd_calls f + length data ∧
    fd_ms f' ≤ fd_ms f + TCP_SND_TIMEOUT_MS * length data ∧ (ok = true ↔ part = data) ∧
    (willing (fd_conn f) → ok = true ∧ willing (fd_conn f')).
Proof.
  unfold sendAll. remember (S (length data)) as fuel eqn:Hfuel.
  assert (Hle : length data < fuel) by lia. clear Hfuel. revert data f Hle.
  induction fuel as [|fuel IH]; intros data f Hle; [lia|].
  destruct data as [|b data'] eqn:Hdata.
  { exists true, [], f. split_and!; try done; [by rewrite app_nil_r|simpl; lia..]. }
  rewrite <- Hdata in Hle |- *. assert (Hne : data ≠ []) by (by rewrite Hdata).
  destruct (sys_send data (fd_conn f)) as [n c] eqn:Hs.
  pose proof (sys_send_ok _ _ _ _ Hne Hs) as (Hn & Hsent & Hin).
  assert (Hstep : send_step data f = Ok
    ((if (n <=? 0)%Z then inr false else inl (drop (Z.to_nat n) data)), called (SysSend data) c f)).
  { by apply send_step_call. }
  destruct (Z.leb_spec n 0) as [Hn0|Hn0].
  - rewrite (loop_exit _ _ _ _ _ _ Hstep). exists false, [], (called (SysSend data) c f).
    pose proof (sys_send_ms data (fd_conn f)) as Hms.
    rewrite Z2Nat.nonpos, take_0 in Hsent by done. cbn [called fd_conn fd_calls fd_ms].
    assert (1 ≤ length data) by (rewrite Hdata; simpl; lia).
    split_and!; try done; [apply prefix_nil|lia|nia|]. intros Hw. destruct (Hw []) as [Hpos _].
    specialize (Hpos _ Hne). simpl in Hpos. rewrite Hs in Hpos. simpl in Hpos. lia.
  - rewrite (loop_continue _ _ _ _ _ _ Hstep).
    destruct (IH (drop (Z.to_nat n) data) (called (SysSend data) c f))
      as (ok & part & f' & Hrun & Hpre & Hg & Hu & Hc & Ht & Hok & Hwl); [rewrite length_drop; lia|].
    pose proof (sys_send_ms data (fd_conn f)) as Hms.
    exists ok, (take (Z.to_nat n) data ++ part), f'. cbn [called fd_conn fd_calls fd_ms] in *.
    rewrite length_drop in Hc, Ht. split_and!.
    + done.
    + rewrite <- (take_drop (Z.to_nat n) data) at 2. by apply prefix_app.
    + by rewrite Hg, Hsent, <- app_assoc.
    + by rewrite Hu.
    + lia.
    + nia.
    + rewrite Hok. split; [intros ->; apply take_drop|]. intros Heq.
      rewrite <- (take_drop (Z.to_nat n) data) in Heq at 2. by apply (inj (app _)) in Heq.
    + intros Hw. apply Hwl. apply (willing_step _ (SysSend data)) in Hw. simpl in Hw. by rewrite Hs in Hw.
Qed.

(** [recvExact] makes at most one call per byte and takes what it got off the
    stream: the bytes asked for, or fewer when a call failed. *)
Lemma recvExact_ok size (f : fd F) :
  ∃ r part f', recvExact size f = Ok (r, f') ∧
    unread f = part ++ unread f' ∧ given f' = given f ∧ fd_calls f' ≤ fd_calls f + size ∧
    fd_ms f' ≤ fd_ms f + TCP_RCV_TIMEOUT_MS * size ∧
    length part ≤ size ∧
    match r with Some bs => bs = part ∧ length part = size | None => length part < size end ∧
    (willing (fd_conn f) → willing (fd_conn f') ∧ (size ≤ length (unread f) → r ≠ None)).
Proof.
  unfold recvExact.
  assert (Hgen : ∀ fuel size got f, size < fuel → ∃ r part f',
    loop fuel recv_step (size, got) f = Ok (r, f') ∧
    unread f = part ++ unread f' ∧ given f' = given f ∧ fd_calls f' ≤ fd_calls f + size ∧
    fd_ms f' ≤ fd_ms f + TCP_RCV_TIMEOUT_MS * size ∧
    length part ≤ size ∧
    match r with Some bs => bs = got ++ part ∧ length part = size | None => length part < size end ∧
    (willing (fd_conn f) → willing (fd_conn f') ∧ (size ≤ length (unread f) → r ≠ None))).
  2: { apply (Hgen (S size) size [] f). lia. }
  clear size f. induction fuel as [|fuel IH]; intros size got f Hle; [lia|].
  destruct size as [|m] eqn:Hsize.
  { exists (Some got), [], f. split_and!; try done; [simpl; lia..|by rewrite app_nil_r]. }
  rewrite <- Hsize in Hle |- *. assert (Hpos : 0 < size) by lia.
  destruct (sys_recv size (fd_conn f)) as [[n bs] c] eqn:Hs.
  pose proof (sys_recv_ok _ _ _ _ _ Hpos Hs) as (Hn & Hlen & Hin & Hsent).
  assert (Hstep : recv_step (size, got) f = Ok
    ((if (n <=? 0)%Z then inr None else inl (size - Z.to_nat n, got ++ bs)), called (SysRecv size) c f)).
  { by apply recv_step_call. }
  assert (Hw1 : willing (fd_conn f) → willing c).
  { intros Hw. apply (willing_step _ (SysRecv size)) in Hw. simpl in Hw. by rewrite Hs in Hw. }
  destruct (Z.leb_spec n 0) as [Hn0|Hn0].
  - rewrite (loop_exit _ _ _ _ _ _ Hstep). exists None, bs, (called (SysRecv size) c f).
    pose proof (sys_recv_ms size (fd_conn f)) as Hms.
    cbn [called fd_conn fd_calls fd_ms]. split_and!; try done; [lia|nia|lia..|]. intros Hw. split; [by apply Hw1|]. intros Hl _.
    destruct (Hw []) as [_ Hrecv]. specialize (Hrecv size Hpos). simpl in Hrecv. rewrite Hs in Hrecv.
    simpl in Hrecv. destruct (incoming (fd_conn f)); [simpl in Hl; lia|].
    specialize (Hrecv ltac:(done)). lia.
  - rewrite (loop_continue _ _ _ _ _ _ Hstep).
    destruct (IH (size - Z.to_nat n) (got ++ bs) (called (SysRecv size) c f))
      as (r & part & f' & Hrun & Hu & Hg & Hc & Ht & Hpl & Hr & Hwl); [lia|].
    pose proof (sys_recv_ms size (fd_conn f)) as Hms.
    exists r, (bs ++ part), f'. cbn [called fd_conn fd_calls fd_ms] in *. rewrite length_app. split_and!.
    + done.
    + by rewrite Hin, Hu, app_assoc.
    + by rewrite Hg.
    + lia.
    + nia.
    + lia.
    + destruct r; [|lia]. destruct Hr as [-> ?]. rewrite app_assoc. split; [done|lia].
    + intros Hw. destruct (Hwl (Hw1 Hw)) as [? Hr']. split; [done|]. intros Hl. apply Hr'.
      rewrite Hin, length_app in Hl. lia.
Qed.
End socket_facts.

(** ** Clients are served as if the connection were perfect, or cut short *)

Section serving_facts.
Context {F : Type} `{StreamSocketLaws F} `{ByteSwap} `{ItchWire} `{HashIteration}.
Context (nanos : nat → Z).

(** The peer of [f] was given the buffers [bufs] in order, of each of them a
    prefix, for at most one call per byte; a willing peer has them all. *)
Definition answered (f f' : fd F) (bufs : list (list Z)) : Prop :=
  ∃ parts, Forall2 prefix parts bufs ∧ sent (fd_conn f') = sent (fd_conn f) ++ concat parts ∧
    incoming (fd_conn f') = incoming (fd_conn f) ∧
    fd_calls f' ≤ fd_calls f + length (concat bufs) ∧
    fd_ms f' ≤ fd_ms f + TCP_SND_TIMEOUT_MS * length (concat bufs) ∧
    (willing (fd_conn f) → parts = bufs ∧ willing (fd_conn f')).

Lemma answered_nil f : answered f f [].
Proof. exists []. split_and!; try done; [by rewrite app_nil_r|simpl; lia..]. Qed.

Lemma answered_trans f f1 f2 bufs bufs' :
  answered f f1 bufs → answered f1 f2 bufs' → answered f f2 (bufs ++ bufs').
Proof.
  intros (ps & Hp & Hs & Hi & Hc & Ht & Hw) (ps' & Hp' & Hs' & Hi' & Hc' & Ht' & Hw'). exists (ps ++ ps').
  rewrite !concat_app, length_app. split_and!.
  - by apply Forall2_app.
  - by rewrite Hs', Hs, app_assoc.
  - congruence.
  - lia.
  - nia.
  - intros Hf. destruct (Hw Hf) as [-> Hf1]. destruct (Hw' Hf1) as [-> ?]. done.
Qed.

(** The continuation runs after a [sendAll] whose result is dropped. *)
Lemma sendAll_tcp buf st f (k : M (streamer * fd F) unit) :
  ∃ f', answered f f' [buf] ∧ (on_fd (sendAll buf) ≫= λ _, k) (st, f) = k (st, f').
Proof.
  destruct (sendAll_ok buf f) as (ok & part & f' & Hrun & Hpre & Hg & Hu & Hc & Ht & Hok & Hw).
  exists f'. split.
  - exists [part]. rewrite !concat_cons, !concat_nil, !app_nil_r. split_and!; try done.
    + by repeat constructor.
    + intros Hf. destruct (Hw Hf) as [Htrue ?]. apply Hok in Htrue as ->. done.
  - rewrite (bind_ok _ _ _ ok (st, f')); [done|]. unfold on_fd. cbn [snd fst]. by rewrite Hrun.
Qed.

Lemma serveSnapshot_tcp_ok st f :
  ∃ f', serveSnapshot_tcp nanos (st, f) = Ok (tt, ((serveSnapshot nanos st).1, f')) ∧
    answered f f' (serveSnapshot nanos st).2.
Proof.
  unfold serveSnapshot_tcp, serveSnapshot. mgo st (st, f). cbn [fst snd].
  set (st' := if dirty_ st || bool_decide (snapshot_buf_ st = []) then bakeSnapshot nanos st else st).
  rewrite (bind_ok _ _ _ tt (st', f)) by (unfold st', when; by destruct (_ || _)).
  mgo (snapshot_buf_ st') (st', f).
  destruct (sendAll_tcp (snapshot_buf_ st') st' f (mret tt)) as (f' & Ha & ->). by exists f'.
Qed.

Lemma serveReplay_tcp_ok seq st f :
  ∃ f', serveReplay_tcp seq (st, f) = Ok (tt, (st, f')) ∧ answered f f' (serveReplay seq st).
Proof.
  unfold serveReplay_tcp, serveReplay. mgo st (st, f).
  destruct (last_seq_num_ st <=? seq)%Z.
  { destruct (sendAll_tcp [char_C] st f (mret tt)) as (f' & Ha & ->). by exists f'. }
  destruct (seq <? _)%Z.
  { destruct (sendAll_tcp [char_N] st f (mret tt)) as (f' & Ha & ->). by exists f'. }
  set (buf := flatten _ _ _).
  destruct (sendAll_tcp [char_R] st f (_ ← on_fd (sendAll buf); mret tt)) as (f1 & Ha1 & ->).
  destruct (sendAll_tcp buf st f1 (mret tt)) as (f2 & Ha2 & ->).
  exists f2. split; [done|]. by apply (answered_trans f f1 f2 [[char_R]] [buf]).
Qed.

(** The bytes [request] were taken from the peer and [bufs] answered, in at most
    nine calls and one per byte of the answer, each within its deadline. *)
Definition served (f f' : fd F) (request : list Z) (bufs : list (list Z)) : Prop :=
  incoming (fd_conn f) = request ++ incoming (fd_conn f') ∧ length request ≤ 9 ∧
  ∃ parts, Forall2 prefix parts bufs ∧ sent (fd_conn f') = sent (fd_conn f) ++ concat parts ∧
    fd_calls f' ≤ fd_calls f + 9 + length (concat bufs) ∧
    fd_ms f' ≤ fd_ms f + TCP_RCV_TIMEOUT_MS * 9 + TCP_SND_TIMEOUT_MS * length (concat bufs) ∧
    (willing (fd_conn f) → parts = bufs).

Lemma served_answered (f f1 f' : fd F) request bufs :
  incoming (fd_conn f) = request ++ incoming (fd_conn f1) → length request ≤ 9 →
  sent (fd_conn f1) = sent (fd_conn f) → fd_calls f1 ≤ fd_calls f + 9 →
  fd_ms f1 ≤ fd_ms f + TCP_RCV_TIMEOUT_MS * 9 →
  (willing (fd_conn f) → willing (fd_conn f1)) →
  answered f1 f' bufs → served f f' request bufs.
Proof.
  intros Hi Hl Hs Hc Ht Hw (parts & Hp & Hs' & Hi' & Hc' & Ht' & Hw'). split_and!; [congruence|done|].
  exists parts. split_and!; [done|congruence|lia|lia|]. intros Hf. by apply Hw', Hw.
Qed.

(** [handleClient] only looks at the bytes it receives. *)
Lemma handleClient_nine bs rest st :
  length bs = 8 → handleClient nanos ((char_R :: bs) ++ rest) st =
                  handleClient nanos (char_R :: bs) st.
Proof.
  intros Hl. simpl. by rewrite length_app, <- Hl, !take_app_length, firstn_all, Nat.ltb_irrefl,
    (proj2 (Nat.ltb_ge _ _)) by lia.
Qed.

Lemma handleClient_short bs st : length bs < 8 → handleClient nanos (char_R :: bs) st = (st, []).
Proof. intros Hl. simpl. by rewrite (proj2 (Nat.ltb_lt _ _) Hl). Qed.

(** The streamer does the same on both byte strings. *)
Definition reads_as (stream request : list Z) : Prop :=
  ∀ st, handleClient nanos stream st = handleClient nanos request st.

(** After the request byte of a replay. *)
Lemma replay_tcp_ok st (f f1 : fd F) :
  incoming (fd_conn f) = char_R :: incoming (fd_conn f1) → sent (fd_conn f1) = sent (fd_conn f) →
  fd_calls f1 ≤ fd_calls f + 1 → fd_ms f1 ≤ fd_ms f + TCP_RCV_TIMEOUT_MS * 1 → (willing (fd_conn f) → willing (fd_conn f1)) →
  ∃ request f' st' bufs,
    handleClient nanos request st = (st', bufs) ∧
    (seq ← on_fd (recvExact 8);
     match seq with
     | Some bs => serveReplay_tcp (swap64 (of_host_bytes bs))
     | None => mret tt
     end) (st, f1) = Ok (tt, (st', f')) ∧ served f f' request bufs ∧
    (willing (fd_conn f) → reads_as (incoming (fd_conn f)) request).
Proof.
  intros Hi Hg Hc Ht Hw.
  destruct (recvExact_ok 8 f1) as (r & part & f2 & Hrun2 & Hi2 & Hg2 & Hc2 & Ht2 & Hl2 & Hr2 & Hw2).
  rewrite (bind_ok _ _ _ r (st, f2)) by (unfold on_fd; cbn [fst snd]; by rewrite Hrun2).
  assert (Hin : incoming (fd_conn f) = (char_R :: part) ++ incoming (fd_conn f2))
    by (by rewrite Hi, Hi2).
  assert (Hwt : willing (fd_conn f) → willing (fd_conn f2)) by (intros Hf; by apply Hw2, Hw).
  destruct r as [bs|].
  2: { exists (char_R :: part), f2, st, []. split_and!; [by apply handleClient_short|done| |].
    - apply (served_answered f f2); try done; [simpl; lia|congruence|lia|lia|apply answered_nil].
    - intros Hf. destruct (Hw2 (Hw Hf)) as [_ Hn]. rewrite Hi. intros st'.
      rewrite !handleClient_short; [done..|]. apply Nat.nle_gt. intros Hge. by apply Hn. }
  destruct Hr2 as [-> Hlen2].
  destruct (serveReplay_tcp_ok (swap64 (of_host_bytes part)) st f2) as (f' & Hserve & Ha).
  exists (char_R :: part), f', st, (serveReplay (swap64 (of_host_bytes part)) st).
  assert (Hh : handleClient nanos (char_R :: part) st =
    (st, serveReplay (swap64 (of_host_bytes part)) st)).
  { simpl. by rewrite (proj2 (Nat.ltb_ge _ _)), <- Hlen2, firstn_all by lia. }
  split_and!; [done|done| |].
  - apply (served_answered f f2); try done; [simpl; lia|congruence|lia|lia].
  - intros _ st'. by rewrite Hin, handleClient_nine.
Qed.

(** The connection is answered as [handleClient] answers the bytes received,
    for a willing peer the bytes it sent. *)
Lemma handleClient_tcp_ok st (f : fd F) :
  ∃ request f' st' bufs,
    handleClient nanos request st = (st', bufs) ∧
    handleClient_tcp nanos (st, f) = Ok (tt, (st', f')) ∧ served f f' request bufs ∧
    (willing (fd_conn f) → reads_as (incoming (fd_conn f)) request).
Proof.
  unfold handleClient_tcp.
  destruct (recvExact_ok 1 f) as (r & part & f1 & Hrun & Hi & Hg & Hc & Ht & Hl & Hr & Hw).
  rewrite (bind_ok _ _ _ r (st, f1)) by (unfold on_fd; cbn [fst snd]; by rewrite Hrun).
  assert (Hserved : ∀ f' bufs, answered f1 f' bufs → served f f' part bufs).
  { intros f' bufs. apply served_answered; try done; [lia..|apply Hw]. }
  destruct r as [bs|].
  2: { assert (part = []) as -> by (apply length_zero_iff_nil; lia). exists [], f1, st, [].
    split_and!; [done|done| |].
    - apply Hserved, answered_nil.
    - intros Hf. destruct (Hw Hf) as [_ Hn]. destruct (incoming (fd_conn f)) eqn:E; [done|].
      exfalso. apply Hn; simpl; [lia|done]. }
  destruct Hr as [-> Hlen]. destruct part as [|c [|? ?]]; try (simpl in Hlen; lia).
  destruct (Z.eqb_spec c char_S) as [->|HS].
  { destruct (serveSnapshot_tcp_ok st f1) as (f' & Hserve & Ha).
    destruct (serveSnapshot nanos st) as [st' bufs] eqn:E. exists [char_S], f', st', bufs.
    split_and!; [by unfold handleClient|done| |].
    - by apply Hserved.
    - intros _ st0. by rewrite Hi. }
  destruct (Z.eqb_spec c char_R) as [->|HR].
  2: { exists [c], f1, st, []. apply Z.eqb_neq in HS, HR. split_and!.
    - unfold handleClient. by rewrite HS, HR.
    - done.
    - apply Hserved, answered_nil.
    - intros _ st'. rewrite Hi. unfold handleClient. simpl. by rewrite HS, HR. }
  apply replay_tcp_ok; [by rewrite Hi|done|done|done|]. intros Hf. by apply Hw.
Qed.
End serving_facts.

(** ** The accept loop *)

Section accepting.
Context {F : Type} `{StreamSocketLaws F} `{ByteSwap} `{ItchWire} `{HashIteration}.
Context {U S : Type} `{SPSCQueue MEMarketUpdate U} `{SPSCQueue SnapshotUpdate S}.
Context (pub_nanos nanos : nat → Z).

(** What the connection [c] sees, closed as [f]. *)
Definition connection_ok (c : F) (f : fd F) (request : list Z) (bufs : list (list Z)) : Prop :=
  served (Fd c 0 0) f request bufs ∧ (willing c → reads_as nanos (incoming c) request).

(** C16: While recovery clients are waiting, [serveRequests] serves every one of
    them and returns, whatever the kernel does with the system calls: on each
    connection at most nine calls and one per byte of the answer are made, each
    within its deadline, so it is closed in bounded time; the streamer changes as
    the request handler of the market data model says for the bytes received, and
    the client is given a prefix of each buffer of that answer; a client whose
    calls do not fail is given exactly the answer to what it sent. *)
Theorem recovery_clients_served (f : feed U S) (conns : list F) (done : list (fd F)) :
  ∃ requests answers conns' f',
    serveRequests nanos (1 + length conns) (Listener (fd_streamer f) conns done) =
      Ok (tt, Listener (fd_streamer f') [] (done ++ conns')) ∧
    feed_run pub_nanos nanos (FClient <$> requests) f = Ok f' ∧
    fd_answers f' = fd_answers f ++ answers ∧
    ∀ i c, conns !! i = Some c → ∃ c' request bufs,
      conns' !! i = Some c' ∧ requests !! i = Some request ∧ answers !! i = Some bufs ∧
      connection_ok c c' request bufs.
Proof.
  revert f done. induction conns as [|c conns IH]; intros f done.
  { exists [], [], [], f. rewrite !app_nil_r. split_and!; try done. }
  destruct (handleClient_tcp_ok nanos (fd_streamer f) (Fd c 0 0))
    as (request & c' & st' & bufs & Hh & Hrun & Hserved & Hw).
  set (f1 := Feed (fd_publisher f) (fd_updates f) st' (fd_input f) (fd_answers f ++ [bufs])).
  destruct (IH f1 (done ++ [c'])) as (requests & answers & conns' & f' & Hloop & Hfeed & Hans & Hall).
  exists (request :: requests), (bufs :: answers), (c' :: conns'), f'. split_and!.
  - unfold serveRequests. cbn [length]. rewrite Nat.add_succ_r.
    rewrite (loop_continue _ _ _ tt _ (Listener st' conns (done ++ [c']))).
    + unfold serveRequests in Hloop. simpl in Hloop. simpl. rewrite Hloop. by rewrite <- app_assoc.
    + unfold accept_step. cbn [accepting ls_streamer closed]. by rewrite Hrun.
  - simpl. rewrite Hh. done.
  - rewrite Hans. unfold f1. simpl. by rewrite <- app_assoc.
  - intros [|i] c0 Hc0; simpl in Hc0; [|by apply Hall]. injection Hc0 as <-. by exists c', request, bufs.
Qed.
End accepting.

(** ** A scripted connection

    [sc_chunks]: what each [recv] finds, an empty chunk being a timeout;
    [sc_takes]: how much each [send] takes, everything when the script ends.  A
    call that does not get everything has waited until its deadline. *)

Record script := Script { sc_chunks : list (list Z); sc_takes : list Z; sc_sent : list Z }.

Definition script_send (bytes : list Z) (s : script) : Z * script :=
  match sc_takes s with
  | [] => (Z.of_nat (length bytes), Script (sc_chunks s) [] (sc_sent s ++ bytes))
  | n :: takes =>
      let k := Z.min n (Z.of_nat (length bytes)) in
      (k, Script (sc_chunks s) takes (sc_sent s ++ take (Z.to_nat k) bytes))
  end.

Definition script_recv (size : nat) (s : script) : Z * list Z * script :=
  match sc_chunks s with
  | [] => (0%Z, [], s)
  | ch :: rest =>
      let n := length (take size ch) in
      (if n =? 0 then (-1)%Z else Z.of_nat n, take size ch,
       Script (match drop size ch with [] => rest | l => l :: rest end) (sc_takes s) (sc_sent s))
  end.

Definition script_ms (c : syscall) (s : script) : nat :=
  match c with
  | SysSend bytes =>
      if ((script_send bytes s).1 <? Z.of_nat (length bytes))%Z then TCP_SND_TIMEOUT_MS else 0
  | SysRecv size =>
      if ((script_recv size s).1.1 <? Z.of_nat size)%Z then TCP_RCV_TIMEOUT_MS else 0
  end.

#[global] Instance script_socket : StreamSocket script := {|
  sys_send := script_send; sys_recv := script_recv; sys_ms := script_ms |}.

#[global] Program Instance script_laws : StreamSocketLaws script := {|
  sent := sc_sent; incoming := λ s, concat (sc_chunks s) |}.
Next Obligation.
  intros bytes [chunks takes out] n f' _. simpl. unfold script_send. simpl.
  destruct takes as [|k takes]; intros [= <- <-]; simpl.
  - by rewrite Nat2Z.id, firstn_all.
  - split_and!; [lia|done..].
Qed.
Next Obligation.
  intros size [chunks takes out] n bs f' Hpos. simpl. unfold script_recv. simpl.
  destruct chunks as [|ch rest]; intros [= <- <- <-]; simpl; [split_and!; (done || lia)|].
  destruct (Nat.eqb_spec (length (take size ch)) 0) as [E|E].
  - rewrite length_take in E. assert (ch = []) as -> by (apply length_zero_iff_nil; lia).
    rewrite drop_nil, take_nil. simpl. split_and!; (done || lia).
  - rewrite Nat2Z.id. split_and!; [rewrite length_take; lia|done| |done].
    rewrite <- (take_drop size ch) at 1. rewrite <- app_assoc. f_equal. by destruct (drop size ch).
Qed.

Next Obligation. intros bytes s. simpl. case_match; lia. Qed.
Next Obligation. intros size s. simpl. case_match; lia. Qed.

(** No timeout and no refusal in the script. *)
Definition patient (s : script) : bool :=
  forallb (λ ch, 0 <? length ch) (sc_chunks s) && forallb (λ n, 0 <? n)%Z (sc_takes s).

Lemma patient_step s c : patient s = true → patient (after_call s c) = true.
Proof.
  destruct s as [chunks takes out], c as [bs|n]; unfold patient; simpl;
    rewrite !andb_true_iff; intros [Hc Ht].
  - unfold script_send. simpl. destruct takes as [|k takes]; [done|].
    simpl in Ht. apply andb_true_iff in Ht as [_ Ht]. done.
  - unfold script_recv. simpl. destruct chunks as [|ch rest]; [done|]. simpl in Hc |- *.
    apply andb_true_iff in Hc as [_ Hc]. destruct (drop n ch); done.
Qed.

Lemma patient_willing s : patient s = true → willing s.
Proof.
  intros Hs cs. assert (Hp : patient (foldl after_call s cs) = true).
  { revert s Hs. induction cs as [|c cs IH]; intros s Hs; simpl; [done|]. by apply IH, patient_step. }
  destruct (foldl after_call s cs) as [chunks takes out]. unfold patient in Hp.
  apply andb_true_iff in Hp as [Hc Ht]. simpl in *. split.
  - intros bs Hne. unfold script_send. simpl. destruct bs as [|b bs]; [done|].
    destruct takes as [|k takes]; simpl in *; [lia|]. apply andb_true_iff in Ht as [Hk%Z.ltb_lt _]. lia.
  - intros n Hn Hne. unfold script_recv. simpl. destruct chunks as [|ch rest]; [done|].
    simpl in Hc |- *. apply andb_true_iff in Hc as [Hk%Nat.ltb_lt _]. rewrite length_take.
    destruct (Nat.eqb_spec (n `min` length ch) 0); lia.
Qed.

(** After the run of [MarketData] three clients connect: one asks for a replay
    in three pieces and takes three bytes at a time, one hangs up in its
    request, one stalls in the middle of a snapshot. *)
Definition demo_conns : list script :=
  [ Script [[char_R; 0; 0]; [0; 0; 0; 0; 0]; [1]]%Z (replicate 100 3%Z) [];
    Script [[char_R; 0]]%Z [] [];
    Script [[char_S]] [10; -1]%Z [] ].

Lemma recovery_clients_served_witness :
  ∃ f f' : demo_feed, ∃ conns,
    feed_run (H3 := list_iteration) demo_nanos demo_nanos demo_feed_ops demo_feed_start = Ok f ∧
    serveRequests (H2 := list_iteration) demo_nanos 4 (Listener (fd_streamer f) demo_conns []) =
      Ok (tt, Listener (fd_streamer f') [] conns) ∧
    (length ∘ sent ∘ fd_conn <$> conns) = [24; 0; 10] ∧ (fd_calls <$> conns) = [13; 3; 3] ∧
    (Z.of_nat ∘ fd_ms <$> conns) = [14020; 20; 4000]%Z ∧
    ∃ c bufs, conns !! 0 = Some c ∧ bufs ∈ fd_answers f' ∧ sent (fd_conn c) = concat bufs.
Proof.
  destruct (feed_run (H3 := list_iteration) demo_nanos demo_nanos demo_feed_ops demo_feed_start)
    as [f|] eqn:Hrun; [|vm_compute in Hrun; discriminate Hrun].
  destruct (recovery_clients_served (H3 := list_iteration) demo_nanos demo_nanos f demo_conns [])
    as (requests & answers & conns & f' & Hserve & _ & Hans & Hall).
  destruct (Hall 0 _ eq_refl) as (c & request & bufs & Hc & _ & Hb & (_ & _ & parts & _ & Hsent & _ & _ & Hw) & _).
  rewrite Hw in Hsent by (apply patient_willing; reflexivity).
  exists f, f', conns. split; [reflexivity|]. split; [exact Hserve|].
  assert (Hlast : ∃ c bufs, conns !! 0 = Some c ∧ bufs ∈ fd_answers f' ∧ sent (fd_conn c) = concat bufs).
  { exists c, bufs. split; [exact Hc|]. split; [|exact Hsent]. rewrite Hans. apply elem_of_app. right.
    by eapply list_elem_of_lookup_2. }
  do 2 apply and_assoc. split; [|exact Hlast]. clear Hlast.
  clear Hall Hc Hb Hsent Hw Hans.
  vm_compute in Hrun. injection Hrun as <-. vm_compute in Hserve. injection Hserve as _ <-.
  split; [split|]; reflexivity.
Defined.
