(* ===== verification/Subscriber.v ===== *)
(** * Subscriber: following the feed and recovering from gaps

    What a client of the market data can rely on.  Such clients are other
    people's programs: [FeedClient] is any of them, and [FeedClientLaws] says
    that it keeps to the protocol [src/README.md] describes under "Market data
    and recovery".  A datagram is an 8-byte sequence number and one ITCH message;
    the client applies the next one and ignores any other.  The answer to a
    replay is a status byte, and after [R] the missing frames.  The answer to a
    snapshot is a list of ITCH messages between markers: [SNAP_CTRL_CLEAR]
    empties a book, Add Orders fill it, [SNAP_CTRL_END] gives the sequence
    number.  [on_datagram], [on_replay] and [on_snapshot] write that protocol
    down as functions of what a client has, a [subscriber]: its sequence number
    and a book per ticker.

    The layout of the structs is QuantLink's; [ItchReader] says that a message
    can be told apart from what follows it. *)

From S2P Require Import Prelude Types BookSpec DList Memory StoreRep BookSpecFacts BookTime MatchingEngine Queue Wire Itch Publisher Streamer FeedFacts MarketData ShadowBook.
Import Itch.

(** ** Reading messages *)

Definition byte_ok (z : Z) : Prop := 0 ≤ z < 256.

(** The members fit the struct. *)
Definition msg_ok (m : itch_msg) : Prop :=
  let header locate tracking ts :=
    0 ≤ locate < 2 ^ 16 ∧ 0 ≤ tracking < 2 ^ 16 ∧ length ts = 6%nat ∧ Forall byte_ok ts in
  match m with
  | ItchAdd m =>
      header (ad_stock_locate m) (ad_tracking_number m) (ad_timestamp m) ∧
      0 ≤ ad_order_ref_num m < 2 ^ 64 ∧ byte_ok (ad_buy_sell m) ∧ 0 ≤ ad_shares m < 2 ^ 32 ∧
      0 ≤ ad_stock m < 2 ^ 64 ∧ 0 ≤ ad_price m < 2 ^ 32
  | ItchDelete m =>
      header (de_stock_locate m) (de_tracking_number m) (de_timestamp m) ∧
      0 ≤ de_order_ref_num m < 2 ^ 64
  | ItchExecuted m =>
      header (ex_stock_locate m) (ex_tracking_number m) (ex_timestamp m) ∧
      0 ≤ ex_order_ref_num m < 2 ^ 64 ∧ 0 ≤ ex_executed_shares m < 2 ^ 32 ∧
      0 ≤ ex_match_number m < 2 ^ 64
  | ItchReplace m =>
      header (re_stock_locate m) (re_tracking_number m) (re_timestamp m) ∧
      0 ≤ re_original_order_ref m < 2 ^ 64 ∧ 0 ≤ re_new_order_ref m < 2 ^ 64 ∧
      0 ≤ re_shares m < 2 ^ 32 ∧ 0 ≤ re_price m < 2 ^ 32
  end.

(** The first message of a byte string and the bytes behind it. *)
Class ItchReader := read_itch : list Z → option (itch_msg * list Z).
Class ItchReaderLaws `{ItchWire} `{ItchReader} :=
  read_itch_bytes m rest : msg_ok m → read_itch (itch_bytes m ++ rest) = Some (m, rest).

(** ** The protocol *)

(** What a client has: the last sequence number and the orders of each ticker. *)
Record subscriber := Sub { sb_seq : Z; sb_books : list market_view }.

Section subscriber.
Context `{ByteSwap} `{ItchReader}.

(** The effect of a message on the market of its ticker. *)
Definition on_order (m : itch_msg) (v : market_view) : market_view :=
  match m with
  | ItchAdd m =>
      <[swap64 (ad_order_ref_num m) :=
          ((if ad_buy_sell m =? char_B then BUY else SELL), swap32 (ad_price m), swap32 (ad_shares m))]> v
  | ItchDelete m => delete (swap64 (de_order_ref_num m)) v
  | ItchExecuted m =>
      match v !! swap64 (ex_order_ref_num m) with
      | Some (s, p, q) =>
          if q <=? swap32 (ex_executed_shares m) then delete (swap64 (ex_order_ref_num m)) v
          else <[swap64 (ex_order_ref_num m) := (s, p, u32 (q - swap32 (ex_executed_shares m)))]> v
      | None => v
      end
  | ItchReplace m =>
      match v !! swap64 (re_original_order_ref m) with
      | Some (s, _, _) =>
          <[swap64 (re_new_order_ref m) := (s, swap32 (re_price m), swap32 (re_shares m))]>
            (delete (swap64 (re_original_order_ref m)) v)
      | None => v
      end
  end.

Definition locate (m : itch_msg) : nat :=
  Z.to_nat (swap16 (match m with
    | ItchAdd m => ad_stock_locate m | ItchDelete m => de_stock_locate m
    | ItchExecuted m => ex_stock_locate m | ItchReplace m => re_stock_locate m end)).

Definition on_msg (m : itch_msg) (vs : list market_view) : list market_view :=
  alter (on_order m) (locate m) vs.

(** A sequenced message: only the next one is applied. *)
Definition on_frame (seq : Z) (m : itch_msg) (s : subscriber) : subscriber :=
  if seq =? sb_seq s + 1 then Sub seq (on_msg m (sb_books s)) else s.

Definition read_frame (bs : list Z) : option (Z * itch_msg * list Z) :=
  if (length bs <? 8)%nat then None
  else
    '(m, rest) ← read_itch (drop 8 bs);
    Some (swap64 (of_host_bytes (take 8 bs)), m, rest).

Definition on_datagram (d : list Z) (s : subscriber) : subscriber :=
  match read_frame d with Some (seq, m, _) => on_frame seq m s | None => s end.

(** The answer to a replay request: frames after the status R. *)
Fixpoint on_frames (fuel : nat) (bs : list Z) (s : subscriber) : subscriber :=
  match fuel with
  | O => s
  | S fuel' =>
      match read_frame bs with
      | Some (seq, m, rest) => on_frames fuel' rest (on_frame seq m s)
      | None => s
      end
  end.

Definition on_replay (bs : list Z) (s : subscriber) : subscriber :=
  match bs with
  | c :: rest => if c =? char_R then on_frames (length rest) rest s else s
  | [] => s
  end.

(** The answer to a snapshot request: control markers are Order Deletes with a
    reserved locate code, everything else is applied. *)
Definition on_snapshot_msg (s : subscriber) (m : itch_msg) : subscriber :=
  match m with
  | ItchDelete d =>
      let code := swap16 (de_stock_locate d) in
      let value := swap64 (de_order_ref_num d) in
      if code =? SNAP_CTRL_CLEAR then Sub (sb_seq s) (alter (λ _, ∅) (Z.to_nat value) (sb_books s))
      else if code =? SNAP_CTRL_END then Sub value (sb_books s)
      else s
  | _ => Sub (sb_seq s) (on_msg m (sb_books s))
  end.

Fixpoint on_snapshot_msgs (fuel : nat) (bs : list Z) (s : subscriber) : subscriber :=
  match fuel, bs with
  | O, _ | _, [] => s
  | S fuel', _ =>
      match read_itch bs with
      | Some (m, rest) => on_snapshot_msgs fuel' rest (on_snapshot_msg s m)
      | None => s
      end
  end.

Definition on_snapshot (bs : list Z) (s : subscriber) : subscriber :=
  on_snapshot_msgs (length bs) bs s.
End subscriber.

(** ** Clients *)

(** A client has a state of its own, of which [cl_view] is what matters here, and
    reacts to a datagram and to the answers of the streamer. *)
Class FeedClient (C : Type) := {
  cl_view : C → subscriber;
  cl_datagram : list Z → C → C;
  cl_replay : list Z → C → C;
  cl_snapshot : list Z → C → C
}.

Class FeedClientLaws (C : Type) `{FeedClient C} `{ByteSwap} `{ItchReader} := {
  cl_datagram_view d c : cl_view (cl_datagram d c) = on_datagram d (cl_view c);
  cl_replay_view bs c : cl_view (cl_replay bs c) = on_replay bs (cl_view c);
  cl_snapshot_view bs c : cl_view (cl_snapshot bs c) = on_snapshot bs (cl_view c)
}.

(** A client that has heard nothing yet. *)
Definition cl_fresh {C : Type} `{FeedClient C} (tickers : nat) (c : C) : Prop :=
  cl_view c = Sub 0 (replicate tickers ∅).

(** The protocol itself as a client, and one that counts what it was sent. *)
Definition protocol_client `{ByteSwap} `{ItchReader} : FeedClient subscriber :=
  {| cl_view := id; cl_datagram := on_datagram; cl_replay := on_replay; cl_snapshot := on_snapshot |}.

Lemma protocol_client_laws `{ByteSwap} `{ItchReader} :
  FeedClientLaws subscriber (H := protocol_client).
Proof. by split. Qed.

Definition counting_client `{ByteSwap} `{ItchReader} : FeedClient (nat * subscriber) :=
  {| cl_view := snd;
     cl_datagram d c := (S c.1, on_datagram d c.2);
     cl_replay bs c := (S c.1, on_replay bs c.2);
     cl_snapshot bs c := (S c.1, on_snapshot bs c.2) |}.

Lemma counting_client_laws `{ByteSwap} `{ItchReader} :
  FeedClientLaws (nat * subscriber) (H := counting_client).
Proof. by split. Qed.

(** ** Reading what the exchange writes *)

Section reading.
Context `{ByteSwap} `{!ByteSwapLaws} `{ItchWire} `{!ItchWireLaws} `{ItchReader} `{!ItchReaderLaws}.

Lemma timestamp_ok ns : length (writeTimestamp ns) = 6%nat ∧ Forall byte_ok (writeTimestamp ns).
Proof.
  assert (Hb : ∀ z, byte_ok (Z.land z 255)).
  { intros z. change 255 with (Z.ones 8). rewrite Z.land_ones by lia. apply Z.mod_pos_bound. lia. }
  split; [done|]. by repeat constructor; apply Hb.
Qed.

Lemma encode_msg_ok u ns m : encode u ns = Some m → msg_ok m.
Proof.
  pose proof (timestamp_ok ns) as [Hl Hb]. unfold encode, copyStock.
  destruct (mu_type_ u); intros [= <-]; simpl;
    split_and!; try apply swap16_range; try apply swap32_range; try apply swap64_range; try done;
    unfold byte_ok; destruct (mu_side_ u); vm_compute; intuition congruence.
Qed.

Lemma ctrl_msg_ok code value ns m : ctrl code value ns = Some m → msg_ok m.
Proof.
  pose proof (timestamp_ok ns) as [Hl Hb]. intros [= <-]. simpl.
  split_and!; try apply swap16_range; try apply swap64_range; try done.
Qed.

(** The update a message describes takes effect. *)
Lemma on_msg_update m u ns vs :
  subscriber_reads m u ns →
  (∀ v, vs !! Z.to_nat (mu_ticker_id_ u) = Some v → names_known v u) →
  on_msg m vs = views_after vs u.
Proof.
  intros Hreads Hknown.
  assert (Hloc : locate m = Z.to_nat (mu_ticker_id_ u)).
  { unfold locate. destruct m; destruct Hreads as (_ & -> & _); done. }
  unfold on_msg, views_after. rewrite Hloc. apply list_eq. intros i.
  destruct (decide (i = Z.to_nat (mu_ticker_id_ u))) as [->|Hne];
    [|by rewrite !list_lookup_alter_ne].
  rewrite !list_lookup_alter_eq. destruct (vs !! _) as [v|] eqn:Hv; [|done]. simpl. f_equal.
  specialize (Hknown v eq_refl). unfold names_known in Hknown. unfold on_order, view_after, update_view.
  destruct m; simpl in Hreads.
  - destruct Hreads as (-> & _ & _ & _ & -> & -> & -> & ->). done.
  - destruct Hreads as (-> & _ & _ & ->). done.
  - destruct Hreads as (-> & _ & _ & -> & -> & _). done.
  - destruct Hreads as (Hty & _ & _ & -> & -> & -> & ->). rewrite Hty in *.
    destruct (Hknown eq_refl) as (p & q & ->). done.
Qed.

(** An update that fits is read whatever the clock said. *)
Definition readable (u : MEMarketUpdate) : Prop := ∀ ns, 0 ≤ ns < 2 ^ 48 → feed_ok u ns.

Lemma encoded_reads u ns m :
  readable u → encode u ns = Some m → ∃ ns', subscriber_reads m u ns'.
Proof.
  intros Hr He. rewrite <- encode_mod in He. exists (ns `mod` 2 ^ 48).
  destruct (encode_reads u (ns `mod` 2 ^ 48)) as (m' & He' & Hreads & _).
  - by eapply encode_some_on_feed.
  - apply Hr, Z.mod_pos_bound. lia.
  - congruence.
Qed.

Lemma length_seq_prefix seq : length (seq_prefix seq) = 8%nat.
Proof. pose proof (length_host_bytes 8 (swap64 seq) ltac:(lia)). unfold seq_prefix. lia. Qed.

Lemma read_frame_ok seq m rest :
  0 ≤ seq < 2 ^ 64 → msg_ok m →
  read_frame (seq_prefix seq ++ itch_bytes m ++ rest) = Some (seq, m, rest).
Proof.
  intros Hseq Hm. pose proof (length_seq_prefix seq) as Hl. unfold read_frame.
  destruct (Nat.ltb_spec (length (seq_prefix seq ++ itch_bytes m ++ rest)) 8) as [Hlt|_].
  { rewrite length_app in Hlt. lia. }
  rewrite <- Hl, drop_app_length, take_app_length, read_itch_bytes by done. simpl.
  unfold seq_prefix. rewrite host_bytes_roundtrip by (lia || apply swap64_range).
  by rewrite swap64_swap64.
Qed.
End reading.
