(* ===== verification/PackedItch.v ===== *)
(** * PackedItch: a layout of the ITCH structs and its reader

    The structs of [itch_messages.h] are QuantLink's, so the theorems are about
    any layout with the laws of [ItchWire] and [ItchReader].  This one has the
    fields of ITCH 5.0 without padding (36, 19, 31 and 35 bytes); it shows that
    the laws can hold together and makes runs with a subscriber executable. *)

From S2P Require Import Prelude Types Wire Itch Streamer FeedFacts MarketData ShadowBook Subscriber.
Import Itch.

Definition header (ty locate tracking : Z) (ts : list Z) : list Z :=
  host_bytes 1 ty ++ host_bytes 2 locate ++ host_bytes 2 tracking ++ resize 6 0 ts.

Definition packed_itch : ItchWire := λ m,
  match m with
  | ItchAdd m =>
      header 65 (ad_stock_locate m) (ad_tracking_number m) (ad_timestamp m) ++
      host_bytes 8 (ad_order_ref_num m) ++ host_bytes 1 (ad_buy_sell m) ++
      host_bytes 4 (ad_shares m) ++ host_bytes 8 (ad_stock m) ++ host_bytes 4 (ad_price m)
  | ItchDelete m =>
      header 68 (de_stock_locate m) (de_tracking_number m) (de_timestamp m) ++
      host_bytes 8 (de_order_ref_num m)
  | ItchExecuted m =>
      header 69 (ex_stock_locate m) (ex_tracking_number m) (ex_timestamp m) ++
      host_bytes 8 (ex_order_ref_num m) ++ host_bytes 4 (ex_executed_shares m) ++
      host_bytes 8 (ex_match_number m)
  | ItchReplace m =>
      header 85 (re_stock_locate m) (re_tracking_number m) (re_timestamp m) ++
      host_bytes 8 (re_original_order_ref m) ++ host_bytes 8 (re_new_order_ref m) ++
      host_bytes 4 (re_shares m) ++ host_bytes 4 (re_price m)
  end.

(** ** Reading fields off the front *)

Definition reads (A : Type) := list Z → option (A * list Z).

Definition raw (k : nat) : reads (list Z) := λ bs,
  if (length bs <? k)%nat then None else Some (take k bs, drop k bs).

Definition num (k : Z) : reads Z := λ bs,
  '(b, rest) ← raw (Z.to_nat k) bs; Some (of_host_bytes b, rest).

Definition read_packed : ItchReader := λ bs,
  '(ty, bs) ← num 1 bs; '(locate, bs) ← num 2 bs; '(tracking, bs) ← num 2 bs;
  '(ts, bs) ← raw 6 bs; '(ref, bs) ← num 8 bs;
  if ty =? 65 then
    '(bsell, bs) ← num 1 bs; '(shares, bs) ← num 4 bs; '(stock, bs) ← num 8 bs; '(price, bs) ← num 4 bs;
    Some (ItchAdd (Build_AddOrder locate tracking ts ref bsell shares stock price), bs)
  else if ty =? 68 then Some (ItchDelete (Build_OrderDelete locate tracking ts ref), bs)
  else if ty =? 69 then
    '(shares, bs) ← num 4 bs; '(mid, bs) ← num 8 bs;
    Some (ItchExecuted (Build_OrderExecuted locate tracking ts ref shares mid), bs)
  else if ty =? 85 then
    '(new, bs) ← num 8 bs; '(shares, bs) ← num 4 bs; '(price, bs) ← num 4 bs;
    Some (ItchReplace (Build_OrderReplace locate tracking ts ref new shares price), bs)
  else None.

Lemma raw_ok k l rest : length l = k → raw k (l ++ rest) = Some (l, rest).
Proof.
  intros <-. unfold raw. rewrite length_app, take_app_length, drop_app_length.
  by destruct (Nat.ltb_spec (length l + length rest) (length l)); [lia|].
Qed.

Lemma num_ok k z rest :
  0 ≤ k → 0 ≤ z < 2 ^ (k * 8) → num k (host_bytes k z ++ rest) = Some (z, rest).
Proof.
  intros Hk Hz. unfold num. rewrite raw_ok by (pose proof (length_host_bytes k z Hk); lia). simpl.
  by rewrite host_bytes_roundtrip.
Qed.

Lemma packed_length k z : 0 ≤ k → length (host_bytes k z) = Z.to_nat k.
Proof. intros Hk. pose proof (length_host_bytes k z Hk). lia. Qed.

Lemma packed_itch_laws : ItchWireLaws (H := packed_itch).
Proof.
  assert (Hh : ∀ ty l t ts, length (header ty l t ts) = 11%nat).
  { intros. unfold header. rewrite !length_app, !packed_length, length_resize by lia. done. }
  split; intros m; unfold itch_bytes, packed_itch.
  - intros Hnil. apply (f_equal length) in Hnil. destruct m; rewrite length_app, Hh in Hnil; simpl in Hnil; lia.
  - destruct m; rewrite !length_app, Hh, !packed_length by lia; unfold ITCH_MAX_MSG_SIZE; simpl; lia.
Qed.

Lemma read_packed_laws : ItchReaderLaws (H := packed_itch) (H0 := read_packed).
Proof.
  intros m rest Hm. unfold itch_bytes, packed_itch, read_itch, read_packed, header.
  destruct m as [[]|[]|[]|[]]; simpl in Hm; unfold byte_ok in Hm;
    destruct_and!; cbn [ad_stock_locate ad_tracking_number ad_timestamp ad_order_ref_num ad_buy_sell
      ad_shares ad_stock ad_price de_stock_locate de_tracking_number de_timestamp de_order_ref_num
      ex_stock_locate ex_tracking_number ex_timestamp ex_order_ref_num ex_executed_shares
      ex_match_number re_stock_locate re_tracking_number re_timestamp re_original_order_ref
      re_new_order_ref re_shares re_price];
    rewrite !resize_all_alt by done; rewrite <- !app_assoc;
    repeat first [rewrite num_ok by (try split; lia) | rewrite raw_ok by done | progress cbn [mbind option_bind]];
    reflexivity.
Qed.
