(* ===== verification/PackedOuch.v ===== *)
(** * PackedOuch: a client's reader of the OUCH layout

    The counterpart of [PackedItch] for order entry: the layout [demo_wire] of
    the outgoing structs, and a reader that recovers every member from their
    bytes.  It shows that the laws of [OuchWire] and [OuchReader] can hold
    together. *)

From S2P Require Import Prelude Types Wire Itch TokenManager Ouch OuchFacts Streamer FeedFacts MarketData ShadowBook Subscriber PackedItch.

Definition read_packed_out : OuchReader := λ bs,
  '(ty, bs) ← num 1 bs; '(ts, bs) ← num 8 bs; '(token, bs) ← raw OUCH_TOKEN_LEN bs;
  if ty =? 65 then
    '(side, bs) ← num 1 bs; '(shares, bs) ← num 4 bs; '(stock, bs) ← num 8 bs;
    '(price, bs) ← num 4 bs; '(tif, bs) ← num 4 bs; '(ref, bs) ← num 8 bs;
    Some (OutAccepted (Build_OrderAccepted ty ts token side shares stock price tif ref), bs)
  else if ty =? 69 then
    '(shares, bs) ← num 4 bs; '(price, bs) ← num 4 bs; '(mid, bs) ← num 8 bs;
    Some (OutExecuted (Build_OrderExecuted ty ts token shares price mid), bs)
  else if ty =? 67 then
    '(shares, bs) ← num 4 bs; '(reason, bs) ← num 1 bs;
    Some (OutCanceled (Build_OrderCanceled ty ts token shares reason), bs)
  else if ty =? 85 then
    '(side, bs) ← num 1 bs; '(shares, bs) ← num 4 bs; '(stock, bs) ← num 8 bs;
    '(price, bs) ← num 4 bs; '(tif, bs) ← num 4 bs; '(ref, bs) ← num 8 bs;
    Some (OutReplaced (Build_OrderReplaced ty ts token side shares stock price tif ref), bs)
  else if ty =? 74 then Some (OutCancelRejected (Build_CancelRejected ty ts token), bs)
  else None.

Lemma read_packed_out_laws : OuchReaderLaws (H := demo_wire) (H0 := read_packed_out).
Proof.
  intros m rest Hm. unfold read_out, read_packed_out.
  destruct m as [m|m|m|m|m]; cbn [out_ok] in Hm; destruct Hm as (Hty & Hm); destruct_and!;
    cbn [out_bytes demo_wire]; rewrite <- !app_assoc, Hty; cbn in Hty;
    repeat first [rewrite num_ok by (try split; lia || done) | rewrite raw_ok by done
                 | progress cbn [mbind option_bind]];
    destruct m; cbn in Hty; subst; reflexivity.
Qed.
