(* ===== verification/Readable.v ===== *)
(** * Readable: what the engine says fits the wire

    OUCH carries prices and quantities in 32 bits and ITCH the ticker in 16,
    narrower than the engine's types; [encodeOuch] and [encode] truncate.  The
    requests [decodeOuch] produces are in range, and the engine preserves that:
    from the bytes of every response and every datagram whoever knows the
    layout of the structs reads back what the engine said. *)

From S2P Require Import Prelude Types BookSpec DList Memory StoreRep LevelMap Levels BookSpecFacts BookTime Soundness BookCore MatchingEngine Trades OrderBookMap MapRefine MapTheorems EngineMap Queue Fifo Wire TokenManager Ouch OuchFacts OrderServer ServerFacts Gateway Exchange Itch Publisher Streamer FeedFacts MarketData ShadowBook Messages Lifecycle System SystemInv SystemSafe Subscriber PackedItch PackedOuch.
Import Itch.

(** ** Values in range *)

Definition word32 (z : Z) : Prop := 0 ≤ z < 2 ^ 32.
Definition word64 (z : Z) : Prop := 0 ≤ z < 2 ^ 64.

Definition wire_order (o : MEOrder) : Prop :=
  word32 (o_price_ o) ∧ word32 (o_remainingQuantity_ o) ∧ word64 (o_marketOrderId_ o) ∧
  token_ok (o_order_token_ o).

Definition wire_event (e : event) : Prop :=
  match e with
  | Resp r => ∀ ts, word64 ts → encodable r ts
  | Upd u => ∀ ns, 0 ≤ ns < 2 ^ 48 → feed_ok u ns
  end.

Definition wire_request (rq : MEClientRequest) : Prop :=
  0 ≤ rq_ticker_id_ rq < 2 ^ 16 ∧ word32 (rq_qty_ rq) ∧ word32 (rq_price_ rq) ∧
  token_ok (rq_order_token_ rq).

Definition wire_args (a : order_args) : Prop :=
  0 ≤ a_tickerId a < 2 ^ 16 ∧ word32 (a_initialQuantity a) ∧ word32 (a_price a) ∧
  word64 (a_marketOrderId a) ∧ token_ok (a_orderToken a).

Definition wire_fill (f : fill) : Prop :=
  wire_order (f_order f) ∧ 0 ≤ f_qty f ≤ o_remainingQuantity_ (f_order f) ∧ word32 (f_left f) ∧
  word64 (f_mid f).

Definition wire_book (sb : sbook) : Prop := Forall wire_order (s_orders sb) ∧ word64 (s_next sb).
Definition wire_io (io : engine_io) : Prop := word64 (next_match_id_ io) ∧ Forall wire_event (sent io).

Lemma word64_u64 z : word64 (u64 z).
Proof. apply u64_range. Qed.

Lemma word64_invalid : word64 OrderId_INVALID.
Proof. vm_compute. intuition congruence. Qed.

Lemma wire_after f : wire_fill f → wire_order (f_after f).
Proof. intros ((? & Hr & ? & ?) & ? & _). unfold wire_order, word32 in *. simpl. split_and!; (lia || done). Qed.

(** ** Matching *)

Lemma sweep_wire side price rem mid os os' rem' mid' fs :
  Forall wire_order os → word32 rem → word64 mid →
  s_sweep side price rem mid os = (os', rem', mid', fs) →
  Forall wire_order os' ∧ word32 rem' ∧ word64 mid' ∧ Forall wire_fill fs.
Proof.
  intros Hos. revert rem mid os' rem' mid' fs. induction Hos as [|o os Ho Hos IH];
    intros rem mid os' rem' mid' fs Hrem Hmid; simpl; [by intros [= <- <- <- <-]|].
  destruct (_ || _); [by intros [= <- <- <- <-]; split_and!; [constructor| | |constructor]|].
  assert (Hf : wire_fill (fill_of rem mid o)).
  { unfold wire_fill, word32 in *. destruct Ho as (? & ? & ? & ?). unfold word32 in *. simpl. split_and!; (done || lia). }
  destruct (_ =? 0).
  - destruct (s_sweep side price _ _ os) as [[[rest r] m] fs1] eqn:Hsw. intros [= <- <- <- <-].
    destruct (IH _ _ _ _ _ _ (proj1 (proj2 (proj2 Hf))) (word64_u64 _) Hsw) as (? & ? & ? & ?).
    split_and!; [done..|]. by constructor.
  - intros [= <- <- <- <-]. split_and!; [|apply Hf|apply word64_u64|by apply Forall_singleton].
    constructor; [by apply wire_after|done].
Qed.

Lemma fill_wire v a f : wire_args a → wire_fill f → Forall wire_event (fill_events v a f).
Proof.
  intros (Ht & Hq & Hp & Hm & Htok) ((Hop & Hor & Hom & Hotok) & Hfq & Hl & Hmid).
  assert (Hw : word32 (f_qty f)) by (unfold word32 in *; lia).
  unfold fill_events. rewrite !Forall_cons. split; [|split; [|split; [|by apply Forall_nil]]].
  - intros ts Hts. exact (conj Hts (conj Hotok (conj Hw (conj Hop Hmid)))).
  - intros ts Hts. exact (conj Hts (conj Htok (conj Hw (conj Hop Hmid)))).
  - intros ns Hns. destruct v; split; try done; apply word64_invalid.
Qed.

Lemma wire_side s b : wire_book b → Forall wire_order (s_side s b).
Proof. intros [Hb _]. apply Forall_app in Hb as [? ?]. by destruct s. Qed.

Lemma wire_set s l b : wire_book b → Forall wire_order l → wire_book (s_set s l b).
Proof. intros [Hb Hn] Hl. apply Forall_app in Hb as [? ?]. by destruct s; split; simpl; try apply Forall_app. Qed.

Lemma wire_bump b : wire_book b → wire_book (s_bump b).
Proof. intros [Hb _]. split; [done|apply word64_u64]. Qed.

Lemma wire_emit evs io : wire_io io → Forall wire_event evs → wire_io (emit evs io).
Proof. intros [Hm Hs] He. split; [done|]. simpl. by apply Forall_app. Qed.

Lemma match_wire v a b io b' io' rem :
  wire_args a → wire_book b → wire_io io → s_match v a b io = (b', io', rem) →
  wire_book b' ∧ wire_io io' ∧ word32 rem.
Proof.
  intros Ha Hb [Hmid Hs]. unfold s_match. destruct (s_sweep _ _ _ _ _) as [[[os r] m] fs] eqn:Hsw.
  intros [= <- <- <-]. apply sweep_wire in Hsw as (Hos & Hr & Hm & Hfs); [|by apply wire_side|apply Ha|done].
  split_and!; [by apply wire_set| |done]. split; [done|]. simpl. apply Forall_app. split; [done|].
  apply Forall_bind. eapply Forall_impl; [exact Hfs|]. intros f. by apply fill_wire.
Qed.

(** ** The three requests *)

Lemma wire_insert a q b : wire_args a → word32 q → wire_book b → wire_book (s_insert a q b).
Proof.
  intros (_ & _ & Hp & Hm & Htok) Hq Hb. apply wire_set; [done|]. pose proof (wire_side (a_side a) b Hb) as Hs.
  assert (Hnew : wire_order (resting_order a q)) by exact (conj Hp (conj Hq (conj Hm Htok))).
  induction Hs as [|o os Ho Hos IH]; simpl; [by apply Forall_singleton|].
  by destruct (better _ _ _); repeat apply Forall_cons_2.
Qed.

Lemma wire_find k b o : wire_book b → s_find k b = Some o → wire_order o.
Proof.
  intros [Hb _] Hf. apply List.find_some in Hf as [Hin _]. rewrite Forall_forall in Hb.
  by apply Hb, list_elem_of_In.
Qed.

Lemma wire_delete k b : wire_book b → wire_book (s_delete k b).
Proof.
  intros [Hb Hn]. split; [|done]. apply Forall_app in Hb as [Hbids Hasks]. rewrite List.Forall_forall in Hbids, Hasks.
  apply Forall_app. split; apply List.Forall_forall; intros o Ho; apply List.filter_In in Ho as [Ho _]; auto.
Qed.

Lemma wire_update k left b :
  word32 left → wire_book b → wire_book (s_update k (set_remaining left) b).
Proof.
  intros Hl [Hb Hn]. split; [|done]. unfold s_orders, s_update. simpl. rewrite <- map_app.
  apply List.Forall_map. eapply Forall_impl; [exact Hb|]. intros o (? & ? & ? & ?). simpl.
  by destruct (has_key k o).
Qed.

(** The messages of a request. *)
Lemma args_accepted a ts : wire_args a → word64 ts → encodable (accepted_response a) ts.
Proof.
  intros (Ht & Hq & Hp & Hm & Htok) Hts. split; [exact Hts|]. split; [exact Htok|]. simpl.
  unfold word32, word64 in *. lia.
Qed.

Lemma args_replaced a ts : wire_args a → word64 ts → encodable (replaced_response a) ts.
Proof.
  intros (Ht & Hq & Hp & Hm & Htok) Hts. split; [exact Hts|]. split; [exact Htok|]. simpl.
  unfold word32, word64 in *. lia.
Qed.

Lemma args_update a q t id new ns :
  wire_args a → word32 q → word64 id → word64 new → 0 ≤ ns < 2 ^ 48 →
  feed_ok (mkUpdate (a_tickerId a) id t (a_side a) (a_price a) q new OrderId_INVALID) ns.
Proof. intros (Ht & _ & Hp & _ & _) Hq Hid Hnew Hns. by split; try apply word64_invalid. Qed.

Lemma add_wire v rq sb io :
  wire_request rq → wire_book sb → wire_io io →
  let r := s_addOrder v (rq_ticker_id_ rq) (rq_client_id_ rq) (rq_client_order_id_ rq) (rq_type_ rq)
             (rq_price_ rq) (rq_qty_ rq) (rq_side_ rq) (rq_order_token_ rq) sb io in
  wire_book r.1 ∧ wire_io r.2.
Proof.
  intros (Ht & Hq & Hp & Htok) Hb Hio. unfold s_addOrder. set (a := Build_order_args _ _ _ _ _ _ _ _ _).
  assert (Ha : wire_args a) by exact (conj Ht (conj Hq (conj Hp (conj (proj2 Hb) Htok)))).
  destruct (s_match v _ _ _) as [[b1 io1] rem] eqn:Hm.
  apply match_wire in Hm as (Hb1 & Hio1 & Hrem); [|done|by apply wire_bump|].
  2: { apply wire_emit; [done|]. apply Forall_singleton. intros ts. by apply args_accepted. }
  destruct (rem >? 0); [|done]. destruct (rq_type_ rq); (split; [|apply wire_emit; [done|]]).
  - by apply wire_insert.
  - apply Forall_singleton. intros ns. apply args_update; done || apply word64_invalid || apply Ha.
  - done.
  - apply Forall_singleton. intros ts Hts. exact (conj Hts (conj Htok Hrem)).
Qed.

Lemma cancel_wire v rq sb io :
  wire_request rq → wire_book sb → wire_io io →
  let r := s_cancelOrder v (rq_ticker_id_ rq) (rq_client_id_ rq) (rq_client_order_id_ rq)
             (rq_qty_ rq) (rq_order_token_ rq) sb io in
  wire_book r.1 ∧ wire_io r.2.
Proof.
  intros (Ht & Hq & _ & Htok) Hb Hio. unfold s_cancelOrder. destruct (s_find _ sb) as [o|] eqn:Hf.
  2: { split; [done|]. apply wire_emit; [done|]. by apply Forall_singleton. }
  pose proof (wire_find _ _ _ Hb Hf) as (Hop & Hor & Hom & Hotok). cbv zeta.
  set (canceled := if rq_qty_ rq =? 0 then _ else _).
  destruct (canceled >? o_remainingQuantity_ o) eqn:Hgt.
  { split; [done|]. apply wire_emit; [done|]. by apply Forall_singleton. }
  assert (Hc : word32 canceled) by (unfold canceled; by destruct (_ =? 0)).
  assert (Hl : word32 (o_remainingQuantity_ o - canceled)).
  { rewrite Z.gtb_ltb in Hgt. apply Z.ltb_ge in Hgt. unfold word32 in *. lia. }
  clearbody canceled. cbn [fst snd]. split.
  - destruct (_ =? 0); [by apply wire_delete|by apply wire_update].
  - apply wire_emit; [done|]. rewrite !Forall_cons. split; [|split; [|by apply Forall_nil]].
    + intros ns Hns. by split; try apply word64_invalid.
    + intros ts Hts. destruct v; [exact (conj Hts (conj Hotok Hc))|exact (conj Hts (conj Hotok Hl))].
Qed.

Lemma replace_wire v rq sb io :
  wire_request rq → wire_book sb → wire_io io →
  let r := s_replaceOrder v (rq_ticker_id_ rq) (rq_client_id_ rq) (rq_client_order_id_ rq)
             (rq_new_client_order_id_ rq) (rq_type_ rq) (rq_price_ rq) (rq_qty_ rq)
             (rq_order_token_ rq) sb io in
  wire_book r.1 ∧ wire_io r.2.
Proof.
  intros (Ht & Hq & Hp & Htok) Hb Hio. unfold s_replaceOrder. destruct (s_find _ sb) as [o|] eqn:Hf.
  2: { split; [done|]. apply wire_emit; [done|]. by apply Forall_singleton. }
  pose proof (wire_find _ _ _ Hb Hf) as (Hop & Hor & Hom & Hotok).
  destruct (_ || _). { split; [done|]. apply wire_emit; [done|]. by apply Forall_singleton. }
  set (a := Build_order_args _ _ _ _ _ _ _ _ _).
  assert (Ha : wire_args a) by exact (conj Ht (conj Hq (conj Hp (conj (proj2 Hb) Htok)))).
  destruct (s_match v _ _ _) as [[b1 io1] rem] eqn:Hm.
  apply match_wire in Hm as (Hb1 & Hio1 & Hrem); [|done|by apply wire_delete, wire_bump|].
  2: { apply wire_emit; [done|]. rewrite !Forall_cons. split; [|split; [|by apply Forall_nil]].
    - intros ts. by apply args_replaced.
    - intros ns. apply args_update; done || apply Ha. }
  destruct (rem =? 0); [done|]. destruct (rq_type_ rq); [split; [by apply wire_insert|done]|].
  destruct v; [|done]. split; [done|]. apply wire_emit; [done|]. rewrite !Forall_cons.
  split; [|split; [|by apply Forall_nil]].
  - intros ts Hts. exact (conj Hts (conj Htok Hrem)).
  - intros ns. apply args_update; done || apply word64_invalid || apply Ha.
Qed.

(** ** Runs *)

Definition wire_engine (se : engine sbook) : Prop :=
  Forall wire_book (ticker_order_book_ se) ∧ wire_io (engine_state se).

Lemma process_wire v rq se : wire_request rq → wire_engine se → wire_engine (s_process v rq se).
Proof.
  intros Hrq [Hb Hio]. unfold s_process. destruct (ticker_order_book_ se !! _) as [sb|] eqn:Hsb; [|done].
  assert (Hw : wire_book sb) by (by eapply Forall_lookup_1).
  assert (Hd : wire_book (s_dispatch v rq sb (engine_state se)).1 ∧
               wire_io (s_dispatch v rq sb (engine_state se)).2).
  { unfold s_dispatch. destruct (rq_action_ rq); [by apply add_wire|by apply cancel_wire|by apply replace_wire]. }
  split; simpl; [apply Forall_insert|]; apply Hd || done.
Qed.

Lemma run_wire v rqs books :
  Forall wire_request rqs → wire_engine (s_run v rqs (s_engine_new books)).
Proof.
  intros Hrqs. assert (Hnew : wire_engine (s_engine_new books)).
  { split; [|by split]. simpl. apply Forall_replicate. split; [by apply Forall_nil|done]. }
  revert Hnew. generalize (s_engine_new books). unfold s_run.
  induction Hrqs as [|rq rqs Hrq _ IH]; intros se Hse; simpl; [done|]. by apply IH, process_wire.
Qed.

(** ** What the gateway decodes is in range *)

Section decoding.
Context `{OuchWire} `{!OuchWireLaws} `{ByteSwap} `{!ByteSwapLaws} (size : nat).

Definition known_tickers (h : list info) : Prop := Forall (λ i, 0 ≤ tickerId_ i) h.

Lemma resolve_ticker c tok h id i : known_tickers h → resolve c tok h = Some (id, i) → 0 ≤ tickerId_ i.
Proof.
  unfold resolve. intros Hh. destruct (_ =? 0); [done|].
  destruct (h !! _) as [j|] eqn:Hj; simpl; intros Heq; simplify_eq. by apply (Forall_lookup_1 _ _ _ _ Hh Hj).
Qed.

Lemma known_app h c tok t : known_tickers h → 0 ≤ t → known_tickers (h ++ [new_info c tok t]).
Proof. intros Hh Ht. apply Forall_app. split; [done|]. by apply Forall_singleton. Qed.

Lemma decode_ticker c data h :
  known_tickers h →
  known_tickers (decode_spec size c data h).2 ∧
  ∀ rq, (decode_spec size c data h).1 = Some rq → 0 ≤ rq_ticker_id_ rq.
Proof.
  intros Hh. unfold decode_spec. pose proof (λ z, proj1 (u32_range z)) as Hu.
  destruct (_ =? ENTER_ORDER).
  { destruct (_ <? _)%nat; simpl; [|by split]. split; [by apply known_app|]. intros rq [= <-]. apply Hu. }
  destruct (_ =? CANCEL_ORDER).
  { destruct (resolve _ _ h) as [[id i]|] eqn:Hr; simpl; [|by split]. split; [done|].
    intros rq [= <-]. by eapply resolve_ticker. }
  destruct (_ =? REPLACE_ORDER); [|by split].
  destruct (resolve _ _ h) as [[id i]|] eqn:Hr; simpl; [|by split]. apply resolve_ticker in Hr; [|done].
  destruct (_ <? _)%nat; simpl; [|by split]. split; [by apply known_app|]. by intros rq [= <-].
Qed.

Lemma decode_all_ticker msgs h :
  known_tickers h →
  known_tickers (decode_all_spec size msgs h).2 ∧
  Forall (λ rq, 0 ≤ rq_ticker_id_ rq) (decode_all_spec size msgs h).1.
Proof.
  revert h. induction msgs as [|[c data] msgs IH]; intros h Hh; simpl; [done|].
  destruct (decode_ticker c data h Hh) as [Hh' Hrq].
  destruct (decode_spec size c data h) as [[rq|] h']; simpl in *; [|by apply IH].
  destruct (IH h' Hh') as [? ?]. split; [done|]. constructor; [by apply Hrq|done].
Qed.

Lemma heard_tickers evs :
  known_tickers (ag_hist (heard size evs)) ∧ Forall (λ rq, 0 ≤ rq_ticker_id_ rq) (decoded size evs).
Proof.
  unfold decoded. induction evs as [|ev evs [Hh Hrq]] using rev_ind; [by split; apply Forall_nil|].
  rewrite heard_app. simpl. destruct ev as [sk bytes t| |sk]; simpl; [|done|].
  - unfold a_recv. set (c := default (ag_next _) _). set (fs := frames_of _).
    destruct (decode_all_ticker (pair c <$> fs.1) _ Hh) as [? ?].
    destruct (ag_fds _ !! socket_fd_ sk); simpl; split; try done; by apply Forall_app.
  - unfold a_disconnect. by destruct (ag_fds _ !! socket_fd_ sk).
Qed.

Lemma decoded_wire price_ok tickers evs :
  Forall (request_ok price_ok tickers) (decoded size evs) → Z.of_nat tickers ≤ 2 ^ 16 →
  Forall wire_request (decoded size evs).
Proof.
  intros Hok Ht. pose proof (ao_fields _ (heard_ok size evs)) as Hf.
  destruct (heard_tickers evs) as [_ Hpos]. rewrite Forall_forall in Hok, Hf, Hpos |- *.
  intros rq Hrq. destruct (Hf rq Hrq) as (Hq & Hp & Htok). destruct (Hok rq Hrq) as [Hlt _].
  specialize (Hpos rq Hrq). split_and!; (exact Hq || exact Hp || exact Htok || lia).
Qed.
End decoding.

(** ** What clients and subscribers read *)

Section readers.
Context {Q R U S B : Type}.
Context `{SPSCQueueLaws MEClientRequest Q} `{SPSCQueueLaws MEClientResponse R}.
Context `{SPSCQueueLaws MEMarketUpdate U} `{SPSCQueueLaws SnapshotUpdate S}.
Context (v : variant) `{OrderBook B} `{!OrderBookLaws v B}.
Context `{StdSort} `{!StdSortLaws} `{OuchWire} `{!OuchWireLaws} `{ByteSwap} `{!ByteSwapLaws}.
Context `{ItchWire} `{!ItchWireLaws} `{HashIteration}.
Context `{OuchReader} `{!OuchReaderLaws} `{ItchReader} `{!ItchReaderLaws}.
Context (epoch_nanos pub_nanos str_nanos : nat → Z) (tickers pool size : nat).

Abbreviation exchange := (exchange Q R U S B).
Abbreviation x_run := (x_run epoch_nanos pub_nanos str_nanos).

(** A delivered message is one of the responses routed. *)
Lemma deliver_lookup n routed k sk bs :
  deliver epoch_nanos n routed !! k = Some (sk, bs) →
  ∃ r m, r ∈ routed.*1 ∧ bs = out_bytes (encodeOuch r (epoch_nanos m)).
Proof.
  revert n k. induction routed as [|[r [s|]] routed IH]; intros n k; simpl; [done| |].
  - destruct k as [|k]; simpl.
    + intros [= <- <-]. exists r, n. split; [|done]. by left.
    + intros (r' & m & ? & ?)%IH. exists r', m. split; [|done]. by right.
  - intros (r' & m & ? & ?)%IH. exists r', m. split; [|done]. by right.
Qed.

(** The specification of a reachable state only says what fits the wire. *)
Lemma spec_wire evs x :
  load_ok v tickers pool size evs → x_inv epoch_nanos str_nanos tickers pool size evs x →
  Z.of_nat tickers ≤ 2 ^ 16 → Forall wire_event (sent_by (spec_run v tickers x)).
Proof.
  intros Hload Hx Ht. apply run_wire.
  pose proof (decoded_wire size _ _ _ (lo_requests _ _ _ _ _ Hload) Ht) as Hw.
  destruct (xi_hand _ _ _ _ _ _ _ Hx) as [k Hk].
  assert (Hsub : taken x ⊆+ decoded size evs).
  { etrans; [|by eapply inv_decoded]. unfold taken. rewrite Hk, <- app_assoc.
    apply submseteq_skips_l, submseteq_inserts_r. done. }
  rewrite Forall_forall in Hw |- *. intros rq Hrq. apply Hw.
  by eapply elem_of_submseteq.
Qed.

(** C11: Nothing is lost on the way out.  On any schedule of the exchange, with
    any order book that has the laws of [OrderBookLaws], an admissible load (the
    requests decoded from the bytes name listed tickers and prices the book can
    hold, no ticker gets more NEW requests in the whole run than its pool has
    slots, and no 64-bit counter wraps), at most 65536 tickers and a clock of 64
    bits, and for any layout of the structs from whose bytes the members can be
    read again: from the bytes sent to a client, whatever follows them on the
    connection, it reads the type, token, side, prices, quantities and numbers
    of a response of the engine's specification; and from the bytes of the k-th
    datagram a subscriber reads the sequence number k and the k-th update.  No
    truncation takes effect. *)
Theorem outside_world_reads_the_truth (rq : Q) (rs : R) (mu : U) (su : S) (fifoPending : nat)
    (ls : list label) :
  queues_empty rq rs mu su → load_ok v tickers pool size (arrivals ls) →
  Z.of_nat tickers ≤ 2 ^ 16 → (∀ n, 0 ≤ epoch_nanos n < 2 ^ 64) →
  ∃ x, x_run ls (exchange_new (B := B) rq rs mu su tickers pool fifoPending size) = Ok x ∧
    (∀ k sk bs, sends (x_server x) !! k = Some (sk, bs) →
       ∃ r ts, r ∈ responses (sent_by (spec_run v tickers x)) ∧
         ∀ rest, ∃ m, read_out (bs ++ rest) = Some (m, rest) ∧ client_reads m r ts) ∧
    (∀ k d, datagrams (fd_publisher (x_feed x)) !! k = Some d →
       ∃ u ns m, updates (sent_by (spec_run v tickers x)) !! k = Some u ∧
         read_frame d = Some (1 + Z.of_nat k, m, []) ∧ subscriber_reads m u ns).
Proof.
  intros Hqs Hload Ht Hclock.
  destruct (start_run v epoch_nanos pub_nanos str_nanos tickers pool size rq rs mu su fifoPending ls Hqs Hload)
    as (x & Hrun & Hx & _).
  exists x. split; [done|]. pose proof (spec_wire _ x Hload Hx Ht) as Hw.
  rewrite Forall_forall in Hw. split.
  - intros k sk bs Hk. rewrite (proj1 (xi_sends _ _ _ _ _ _ _ Hx)) in Hk.
    apply deliver_lookup in Hk as (r & n & Hr & ->).
    destruct (xi_sent _ _ _ _ _ _ _ Hx) as (pushed & Hs & _ & Hresp).
    rewrite (inv_sent v _ _ _ _ _ _ x Hload Hx) in Hs.
    assert (Hin : r ∈ responses (sent_by (spec_run v tickers x))).
    { rewrite Hs, responses_app, <- Hresp, !elem_of_app. auto. }
    exists r, (epoch_nanos n). split; [done|]. intros rest. apply client_reads_bytes.
    apply (Hw (Resp r)); [|apply Hclock]. by apply elem_of_responses.
  - intros k d Hk.
    destruct (published v epoch_nanos str_nanos tickers pool size _ x Hload Hx) as [Hdg _].
    destruct (Hdg k d Hk) as (u & ns & m & Hu & He & ->). exists u, (ns `mod` 2 ^ 48), m.
    destruct (inv_updates v epoch_nanos str_nanos tickers pool size _ x Hload Hx) as [_ Hlen].
    rewrite (inv_sent v _ _ _ _ _ _ x Hload Hx) in Hlen. pose proof (lookup_lt_Some _ _ _ Hu).
    split_and!; [done| |].
    { rewrite <- (app_nil_r (itch_bytes m)). apply read_frame_ok; [lia|by eapply encode_msg_ok]. }
    rewrite <- encode_mod in He. destruct (encode_reads u (ns `mod` 2 ^ 48)) as (m' & Hm' & Hreads & _); [| |congruence].
    + by eapply encode_some_on_feed.
    + apply (Hw (Upd u)); [|apply Z.mod_pos_bound; lia]. apply elem_of_updates. by eapply list_elem_of_lookup_2.
Qed.
End readers.

(** The exchange of [SystemSafe] with a stopped clock: from the bytes of the
    first message its client reads a message of the specification. *)
Definition stopped_clock (n : nat) : Z := 1000.

Definition read_ack (bs : list Z) : option (Z * list Z * Z * Z) :=
  match read_out (OuchReader := read_packed_out) bs with
  | Some (OutAccepted m, _) =>
      Some (oa_type m, oa_order_token m, swap32 (oa_shares m), swap32 (oa_price m))
  | _ => None
  end.

Definition readable_run : outcome demo_exchange :=
  x_run (H3 := map_order_book id) (H4 := stable_sort) (H7 := packed_itch) (H8 := list_iteration)
    stopped_clock stopped_clock stopped_clock
    (demo_arrivals ++ concat (replicate 40 demo_round)) demo_exchange_new.

Strategy expand [readable_run].

Lemma outside_world_reads_the_truth_witness :
  ∃ x sk bs, readable_run = Ok x ∧ sends (x_server x) !! 0%nat = Some (sk, bs) ∧
    read_ack bs = Some (65, replicate 14 65, 10, 100) ∧
    ∃ r ts m, read_out (OuchReader := read_packed_out) (bs ++ [1; 2; 3]) = Some (m, [1; 2; 3]) ∧
      client_reads m r ts.
Proof.
  assert (Harr : arrivals (demo_arrivals ++ concat (replicate 40 demo_round)) = arrivals demo_arrivals)
    by (vm_compute; reflexivity).
  pose proof demo_load as Hload. rewrite <- Harr in Hload.
  destruct (outside_world_reads_the_truth (H0 := list_queue_laws _) (H2 := list_queue_laws _)
    (H4 := list_queue_laws _) (H6 := list_queue_laws _) (H7 := map_order_book (P := SetPool.t) id)
    (OrderBookLaws0 := map_order_book_laws id (λ l Hl, Hl)) (H8 := stable_sort) (H16 := list_iteration)
    (H18 := read_packed_out_laws) (H15 := packed_itch_laws)
    (H20 := read_packed_laws)
    MapBook stopped_clock stopped_clock stopped_clock 1 8 16 _ _ _ _ 4 _ demo_queues Hload)
    as (x & Hrun & Hsends & _); [lia|by intros; unfold stopped_clock|].
  assert (Hack : match readable_run with
    | Ok x => option_bind _ _ (λ e, read_ack e.2) (sends (x_server x) !! 0%nat) | Fault _ => None end =
    Some (65, replicate 14 65, 10, 100)) by (vm_compute; reflexivity).
  unfold readable_run, demo_exchange_new in Hack. rewrite Hrun in Hack.
  destruct (sends (x_server x) !! 0%nat) as [[sk bs]|] eqn:Hk; [|discriminate Hack].
  exists x, sk, bs. split; [exact Hrun|]. split; [exact Hk|]. split; [exact Hack|].
  destruct (Hsends 0%nat sk bs Hk) as (r & ts & _ & Hread).
  destruct (Hread [1; 2; 3]) as (m & Hm & Hc). exists r, ts, m. split; [exact Hm|exact Hc].
Defined.
