(* ===== verification/Layout.v ===== *)
(** * Layout: the sizes of the shared structs

    [src/src/types.h] promises by [static_assert] that a request is 64 bytes, a
    response 88 and an order 80, and asks that fields stay ordered widest-first.
    This file computes offsets and sizes as the compiler's ABI does (every field
    at the next multiple of its alignment, the size a multiple of the largest
    alignment) and proves what the advice rests on: widest-first is the smallest
    layout of the same fields. *)

From stdpp Require Import sorting.
From S2P Require Import Prelude Types.

(** ** Fields *)

Record field := Field { fl_size : Z; fl_align : Z }.

Definition uint64_t : field := Field 8 8.
Definition uint32_t : field := Field 4 4.
Definition uint8_t : field := Field 1 1.
Definition pointer : field := Field 8 8.
Definition OrderToken_t : field := Field (Z.of_nat OUCH_TOKEN_LEN) 1.

Definition MEClientRequest_fields : list field :=
  replicate 4 uint64_t ++ [uint32_t; uint32_t; uint8_t; uint8_t; uint8_t; OrderToken_t].
Definition MEClientResponse_fields : list field :=
  replicate 6 uint64_t ++ replicate 4 uint32_t ++ [uint8_t; uint8_t; uint8_t; OrderToken_t].
Definition MEMarketUpdate_fields : list field :=
  [uint32_t; uint64_t; uint8_t; uint8_t; uint64_t; uint32_t; uint64_t; uint64_t].
Definition MEOrder_fields : list field :=
  replicate 4 uint64_t ++ [pointer; pointer; uint32_t; uint32_t; uint32_t; uint8_t; uint8_t; OrderToken_t].

(** ** Offsets and sizes *)

Definition align_up (n a : Z) : Z := (n + a - 1) / a * a.

(** The end of the last field when the first starts at or after [e]. *)
Fixpoint end_of (e : Z) (fs : list field) : Z :=
  match fs with
  | [] => e
  | f :: fs' => end_of (align_up e (fl_align f) + fl_size f) fs'
  end.

Definition max_align (fs : list field) : Z := foldr (λ f, Z.max (fl_align f)) 1 fs.
Definition sizeof (fs : list field) : Z := align_up (end_of 0 fs) (max_align fs).

Definition bytes_in (fs : list field) : Z := zsum fl_size fs.

(** The tail of the struct that no field occupies. *)
Definition tail_padding (fs : list field) : Z := sizeof fs - end_of 0 fs.

(** ** Widest-first *)

(** The alignments are powers of two, so the smaller divides the larger. *)
Definition wider (f g : field) : Prop := (fl_align g | fl_align f).
Definition field_ok (f : field) : Prop := 0 < fl_align f ∧ 0 < fl_size f ∧ (fl_align f | fl_size f).

Lemma align_up_le n a : 0 < a → n ≤ align_up n a.
Proof.
  intros Ha. unfold align_up. pose proof (Z.div_mod (n + a - 1) a ltac:(lia)).
  pose proof (Z.mod_pos_bound (n + a - 1) a Ha). lia.
Qed.

Lemma align_up_divide n a : 0 < a → (a | n) → align_up n a = n.
Proof.
  intros Ha [k ->]. unfold align_up. f_equal. replace (k * a + a - 1) with (k * a + (a - 1)) by lia.
  rewrite Z.div_add_l by lia. rewrite Z.div_small by lia. lia.
Qed.

Lemma align_up_mono n m a : 0 < a → n ≤ m → align_up n a ≤ align_up m a.
Proof. intros Ha Hle. apply Z.mul_le_mono_nonneg_r; [lia|]. apply Z.div_le_mono; lia. Qed.

(** No layout is smaller than its fields. *)
Lemma end_of_bytes e fs : Forall field_ok fs → e + bytes_in fs ≤ end_of e fs.
Proof.
  unfold bytes_in. intros Hfs. revert e. induction Hfs as [|f fs (Ha & _) _ IH]; intros e; simpl; [lia|].
  pose proof (align_up_le e _ Ha). specialize (IH (align_up e (fl_align f) + fl_size f)).
  unfold zsum in *. simpl. lia.
Qed.

(** Widest-first has no padding between the fields. *)
Lemma end_of_widest e fs :
  Forall field_ok fs → StronglySorted wider fs → Forall (λ f, (fl_align f | e)) fs →
  end_of e fs = e + bytes_in fs.
Proof.
  unfold bytes_in. intros Hfs Hs. revert e. induction Hs as [|f fs _ IH Hf]; intros e He; simpl; [lia|].
  apply Forall_cons in Hfs as [(Ha & Hsz & Hd) Hfs]. apply Forall_cons in He as [He1 He].
  rewrite align_up_divide by done. rewrite IH; [unfold zsum; simpl; lia|done|].
  apply Forall_forall. intros g Hg. rewrite Forall_forall in He, Hf. apply Z.divide_add_r; [by apply He|].
  etransitivity; [by apply Hf|done].
Qed.

Lemma max_align_perm fs fs' : fs ≡ₚ fs' → max_align fs = max_align fs'.
Proof. unfold max_align. induction 1; simpl; lia. Qed.

Lemma bytes_in_perm fs fs' : fs ≡ₚ fs' → bytes_in fs = bytes_in fs'.
Proof. unfold bytes_in, zsum. induction 1; simpl; lia. Qed.

Lemma max_align_pos fs : 0 < max_align fs.
Proof. unfold max_align. induction fs; simpl; lia. Qed.

(** A struct whose fields are ordered widest-first has no padding between
    its fields, and no order of the same fields gives a smaller struct. *)
Theorem widest_first_is_smallest (fs fs' : list field) :
  Forall field_ok fs → StronglySorted wider fs → fs ≡ₚ fs' →
  sizeof fs = align_up (bytes_in fs) (max_align fs) ∧ sizeof fs ≤ sizeof fs'.
Proof.
  intros Hok Hs Hp. pose proof (max_align_pos fs') as Hpos.
  assert (Hend : end_of 0 fs = bytes_in fs).
  { rewrite end_of_widest; [lia|done..|]. apply Forall_forall. intros f _. apply Z.divide_0_r. }
  unfold sizeof. rewrite Hend, (max_align_perm _ _ Hp). split; [done|].
  apply align_up_mono; [done|]. transitivity (bytes_in fs').
  - by rewrite (bytes_in_perm _ _ Hp).
  - apply (end_of_bytes 0). by rewrite <- Hp.
Qed.

(** ** The structs of the exchange *)

(** The [static_assert]s; each struct is as small as its fields allow. *)
Lemma widest_first_is_smallest_witness :
  (sizeof MEClientRequest_fields = 64 ∧ sizeof MEClientResponse_fields = 88 ∧
   sizeof MEOrder_fields = 80) ∧
  ∀ fs, MEOrder_fields ≡ₚ fs → 80 ≤ sizeof fs.
Proof.
  split; [vm_compute; split_and!; reflexivity|]. intros fs Hp.
  apply (widest_first_is_smallest MEOrder_fields fs); [| |exact Hp].
  - repeat constructor; by apply Z.mod_divide.
  - repeat constructor; by apply Z.mod_divide.
Defined.

Definition by_align (f g : field) : Prop := fl_align g ≤ fl_align f.
#[global] Instance by_align_dec f g : Decision (by_align f g).
Proof. unfold by_align. apply _. Defined.

(** The token is not free: without it each struct would be sixteen bytes
    smaller, its tail padding holding at most seven.  The updates are not
    ordered widest-first, which costs eight bytes each. *)
Theorem struct_padding :
  ((λ fs, sizeof (removelast fs)) <$> [MEClientRequest_fields; MEClientResponse_fields; MEOrder_fields]) =
    [48; 72; 64] ∧
  (tail_padding <$> [MEClientRequest_fields; MEClientResponse_fields; MEOrder_fields]) = [7; 7; 4] ∧
  sizeof MEMarketUpdate_fields = 56 ∧
  ∃ fs, MEMarketUpdate_fields ≡ₚ fs ∧ sizeof fs = 48.
Proof.
  split_and!; [vm_compute; reflexivity..|].
  exists (merge_sort by_align MEMarketUpdate_fields).
  split; [symmetry; apply merge_sort_Permutation|vm_compute; reflexivity].
Qed.
