(* ===== verification/Startup.v ===== *)
(** * Startup: the command line of the exchange

    [main] of [src/src/main.cpp] up to the construction of the components: what
    the arguments become, and the sockets the constructors of
    [MarketDataPublisher], [SnapshotStreamer] and [OrderServer] open.  Pinning
    threads to cores is not modelled. *)

From Stdlib Require Import Ascii String.
From stdpp Require Import strings.
From S2P Require Import Prelude.

Local Open Scope Z_scope.

(** ** [std::atoi]

    White space, a sign, digits; the number is read up to the first other
    character.  The behaviour is undefined when it does not fit an [int]. *)

Definition is_space (c : ascii) : bool :=
  let n := Z.of_N (N_of_ascii c) in (n =? 32) || ((9 <=? n) && (n <=? 13)).

Definition digit (c : ascii) : option Z :=
  let n := Z.of_N (N_of_ascii c) in if (48 <=? n) && (n <=? 57) then Some (n - 48) else None.

Fixpoint digits (acc : Z) (s : string) : Z :=
  match s with
  | String c s' => match digit c with Some d => digits (10 * acc + d) s' | None => acc end
  | EmptyString => acc
  end.

Fixpoint atoi (s : string) : Z :=
  match s with
  | String c s' =>
      if is_space c then atoi s'
      else if Ascii.eqb c "-" then - digits 0 s'
      else if Ascii.eqb c "+" then digits 0 s'
      else digits 0 s
  | EmptyString => 0
  end.

(** ** The arguments *)

Record config := Config {
  gatewayIface : string; gatewayPort : Z;
  incrementalIp : string; incrementalPort : Z;
  snapshotTcpPort : Z; mcastIface : string;
  coreMe : Z; coreGateway : Z; corePublisher : Z; coreStreamer : Z; coreLogger : Z
}.

Definition arg (argv : list string) (i : nat) : string := default EmptyString (argv !! i).

(** [(argc > i) ? std::atoi(argv[i]) : d] *)
Definition core_arg (argv : list string) (i : nat) (d : Z) : Z :=
  match argv !! i with Some s => atoi s | None => d end.

(** The exit status after [printUsage], or the configuration. *)
Definition parse_args (argv : list string) : Z + config :=
  if (length argv <? 7)%nat then inl 1
  else inr (Config (arg argv 1) (atoi (arg argv 2)) (arg argv 3) (atoi (arg argv 4))
    (atoi (arg argv 5)) (arg argv 6) (core_arg argv 7 1) (core_arg argv 8 2) (core_arg argv 9 4)
    (core_arg argv 10 6) (core_arg argv 11 8)).

(** The arguments of the constructors of [publisher] and [gateway] and of the
    four [start]s (the streamer's core goes through the publisher). *)
Record setup := Setup {
  publisher_iface : string; publisher_port : Z; snapshot_port : Z;
  gateway_iface : string; gateway_port : Z;
  pin_engine : Z; pin_gateway : Z; pin_publisher : Z; pin_streamer : Z; pin_logger : Z
}.

Definition main_setup (argv : list string) : Z + setup :=
  match parse_args argv with
  | inl status => inl status
  | inr c =>
      inr (Setup (mcastIface c) (incrementalPort c) (snapshotTcpPort c) (gatewayIface c)
        (gatewayPort c) (coreMe c) (coreGateway c) (corePublisher c) (coreStreamer c) (coreLogger c))
  end.

(** ** What the arguments do *)

(** The documented address of the incremental feed has no effect: the exchange
    is set up the same whatever it is. *)
Theorem incremental_ip_ignored (argv : list string) (ip : string) :
  main_setup (<[3%nat := ip]> argv) = main_setup argv.
Proof.
  unfold main_setup, parse_args. rewrite length_insert. destruct (_ <? 7)%nat; [done|].
  cbn. unfold arg, core_arg. by rewrite !list_lookup_insert_ne by lia.
Qed.

(** The exchange starts exactly when the six mandatory arguments are there; a
    core that is not named has its default. *)
Theorem main_setup_cases (argv : list string) :
  match main_setup argv with
  | inl status => status = 1 ∧ (length argv < 7)%nat
  | inr s =>
      (7 ≤ length argv)%nat ∧
      ∀ i pin d, (i, pin, d) ∈ [(7%nat, pin_engine s, 1); (8%nat, pin_gateway s, 2);
          (9%nat, pin_publisher s, 4); (10%nat, pin_streamer s, 6); (11%nat, pin_logger s, 8)] →
        pin = if (i <? length argv)%nat then atoi (arg argv i) else d
  end.
Proof.
  unfold main_setup, parse_args. destruct (Nat.ltb_spec (length argv) 7) as [Hl|Hl]; [done|].
  simpl. split; [done|]. intros i pin d Hin.
  assert (Hcore : pin = core_arg argv i d).
  { repeat (apply elem_of_cons in Hin as [[= -> -> ->]|Hin]; [done|]). by apply elem_of_nil in Hin. }
  rewrite Hcore. unfold core_arg, arg.
  destruct (Nat.ltb_spec i (length argv)) as [Hi|Hi].
  - by destruct (lookup_lt_is_Some_2 argv i Hi) as [s ->].
  - by rewrite lookup_ge_None_2.
Qed.

(** The command line of the usage message. *)
Lemma usage_example :
  main_setup (["exchange"; "lo"; "10000"; "224.0.0.1"; "20001"; "20002"; "lo"; "1"; "2"; "-1"]%string) =
  inr (Setup "lo" 20001 20002 "lo" 10000 1 2 (-1) 6 8).
Proof. vm_compute. reflexivity. Qed.

(** ** Opening the sockets *)

(** The calls the constructors make.  [UdpInit] and [TcpListen] are the calls of
    QuantLink's [UdpFanoutSocket::init] and [TCPServer::listen], the others are
    those of the operating system; [NonBlocking] is [quantlink::setNonBlocking],
    1 for true. *)
Inductive sock_call :=
  | Socket
  | SetReuse (fd : Z)
  | Bind (fd port : Z)
  | Listen (fd backlog : Z)
  | NonBlocking (fd : Z)
  | UdpInit (port : Z) (iface : string)
  | TcpListen (iface : string) (port : Z).

Section opening.
(** What a call returns, given the calls made so far with it as the last. *)
Context (kernel : list sock_call → Z).

Definition call (c : sock_call) : M (list sock_call) Z := λ made,
  Ok (kernel (made ++ [c]), made ++ [c]).

Definition ASSERT (b : bool) : M (list sock_call) unit :=
  if b then mret tt else raise AssertionFailed.

(** [htons] takes a [uint16_t]. *)
Definition SnapshotStreamer_open (snapshot_tcp_port : Z) : M (list sock_call) Z :=
  snapshot_tcp_fd ← call Socket;
  ASSERT (0 <=? snapshot_tcp_fd);;
  reuse ← call (SetReuse snapshot_tcp_fd);
  ASSERT (reuse =? 0);;
  bound ← call (Bind snapshot_tcp_fd (u16 snapshot_tcp_port));
  ASSERT (bound =? 0);;
  listening ← call (Listen snapshot_tcp_fd 16);
  ASSERT (listening =? 0);;
  nonblocking ← call (NonBlocking snapshot_tcp_fd);
  ASSERT (negb (nonblocking =? 0));;
  mret snapshot_tcp_fd.

Definition MarketDataPublisher_open (iface : string) (incremental_port snapshot_tcp_port : Z)
    : M (list sock_call) Z :=
  init ← call (UdpInit incremental_port iface);
  ASSERT (0 <=? init);;
  SnapshotStreamer_open snapshot_tcp_port.

(** The result of [listen] is not looked at. *)
Definition OrderServer_open (iface : string) (port : Z) : M (list sock_call) unit :=
  _ ← call (TcpListen iface port);
  mret tt.

(** The order of the locals of [main]. *)
Definition main_open (s : setup) : M (list sock_call) Z :=
  fd ← MarketDataPublisher_open (publisher_iface s) (publisher_port s) (snapshot_port s);
  OrderServer_open (gateway_iface s) (gateway_port s);;
  mret fd.

(** The calls in order, with the descriptor [fd] of the listening socket, and
    when the result of one is accepted. *)
Definition open_calls (s : setup) (fd : Z) : list sock_call :=
  [ UdpInit (publisher_port s) (publisher_iface s); Socket; SetReuse fd;
    Bind fd (u16 (snapshot_port s)); Listen fd 16; NonBlocking fd; TcpListen (gateway_iface s) (gateway_port s) ].

Definition accepts (c : sock_call) (r : Z) : bool :=
  match c with
  | Socket | UdpInit _ _ => 0 <=? r
  | SetReuse _ | Bind _ _ | Listen _ _ => r =? 0
  | NonBlocking _ => negb (r =? 0)
  | TcpListen _ _ => true
  end.

(** Every call of [cs] made so far is accepted. *)
Definition all_accepted (cs : list sock_call) : bool :=
  forallb (λ i, match cs !! i with Some c => accepts c (kernel (take (S i) cs)) | None => true end)
    (seq 0 (length cs)).

(** The exchange is constructed exactly when every result is accepted; then the
    sockets were opened with the calls above, the listening socket of the
    streamer is the one that was bound to the snapshot port modulo 65536, and
    the gateway listens last.  Otherwise an assertion fails. *)
Theorem sockets_open (s : setup) :
  let fd := kernel (take 2 (open_calls s 0)) in
  main_open s [] =
    if all_accepted (open_calls s fd) then Ok (fd, open_calls s fd) else Fault AssertionFailed.
Proof.
  intros fd. unfold all_accepted, main_open, MarketDataPublisher_open, SnapshotStreamer_open,
    OrderServer_open, call, ASSERT, mbind, M_bind, raise, mret, M_ret. simpl. subst fd. simpl.
  destruct (0 <=? kernel [UdpInit _ _]); simpl; [|done].
  generalize (kernel [UdpInit (publisher_port s) (publisher_iface s); Socket]). intros fd.
  repeat match goal with |- context [if ?b then _ else _] => destruct b eqn:?; simpl; [|done] end.
  done.
Qed.
End opening.

(** ** Signals *)

Inductive signal := SIGINT | SIGTERM | SIGSEGV | SIGABRT | SIGBUS | SIGFPE.

(** What [crashHandler] finds: the name of the thread if [prctl] gives it, the
    descriptor of [/tmp/crash_bt.txt], negative when it cannot be opened, and
    the symbols of the at most 32 frames. *)
Record crash_site := CrashSite {
  cs_comm : option string; cs_fd : Z; cs_fault_addr : Z; cs_rip : Z; cs_symbols : list string
}.

(** The line of the report with its arguments and the frames, as written to the
    file; [_exit] takes the status and does not return. *)
Record crash_report := CrashReport {
  cr_signal : signal; cr_thread : string; cr_fault_addr : Z; cr_rip : Z; cr_frames : list string
}.

Definition crashHandler (sig : signal) (site : crash_site) : option crash_report * Z :=
  let comm := default "?"%string (cs_comm site) in
  let written :=
    if 0 <=? cs_fd site
    then Some (CrashReport sig comm (cs_fault_addr site) (cs_rip site) (take 32 (cs_symbols site)))
    else None in
  (written, 1).

(** The process after a signal: still running with [g_running], or gone. *)
Inductive process :=
  | Alive (g_running : bool)
  | Exited (report : option crash_report) (status : Z).

(** The handlers [main] installs. *)
Definition deliver_signal (sig : signal) (site : crash_site) (p : process) : process :=
  match p with
  | Alive _ =>
      match sig with
      | SIGINT | SIGTERM => Alive false
      | SIGSEGV | SIGABRT | SIGBUS | SIGFPE =>
          let '(report, status) := crashHandler sig site in Exited report status
      end
  | Exited _ _ => p
  end.

Definition fatal (sig : signal) : bool :=
  match sig with SIGINT | SIGTERM => false | _ => true end.

(** Interrupts only ask [main] to stop, however many there are; the first fatal
    signal ends the process with status 1, and its report, written if the file
    could be opened, is never overwritten by a later one. *)
Theorem signals_handled (sigs : list (signal * crash_site)) (g_running : bool) :
  foldl (λ p s, deliver_signal s.1 s.2 p) (Alive g_running) sigs =
  match list_find (λ s, fatal s.1 = true) sigs with
  | None => Alive (g_running && bool_decide (sigs = []))
  | Some (_, (sig, site)) =>
      Exited (if 0 <=? cs_fd site
              then Some (CrashReport sig (default "?"%string (cs_comm site)) (cs_fault_addr site)
                           (cs_rip site) (take 32 (cs_symbols site)))
              else None) 1
  end.
Proof.
  assert (Hgone : ∀ sigs r st, foldl (λ p s, deliver_signal s.1 s.2 p) (Exited r st) sigs = Exited r st).
  { induction sigs0 as [|s sigs0 IH]; intros r st; [done|]. apply IH. }
  revert g_running. induction sigs as [|[sig site] sigs IH]; intros g; [simpl; by rewrite andb_true_r|].
  cbn [foldl list_find fst snd]. destruct (decide (fatal sig = true)) as [Hf|Hf].
  - destruct sig; try done; cbn [deliver_signal crashHandler]; apply Hgone.
  - assert (deliver_signal sig site (Alive g) = Alive false) as -> by (by destruct sig; simpl in Hf).
    rewrite IH, (bool_decide_false ((sig, site) :: sigs = [])), andb_false_r by done. cbn [andb].
    by destruct (list_find _ sigs) as [[? []]|].
Qed.
