(* ===== verification/Recovery.v ===== *)
(** * Recovery: a subscriber always has the market of its sequence number

    [truth k] is the market after the first [k] updates of the engine, and a
    subscriber is [synced] at [k] if its sequence number is [k] and its books are
    [truth k].  Datagrams, replays and snapshots all preserve being in sync; a
    snapshot and a replay bring the subscriber to where the streamer is. *)

From S2P Require Import Prelude Types BookSpec DList Memory StoreRep BookSpecFacts BookTime MatchingEngine Queue Wire Itch Publisher Streamer FeedFacts MarketData ShadowBook Subscriber.
Import Itch.

Section sync.
Context `{ByteSwap} `{!ByteSwapLaws} `{ItchWire} `{!ItchWireLaws} `{ItchReader} `{!ItchReaderLaws}.
Context (tickers : nat) (us : list MEMarketUpdate).

(** What the engine sends: updates that fit the wire, of listed tickers, whose
    replacements name what they replace. *)
Record feed_source : Prop := {
  fs_readable : Forall readable us;
  fs_tickers : Forall (update_ok tickers) us;
  fs_coherent : coherent (replicate tickers ∅) us;
  fs_length : Z.of_nat (length us) + 1 < 2 ^ 64
}.

Definition truth (k : nat) : list market_view := foldl views_after (replicate tickers ∅) (take k us).

Definition synced (k : nat) (s : subscriber) : Prop :=
  (k ≤ length us)%nat ∧ sb_seq s = Z.of_nat k ∧ sb_books s = truth k.

Lemma truth_S k u : us !! k = Some u → truth (S k) = views_after (truth k) u.
Proof. intros Hu. unfold truth. by rewrite (take_S_r _ _ _ Hu), foldl_app. Qed.

Lemma views_after_length us' vs : length (foldl views_after vs us') = length vs.
Proof.
  revert vs. induction us' as [|u us' IH]; intros vs; simpl; [done|]. rewrite IH. apply length_alter.
Qed.

Lemma truth_length k : length (truth k) = tickers.
Proof. unfold truth. by rewrite views_after_length, length_replicate. Qed.

Context (Hsource : feed_source).

Lemma known_at k u v :
  us !! k = Some u → truth k !! Z.to_nat (mu_ticker_id_ u) = Some v → names_known v u.
Proof.
  intros Hu Hv. pose proof (fs_coherent Hsource) as Hc.
  rewrite <- (take_drop_middle us k u Hu), coherent_app in Hc. destruct Hc as [_ [Hk _]]. by apply Hk.
Qed.

(** The [k]-th frame of the feed, from zero. *)
Definition is_frame (k : nat) (d : list Z) : Prop :=
  ∃ u ns m, us !! k = Some u ∧ encode u ns = Some m ∧ d = seq_prefix (1 + Z.of_nat k) ++ itch_bytes m.

Lemma snap_is_frame input (snaps : list SnapshotUpdate) k d :
  input `prefix_of` us → (∀ k s, snaps !! k = Some s → snap_ok input k s) →
  (frame <$> snaps) !! k = Some d → is_frame k d.
Proof.
  intros [rest Hin] Hsnaps. rewrite list_lookup_fmap.
  destruct (snaps !! k) as [sn|] eqn:Hk; simpl; [|done]. intros [= <-].
  destruct (Hsnaps k sn Hk) as [Hseq Hup (ns & m & He & Hb)].
  exists (su_update_ sn), ns, m. split_and!; [|done|unfold frame; by rewrite Hseq, Hb].
  rewrite Hin, lookup_app_l; [done|]. by eapply lookup_lt_Some.
Qed.

Lemma read_is_frame k d rest :
  is_frame k d → ∃ u ns m, us !! k = Some u ∧ subscriber_reads m u ns ∧
    read_frame (d ++ rest) = Some (1 + Z.of_nat k, m, rest).
Proof.
  intros (u & ns & m & Hu & He & ->). pose proof (fs_length Hsource).
  destruct (encoded_reads u ns m) as [ns' Hreads]; [|done|].
  { by apply (Forall_lookup_1 _ _ _ _ (fs_readable Hsource) Hu). }
  exists u, ns', m. split_and!; [done..|]. rewrite <- app_assoc. apply read_frame_ok.
  - apply lookup_lt_Some in Hu. lia.
  - by eapply encode_msg_ok.
Qed.

(** The next frame is applied, any other is ignored. *)
Lemma on_frame_synced k m u ns j s :
  us !! k = Some u → subscriber_reads m u ns → synced j s →
  synced (if decide (j = k) then S k else j) (on_frame (1 + Z.of_nat k) m s).
Proof.
  intros Hu Hreads (Hj & Hseq & Hbooks). unfold on_frame. rewrite Hseq.
  destruct (decide (j = k)) as [->|Hne].
  - rewrite (proj2 (Z.eqb_eq _ _)) by lia. split_and!; simpl; [|lia|].
    + apply lookup_lt_Some in Hu. lia.
    + rewrite Hbooks, (truth_S _ _ Hu). apply (on_msg_update m u ns); [done|]. intros v. by apply known_at.
  - rewrite (proj2 (Z.eqb_neq _ _)) by lia. by split_and!.
Qed.

Lemma on_datagram_synced k d j s :
  is_frame k d → synced j s → synced (if decide (j = k) then S k else j) (on_datagram d s).
Proof.
  intros Hd Hs. destruct (read_is_frame k d [] Hd) as (u & ns & m & Hu & Hreads & Hr).
  rewrite app_nil_r in Hr. unfold on_datagram. rewrite Hr. by eapply on_frame_synced.
Qed.

(** Consecutive frames, one behind the other. *)
Lemma on_frames_synced ds k fuel s :
  (∀ i d, ds !! i = Some d → is_frame (k + i) d) → (length ds ≤ fuel)%nat → synced k s →
  synced (k + length ds) (on_frames fuel (concat ds) s).
Proof.
  revert k fuel s. induction ds as [|d ds IH]; intros k fuel s Hds Hfuel Hs; simpl.
  { rewrite Nat.add_0_r. by destruct fuel. }
  destruct fuel as [|fuel]; [simpl in Hfuel; lia|]. simpl.
  destruct (read_is_frame k d (concat ds)) as (u & ns & m & Hu & Hreads & ->).
  { specialize (Hds 0%nat d eq_refl). by rewrite Nat.add_0_r in Hds. }
  pose proof (on_frame_synced k m u ns k s Hu Hreads Hs) as Hs'. rewrite decide_True in Hs' by done.
  replace (k + S (length ds))%nat with (S k + length ds)%nat by lia. apply IH; [|simpl in Hfuel; lia|done].
  intros i d' Hd'. replace (S k + i)%nat with (k + S i)%nat by lia. by apply Hds.
Qed.

(** Whatever frames of the feed follow each other: the subscriber stays in sync. *)
Lemma on_frames_safe ds fuel s k :
  Forall (λ d, ∃ i, is_frame i d) ds → (length ds ≤ fuel)%nat → synced k s →
  ∃ k', synced k' (on_frames fuel (concat ds) s).
Proof.
  intros Hds. revert fuel s k. induction Hds as [|d ds [i Hd] _ IH]; intros fuel s k Hfuel Hs; simpl.
  { exists k. by destruct fuel. }
  destruct fuel as [|fuel]; [simpl in Hfuel; lia|]. simpl.
  destruct (read_is_frame i d (concat ds) Hd) as (u & ns & m & Hu & Hreads & ->).
  eapply IH; [simpl in Hfuel; lia|]. by eapply on_frame_synced.
Qed.

Lemma frame_nonempty i d : is_frame i d → d ≠ [].
Proof.
  intros (u & ns & m & _ & _ & ->) Hnil.
  apply (f_equal length) in Hnil. rewrite length_app, length_seq_prefix in Hnil. simpl in Hnil. lia.
Qed.

Lemma frames_fuel_enough ds :
  Forall (λ d, d ≠ []) ds → (length ds ≤ length (concat (A := Z) ds))%nat.
Proof.
  induction 1 as [|d ds Hd _ IH]; simpl; [done|]. rewrite length_app.
  destruct d; [done|]. simpl. lia.
Qed.

(** A replay brings the subscriber to the end of the frames, unless it is there
    already or the gap is too large. *)
Definition after_replay (n k : nat) : nat :=
  if decide ((k < n)%nat ∧ Z.of_nat n - REPLAY_CAPACITY ≤ Z.of_nat k) then n else k.

Lemma on_replay_synced frames k s :
  (∀ i d, frames !! i = Some d → is_frame i d) → synced k s →
  synced (after_replay (length frames) k)
    (on_replay (concat (replay_answer frames (sb_seq s))) s).
Proof.
  intros Hfr Hs. pose proof Hs as (_ & -> & _). unfold after_replay, replay_answer.
  destruct (Z.leb_spec (Z.of_nat (length frames)) (Z.of_nat k)).
  { rewrite decide_False by lia. done. }
  destruct (Z.ltb_spec (Z.of_nat k) (Z.of_nat (length frames) - REPLAY_CAPACITY)).
  { rewrite decide_False by lia. done. }
  rewrite decide_True by lia. cbn [concat]. rewrite app_nil_r. cbn [app on_replay].
  rewrite Z.eqb_refl, Nat2Z.id.
  pose proof (on_frames_synced (drop k frames) k (length (concat (drop k frames))) s) as Hgo.
  rewrite length_drop in Hgo. replace (k + (length frames - k))%nat with (length frames) in Hgo by lia.
  apply Hgo; [|rewrite <- length_drop; apply frames_fuel_enough|done].
  - intros i d Hd. rewrite lookup_drop in Hd. by apply Hfr.
  - apply Forall_lookup. intros i d Hd. rewrite lookup_drop in Hd.
    by eapply frame_nonempty, Hfr.
Qed.

(** A replay answer may be meant for another client, or be read late. *)
Lemma on_replay_safe frames client_seq k s :
  (∀ i d, frames !! i = Some d → is_frame i d) → synced k s →
  ∃ k', synced k' (on_replay (concat (replay_answer frames client_seq)) s).
Proof.
  intros Hfr Hs. unfold replay_answer. destruct (_ <=? _); [by exists k|]. destruct (_ <? _); [by exists k|].
  cbn [concat]. rewrite app_nil_r. cbn [app on_replay]. rewrite Z.eqb_refl.
  assert (HF : Forall (λ d, ∃ i, is_frame i d) (drop (Z.to_nat client_seq) frames)).
  { apply Forall_drop, Forall_lookup. eauto. }
  eapply on_frames_safe; [done| |done]. apply frames_fuel_enough. eapply Forall_impl; [exact HF|].
  intros d [i Hd]. by eapply frame_nonempty.
Qed.

(** *** Snapshots *)

(** An entry of the shadow book of ticker [t] under the market order id [id]. *)
Definition entry_ok (t : nat) (id : OrderId) (o : MEMarketUpdate) : Prop :=
  Z.to_nat (mu_ticker_id_ o) = t ∧ mu_market_order_id_ o = id ∧ readable o.

Definition entries_ok (books : list (gmap OrderId MEMarketUpdate)) : Prop :=
  ∀ t orders, books !! t = Some orders → map_Forall (entry_ok t) orders.

Lemma book_after_entries t u orders :
  Z.to_nat (mu_ticker_id_ u) = t → readable u → map_Forall (entry_ok t) orders →
  map_Forall (entry_ok t) (book_after u orders).
Proof.
  intros Ht Hu Ho. unfold book_after. destruct (mu_type_ u); try done.
  - by apply map_Forall_insert_2.
  - by apply map_Forall_delete.
  - apply map_Forall_insert_2; [|by apply map_Forall_delete]. split_and!; [done..|].
    intros ns Hns. destruct (Hu ns Hns). by split.
  - destruct (orders !! mu_market_order_id_ u) as [o|] eqn:Hl; [|done].
    destruct (_ <=? _); [by apply map_Forall_delete|]. apply map_Forall_insert_2; [|done].
    destruct (Ho _ _ Hl) as (Hot & Hoid & Hor). split_and!; [done..|].
    intros ns Hns. destruct (Hor ns Hns). split; simpl; try done. apply u32_range.
Qed.

Lemma books_after_entries us' books :
  Forall readable us' → entries_ok books → entries_ok (foldl books_after books us').
Proof.
  intros Hus. revert books. induction Hus as [|u us' Hu _ IH]; intros books Hb; simpl; [done|].
  apply IH. intros t orders. unfold books_after.
  destruct (decide (t = Z.to_nat (mu_ticker_id_ u))) as [->|Hne].
  - rewrite list_lookup_alter_eq. destruct (books !! _) as [m|] eqn:Hm; simpl; [|done].
    intros [= <-]. by apply book_after_entries; [| |apply Hb].
  - rewrite list_lookup_alter_ne by done. apply Hb.
Qed.

(** What a frame of a snapshot does, whatever the clock said when it was baked. *)
Definition does (f : Z → option itch_msg) (act : subscriber → subscriber) : Prop :=
  ∀ ns s, ∃ m, f ns = Some m ∧ msg_ok m ∧ on_snapshot_msg s m = act s.

Definition clear_book (t : nat) (s : subscriber) : subscriber :=
  Sub (sb_seq s) (alter (λ _, ∅) t (sb_books s)).
Definition add_entry (o : MEMarketUpdate) (s : subscriber) : subscriber :=
  Sub (sb_seq s) (views_after (sb_books s) (with_type UPD_ADD o)).
Definition set_seq (last : Z) (s : subscriber) : subscriber := Sub last (sb_books s).

Lemma does_start last : does (ctrl SNAP_CTRL_START last) (λ s, s).
Proof.
  intros ns s. eexists. split; [done|]. split; [by eapply ctrl_msg_ok|]. simpl.
  by rewrite swap16_swap16 by (vm_compute; intuition congruence).
Qed.

Lemma does_end last : 0 ≤ last < 2 ^ 64 → does (ctrl SNAP_CTRL_END last) (set_seq last).
Proof.
  intros Hl ns s. eexists. split; [done|]. split; [by eapply ctrl_msg_ok|]. simpl.
  rewrite swap16_swap16 by (vm_compute; intuition congruence). by rewrite swap64_swap64.
Qed.

Lemma does_clear t : Z.of_nat t < 2 ^ 64 → does (ctrl SNAP_CTRL_CLEAR (Z.of_nat t)) (clear_book t).
Proof.
  intros Ht ns s. eexists. split; [done|]. split; [by eapply ctrl_msg_ok|]. simpl.
  rewrite swap16_swap16 by (vm_compute; intuition congruence).
  rewrite swap64_swap64 by lia. by rewrite Nat2Z.id.
Qed.

Lemma does_add o : readable o → does (encode (with_type UPD_ADD o)) (add_entry o).
Proof.
  intros Ho ns s. destruct (encode_on_feed (with_type UPD_ADD o) ns eq_refl) as [m Hm].
  exists m. split; [done|]. split; [by eapply encode_msg_ok|].
  destruct (encoded_reads (with_type UPD_ADD o) ns m) as [ns' Hreads]; [|done|].
  { intros ns' Hns'. by destruct (Ho ns' Hns'). }
  unfold add_entry. rewrite <- (on_msg_update m _ ns' (sb_books s) Hreads) by (by intros v _ ?).
  unfold encode in Hm. simpl in Hm. by injection Hm as <-.
Qed.

Lemma on_snapshot_does nanos fs acts n fuel s :
  Forall2 does fs acts → (length fs ≤ fuel)%nat →
  on_snapshot_msgs fuel (render nanos fs n) s = foldl (λ s act, act s) s acts.
Proof.
  intros Hdo. revert n fuel s. induction Hdo as [|f act fs acts Hf _ IH]; intros n fuel s Hfuel; simpl.
  { by destruct fuel. }
  destruct fuel as [|fuel]; [simpl in Hfuel; lia|]. destruct (Hf (nanos n) s) as (m & -> & Hm & Hact).
  simpl. pose proof (read_itch_bytes m (render nanos fs (S n)) Hm) as Hread.
  pose proof (itch_nonempty m). destruct (itch_bytes m ++ _) as [|b bs] eqn:Hbs.
  { by destruct (itch_bytes m). }
  rewrite Hread, Hact. apply IH. simpl in Hfuel. lia.
Qed.

Lemma render_length nanos fs acts n :
  Forall2 does fs acts → (length fs ≤ length (render nanos fs n))%nat.
Proof.
  intros Hdo. revert n. induction Hdo as [|f act fs acts Hf _ IH]; intros n; simpl; [done|].
  destruct (Hf (nanos n) (Sub 0 [])) as (m & -> & _). simpl. rewrite length_app.
  pose proof (itch_nonempty m). specialize (IH (S n)). destruct (itch_bytes m); simpl; [done|lia].
Qed.

(** The entries of one shadow book, in the order of the iteration. *)
Definition add_entries (es : list (OrderId * MEMarketUpdate)) (v : market_view) : market_view :=
  foldl (λ v e, <[e.1 := update_view e.2]> v) v es.

Lemma add_entries_view `{HashIteration} `{!HashIterationLaws} orders :
  add_entries (iterate orders) ∅ = shadow_view orders.
Proof.
  transitivity (list_to_map (prod_map id update_view <$> rev (iterate orders)) : market_view).
  { unfold add_entries. induction (iterate orders) as [|e es IH] using rev_ind; [done|].
    rewrite foldl_app, rev_app_distr, IH. done. }
  unfold shadow_view. rewrite <- (list_to_map_to_list (update_view <$> orders)), map_to_list_fmap.
  apply list_to_map_proper.
  - rewrite <- list_fmap_compose, <- Permutation_rev, iterate_perm.
    rewrite (list_fmap_ext _ fst); [apply NoDup_fst_map_to_list|]. by intros i [] _.
  - by rewrite <- Permutation_rev, iterate_perm.
Qed.

Lemma entries_effect t es s :
  Forall (λ e, entry_ok t e.1 e.2) es →
  foldl (λ s act, act s) s ((λ e, add_entry e.2) <$> es) =
  Sub (sb_seq s) (alter (add_entries es) t (sb_books s)).
Proof.
  intros Hes. revert s. induction Hes as [|[id o] es (Ht & Hid & _) _ IH]; intros s; simpl in *.
  - destruct s as [k vs]. simpl. f_equal. rewrite list_alter_id; done.
  - rewrite IH. simpl. f_equal. unfold views_after. simpl. rewrite Ht, list_alter_alter_eq.
    apply list_alter_ext; [|done]. intros v _. unfold compose, view_after. simpl. by rewrite Hid.
Qed.

Definition block `{HashIteration} (t : nat) (orders : gmap OrderId MEMarketUpdate)
    : list (subscriber → subscriber) :=
  clear_book t :: ((λ e, add_entry e.2) <$> iterate orders).

Lemma iterate_entries `{HashIteration} `{!HashIterationLaws} t orders :
  map_Forall (entry_ok t) orders → Forall (λ e, entry_ok t e.1 e.2) (iterate orders).
Proof.
  intros Ho. rewrite iterate_perm. apply Forall_forall. intros [id o] He.
  by apply Ho, elem_of_map_to_list.
Qed.

Lemma block_effect `{HashIteration} `{!HashIterationLaws} t orders s :
  map_Forall (entry_ok t) orders →
  foldl (λ s act, act s) s (block t orders) =
  Sub (sb_seq s) (alter (λ _, shadow_view orders) t (sb_books s)).
Proof.
  intros Ho. simpl. rewrite (entries_effect t) by (by apply iterate_entries). simpl. f_equal.
  rewrite list_alter_alter_eq. apply list_alter_ext; [|done]. intros v _. simpl.
  apply add_entries_view.
Qed.

(** Clearing and filling one book after the other replaces them all. *)
Lemma blocks_effect `{HashIteration} `{!HashIterationLaws} books k s :
  (∀ t orders, books !! t = Some orders → map_Forall (entry_ok (k + t)) orders) →
  length (sb_books s) = (k + length books)%nat →
  foldl (λ s act, act s) s (concat (imap (λ t, block (k + t)) books)) =
  Sub (sb_seq s) (take k (sb_books s) ++ (shadow_view <$> books)).
Proof.
  revert k s. induction books as [|m books IH]; intros k s Hb Hlen.
  - destruct s as [q vs]. simpl in *. f_equal. by rewrite app_nil_r, take_ge by lia.
  - rewrite imap_cons. cbn [concat]. rewrite foldl_app, Nat.add_0_r.
    rewrite block_effect by (specialize (Hb 0%nat m eq_refl); by rewrite Nat.add_0_r in Hb).
    rewrite (imap_ext _ (λ t, block (S k + t))) by (intros; simpl; f_equal; lia).
    rewrite IH; simpl.
    + f_equal. simpl in Hlen. destruct (lookup_lt_is_Some_2 (sb_books s) k) as [v Hv]; [lia|].
      rewrite (take_S_r _ _ (shadow_view m)) by (by rewrite list_lookup_alter_eq, Hv).
      rewrite <- app_assoc. f_equal. by rewrite take_alter_ge by lia.
    + intros t orders Ht. replace (S (k + t)) with (k + S t)%nat by lia. by apply Hb.
    + rewrite length_alter. simpl in Hlen. lia.
Qed.

(** *** A snapshot brings any subscriber to its sequence number *)

Lemma Forall2_concat {A B} (R : A → B → Prop) ls ks :
  Forall2 (Forall2 R) ls ks → Forall2 R (concat ls) (concat ks).
Proof. induction 1; simpl; [done|by apply Forall2_app]. Qed.

Lemma snapshot_does `{HashIteration} `{!HashIterationLaws} books last :
  entries_ok books → 0 ≤ last < 2 ^ 64 → Z.of_nat (length books) < 2 ^ 64 →
  Forall2 does (snapshot_frames books last)
    ([λ s, s] ++ concat (imap (λ t, block t) books) ++ [set_seq last]).
Proof.
  intros Hb Hl Hlen. unfold snapshot_frames. repeat apply Forall2_app.
  1: by constructor; [apply does_start|constructor].
  2: by constructor; [apply does_end|constructor].
  apply Forall2_concat. apply Forall2_same_length_lookup_2; [by rewrite !length_imap|].
  intros t fs acts. rewrite !list_lookup_imap. destruct (books !! t) as [orders|] eqn:Ho; simpl; [|done].
  intros [= <-] [= <-]. constructor.
  - apply does_clear. apply lookup_lt_Some in Ho. lia.
  - apply Forall2_fmap, Forall_Forall2_diag. eapply Forall_impl; [by apply iterate_entries, Hb|].
    intros e (_ & _ & He). by apply does_add.
Qed.

Lemma on_snapshot_synced `{HashIteration} `{!HashIterationLaws} nanos k n s :
  (k ≤ length us)%nat → length (sb_books s) = tickers → Z.of_nat tickers < 2 ^ 64 →
  synced k (on_snapshot
    (render nanos (snapshot_frames (foldl books_after (replicate tickers ∅) (take k us)) (Z.of_nat k)) n) s).
Proof.
  intros Hk Hs Ht. set (books := foldl _ _ _).
  assert (Hlen : length books = tickers) by (unfold books; by rewrite books_after_length, length_replicate).
  assert (Hb : entries_ok books).
  { apply books_after_entries; [apply Forall_take, Hsource|].
    intros t orders [-> _]%lookup_replicate. apply map_Forall_empty. }
  pose proof (fs_length Hsource).
  pose proof (snapshot_does books (Z.of_nat k) Hb ltac:(lia) ltac:(lia)) as Hdo.
  unfold on_snapshot. rewrite (on_snapshot_does _ _ _ _ _ _ Hdo) by (by eapply render_length).
  rewrite !foldl_app. simpl. pose proof (blocks_effect books 0 s) as He. simpl in He.
  rewrite He; [|done|by rewrite Hlen]. split_and!; [done..|]. simpl. unfold truth, books.
  by rewrite shadow_views_foldl, fmap_replicate.
Qed.

(** Whoever asks the streamer of a feed for a snapshot. *)
Lemma served_snapshot_synced {U S : Type} `{SPSCQueueLaws MEMarketUpdate U} `{SPSCQueueLaws SnapshotUpdate S}
    `{HashIteration} `{!HashIterationLaws} str_nanos (f : feed U S) snaps F D s :
  feed_inv str_nanos tickers f snaps F D → fd_input f `prefix_of` us →
  length (sb_books s) = tickers → Z.of_nat tickers < 2 ^ 64 →
  synced (Z.to_nat (last_seq_num_ (fd_streamer f)))
    (on_snapshot (concat (serveSnapshot str_nanos (fd_streamer f)).2) s).
Proof.
  intros Hinv Hin Hs Ht. pose proof (fi_stream _ _ _ _ _ _ Hinv) as Hst.
  destruct (books_of_input _ _ _ _ _ _ Hinv) as [Hle Hb]. pose proof (prefix_length _ _ Hin).
  pose proof (so_last _ _ _ _ Hst) as Hlast.
  pose proof (serveSnapshot_ok str_nanos tickers _ _ Hst) as Hsv.
  destruct (serveSnapshot str_nanos (fd_streamer f)) as [st' ans]. destruct Hsv as (_ & n & ->).
  cbn [snd concat]. rewrite app_nil_r, Hb. destruct Hin as [more Hin].
  rewrite <- (take_app_le (fd_input f) more), <- Hin by done.
  pose proof (on_snapshot_synced str_nanos (Z.to_nat (last_seq_num_ (fd_streamer f))) n s ltac:(lia) Hs Ht) as Hgo.
  rewrite Z2Nat.id in Hgo by lia. exact Hgo.
Qed.
End sync.
