(* ===== verification/Follow.v ===== *)
(** * Follow: a subscriber beside the running feed

    The engine's updates, the publisher, the streamer, other recovery clients
    and one client of the feed, any that keeps to the protocol of [Subscriber],
    in any interleaving.  The network may deliver any datagram ever sent, in any
    order, any number of times or not at all; the client may ask for a replay or
    a snapshot at any moment. *)

From S2P Require Import Prelude Types BookSpec DList Memory StoreRep LevelMap Levels BookSpecFacts BookTime Soundness BookCore MatchingEngine Trades OrderBookMap MapRefine MapTheorems EngineMap Queue Fifo Wire TokenManager Ouch OrderServer Itch Publisher Streamer FeedFacts MarketData ShadowBook FeedTruth Messages Lifecycle System SystemInv Readable Subscriber Recovery PackedItch.
Import Itch MapOB.

Inductive sub_op :=
  | SEngine                         (** the engine pushes its next update *)
  | SPublisher                      (** a step of the publisher thread *)
  | SStreamer                       (** the streamer drains one update *)
  | SClient (request : list Z)      (** another recovery client is served *)
  | SDatagram (k : nat)             (** datagram [k] arrives *)
  | SReplay                         (** the client asks for a replay *)
  | SSnapshot.                      (** the client asks for a snapshot *)

Section follow.
Context {U S : Type} `{SPSCQueueLaws MEMarketUpdate U} `{SPSCQueueLaws SnapshotUpdate S}.
Context `{ByteSwap} `{!ByteSwapLaws} `{ItchWire} `{!ItchWireLaws} `{ItchReader} `{!ItchReaderLaws}.
Context `{HashIteration} `{!HashIterationLaws} {C : Type} `{FeedClient C} `{!FeedClientLaws C}.
Context (pub_nanos str_nanos : nat → Z) (tickers : nat) (us : list MEMarketUpdate).

Abbreviation feed_exec := (feed_exec pub_nanos str_nanos).
Abbreviation feed_inv := (feed_inv str_nanos tickers).

(** A request of the client and what it does with the answer. *)
Definition ask (request : list Z) (use : list Z → C → C)
    (fs : feed U S * C) : outcome (feed U S * C) :=
  let answer := (handleClient str_nanos request (fd_streamer fs.1)).2 in
  match feed_exec (FClient request) fs.1 with
  | Ok f => Ok (f, use (concat answer) fs.2)
  | Fault e => Fault e
  end.

Definition beside (op : feed_op) (fs : feed U S * C) : outcome (feed U S * C) :=
  match feed_exec op fs.1 with Ok f => Ok (f, fs.2) | Fault e => Fault e end.

Definition sub_exec (op : sub_op) (fs : feed U S * C) : outcome (feed U S * C) :=
  match op with
  | SEngine => match us !! length (fd_input fs.1) with Some u => beside (FEngine u) fs | None => Ok fs end
  | SPublisher => beside FPublisher fs
  | SStreamer => beside FStreamer fs
  | SClient request => beside (FClient request) fs
  | SDatagram k =>
      match datagrams (fd_publisher fs.1) !! k with
      | Some d => Ok (fs.1, cl_datagram d fs.2)
      | None => Ok fs
      end
  | SReplay => ask (replay_request (sb_seq (cl_view fs.2))) cl_replay fs
  | SSnapshot => ask [char_S] cl_snapshot fs
  end.

Fixpoint sub_run (ops : list sub_op) (fs : feed U S * C) : outcome (feed U S * C) :=
  match ops with
  | [] => Ok fs
  | op :: ops' => match sub_exec op fs with Ok fs' => sub_run ops' fs' | Fault e => Fault e end
  end.

Definition sub_new (u : U) (s : S) (c : C) : feed U S * C := (feed_new u s tickers, c).

(** ** The invariant *)

Record follows (f : feed U S) (s : C) : Prop := {
  fw_inv : ∃ snaps F D, feed_inv f snaps F D;
  fw_input : fd_input f `prefix_of` us;
  fw_synced : ∃ k, synced tickers us k (cl_view s)
}.

Context (Hsource : feed_source tickers us) (Htickers : Z.of_nat tickers ≤ 2 ^ 16).

Lemma follows_input f s :
  follows f s → Forall (update_ok tickers) (fd_input f) ∧ Z.of_nat (length (fd_input f)) + 1 < 2 ^ 64.
Proof.
  intros [_ Hin _]. pose proof (fs_length _ _ Hsource). pose proof (prefix_length _ _ Hin). split; [|lia].
  destruct Hin as [k Hk]. pose proof (fs_tickers _ _ Hsource) as HF. rewrite Hk in HF.
  by apply Forall_app in HF as [? _].
Qed.

(** Every datagram is a frame of the feed. *)
Lemma datagram_is_frame f s k d :
  follows f s → datagrams (fd_publisher f) !! k = Some d → is_frame us k d.
Proof.
  intros [(snaps & F & D & Hinv) Hin _]. rewrite (fi_datagrams _ _ _ _ _ _ Hinv).
  by eapply (snap_is_frame us (fd_input f)); [|apply Hinv].
Qed.

Lemma drained_le f s :
  follows f s → 0 ≤ last_seq_num_ (fd_streamer f) ∧
  (Z.to_nat (last_seq_num_ (fd_streamer f)) ≤ length (datagrams (fd_publisher f)))%nat ∧
  (Z.to_nat (last_seq_num_ (fd_streamer f)) ≤ length us)%nat.
Proof.
  intros [(snaps & F & D & Hinv) Hin _]. destruct (books_of_input _ _ _ _ _ _ Hinv) as [Hle _].
  pose proof (prefix_length _ _ Hin). rewrite (fi_datagrams _ _ _ _ _ _ Hinv), length_fmap.
  rewrite (so_last _ _ _ _ (fi_stream _ _ _ _ _ _ Hinv)), length_take in *. lia.
Qed.

(** A step of the feed leaves the subscriber alone. *)
Lemma feed_op_follows f s op :
  follows f s → (∀ u, op = FEngine u → us !! length (fd_input f) = Some u) →
  ∃ f', feed_exec op f = Ok f' ∧ follows f' s.
Proof.
  intros Hf Hop. destruct (follows_input f s Hf) as [Hok Hlen]. pose proof Hf as [(snaps & F & D & Hinv) Hin Hs].
  destruct op as [u| | |request].
  - destruct (feed_engine pub_nanos str_nanos tickers f snaps F D u Hinv) as (f' & He & Hinv' & Hin').
    exists f'. split; [done|]. split; [eauto| |done]. destruct Hin' as [-> | ->]; [done|].
    destruct Hin as [rest Hrest]. specialize (Hop u eq_refl). rewrite Hrest in Hop.
    rewrite lookup_app_r, Nat.sub_diag in Hop by lia. destruct rest as [|u' rest]; [done|].
    injection Hop as ->. exists rest. by rewrite <- app_assoc.
  - destruct (feed_publisher pub_nanos str_nanos tickers f snaps F D Hinv Hok Hlen)
      as (f' & snaps' & F' & He & Hinv' & Hin').
    exists f'. split; [done|]. split; [eauto|by rewrite Hin'|done].
  - destruct (feed_streamer pub_nanos str_nanos tickers f snaps F D Hinv Hok Hlen)
      as (f' & D' & He & Hinv' & Hin').
    exists f'. split; [done|]. split; [eauto|by rewrite Hin'|done].
  - destruct (feed_step pub_nanos str_nanos tickers f snaps F D (FClient request) Hinv Hok Hlen)
      as (f' & snaps' & F' & D' & He & Hinv' & _); [done|].
    exists f'. split; [done|]. split; [eauto| |done]. unfold FeedFacts.feed_exec in He.
    destruct (handleClient _ _ _) as [st ans]. by injection He as <-.
Qed.

Lemma ask_follows request use f s k' :
  follows f s →
  synced tickers us k' (cl_view (use (concat (handleClient str_nanos request (fd_streamer f)).2) s)) →
  ∃ f' s', ask request use (f, s) = Ok (f', s') ∧ follows f' s' ∧ synced tickers us k' (cl_view s').
Proof.
  intros Hf Hk. destruct (feed_op_follows f s (FClient request) Hf) as (f' & He & Hf'); [done|].
  unfold ask. cbn [fst snd]. rewrite He. eexists f', _. split; [done|]. split; [|done].
  destruct Hf'. split; eauto.
Qed.

(** A replay brings the client to the streamer, unless it is there already or
    the gap is too large; a snapshot always does. *)
Lemma replay_follows f s k :
  follows f s → synced tickers us k (cl_view s) →
  ∃ f' s', sub_exec SReplay (f, s) = Ok (f', s') ∧ follows f' s' ∧
    synced tickers us (after_replay (Z.to_nat (last_seq_num_ (fd_streamer f))) k) (cl_view s').
Proof.
  intros Hf Hs. apply ask_follows; [done|]. rewrite cl_replay_view. pose proof Hf as [(snaps & F & D & Hinv) _ _].
  pose proof Hs as (Hk & Hseq & _). pose proof (fs_length _ _ Hsource).
  destruct (drained_le f s Hf) as (_ & Hd & _).
  rewrite (replay_request_ok str_nanos tickers f snaps F D); [|done|simpl; rewrite Hseq; lia]. simpl.
  set (frames := take _ _).
  replace (Z.to_nat (last_seq_num_ (fd_streamer f))) with (length frames)
    by (unfold frames; rewrite length_take; lia).
  apply on_replay_synced; [done| |done]. intros i d [Hi _]%lookup_take_Some.
  by eapply datagram_is_frame.
Qed.

Lemma snapshot_follows f s k :
  follows f s → synced tickers us k (cl_view s) →
  ∃ f' s', sub_exec SSnapshot (f, s) = Ok (f', s') ∧ follows f' s' ∧
    synced tickers us (Z.to_nat (last_seq_num_ (fd_streamer f))) (cl_view s').
Proof.
  intros Hf (_ & _ & Hbooks). apply ask_follows; [done|]. rewrite cl_snapshot_view. pose proof Hf as [(snaps & F & D & Hinv) Hin _].
  unfold handleClient. change (char_S =? char_S) with true. cbn iota.
  eapply served_snapshot_synced; [done..| |lia]. rewrite Hbooks. apply truth_length.
Qed.

Lemma sub_step f s op :
  follows f s → ∃ f' s', sub_exec op (f, s) = Ok (f', s') ∧ follows f' s'.
Proof.
  intros Hf.
  assert (Hb : ∀ fop, (∀ u, fop = FEngine u → us !! length (fd_input f) = Some u) →
    ∃ f' s', beside fop (f, s) = Ok (f', s') ∧ follows f' s').
  { intros fop Hfop. destruct (feed_op_follows f s fop Hf Hfop) as (f' & He & Hf').
    unfold beside. cbn [fst snd]. rewrite He. eauto. }
  pose proof (fw_synced _ _ Hf) as [k Hs].
  destruct op as [| | |request|i| |].
  - simpl. destruct (us !! length (fd_input f)) as [u|] eqn:Hu; [|eauto]. apply Hb. by intros u' [= <-].
  - by apply Hb.
  - by apply Hb.
  - by apply Hb.
  - simpl. destruct (datagrams (fd_publisher f) !! i) as [d|] eqn:Hd; [|eauto].
    eexists f, _. split; [done|]. pose proof (datagram_is_frame f s i d Hf Hd) as Hframe.
    destruct Hf as [Hinv Hin _]. split; [done|done|]. eexists. rewrite cl_datagram_view. by eapply on_datagram_synced.
  - destruct (replay_follows f s k Hf Hs) as (f' & s' & ? & ? & _). eauto.
  - destruct (snapshot_follows f s k Hf Hs) as (f' & s' & ? & ? & _). eauto.
Qed.

Lemma sub_run_follows ops f s :
  follows f s → ∃ f' s', sub_run ops (f, s) = Ok (f', s') ∧ follows f' s'.
Proof.
  revert f s. induction ops as [|op ops IH]; intros f s Hf; [by exists f, s|]. cbn [sub_run].
  destruct (sub_step f s op Hf) as (f' & s' & -> & Hf'). by apply IH.
Qed.

Lemma sub_new_follows u s c :
  queued u = [] → queued s = [] → cl_fresh tickers c → follows (sub_new u s c).1 (sub_new u s c).2.
Proof.
  intros Hu Hs Hc. split; simpl.
  - exists [], 0%nat, 0%nat. by apply feed_new_inv.
  - apply prefix_nil.
  - exists 0%nat. rewrite Hc. split_and!; simpl; [lia|done|done].
Qed.

(** What a client has after any run, and what its next request would give it. *)
Lemma sub_run_in_sync u s c ops :
  queued u = [] → queued s = [] → cl_fresh tickers c →
  ∃ f c', sub_run ops (sub_new u s c) = Ok (f, c') ∧ fd_input f `prefix_of` us ∧
    let k := Z.to_nat (sb_seq (cl_view c')) in
    let last := Z.to_nat (last_seq_num_ (fd_streamer f)) in
    synced tickers us k (cl_view c') ∧
    (∃ f1 c1, sub_exec SSnapshot (f, c') = Ok (f1, c1) ∧ synced tickers us last (cl_view c1)) ∧
    (∃ f1 c1, sub_exec SReplay (f, c') = Ok (f1, c1) ∧
       synced tickers us (after_replay last k) (cl_view c1)).
Proof.
  intros Hu Hs Hc. destruct (sub_run_follows ops _ _ (sub_new_follows u s c Hu Hs Hc)) as (f & c' & Hrun & Hf).
  exists f, c'. split; [exact Hrun|]. split; [apply Hf|]. destruct (fw_synced _ _ Hf) as [k Hk].
  pose proof Hk as (_ & -> & _). rewrite Nat2Z.id. split; [done|].
  destruct (snapshot_follows f c' k Hf Hk) as (f1 & c1 & ? & _ & ?).
  destruct (replay_follows f c' k Hf Hk) as (f2 & c2 & ? & _ & ?). eauto 10.
Qed.
End follow.

(** ** The updates of an engine *)

Section market.
Context {P : Type} `{ObjectPool P} `{!ObjectPoolLaws P} (freed_node : PriceLevel → PriceLevel).
Context {U S : Type} `{SPSCQueueLaws MEMarketUpdate U} `{SPSCQueueLaws SnapshotUpdate S}.
Context `{ByteSwap} `{!ByteSwapLaws} `{ItchWire} `{!ItchWireLaws} `{ItchReader} `{!ItchReaderLaws}.
Context `{HashIteration} `{!HashIterationLaws} {C : Type} `{FeedClient C} `{!FeedClientLaws C}.
Context (pub_nanos str_nanos : nat → Z).

(** A session a client can follow: requests the engine accepts, from the wire, of
    which none cancels in part or replaces into a trade. *)
Record session_ok (books n : nat) (rqs : list MEClientRequest) : Prop := {
  se_ready : run_ready (λ _, True) books n rqs;
  se_wire : Forall wire_request rqs;
  se_told : told_run MapBook rqs (s_engine_new books);
  se_length : Z.of_nat (REQUEST_MESSAGES * length rqs) + 1 < 2 ^ 64;
  se_tickers : Z.of_nat books ≤ 2 ^ 16
}.

Definition session_updates (books : nat) (rqs : list MEClientRequest) : list MEMarketUpdate :=
  updates (sent_by (s_run MapBook rqs (s_engine_new books))).

Lemma session_source books n rqs :
  session_ok books n rqs → feed_source books (session_updates books rqs).
Proof.
  intros [(Hrq & Hnd & Hload) Hw Htold Hlen _].
  assert (Hlen1 : Z.of_nat (length rqs) + 1 < 2 ^ 64) by (unfold REQUEST_MESSAGES in Hlen; lia).
  split.
  - destruct (run_wire MapBook rqs books Hw) as [_ [_ Hev]]. apply Forall_forall. intros u Hu.
    rewrite Forall_forall in Hev. by apply (Hev (Upd u)), elem_of_updates.
  - apply run_updates; [apply length_replicate|constructor].
  - apply (new_run_shadows MapBook books n rqs); try done.
    by eapply run_ready_qty.
  - pose proof (new_run_messages MapBook rqs books).
    pose proof (updates_length (sent_by (s_run MapBook rqs (s_engine_new books)))).
    unfold session_updates. lia.
Qed.

(** The market of the engine's books: for every ticker exactly the market order
    ids resting there, each with its side, price and remaining quantity. *)
Definition shows_books {L : Type} (vs : list market_view) (e : engine (book P L)) : Prop :=
  ∀ t b, ticker_order_book_ e !! t = Some b →
    ∃ v, vs !! t = Some v ∧
      ∀ id w, v !! id = Some w ↔
        ∃ l o, objects b !! l = Some o ∧ o_marketOrderId_ o = id ∧ order_view o = w.

(** C10: Following the engine's feed.  The map engine processes the requests of
    a session, the publisher and the streamer handle its updates and recovery
    clients are served in any interleaving, and any client that keeps to the
    README's protocol gets datagrams that the network loses, repeats or reorders
    at will, and answers to its own requests.  The session names listed tickers
    (at most 65536), prices and quantities of 32 bits, tokens of 14 characters,
    fresh order ids, at most as many NEW requests per ticker, over the whole
    run, as its pool has slots and too few messages for a 64-bit counter to
    wrap, and no request of it cancels a part of an order or replaces one at a
    price that crosses the other side; a destroyed map node whose head was null
    is assumed to still read as null.  Then nothing faults; at every moment the
    client's books are exactly the market after the engine's first updates, as
    many as its sequence number; a snapshot brings it to the streamer's last
    sequence number from anywhere, and a replay does so when the gap fits the
    ring and changes nothing otherwise; and at the last sequence number the
    client has for every ticker exactly the orders resting in the engine's
    memory. *)
Theorem subscriber_in_sync (books n : nat) (rqs : list MEClientRequest) (u : U) (s : S) (c : C)
    (ops : list sub_op) :
  (∀ l, pl_head l = None → pl_head (freed_node l) = None) →
  session_ok books n rqs → queued u = [] → queued s = [] → cl_fresh books c →
  let us := session_updates books rqs in
  ∃ e f c',
    run_requests (H := map_order_book (P := P) freed_node) rqs
      (engine_new (H := map_order_book freed_node) books n) = Ok e ∧
    updates (sent (engine_state e)) = us ∧
    sub_run pub_nanos str_nanos us ops (sub_new books u s c) = Ok (f, c') ∧
    fd_input f `prefix_of` us ∧
    let k := Z.to_nat (sb_seq (cl_view c')) in
    let last := Z.to_nat (last_seq_num_ (fd_streamer f)) in
    synced books us k (cl_view c') ∧
    (∃ f1 c1, sub_exec pub_nanos str_nanos us SSnapshot (f, c') = Ok (f1, c1) ∧
       synced books us last (cl_view c1)) ∧
    (∃ f1 c1, sub_exec pub_nanos str_nanos us SReplay (f, c') = Ok (f1, c1) ∧
       synced books us (after_replay last k) (cl_view c1)) ∧
    (k = length us → shows_books (sb_books (cl_view c')) e).
Proof.
  intros Hnull Hse Hu Hs Hc us. pose proof (session_source books n rqs Hse) as Hsrc. destruct Hse as [Hr _ Ht Hl Htk].
  destruct (run_shows_market freed_node books n rqs Hnull Hr) as (e & Hrun & Hst & Hbooks);
    [unfold REQUEST_MESSAGES in Hl; lia|done|].
  assert (Hus : updates (sent (engine_state e)) = us) by (by rewrite Hst).
  destruct (sub_run_in_sync pub_nanos str_nanos books us Hsrc Htk u s c ops Hu Hs Hc)
    as (f & c' & Hsub & Hin & Hk & Hsnap & Hrep).
  exists e, f, c'. do 4 (split; [done|]). split; [exact Hk|]. split; [exact Hsnap|]. split; [exact Hrep|].
  intros Hend t b Hb. destruct Hk as (_ & _ & Hv).
  destruct (Hbooks t b Hb) as (orders & Ho & Hshow). exists (shadow_view orders). split; [|done].
  rewrite Hv. unfold truth. rewrite take_ge by lia. rewrite Hus in Ho.
  change (replicate books ∅) with (replicate books (shadow_view ∅)).
  by rewrite <- fmap_replicate, <- shadow_views_foldl, list_lookup_fmap, Ho.
Qed.
End market.

(** ** A concrete run

    The session of [FeedTruth] with a lossy network: the second datagram is lost,
    the third arrives early, the first twice; a replay fills the gap, and after
    two more updates are lost a snapshot does. *)

Definition round_ops : list sub_op := [SEngine; SPublisher; SPublisher; SStreamer].

Definition demo_follow : list sub_op :=
  round_ops ++ [SDatagram 0] ++ round_ops ++ round_ops ++ [SDatagram 2; SDatagram 0; SReplay] ++
  round_ops ++ round_ops ++ [SSnapshot].

Lemma true_session_ok : session_ok 1 8 true_session.
Proof.
  split; [apply true_session_ready| |apply true_session_told|vm_compute; reflexivity|vm_compute; discriminate].
  repeat (apply Forall_cons; split); [..|constructor]; unfold wire_request, word32; simpl;
    (split_and!; done || lia).
Qed.

(** What the client and the streamer have: how often the client was called, the
    sequence numbers and the books. *)
Definition shows (o : outcome (demo_feed * (nat * subscriber)))
    : option (nat * Z * Z * list (list (OrderId * view))) :=
  match o with
  | Ok (f, c) => Some (c.1, sb_seq c.2, last_seq_num_ (fd_streamer f), map_to_list <$> sb_books c.2)
  | Fault _ => None
  end.

Definition demo_follow_run : outcome (demo_feed * (nat * subscriber)) :=
  sub_run (H5 := packed_itch) (H9 := list_iteration) (H11 := counting_client (H0 := read_packed))
    demo_nanos demo_nanos (session_updates 1 true_session) demo_follow
    (sub_new 1 (ListQueue 4 []) (ListQueue 4 []) (0%nat, Sub 0 [∅])).

Strategy expand [demo_follow_run].

Lemma subscriber_in_sync_witness :
  ∃ e f c,
    run_requests (H := map_order_book (P := SetPool.t) id) true_session
      (engine_new (H := map_order_book id) 1 8) = Ok e ∧
    demo_follow_run = Ok (f, c) ∧ c.1 = 5%nat ∧ sb_seq c.2 = 5 ∧
    map_to_list <$> sb_books c.2 = [[(4, (SELL, 107, 6))]] ∧ shows_books (sb_books c.2) e.
Proof.
  destruct (subscriber_in_sync (P := SetPool.t) id (H1 := list_queue_laws _) (H3 := list_queue_laws _)
    (H7 := packed_itch_laws) (H9 := read_packed_laws) (H11 := list_iteration_laws)
    (H12 := counting_client) (FeedClientLaws0 := counting_client_laws) demo_nanos demo_nanos
    1 8 true_session (ListQueue 4 []) (ListQueue 4 []) (0%nat, Sub 0 [∅]) demo_follow (λ l Hl, Hl)
    true_session_ok eq_refl eq_refl eq_refl) as (e & f & c & Hrun & _ & Hsub & _ & _ & _ & _ & Hmarket).
  assert (Hshow : shows demo_follow_run = Some (5%nat, 5, 5, [[(4, (SELL, 107, 6))]])) by (vm_compute; reflexivity).
  unfold demo_follow_run in Hshow. rewrite Hsub in Hshow. injection Hshow as Hcount Hseq Hlast Hbooks.
  exists e, f, c. split; [exact Hrun|]. split; [exact Hsub|]. split; [exact Hcount|]. split; [exact Hseq|].
  split; [exact Hbooks|]. apply Hmarket. simpl. rewrite Hseq. vm_compute. reflexivity.
Defined.
