(* ===== verification/Stall.v ===== *)
(** * Stall: what a slow recovery client costs

    The streamer thread drains the publisher's updates and serves the recovery
    clients in turn.  While it serves, the queue between publisher and streamer
    fills; once it is full the publisher waits in [pushBlocking], and once the
    engine's queue is full too, so does the engine.  The deadlines of
    [src/src/network/market/snapshot_stream.h] hold per system call and not per
    client: a client that takes some bytes before each deadline is not dropped. *)

From S2P Require Import Prelude Types Queue Wire Itch Publisher Streamer FeedFacts MarketData Sockets.
Import Itch.

(** ** The queues bound what the feed can do without the streamer *)

Section held.
Context {U S : Type} `{SPSCQueueLaws MEMarketUpdate U} `{SPSCQueueLaws SnapshotUpdate S}.
Context `{ByteSwap} `{ItchWire} `{!ItchWireLaws} `{HashIteration} (pub_nanos str_nanos : nat → Z).

Abbreviation feed_exec := (feed_exec pub_nanos str_nanos).
Abbreviation feed_run := (feed_run pub_nanos str_nanos).

Definition within {A Q} `{SPSCQueueLaws A Q} (n : nat) (q : Q) : Prop :=
  capacity q = n ∧ (length (queued q) ≤ n)%nat.

Lemma push_within {A Q} `{SPSCQueueLaws A Q} n a (q : Q) : within n q → within n (push a q).2.
Proof.
  intros [Hc Hl]. destruct (decide (length (queued q) < capacity q)%nat) as [Hlt|Hge].
  - destruct (push_room a q Hlt) as (q' & -> & Hq & Hc'). split; simpl; [congruence|].
    rewrite Hq, length_app. simpl. lia.
  - rewrite push_full by lia. by split.
Qed.

Lemma pop_within {A Q} `{SPSCQueueLaws A Q} n (q : Q) : within n q → within n (updateNextRead q).
Proof.
  intros [Hc Hl]. split; [by rewrite pop_capacity|]. rewrite pop_queued.
  destruct (queued q); simpl in *; lia.
Qed.

Definition bounded (cu cs : nat) (f : feed U S) : Prop :=
  within cu (marketUpdates_ (fd_publisher f)) ∧ within cs (fd_updates f).

Lemma exec_bounded cu cs op f f' : bounded cu cs f → feed_exec op f = Ok f' → bounded cu cs f'.
Proof.
  intros [Hu Hs]. unfold FeedFacts.feed_exec. destruct op as [u| | |request].
  - pose proof (push_within cu u _ Hu) as Hp. destruct (push u _) as [[] q]; by intros [= <-].
  - unfold run_step. destruct (blocked (fd_publisher f)) as [s|].
    + pose proof (push_within cs s _ Hs) as Hp. destruct (push s _) as [[] q]; intros [= <-]; [|done].
      split; [by apply pop_within|done].
    + destruct (getNextRead _) as [u|]; [|by intros [= <-]].
      destruct (encode _ _); intros [= <-]; [done|]. split; [by apply pop_within|done].
  - unfold drain_one, applyToBook, mbind, M_bind, get, modify, raise, mret, M_ret.
    destruct (getNextRead _) as [snap|]; [|by intros [= <-]].
    destruct (on_feed _); [destruct (shadow_book_ _ !! _); [|done]|]; intros [= <-]; split; try done;
      by apply pop_within.
  - destruct (handleClient _ _ _). by intros [= <-].
Qed.

(** The streamer's sequence number only moves when it drains. *)
Lemma exec_held op f f' :
  op ≠ FStreamer → feed_exec op f = Ok f' → last_seq_num_ (fd_streamer f') = last_seq_num_ (fd_streamer f).
Proof.
  unfold FeedFacts.feed_exec. destruct op as [u| | |request]; intros Hop; [| |done|].
  - by destruct (push _ _) as [[] q]; intros [= <-].
  - by destruct (run_step _ _ _); intros [= <-].
  - unfold handleClient, serveSnapshot. repeat case_match; by intros [= <-]; simplify_eq.
Qed.

Lemma run_held cu cs ops f f' :
  bounded cu cs f → feed_run ops f = Ok f' →
  bounded cu cs f' ∧ (FStreamer ∉ ops → last_seq_num_ (fd_streamer f') = last_seq_num_ (fd_streamer f)).
Proof.
  revert f. induction ops as [|op ops IH]; intros f Hb; simpl; [by intros [= <-]|].
  destruct (feed_exec op f) as [f1|] eqn:He; [|done]. intros Hrun.
  destruct (IH f1 (exec_bounded _ _ _ _ _ Hb He) Hrun) as [Hb' Hl]. split; [done|].
  intros Hni. apply not_elem_of_cons in Hni as [Hop Hni]. rewrite (Hl Hni). by apply (exec_held op).
Qed.

(** With both queues bounded, publisher and engine are at most so far ahead. *)
Lemma ahead_of_streamer cu cs tickers f snaps F D :
  feed_inv str_nanos tickers f snaps F D → bounded cu cs f →
  Z.of_nat (length (datagrams (fd_publisher f))) ≤ last_seq_num_ (fd_streamer f) + Z.of_nat cs + 1 ∧
  Z.of_nat (length (fd_input f)) ≤ last_seq_num_ (fd_streamer f) + Z.of_nat cs + Z.of_nat cu.
Proof.
  intros Hinv [[_ Hu] [_ Hs]].
  rewrite (fi_market _ _ _ _ _ _ Hinv), length_drop in Hu.
  rewrite (fi_queue _ _ _ _ _ _ Hinv), length_drop, length_take in Hs.
  rewrite (so_last _ _ _ _ (fi_stream _ _ _ _ _ _ Hinv)), length_take.
  rewrite (fi_datagrams _ _ _ _ _ _ Hinv), length_fmap.
  pose proof (fi_finished _ _ _ _ _ _ Hinv) as HF. pose proof (fi_drained _ _ _ _ _ _ Hinv) as HD.
  pose proof (fi_le _ _ _ _ _ _ Hinv). destruct (blocked (fd_publisher f)) as [s|];
    [destruct HF as [_ HF]|]; lia.
Qed.
End held.

(** ** A client that takes one byte before each deadline *)

Record trickle := Trickle { tr_in : list Z; tr_out : list Z }.

#[global] Instance trickle_socket : StreamSocket trickle := {|
  sys_send bytes t := (Z.of_nat (length (take 1 bytes)), Trickle (tr_in t) (tr_out t ++ take 1 bytes));
  sys_recv size t :=
    (Z.of_nat (length (take size (tr_in t))), take size (tr_in t), Trickle (drop size (tr_in t)) (tr_out t));
  sys_ms c t := match c with SysSend _ => TCP_SND_TIMEOUT_MS | SysRecv _ => 0%nat end
|}.

#[global] Program Instance trickle_laws : StreamSocketLaws trickle := {| sent := tr_out; incoming := tr_in |}.
Next Obligation.
  intros bytes t n f' _. simpl. intros [= <- <-]. destruct bytes as [|b bytes]; simpl; [done|].
  split_and!; [lia|done|done].
Qed.
Next Obligation.
  intros size t n bs f' _. simpl. intros [= <- <- <-]. rewrite Nat2Z.id, length_take. simpl.
  split_and!; [lia|done| |done]. by rewrite take_drop.
Qed.
Next Obligation. done. Qed.
Next Obligation. simpl. lia. Qed.

Lemma trickle_sendAll data ins out calls ms :
  sendAll data (Fd (Trickle ins out) calls ms) =
  Ok (true, Fd (Trickle ins (out ++ data)) (calls + length data) (ms + TCP_SND_TIMEOUT_MS * length data)).
Proof.
  unfold sendAll. revert out calls ms. induction data as [|b data IH]; intros out calls ms.
  { simpl. rewrite app_nil_r, !Nat.add_0_r. done. }
  rewrite (loop_continue _ _ _ data _ (Fd (Trickle ins (out ++ [b])) (S calls) (ms + TCP_SND_TIMEOUT_MS))).
  - rewrite IH, <- app_assoc. cbn [length app].
    do 3 f_equal; lia.
  - done.
Qed.

Section slow.
Context {U S : Type} `{SPSCQueueLaws MEMarketUpdate U} `{SPSCQueueLaws SnapshotUpdate S}.
Context `{ByteSwap} `{!ByteSwapLaws} `{ItchWire} `{!ItchWireLaws} `{HashIteration} (pub_nanos str_nanos : nat → Z).

(** A request for a snapshot on such a connection. *)
Definition slow_client : fd trickle := Fd (Trickle [char_S] []) 0 0.

Lemma slow_client_served st :
  ∃ buf, (serveSnapshot str_nanos st).2 = [buf] ∧
    handleClient_tcp str_nanos (st, slow_client) =
      Ok (tt, ((serveSnapshot str_nanos st).1,
               Fd (Trickle [] buf) (1 + length buf) (TCP_SND_TIMEOUT_MS * length buf))).
Proof.
  exists (snapshot_buf_ (serveSnapshot str_nanos st).1). split; [done|]. unfold handleClient_tcp.
  rewrite (bind_ok _ _ _ (Some [char_S]) (st, Fd (Trickle [] []) 1 0)) by done.
  change (char_S =? char_S) with true. cbn iota. unfold serveSnapshot_tcp.
  mgo st (st, Fd (Trickle [] []) 1 0). cbn [fst snd].
  set (st' := (serveSnapshot str_nanos st).1).
  rewrite (bind_ok _ _ _ tt (st', Fd (Trickle [] []) 1 0)).
  2: { unfold st', serveSnapshot, when. by destruct (_ || _). }
  mgo (snapshot_buf_ st') (st', Fd (Trickle [] []) 1 0).
  unfold on_fd. rewrite (bind_ok _ _ _ true (st',
    Fd (Trickle [] (snapshot_buf_ st')) (1 + length (snapshot_buf_ st'))
       (TCP_SND_TIMEOUT_MS * length (snapshot_buf_ st')))); [done|].
  cbn [fst snd]. by rewrite trickle_sendAll.
Qed.

Lemma feed_run_app ops1 ops2 (f f' : feed U S) :
  feed_run pub_nanos str_nanos (ops1 ++ ops2) f = Ok f' →
  ∃ f1, feed_run pub_nanos str_nanos ops1 f = Ok f1 ∧ feed_run pub_nanos str_nanos ops2 f1 = Ok f'.
Proof.
  revert f. induction ops1 as [|op ops1 IH]; intros f; simpl; [by eauto|].
  destruct (feed_exec pub_nanos str_nanos op f) as [f1|]; [apply IH|done].
Qed.

(** Every frame of a snapshot is a message. *)
Lemma render_length_frames fs n :
  Forall (λ f, ∀ ns, is_Some (f ns)) fs → (length fs ≤ length (render str_nanos fs n))%nat.
Proof.
  intros Hfs. revert n. induction Hfs as [|f fs Hf _ IH]; intros n; simpl; [done|].
  destruct (Hf (str_nanos n)) as [m ->]. simpl. rewrite length_app. pose proof (itch_nonempty m).
  specialize (IH (Datatypes.S n)). destruct (itch_bytes m); simpl; [done|lia].
Qed.

Lemma snapshot_frames_some books last : Forall (λ f, ∀ ns, is_Some (f ns)) (snapshot_frames books last).
Proof.
  unfold snapshot_frames. repeat apply Forall_app_2; [by repeat constructor; eexists| |by repeat constructor; eexists].
  apply Forall_concat, Forall_lookup. intros t fs. rewrite list_lookup_imap.
  destruct (books !! t); simpl; [|done]. intros [= <-]. constructor; [by eexists|].
  apply Forall_fmap, Forall_true. intros o ns. by apply encode_on_feed.
Qed.

Lemma snapshot_frames_length books last : (2 + length books ≤ length (snapshot_frames books last))%nat.
Proof.
  assert (Hc : ∀ (g : nat → gmap OrderId MEMarketUpdate → list (Z → option itch_msg)),
    (∀ t m, g t m ≠ []) → (length books ≤ length (concat (imap g books)))%nat).
  { induction books as [|m books IH]; intros g Hg; simpl; [done|]. rewrite length_app.
    specialize (IH (g ∘ Datatypes.S) (λ t m, Hg _ m)). specialize (Hg 0%nat m).
    destruct (g 0%nat m); simpl; [done|lia]. }
  unfold snapshot_frames. rewrite !length_app. cbn [length]. etrans; [|apply Nat.add_le_mono_l, Nat.add_le_mono_r, Hc];
    [lia|done].
Qed.

(** C32: A recovery client that takes one byte before each send deadline is
    never dropped: it is given the whole snapshot and holds the streamer thread
    for [TCP_SND_TIMEOUT_MS] per byte of it.  And while the streamer does not
    drain, the feed stops: whatever engine, publisher and clients do, at most
    one datagram more than the streamer's queue has room for goes out, and the
    engine gets rid of no more updates than both queues have room for.  This
    holds after any run in which the engine sends updates of listed tickers and
    of the kinds the feed carries, too few for a 64-bit counter to wrap. *)
Theorem slow_client_stalls_feed (u : U) (s : S) (tickers : nat) (ops held : list feed_op) :
  queued u = [] → queued s = [] → feed_ready tickers (ops ++ held) → FStreamer ∉ held →
  ∃ f f' st buf calls,
    feed_run pub_nanos str_nanos ops (feed_new u s tickers) = Ok f ∧
    handleClient_tcp str_nanos (fd_streamer f, slow_client) =
      Ok (tt, (st, Fd (Trickle [] buf) calls (TCP_SND_TIMEOUT_MS * length buf))) ∧
    (handleClient str_nanos [char_S] (fd_streamer f)).2 = [buf] ∧ (2 + tickers ≤ length buf)%nat ∧
    feed_run pub_nanos str_nanos held f = Ok f' ∧
    let last := last_seq_num_ (fd_streamer f) in
    Z.of_nat (length (datagrams (fd_publisher f'))) ≤ last + Z.of_nat (capacity s) + 1 ∧
    Z.of_nat (length (fd_input f')) ≤ last + Z.of_nat (capacity s) + Z.of_nat (capacity u).
Proof.
  intros Hu Hs Hready Hheld.
  destruct (feed_start pub_nanos str_nanos u s tickers _ Hu Hs Hready) as (f' & snaps & F & D & Hrun & Hinv).
  assert (Hnew : bounded (capacity u) (capacity s) (feed_new u s tickers)).
  { split; split; try done; simpl; rewrite ?Hu, ?Hs; simpl; lia. }
  destruct (run_held pub_nanos str_nanos _ _ _ _ _ Hnew Hrun) as [Hb _].
  destruct (feed_run_app _ _ _ _ Hrun) as (f & Hrun1 & Hrun2).
  destruct (run_held pub_nanos str_nanos _ _ _ _ _ Hnew Hrun1) as [Hb1 _].
  destruct (run_held pub_nanos str_nanos _ _ _ _ _ Hb1 Hrun2) as [_ Hl]. specialize (Hl Hheld).
  destruct (slow_client_served (fd_streamer f)) as (buf & Hans & Hserve).
  eexists f, f', _, buf, _. split; [done|]. split; [exact Hserve|].
  split; [unfold handleClient; by change (char_S =? char_S) with true|].
  split; [|split; [done|rewrite <- Hl; by eapply ahead_of_streamer]].
  destruct (feed_start pub_nanos str_nanos u s tickers ops Hu Hs) as (f1 & snaps1 & F1 & D1 & Hrun1' & Hinv1).
  { destruct Hready as [Hlen Hops]. rewrite length_app in Hlen. split; [lia|]. intros w Hw. apply Hops.
    apply elem_of_app. by left. }
  assert (f1 = f) as -> by congruence. pose proof (fi_stream _ _ _ _ _ _ Hinv1) as Hst.
  pose proof (serveSnapshot_ok str_nanos tickers _ _ Hst) as Hok.
  destruct (serveSnapshot str_nanos (fd_streamer f)) as [st' ans]. destruct Hok as (_ & n & ->).
  assert (buf = render str_nanos (snapshot_frames (shadow_book_ (fd_streamer f))
    (last_seq_num_ (fd_streamer f))) n) as -> by (cbn [snd] in Hans; congruence).
  etrans; [|apply render_length_frames, snapshot_frames_some].
  etrans; [|apply snapshot_frames_length]. by rewrite (so_books _ _ _ _ Hst), books_after_length, length_replicate.
Qed.
End slow.

(** After the run of [MarketData] the engine keeps adding orders while the slow
    client is served: one more datagram than the queue of four holds goes out. *)
Definition demo_held : list feed_op :=
  concat ((λ k, [FEngine (demo_update UPD_ADD (100 + Z.of_nat k) 1); FPublisher; FPublisher]) <$> seq 0 20).

Lemma demo_held_ready : feed_ready 1 (demo_feed_ops ++ demo_held).
Proof.
  split; [vm_compute; reflexivity|]. intros u Hu. apply elem_of_app in Hu as [Hu|Hu].
  - by apply (proj2 demo_feed_ready).
  - unfold demo_held in Hu. apply list_elem_of_In, in_concat in Hu as (l & Hl & Hu).
    apply list_elem_of_In, list_elem_of_fmap in Hl as (k & -> & _).
    simpl in Hu.
    destruct Hu as [Hu|[?|[?|[]]]]; [|done..]. injection Hu as <-. split; [done|]. simpl. lia.
Qed.

(** Sequence number of the streamer, datagrams sent and updates accepted. *)
Definition feed_shows (o : outcome demo_feed) : option (Z * nat * nat) :=
  match o with
  | Ok f => Some (last_seq_num_ (fd_streamer f), length (datagrams (fd_publisher f)), length (fd_input f))
  | Fault _ => None
  end.

Abbreviation demo_run := (feed_run (H3 := list_iteration) demo_nanos demo_nanos).

Lemma slow_client_stalls_feed_witness :
  ∃ (f f' : demo_feed) st buf calls,
    demo_run demo_feed_ops demo_feed_start = Ok f ∧ demo_run demo_held f = Ok f' ∧
    feed_shows (Ok f) = Some (2, 3%nat, 3%nat) ∧ feed_shows (Ok f') = Some (2, 7%nat, 10%nat) ∧
    handleClient_tcp (H2 := list_iteration) demo_nanos (fd_streamer f, slow_client) =
      Ok (tt, (st, Fd (Trickle [] buf) calls (TCP_SND_TIMEOUT_MS * length buf)%nat)) ∧
    (3 ≤ length buf)%nat.
Proof.
  destruct (slow_client_stalls_feed (H0 := list_queue_laws _) (H2 := list_queue_laws _)
    (H7 := list_iteration) demo_nanos demo_nanos (ListQueue 4 []) (ListQueue 4 []) 1 demo_feed_ops demo_held
    eq_refl eq_refl demo_held_ready) as (f & f' & st & buf & calls & Hrun & Hserve & _ & Hbuf & Hheld & _).
  { intros Hin. apply list_elem_of_In in Hin. vm_compute in Hin.
    repeat (destruct Hin as [Hin|Hin]; [discriminate Hin|]). exact Hin. }
  exists f, f', st, buf, calls. split; [exact Hrun|]. split; [exact Hheld|].
  split; [rewrite <- Hrun; vm_compute; reflexivity|].
  split; [|split; [exact Hserve|exact Hbuf]].
  rewrite <- Hheld. clear - Hrun.
  assert (Hall : match demo_run demo_feed_ops demo_feed_start with
                 | Ok f => feed_shows (demo_run demo_held f) | Fault _ => None end =
                 Some (2, 7%nat, 10%nat)) by (vm_compute; reflexivity).
  change (feed_run (H3 := list_iteration) demo_nanos demo_nanos demo_feed_ops
    (feed_new (ListQueue 4 []) (ListQueue 4 []) 1)) with (demo_run demo_feed_ops demo_feed_start) in Hrun.
  rewrite Hrun in Hall. exact Hall.
Defined.
