(* ===== verification/Placement.v ===== *)
(** * Placement: the table of threads [main] prints

    [readFile] and [printThreadPlacement] of [src/src/main.cpp]: for every thread
    of the process the processor it ran on last, taken from the 39th field of its
    [stat] file, the core of that processor and the processors it may use.

    The file system is a parameter, [FileSystem]: the contents of the files that
    can be opened.  The names of the threads in [/proc/self/task] come in an
    unspecified order and are an argument.  An exception of [std::string::substr]
    is [Fault OutOfRange]; nothing catches it, so it ends the process. *)

From Stdlib Require Import Ascii String.
From stdpp Require Import strings.
From S2P Require Import Prelude Startup.

Local Open Scope nat_scope.

(** ** Strings as the standard library has them *)

Abbreviation text := (list ascii).
Definition txt (s : string) : text := list_ascii_of_string s.

Class FileSystem := contents : text → option text.

(** A file that cannot be opened reads as empty. *)
Definition readFile `{FileSystem} (path : text) : text := default [] (contents path).

(** [s.rfind(c)]; [None] is [npos]. *)
Fixpoint rfind (c : ascii) (s : text) : option nat :=
  match s with
  | [] => None
  | a :: s' =>
      match rfind c s' with
      | Some i => Some (S i)
      | None => if Ascii.eqb a c then Some 0 else None
      end
  end.

(** The index as a [size_t]. *)
Definition npos : Z := 2 ^ 64 - 1.
Definition size_of (i : option nat) : Z := from_option Z.of_nat npos i.

(** [s.substr(pos)] throws [std::out_of_range] behind the end. *)
Definition substr (pos : Z) (s : text) : outcome text :=
  if (Z.of_nat (length s) <? pos)%Z then Fault OutOfRange else Ok (drop (Z.to_nat pos) s).

(** [while (iss >> tok) f.push_back(tok)]; [word] is the token being read. *)
Fixpoint split_words (word s : text) : list text :=
  match s with
  | [] => match word with [] => [] | _ => [word] end
  | a :: s' =>
      if is_space a then match word with [] => split_words [] s' | _ => word :: split_words [] s' end
      else split_words (word ++ [a]) s'
  end.

Definition words (s : text) : list text := split_words [] s.

(** [iss >> w]: without a word [w] keeps its value. *)
Definition first_word (w : text) (s : text) : text := default w (head (words s)).

(** The lines [std::getline] reads; text behind the last newline is a line. *)
Fixpoint split_lines (line s : text) : list text :=
  match s with
  | [] => match line with [] => [] | _ => [line] end
  | a :: s' =>
      if Ascii.eqb a "010" then line :: split_lines [] s' else split_lines (line ++ [a]) s'
  end.

Definition lines (s : text) : list text := split_lines [] s.

(** [line.rfind(p, 0) == 0] *)
Definition starts_with (p line : text) : bool := bool_decide (take (length p) line = p).

Definition is_eol (a : ascii) : bool := Ascii.eqb a "013" || Ascii.eqb a "010".

(** The loop of [pop_back]. *)
Fixpoint chomp (s : text) : text :=
  match s with
  | [] => []
  | a :: s' => match chomp s' with [] => if is_eol a then [] else [a] | s'' => a :: s'' end
  end.

(** [std::left << std::setw(n) << s] *)
Definition setw (n : nat) (s : text) : text := s ++ replicate (n - length s) " "%char.

(** ** The table *)

Section placement.
Context `{FileSystem}.

Definition task (tid : text) (file : string) : text := txt "/proc/self/task/" ++ tid ++ txt file.

(** The fields behind the name of the thread, from field 3 on. *)
Definition stat_fields (stat : text) : outcome (list text) :=
  match substr (u64 (size_of (rfind ")" stat) + 2)) stat with
  | Ok rest => Ok (words rest)
  | Fault e => Fault e
  end.

Definition cpus_prefix : text := txt "Cpus_allowed_list:".

Fixpoint allowed_list (ls : list text) : outcome text :=
  match ls with
  | [] => Ok (txt "?")
  | line :: ls' =>
      if starts_with cpus_prefix line then
        match substr 19 line with Ok v => Ok (chomp v) | Fault e => Fault e end
      else allowed_list ls'
  end.

(** One round of the loop: the row of a thread, [None] on [continue]. *)
Definition thread_row (tid : text) : outcome (option text) :=
  match stat_fields (readFile (task tid "/stat")) with
  | Fault e => Fault e
  | Ok f =>
      match f !! 36 with
      | None => Ok None
      | Some cpu =>
          match allowed_list (lines (readFile (task tid "/status"))) with
          | Fault e => Fault e
          | Ok allowed =>
              let phys := first_word (txt "?")
                (readFile (txt "/sys/devices/system/cpu/cpu" ++ cpu ++ txt "/topology/core_id")) in
              let comm := first_word (txt "?") (readFile (task tid "/comm")) in
              Ok (Some (setw 22 comm ++ setw 8 tid ++ setw 10 cpu ++ phys ++
                        txt "   (allowed: " ++ allowed ++ txt ")" ++ ["010"%char]))
          end
      end
  end.

Fixpoint thread_rows (tids : list text) : outcome text :=
  match tids with
  | [] => Ok []
  | tid :: tids' =>
      match thread_row tid with
      | Fault e => Fault e
      | Ok row =>
          match thread_rows tids' with
          | Ok rest => Ok (default [] row ++ rest)
          | Fault e => Fault e
          end
      end
  end.

Definition table_header (pid : text) : text :=
  ["010"%char] ++ txt "── Thread placement (PID " ++ pid ++ txt ") ───────────────────" ++ ["010"%char] ++
  setw 22 (txt "THREAD") ++ setw 8 (txt "TID") ++ setw 10 (txt "CPU") ++ txt "PHYSICAL CORE" ++ ["010"%char].

Definition table_footer : text :=
  txt "───────────────────────────────────────────────────────" ++ ["010"%char; "010"%char].

Definition printThreadPlacement (pid : text) (tids : list text) : outcome text :=
  match thread_rows tids with
  | Ok rows => Ok (table_header pid ++ rows ++ table_footer)
  | Fault e => Fault e
  end.
End placement.

(** ** Reading the files the kernel writes *)

Lemma rfind_last c s1 s2 : rfind c s2 = None → rfind c (s1 ++ c :: s2) = Some (length s1).
Proof.
  intros Hs2. induction s1 as [|a s1 IH]; simpl.
  - by rewrite Hs2, Ascii.eqb_refl.
  - by rewrite IH.
Qed.

Lemma rfind_none c s : c ∉ s → rfind c s = None.
Proof.
  induction s as [|a s IH]; simpl; [done|]. intros Hc. apply not_elem_of_cons in Hc as [Ha Hs].
  rewrite (IH Hs). destruct (Ascii.eqb_spec a c); [congruence|done].
Qed.

Definition plain_word (w : text) : Prop :=
  w ≠ [] ∧ Forall (λ a, is_space a = false) w ∧ ")"%char ∉ w.

#[global] Instance plain_word_dec w : Decision (plain_word w).
Proof. unfold plain_word. solve_decision. Defined.

(** Words, each with the white space behind it. *)
Definition spaced (ws : list (text * ascii)) : text := concat ((λ w, w.1 ++ [w.2]) <$> ws).

Definition spaced_ok (ws : list (text * ascii)) : Prop :=
  Forall (λ w, plain_word w.1 ∧ is_space w.2 = true) ws.

Lemma split_word_app word w s :
  Forall (λ a, is_space a = false) w → split_words word (w ++ s) = split_words (word ++ w) s.
Proof.
  intros Hw. revert word. induction Hw as [|a w Ha _ IH]; intros word; simpl; [by rewrite app_nil_r|].
  by rewrite Ha, IH, <- app_assoc.
Qed.

Lemma words_spaced ws : spaced_ok ws → words (spaced ws) = ws.*1.
Proof.
  unfold words, spaced. induction 1 as [|[w c] ws [(Hne & Hw & _) Hc] _ IH]; simpl in *; [done|].
  rewrite <- app_assoc, split_word_app by done. simpl. rewrite Hc. destruct w; [done|]. f_equal. exact IH.
Qed.

Lemma spaced_paren ws : spaced_ok ws → ")"%char ∉ spaced ws.
Proof.
  unfold spaced. induction 1 as [|[w c] ws [(_ & _ & Hw) Hc] _ IH]; simpl in *; [apply not_elem_of_nil|].
  rewrite !elem_of_app, list_elem_of_singleton. intros [[?|<-]|?]; done.
Qed.

(** The name of a thread may contain anything, also spaces and parentheses. *)
Lemma stat_fields_ok pid name ws :
  spaced_ok ws → (Z.of_nat (length (pid ++ txt " (" ++ name ++ txt ") " ++ spaced ws)) + 2 < 2 ^ 64)%Z →
  stat_fields (pid ++ txt " (" ++ name ++ txt ") " ++ spaced ws) = Ok (ws.*1).
Proof.
  intros Hws. set (stat := pid ++ _). intros Hlen. set (pre := pid ++ txt " (" ++ name).
  assert (Hstat : stat = pre ++ ")"%char :: " "%char :: spaced ws).
  { unfold stat, pre. by rewrite <- !app_assoc. }
  assert (Hr : rfind ")" stat = Some (length pre)).
  { rewrite Hstat. apply rfind_last, rfind_none. apply not_elem_of_cons. split; [done|by apply spaced_paren]. }
  assert (Hl : length stat = length pre + 2 + length (spaced ws)).
  { rewrite Hstat, length_app. simpl. lia. }
  unfold stat_fields. rewrite Hr. change (size_of (Some (length pre))) with (Z.of_nat (length pre)).
  rewrite u64_small by lia. unfold substr.
  destruct (Z.ltb_spec (Z.of_nat (length stat)) (Z.of_nat (length pre) + 2)); [lia|].
  rewrite Hstat. replace (Z.to_nat _) with (length pre + 2) by lia.
  rewrite drop_app_add. cbn [drop]. rewrite drop_0. by rewrite words_spaced.
Qed.

(** Lines, each with its newline. *)
Definition newline : ascii := "010".
Definition in_lines (ls : list text) : text := concat ((λ l, l ++ [newline]) <$> ls).

Lemma split_line_app line l s :
  newline ∉ l → split_lines line (l ++ s) = split_lines (line ++ l) s.
Proof.
  revert line. induction l as [|a l IH]; intros line Hl; simpl; [by rewrite app_nil_r|].
  apply not_elem_of_cons in Hl as [Ha Hl].
  destruct (Ascii.eqb_spec a "010") as [->|_]; [done|]. by rewrite IH, <- app_assoc.
Qed.

Lemma lines_in_lines ls : Forall (λ l, newline ∉ l) ls → lines (in_lines ls) = ls.
Proof.
  unfold lines, in_lines. induction 1 as [|l ls Hl _ IH]; simpl; [done|].
  rewrite <- app_assoc, split_line_app by done. simpl. f_equal. exact IH.
Qed.

Lemma chomp_clean v : Forall (λ a, is_eol a = false) v → chomp v = v.
Proof. induction 1 as [|a v Ha _ IH]; simpl; [done|]. rewrite IH. destruct v; [by rewrite Ha|done]. Qed.

Lemma allowed_list_ok before v after :
  Forall (λ l, starts_with cpus_prefix l = false) before → Forall (λ a, is_eol a = false) v →
  allowed_list (before ++ (cpus_prefix ++ "009"%char :: v) :: after) = Ok v.
Proof.
  intros Hb Hv. induction Hb as [|l before Hl _ IH].
  - assert (Hsub : substr 19 (cpus_prefix ++ "009"%char :: v) = Ok v).
    { unfold substr.
      destruct (Z.ltb_spec (Z.of_nat (length (cpus_prefix ++ "009"%char :: v))) 19) as [Hlt|_].
      { rewrite length_app in Hlt. simpl in Hlt. lia. }
      change (Z.to_nat 19) with (length cpus_prefix + 1). by rewrite drop_app_add. }
    cbn [app allowed_list]. unfold starts_with. rewrite take_app_length, bool_decide_true by done.
    by rewrite Hsub, chomp_clean.
  - simpl. by rewrite Hl.
Qed.

(** ** The table is right *)

Section table.
Context `{FileSystem}.

(** What the kernel says about a thread: [ti_name] is its name, [ti_fields] the
    fields of [stat] from the third on, [ti_allowed] its processors. *)
Record thread_info := ThreadInfo {
  ti_pid : text; ti_name : text; ti_fields : list (text * ascii);
  ti_before : list text; ti_allowed : text; ti_after : list text
}.

Record described (tid : text) (t : thread_info) : Prop := {
  de_stat : contents (task tid "/stat") =
    Some (ti_pid t ++ txt " (" ++ ti_name t ++ txt ") " ++ spaced (ti_fields t));
  de_size : (Z.of_nat (length (ti_pid t ++ txt " (" ++ ti_name t ++ txt ") " ++ spaced (ti_fields t))) + 2
             < 2 ^ 64)%Z;
  de_fields : spaced_ok (ti_fields t) ∧ 37 ≤ length (ti_fields t);
  de_status : contents (task tid "/status") =
    Some (in_lines (ti_before t ++ (cpus_prefix ++ "009"%char :: ti_allowed t) :: ti_after t));
  de_lines : Forall (λ l, newline ∉ l) (ti_before t ++ (cpus_prefix ++ "009"%char :: ti_allowed t) :: ti_after t);
  de_before : Forall (λ l, starts_with cpus_prefix l = false) (ti_before t);
  de_allowed : Forall (λ a, is_eol a = false) (ti_allowed t)
}.

(** Field 39 of [stat], and the row with it. *)
Definition processor (t : thread_info) : text := default [] ((ti_fields t).*1 !! 36).

Definition core_of (cpu : text) : text :=
  first_word (txt "?") (readFile (txt "/sys/devices/system/cpu/cpu" ++ cpu ++ txt "/topology/core_id")).

Definition row_of (tid : text) (t : thread_info) : text :=
  setw 22 (first_word (txt "?") (readFile (task tid "/comm"))) ++ setw 8 tid ++ setw 10 (processor t) ++
  core_of (processor t) ++ txt "   (allowed: " ++ ti_allowed t ++ txt ")" ++ [newline].

Lemma readFile_some path s : contents path = Some s → readFile path = s.
Proof. unfold readFile. by intros ->. Qed.

Lemma thread_row_ok tid t : described tid t → thread_row tid = Ok (Some (row_of tid t)).
Proof.
  intros [Hstat Hsize [Hws Hlen] Hstatus Hlines Hbefore Hallowed]. unfold thread_row.
  rewrite (readFile_some _ _ Hstat), stat_fields_ok by done.
  unfold row_of, processor. destruct (lookup_lt_is_Some_2 ((ti_fields t).*1) 36) as [cpu Hcpu].
  { rewrite length_fmap. lia. }
  rewrite Hcpu, (readFile_some _ _ Hstatus), lines_in_lines by done. by rewrite allowed_list_ok.
Qed.

(** C31: For threads whose [stat] and [status] files are as the kernel writes
    them, with any name, spaces and parentheses included, the table has exactly
    one row per thread, in the order of the directory: its CPU column is field
    39 of [stat], the core the one of that CPU, and the allowed processors are
    the value of the first [Cpus_allowed_list] line. *)
Theorem thread_table (pid : text) (tids : list text) (infos : list thread_info) :
  Forall2 described tids infos →
  printThreadPlacement pid tids =
    Ok (table_header pid ++ concat (zip_with row_of tids infos) ++ table_footer).
Proof.
  intros Hall. unfold printThreadPlacement.
  assert (thread_rows tids = Ok (concat (zip_with row_of tids infos))) as ->; [|done].
  induction Hall as [|tid t tids infos Ht _ IH]; [done|]. cbn [thread_rows zip_with concat].
  by rewrite (thread_row_ok tid t), IH.
Qed.

(** The only fault is that of [substr]. *)
Lemma thread_row_fault tid e : thread_row tid = Fault e → e = OutOfRange.
Proof.
  assert (Hs : ∀ pos s e, substr pos s = Fault e → e = OutOfRange).
  { intros pos s e'. unfold substr. case_match; congruence. }
  assert (Ha : ∀ ls e, allowed_list ls = Fault e → e = OutOfRange).
  { induction ls as [|l ls IH]; intros e'; simpl; [done|]. destruct (starts_with _ _); [|apply IH].
    destruct (substr 19 l) eqn:He; [done|]. intros [= <-]. by eapply Hs. }
  unfold thread_row, stat_fields. destruct (substr _ _) as [rest|e'] eqn:He.
  - destruct (words rest !! 36); [|done]. destruct (allowed_list _) eqn:Hl; [done|].
    intros [= <-]. by eapply Ha.
  - intros [= <-]. by eapply Hs.
Qed.

Lemma thread_rows_fault tids tid e :
  tid ∈ tids → thread_row tid = Fault e → thread_rows tids = Fault OutOfRange.
Proof.
  intros Hin Hrow. induction tids as [|t tids IH]; [by apply elem_of_nil in Hin|]. simpl.
  destruct (thread_row t) as [row|e'] eqn:Ht; [|f_equal; by eapply thread_row_fault].
  apply elem_of_cons in Hin as [->|Hin]; [congruence|]. by rewrite IH.
Qed.

(** C40: A thread that ends after the directory was listed and before its [stat]
    file is opened ends the whole exchange: the file reads as empty, [rfind]
    returns [npos], [npos + 2] wraps around to 1, and [substr] throws an
    exception that nothing catches. *)
Theorem vanished_thread_ends_process (pid tid : text) (tids : list text) :
  tid ∈ tids → contents (task tid "/stat") = None →
  printThreadPlacement pid tids = Fault OutOfRange.
Proof.
  intros Hin Hgone. unfold printThreadPlacement.
  rewrite (thread_rows_fault tids tid OutOfRange Hin); [done|].
  unfold thread_row, readFile at 1. by rewrite Hgone.
Qed.
End table.

(** ** A process with two threads, of which one has an awkward name *)

Definition demo_fields (cpu : string) : list (text * ascii) :=
  (txt "S", " "%char) :: replicate 35 (txt "0", " "%char) ++ [(txt cpu, " "%char); (txt "0", newline)].

Definition demo_info (pid name cpu v : string) : thread_info :=
  ThreadInfo (txt pid) (txt name) (demo_fields cpu) [txt "Name: x"] (txt v) [txt "Mems_allowed_list:"].

Definition stat_file (t : thread_info) : text :=
  ti_pid t ++ txt " (" ++ ti_name t ++ txt ") " ++ spaced (ti_fields t).

Definition status_file (t : thread_info) : text :=
  in_lines (ti_before t ++ (cpus_prefix ++ "009"%char :: ti_allowed t) :: ti_after t).

Definition demo_threads : list thread_info :=
  [demo_info "17" "engine" "1" "1"; demo_info "18" "a) (b" "4" "0-3,4"].

Definition demo_files : FileSystem := λ path,
  list_to_map (M := gmap text text) (
    (demo_threads ≫= λ t,
      [(task (ti_pid t) "/stat", stat_file t); (task (ti_pid t) "/status", status_file t);
       (task (ti_pid t) "/comm", ti_name t ++ [newline])]) ++
    [(txt "/sys/devices/system/cpu/cpu4/topology/core_id", txt "2" ++ [newline])]) !! path.

Ltac decided := apply (bool_decide_unpack _); vm_compute; exact I.

Lemma demo_described :
  Forall2 (described (H := demo_files)) [txt "17"; txt "18"] demo_threads.
Proof.
  repeat constructor; try (vm_compute; reflexivity); decided.
Qed.

Lemma thread_table_witness :
  ∃ row,
    printThreadPlacement (H := demo_files) (txt "17") [txt "17"; txt "18"] =
      Ok (table_header (txt "17") ++ (row ++
          txt "a)                    18      4         2   (allowed: 0-3,4)" ++ [newline]) ++ table_footer) ∧
    row = txt "engine                17      1         ?   (allowed: 1)" ++ [newline].
Proof.
  pose proof (thread_table (H := demo_files) (txt "17") [txt "17"; txt "18"] demo_threads demo_described) as Ht.
  eexists. split; [|reflexivity]. rewrite Ht. vm_compute. reflexivity.
Defined.

(** The thread 19 is gone when its file is opened. *)
Lemma vanished_thread_ends_process_witness :
  printThreadPlacement (H := demo_files) (txt "17") [txt "17"; txt "19"; txt "18"] = Fault OutOfRange.
Proof.
  apply (vanished_thread_ends_process (H := demo_files) (txt "17") (txt "19")).
  - decided.
  - vm_compute. reflexivity.
Defined.
