(* ===== verification/World.v ===== *)
(** * World: a client of the feed beside the whole exchange

    The process of [System] on any schedule, and a client of its feed, any that
    keeps to the protocol of [Subscriber].  Any datagram ever sent may arrive at
    any moment, repeatedly or never, and so may the answer to any recovery
    request ever served, also one that was meant for somebody else or is long
    out of date. *)

From S2P Require Import Prelude Types BookSpec DList Memory StoreRep LevelMap Levels BookSpecFacts BookTime Soundness BookCore MatchingEngine Trades OrderBookMap MapRefine MapTheorems EngineMap Queue Fifo Wire TokenManager Ouch OuchFacts OrderServer ServerFacts Gateway Exchange Itch Publisher Streamer FeedFacts MarketData ShadowBook FeedTruth Messages Lifecycle System SystemInv SystemSafe Readable Subscriber Recovery PackedItch.
Import Itch.

Inductive world_op :=
  | WExchange (l : label)    (** a step of the exchange *)
  | WDatagram (k : nat)      (** datagram [k] reaches the client *)
  | WAnswer (k : nat).       (** and so does the answer to recovery request [k] *)

Definition labels (ops : list world_op) : list label :=
  omap (λ op, match op with WExchange l => Some l | _ => None end) ops.

Section world.
Context {Q R U S B : Type}.
Context `{SPSCQueueLaws MEClientRequest Q} `{SPSCQueueLaws MEClientResponse R}.
Context `{SPSCQueueLaws MEMarketUpdate U} `{SPSCQueueLaws SnapshotUpdate S}.
Context (v : variant) `{OrderBook B} `{!OrderBookLaws v B}.
Context `{StdSort} `{!StdSortLaws} `{OuchWire} `{!OuchWireLaws} `{ByteSwap} `{!ByteSwapLaws}.
Context `{ItchWire} `{!ItchWireLaws} `{ItchReader} `{!ItchReaderLaws} `{HashIteration} `{!HashIterationLaws}.
Context {C : Type} `{FeedClient C} `{!FeedClientLaws C}.
Context (epoch_nanos pub_nanos str_nanos : nat → Z) (tickers pool size : nat).

Abbreviation exchange := (exchange Q R U S B).
Abbreviation x_exec := (x_exec epoch_nanos pub_nanos str_nanos).
Abbreviation x_run := (x_run epoch_nanos pub_nanos str_nanos).
Abbreviation x_inv := (x_inv epoch_nanos str_nanos tickers pool size).

(** [w_log]: the recovery requests served, with their answers. *)
Record world := World {
  w_exchange : exchange;
  w_log : list (list Z * list (list Z));
  w_sub : C
}.

Definition asked (l : label) : list (list Z) :=
  match l with LStreamer clients => clients | _ => [] end.

Definition fresh_answers (x x' : exchange) : list (list (list Z)) :=
  drop (length (fd_answers (x_feed x))) (fd_answers (x_feed x')).

(** The client knows what was asked. *)
Definition on_answer (request answer : list Z) (s : C) : C :=
  match request with
  | c :: _ => if c =? char_S then cl_snapshot answer s
              else if c =? char_R then cl_replay answer s else s
  | [] => s
  end.

Definition w_exec (op : world_op) (w : world) : outcome world :=
  match op with
  | WExchange l =>
      match x_exec l (w_exchange w) with
      | Ok x => Ok (World x (w_log w ++ zip (asked l) (fresh_answers (w_exchange w) x)) (w_sub w))
      | Fault e => Fault e
      end
  | WDatagram k =>
      match datagrams (fd_publisher (x_feed (w_exchange w))) !! k with
      | Some d => Ok (World (w_exchange w) (w_log w) (cl_datagram d (w_sub w)))
      | None => Ok w
      end
  | WAnswer k =>
      match w_log w !! k with
      | Some (request, answer) =>
          Ok (World (w_exchange w) (w_log w) (on_answer request (concat answer) (w_sub w)))
      | None => Ok w
      end
  end.

Fixpoint w_run (ops : list world_op) (w : world) : outcome world :=
  match ops with
  | [] => Ok w
  | op :: ops' => match w_exec op w with Ok w' => w_run ops' w' | Fault e => Fault e end
  end.

Definition world_new (x : exchange) (c : C) : world := World x [] c.

(** ** What the exchange hands to the feed only grows *)

Lemma feed_exec_input op (f f' : feed U S) :
  feed_exec pub_nanos str_nanos op f = Ok f' → fd_input f `prefix_of` fd_input f'.
Proof.
  unfold feed_exec. destruct op as [u| | |request].
  - destruct (push _ _) as [[] q]; intros [= <-]; simpl; [by apply prefix_app_r|done].
  - destruct (run_step _ _ _). by intros [= <-].
  - destruct (drain_one _ _) as [[q st]|]; [|done]. by intros [= <-].
  - destruct (handleClient _ _ _). by intros [= <-].
Qed.

Lemma feed_run_input ops (f f' : feed U S) :
  feed_run pub_nanos str_nanos ops f = Ok f' → fd_input f `prefix_of` fd_input f'.
Proof.
  revert f. induction ops as [|op ops IH]; intros f; simpl; [by intros [= <-]|].
  destruct (feed_exec pub_nanos str_nanos op f) as [f1|] eqn:He; [|done].
  intros Hrun. etrans; [by eapply feed_exec_input|by apply IH].
Qed.

Lemma x_exec_input l (x x' : exchange) :
  x_exec l x = Ok x' → fd_input (x_feed x) `prefix_of` fd_input (x_feed x').
Proof.
  unfold System.x_exec. destruct l as [| |ev| | | |clients]; unfold if_running; try case_bool_decide;
    try (by intros [= <-]).
  - intros [= <-]. unfold main_step. destruct (x_main x); [done|]. by destruct (act _ _ _).
  - unfold gateway_step. destruct (x_gw_pc x) as [| | | |[|ev batch]];
      repeat (case_match; try done); by intros [= <-].
  - unfold engine_step. destruct (x_en_pc x) as [|rq [|[r|u] rest]].
    + repeat (case_match; try done); by intros [= <-].
    + by intros [= <-].
    + unfold push_response. destruct (push _ _) as [[] q]; by intros [= <-].
    + unfold push_update. destruct (push _ _) as [[] q]; intros [= <-]; simpl; [by apply prefix_app_r|done].
  - assert (Hfeed : ∀ x1, match feed_exec pub_nanos str_nanos FPublisher (x_feed x) with
      | Ok f => Ok (at_feed f (x_st_pc x) x) | Fault e => Fault e end = Ok x1 →
      fd_input (x_feed x) `prefix_of` fd_input (x_feed x1)).
    { intros x1. destruct (feed_exec _ _ _ _) as [f|] eqn:He; [|done]. intros [= <-].
      by eapply feed_exec_input. }
    unfold publisher_step. destruct (blocked (fd_publisher (x_feed x))), (run_ (x_ctl x CPublisher)); try (apply Hfeed).
    by intros [= <-].
  - unfold streamer_step. destruct (x_st_pc x).
    + case_match; by intros [= <-].
    + destruct (getNextRead _); [|by intros [= <-]].
      destruct (feed_exec _ _ _ _) as [f|] eqn:He; [|done]. intros [= <-]. by eapply feed_exec_input.
    + destruct (feed_run _ _ _ _) as [f|] eqn:He; [|done]. intros [= <-]. by eapply feed_run_input.
Qed.

Lemma x_run_input ls (x x' : exchange) :
  x_run ls x = Ok x' → fd_input (x_feed x) `prefix_of` fd_input (x_feed x').
Proof.
  revert x. induction ls as [|l ls IH]; intros x; simpl; [by intros [= <-]|].
  destruct (x_exec l x) as [x1|] eqn:He; [|done]. intros Hrun.
  etrans; [by eapply x_exec_input|by apply IH].
Qed.

(** ** Answers are safe to read at any time *)

Section source.
Context (us : list MEMarketUpdate) (Hsource : feed_source tickers us) (Htickers : Z.of_nat tickers ≤ 2 ^ 16).

Abbreviation synced := (synced tickers us).
Abbreviation feed_inv := (feed_inv str_nanos tickers).

Definition answer_ok (request : list Z) (answer : list (list Z)) : Prop :=
  ∀ s k, synced k (cl_view s) → ∃ k', synced k' (cl_view (on_answer request (concat answer) s)).

Lemma answer_safe (f : feed U S) snaps F D request :
  feed_inv f snaps F D → fd_input f `prefix_of` us →
  answer_ok request (handleClient str_nanos request (fd_streamer f)).2.
Proof.
  intros Hinv Hin s k Hs. pose proof (fi_stream _ _ _ _ _ _ Hinv) as Hst.
  destruct request as [|c rest]; [by exists k|]. unfold handleClient, on_answer.
  destruct (c =? char_S).
  - rewrite cl_snapshot_view. eexists. eapply served_snapshot_synced; [done..| |lia]. destruct Hs as (_ & _ & ->). apply truth_length.
  - destruct (c =? char_R); [|by exists k]. rewrite cl_replay_view. destruct (_ <? 8)%nat; [by exists k|]. cbn [snd].
    rewrite (serveReplay_ok str_nanos tickers (take D snaps)); [|done|by eapply inv_seq|].
    + apply (on_replay_safe tickers us Hsource _ _ k); [|done]. intros i d. apply (snap_is_frame us (fd_input f)); [done|].
      intros j sn [Hj _]%lookup_take_Some. by apply Hinv.
    + destruct (swap64_range (of_host_bytes (take 8 rest))). done.
Qed.

Lemma answers_safe clients (f f' : feed U S) snaps F D :
  feed_inv f snaps F D → fd_input f `prefix_of` us →
  feed_run pub_nanos str_nanos (FClient <$> clients) f = Ok f' →
  ∃ answers, fd_answers f' = fd_answers f ++ answers ∧ Forall2 answer_ok clients answers.
Proof.
  revert f. induction clients as [|request clients IH]; intros f Hinv Hin; simpl.
  { intros [= <-]. exists []. by rewrite app_nil_r. }
  pose proof (answer_safe f snaps F D request Hinv Hin) as Hok.
  pose proof (handleClient_ok str_nanos tickers _ _ request (fi_stream _ _ _ _ _ _ Hinv)) as Hst.
  destruct (handleClient str_nanos request (fd_streamer f)) as [st ans]. intros Hrun.
  destruct (IH (Feed (fd_publisher f) (fd_updates f) st (fd_input f) (fd_answers f ++ [ans])))
    as (answers & Ha & HF); [destruct Hinv; by split|done|done|].
  exists (ans :: answers). cbn [fd_answers] in Ha. split; [by rewrite Ha, <- app_assoc|by constructor].
Qed.

(** The answers a step of the exchange gives. *)
Lemma fresh_safe l (x x' : exchange) snaps F D :
  feed_inv (x_feed x) snaps F D → fd_input (x_feed x) `prefix_of` us → x_exec l x = Ok x' →
  Forall (λ e, answer_ok e.1 e.2) (zip (asked l) (fresh_answers x x')).
Proof.
  intros Hinv Hin He. destruct l as [| |ev| | | |clients]; try apply Forall_nil_2.
  assert (Hsame : fd_answers (x_feed x') = fd_answers (x_feed x) →
    zip clients (fresh_answers x x') = []).
  { intros Heq. unfold fresh_answers. rewrite Heq, drop_all. by destruct clients. }
  cbn [asked]. simpl in He. unfold if_running in He. case_bool_decide; [|injection He as <-; by rewrite Hsame].
  unfold streamer_step in He. destruct (x_st_pc x).
  - destruct (run_ _) in He; injection He as <-; by rewrite Hsame.
  - destruct (getNextRead _) in He; [|injection He as <-; by rewrite Hsame].
    unfold feed_exec in He. destruct (drain_one _ _) as [[q st]|] in He; [|done].
    injection He as <-. by rewrite Hsame.
  - destruct (feed_run _ _ _ _) as [f|] eqn:Hrun; [|done]. injection He as <-.
    destruct (answers_safe clients _ _ _ _ _ Hinv Hin Hrun) as (answers & Ha & HF).
    unfold fresh_answers. simpl. rewrite Ha, drop_app_length. clear -HF.
    induction HF; simpl; constructor; done.
Qed.

(** ** The invariant *)

Record w_inv (evs : list net_event) (w : world) : Prop := {
  wi_exchange : x_inv evs (w_exchange w);
  wi_input : fd_input (x_feed (w_exchange w)) `prefix_of` us;
  wi_log : Forall (λ e, answer_ok e.1 e.2) (w_log w);
  wi_synced : ∃ k, synced k (cl_view (w_sub w))
}.

Lemma w_run_ok evs ops w xf :
  load_ok v tickers pool size evs → w_inv evs w →
  arrived (w_exchange w) ++ arrivals (labels ops) `prefix_of` evs →
  x_run (labels ops) (w_exchange w) = Ok xf → fd_input (x_feed xf) `prefix_of` us →
  ∃ w', w_run ops w = Ok w' ∧ w_exchange w' = xf ∧ w_inv evs w'.
Proof.
  intros Hload. revert w. induction ops as [|op ops IH]; intros w Hw Hevs Hrun Hus.
  { simpl in Hrun. injection Hrun as <-. by exists w. }
  pose proof Hw as [Hx Hin Hlog [k Hk]]. destruct op as [l|i|i]; cbn [labels omap list_omap] in Hevs, Hrun.
  - cbn [System.x_run] in Hrun. rewrite arrivals_cons, app_assoc in Hevs.
    destruct (x_exec_ok v epoch_nanos pub_nanos str_nanos tickers pool size evs l (w_exchange w) Hload Hx)
      as (x1 & Hl & Hx1); [by eapply prefix_app_l|].
    rewrite Hl in Hrun. cbn [w_run w_exec]. rewrite Hl.
    destruct (xi_feed _ _ _ _ _ _ _ Hx) as (snaps & F & D & Hf).
    apply IH; cbn [w_exchange]; [|by rewrite (x_exec_arrived _ _ _ _ _ _ Hl)|done|done].
    split; cbn [w_exchange w_log w_sub]; [done| | |by exists k].
    + etrans; [by eapply x_run_input|done].
    + apply Forall_app. split; [done|]. by eapply fresh_safe.
  - cbn [w_run w_exec]. destruct (datagrams _ !! i) as [d|] eqn:Hd; [|by apply IH].
    apply IH; [|done..]. split; cbn [w_exchange w_log w_sub]; [done..|].
    destruct (xi_feed _ _ _ _ _ _ _ Hx) as (snaps & F & D & Hf).
    eexists. rewrite cl_datagram_view. eapply on_datagram_synced; [done| |done].
    rewrite (fi_datagrams _ _ _ _ _ _ Hf) in Hd.
    by eapply (snap_is_frame us (fd_input (x_feed (w_exchange w)))); [|apply Hf|].
  - cbn [w_run w_exec]. destruct (w_log w !! i) as [[request answer]|] eqn:Hi; [|by apply IH].
    apply IH; [|done..]. split; cbn [w_exchange w_log w_sub]; [done..|].
    by apply (Forall_lookup_1 _ _ _ _ Hlog Hi _ k).
Qed.
End source.

(** What the engine has sent can be followed, as long as its clients neither
    cancel in part nor replace into a trade. *)
Lemma spec_source evs (x : exchange) :
  load_ok v tickers pool size evs → x_inv evs x → Z.of_nat tickers ≤ 2 ^ 16 →
  told_run v (taken x) (s_engine_new tickers) →
  let se := spec_run v tickers x in
  feed_source tickers (updates (sent_by se)) ∧
  shadows (foldl books_after (replicate tickers ∅) (updates (sent_by se))) se.
Proof.
  intros Hload Hx Ht Htold se.
  pose proof (part_ready v tickers pool size evs (taken x) Hload) as Hready.
  pose proof (taken_decoded epoch_nanos str_nanos tickers pool size evs x Hx) as Htk.
  destruct (Hready Htk) as (Hrq & Hnd & Hpool).
  destruct (inv_updates v epoch_nanos str_nanos tickers pool size evs x Hload Hx) as [Hup Hlen].
  rewrite (inv_sent v _ _ _ _ _ evs x Hload Hx) in Hup, Hlen.
  assert (Hlen1 : Z.of_nat (length (taken x)) + 1 < 2 ^ 64).
  { pose proof (submseteq_length _ _ Htk). pose proof (lo_messages _ _ _ _ _ Hload).
    unfold REQUEST_MESSAGES in *. lia. }
  destruct (new_run_shadows v tickers pool (taken x) Hnd Hpool
    (run_ready_qty _ _ _ _ (Hready Htk)) Hlen1 Htold) as [Hsh Hcoh].
  split; [|done]. split; [|done|done|done].
  pose proof (spec_wire v epoch_nanos str_nanos tickers pool size evs x Hload Hx Ht) as Hw.
  rewrite Forall_forall in Hw. apply Forall_forall. intros u Hu. by apply (Hw (Upd u)), elem_of_updates.
Qed.

(** C4: The whole exchange, from client bytes on sockets to datagrams, on any
    schedule, with any order book that has the laws of [OrderBookLaws], beside
    any client of the feed that keeps to the README's protocol and whose
    datagrams and recovery answers are lost, repeated, reordered and delayed at
    will.  With an admissible load (the requests decoded from the bytes name
    listed tickers and prices the book can hold, no ticker gets more NEW
    requests in the whole run than its pool has slots, and no 64-bit counter
    wraps) and at most 65536 tickers no thread faults.  If moreover no request
    taken so far cancels a part of an order or replaces one at a price that
    crosses the other side, and with the vector book none replaces an order by a
    fill-and-kill order, then the client's books are the market after the
    updates up to its sequence number; once that is the number of all updates,
    they are for every ticker exactly the resting orders of the specification's
    book, which the engine's book represents. *)
Theorem world_in_sync (rq : Q) (rs : R) (mu : U) (su : S) (fifoPending : nat) (c : C)
    (ops : list world_op) :
  queues_empty rq rs mu su → load_ok v tickers pool size (arrivals (labels ops)) →
  Z.of_nat tickers ≤ 2 ^ 16 → cl_fresh tickers c →
  ∃ x, x_run (labels ops) (exchange_new (B := B) rq rs mu su tickers pool fifoPending size) = Ok x ∧
    (told_run v (taken x) (s_engine_new tickers) →
     ∃ w, w_run ops (world_new (exchange_new (B := B) rq rs mu su tickers pool fifoPending size) c) = Ok w ∧
       w_exchange w = x ∧
       let se := spec_run v tickers x in
       let us := updates (sent_by se) in
       let has := cl_view (w_sub w) in
       engine_rel v pool (x_books x) se ∧
       synced tickers us (Z.to_nat (sb_seq has)) has ∧
       (sb_seq has = Z.of_nat (length us) →
        ∀ t sb, ticker_order_book_ se !! t = Some sb →
          sb_books has !! t = Some (book_view (s_orders sb)))).
Proof.
  intros Hqs Hload Ht Hc.
  destruct (start_run v epoch_nanos pub_nanos str_nanos tickers pool size rq rs mu su fifoPending
    (labels ops) Hqs Hload) as (x & Hrun & Hx & _).
  exists x. split; [done|]. intros Htold.
  destruct (spec_source _ x Hload Hx Ht Htold) as [Hsrc Hsh].
  destruct (xi_sent _ _ _ _ _ _ _ Hx) as (pushed & Hsent & Hin & _).
  rewrite (inv_sent v _ _ _ _ _ _ x Hload Hx) in Hsent.
  destruct Hqs as [Hq Hr Hu Hs].
  destruct (w_run_ok _ Hsrc Ht (arrivals (labels ops)) ops
    (world_new (exchange_new rq rs mu su tickers pool fifoPending size) c) x Hload)
    as (w & Hw & Hwx & [_ _ _ [k Hk]]); [|done|done| |].
  { split; simpl; [by apply exchange_new_inv|apply prefix_nil|constructor|].
    exists 0%nat. rewrite Hc. split_and!; simpl; [lia|done|done]. }
  { rewrite Hin, Hsent, updates_app. by apply prefix_app_r. }
  exists w. split; [done|]. split; [done|]. intros se us has. split; [by eapply inv_engine|].
  unfold has, us, se in *. clear has us se.
  pose proof Hk as (_ & Hseq & Hbooks). rewrite Hseq, Nat2Z.id. split; [done|]. intros Hall t sb Hsb.
  destruct (Forall2_lookup_r _ _ _ _ _ Hsh Hsb) as (orders & Ho & Hv).
  rewrite Hbooks. unfold truth. rewrite take_ge by lia.
  change (replicate tickers ∅) with (replicate tickers (shadow_view ∅)).
  by rewrite <- fmap_replicate, <- shadow_views_foldl, list_lookup_fmap, Ho, <- Hv.
Qed.
End world.

(** ** A concrete run

    The exchange of [SystemSafe] with a client that is the protocol itself: a recovery client asks for a
    snapshot on the way, the second datagram arrives before the first and again
    after it, and the old snapshot is read twice. *)

Import MapOB.

Definition demo_world_ops : list world_op :=
  (WExchange <$> demo_arrivals ++ concat (replicate 14 demo_round) ++
     concat (replicate 6 [LPublisher; LStreamer [[char_S]]; LGateway; LEngine])) ++
  [WAnswer 0] ++
  (WExchange <$> concat (replicate 40 demo_round)) ++
  [WDatagram 1; WAnswer 0; WDatagram 0; WDatagram 0; WDatagram 1].

Abbreviation demo_world :=
  (world (Q := list_queue MEClientRequest) (R := list_queue MEClientResponse)
     (U := list_queue MEMarketUpdate) (S := list_queue SnapshotUpdate) (B := book SetPool.t map_levels) (C := subscriber)).

Definition demo_world_run : outcome demo_world :=
  w_run (H7 := map_order_book id) (H8 := stable_sort) (H14 := packed_itch) (H18 := list_iteration)
    (H20 := protocol_client (H0 := read_packed)) demo_clock demo_clock demo_clock demo_world_ops
    (world_new demo_exchange_new (Sub 0 [∅])).

(** What the client has, and how many recovery requests were served. *)
Definition w_shows (o : outcome demo_world) : option (Z * list (list (OrderId * view)) * nat) :=
  match o with
  | Ok w => Some (sb_seq (w_sub w), map_to_list <$> sb_books (w_sub w), length (w_log w))
  | Fault _ => None
  end.

Strategy expand [demo_world_run].

Lemma demo_world_load : load_ok (H7 := map_order_book (P := SetPool.t) id)
  (OrderBookLaws0 := map_order_book_laws id (λ l Hl, Hl)) MapBook 1 8 16 (arrivals (labels demo_world_ops)).
Proof.
  assert (Harr : arrivals (labels demo_world_ops) = arrivals demo_arrivals) by (vm_compute; reflexivity).
  rewrite Harr. apply demo_load.
Qed.

(** The requests are two new orders. *)
Lemma all_new_told v rqs se : Forall (λ rq, rq_action_ rq = REQ_NEW) rqs → told_run v rqs se.
Proof.
  intros HF. revert se. induction HF as [|rq rqs Hrq _ IH]; intros se; simpl; [done|].
  split; [|apply IH]. intros sb _ o _. by rewrite Hrq.
Qed.

Lemma world_in_sync_witness :
  ∃ w : demo_world, demo_world_run = Ok w ∧ sb_seq (w_sub w) = 2 ∧ length (w_log w) = 2%nat ∧
    synced 1 (updates (sent_by (spec_run MapBook 1 (w_exchange w)))) 2 (w_sub w).
Proof.
  destruct (world_in_sync (H0 := list_queue_laws _) (H2 := list_queue_laws _)
    (H4 := list_queue_laws _) (H6 := list_queue_laws _) (H7 := map_order_book (P := SetPool.t) id)
    (OrderBookLaws0 := map_order_book_laws id (λ l Hl, Hl)) (H8 := stable_sort)
    (H15 := packed_itch_laws) (H17 := read_packed_laws) (H19 := list_iteration_laws)
    (H20 := protocol_client) (FeedClientLaws0 := protocol_client_laws)
    MapBook demo_clock demo_clock demo_clock 1 8 16 _ _ _ _ 4 (Sub 0 [∅]) demo_world_ops demo_queues demo_world_load)
    as (x & Hrun & Hsub); [lia|reflexivity|].
  destruct Hsub as (w & Hw & <- & _ & Hsync & _).
  { apply all_new_told. vm_compute in Hrun. injection Hrun as <-. repeat constructor. }
  assert (Hshow : w_shows demo_world_run = Some (2, [[]], 2%nat)) by (vm_compute; reflexivity).
  unfold demo_world_run, demo_exchange_new in Hshow. rewrite Hw in Hshow.
  injection Hshow as Hseq _ Hlog. cbn [cl_view protocol_client id] in Hsync. rewrite Hseq in Hsync.
  exists w. split; [exact Hw|]. split; [exact Hseq|]. split; [exact Hlog|exact Hsync].
Defined.
