(* ===== verification/Reach.v ===== *)
(** * Reach: the market reaches every client of the feed

    [Liveness] brings the exchange to rest, [World] keeps the clients of its feed
    in sync; together: whatever admissible load the order clients have sent,
    after enough fair rounds one snapshot gives any client of the feed the
    complete market. *)

From S2P Require Import Prelude Types BookSpec DList Memory StoreRep LevelMap Levels BookSpecFacts BookTime Soundness BookCore MatchingEngine Trades OrderBookMap MapRefine MapTheorems EngineMap Queue Fifo Wire TokenManager Ouch OuchFacts OrderServer ServerFacts Gateway Exchange Itch Publisher Streamer FeedFacts MarketData ShadowBook FeedTruth Messages Lifecycle System SystemInv SystemSafe Fair Progress Liveness Readable Subscriber Recovery PackedItch World.
Import Itch.

Section reach.
Context {Q R U S B : Type}.
Context `{SPSCQueueLaws MEClientRequest Q} `{SPSCQueueLaws MEClientResponse R}.
Context `{SPSCQueueLaws MEMarketUpdate U} `{SPSCQueueLaws SnapshotUpdate S}.
Context (v : variant) `{OrderBook B} `{!OrderBookLaws v B}.
Context `{StdSort} `{!StdSortLaws} `{OuchWire} `{!OuchWireLaws} `{ByteSwap} `{!ByteSwapLaws}.
Context `{ItchWire} `{!ItchWireLaws} `{ItchReader} `{!ItchReaderLaws} `{HashIteration} `{!HashIterationLaws}.
Context {C : Type} `{FeedClient C} `{!FeedClientLaws C}.
Context (epoch_nanos pub_nanos str_nanos : nat → Z) (tickers pool size : nat).

Abbreviation exchange := (exchange Q R U S B).
Abbreviation x_run := (x_run epoch_nanos pub_nanos str_nanos).
Abbreviation x_inv := (x_inv epoch_nanos str_nanos tickers pool size).
Abbreviation load_ok := (load_ok v tickers pool size).

(** The market of the specification. *)
Definition spec_market (se : engine sbook) : list market_view :=
  (λ sb, book_view (s_orders sb)) <$> ticker_order_book_ se.

(** A snapshot from an exchange at rest. *)
Lemma quiet_snapshot evs (x : exchange) (sub : subscriber) :
  load_ok evs → x_inv evs x → x_en_pc x = EnTop → Z.of_nat tickers ≤ 2 ^ 16 →
  let se := s_run v (x_done x) (s_engine_new tickers) in
  last_seq_num_ (fd_streamer (x_feed x)) = Z.of_nat (length (updates (sent_by se))) →
  told_run v (x_done x) (s_engine_new tickers) → length (sb_books sub) = tickers →
  on_snapshot (concat (handleClient str_nanos [char_S] (fd_streamer (x_feed x))).2) sub =
    Sub (Z.of_nat (length (updates (sent_by se)))) (spec_market se).
Proof.
  intros Hload Hx Hpc Ht se Hlast Htold Hsub.
  assert (Htk : taken x = x_done x) by (unfold taken, in_hand; by rewrite Hpc, app_nil_r).
  rewrite <- Htk in Htold. destruct (spec_source v epoch_nanos str_nanos tickers pool size evs x Hload Hx Ht Htold)
    as [Hsrc Hsh]. unfold spec_run in Hsrc, Hsh. rewrite Htk in Hsrc, Hsh. fold se in Hsrc, Hsh.
  destruct (xi_sent _ _ _ _ _ _ _ Hx) as (pushed & Hs & Hin & _).
  rewrite (inv_sent v _ _ _ _ _ evs x Hload Hx) in Hs. unfold spec_run in Hs. rewrite Htk in Hs. fold se in Hs.
  destruct (xi_feed _ _ _ _ _ _ _ Hx) as (snaps & F & D & Hf).
  destruct (served_snapshot_synced tickers _ Hsrc str_nanos (x_feed x) snaps F D sub Hf)
    as (_ & Hseq & Hbooks); [|done|lia|].
  { rewrite Hin, Hs, updates_app. by apply prefix_app_r. }
  rewrite Hlast, Nat2Z.id in Hseq, Hbooks. unfold truth in Hbooks. rewrite take_ge in Hbooks by lia.
  unfold handleClient. change (char_S =? char_S) with true. cbn iota.
  destruct (on_snapshot _ _) as [q vs]. simpl in Hseq, Hbooks. subst q vs. f_equal. unfold spec_market.
  change (replicate tickers ∅) with (replicate tickers (shadow_view ∅)).
  rewrite <- fmap_replicate, <- shadow_views_foldl. unfold shadows in Hsh.
  apply list_eq_Forall2, Forall2_fmap. eapply Forall2_impl; [exact Hsh|]. done.
Qed.

(** C8: Everything that was asked for becomes visible.  The exchange, with any
    order book that has the laws of [OrderBookLaws] and at most 65536 tickers,
    has received an admissible load (the requests decoded from the bytes name
    listed tickers and prices the book can hold, no ticker gets more NEW
    requests in the whole run than its pool has slots, and no 64-bit counter
    wraps), each of its four queues can hold one element, it is in service, and
    nothing more arrives and no signal comes.  Then every schedule in which each
    thread moves once per round reaches within six times [work x] rounds,
    without a fault, a state in which all requests have been processed, each
    once, and the books represent the specification's.  If no request cancelled
    a part of an order or replaced one at a price that crossed the other side,
    and with the vector book none replaced an order by a fill-and-kill order,
    one snapshot then turns what any client of the feed has that keeps to the
    README's protocol, whatever it missed before, into exactly the resting
    orders of every book, with the number of all updates as its sequence number.
    *)
Theorem market_reaches_subscribers (rq : Q) (rs : R) (mu : U) (su : S) (fifoPending : nat)
    (ls ls' : list label) (x : exchange) :
  queues_empty rq rs mu su → roomy (capacity rq, capacity rs, capacity mu, capacity su) →
  load_ok (arrivals ls) → Z.of_nat tickers ≤ 2 ^ 16 →
  x_run ls (exchange_new (B := B) rq rs mu su tickers pool fifoPending size) = Ok x → serving x →
  Forall calm ls' → rounds mover (6 * work v tickers size x)%nat ls' →
  ∃ x', x_run ls' x = Ok x' ∧ x_done x' ≡ₚ decoded size (arrivals ls) ∧
    let se := s_run v (x_done x') (s_engine_new tickers) in
    engine_rel v pool (x_books x') se ∧
    (told_run v (x_done x') (s_engine_new tickers) →
     ∀ c : C, length (sb_books (cl_view c)) = tickers →
     cl_view (cl_snapshot (concat (handleClient str_nanos [char_S] (fd_streamer (x_feed x'))).2) c) =
       Sub (Z.of_nat (length (updates (sent_by se)))) (spec_market se)).
Proof.
  intros Hqs Hcap Hload Ht Hrun Hserv Hcalm Hrounds.
  destruct (quiesces_from v epoch_nanos pub_nanos str_nanos tickers pool size rq rs mu su fifoPending ls ls' x)
    as (x' & Hrun' & Hat & Hq); [done..|].
  exists x'. split; [done|].
  destruct (quiet_complete v epoch_nanos str_nanos tickers pool size (arrivals ls) x' Hload Hat Hq)
    as (Hdone & Hrel & _ & _ & _ & Hlast & _).
  split; [done|]. split; [done|]. intros Htold c Hc. destruct Hat as [Hx _].
  rewrite cl_snapshot_view. by eapply quiet_snapshot; [| |apply Hq|..].
Qed.
End reach.

(** ** A concrete run

    One order arrives; the client has somebody else's market in its books. *)

Import MapOB.

Definition rest_arrivals : list label :=
  replicate 8 LMain ++ [LArrive (NRecv sockA (demo_enter 65) 10); LArrive NRecvFinished].

Definition rest_waiting : demo_exchange :=
  match demo_x_run rest_arrivals demo_exchange_new with Ok x => x | Fault _ => demo_exchange_new end.

Definition rest_patience : nat := (6 * work MapBook 1 16 (H0 := list_queue_laws _)
  (H2 := list_queue_laws _) (H4 := list_queue_laws _) (H6 := list_queue_laws _) rest_waiting)%nat.

Definition rest_run (ls : list label) (x : demo_exchange) : outcome demo_exchange :=
  x_run (H3 := map_order_book id) (H4 := stable_sort) (H7 := packed_itch) (H8 := list_iteration)
    demo_clock demo_clock demo_clock ls x.

Lemma rest_load : load_ok (H7 := map_order_book (P := SetPool.t) id)
  (OrderBookLaws0 := map_order_book_laws id (λ l Hl, Hl)) MapBook 1 8 16 (arrivals rest_arrivals).
Proof.
  split.
  - let d := eval vm_compute in (decoded 16 (arrivals rest_arrivals)) in
      replace (decoded 16 (arrivals rest_arrivals)) with d by (vm_compute; reflexivity).
    apply Forall_cons. split; [|by apply Forall_nil]. split; [simpl; lia|]. split; [simpl; lia|by right].
  - intros t. etrans; [apply new_load_le|]. vm_compute. lia.
  - lia.
  - vm_compute. reflexivity.
  - vm_compute. reflexivity.
Qed.

Definition lost_subscriber : subscriber := Sub 77 [{[5 := (SELL, 1, 1)]}].

(** The requests a run has processed. *)
Definition processed (o : outcome demo_exchange) : list MEClientRequest :=
  match o with Ok x => x_done x | Fault _ => [] end.

Definition rest_processed : list MEClientRequest :=
  Eval vm_compute in processed (rest_run (concat (replicate rest_patience demo_round)) rest_waiting).

Strategy expand [rest_run].

Lemma market_reaches_subscribers_witness :
  ∃ x', rest_run (concat (replicate rest_patience demo_round)) rest_waiting = Ok x' ∧
    cl_view (FeedClient := protocol_client (H0 := read_packed))
      (cl_snapshot (FeedClient := protocol_client (H0 := read_packed))
        (concat (handleClient (H1 := packed_itch) (H2 := list_iteration) demo_clock [char_S]
          (fd_streamer (x_feed x'))).2) lost_subscriber) =
      Sub 1 [{[1 := (BUY, 100, 10)]}].
Proof.
  destruct (market_reaches_subscribers (H0 := list_queue_laws _) (H2 := list_queue_laws _)
    (H4 := list_queue_laws _) (H6 := list_queue_laws _) (H7 := map_order_book (P := SetPool.t) id)
    (OrderBookLaws0 := map_order_book_laws id (λ l Hl, Hl)) (H8 := stable_sort)
    (H15 := packed_itch_laws) (H17 := read_packed_laws) (H19 := list_iteration_laws)
    (H20 := protocol_client) (FeedClientLaws0 := protocol_client_laws)
    MapBook demo_clock demo_clock demo_clock 1 8 16 _ _ _ _ 4 rest_arrivals
    (concat (replicate rest_patience demo_round)) rest_waiting demo_queues) as (x' & Hrun & _ & _ & Hsub).
  - split_and!; simpl; lia.
  - exact rest_load.
  - lia.
  - vm_compute. reflexivity.
  - split; vm_compute; reflexivity.
  - apply demo_round_calm.
  - apply rounds_replicate, demo_round_round.
  - assert (Hdone : processed (rest_run (concat (replicate rest_patience demo_round)) rest_waiting) =
      rest_processed) by (vm_compute; reflexivity).
    exists x'. split; [exact Hrun|]. unfold rest_run in Hdone. rewrite Hrun in Hdone.
    cbn [processed] in Hdone. rewrite Hdone in Hsub. rewrite Hsub; [vm_compute; reflexivity| |reflexivity].
    apply all_new_told. repeat constructor.
Defined.
